(* ===== verification/_CoqProject ===== *)
-Q . S2P
Prelude.v
Noun.v
Interp.v
NockSpec.v
InterpSound.v
InterpComplete.v
InterpUnwind.v
InterpTheorems.v
Jets.v
JetsTheorems.v
JetsBitsTheorems.v
Belt.v
Vec.v
Poly.v
BPoly.v
Ntt.v
Felt.v
Tip5.v
NounHash.v
Treap.v
Zoon.v
ZoonTheorems.v
Hamt.v
HamtTheorems.v
Serialization.v
SerializationTheorems.v
NounSerde.v
NounSerdeTheorems.v
Mug.v
MugTheorems.v
KeyFairQueue.v
Base58.v
P2pState.v
P2pStateTheorems.v
Cheetah.v
CheetahField.v
CheetahTheorems.v
NockStack.v
NockStackTheorems.v
NockStackFrames.v
Preserve.v
PreserveTheorems.v
Collector.v
Unify.v
FrameAreas.v
UnifyTheorems.v
UnifyLoop.v
UnifyEquality.v
JetsSets.v
JetsSetsTheorems.v
ColdWarm.v
ColdWarmTheorems.v
JetsLists.v
JetsListsTheorems.v
Slab.v
SlabTheorems.v
SlabMemoryTheorems.v
Saver.v
SaverTheorems.v
