(* ===== verification/Prelude.v ===== *)
(** * A verified model of the Nock virtual machine and its mathematics

    The program is a Rust workspace (crates/): a virtual machine for Nock (nockvm),
    the field, polynomial and hash arithmetic of its proof system (nockchain-math),
    the encoding of Rust values as nouns (noun-serde), and the node, wallet and
    services built on them.  A noun is an atom or a pair of nouns; the interpreter
    reduces a formula against a subject; jets replace formulas by Rust; jam and cue
    turn nouns into atoms and back; the chain stores sets and maps as treaps
    ordered by the Tip5 hash of their keys.  This library models the parts that
    carry this logic, and proves what the rest of the program relies on.

    ** Files

    Each component has a file with its definitions, and a file of theorems where
    they are long.  A definition keeps the name of the function it translates.

    - Prelude: outcomes of Rust calls (value, error, panic), machine words, bit
      slices, shared list lemmas.
    - Noun: nockvm/src/noun.rs at word level.  An atom is a direct word or a buffer
      of words; axis iterators, [slot], [edit], normalization and [inc].
    - Interp: nockvm/src/interpreter.rs.  [Context] is its state record, [NockWork]
      its work items; [formula_work] is push_formula, [step_work0] to [step_work12]
      are the arms of the loop, [dispatch] one round, [interpret] the entry point
      with [exit] and the running status.  Jets, the cold state and the warm state
      are the interface [JetState], which [vm_jets] of JetsLists implements.
    - NockSpec: Nock itself, on mathematical nouns ([mnock]) and on words ([nock]).
    - InterpSound, InterpComplete, InterpUnwind, InterpTheorems: the interpreter and Nock
      agree; [layers] are the frames of a running call, [status_step] the protocol of the
      running status, with the early returns of [interpret] that skip its epilogue.
    - Jets, JetsTheorems, JetsBitsTheorems: the jets of jets/math.rs, bits.rs and
      tree.rs with the helpers of jets.rs, on the words of atoms.
    - JetsSets, JetsSetsTheorems: jets/sort.rs, jets/set.rs and [find] of jets/list.rs,
      on the memory of Mug, because they compare pointers.  [hoon_dor], [hoon_gor] and
      [hoon_mor] are the orders of hoon-138.hoon, [mug_gor] and [mug_mor] the last two by
      the mug of mug.rs; [unified] says that equal nouns are the same words.
    - ColdWarm, ColdWarmTheorems: jets/cold.rs, warm.rs and hot.rs, against [NounMap].
      [held] is the relation between paths and core hierarchies that the three maps
      of [Cold] index, [lies] says that a core is in a hierarchy.
    - JetsLists, JetsListsTheorems: jets/list.rs and site.rs.  Jets with a gate are in
      the monad [G] over the context of the interpreter.
    - NockStack, NockStackTheorems, NockStackFrames: nockvm/src/mem.rs.  The record
      [NockStack] has the offsets and the memory as a map from word addresses;
      operations are in the monad [M], whose failures are panics, allocation errors
      and accesses outside the arena.  [Inv] describes the saved pointers of all
      frames, [body] what code may do between a push and a pop.
    - Preserve, PreserveTheorems, Collector: nouns as tagged words in that memory and
      the copying of nouns to the previous frame ([noun_preserve]).  [rep] relates a
      word to the noun it denotes, [gc] is the invariant of the copying loop.
    - Unify, FrameAreas, UnifyTheorems, UnifyLoop, UnifyEquality:
      nockvm/src/unifying_equality.rs on the same memory, which it rewrites while it
      compares.  [areas] lists the allocations of the frames, [den] relates words and
      nouns through typed objects, [U] is the state of the loop.
    - Belt, Vec, Poly, BPoly, Ntt, Felt: nockchain-math's belt.rs, bpoly.rs, poly.rs
      and felt.rs.  Vec has the indexing and loops of slices, Poly the mathematical
      polynomials the slice routines are compared with.
    - Tip5, NounHash: tip5/mod.rs, tip5/hash.rs and shape.rs.
    - Treap, Zoon, ZoonTheorems: zoon/common.rs, zset.rs and zmap.rs.  Treap is the
      specification, Zoon the routines on nouns, against the interface [TipHasher].
    - Hamt, HamtTheorems: nockvm/src/hamt.rs.  [StemOps] and [StemLaws] are what the
      shared loop needs of a stem, [NounMap] and [NounMapLaws] what a map from nouns
      promises its clients.
    - Serialization, SerializationTheorems: nockvm/src/serialization.rs, against
      [NounMap]; cue works on a heap of partially initialised cells.
    - NounSerde, NounSerdeTheorems: noun-serde/src/lib.rs with the byte and string
      conversions of nockvm/src/ext.rs; the traits are type classes.
    - Mug, MugTheorems: nockvm/src/mug.rs and the Murmur3 it uses, on a memory of
      allocated nouns that share their cached mugs.
    - KeyFairQueue: nockchain-libp2p-io/src/key_fair_queue.rs.  A send and a receive
      are two actions each on shared structures; [step] interleaves them.
    - Base58: nockchain-libp2p-io/src/tip5_util.rs and the strings of [Hash] in
      nockchain-types.  The crate bs58 is the parameter [Bs58] with the law
      [Bs58Laws] that decoding undoes encoding; the documented encoding is an
      instance of both.
    - P2pState, P2pStateTheorems: nockchain-libp2p-io/src/p2p_state.rs and the places
      of driver.rs that update and query the sets of seen blocks and transactions.
      [P2PState] is its state record; the abstract state is a relation between blocks
      and peers and a table of live connections.
    - Slab, SlabTheorems, SlabMemoryTheorems: nockapp/src/noun/slab.rs and [noun_equality]
      of nockvm/src/ext.rs: the second implementation of jam and cue, on bytes and
      against the encoding of SerializationTheorems, and comparing, hashing and copying
      nouns in the memory of Mug.  [lives] says that a noun lies in the slab.
    - Saver, SaverTheorems: nockapp/src/nockapp/save.rs.  [Disk] has the two files,
      [Saver] the state of the saver; bincode is the parameter [Bincode] with the laws
      [BincodeLaws], of which its documented format is an instance, blake3 a function,
      and the jammer the interface [Jammer].  [step] is a history of saves, cut writes,
      crashes and restarts.
    - Cheetah, CheetahField, CheetahTheorems: nockchain-math/src/crypto/cheetah.rs:
      coordinates, points, scalar multiplication and the strings of public keys.

    ** What the theorems show

    - The interpreter (C1 to C3, C7): what it returns is the Nock reduction, every
      reduction is reached with frames and status balanced, what a failed call restores
      and what an early return leaves behind, and the count of running calls and early
      returns in the status under any interleaving with cancellations.
    - Memory (C4, C25, C35, C39): the stack stays inside its arena and well formed, and
      frames nest, unless an operation takes the last free word of a frame; the copying of nouns out of a frame keeps
      what they denote, their sharing and the memory of the other frames, and
      unifying equality decides equality while no word changes its meaning and no
      cell comes to refer to a junior frame.
    - Jets (C5, C9, C12, C30, C31, C34): the jets compute the arithmetic, bit,
      axis and list operations they stand for, with their bounds and errors, and the
      ones that call a gate return what Nock reduces the calls to.  The sorting and set
      jets are right, for the mug of mug.rs, where equal nouns are the same words, except
      that [jet_has] finds only the root.
    - Registration (C14, C19): the cold state is an index of the hierarchies that
      registrations add, without panics, matching finds the hierarchies above a root, and
      the warm state finds a jet for a core exactly when one is registered for it.
    - Arithmetic (C8, C11, C15, C16, C22): the word operations are those of the prime
      field, the Montgomery chain inverts, the slice routines are Euclidean division
      and extended gcd of polynomials, the in-place transform evaluates at the powers
      of a root of unity.  Without a number: reduction of 128 bits, the product of
      polynomials, the cubic extension as a field.
    - The curve (C6, C10, C20): the coordinates form a field, the formulas for points
      are total and closed on each curve with the laws of a sum except associativity,
      and which strings of public keys are read back, rejected, or panic.
    - Hashing (C23, C26, C40): the Tip5 rounds are injective on field states, the belts
      hashed for a noun determine it; the cached mug is the recursive one.  Without a
      number: the sponge is total with injective padding.
    - The node (C13, C17, C21): the fair queue never panics, loses nothing and
      delivers in turn the last value sent under any interleaving; the maps of the peer state implement
      a relation and a table under any history.
    - Data structures (C28, C29, C32): one treap per set whatever the order of
      insertion, difference, and both hash tries are finite maps.
    - Encodings (C33, C36, C37): cue undoes jam; round trips of Rust values, with the
      strings and bytes that do not survive, and of digests as strings.  Without a number: cue ends on every input, the noun of a
      cold state is read back, maps and sets survive encoding, pieces of an atom are
      put together again.
    - Slabs (C18, C24, C27): their jam agrees with that of the virtual machine and their
      cue undoes it, ends on any bytes and makes no cyclic values, and copying keeps the
      noun, its sharing and its mugs.  Without a number: equality, blocks do not overlap.
    - Checkpoints (C38): whatever writes fail and whenever the process crashes, the last
      complete checkpoint is found again, except that an interrupted first save prevents
      every restart.  Without a number: files of the older formats load, and a save
      notifies exactly the waiters for it.
    - Theorems without a number show how the code goes wrong on inputs the others
      exclude: leaked frames of a refused formula, static hints that pop the trace,
      cyclic values from cue, lossy decoding, a connection the peer state forgets, a
      west frame without a free word, an order of nouns that depends on addresses,
      call sites that never use a jet, input on which the cue of slabs panics.

    ** Fuel and bounds

    Recursion that is not structural takes fuel, and each theorem of a result says
    how much is enough, so running out is excluded rather than assumed away.
    [interpret] takes the number of rounds, which the completeness theorem
    produces from the reduction.  [bpow], [fpow] and [bppow] take 64, the bits of
    the exponent; [bpdvr] and [bpegcd] a bound by the degrees; the tries six levels,
    the depth at which insertion stops splitting leaves; cue a multiple of the
    length of the input; jam the number of nodes; [mug_u32] one round and three for
    each noun without a cached mug; [build_tree] the number of entries; scalar
    multiplication the bits of the scalar, and further rounds change nothing;
    [noun_preserve] two more than the words of the arena, since every round takes an
    entry from the work list or words from the gap; [assert_sane] two more than the
    number of frames; [unifying_equality] one more than twice the nodes of the noun, and
    one more than the number of frames to compare the seniority of two addresses; the
    sorting, set and find jets a bound by the length of the memory, the size of the
    nouns and of the set; the cue of slabs as cue, their jam the number of nodes,
    [copy_into] one turn and two for each allocation, [noun_equality] twice the nodes.

    ** Assumptions of the model

    A release build: arithmetic wraps and debug assertions are off.  Slices of
    polynomials have fewer than 2^32 elements, so that [degree], a natural number here,
    fits the u32 of the code.  Words have 64
    bits and little-endian bytes.  Memory is unbounded outside the files on the
    stack, whose pointers are word addresses below 2^60 and whose arena does not
    overlap the persistent one; elsewhere [unifying_equality] is equality of nouns, as
    C39 shows.  The features sham_hints and hint_dont are off.  A
    jet is a function of its subject.  The iteration order of a hash map is an
    argument.  Tip5 is injective on the keys of a treap where a theorem says so
    ([TipLaws]), which is what the chain assumes of its hash.  The maps and channels
    that threads share act atomically; connection identifiers of libp2p are fresh.
    A write of a file that fails or that a crash of the process interrupts leaves the
    old file or a prefix of the new bytes, and only a crash may leave all of them.

    ** Not modelled

    The persistent arena (pma.rs), whose words the stack model only reads, and the
    mapping of arenas by the operating system; trace output; the
    jets of parsing, printing, virtual Nock and hashing; ibig and the other vendored
    crates; argon2 and urcrypt, which wrap
    third-party code; the derive macro of noun-serde; kernels, drivers, networking,
    services and command-line tools, which are input and output.  Associativity of
    the sum of points is not proved.

    ** This file

    The outcome of a Rust call (a value, an error value, or a panic) with its monad,
    machine-width integers, bit slices in the order bitvec's [Lsb0] uses, and the
    list lemmas that more than one component needs. *)
From stdpp Require Import base option list numbers.
From Stdlib Require Import ZArith Lia.

Declare Scope nock_scope.
Delimit Scope nock_scope with nock.
Open Scope Z_scope.

(** * Outcomes *)

(** What a call of Rust code can do: return [Ok], return [Err], or panic (an
    [unwrap]/[expect], a slice index out of range, an assertion). *)
Inductive outcome (E A : Type) : Type :=
  | Ok (a : A)
  | Err (e : E)
  | Panic.
Arguments Ok {E A} a.
Arguments Err {E A} e.
Arguments Panic {E A}.

Global Instance outcome_ret E : MRet (outcome E) := fun A a => Ok a.
Global Instance outcome_bind E : MBind (outcome E) := fun A B f m =>
  match m with Ok a => f a | Err e => Err e | Panic => Panic end.

Definition ok_of {E A} (m : outcome E A) : option A :=
  match m with Ok a => Some a | _ => None end.

(** [m.map_err(g)] *)
Definition map_err {E F A} (g : E -> F) (m : outcome E A) : outcome F A :=
  match m with Ok a => Ok a | Err e => Err (g e) | Panic => Panic end.

Lemma bind_Ok {E A B} (m : outcome E A) (f : A -> outcome E B) b :
  (m ≫= f) = Ok b <-> exists a, m = Ok a /\ f a = Ok b.
Proof.
  destruct m; cbv [mbind outcome_bind]; split;
    [eauto|intros (? & [= <-] & ?); done|..]; try done; intros (? & ? & ?); done.
Qed.

(** * Machine words *)

Definition U64 : Z := 2 ^ 64.
Definition U32 : Z := 2 ^ 32.

Definition is_u64 (x : Z) : Prop := 0 <= x < U64.
Definition is_u32 (x : Z) : Prop := 0 <= x < U32.

Definition wrap64 (x : Z) : Z := x mod U64.
Definition wrap32 (x : Z) : Z := x mod U32.
Definition wrapping_sub64 (a b : Z) : Z := wrap64 (a - b).
Definition wrapping_add64 (a b : Z) : Z := wrap64 (a + b).
Definition overflowing_sub64 (a b : Z) : Z * bool := (wrap64 (a - b), a <? b).
Definition overflowing_add64 (a b : Z) : Z * bool := (wrap64 (a + b), U64 <=? a + b).
Definition wrapping_sub32 (a b : Z) : Z := wrap32 (a - b).

(** [x.leading_zeros()] of a [u64] *)
Definition leading_zeros64 (x : Z) : Z := if x =? 0 then 64 else 63 - Z.log2 x.

Lemma wrap64_small x : is_u64 x -> wrap64 x = x.
Proof. apply Z.mod_small. Qed.

Lemma wrap64_range x : is_u64 (wrap64 x).
Proof. apply Z.mod_pos_bound. reflexivity. Qed.

Lemma wrap64_add_modulus x : - U64 <= x < 0 -> wrap64 x = x + U64.
Proof.
  intros H. unfold wrap64. rewrite <- (Z_mod_plus_full x 1 U64), Z.mul_1_l.
  apply Z.mod_small. lia.
Qed.

Lemma wrap64_sub_modulus x : U64 <= x < 2 * U64 -> wrap64 x = x - U64.
Proof.
  intros H. unfold wrap64. rewrite <- (Z_mod_plus_full x (-1) U64).
  rewrite Z.mod_small; lia.
Qed.

(** [((x >> i) & 1) != 0], the way the sources test a bit. *)
Definition bit_at (x i : Z) : bool := negb (Z.land (Z.shiftr x i) 1 =? 0).

Lemma bit_at_testbit x i : 0 <= i -> bit_at x i = Z.testbit x i.
Proof.
  intros Hi. unfold bit_at. rewrite (Z.land_ones _ 1) by lia.
  change (2 ^ 1) with 2. rewrite Zmod_odd, <- Z.bit0_odd, Z.shiftr_spec, Z.add_0_l by lia.
  by destruct (Z.testbit x i).
Qed.

(** * Bit slices

    A [BitSlice<u64, Lsb0>] is the list of its bits, least significant first. *)

Fixpoint bits_val (bs : list bool) : Z :=
  match bs with
  | [] => 0
  | b :: bs => Z.b2z b + 2 * bits_val bs
  end.

(** the [n] low bits of [z] *)
Fixpoint bits_of (n : nat) (z : Z) : list bool :=
  match n with
  | O => []
  | S n => Z.odd z :: bits_of n (Z.div2 z)
  end.

Lemma bits_val_nonneg bs : 0 <= bits_val bs.
Proof. induction bs as [|[] bs IH]; simpl; lia. Qed.

Lemma bits_val_bound bs : bits_val bs < 2 ^ Z.of_nat (length bs).
Proof.
  induction bs as [|b bs IH]; [simpl; lia|].
  cbn [length bits_val]. rewrite Nat2Z.inj_succ, Z.pow_succ_r by lia.
  destruct b; simpl Z.b2z; lia.
Qed.

Lemma bits_val_app bs cs :
  bits_val (bs ++ cs) = bits_val bs + 2 ^ Z.of_nat (length bs) * bits_val cs.
Proof.
  induction bs as [|b bs IH]; [simpl; lia|].
  cbn [app length bits_val]. rewrite IH, Nat2Z.inj_succ, Z.pow_succ_r by lia. lia.
Qed.

Lemma bits_val_replicate_false n : bits_val (replicate n false) = 0.
Proof. induction n; simpl; lia. Qed.

Lemma bits_val_replicate_true n : bits_val (replicate n true) = 2 ^ Z.of_nat n - 1.
Proof.
  induction n as [|n IH]; [done|].
  cbn [replicate bits_val]. rewrite IH, Nat2Z.inj_succ, Z.pow_succ_r by lia.
  simpl Z.b2z. lia.
Qed.

Lemma length_bits_of n z : length (bits_of n z) = n.
Proof. revert z. induction n; intros; simpl; auto. Qed.

Lemma bits_val_of n z : bits_val (bits_of n z) = z mod 2 ^ Z.of_nat n.
Proof.
  revert z. induction n as [|n IH]; intros z.
  { simpl. by rewrite Z.mod_1_r. }
  cbn [bits_of bits_val]. rewrite IH, Nat2Z.inj_succ, Z.pow_succ_r by lia.
  rewrite Z.div2_div, (Z.rem_mul_r z 2) by lia.
  replace (Z.b2z (Z.odd z)) with (z mod 2); [lia|].
  rewrite Zmod_odd. by destruct (Z.odd z).
Qed.

Lemma bits_val_of_small n z : 0 <= z < 2 ^ Z.of_nat n -> bits_val (bits_of n z) = z.
Proof. intros. rewrite bits_val_of. by apply Z.mod_small. Qed.

Lemma bits_of_val bs : bits_of (length bs) (bits_val bs) = bs.
Proof.
  induction bs as [|b bs IH]; [done|].
  cbn [length bits_of bits_val]. f_equal.
  - rewrite Z.odd_add, Z.odd_mul. simpl. destruct b; reflexivity.
  - rewrite Z.div2_div.
    replace ((Z.b2z b + 2 * bits_val bs) / 2) with (bits_val bs); [done|].
    apply (Z.div_unique_pos _ _ _ (Z.b2z b)); destruct b; simpl Z.b2z; lia.
Qed.

Lemma bits_val_inj bs cs :
  length bs = length cs -> bits_val bs = bits_val cs -> bs = cs.
Proof.
  intros Hl Hv. rewrite <- (bits_of_val bs), <- (bits_of_val cs). congruence.
Qed.

Lemma bits_of_app n m z :
  bits_of (n + m) z = bits_of n z ++ bits_of m (z / 2 ^ Z.of_nat n).
Proof.
  revert z. induction n as [|n IH]; intros z.
  { simpl. by rewrite Z.div_1_r. }
  cbn [Nat.add bits_of app]. f_equal. rewrite IH. f_equal. f_equal.
  rewrite Z.div2_div, Z.div_div by lia. f_equal.
  rewrite Nat2Z.inj_succ, Z.pow_succ_r by lia. lia.
Qed.

Lemma lookup_bits_of n z i : (i < n)%nat -> bits_of n z !! i = Some (Z.testbit z (Z.of_nat i)).
Proof.
  revert z i. induction n as [|n IH]; intros z i Hi; [lia|].
  destruct i as [|i]; cbn [bits_of lookup list_lookup].
  - by rewrite <- Z.bit0_odd.
  - rewrite IH by lia. rewrite Nat2Z.inj_succ, Z.div2_spec, Z.shiftr_spec by lia.
    do 2 f_equal.
Qed.

(** [slice.first_one()], [slice.first_zero()], [slice.last_one()] *)
Fixpoint first_bit (v : bool) (bs : list bool) : option nat :=
  match bs with
  | [] => None
  | b :: bs => if eqb b v then Some 0%nat else S <$> first_bit v bs
  end.
Definition first_one := first_bit true.
Definition first_zero := first_bit false.
Fixpoint last_one (bs : list bool) : option nat :=
  match bs with
  | [] => None
  | b :: bs => match last_one bs with
               | Some i => Some (S i)
               | None => if b then Some 0%nat else None
               end
  end.

Lemma first_bit_Some v bs i :
  first_bit v bs = Some i ->
  exists rest, bs = replicate i (negb v) ++ v :: rest.
Proof.
  revert i. induction bs as [|b bs IH]; intros i; simpl; [done|].
  destruct (eqb b v) eqn:E.
  - intros [= <-]. apply eqb_prop in E as ->. by exists bs.
  - destruct (first_bit v bs) as [j|]; [|done]. intros [= <-].
    destruct (IH j eq_refl) as [rest ->]. exists rest.
    simpl. f_equal. destruct b, v; done.
Qed.

Lemma first_bit_None v bs : first_bit v bs = None -> bs = replicate (length bs) (negb v).
Proof.
  induction bs as [|b bs IH]; simpl; [done|].
  destruct (eqb b v) eqn:E; [done|].
  destruct (first_bit v bs); [done|]. intros _. rewrite <- IH by done.
  f_equal. destruct b, v; done.
Qed.

Lemma first_bit_app v i rest : first_bit v (replicate i (negb v) ++ v :: rest) = Some i.
Proof.
  induction i as [|i IH]; simpl; [by rewrite eqb_reflx|].
  rewrite IH. by destruct v.
Qed.

(** [last_one] is the binary logarithm of the value. *)
Lemma last_one_val bs :
  match last_one bs with
  | Some i => (i < length bs)%nat /\ 2 ^ Z.of_nat i <= bits_val bs < 2 ^ Z.of_nat (S i)
  | None => bits_val bs = 0
  end.
Proof.
  induction bs as [|b bs IH]; [done|].
  cbn [last_one length bits_val]. destruct (last_one bs) as [i|].
  - destruct IH as [Hl Hb]. split; [lia|].
    rewrite !Nat2Z.inj_succ, !Z.pow_succ_r in * by lia. destruct b; simpl Z.b2z; lia.
  - rewrite IH. destruct b; simpl; lia.
Qed.

(** * Automation *)

Create HintDb nock.
#[export] Hint Resolve wrap64_range bits_val_nonneg : nock.
#[export] Hint Rewrite length_bits_of : nock.

(** Case analysis on every [match] of a hypothesis or the goal. *)
Ltac split_match :=
  repeat (case_match; simplify_eq/=; try done).

(** Unfolds the machine widths for [lia]. *)
Ltac width := unfold is_u64, is_u32, U64, U32 in *.
