(* ===== verification/Noun.v ===== *)
(** Nouns and atoms of crates/nockvm/rust/nockvm/src/noun.rs at the level of
    their machine words, axis traversal ([slot], [edit]) and increment, with
    their meaning on mathematical nouns. *)
From stdpp Require Import base option list numbers.
From Stdlib Require Import ZArith Lia.
From S2P Require Import Prelude.

(** * Data *)

(** [noun::Error] *)
Inductive error :=
  | NotAllocated | NotAtom | NotCell | NotDirectAtom | NotIndirectAtom | NotRepresentable.

Definition result := outcome error.

(** An atom is a word below [DIRECT_MAX] (a [DirectAtom]) or a buffer of
    little-endian 64-bit words (an [IndirectAtom]). *)
Inductive atom :=
  | Direct (d : Z)
  | Indirect (ws : list Z).

Inductive noun :=
  | NAtom (a : atom)
  | NCell (h t : noun).

Global Instance atom_eq_dec : EqDecision atom.
Proof. solve_decision. Defined.
Global Instance noun_eq_dec : EqDecision noun.
Proof. solve_decision. Defined.

Definition DIRECT_MAX : Z := Z.shiftr (U64 - 1) 1.

(** [D(n)]; the code panics above [DIRECT_MAX], every use here is below it. *)
Definition D (n : Z) : noun := NAtom (Direct n).

(** [T(stack, &[..])]: a tuple associates to the right. *)
Fixpoint T (tup : list noun) : noun :=
  match tup with
  | [] => D 0
  | [n] => n
  | n :: tup => NCell n (T tup)
  end.

(** * Atoms *)

(** [Atom::new] *)
Definition Atom_new (value : Z) : atom :=
  if value <=? DIRECT_MAX then Direct value else Indirect [value].

Definition is_direct (a : atom) : bool :=
  match a with Direct _ => true | Indirect _ => false end.

(** [as_slice]/[as_bitslice]: the bits of the word or of the buffer. *)
Definition word_bits (w : Z) : list bool := bits_of 64 w.
Fixpoint words_bits (ws : list Z) : list bool :=
  match ws with
  | [] => []
  | w :: ws => word_bits w ++ words_bits ws
  end.
Definition as_bitslice (a : atom) : list bool :=
  match a with Direct d => word_bits d | Indirect ws => words_bits ws end.

(** The words whose bits are the given slice. *)
Fixpoint bits_words (n : nat) (bs : list bool) : list Z :=
  match n with
  | O => []
  | S n => bits_val (take 64 bs) :: bits_words n (drop 64 bs)
  end.

(** [IndirectAtom::normalize]: the scan for the last nonzero word, from the
    last index down to 0. *)
Fixpoint normalize_index (ws : list Z) (index : nat) : nat :=
  match index with
  | O => O
  | S index' => if default 0 (ws !! index) =? 0 then normalize_index ws index' else index
  end.
Definition normalize (ws : list Z) : list Z :=
  take (normalize_index ws (length ws - 1) + 1) ws.

(** [IndirectAtom::normalize_as_atom] *)
Definition normalize_as_atom (ws : list Z) : atom :=
  let ws := normalize ws in
  if (length ws =? 1)%nat && (default 0 (ws !! 0%nat) <=? DIRECT_MAX)
  then Direct (default 0 (ws !! 0%nat)) else Indirect ws.

(** [Atom::is_normalized] *)
Definition is_normalized (a : atom) : bool :=
  match a with
  | Direct _ => true
  | Indirect ws =>
      negb (((length ws =? 1)%nat && (default 0 (ws !! 0%nat) <=? DIRECT_MAX))
            || (default 0 (ws !! (length ws - 1)%nat) =? 0))
  end.

(** [Atom::as_u64] *)
Definition as_u64 (a : atom) : result Z :=
  match a with
  | Direct d => Ok d
  | Indirect ws => if (length ws =? 1)%nat then Ok (default 0 (ws !! 0%nat)) else Err NotRepresentable
  end.

(** [Atom::as_u64_pair]: the indirect case slices [0..2] of the buffer. *)
Definition as_u64_pair (a : atom) : result (Z * Z) :=
  match a with
  | Direct d => Ok (d, 0)
  | Indirect ws =>
      if (length ws <=? 2)%nat then
        match ws with
        | w0 :: w1 :: _ => Ok (w0, w1)
        | _ => Panic
        end
      else Err NotRepresentable
  end.

(** [Atom::as_bool] *)
Definition as_bool (a : atom) : result bool :=
  match a with Direct d => Ok (d =? 0) | Indirect _ => Err NotRepresentable end.

(** [Atom::bit_size] *)
Definition bit_size (a : atom) : Z :=
  match a with
  | Direct d => 64 - leading_zeros64 d
  | Indirect ws =>
      Z.shiftl (Z.of_nat (length ws) - 1) 6 + 64
        - leading_zeros64 (default 0 (ws !! (length ws - 1)%nat))
  end.

(** [interpreter::inc] *)
Definition inc (a : atom) : atom :=
  match a with
  | Direct d => Atom_new (d + 1)
  | Indirect ws =>
      let bs := words_bits ws in
      match first_zero bs with
      | None =>
          (* all ones: one word bigger, with only the bit after the old ones set *)
          let size := (length ws + 1)%nat in
          Indirect (bits_words size (<[length bs := true]> (replicate (64 * size) false)))
      | Some z =>
          let size := length ws in
          Indirect (bits_words size
            (take (S z) (<[z := true]> (replicate (64 * size) false)) ++ drop (S z) bs))
      end
  end.

(** * Axes *)

Record DirectAxisIterator := { dai_axis : Z; dai_cursor : nat }.

Definition DirectAxisIterator_new (axis : Z) : option DirectAxisIterator :=
  if axis =? 0 then None
  else Some {| dai_axis := axis;
               dai_cursor := if axis =? 1 then 0%nat
                             else Z.to_nat (63 - leading_zeros64 axis) |}.

Definition DirectAxisIterator_next (it : DirectAxisIterator)
  : option (bool * DirectAxisIterator) :=
  match dai_cursor it with
  | O => None
  | S cursor => Some (bit_at (dai_axis it) (Z.of_nat cursor),
                      {| dai_axis := dai_axis it; dai_cursor := cursor |})
  end.

Record IndirectAxisIterator := { iai_words : list Z; iai_cursor : nat }.

(** The shared scan for the highest nonzero word. *)
Fixpoint highest_word_idx (ws : list Z) (idx : nat) : nat :=
  match idx with
  | O => O
  | S idx' => if default 0 (ws !! idx) =? 0 then highest_word_idx ws idx' else idx
  end.

(** The position of the highest set bit of a buffer, as both
    [IndirectAxisIterator::new] and [slot_indirect] compute it. *)
Definition highest_bit (ws : list Z) : option nat :=
  match ws with
  | [] => None
  | _ =>
      let idx := highest_word_idx ws (length ws - 1) in
      let highest_word := default 0 (ws !! idx) in
      if highest_word =? 0 then None
      else Some (idx * 64 + Z.to_nat (63 - leading_zeros64 highest_word))%nat
  end.

Definition IndirectAxisIterator_new (ws : list Z) : option IndirectAxisIterator :=
  cursor ← highest_bit ws; Some {| iai_words := ws; iai_cursor := cursor |}.

(** bit [i] of a buffer: [(words[i >> 6] >> (i & 63)) & 1] *)
Definition word_bit (ws : list Z) (i : nat) : bool :=
  bit_at (default 0 (ws !! (i / 64)%nat)) (Z.of_nat (i mod 64)).

Definition IndirectAxisIterator_next (it : IndirectAxisIterator)
  : option (bool * IndirectAxisIterator) :=
  match iai_cursor it with
  | O => None
  | S cursor => Some (word_bit (iai_words it) cursor,
                      {| iai_words := iai_words it; iai_cursor := cursor |})
  end.

(** [slot_direct]: [h]/[t] are the fields of the cell [current] points to, the
    index runs from [highest] down. *)
Fixpoint slot_direct_loop (axis : Z) (idx : nat) (h t : noun) : result noun :=
  match idx with
  | O => Ok (NCell h t)
  | S idx =>
      let n := if bit_at axis (Z.of_nat idx) then t else h in
      if (idx =? 0)%nat then Ok n
      else match n with
           | NCell h t => slot_direct_loop axis idx h t
           | NAtom _ => Err NotRepresentable
           end
  end.
Definition slot_direct (h t : noun) (axis : Z) : result noun :=
  if axis =? 0 then Err NotRepresentable
  else if axis =? 1 then Ok (NCell h t)
  else slot_direct_loop axis (Z.to_nat (63 - leading_zeros64 axis)) h t.

Fixpoint slot_indirect_loop (ws : list Z) (idx : nat) (h t : noun) : result noun :=
  match idx with
  | O => Ok (NCell h t)
  | S idx =>
      let n := if word_bit ws idx then t else h in
      if (idx =? 0)%nat then Ok n
      else match n with
           | NCell h t => slot_indirect_loop ws idx h t
           | NAtom _ => Err NotRepresentable
           end
  end.
Definition slot_indirect (h t : noun) (ws : list Z) : result noun :=
  match highest_bit ws with
  | None => Err NotRepresentable
  | Some highest => slot_indirect_loop ws highest h t
  end.

(** [RawSlots for Noun] *)
Definition raw_slot_direct (n : noun) (axis : Z) : result noun :=
  match n with
  | NCell h t => slot_direct h t axis
  | NAtom _ => if axis =? 1 then Ok n else Err NotCell
  end.
Definition raw_slot_indirect (n : noun) (ws : list Z) : result noun :=
  match n with
  | NCell h t => slot_indirect h t ws
  | NAtom _ =>
      match ws with
      | [w] => if w =? 1 then Ok n else if w =? 0 then Err NotRepresentable else Err NotCell
      | [] => Err NotRepresentable
      | _ => Err NotCell
      end
  end.

(** [Slots::slot] and [Slots::slot_atom] *)
Definition slot (n : noun) (axis : Z) : result noun := raw_slot_direct n axis.
Definition slot_atom (n : noun) (a : atom) : result noun :=
  match a with
  | Direct d => raw_slot_direct n d
  | Indirect ws => raw_slot_indirect n ws
  end.

(** [interpreter::edit]: one loop per iterator, both copying the spine from the
    root and panicking ([expect]) on axis 0 or when the axis descends into an
    atom. *)
Fixpoint drain {I} (next : I -> option (bool * I)) (fuel : nat) (it : I) : list bool :=
  match fuel with
  | O => []
  | S fuel => match next it with
              | None => []
              | Some (b, it) => b :: drain next fuel it
              end
  end.
Fixpoint edit_loop (path : list bool) (patch tree : noun) : outcome Empty_set noun :=
  match path with
  | [] => Ok patch
  | descend_tail :: path =>
      match tree with
      | NAtom _ => Panic
      | NCell h t =>
          if descend_tail then t' ← edit_loop path patch t; Ok (NCell h t')
          else h' ← edit_loop path patch h; Ok (NCell h' t)
      end
  end.
Definition edit (edit_axis : atom) (patch tree : noun) : outcome Empty_set noun :=
  match edit_axis with
  | Direct d =>
      match DirectAxisIterator_new d with
      | None => Panic
      | Some it => edit_loop (drain DirectAxisIterator_next (dai_cursor it) it) patch tree
      end
  | Indirect ws =>
      match IndirectAxisIterator_new ws with
      | None => Panic
      | Some it => edit_loop (drain IndirectAxisIterator_next (iai_cursor it) it) patch tree
      end
  end.

(** * Meaning *)

Fixpoint words_val (ws : list Z) : Z :=
  match ws with
  | [] => 0
  | w :: ws => w + U64 * words_val ws
  end.
Definition atom_val (a : atom) : Z :=
  match a with Direct d => d | Indirect ws => words_val ws end.

(** Well-formed atoms: words in range, direct exactly when small. *)
Definition wf_atom (a : atom) : Prop :=
  match a with
  | Direct d => 0 <= d <= DIRECT_MAX
  | Indirect ws => Forall is_u64 ws /\ ws <> [] /\ is_normalized (Indirect ws) = true
  end.
Fixpoint wf_noun (n : noun) : Prop :=
  match n with
  | NAtom a => wf_atom a
  | NCell h t => wf_noun h /\ wf_noun t
  end.

(** Mathematical nouns and the tree-addressing function of the Nock
    definition: [/[1 a]] is [a], [/[2p a]] and [/[2p+1 a]] are head and tail of
    [/[p a]]. *)
Inductive mnoun :=
  | MAtom (n : N)
  | MCell (h t : mnoun).
Fixpoint den (n : noun) : mnoun :=
  match n with
  | NAtom a => MAtom (Z.to_N (atom_val a))
  | NCell h t => MCell (den h) (den t)
  end.

Definition head_of (n : noun) : option noun :=
  match n with NCell h _ => Some h | NAtom _ => None end.
Definition tail_of (n : noun) : option noun :=
  match n with NCell _ t => Some t | NAtom _ => None end.
Fixpoint tree_at (p : positive) (n : noun) : option noun :=
  match p with
  | xH => Some n
  | xO p => tree_at p n ≫= head_of
  | xI p => tree_at p n ≫= tail_of
  end.
Definition axis_at (axis : Z) (n : noun) : option noun :=
  match axis with Zpos p => tree_at p n | _ => None end.

(** The [#] operator: replace the noun at an address. *)
Fixpoint tree_put (p : positive) (patch n : noun) : option noun :=
  match p with
  | xH => Some patch
  | xO p => match tree_at p n with
            | Some (NCell _ t) => tree_put p (NCell patch t) n
            | _ => None
            end
  | xI p => match tree_at p n with
            | Some (NCell h _) => tree_put p (NCell h patch) n
            | _ => None
            end
  end.
Definition axis_put (axis : Z) (patch n : noun) : option noun :=
  match axis with Zpos p => tree_put p patch n | _ => None end.

(** * Words and bits *)

Lemma length_words_bits ws : length (words_bits ws) = (64 * length ws)%nat.
Proof.
  induction ws as [|w ws IH]; [done|].
  cbn [words_bits length]. rewrite length_app, IH. unfold word_bits. rewrite length_bits_of. lia.
Qed.

Lemma words_bits_val ws : Forall is_u64 ws -> bits_val (words_bits ws) = words_val ws.
Proof.
  induction 1 as [|w ws Hw _ IH]; [done|].
  cbn [words_bits words_val]. rewrite bits_val_app, IH. unfold word_bits.
  rewrite length_bits_of, bits_val_of_small by exact Hw. reflexivity.
Qed.

Lemma words_val_nonneg ws : Forall is_u64 ws -> 0 <= words_val ws.
Proof. intros H. rewrite <- words_bits_val by done. apply bits_val_nonneg. Qed.

Lemma words_val_bound ws : Forall is_u64 ws -> words_val ws < U64 ^ Z.of_nat (length ws).
Proof.
  intros H. rewrite <- words_bits_val by done.
  pose proof (bits_val_bound (words_bits ws)) as Hb. rewrite length_words_bits in Hb.
  unfold U64. rewrite <- Z.pow_mul_r by lia. rewrite Nat2Z.inj_mul in Hb. exact Hb.
Qed.

Lemma bits_words_spec n bs :
  length bs = (64 * n)%nat ->
  Forall is_u64 (bits_words n bs) /\ length (bits_words n bs) = n /\
  words_val (bits_words n bs) = bits_val bs.
Proof.
  revert bs. induction n as [|n IH]; intros bs Hl.
  { destruct bs; [done|simpl in Hl; lia]. }
  cbn [bits_words length words_val]. destruct (IH (drop 64 bs)) as (Hf & Hn & Hv).
  { rewrite length_drop. lia. }
  assert (length (take 64 bs) = 64%nat) as Ht by (rewrite length_take; lia).
  pose proof (bits_val_bound (take 64 bs)) as Hb. rewrite Ht in Hb.
  pose proof (bits_val_nonneg (take 64 bs)). split; [|split].
  - constructor; [split; [done|exact Hb]|done].
  - by rewrite Hn.
  - rewrite Hv. rewrite <- (take_drop 64 bs) at 3. rewrite bits_val_app, Ht. reflexivity.
Qed.

Lemma words_val_app ws vs :
  words_val (ws ++ vs) = words_val ws + U64 ^ Z.of_nat (length ws) * words_val vs.
Proof.
  induction ws as [|w ws IH]; cbn [app words_val length].
  - change (Z.of_nat 0) with 0. rewrite Z.pow_0_r. lia.
  - rewrite IH, Nat2Z.inj_succ, Z.pow_succ_r by lia. lia.
Qed.

Lemma words_val_inj ws vs :
  Forall is_u64 ws -> Forall is_u64 vs -> length ws = length vs ->
  words_val ws = words_val vs -> ws = vs.
Proof.
  intros Hw. revert vs. induction Hw as [|w ws Hw _ IH]; intros [|v vs] Hv Hl He; try done.
  inversion Hv; subst. cbn in Hl, He. width.
  assert (w = v) as -> by (pose proof (words_val_nonneg ws); lia).
  f_equal. apply IH; [done|lia|lia].
Qed.

(** The last word of a buffer. *)
Lemma words_last (ws : list Z) : ws <> [] -> exists vs w, ws = vs ++ [w] /\ ws !! (length ws - 1)%nat = Some w.
Proof.
  intros H. destruct (exists_last H) as (vs & w & ->). exists vs, w. split; [done|].
  rewrite length_app. simpl. rewrite lookup_app_r by lia.
  by replace (length vs + 1 - 1 - length vs)%nat with 0%nat by lia.
Qed.

Lemma words_val_last ws w :
  Forall is_u64 ws -> is_u64 w ->
  (w = 0 -> words_val (ws ++ [w]) = words_val ws) /\
  (w <> 0 -> U64 ^ Z.of_nat (length ws) <= words_val (ws ++ [w])).
Proof.
  intros Hf Hw. rewrite words_val_app. cbn [words_val]. pose proof (words_val_nonneg ws Hf).
  split; intros; [subst; lia|]. width.
  pose proof (Z.pow_nonneg (2 ^ 64) (Z.of_nat (length ws))). nia.
Qed.

(** Normalization depends on the value and the length only. *)
Lemma is_normalized_val ws :
  Forall is_u64 ws -> ws <> [] ->
  is_normalized (Indirect ws) = true <->
  U64 ^ Z.of_nat (length ws - 1) <= words_val ws /\ DIRECT_MAX < words_val ws.
Proof.
  intros Hf Hne. destruct (words_last ws Hne) as (vs & w & -> & Hlast).
  apply Forall_app in Hf as [Hvs Hw]. rewrite Forall_singleton in Hw.
  unfold is_normalized. rewrite Hlast. simpl default.
  destruct (words_val_last vs w Hvs Hw) as [Hz Hnz].
  rewrite length_app in *. simpl length in *.
  replace (length vs + 1 - 1)%nat with (length vs) in * by lia.
  pose proof (words_val_bound vs Hvs). pose proof (words_val_nonneg vs Hvs).
  rewrite negb_true_iff, orb_false_iff, andb_false_iff, Z.eqb_neq.
  destruct vs as [|v vs].
  - simpl. rewrite Z.leb_gt. change (2 ^ 64) with U64. change DIRECT_MAX with (2 ^ 63 - 1) in *.
    width. split; [intros [[?|?] ?]; [done|]; lia|]. intros [? ?]. split; [right; lia|lia].
  - replace (length (v :: vs) + 1 =? 1)%nat with false by (symmetry; apply Nat.eqb_neq; simpl; lia).
    split.
    + intros [_ Hw0]. split; [auto|]. apply Z.lt_le_trans with U64; [done|].
      etransitivity; [|by apply Hnz]. rewrite <- (Z.pow_1_r U64) at 1.
      apply Z.pow_le_mono_r; [done|simpl; lia].
    + intros [Hge _]. split; [by left|]. intros ->. rewrite Hz in Hge by done. lia.
Qed.

Lemma wf_indirect ws :
  wf_atom (Indirect ws) <->
  Forall is_u64 ws /\ ws <> [] /\
  U64 ^ Z.of_nat (length ws - 1) <= words_val ws /\ DIRECT_MAX < words_val ws.
Proof.
  unfold wf_atom. split; intros (Hf & Hne & Hn); (split; [done|split; [done|]]);
    by apply is_normalized_val.
Qed.

Lemma wf_atom_val a : wf_atom a -> 0 <= atom_val a.
Proof. destruct a; [simpl; lia|]. intros [? _]. by apply words_val_nonneg. Qed.

Lemma DIRECT_MAX_val : DIRECT_MAX = 2 ^ 63 - 1.
Proof. reflexivity. Qed.

(** Distinct well-formed atoms have distinct values: the representation is
    canonical. *)
Lemma atom_val_inj a b : wf_atom a -> wf_atom b -> atom_val a = atom_val b -> a = b.
Proof.
  destruct a as [d|ws], b as [e|vs]; simpl atom_val; intros Ha Hb He.
  - by subst.
  - apply wf_indirect in Hb as (_ & _ & _ & ?). simpl in Ha. lia.
  - apply wf_indirect in Ha as (_ & _ & _ & ?). simpl in Hb. lia.
  - apply wf_indirect in Ha as (Hf & Hn & Hl & _), Hb as (Hf' & Hn' & Hl' & _).
    f_equal. apply words_val_inj; [done..| |done].
    assert (Hlen : forall xs ys : list Z, Forall is_u64 ys -> xs <> [] -> ys <> [] ->
      U64 ^ Z.of_nat (length xs - 1) <= words_val ys -> (length xs <= length ys)%nat).
    { intros xs ys Hys ? ? Hle. pose proof (words_val_bound ys Hys) as Hb.
      assert (Z.of_nat (length xs - 1) < Z.of_nat (length ys)); [|lia].
      apply (Z.pow_lt_mono_r_iff U64); [done|lia|lia]. }
    pose proof (Hlen ws vs Hf' Hn Hn' ltac:(lia)).
    pose proof (Hlen vs ws Hf Hn' Hn ltac:(lia)). lia.
Qed.

Lemma den_inj m n : wf_noun m -> wf_noun n -> den m = den n -> m = n.
Proof.
  revert n. induction m as [a|h IHh t IHt]; intros [b|h' t']; simpl; try done.
  - intros Ha Hb [= He]. f_equal. apply atom_val_inj; [done..|].
    pose proof (wf_atom_val a Ha). pose proof (wf_atom_val b Hb). lia.
  - intros [] [] [=]. f_equal; auto.
Qed.

Lemma wf_Atom_new v : is_u64 v -> wf_atom (Atom_new v) /\ atom_val (Atom_new v) = v.
Proof.
  intros Hv. unfold Atom_new. destruct (Z.leb_spec v DIRECT_MAX).
  - split; [split; [apply Hv|done]|done].
  - split; [|simpl; lia]. apply wf_indirect. simpl.
    split; [by constructor|split; [done|]]. rewrite DIRECT_MAX_val in *. lia.
Qed.

(** * Normalization *)

Lemma normalize_index_spec ws i :
  (i < length ws)%nat ->
  let k := normalize_index ws i in
  (k <= i)%nat /\ (k = 0%nat \/ exists w, ws !! k = Some w /\ w <> 0) /\
  (forall j w, (k < j <= i)%nat -> ws !! j = Some w -> w = 0).
Proof.
  induction i as [|i IH]; intros Hi; cbn [normalize_index].
  { split; [lia|]. split; [by left|]. lia. }
  destruct (lookup_lt_is_Some_2 ws (S i) Hi) as [w Hw]. rewrite Hw. simpl default.
  destruct (Z.eqb_spec w 0) as [->|Hne].
  - destruct (IH ltac:(lia)) as (H1 & H2 & H3). split; [lia|]. split; [done|].
    intros j v Hj Hv. destruct (decide (j = S i)) as [->|]; [congruence|].
    apply (H3 j v); [lia|done].
  - split; [lia|]. split; [right; eauto|]. lia.
Qed.

Lemma words_val_zeros ws : Forall (fun w => w = 0) ws -> words_val ws = 0.
Proof. induction 1; simpl; lia. Qed.

(** [normalize] keeps the value and drops exactly the leading zero words. *)
Lemma normalize_val ws : ws <> [] -> words_val (normalize ws) = words_val ws.
Proof.
  intros Hne. unfold normalize. assert (length ws <> 0%nat) by (by destruct ws).
  destruct (normalize_index_spec ws (length ws - 1) ltac:(lia)) as (Hk & _ & Hz).
  set (k := normalize_index _ _) in *. rewrite <- (take_drop (k + 1) ws) at 2.
  rewrite words_val_app, (words_val_zeros (drop _ _)); [lia|].
  apply Forall_lookup. intros j w Hj. rewrite lookup_drop in Hj.
  apply lookup_lt_Some in Hj as Hl. apply (Hz _ w) in Hj; [done|lia].
Qed.

Lemma normalize_last ws :
  Forall is_u64 ws -> ws <> [] ->
  let vs := normalize ws in
  vs <> [] /\ Forall is_u64 vs /\
  (length vs = 1%nat \/ U64 ^ Z.of_nat (length vs - 1) <= words_val vs).
Proof.
  intros Hf Hne. unfold normalize. assert (length ws <> 0%nat) by (by destruct ws).
  destruct (normalize_index_spec ws (length ws - 1) ltac:(lia)) as (Hk & Hw & _).
  set (k := normalize_index _ _) in *. simpl.
  assert (length (take (k + 1) ws) = (k + 1)%nat) as Hl by (rewrite length_take; lia).
  split; [destruct (take _ _); [simpl in Hl; lia|done]|].
  split; [by apply Forall_take|]. rewrite Hl.
  destruct Hw as [->|(w & Hw & Hnz)]; [by left|]. right.
  rewrite Nat.add_1_r, (take_S_r _ _ w) by done.
  assert (is_u64 w) by (by eapply Forall_lookup_1).
  destruct (words_val_last (take k ws) w) as [_ Hle]; [by apply Forall_take|done|].
  rewrite length_take in Hle. etransitivity; [|by apply Hle].
  apply Z.pow_le_mono_r; [done|lia].
Qed.

Lemma normalize_as_atom_wf ws :
  Forall is_u64 ws -> ws <> [] ->
  wf_atom (normalize_as_atom ws) /\ atom_val (normalize_as_atom ws) = words_val ws.
Proof.
  intros Hf Hne. rewrite <- (normalize_val ws Hne). unfold normalize_as_atom.
  destruct (normalize_last ws Hf Hne) as (Hn & Hf' & Hl).
  destruct (normalize ws) as [|w vs] eqn:E; [done|]. cbn [lookup list_lookup]. simpl default.
  inversion Hf'; subst. cbn [length] in *.
  destruct ((S (length vs) =? 1)%nat && (w <=? DIRECT_MAX)) eqn:Et.
  - apply andb_true_iff in Et as [Hlen%Nat.eqb_eq Hle%Z.leb_le].
    destruct vs; [|simpl in Hlen; lia]. cbn [wf_atom atom_val words_val]. width. clear Hl. lia.
  - split; [|done]. apply wf_indirect. cbn [length words_val] in *.
    split; [done|split; [done|]]. pose proof (words_val_nonneg vs ltac:(done)).
    destruct vs as [|v vs].
    + cbn [length Nat.eqb andb] in Et. rewrite Z.leb_gt in Et.
      change (Z.of_nat (1 - 1)) with 0. rewrite Z.pow_0_r.
      rewrite DIRECT_MAX_val in *. cbn [words_val]. lia.
    + destruct Hl as [Hl|Hl]; [done|]. split; [done|].
      eapply Z.lt_le_trans; [|exact Hl]. apply Z.lt_le_trans with (U64 ^ 1); [done|].
      apply Z.pow_le_mono_r; [done|simpl; lia].
Qed.

(** * Increment *)

(** Setting the first zero bit and clearing the ones below it adds one. *)
Lemma inc_bits_val z rest n :
  (z + S (length rest) = n)%nat ->
  bits_val (take (S z) (<[z := true]> (replicate n false)) ++ rest)
  = bits_val (replicate z true ++ false :: rest) + 1.
Proof.
  intros Hn. assert (replicate n false = replicate z false ++ replicate (n - z) false) as ->.
  { rewrite <- replicate_add. f_equal. lia. }
  rewrite insert_app_r_alt by (rewrite length_replicate; lia).
  rewrite length_replicate, Nat.sub_diag. destruct (n - z)%nat as [|m] eqn:E; [lia|].
  cbn [replicate insert list_insert].
  rewrite take_app, length_replicate, (take_ge (replicate z false)) by (rewrite length_replicate; lia).
  replace (S z - z)%nat with 1%nat by lia. rewrite firstn_cons, take_0.
  rewrite <- app_assoc. cbn [app]. rewrite !bits_val_app, !length_replicate. cbn [bits_val].
  rewrite bits_val_replicate_false, bits_val_replicate_true. simpl Z.b2z. lia.
Qed.

Lemma inc_words ws :
  Forall is_u64 ws ->
  match inc (Indirect ws) with
  | Indirect vs => Forall is_u64 vs /\ words_val vs = words_val ws + 1 /\
                   (length vs = length ws \/ (length vs = length ws + 1)%nat /\
                      words_val vs = U64 ^ Z.of_nat (length ws))
  | Direct _ => False
  end.
Proof.
  intros Hf. cbn [inc]. rewrite <- !(words_bits_val ws) by done.
  pose proof (length_words_bits ws) as Hl. unfold first_zero.
  destruct (first_bit false (words_bits ws)) as [z|] eqn:E.
  - destruct (first_bit_Some _ _ _ E) as [rest Hbs]. rewrite Hbs in *. simpl negb in *.
    rewrite length_app, length_replicate in Hl. simpl length in Hl.
    assert (drop (S z) (replicate z true ++ false :: rest) = rest) as ->.
    { rewrite drop_app, length_replicate, (drop_ge (replicate z true)) by (rewrite length_replicate; lia).
      by replace (S z - z)%nat with 1%nat by lia. }
    match goal with |- context [bits_words _ ?b] => set (bs := b) end.
    assert (bits_val bs = bits_val (replicate z true ++ false :: rest) + 1) as Hv
      by (by apply inc_bits_val).
    destruct (bits_words_spec (length ws) bs) as (H1 & H2 & H3).
    { unfold bs. rewrite length_app, length_take, length_insert, length_replicate. lia. }
    rewrite H3. auto.
  - apply first_bit_None in E. rewrite E, bits_val_replicate_true, Hl, length_replicate.
    match goal with |- context [bits_words _ ?b] => set (bs := b) end.
    assert (bits_val bs = 2 ^ Z.of_nat (64 * length ws)) as Hv.
    { unfold bs. set (k := (64 * length ws)%nat).
      replace (64 * (length ws + 1))%nat with (k + S 63)%nat by lia.
      rewrite replicate_add, insert_app_r_alt by (rewrite length_replicate; lia).
      rewrite length_replicate, Nat.sub_diag. cbn [replicate insert list_insert].
      rewrite bits_val_app, bits_val_replicate_false, length_replicate. simpl bits_val. lia. }
    destruct (bits_words_spec (length ws + 1) bs) as (H1 & H2 & H3).
    { unfold bs. by rewrite length_insert, length_replicate. }
    rewrite H3, Hv. split; [done|split; [lia|right]]. split; [done|].
    unfold U64. rewrite <- Z.pow_mul_r by lia. f_equal. lia.
Qed.

(** [inc] is the successor and keeps atoms normalized, at the boundary between
    the two representations too. *)
Lemma inc_val a : wf_atom a -> wf_atom (inc a) /\ atom_val (inc a) = atom_val a + 1.
Proof.
  destruct a as [d|ws]; intros Hwf.
  - cbn [inc atom_val wf_atom] in *. rewrite DIRECT_MAX_val in Hwf. apply wf_Atom_new. width. lia.
  - apply wf_indirect in Hwf as (Hf & Hne & Hlo & Hd). pose proof (inc_words ws Hf) as H.
    destruct (inc (Indirect ws)) as [|vs] eqn:E; [done|].
    destruct H as (Hf' & Hv & Hlen). split; [|done]. apply wf_indirect.
    assert (length ws <> 0%nat) by (by destruct ws).
    split; [done|split; [intros ->; simpl in Hlen; lia|]].
    destruct Hlen as [->|[-> Hv']]; [lia|].
    replace (length ws + 1 - 1)%nat with (length ws) by lia. lia.
Qed.

(** * Axes *)

(** Walking down [idx] levels, the bits of the axis read from the top. *)
Definition child (b : bool) (n : noun) : option noun := if b then tail_of n else head_of n.
Fixpoint walk (f : nat -> bool) (idx : nat) (n : noun) : option noun :=
  match idx with
  | O => Some n
  | S idx => child (f idx) n ≫= walk f idx
  end.

Lemma walk_snoc f idx n : walk f (S idx) n = walk (fun i => f (S i)) idx n ≫= child (f 0%nat).
Proof.
  revert n. induction idx as [|idx IH]; intros n; simpl.
  - by destruct (child (f 0%nat) n).
  - destruct (child (f (S idx)) n) as [m|]; simpl; [|done]. apply IH.
Qed.

Lemma walk_ext f g idx n :
  (forall i, (i < idx)%nat -> f i = g i) -> walk f idx n = walk g idx n.
Proof.
  revert n. induction idx as [|idx IH]; intros n Hfg; simpl; [done|].
  rewrite Hfg by lia. destruct (child _ n); simpl; [|done]. apply IH. auto.
Qed.

(** Tree addressing is the walk along the bits below the top bit. *)
Lemma tree_at_walk p n :
  tree_at p n = walk (fun i => Z.testbit (Zpos p) (Z.of_nat i)) (Z.to_nat (Z.log2 (Zpos p))) n.
Proof.
  induction p as [p IH|p IH|]; cbn [tree_at]; [..|done].
  - replace (Z.to_nat (Z.log2 (Zpos p~1))) with (S (Z.to_nat (Z.log2 (Zpos p)))).
    2: { pose proof (Z.log2_nonneg (Zpos p)). change (Zpos p~1) with (2 * Zpos p + 1).
         rewrite Z.log2_succ_double by lia. lia. }
    rewrite walk_snoc, IH. f_equal. apply walk_ext. intros i _.
    rewrite Nat2Z.inj_succ. change (Zpos p~1) with (2 * Zpos p + 1).
    by rewrite Z.testbit_odd_succ by lia.
  - replace (Z.to_nat (Z.log2 (Zpos p~0))) with (S (Z.to_nat (Z.log2 (Zpos p)))).
    2: { pose proof (Z.log2_nonneg (Zpos p)). change (Zpos p~0) with (2 * Zpos p).
         rewrite Z.log2_double by lia. lia. }
    rewrite walk_snoc, IH. f_equal. apply walk_ext. intros i _.
    rewrite Nat2Z.inj_succ. change (Zpos p~0) with (2 * Zpos p).
    by rewrite Z.testbit_even_succ by lia.
Qed.

Lemma walk_atom f idx a : walk f (S idx) (NAtom a) = None.
Proof. simpl. by destruct (f idx). Qed.

Lemma slot_direct_loop_walk axis idx h t :
  ok_of (slot_direct_loop axis idx h t) = walk (fun i => bit_at axis (Z.of_nat i)) idx (NCell h t).
Proof.
  revert h t. induction idx as [|idx IH]; intros h t; [done|]. cbn [slot_direct_loop walk].
  destruct (bit_at axis (Z.of_nat idx)); cbn [child head_of tail_of mbind option_bind];
    destruct idx as [|idx]; cbn [Nat.eqb]; [done| |done|].
  - destruct t; [by rewrite walk_atom|]. apply IH.
  - destruct h; [by rewrite walk_atom|]. apply IH.
Qed.

Lemma slot_indirect_loop_walk ws idx h t :
  ok_of (slot_indirect_loop ws idx h t) = walk (word_bit ws) idx (NCell h t).
Proof.
  revert h t. induction idx as [|idx IH]; intros h t; [done|]. cbn [slot_indirect_loop walk].
  destruct (word_bit ws idx); cbn [child head_of tail_of mbind option_bind];
    destruct idx as [|idx]; cbn [Nat.eqb]; [done| |done|].
  - destruct t; [by rewrite walk_atom|]. apply IH.
  - destruct h; [by rewrite walk_atom|]. apply IH.
Qed.

Lemma word_bit_testbit ws i :
  Forall is_u64 ws -> (i < 64 * length ws)%nat ->
  word_bit ws i = Z.testbit (words_val ws) (Z.of_nat i).
Proof.
  intros Hf. revert i. induction Hf as [|w ws Hw Hf IH]; intros i Hi; [simpl in Hi; lia|].
  unfold word_bit in *. cbn [words_val length] in *.
  assert (words_val (w :: ws) = bits_val (word_bits w ++ words_bits ws)) as Hv.
  { rewrite <- words_bits_val; [done|by constructor]. }
  cbn [words_val] in Hv. unfold U64 in *. destruct (decide (i < 64)%nat).
  - rewrite Nat.div_small, Nat.mod_small by done. cbn [lookup list_lookup]. simpl default.
    rewrite bit_at_testbit by lia. rewrite (Z.add_comm w).
    rewrite <- (Z.mod_pow2_bits_low _ 64) by lia. rewrite <- (Z.mod_pow2_bits_low (_ + w) 64) by lia.
    f_equal. by rewrite (Z.mul_comm (2 ^ 64)), Z.add_comm, Z_mod_plus_full.
  - replace i with (64 * 1 + (i - 64))%nat by lia.
    rewrite <- (Nat.Div0.add_mod_idemp_l (64 * 1)), (Nat.mul_comm 64), Nat.Div0.mod_mul, Nat.add_0_l by lia.
    rewrite Nat.div_add_l by lia. cbn [Nat.add lookup list_lookup]. rewrite IH by lia.
    replace (Z.of_nat (1 * 64 + (i - 64))) with (Z.of_nat (i - 64) + 64) by lia.
    rewrite <- Z.shiftr_spec by lia. f_equal. rewrite Z.shiftr_div_pow2 by lia.
    apply (Z.div_unique_pos _ _ _ w); [exact Hw|lia].
Qed.

Lemma highest_word_idx_normalize ws i : highest_word_idx ws i = normalize_index ws i.
Proof. induction i as [|i IH]; [done|]. simpl. by rewrite IH. Qed.

(** The scan finds the binary logarithm of the buffer's value. *)
Lemma highest_bit_log2 ws :
  Forall is_u64 ws ->
  highest_bit ws = (if words_val ws =? 0 then None else Some (Z.to_nat (Z.log2 (words_val ws)))).
Proof.
  intros Hf. destruct ws as [|w0 ws0] eqn:Ews; [done|]. rewrite <- Ews in *.
  assert (Hne : ws <> []) by (by subst). assert (length ws <> 0%nat) by (by destruct ws).
  unfold highest_bit. rewrite highest_word_idx_normalize.
  destruct (normalize_index_spec ws (length ws - 1) ltac:(lia)) as (Hk & Hw & _).
  rewrite <- (normalize_val ws Hne). unfold normalize.
  set (k := normalize_index _ _) in *.
  destruct (lookup_lt_is_Some_2 ws k ltac:(lia)) as [w Hlk].
  rewrite Nat.add_1_r, (take_S_r _ _ w), words_val_app by done.
  assert (is_u64 w) as Hu by (by eapply Forall_lookup_1).
  assert (Forall is_u64 (take k ws)) as Htk by (by apply Forall_take).
  pose proof (words_val_nonneg _ Htk). pose proof (words_val_bound _ Htk) as Hb.
  rewrite length_take, Nat.min_l in * by lia. rewrite Hlk. simpl default. cbn [words_val].
  rewrite Z.mul_0_r, Z.add_0_r. unfold U64 in Hb |- *. rewrite <- Z.pow_mul_r in * by lia.
  destruct (Z.eqb_spec w 0) as [->|Hnz].
  - destruct Hw as [->|(w' & ? & ?)]; [|congruence]. by rewrite Ews.
  - assert (0 < w) by (width; lia).
    assert (0 < 2 ^ (64 * Z.of_nat k)) by (apply Z.pow_pos_nonneg; lia).
    rewrite (proj2 (Z.eqb_neq _ _)) by nia.
    assert (Hlog : Z.log2 (words_val (take k ws) + 2 ^ (64 * Z.of_nat k) * w) = 64 * Z.of_nat k + Z.log2 w).
    { destruct (Z.log2_spec w ltac:(lia)) as [Hw1 Hw2].
      apply Z.log2_unique; [pose proof (Z.log2_nonneg w); lia|].
      pose proof (Z.log2_nonneg w). rewrite <- Z.add_succ_r, !Z.pow_add_r by lia. nia. }
    subst ws. rewrite Hlog. f_equal. unfold leading_zeros64. rewrite (proj2 (Z.eqb_neq _ _)) by done.
    pose proof (Z.log2_nonneg w). lia.
Qed.

Lemma leading_zeros64_log2 x : 0 < x -> 63 - leading_zeros64 x = Z.log2 x.
Proof. intros. unfold leading_zeros64. rewrite (proj2 (Z.eqb_neq x 0)) by lia. lia. Qed.

Lemma axis_at_atom axis a :
  1 <> axis -> axis_at axis (NAtom a) = None.
Proof.
  destruct axis as [|p|p]; try done. intros Hp. cbn [axis_at].
  rewrite tree_at_walk. destruct (Z.to_nat (Z.log2 (Zpos p))) eqn:E; [|by rewrite walk_atom].
  pose proof (Z.log2_spec (Zpos p) ltac:(lia)). pose proof (Z.log2_nonneg (Zpos p)).
  replace (Z.log2 (Zpos p)) with 0 in * by lia. simpl in *. lia.
Qed.

Lemma raw_slot_direct_spec n d : 0 <= d -> ok_of (raw_slot_direct n d) = axis_at d n.
Proof.
  intros Hd. destruct n as [a|h t]; cbn [raw_slot_direct].
  { destruct (Z.eqb_spec d 1) as [->|]; [done|]. by rewrite axis_at_atom. }
  unfold slot_direct. destruct (Z.eqb_spec d 0) as [->|]; [done|].
  destruct (Z.eqb_spec d 1) as [->|]; [done|].
  rewrite slot_direct_loop_walk, leading_zeros64_log2 by lia.
  destruct d as [|p|p]; [done| |done]. cbn [axis_at]. rewrite tree_at_walk.
  apply walk_ext. intros i _. apply bit_at_testbit. lia.
Qed.

Lemma raw_slot_indirect_spec n ws :
  wf_atom (Indirect ws) -> ok_of (raw_slot_indirect n ws) = axis_at (words_val ws) n.
Proof.
  intros Hwf. apply wf_indirect in Hwf as (Hf & Hne & _ & Hgt). rewrite DIRECT_MAX_val in Hgt.
  destruct n as [a|h t]; cbn [raw_slot_indirect].
  { rewrite axis_at_atom by lia. destruct ws as [|w [|]]; [done| |done].
    cbn [words_val] in Hgt. do 2 (case_match; [lia|]). done. }
  unfold slot_indirect. rewrite highest_bit_log2 by done.
  destruct (Z.eqb_spec (words_val ws) 0); [lia|].
  rewrite slot_indirect_loop_walk. pose proof (words_val_bound ws Hf) as Hb.
  destruct (words_val ws) as [|p|p] eqn:E; [done| |done]. cbn [axis_at]. rewrite tree_at_walk.
  apply walk_ext. intros i Hi. rewrite <- E. apply word_bit_testbit; [done|].
  assert (Z.log2 (Zpos p) < 64 * Z.of_nat (length ws)); [|lia].
  apply Z.log2_lt_pow2; [lia|]. unfold U64 in Hb. by rewrite <- Z.pow_mul_r in Hb by lia.
Qed.

Lemma slot_atom_spec n a : wf_atom a -> ok_of (slot_atom n a) = axis_at (atom_val a) n.
Proof.
  destruct a; intros Hwf; [apply raw_slot_direct_spec, Hwf|by apply raw_slot_indirect_spec].
Qed.

(** ** Editing *)

Fixpoint path_bits (f : nat -> bool) (idx : nat) : list bool :=
  match idx with O => [] | S idx => f idx :: path_bits f idx end.

Fixpoint follow (path : list bool) (n : noun) : option noun :=
  match path with [] => Some n | b :: path => child b n ≫= follow path end.

Lemma follow_path_bits f idx n : follow (path_bits f idx) n = walk f idx n.
Proof.
  revert n. induction idx as [|idx IH]; intros n; simpl; [done|].
  destruct (child (f idx) n); simpl; [apply IH|done].
Qed.

Lemma path_bits_snoc f idx : path_bits f (S idx) = path_bits (fun i => f (S i)) idx ++ [f 0%nat].
Proof. induction idx as [|idx IH]; [done|]. cbn [path_bits app] in *. by rewrite IH. Qed.

Lemma path_bits_ext f g idx :
  (forall i, (i < idx)%nat -> f i = g i) -> path_bits f idx = path_bits g idx.
Proof. induction idx as [|idx IH]; intros H; simpl; [done|]. rewrite H, IH by auto. done. Qed.

Definition with_child (b : bool) (patch : noun) (n : noun) : option noun :=
  match n with
  | NAtom _ => None
  | NCell h t => Some (if b then NCell h patch else NCell patch t)
  end.

(** Editing one level deeper is editing the parent with the rebuilt cell. *)
Lemma edit_loop_snoc path b patch tree :
  ok_of (edit_loop (path ++ [b]) patch tree)
  = (m ← follow path tree; m' ← with_child b patch m; ok_of (edit_loop path m' tree)).
Proof.
  revert tree. induction path as [|c path IH]; intros tree.
  - destruct tree; [done|]. by destruct b.
  - cbn [app edit_loop follow]. destruct tree as [a|h t]; [by destruct c|].
    destruct c; cbn [child head_of tail_of mbind option_bind].
    + specialize (IH t). destruct (follow path t) as [m|]; simpl in *.
      * destruct (with_child b patch m) as [m'|]; simpl in *.
        -- destruct (edit_loop (path ++ [b]) patch t), (edit_loop path m' t); simpl in *; congruence.
        -- destruct (edit_loop (path ++ [b]) patch t); simpl in *; done.
      * destruct (edit_loop (path ++ [b]) patch t); simpl in *; done.
    + specialize (IH h). destruct (follow path h) as [m|]; simpl in *.
      * destruct (with_child b patch m) as [m'|]; simpl in *.
        -- destruct (edit_loop (path ++ [b]) patch h), (edit_loop path m' h); simpl in *; congruence.
        -- destruct (edit_loop (path ++ [b]) patch h); simpl in *; done.
      * destruct (edit_loop (path ++ [b]) patch h); simpl in *; done.
Qed.

Lemma tree_put_edit p patch tree :
  tree_put p patch tree =
  ok_of (edit_loop (path_bits (fun i => Z.testbit (Zpos p) (Z.of_nat i))
                              (Z.to_nat (Z.log2 (Zpos p)))) patch tree).
Proof.
  revert patch. induction p as [p IH|p IH|]; intros patch; [..|done].
  - replace (Z.to_nat (Z.log2 (Zpos p~1))) with (S (Z.to_nat (Z.log2 (Zpos p)))).
    2: { pose proof (Z.log2_nonneg (Zpos p)). change (Zpos p~1) with (2 * Zpos p + 1).
         rewrite Z.log2_succ_double by lia. lia. }
    rewrite path_bits_snoc, edit_loop_snoc, follow_path_bits.
    rewrite (path_bits_ext _ (fun i => Z.testbit (Zpos p) (Z.of_nat i))).
    2: { intros i _. rewrite Nat2Z.inj_succ. apply (Z.testbit_odd_succ (Zpos p)). lia. }
    rewrite (walk_ext _ (fun i => Z.testbit (Zpos p) (Z.of_nat i))).
    2: { intros i _. rewrite Nat2Z.inj_succ. apply (Z.testbit_odd_succ (Zpos p)). lia. }
    rewrite <- tree_at_walk. cbn [tree_put].
    destruct (tree_at p tree) as [[|h t]|]; [done| |done]. apply IH.
  - replace (Z.to_nat (Z.log2 (Zpos p~0))) with (S (Z.to_nat (Z.log2 (Zpos p)))).
    2: { pose proof (Z.log2_nonneg (Zpos p)). change (Zpos p~0) with (2 * Zpos p).
         rewrite Z.log2_double by lia. lia. }
    rewrite path_bits_snoc, edit_loop_snoc, follow_path_bits.
    rewrite (path_bits_ext _ (fun i => Z.testbit (Zpos p) (Z.of_nat i))).
    2: { intros i _. rewrite Nat2Z.inj_succ. apply (Z.testbit_even_succ (Zpos p)). lia. }
    rewrite (walk_ext _ (fun i => Z.testbit (Zpos p) (Z.of_nat i))).
    2: { intros i _. rewrite Nat2Z.inj_succ. apply (Z.testbit_even_succ (Zpos p)). lia. }
    rewrite <- tree_at_walk. cbn [tree_put].
    destruct (tree_at p tree) as [[|h t]|]; [done| |done]. apply IH.
Qed.

Lemma drain_direct axis cursor :
  drain DirectAxisIterator_next cursor {| dai_axis := axis; dai_cursor := cursor |}
  = path_bits (fun i => bit_at axis (Z.of_nat i)) cursor.
Proof. induction cursor as [|c IH]; [done|]. simpl. by rewrite <- IH. Qed.

Lemma drain_indirect ws cursor :
  drain IndirectAxisIterator_next cursor {| iai_words := ws; iai_cursor := cursor |}
  = path_bits (word_bit ws) cursor.
Proof. induction cursor as [|c IH]; [done|]. simpl. by rewrite <- IH. Qed.

Lemma edit_spec a patch tree :
  wf_atom a -> ok_of (edit a patch tree) = axis_put (atom_val a) patch tree.
Proof.
  intros Hwf. pose proof (wf_atom_val a Hwf) as Hv. unfold edit. destruct a as [d|ws].
  - unfold DirectAxisIterator_new. cbn [atom_val] in *. destruct (Z.eqb_spec d 0) as [->|]; [done|].
    rewrite drain_direct. cbn [dai_cursor]. rewrite leading_zeros64_log2 by lia.
    replace (if d =? 1 then 0%nat else Z.to_nat (Z.log2 d)) with (Z.to_nat (Z.log2 d))
      by (by destruct (Z.eqb_spec d 1) as [->|]).
    destruct d as [|p|p]; [done| |done]. cbn [axis_put]. rewrite tree_put_edit. do 2 f_equal.
    apply path_bits_ext. intros i _. apply bit_at_testbit. lia.
  - apply wf_indirect in Hwf as (Hf & Hne & _ & Hgt). rewrite DIRECT_MAX_val in Hgt.
    unfold IndirectAxisIterator_new. rewrite highest_bit_log2 by done. cbn [atom_val] in *.
    destruct (Z.eqb_spec (words_val ws) 0); [lia|]. cbn [mbind option_bind].
    rewrite drain_indirect. cbn [iai_cursor]. pose proof (words_val_bound ws Hf) as Hb.
    destruct (words_val ws) as [|p|p] eqn:E; [done| |done]. cbn [axis_put].
    rewrite tree_put_edit. do 2 f_equal. apply path_bits_ext. intros i Hi.
    rewrite <- E. apply word_bit_testbit; [done|].
    assert (Z.log2 (Zpos p) < 64 * Z.of_nat (length ws)); [|lia].
    apply Z.log2_lt_pow2; [lia|]. unfold U64 in Hb. by rewrite <- Z.pow_mul_r in Hb by lia.
Qed.
