(* ===== verification/Interp.v ===== *)
(** The Nock interpreter of crates/nockvm/rust/nockvm/src/interpreter.rs: the
    work items, the frames of the NockStack, hints, [push_formula], one step of
    the loop per work item, [exit], and [interpret] itself. *)
From stdpp Require Import base option list numbers strings countable gmap.
From Stdlib Require Import ZArith Lia.
From S2P Require Import Prelude Noun.

(** Nouns are countable, so that they can be keys of finite maps. *)
Fixpoint noun_to_tree (n : noun) : gen_tree (Z + list Z) :=
  match n with
  | NAtom (Direct d) => GenLeaf (inl d)
  | NAtom (Indirect ws) => GenLeaf (inr ws)
  | NCell h t => GenNode 0 [noun_to_tree h; noun_to_tree t]
  end.
Fixpoint tree_to_noun (t : gen_tree (Z + list Z)) : noun :=
  match t with
  | GenLeaf (inl d) => NAtom (Direct d)
  | GenLeaf (inr ws) => NAtom (Indirect ws)
  | GenNode _ [h; t] => NCell (tree_to_noun h) (tree_to_noun t)
  | GenNode _ _ => D 0
  end.
Global Instance noun_countable : Countable noun.
Proof.
  apply (inj_countable' noun_to_tree tree_to_noun).
  intros n. induction n as [[]|]; simpl; congruence.
Defined.

(** [tas!(b"...")]: the bytes of a short string, least significant first. *)
Fixpoint tas (s : string) : Z :=
  match s with
  | EmptyString => 0
  | String c s => Z.of_nat (Ascii.nat_of_ascii c) + 256 * tas s
  end.

(** [noun::tape] *)
Fixpoint tape (s : string) : noun :=
  match s with
  | EmptyString => D 0
  | String c s => T [D (Z.of_nat (Ascii.nat_of_ascii c)); tape s]
  end.

(** * Work items *)

Inductive TodoCons := ConsComputeHead | ConsComputeTail | Cons.
Inductive Todo2 := T2ComputeSubject | T2ComputeFormula | T2ComputeResult | T2RestoreSubject.
Inductive Todo3 := T3ComputeChild | T3ComputeType.
Inductive Todo4 := T4ComputeChild | T4Increment.
Inductive Todo5 := T5ComputeLeftChild | T5ComputeRightChild | T5TestEquals.
Inductive Todo6 := T6ComputeTest | T6ComputeBranch.
Inductive Todo7 := T7ComputeSubject | T7ComputeResult | T7RestoreSubject.
Inductive Todo8 := T8ComputeSubject | T8ComputeResult | T8RestoreSubject.
Inductive Todo9 := T9ComputeCore | T9ComputeResult | T9RestoreSubject.
Inductive Todo10 := T10ComputeTree | T10ComputePatch | T10Edit.
Inductive Todo11D := T11DComputeHint | T11DComputeResult | T11DDone.
Inductive Todo11S := T11SComputeResult | T11SDone.
Inductive Todo12 := T12ComputeReff | T12ComputePath | T12Scry.

Inductive NockWork :=
  | Done
  | Ret
  | WorkCons (todo : TodoCons) (head tail : noun)
  | Work0 (axis : atom)
  | Work1 (n : noun)
  | Work2 (todo : Todo2) (subject formula : noun) (tail : bool)
  | Work3 (todo : Todo3) (child : noun)
  | Work4 (todo : Todo4) (child : noun)
  | Work5 (todo : Todo5) (left right : noun)
  | Work6 (todo : Todo6) (test zero once : noun) (tail : bool)
  | Work7 (todo : Todo7) (subject formula : noun) (tail : bool)
  | Work8 (todo : Todo8) (pin formula : noun) (tail : bool)
  | Work9 (todo : Todo9) (axis : atom) (core : noun) (tail : bool)
  | Work10 (todo : Todo10) (axis : atom) (tree patch : noun)
  | Work11D (todo : Todo11D) (tag : atom) (hint body : noun) (tail : bool)
  | Work11S (todo : Todo11S) (tag : atom) (body : noun) (tail : bool)
  | Work12 (todo : Todo12) (reff path : noun).

Inductive Mote := Exit | Fail | Intr | Meme | Jest.
Inductive Error :=
  | ScryBlocked (path : noun)
  | ScryCrashed (trace : noun)
  | Deterministic (m : Mote) (trace : noun)
  | NonDeterministic (m : Mote) (trace : noun).

Definition BAIL_EXIT : Error := Deterministic Exit (D 0).
Definition BAIL_FAIL : Error := NonDeterministic Fail (D 0).
Definition BAIL_JEST : Error := NonDeterministic Jest (D 0).

(** [JetErr] *)
Inductive JetErr := Punt | JetFail (e : Error).

(** * The jet machinery the interpreter calls

    The cold, warm and hot state and the trace printer [mook] are other
    components: the interpreter sees a jet finder, the code of the jets, cold
    registration with the rebuilt warm state, and [mook]. *)
Class JetState := {
  warm_t : Type;
  cold_t : Type;
  jet_t : Type;
  find_jet : warm_t -> noun -> noun -> option (jet_t * bool);
  run_jet : jet_t -> noun -> outcome JetErr noun;
  (** [Some true]: newly registered; [None]: no parent, or a bad clue *)
  register : cold_t -> noun -> atom -> noun -> cold_t * option bool;
  warm_init : cold_t -> warm_t;
  mook : noun -> outcome Error (noun * noun);
}.

(** * The stack and the context *)

(** A frame of the NockStack: its mean stack (local 0) and its work items, top
    first. *)
Record Frame := { mean : noun; work : list NockWork }.

Section Interpreter.
Context {JS : JetState}.

Record Context := {
  stack : list Frame;
  cold : cold_t;
  warm : warm_t;
  cache : gmap noun noun;
  scry_stack : noun;
  running_status : Z;
  slogs : list (Z * noun);
}.

Definition set_stack (st : list Frame) (c : Context) : Context :=
  {| stack := st; cold := cold c; warm := warm c; cache := cache c;
     scry_stack := scry_stack c; running_status := running_status c; slogs := slogs c |}.
Definition set_status (s : Z) (c : Context) : Context :=
  {| stack := stack c; cold := cold c; warm := warm c; cache := cache c;
     scry_stack := scry_stack c; running_status := s; slogs := slogs c |}.
Definition set_cache (m : gmap noun noun) (c : Context) : Context :=
  {| stack := stack c; cold := cold c; warm := warm c; cache := m;
     scry_stack := scry_stack c; running_status := running_status c; slogs := slogs c |}.
Definition set_cold (k : cold_t) (c : Context) : Context :=
  {| stack := stack c; cold := k; warm := warm c; cache := cache c;
     scry_stack := scry_stack c; running_status := running_status c; slogs := slogs c |}.
Definition set_warm (w : warm_t) (c : Context) : Context :=
  {| stack := stack c; cold := cold c; warm := w; cache := cache c;
     scry_stack := scry_stack c; running_status := running_status c; slogs := slogs c |}.
Definition set_scry (n : noun) (c : Context) : Context :=
  {| stack := stack c; cold := cold c; warm := warm c; cache := cache c;
     scry_stack := n; running_status := running_status c; slogs := slogs c |}.
Definition slog (pri : Z) (tank : noun) (c : Context) : Context :=
  {| stack := stack c; cold := cold c; warm := warm c; cache := cache c;
     scry_stack := scry_stack c; running_status := running_status c;
     slogs := slogs c ++ [(pri, tank)] |}.

(** [ContextSnapshot], [Context::save], [Context::restore] *)
Record ContextSnapshot := { s_cold : cold_t; s_warm : warm_t; s_cache : gmap noun noun }.
Definition save (c : Context) : ContextSnapshot :=
  {| s_cold := cold c; s_warm := warm c; s_cache := cache c |}.
Definition restore (s : ContextSnapshot) (c : Context) : Context :=
  {| stack := stack c; cold := s_cold s; warm := s_warm s; cache := s_cache s;
     scry_stack := scry_stack c; running_status := running_status c; slogs := slogs c |}.

(** Work items of the top frame. *)
Definition push_work (w : NockWork) (st : list Frame) : list Frame :=
  match st with
  | [] => []
  | f :: st => {| mean := mean f; work := w :: work f |} :: st
  end.
Definition pop_work (st : list Frame) : list Frame :=
  match st with
  | [] => []
  | f :: st => {| mean := mean f; work := tail (work f) |} :: st
  end.
Definition set_top (w : NockWork) (st : list Frame) : list Frame := push_work w (pop_work st).
Definition top_work (st : list Frame) : option NockWork :=
  match st with
  | {| work := w :: _ |} :: _ => Some w
  | _ => None
  end.

Definition frame_pop (st : list Frame) : list Frame := tail st.
Definition local_mean (st : list Frame) : noun :=
  match st with f :: _ => mean f | [] => D 0 end.
Definition set_mean (m : noun) (st : list Frame) : list Frame :=
  match st with
  | [] => []
  | f :: st => {| mean := m; work := work f |} :: st
  end.

(** [mean_frame_push(stack, 0)]: a frame that inherits the mean stack *)
Definition mean_frame_push (st : list Frame) : list Frame :=
  {| mean := local_mean st; work := [] |} :: st.
Definition mean_push (n : noun) (st : list Frame) : list Frame :=
  set_mean (T [n; local_mean st]) st.
(** [mean_pop] expects a cell. *)
Definition mean_pop (st : list Frame) : option (list Frame) :=
  match local_mean st with
  | NCell _ t => Some (set_mean t st)
  | NAtom _ => None
  end.

(** * Lists: [jets::list::util::flop] and [weld] *)

Fixpoint flop_loop (list tsil : noun) : outcome error noun :=
  if decide (list = D 0) then Ok tsil
  else match list with
       | NCell h t => flop_loop t (T [h; tsil])
       | NAtom _ => Err NotCell
       end.
Definition flop (n : noun) : outcome error noun := flop_loop n (D 0).
Definition weld (a b : noun) : outcome error noun :=
  res ← flop_loop a (D 0); res ← flop_loop b res; flop res.

(** * Formulas *)

(** [hint::is_tail] *)
Definition is_tail (tag : atom) : bool :=
  match tag with
  | Direct d => negb ((d =? tas "fast") || (d =? tas "memo"))
  | Indirect _ => true
  end.

(** [push_formula]: the work item a formula starts as, or [BAIL_EXIT]. *)
Definition formula_work (formula : noun) (tail : bool) : outcome Error NockWork :=
  match formula with
  | NAtom _ => Err BAIL_EXIT
  | NCell (NCell _ _ as h) t => Ok (WorkCons ConsComputeHead h t)
  | NCell (NAtom (Indirect _)) _ => Err BAIL_EXIT
  | NCell (NAtom (Direct op)) arg =>
      match op with
      | 0 => match arg with
             | NAtom axis => Ok (Work0 axis)
             | NCell _ _ => Err BAIL_EXIT
             end
      | 1 => Ok (Work1 arg)
      | 2 => match arg with
             | NCell s f => Ok (Work2 T2ComputeSubject s f tail)
             | NAtom _ => Err BAIL_EXIT
             end
      | 3 => Ok (Work3 T3ComputeChild arg)
      | 4 => Ok (Work4 T4ComputeChild arg)
      | 5 => match arg with
             | NCell l r => Ok (Work5 T5ComputeLeftChild l r)
             | NAtom _ => Err BAIL_EXIT
             end
      | 6 => match arg with
             | NCell t (NCell z o) => Ok (Work6 T6ComputeTest t z o tail)
             | _ => Err BAIL_EXIT
             end
      | 7 => match arg with
             | NCell s f => Ok (Work7 T7ComputeSubject s f tail)
             | NAtom _ => Err BAIL_EXIT
             end
      | 8 => match arg with
             | NCell p f => Ok (Work8 T8ComputeSubject p f tail)
             | NAtom _ => Err BAIL_EXIT
             end
      | 9 => match arg with
             | NCell (NAtom axis) core => Ok (Work9 T9ComputeCore axis core tail)
             | _ => Err BAIL_EXIT
             end
      | 10 => match arg with
              | NCell (NCell (NAtom axis) patch) tree => Ok (Work10 T10ComputeTree axis tree patch)
              | _ => Err BAIL_EXIT
              end
      | 11 => match arg with
              | NCell (NAtom tag) body =>
                  Ok (Work11S T11SComputeResult tag body (tail && is_tail tag))
              | NCell (NCell (NAtom tag) hint) body =>
                  Ok (Work11D T11DComputeHint tag hint body (tail && is_tail tag))
              | _ => Err BAIL_EXIT
              end
      | 12 => match arg with
              | NCell r p => Ok (Work12 T12ComputeReff r p)
              | NAtom _ => Err BAIL_EXIT
              end
      | _ => Err BAIL_EXIT
      end
  end.

(** * One iteration of the loop *)

(** Where an iteration leaves: it continues, it breaks out of the loop to the
    epilogue with [nock], it returns from [interpret] on the spot (the
    [try_or_bail!]s and the [?]s), it panics, or the nested call ran out of
    fuel. *)
Inductive step_result :=
  | Continue (c : Context) (subject res : noun)
  | Break (c : Context) (nock : outcome Error noun)
  | Return (c : Context) (e : Error)
  | Crash
  | NoFuel.

(** [try_or_bail!(push_formula(..))] followed by the next iteration *)
Definition push_or_bail (f : noun) (tail : bool) (c : Context) (subject res : noun) : step_result :=
  match formula_work f tail with
  | Ok w => Continue (set_stack (push_work w (stack c)) c) subject res
  | Err e => Return c e
  | Panic => Crash
  end.

(** pop the work item and go on with a new result *)
Definition pop_with (c : Context) (subject res : noun) : step_result :=
  Continue (set_stack (pop_work (stack c)) c) subject res.

Definition retop (w : NockWork) (c : Context) : Context := set_stack (set_top w (stack c)) c.
Definition popped (c : Context) : Context := set_stack (pop_work (stack c)) c.

(** A nested [interpret]. *)
Definition nested := Context -> noun -> noun -> option (Context * outcome Error noun).

(** ** Hints *)

Definition is_mean_tag (d : Z) : bool :=
  (d =? tas "hand") || (d =? tas "hunk") || (d =? tas "lose") || (d =? tas "mean")
  || (d =? tas "spot").

(** [hint::match_pre_hint] (without the [sham_hints] feature) *)
Definition match_pre_hint (c : Context) (subject : noun) (tag : atom) (body : noun) : option noun :=
  match tag with
  | Direct d => if d =? tas "memo" then cache c !! NCell subject body else None
  | Indirect _ => None
  end.

(** slog the heads of a list until it ends *)
Fixpoint slog_list (list : noun) (c : Context) : Context :=
  match list with
  | NCell h t => slog_list t (slog 0 h c)
  | NAtom _ => c
  end.

Inductive hint_result :=
  | HNone (c : Context)
  | HSome (c : Context) (r : outcome Error noun)
  | HCrash
  | HNoFuel.

(** [hint::match_pre_nock] (without the [hint_dont] feature) *)
Definition match_pre_nock (rec : nested) (c : Context) (subject : noun) (tag : atom)
    (hint : option (noun * noun)) (body : noun) : hint_result :=
  match tag with
  | Indirect _ => HNone c
  | Direct d =>
      if d =? tas "bout" then
        match rec c subject body with
        | None => HNoFuel
        | Some (_, Panic) => HCrash
        | Some (c, r) => HSome c r
        end
      else if d =? tas "slog" then
        match hint with
        | Some (_, NCell (NAtom (Direct pri)) tank) => HNone (slog pri tank c)
        | _ => HNone c
        end
      else if is_mean_tag d then
        match hint with
        | Some (_, clue) => HNone (set_stack (mean_push (T [NAtom tag; clue]) (stack c)) c)
        | None => HNone c
        end
      else if d =? tas "hela" then
        match mook (NCell (D 2) (local_mean (stack c))) with
        | Ok (h, list) => if decide (h = D 2) then HNone (slog_list list c) else HCrash
        | _ => HCrash
        end
      else HNone c
  end.

(** The loop of the [%fast] hint that looks through 11s in the parent formula. *)
Fixpoint strip_hints (parent : noun) : option noun :=
  match parent with
  | NAtom _ => None
  | NCell h t =>
      if decide (h = D 11) then
        match t with
        | NCell _ t' => strip_hints t'
        | NAtom _ => None
        end
      else Some parent
  end.

Definition register_parent (clue : noun) : option (Z * atom * noun) :=
  chum ← ok_of (slot clue 2);
  parent ← ok_of (slot clue 6);
  parent ← strip_hints parent;
  op ← ok_of (slot parent 2);
  ax ← ok_of (slot parent 3);
  match op, ax with
  | NAtom (Direct op), NAtom ax => Some (op, ax, chum)
  | _, _ => None
  end.

(** [hint::match_post_nock]: it always returns [None]; [None] here is the panic
    of [mean_pop]. *)
Definition match_post_nock (c : Context) (subject : noun) (tag : atom) (hint : option noun)
    (body res : noun) : option Context :=
  match tag with
  | Indirect _ => Some c
  | Direct d =>
      if d =? tas "memo" then Some (set_cache (<[NCell subject body := res]> (cache c)) c)
      else if is_mean_tag d then st ← mean_pop (stack c); Some (set_stack st c)
      else if d =? tas "fast" then
        match hint with
        | None => Some c
        | Some clue =>
            match register_parent clue with
            | None => Some c
            | Some (op, ax, chum) =>
                let go := let '(k, r) := register (cold c) res ax chum in
                          match r with
                          | Some true => Some (set_warm (warm_init k) (set_cold k c))
                          | _ => Some (set_cold k c)
                          end in
                if op =? 1 then
                  match ax with
                  | Direct 0 => go
                  | Direct _ =>
                      Some (slog 0 (T [D (tas "leaf");
                                       tape "serf: cold: register: invalid root parent axis"]) c)
                  | Indirect _ => Some c
                  end
                else go
            end
        end
      else Some c
  end.

(** ** One definition per work item *)

Definition step_work0 (c : Context) (axis : atom) (subject : noun) : step_result :=
  match slot_atom subject axis with
  | Ok n => pop_with c subject n
  | _ => Break c (Err BAIL_EXIT)
  end.

Definition step_work6 (c : Context) (todo : Todo6) (test zero once : noun) (tail : bool)
    (subject res : noun) : step_result :=
  match todo with
  | T6ComputeTest =>
      push_or_bail test false (retop (Work6 T6ComputeBranch test zero once tail) c) subject res
  | T6ComputeBranch =>
      let c := popped c in
      match res with
      | NAtom (Direct d) =>
          if d =? 0 then push_or_bail zero tail c subject res
          else if d =? 1 then push_or_bail once tail c subject res
          else Break c (Err BAIL_EXIT)
      | _ => Break c (Err BAIL_EXIT)
      end
  end.

Definition step_work8 (c : Context) (todo : Todo8) (pin formula : noun) (tail : bool)
    (subject res : noun) : step_result :=
  match todo with
  | T8ComputeSubject =>
      push_or_bail pin false (retop (Work8 T8ComputeResult pin formula tail) c) subject res
  | T8ComputeResult =>
      if tail then push_or_bail formula true (popped c) (T [res; subject]) res
      else push_or_bail formula false (retop (Work8 T8RestoreSubject subject formula tail) c)
             (T [res; subject]) res
  | T8RestoreSubject => pop_with c pin res
  end.

Definition step_work5 (c : Context) (todo : Todo5) (left right : noun)
    (subject res : noun) : step_result :=
  match todo with
  | T5ComputeLeftChild =>
      push_or_bail left false (retop (Work5 T5ComputeRightChild left right) c) subject res
  | T5ComputeRightChild =>
      push_or_bail right false (retop (Work5 T5TestEquals res right) c) subject res
  | T5TestEquals => pop_with c subject (if decide (res = left) then D 0 else D 1)
  end.

(** enter the formula of a core: in tail position the work item goes, otherwise
    it stays to restore the subject and a frame with a [Ret] is pushed *)
Definition work9_enter (c : Context) (axis : atom) (tail : bool) (formula subject res : noun)
  : step_result :=
  if tail then push_or_bail formula true (popped c) res res
  else
    let c := retop (Work9 T9RestoreSubject axis subject tail) c in
    push_or_bail formula true
      (set_stack (push_work Ret (mean_frame_push (stack c))) c) res res.

Definition step_work9 (rec : nested) (c : Context) (todo : Todo9) (axis : atom) (core : noun)
    (tail : bool) (subject res : noun) : step_result :=
  match todo with
  | T9ComputeCore =>
      push_or_bail core false (retop (Work9 T9ComputeResult axis core tail) c) subject res
  | T9ComputeResult =>
      match slot_atom res axis with
      | Ok formula =>
          match find_jet (warm c) res formula with
          | None => work9_enter c axis tail formula subject res
          | Some (jet, test) =>
              match run_jet jet res with
              | Ok jet_res =>
                  if test then
                    match rec c res formula with
                    | None => NoFuel
                    | Some (c, Ok test_res) =>
                        if decide (test_res = jet_res) then pop_with c subject jet_res
                        else Break c (Err BAIL_JEST)
                    | Some (c, Err e) => Return c e
                    | Some (_, Panic) => Crash
                    end
                  else pop_with c subject jet_res
              | Err Punt => work9_enter c axis tail formula subject res
              | Err (JetFail e) => Break c (Err e)
              | Panic => Crash
              end
          end
      | _ => Break c (Err BAIL_EXIT)
      end
  | T9RestoreSubject => pop_with c core res
  end.

Definition step_workcons (c : Context) (todo : TodoCons) (head tail : noun)
    (subject res : noun) : step_result :=
  match todo with
  | ConsComputeHead =>
      push_or_bail head false (retop (WorkCons ConsComputeTail head tail) c) subject res
  | ConsComputeTail =>
      push_or_bail tail false (retop (WorkCons Cons res tail) c) subject res
  | Cons => pop_with c subject (T [head; res])
  end.

Definition step_work10 (c : Context) (todo : Todo10) (axis : atom) (tree patch : noun)
    (subject res : noun) : step_result :=
  match todo with
  | T10ComputeTree =>
      push_or_bail tree false (retop (Work10 T10ComputePatch axis tree patch) c) subject res
  | T10ComputePatch =>
      push_or_bail patch false (retop (Work10 T10Edit axis res patch) c) subject res
  | T10Edit =>
      match edit axis res tree with
      | Ok n => pop_with c subject n
      | _ => Crash
      end
  end.

Definition step_work7 (c : Context) (todo : Todo7) (subj formula : noun) (tail : bool)
    (subject res : noun) : step_result :=
  match todo with
  | T7ComputeSubject =>
      push_or_bail subj false (retop (Work7 T7ComputeResult subj formula tail) c) subject res
  | T7ComputeResult =>
      if tail then push_or_bail formula true (popped c) res res
      else push_or_bail formula false (retop (Work7 T7RestoreSubject subject formula tail) c) res res
  | T7RestoreSubject => pop_with c subj res
  end.

Definition step_work3 (c : Context) (todo : Todo3) (child : noun) (subject res : noun)
  : step_result :=
  match todo with
  | T3ComputeChild => push_or_bail child false (retop (Work3 T3ComputeType child) c) subject res
  | T3ComputeType =>
      pop_with c subject (match res with NCell _ _ => D 0 | NAtom _ => D 1 end)
  end.

Definition step_work4 (c : Context) (todo : Todo4) (child : noun) (subject res : noun)
  : step_result :=
  match todo with
  | T4ComputeChild => push_or_bail child false (retop (Work4 T4Increment child) c) subject res
  | T4Increment =>
      match res with
      | NAtom a => pop_with c subject (NAtom (inc a))
      | NCell _ _ => Break c (Err BAIL_EXIT)
      end
  end.

(** [cold_paths::step_work2] *)
Definition step_work2 (c : Context) (todo : Todo2) (subj formula : noun) (tail : bool)
    (subject res : noun) : step_result :=
  match todo with
  | T2ComputeSubject =>
      push_or_bail subj false (retop (Work2 T2ComputeFormula subj formula tail) c) subject res
  | T2ComputeFormula =>
      push_or_bail formula false (retop (Work2 T2ComputeResult res formula tail) c) subject res
  | T2ComputeResult =>
      if tail then push_or_bail res true (popped c) subj res
      else
        let c := retop (Work2 T2RestoreSubject subject formula tail) c in
        push_or_bail res true
          (set_stack (push_work Ret (mean_frame_push (stack c))) c) subj res
  | T2RestoreSubject => pop_with c subj res
  end.

(** What a hint callback makes the loop do. *)
Definition hint_found (h : hint_result) (subject : noun) (k : Context -> step_result) : step_result :=
  match h with
  | HNone c => k c
  | HSome c (Ok found) => pop_with c subject found
  | HSome c r => Break c r
  | HCrash => Crash
  | HNoFuel => NoFuel
  end.

Definition step_work11d (rec : nested) (c : Context) (todo : Todo11D) (tag : atom)
    (hint body : noun) (tail : bool) (subject res : noun) : step_result :=
  match todo with
  | T11DComputeHint =>
      match match_pre_hint c subject tag body with
      | Some found => pop_with c subject found
      | None => push_or_bail hint false (retop (Work11D T11DComputeResult tag hint body tail) c)
                  subject res
      end
  | T11DComputeResult =>
      hint_found (match_pre_nock rec c subject tag (Some (hint, res)) body) subject (fun c =>
        push_or_bail body tail
          (if tail then popped c else retop (Work11D T11DDone tag res body tail) c) subject res)
  | T11DDone =>
      match match_post_nock c subject tag (Some hint) body res with
      | Some c => pop_with c subject res
      | None => Crash
      end
  end.

(** [cold_paths::step_work11s] *)
Definition step_work11s (rec : nested) (c : Context) (todo : Todo11S) (tag : atom)
    (body : noun) (tail : bool) (subject res : noun) : step_result :=
  match todo with
  | T11SComputeResult =>
      hint_found (match_pre_nock rec c subject tag None body) subject (fun c =>
        (* the error of push_formula is broken out with here, not returned *)
        let c := if tail then popped c else retop (Work11S T11SDone tag body tail) c in
        match push_or_bail body tail c subject res with
        | Return c e => Break c (Err e)
        | r => r
        end)
  | T11SDone =>
      match match_post_nock c subject tag None body res with
      | Some c => pop_with c subject res
      | None => Crash
      end
  end.

(** [cold_paths::step_work12] *)
Definition step_work12 (rec : nested) (c : Context) (todo : Todo12) (reff path : noun)
    (subject res : noun) : step_result :=
  match todo with
  | T12ComputeReff =>
      push_or_bail reff false (retop (Work12 T12ComputePath reff path) c) subject res
  | T12ComputePath =>
      push_or_bail path false (retop (Work12 T12Scry res path) c) subject res
  | T12Scry =>
      match scry_stack c with
      | NAtom _ => Return c BAIL_EXIT
      | NCell (NCell gate_head (NCell _ gate_ctx)) rest =>
          let scry_core := T [gate_head; T [reff; res]; gate_ctx] in
          let scry_form := T [D 9; D 2; D 1; scry_core] in
          match rec (set_scry rest c) (D 0) scry_form with
          | None => NoFuel
          | Some (_, Panic) => Crash
          | Some (c', Ok (NAtom a)) =>
              Return c' (if decide (a = Direct 0) then ScryBlocked res else ScryCrashed (D 0))
          | Some (c', Ok (NCell _ (NAtom _))) =>
              Return (set_stack (mean_push (T [D (tas "hunk"); reff; res]) (stack c')) c')
                (ScryCrashed (D 0))
          | Some (c', Ok (NCell _ (NCell _ found))) =>
              pop_with (set_scry (scry_stack c) c') subject found
          | Some (c', Err (Deterministic _ trace)) => Return c' (ScryCrashed trace)
          | Some (c', Err (ScryCrashed trace)) => Return c' (ScryCrashed trace)
          | Some (c', Err (NonDeterministic m trace)) => Return c' (NonDeterministic m trace)
          | Some (c', Err (ScryBlocked _)) => Return c' BAIL_FAIL
          end
      | NCell _ _ => Return c BAIL_EXIT
      end
  end.

(** The dispatch of the loop on the top work item. *)
Definition dispatch (rec : nested) (c : Context) (w : NockWork) (subject res : noun) : step_result :=
  match w with
  | Work0 axis => step_work0 c axis subject
  | Work6 todo t z o tail => step_work6 c todo t z o tail subject res
  | Work8 todo p f tail => step_work8 c todo p f tail subject res
  | Work5 todo l r => step_work5 c todo l r subject res
  | Work9 todo a k tail => step_work9 rec c todo a k tail subject res
  | Work1 n => pop_with c subject n
  | WorkCons todo h t => step_workcons c todo h t subject res
  | Work10 todo a t p => step_work10 c todo a t p subject res
  | Work7 todo s f tail => step_work7 c todo s f tail subject res
  | Work3 todo ch => step_work3 c todo ch subject res
  | Work11D todo tag h b tail => step_work11d rec c todo tag h b tail subject res
  | Ret => Continue (set_stack (frame_pop (stack c)) c) subject res
  | Work4 todo ch => step_work4 c todo ch subject res
  | Done => Break (set_stack (frame_pop (stack c)) c) (Ok res)
  | Work2 todo s f tail => step_work2 c todo s f tail subject res
  | Work11S todo tag b tail => step_work11s rec c todo tag b tail subject res
  | Work12 todo r p => step_work12 rec c todo r p subject res
  end.

Definition step (rec : nested) (c : Context) (subject res : noun) : step_result :=
  match top_work (stack c) with
  | None => Crash
  | Some w => dispatch rec c w subject res
  end.

(** * [exit] and the cancellation status *)

(** pop frames down to the virtual frame *)
Definition pop_to (virtual_frame : nat) (st : list Frame) : list Frame :=
  drop (length st - virtual_frame) st.

Definition exit (c : Context) (snapshot : ContextSnapshot) (virtual_frame : nat) (e : Error)
  : Context * Error :=
  let c := restore snapshot c in
  let h := local_mean (stack c) in
  let trace t := match weld t h with Ok trace => trace | _ => h end in
  let c' := set_stack (pop_to virtual_frame (stack c)) c in
  (c', match e with
       | Deterministic m t => Deterministic m (trace t)
       | NonDeterministic m t => NonDeterministic m (trace t)
       | ScryCrashed t => ScryCrashed (trace t)
       | ScryBlocked _ => e
       end).

(** the compare-and-exchange loops at the two ends of [interpret] *)
Definition enter_status (s : Z) : option Z := if 0 <=? s then Some (s + 1) else None.
Definition leave_status (s : Z) : Z :=
  if s <? 0 then s + 1 else if s =? 0 then s else s - 1.
(** [NockCancelToken::cancel] *)
Definition cancel (s : Z) : Z * bool := if s <=? 0 then (s, false) else (- s, true).

(** * [interpret] *)

Inductive loop_result :=
  | LBreak (c : Context) (nock : outcome Error noun)
  | LReturn (c : Context) (e : Error)
  | LPanic.

Definition interpret_with (loop : Context -> noun -> noun -> option loop_result) : nested :=
  fun c subject formula =>
  let snapshot := save c in
  let virtual_frame := length (stack c) in
  match enter_status (running_status c) with
  | None => let '(c, e) := exit c snapshot virtual_frame (NonDeterministic Intr (D 0)) in
            Some (c, Err e)
  | Some s =>
      let c := set_status s c in
      let c := set_stack ({| mean := D 0; work := [Done] |} :: stack c) c in
      match formula_work formula true with
      | Err e => Some (c, Err e)
      | Panic => Some (c, Panic)
      | Ok w =>
          match loop (set_stack (push_work w (stack c)) c) subject (D 0) with
          | None => None
          | Some (LReturn c e) => Some (c, Err e)
          | Some LPanic => Some (c, Panic)
          | Some (LBreak c nock) =>
              let c := set_status (leave_status (running_status c)) c in
              match nock with
              | Ok res => Some (c, Ok res)
              | Err e => let '(c, e) := exit c snapshot virtual_frame e in Some (c, Err e)
              | Panic => Some (c, Panic)
              end
          end
      end
  end.

Fixpoint run_loop (fuel : nat) (c : Context) (subject res : noun) : option loop_result :=
  match fuel with
  | O => None
  | S fuel =>
      match step (interpret_with (run_loop fuel)) c subject res with
      | Continue c subject res => run_loop fuel c subject res
      | Break c nock => Some (LBreak c nock)
      | Return c e => Some (LReturn c e)
      | Crash => Some LPanic
      | NoFuel => None
      end
  end.

Definition interpret (fuel : nat) : nested := interpret_with (run_loop fuel).

End Interpreter.
