(* ===== verification/NockSpec.v ===== *)
(** The Nock definition the interpreter is held against: the reduction rules on
    mathematical nouns ([mnock]), the same rules on nouns at word level ([nock]),
    and the correspondence between the two. *)
From stdpp Require Import base option list numbers strings.
From Stdlib Require Import ZArith Lia.
From S2P Require Import Prelude Noun Interp.

Global Instance mnoun_eq_dec : EqDecision mnoun.
Proof. solve_decision. Defined.

(** * Mathematical nouns *)

Definition mhead (n : mnoun) : option mnoun := match n with MCell h _ => Some h | _ => None end.
Definition mtail (n : mnoun) : option mnoun := match n with MCell _ t => Some t | _ => None end.
Fixpoint mtree_at (p : positive) (n : mnoun) : option mnoun :=
  match p with
  | xH => Some n
  | xO p => mtree_at p n ≫= mhead
  | xI p => mtree_at p n ≫= mtail
  end.
Definition maxis_at (axis : N) (n : mnoun) : option mnoun :=
  match axis with Npos p => mtree_at p n | N0 => None end.
Fixpoint mtree_put (p : positive) (patch n : mnoun) : option mnoun :=
  match p with
  | xH => Some patch
  | xO p => match mtree_at p n with
            | Some (MCell _ t) => mtree_put p (MCell patch t) n
            | _ => None
            end
  | xI p => match mtree_at p n with
            | Some (MCell h _) => mtree_put p (MCell h patch) n
            | _ => None
            end
  end.
Definition maxis_put (axis : N) (patch n : mnoun) : option mnoun :=
  match axis with Npos p => mtree_put p patch n | N0 => None end.

(** Which hints a derivation may use: [skip_hint] tags need no evaluation of
    their hint formula (a [%memo] hit in the code skips it); [ok_static] and
    [ok_dynamic] restrict the tags. *)
Record hint_policy := {
  skip_hint : atom -> Prop;
  ok_static : atom -> Prop;
  ok_dynamic : atom -> Prop;
}.

(** The Nock reduction rules on mathematical nouns; the hint tag of [%memo] is
    the only one whose hint formula may be left unevaluated. *)
Inductive mnock : mnoun -> mnoun -> mnoun -> Prop :=
  | m_cons s a b d r1 r2 :
      mnock s (MCell a b) r1 -> mnock s d r2 ->
      mnock s (MCell (MCell a b) d) (MCell r1 r2)
  | m_0 s b r : maxis_at b s = Some r -> mnock s (MCell (MAtom 0) (MAtom b)) r
  | m_1 s b : mnock s (MCell (MAtom 1) b) b
  | m_2 s b c x f r :
      mnock s b x -> mnock s c f -> mnock x f r -> mnock s (MCell (MAtom 2) (MCell b c)) r
  | m_3_cell s b x y : mnock s b (MCell x y) -> mnock s (MCell (MAtom 3) b) (MAtom 0)
  | m_3_atom s b n : mnock s b (MAtom n) -> mnock s (MCell (MAtom 3) b) (MAtom 1)
  | m_4 s b n : mnock s b (MAtom n) -> mnock s (MCell (MAtom 4) b) (MAtom (n + 1))
  | m_5 s b c x y :
      mnock s b x -> mnock s c y ->
      mnock s (MCell (MAtom 5) (MCell b c)) (MAtom (if decide (x = y) then 0 else 1))
  | m_6_zero s b c d r :
      mnock s b (MAtom 0) -> mnock s c r -> mnock s (MCell (MAtom 6) (MCell b (MCell c d))) r
  | m_6_one s b c d r :
      mnock s b (MAtom 1) -> mnock s d r -> mnock s (MCell (MAtom 6) (MCell b (MCell c d))) r
  | m_7 s b c x r :
      mnock s b x -> mnock x c r -> mnock s (MCell (MAtom 7) (MCell b c)) r
  | m_8 s b c x r :
      mnock s b x -> mnock (MCell x s) c r -> mnock s (MCell (MAtom 8) (MCell b c)) r
  | m_9 s b c core f r :
      mnock s c core -> maxis_at b core = Some f -> mnock core f r ->
      mnock s (MCell (MAtom 9) (MCell (MAtom b) c)) r
  | m_10 s b c d x y r :
      mnock s d x -> mnock s c y -> maxis_put b y x = Some r ->
      mnock s (MCell (MAtom 10) (MCell (MCell (MAtom b) c) d)) r
  | m_11_static s b d r :
      mnock s d r -> mnock s (MCell (MAtom 11) (MCell (MAtom b) d)) r
  | m_11_dynamic s b c d x r :
      mnock s c x -> mnock s d r -> mnock s (MCell (MAtom 11) (MCell (MCell (MAtom b) c) d)) r
  | m_11_memo s c d r :
      mnock s d r ->
      mnock s (MCell (MAtom 11) (MCell (MCell (MAtom (Z.to_N (tas "memo"))) c) d)) r.

(** * The same rules at word level *)

Section Nock.
Context (P : hint_policy).

Inductive nock : noun -> noun -> noun -> Prop :=
  | n_cons s a b d r1 r2 :
      nock s (NCell a b) r1 -> nock s d r2 ->
      nock s (NCell (NCell a b) d) (NCell r1 r2)
  | n_0 s b r : slot_atom s b = Ok r -> nock s (NCell (D 0) (NAtom b)) r
  | n_1 s b : nock s (NCell (D 1) b) b
  | n_2 s b c x f r :
      nock s b x -> nock s c f -> nock x f r -> nock s (NCell (D 2) (NCell b c)) r
  | n_3 s b x :
      nock s b x ->
      nock s (NCell (D 3) b) (match x with NCell _ _ => D 0 | NAtom _ => D 1 end)
  | n_4 s b a : nock s b (NAtom a) -> nock s (NCell (D 4) b) (NAtom (inc a))
  | n_5 s b c x y :
      nock s b x -> nock s c y ->
      nock s (NCell (D 5) (NCell b c)) (if decide (y = x) then D 0 else D 1)
  | n_6_zero s b c d r :
      nock s b (D 0) -> nock s c r -> nock s (NCell (D 6) (NCell b (NCell c d))) r
  | n_6_one s b c d r :
      nock s b (D 1) -> nock s d r -> nock s (NCell (D 6) (NCell b (NCell c d))) r
  | n_7 s b c x r :
      nock s b x -> nock x c r -> nock s (NCell (D 7) (NCell b c)) r
  | n_8 s b c x r :
      nock s b x -> nock (NCell x s) c r -> nock s (NCell (D 8) (NCell b c)) r
  | n_9 s b c core f r :
      nock s c core -> slot_atom core b = Ok f -> nock core f r ->
      nock s (NCell (D 9) (NCell (NAtom b) c)) r
  | n_10 s b c d x y r :
      nock s d x -> nock s c y -> edit b y x = Ok r ->
      nock s (NCell (D 10) (NCell (NCell (NAtom b) c) d)) r
  | n_11_static s b d r :
      ok_static P b -> nock s d r -> nock s (NCell (D 11) (NCell (NAtom b) d)) r
  | n_11_dynamic s b c d x r :
      ok_dynamic P b -> nock s c x -> nock s d r ->
      nock s (NCell (D 11) (NCell (NCell (NAtom b) c) d)) r
  | n_11_skip s b c d r :
      skip_hint P b -> ok_dynamic P b -> nock s d r ->
      nock s (NCell (D 11) (NCell (NCell (NAtom b) c) d)) r.

(** Reduction is a partial function of subject and formula. *)
Lemma nock_det s f r1 r2 : nock s f r1 -> nock s f r2 -> r1 = r2.
Proof.
  intros H1. revert r2. induction H1; intros r' H2; inversion H2; subst; try congruence;
    repeat match goal with
    | IH : forall r, nock ?s ?f r -> ?x = r, H : nock ?s ?f ?y |- _ =>
        apply IH in H; simplify_eq
    | H : slot_atom ?x ?b = Ok _, H' : slot_atom ?x ?b = Ok _ |- _ =>
        rewrite H in H'; simplify_eq
    end; try congruence; try (by auto); f_equal; auto.
Qed.
End Nock.

Lemma nock_mono (P Q : hint_policy) s f r :
  (forall t, skip_hint P t -> skip_hint Q t) -> (forall t, ok_static P t -> ok_static Q t) ->
  (forall t, ok_dynamic P t -> ok_dynamic Q t) -> nock P s f r -> nock Q s f r.
Proof. intros ??? H. induction H; eauto using nock. Qed.

(** What the code does: hints of every tag, and a [%memo] hit skips the hint
    formula. *)
Definition memo_tag : atom := Direct (tas "memo").
Definition code_policy : hint_policy :=
  {| skip_hint t := t = memo_tag; ok_static _ := True; ok_dynamic _ := True |}.

(** The hints the machine runs without a panic: no static hint of the mean
    family (see [static_mean_panics]), and no [%hela]. *)
Definition panic_free_static (t : atom) : Prop :=
  match t with Direct d => is_mean_tag d = false /\ d <> tas "hela" | Indirect _ => True end.
Definition panic_free_dynamic (t : atom) : Prop :=
  match t with Direct d => d <> tas "hela" | Indirect _ => True end.
Definition safe_policy : hint_policy :=
  {| skip_hint _ := False; ok_static := panic_free_static; ok_dynamic := panic_free_dynamic |}.

Lemma nock_safe_code s f r : nock safe_policy s f r -> nock code_policy s f r.
Proof. apply nock_mono; simpl; auto; done. Qed.

(** * Word level and mathematical nouns agree *)

Lemma den_tree_at p n : mtree_at p (den n) = den <$> tree_at p n.
Proof.
  induction p as [p IH|p IH|]; cbn [mtree_at tree_at]; [..|done];
    rewrite IH; destruct (tree_at p n) as [[|]|]; done.
Qed.

Lemma den_tree_put p patch n : mtree_put p (den patch) (den n) = den <$> tree_put p patch n.
Proof.
  revert patch. induction p as [p IH|p IH|]; intros patch; cbn [mtree_put tree_put]; [..|done];
    rewrite den_tree_at; destruct (tree_at p n) as [[|h t]|]; cbn [fmap option_fmap option_map den];
    try done; [apply (IH (NCell h patch))|apply (IH (NCell patch t))].
Qed.

Lemma wf_tree_at p n m : wf_noun n -> tree_at p n = Some m -> wf_noun m.
Proof.
  revert m. induction p as [p IH|p IH|]; intros m Hwf; cbn [tree_at];
    [| |by intros [= <-]]; destruct (tree_at p n) as [[a|h t]|] eqn:E; cbn; try done;
    intros [= <-]; apply (IH _ Hwf eq_refl).
Qed.

Lemma wf_tree_put p patch n m : wf_noun patch -> wf_noun n -> tree_put p patch n = Some m -> wf_noun m.
Proof.
  revert patch. induction p as [p IH|p IH|]; intros patch Hp Hwf; cbn [tree_put];
    [| |by intros [= <-]]; destruct (tree_at p n) as [[a|h t]|] eqn:E; try done;
    apply IH; try done; pose proof (wf_tree_at _ _ _ Hwf E) as []; done.
Qed.

Lemma slot_den s a r :
  wf_noun s -> wf_atom a -> slot_atom s a = Ok r ->
  wf_noun r /\ maxis_at (Z.to_N (atom_val a)) (den s) = Some (den r).
Proof.
  intros Hs Ha He. pose proof (slot_atom_spec s a Ha) as Hr. rewrite He in Hr. simpl in Hr.
  unfold axis_at in Hr. destruct (atom_val a) as [|p|p]; try done. simpl.
  split; [by eapply wf_tree_at|]. by rewrite den_tree_at, <- Hr.
Qed.

Lemma slot_undo s a m :
  wf_noun s -> wf_atom a -> maxis_at (Z.to_N (atom_val a)) (den s) = Some m ->
  exists r, slot_atom s a = Ok r /\ wf_noun r /\ den r = m.
Proof.
  intros Hs Ha He. pose proof (slot_atom_spec s a Ha) as Hr.
  unfold axis_at in Hr. destruct (atom_val a) as [|p|p]; try done. simpl in He.
  rewrite den_tree_at in He. destruct (tree_at p s) as [r|] eqn:E; [|done].
  injection He as <-. exists r. destruct (slot_atom s a); simpl in Hr; simplify_eq.
  split; [done|split; [by eapply wf_tree_at|done]].
Qed.

Lemma edit_den x y a r :
  wf_noun x -> wf_noun y -> wf_atom a -> edit a y x = Ok r ->
  wf_noun r /\ maxis_put (Z.to_N (atom_val a)) (den y) (den x) = Some (den r).
Proof.
  intros Hx Hy Ha He. pose proof (edit_spec a y x Ha) as Hr. rewrite He in Hr. simpl in Hr.
  unfold axis_put in Hr. destruct (atom_val a) as [|p|p]; try done. simpl.
  split; [by eapply (wf_tree_put p y x)|]. by rewrite den_tree_put, <- Hr.
Qed.

Lemma edit_undo x y a m :
  wf_noun x -> wf_noun y -> wf_atom a ->
  maxis_put (Z.to_N (atom_val a)) (den y) (den x) = Some m ->
  exists r, edit a y x = Ok r /\ wf_noun r /\ den r = m.
Proof.
  intros Hx Hy Ha He. pose proof (edit_spec a y x Ha) as Hr.
  unfold axis_put in Hr. destruct (atom_val a) as [|p|p]; try done. simpl in He.
  rewrite den_tree_put in He. destruct (tree_put p y x) as [r|] eqn:E; [|done].
  injection He as <-. exists r. destruct (edit a y x); simpl in Hr; simplify_eq.
  split; [done|split; [by eapply (wf_tree_put p y x)|done]].
Qed.

Lemma inc_den a : wf_atom a -> MAtom (Z.to_N (atom_val (inc a))) = MAtom (Z.to_N (atom_val a) + 1).
Proof.
  intros Ha. destruct (inc_val a Ha) as [_ ->]. pose proof (wf_atom_val a Ha). f_equal. lia.
Qed.

(** Word-level reduction keeps nouns well formed and is Nock. *)
Lemma nock_den s f r :
  nock code_policy s f r -> wf_noun s -> wf_noun f -> wf_noun r /\ mnock (den s) (den f) (den r).
Proof.
  induction 1; intros Hs Hf; simpl in Hf; destruct_and?;
    repeat match goal with
    | IH : wf_noun ?s -> wf_noun ?f -> _ |- _ =>
        destruct (IH ltac:(simpl; tauto) ltac:(simpl; tauto)) as [? ?]; clear IH
    end; cbn [den] in *.
  all: try (split; [done|by econstructor]).
  - destruct (slot_den s b r) as [? ?]; [done..|]. split; [done|]. by apply m_0.
  - destruct x; split; simpl; try (rewrite DIRECT_MAX_val; lia);
      [by eapply m_3_atom|by eapply m_3_cell].
  - destruct (inc_val a) as [Hwf _]; [done|]. split; [done|].
    rewrite inc_den by done. by apply m_4.
  - split; [case_decide; simpl; rewrite DIRECT_MAX_val; lia|].
    replace (den (if decide (y = x) then D 0 else D 1))
      with (MAtom (if decide (den x = den y) then 0 else 1)); [by apply m_5|].
    repeat case_decide; subst; try done. exfalso. eauto using den_inj.
  - destruct (slot_den core b f) as [Hwf ?]; [done..|].
    specialize (IHnock2 ltac:(done) Hwf) as [? ?]. split; [done|]. by eapply m_9.
  - destruct (edit_den x y b r) as [? ?]; [done..|]. split; [done|]. by eapply m_10.
  - simpl in H. subst b. split; [done|]. by apply m_11_memo.
Qed.
