(* ===== verification/InterpSound.v ===== *)
(** Soundness of the interpreter: whatever the work-stack machine returns is
    what Nock reduces to. *)
From stdpp Require Import base option list numbers strings gmap.
From Stdlib Require Import ZArith Lia.
From S2P Require Import Prelude Noun Interp NockSpec.

(** What the interpreter relies on from the jet machinery: a jet found for a
    core and formula computes what the formula reduces to, or punts. *)
Class JetLaws `{JS : JetState} := {
  jet_sound w core formula j t r :
    find_jet w core formula = Some (j, t) -> run_jet j core = Ok r ->
    nock code_policy core formula r;
  jet_complete w core formula j t r :
    find_jet w core formula = Some (j, t) -> nock code_policy core formula r ->
    run_jet j core = Ok r \/ run_jet j core = Err Punt;
}.

Section Sound.
Context `{JL : JetLaws}.

(** Cached results are reductions, and there is no scry handler. *)
Record ctx_ok (c : Context) : Prop := {
  cache_ok s b r : cache c !! NCell s b = Some r -> nock code_policy s b r;
  scry_none : exists a, scry_stack c = NAtom a;
}.

(** Nothing but the work stack, the mean stack and the logs changed. *)
Lemma ctx_ok_stack c st : ctx_ok c -> ctx_ok (set_stack st c).
Proof. intros [H1 H2]. by split. Qed.
Lemma ctx_ok_status c s : ctx_ok c -> ctx_ok (set_status s c).
Proof. intros [H1 H2]. by split. Qed.
Lemma ctx_ok_slog c p t : ctx_ok c -> ctx_ok (slog p t c).
Proof. intros [H1 H2]. by split. Qed.
Lemma ctx_ok_cold c k : ctx_ok c -> ctx_ok (set_cold k c).
Proof. intros [H1 H2]. by split. Qed.
Lemma ctx_ok_warm c k : ctx_ok c -> ctx_ok (set_warm k c).
Proof. intros [H1 H2]. by split. Qed.
Lemma ctx_ok_slog_list l c : ctx_ok c -> ctx_ok (slog_list l c) /\ stack (slog_list l c) = stack c.
Proof.
  revert c. induction l as [|h _ t IH]; intros c Hc; simpl; [done|].
  apply (IH (slog 0 h c)). by apply ctx_ok_slog.
Qed.
Lemma ctx_ok_memo c s b r :
  ctx_ok c -> nock code_policy s b r -> ctx_ok (set_cache (<[NCell s b := r]> (cache c)) c).
Proof.
  intros [H1 H2] Hn. split; [|done]. simpl. intros s' b' r' Hl.
  destruct (decide (NCell s b = NCell s' b')) as [E|Hne].
  - simplify_eq. rewrite lookup_insert_eq in Hl. by simplify_eq.
  - rewrite lookup_insert_ne in Hl by done. by apply H1.
Qed.

(** ** Stepping *)

(** What follows one iteration. *)
Definition resume (n : nat) (r : step_result) : option loop_result :=
  match r with
  | Continue c subject res => run_loop n c subject res
  | Break c nock => Some (LBreak c nock)
  | Return c e => Some (LReturn c e)
  | Crash => Some LPanic
  | NoFuel => None
  end.

Lemma run_loop_S n c s r :
  run_loop (S n) c s r = resume n (step (interpret_with (run_loop n)) c s r).
Proof. reflexivity. Qed.

(** The top frame of a context: mean stack, work items, and the frames below. *)
Definition at_frame (c : Context) (m : noun) (W : list NockWork) (F : list Frame) : Prop :=
  stack c = {| mean := m; work := W |} :: F.

Lemma at_frame_retop c m w w' W F : at_frame c m (w :: W) F -> at_frame (retop w' c) m (w' :: W) F.
Proof. unfold at_frame, retop. simpl. by intros ->. Qed.
Lemma at_frame_popped c m w W F : at_frame c m (w :: W) F -> at_frame (popped c) m W F.
Proof. unfold at_frame, popped. simpl. by intros ->. Qed.
Lemma at_frame_ret c m W F :
  at_frame c m W F ->
  at_frame (set_stack (push_work Ret (mean_frame_push (stack c))) c) m [Ret] ({| mean := m; work := W |} :: F).
Proof. unfold at_frame. simpl. by intros ->. Qed.
Lemma at_frame_push c m w W F : at_frame c m W F -> at_frame (set_stack (push_work w (stack c)) c) m (w :: W) F.
Proof. unfold at_frame. simpl. by intros ->. Qed.
Lemma at_frame_pop_frame c m W f F :
  at_frame c m W (f :: F) -> at_frame (set_stack (frame_pop (stack c)) c) (mean f) (work f) F.
Proof. unfold at_frame. simpl. intros ->. by destruct f. Qed.

Lemma top_at c m w W F :
  at_frame c m (w :: W) F -> top_work (stack c) = Some w.
Proof. unfold at_frame. by intros ->. Qed.

(** ** The invariant of the machine *)

(** A formula pushed on a work stack either fails or comes back, with its
    reduction as the result, to the work stack it was pushed on; outside tail
    position the subject is the old one. *)
Definition returns (n : nat) (s f : noun) (tail : bool) (W : list NockWork) (F : list Frame)
    (cF : Context) (rF : noun) : Prop :=
  exists k c' s' r m',
    (k < n)%nat /\ nock code_policy s f r /\ ctx_ok c' /\ at_frame c' m' W F /\
    (tail = false -> s' = s) /\ run_loop k c' s' r = Some (LBreak cF (Ok rF)).

Definition sound_at (n : nat) : Prop :=
  forall c s f tail res m w W F cF rF,
    at_frame c m (w :: W) F -> formula_work f tail = Ok w -> ctx_ok c ->
    run_loop n c s res = Some (LBreak cF (Ok rF)) -> returns n s f tail W F cF rF.

Lemma returns_le n n' s f tail W F cF rF :
  (n <= n')%nat -> returns n s f tail W F cF rF -> returns n' s f tail W F cF rF.
Proof. intros Hn (k & c' & s' & r & m' & Hk & H). exists k, c', s', r, m'. split; [lia|done]. Qed.

Lemma push_sound n c s f tail res m W F cF rF :
  sound_at n -> at_frame c m W F -> ctx_ok c ->
  resume n (push_or_bail f tail c s res) = Some (LBreak cF (Ok rF)) ->
  returns n s f tail W F cF rF.
Proof.
  intros IH Hat Hc. unfold push_or_bail. destruct (formula_work f tail) as [w| |] eqn:Ef; try done.
  simpl. intros Hrun. eapply IH; [by apply at_frame_push|done|by apply ctx_ok_stack|done].
Qed.

Lemma interpret_sound_at n c s f c' r :
  sound_at n -> ctx_ok c -> interpret_with (run_loop n) c s f = Some (c', Ok r) ->
  nock code_policy s f r /\ ctx_ok c' /\ stack c' = stack c.
Proof.
  intros IH Hc. unfold interpret_with. destruct (enter_status _) as [st|]; [|done].
  destruct (formula_work f true) as [w| |] eqn:Ef; try done.
  destruct (run_loop n _ s (D 0)) as [[c1 nk|c1 e|]|] eqn:Er; try done.
  destruct nk as [r'|e|]; [|by destruct (exit _ _ _ _)|done]. intros [= <- <-].
  eapply (IH _ _ _ _ _ (D 0) w [Done] (stack c)) in Er;
    [|done|exact Ef|by apply ctx_ok_stack, ctx_ok_stack, ctx_ok_status].
  destruct Er as (k & c2 & s' & r0 & m' & Hk & Hn & Hc2 & Hat & _ & Hrun).
  destruct k as [|k]; [done|]. rewrite run_loop_S in Hrun. unfold step in Hrun.
  rewrite (top_at _ _ _ _ _ Hat) in Hrun. simpl in Hrun.
  injection Hrun as <- <-. split; [done|]. split; [by apply ctx_ok_status, ctx_ok_stack|].
  unfold at_frame in Hat. simpl. by rewrite Hat.
Qed.

(** ** Hints *)

Lemma pre_nock_none n c s tag h body c' m W F :
  match_pre_nock (interpret_with (run_loop n)) c s tag h body = HNone c' ->
  ctx_ok c -> at_frame c m W F -> ctx_ok c' /\ exists m', at_frame c' m' W F.
Proof.
  intros H Hc Hat. unfold match_pre_nock in H. destruct tag as [d|]; [|injection H as <-; eauto].
  destruct (d =? tas "bout").
  { destruct (interpret_with _ c s body) as [[c1 []]|]; done. }
  destruct (d =? tas "slog").
  { repeat case_match; injection H as <-; split; eauto using ctx_ok_slog. }
  destruct (is_mean_tag d).
  { destruct h as [[? clue]|]; injection H as <-; [|eauto]. split; [by apply ctx_ok_stack|].
    unfold at_frame in *. simpl. rewrite Hat. simpl. eauto. }
  destruct (d =? tas "hela"); [|injection H as <-; eauto].
  destruct (mook _) as [[h' l]| |]; try done. case_decide; [|done]. injection H as <-.
  destruct (ctx_ok_slog_list l c Hc) as [? Hst]. split; [done|]. exists m.
  unfold at_frame in *. congruence.
Qed.

Lemma pre_nock_some n c s tag h body c' r m W F :
  sound_at n -> match_pre_nock (interpret_with (run_loop n)) c s tag h body = HSome c' (Ok r) ->
  ctx_ok c -> at_frame c m W F -> nock code_policy s body r /\ ctx_ok c' /\ at_frame c' m W F.
Proof.
  intros IH H Hc Hat. unfold match_pre_nock in H. destruct tag as [d|]; [|done].
  destruct (d =? tas "bout").
  { destruct (interpret_with _ c s body) as [[c1 []]|] eqn:E; try done. injection H as <- <-.
    destruct (interpret_sound_at _ _ _ _ _ _ IH Hc E) as (? & ? & Hst). split; [done|].
    split; [done|]. unfold at_frame in *. congruence. }
  repeat case_match; done.
Qed.

Lemma post_nock_ok c s tag h body r c' m W F :
  match_post_nock c s tag h body r = Some c' -> ctx_ok c -> nock code_policy s body r ->
  at_frame c m W F -> ctx_ok c' /\ exists m', at_frame c' m' W F.
Proof.
  intros H Hc Hn Hat. unfold match_post_nock in H. destruct tag as [d|]; [|injection H as <-; eauto].
  destruct (d =? tas "memo").
  { injection H as <-. split; [by apply ctx_ok_memo|]. by exists m. }
  destruct (is_mean_tag d).
  { unfold mean_pop in H. destruct (local_mean (stack c)); [done|]. injection H as <-.
    split; [by apply ctx_ok_stack|]. unfold at_frame in *. simpl. rewrite Hat. simpl. eauto. }
  destruct (d =? tas "fast"); [|injection H as <-; eauto].
  destruct h as [clue|]; [|injection H as <-; eauto].
  destruct (register_parent clue) as [[[op ax] chum]|]; [|injection H as <-; eauto].
  destruct (register (cold c) r ax chum) as [k res].
  repeat case_match; simplify_eq; split; eauto 6 using ctx_ok_cold, ctx_ok_warm, ctx_ok_slog.
Qed.

(** ** One lemma per opcode *)

(** run the next iteration of [H : run_loop k c s r = Some _] *)
Ltac enter H Hat :=
  match type of H with
  | run_loop (S _) _ _ _ = _ => idtac
  | run_loop ?k _ _ _ = _ => destruct k as [|k]; [discriminate H|]
  end;
  rewrite run_loop_S in H; unfold step in H; rewrite (top_at _ _ _ _ _ Hat) in H;
  cbv beta iota delta [dispatch step_work0 step_work2 step_work3 step_work4 step_work5 step_work6 step_work7 step_work8
       step_work9 step_work10 step_work11d step_work11s step_work12 step_workcons] in H.

(** a formula was pushed: take the machine to where it comes back *)
Ltac sub H IH Hat :=
  eapply push_sound in H;
    [|apply IH; lia
     |first [eapply at_frame_ret, at_frame_retop, Hat | eapply at_frame_retop, Hat
            |eapply at_frame_popped, Hat]
     |unfold retop, popped; by repeat apply ctx_ok_stack];
  let k := fresh "k" in let c := fresh "c" in let s := fresh "s" in let r := fresh "r" in
  let m := fresh "m" in let Hk := fresh "Hk" in let Hn := fresh "Hn" in
  let Hc := fresh "Hc" in let Ha := fresh "Ha" in let Hs := fresh "Hs" in
  destruct H as (k & c & s & r & m & Hk & Hn & Hc & Ha & Hs & H);
  try (specialize (Hs eq_refl); subst s).

(** the result was popped to *)
Ltac popped_to H Hat :=
  cbn [resume pop_with] in H; do 5 eexists;
  split_and!; [|..|exact H]; [lia| |unfold popped; by repeat apply ctx_ok_stack|eapply at_frame_popped, Hat|done].

(** the formula in tail position came back *)
Ltac came_back H Hat :=
  do 5 eexists; split_and!; [|..|exact H]; [lia| |done|exact Hat|done].

Section Ops.
Context (n : nat) (IH : forall k, (k <= n)%nat -> sound_at k).
Context (c : Context) (s res : noun) (m : noun) (W : list NockWork) (F : list Frame).
Context (cF : Context) (rF : noun) (Hc : ctx_ok c).

Definition op_sound (w : NockWork) (f : noun) (tail : bool) : Prop :=
  at_frame c m (w :: W) F -> run_loop (S n) c s res = Some (LBreak cF (Ok rF)) ->
  returns (S n) s f tail W F cF rF.

Lemma sound_cons a b d tail :
  op_sound (WorkCons ConsComputeHead (NCell a b) d) (NCell (NCell a b) d) tail.
Proof.
  intros Hat H. enter H Hat. sub H IH Hat. enter H Ha. sub H IH Ha. enter H Ha0.
  popped_to H Ha0. by apply n_cons.
Qed.

Lemma sound_0 a tail : op_sound (Work0 a) (NCell (D 0) (NAtom a)) tail.
Proof.
  intros Hat H. enter H Hat. destruct (slot_atom s a) eqn:E; try done.
  popped_to H Hat. by apply n_0.
Qed.

Lemma sound_1 a tail : op_sound (Work1 a) (NCell (D 1) a) tail.
Proof. intros Hat H. enter H Hat. popped_to H Hat. apply n_1. Qed.

Lemma sound_2 a b tail : op_sound (Work2 T2ComputeSubject a b tail) (NCell (D 2) (NCell a b)) tail.
Proof.
  intros Hat H. enter H Hat. sub H IH Hat. enter H Ha. sub H IH Ha. enter H Ha0.
  destruct tail.
  - sub H IH Ha0. came_back H Ha1. by eapply n_2.
  - sub H IH Ha0. enter H Ha1. apply at_frame_pop_frame in Ha1. simpl in Ha1.
    cbn [resume] in H. enter H Ha1. popped_to H Ha1. by eapply n_2.
Qed.

Lemma sound_3 a tail : op_sound (Work3 T3ComputeChild a) (NCell (D 3) a) tail.
Proof. intros Hat H. enter H Hat. sub H IH Hat. enter H Ha. popped_to H Ha. by apply n_3. Qed.

Lemma sound_4 a tail : op_sound (Work4 T4ComputeChild a) (NCell (D 4) a) tail.
Proof.
  intros Hat H. enter H Hat. sub H IH Hat. enter H Ha. destruct r as [x|]; [|done].
  popped_to H Ha. by apply n_4.
Qed.

Lemma sound_5 a b tail : op_sound (Work5 T5ComputeLeftChild a b) (NCell (D 5) (NCell a b)) tail.
Proof.
  intros Hat H. enter H Hat. sub H IH Hat. enter H Ha. sub H IH Ha. enter H Ha0.
  popped_to H Ha0. by apply n_5.
Qed.

Lemma sound_6 t z o tail :
  op_sound (Work6 T6ComputeTest t z o tail) (NCell (D 6) (NCell t (NCell z o))) tail.
Proof.
  intros Hat H. enter H Hat. sub H IH Hat. enter H Ha. destruct r as [[d|]|]; try done.
  destruct (Z.eqb_spec d 0) as [->|]; [|destruct (Z.eqb_spec d 1) as [->|]; [|done]].
  - sub H IH Ha. came_back H Ha0. by apply n_6_zero.
  - sub H IH Ha. came_back H Ha0. by apply n_6_one.
Qed.

Lemma sound_7 a b tail : op_sound (Work7 T7ComputeSubject a b tail) (NCell (D 7) (NCell a b)) tail.
Proof.
  intros Hat H. enter H Hat. sub H IH Hat. enter H Ha. destruct tail.
  - sub H IH Ha. came_back H Ha0. by eapply n_7.
  - sub H IH Ha. enter H Ha0. popped_to H Ha0. by eapply n_7.
Qed.

Lemma sound_8 a b tail : op_sound (Work8 T8ComputeSubject a b tail) (NCell (D 8) (NCell a b)) tail.
Proof.
  intros Hat H. enter H Hat. sub H IH Hat. enter H Ha. destruct tail.
  - sub H IH Ha. came_back H Ha0. by eapply n_8.
  - sub H IH Ha. enter H Ha0. popped_to H Ha0. by eapply n_8.
Qed.

Lemma sound_10 a p t tail :
  op_sound (Work10 T10ComputeTree a t p) (NCell (D 10) (NCell (NCell (NAtom a) p) t)) tail.
Proof.
  intros Hat H. enter H Hat. sub H IH Hat. enter H Ha. sub H IH Ha. enter H Ha0.
  destruct (edit a r0 r) eqn:E; try done. popped_to H Ha0. by eapply n_10.
Qed.

Lemma sound_12 a b tail : op_sound (Work12 T12ComputeReff a b) (NCell (D 12) (NCell a b)) tail.
Proof.
  intros Hat H. enter H Hat. sub H IH Hat. enter H Ha. sub H IH Ha. enter H Ha0.
  destruct (scry_none _ Hc1) as [x Hx]. by rewrite Hx in H.
Qed.

(** entering the arm of a core *)
Lemma sound_enter k c' m' a core tail formula r :
  (k <= n)%nat -> ctx_ok c' -> nock code_policy s core r -> slot_atom r a = Ok formula ->
  at_frame c' m' (Work9 T9ComputeResult a core tail :: W) F ->
  resume k (work9_enter c' a tail formula s r) = Some (LBreak cF (Ok rF)) ->
  returns (S n) s (NCell (D 9) (NCell (NAtom a) core)) tail W F cF rF.
Proof.
  intros Hk Hc' Hn Hf Hat H. unfold work9_enter in H. destruct tail.
  - sub H IH Hat. came_back H Ha. by eapply n_9.
  - sub H IH Hat. enter H Ha. apply at_frame_pop_frame in Ha. simpl in Ha.
    cbn [resume] in H. enter H Ha. popped_to H Ha. by eapply n_9.
Qed.

Lemma sound_9 a core tail :
  op_sound (Work9 T9ComputeCore a core tail) (NCell (D 9) (NCell (NAtom a) core)) tail.
Proof.
  intros Hat H. enter H Hat. sub H IH Hat. enter H Ha.
  destruct (slot_atom r a) as [formula| |] eqn:Ef; try done.
  destruct (find_jet (warm c0) r formula) as [[j test]|] eqn:Ej.
  2: { eapply sound_enter in H; [done|lia|done..]. }
  destruct (run_jet j r) as [jr|[|e]|] eqn:Er; try done.
  2: { eapply sound_enter in H; [done|lia|done..]. }
  pose proof (jet_sound _ _ _ _ _ _ Ej Er) as Hj. destruct test.
  - destruct (interpret_with (run_loop k) c0 r formula) as [[c1 [tr|e|]]|] eqn:Et; try done.
    destruct (interpret_sound_at _ _ _ _ _ _ (IH k ltac:(lia)) Hc0 Et) as (_ & Hc1 & Hst).
    case_decide; [|done]. assert (at_frame c1 m0 (Work9 T9ComputeResult a core tail :: W) F) as Ha'.
    { unfold at_frame in *. congruence. }
    popped_to H Ha'. by eapply n_9.
  - popped_to H Ha. by eapply n_9.
Qed.

Lemma sound_11s tag b tail :
  op_sound (Work11S T11SComputeResult tag b (tail && is_tail tag))
    (NCell (D 11) (NCell (NAtom tag) b)) tail.
Proof.
  intros Hat H. enter H Hat. unfold hint_found in H.
  destruct (match_pre_nock _ c s tag None b) as [c0|c0 [found| |]| |] eqn:Ep; try done.
  - destruct (pre_nock_none _ _ _ _ _ _ _ _ _ _ Ep Hc Hat) as [Hc0 [m0 Hat0]].
    assert (Hret : forall c1 t, resume n (match push_or_bail b t c1 s res with
        | Return c e => Break c (Err e) | r => r end) = Some (LBreak cF (Ok rF)) ->
        resume n (push_or_bail b t c1 s res) = Some (LBreak cF (Ok rF))).
    { intros c1 t. by destruct (push_or_bail b t c1 s res). }
    apply Hret in H. destruct (tail && is_tail tag) eqn:Et.
    + apply andb_true_iff in Et as [-> _]. sub H IH Hat0. came_back H Ha. by apply n_11_static.
    + sub H IH Hat0. enter H Ha. destruct (match_post_nock c1 s tag None b r) as [c2|] eqn:Epo; [|done].
      destruct (post_nock_ok _ _ _ _ _ _ _ _ _ _ Epo Hc1 Hn Ha) as [Hc2 [m2 Hat2]].
      popped_to H Hat2. by apply n_11_static.
  - destruct (pre_nock_some _ _ _ _ _ _ _ _ _ _ _ (IH n ltac:(lia)) Ep Hc Hat) as (? & ? & Hat0).
    popped_to H Hat0. by apply n_11_static.
Qed.

Lemma sound_11d tag h b tail :
  op_sound (Work11D T11DComputeHint tag h b (tail && is_tail tag))
    (NCell (D 11) (NCell (NCell (NAtom tag) h) b)) tail.
Proof.
  intros Hat H. enter H Hat. destruct (match_pre_hint c s tag b) as [found|] eqn:Eh.
  { unfold match_pre_hint in Eh. destruct tag as [d|]; [|done].
    destruct (Z.eqb_spec d (tas "memo")) as [->|]; [|done]. apply (cache_ok _ Hc) in Eh.
    popped_to H Hat. by apply n_11_skip. }
  sub H IH Hat. enter H Ha. unfold hint_found in H.
  destruct (match_pre_nock _ c0 s tag _ b) as [c1|c1 [found| |]| |] eqn:Ep; try done.
  - destruct (pre_nock_none _ _ _ _ _ _ _ _ _ _ Ep Hc0 Ha) as [Hc1 [m1 Hat1]].
    destruct (tail && is_tail tag) eqn:Et.
    + apply andb_true_iff in Et as [-> _]. sub H IH Hat1. came_back H Ha0. by eapply n_11_dynamic.
    + sub H IH Hat1. enter H Ha0.
      destruct (match_post_nock c2 s tag (Some r) b r0) as [c3|] eqn:Epo; [|done].
      destruct (post_nock_ok _ _ _ _ _ _ _ _ _ _ Epo Hc2 Hn0 Ha0) as [Hc3 [m3 Hat3]].
      popped_to H Hat3. by eapply n_11_dynamic.
  - destruct (pre_nock_some _ _ _ _ _ _ _ _ _ _ _ (IH k ltac:(lia)) Ep Hc0 Ha) as (? & ? & Hat0).
    popped_to H Hat0. by eapply n_11_dynamic.
Qed.
End Ops.

(** The machine is sound at every fuel. *)
Lemma run_loop_sound n : sound_at n.
Proof.
  induction n as [n IH] using lt_wf_ind. destruct n as [|n]; [by intros ???????????????|].
  assert (IH' : forall k, (k <= n)%nat -> sound_at k) by (intros; apply IH; lia).
  intros c s f tail res m w W F cF rF Hat Ef Hc H.
  destruct f as [a|[[op|ws]|x y] arg]; cbn [formula_work] in Ef; try done.
  - repeat case_match; simplify_eq;
      first [by eapply sound_0|by eapply sound_1|by eapply sound_2|by eapply sound_3
            |by eapply sound_4|by eapply sound_5|by eapply sound_6|by eapply sound_7
            |by eapply sound_8|by eapply sound_9|by eapply sound_10|by eapply sound_11s
            |by eapply sound_11d|by eapply sound_12].
  - simplify_eq. by eapply sound_cons.
Qed.

Lemma interpret_nock fuel c s f c' r :
  ctx_ok c -> interpret fuel c s f = Some (c', Ok r) ->
  nock code_policy s f r /\ ctx_ok c' /\ stack c' = stack c.
Proof. intros. eapply interpret_sound_at; eauto using run_loop_sound. Qed.
End Sound.
