(* ===== verification/InterpComplete.v ===== *)
(** Completeness of the interpreter: whenever Nock reduces, with hints that do
    not panic, the work-stack machine returns the reduction, leaves the frames
    as it found them and the cancellation status balanced. *)
From stdpp Require Import base option list numbers strings gmap.
From Stdlib Require Import ZArith Lia.
From S2P Require Import Prelude Noun Interp NockSpec InterpSound.

Section Complete.
Context `{JL : JetLaws}.

(** * Fuel *)

Definition rec_le (rec rec' : nested) : Prop :=
  forall c s f x, rec c s f = Some x -> rec' c s f = Some x.

Lemma pre_nock_mono rec rec' c s tag h b :
  rec_le rec rec' -> match_pre_nock rec c s tag h b <> HNoFuel ->
  match_pre_nock rec' c s tag h b = match_pre_nock rec c s tag h b.
Proof.
  intros Hle H. unfold match_pre_nock in *. destruct tag as [d|]; [|done].
  destruct (d =? tas "bout"); [|done].
  destruct (rec c s b) as [x|] eqn:E; [|done]. by rewrite (Hle _ _ _ _ E).
Qed.

Lemma step_mono rec rec' c s r :
  rec_le rec rec' -> step rec c s r <> NoFuel -> step rec' c s r = step rec c s r.
Proof.
  intros Hle H. unfold step, dispatch in *. destruct (top_work (stack c)) as [w|]; [|done].
  destruct w as [ | | | | | | | | | | | |todo a k tail| |todo tag h b tail|todo tag b tail|todo x y];
    try done; destruct todo; try done; cbv beta iota zeta delta [step_work9 step_work11d step_work11s step_work12] in *.
  - destruct (slot_atom r a) as [f| |]; try done.
    destruct (find_jet (warm c) r f) as [[j [] ]|]; try done.
    destruct (run_jet j r); try done. destruct (rec c r f) as [x|] eqn:E; [|done].
    by rewrite (Hle _ _ _ _ E).
  - rewrite (pre_nock_mono rec rec'); [done|done|]. intros E. by rewrite E in H.
  - rewrite (pre_nock_mono rec rec'); [done|done|]. intros E. by rewrite E in H.
  - destruct (scry_stack c) as [|[|g1 [|g2 g3]] rest]; try done.
    match goal with |- context [rec ?a ?b ?d] => destruct (rec a b d) as [z|] eqn:E; [|done] end.
    by rewrite (Hle _ _ _ _ E).
Qed.

Lemma interpret_with_mono (l l' : Context -> noun -> noun -> option loop_result) :
  (forall c s r x, l c s r = Some x -> l' c s r = Some x) ->
  rec_le (interpret_with l) (interpret_with l').
Proof.
  intros Hl c s f x. unfold interpret_with.
  destruct (enter_status (running_status c)); [|done]. destruct (formula_work f true); try done.
  match goal with |- context [l ?a ?b ?d] => destruct (l a b d) as [y|] eqn:E; [|done] end.
  by rewrite (Hl _ _ _ _ E).
Qed.

(** More fuel does not change a result. *)
Lemma run_loop_mono n n' c s r x :
  (n <= n')%nat -> run_loop n c s r = Some x -> run_loop n' c s r = Some x.
Proof.
  revert n' c s r x. induction n as [|n IH]; intros n' c s r x Hn H; [done|].
  destruct n' as [|n']; [lia|]. rewrite run_loop_S in *.
  assert (Hle : rec_le (interpret_with (run_loop n)) (interpret_with (run_loop n'))).
  { apply interpret_with_mono. intros. apply IH; [lia|done]. }
  rewrite (step_mono _ _ _ _ _ Hle); [|intros E; by rewrite E in H].
  destruct (step (interpret_with (run_loop n)) c s r); try done.
  simpl in *. apply IH; [lia|done].
Qed.

Lemma interpret_mono n n' c s f x :
  (n <= n')%nat -> interpret n c s f = Some x -> interpret n' c s f = Some x.
Proof. intros Hn. apply interpret_with_mono. intros. by eapply run_loop_mono. Qed.

(** * Reaching one machine state from another *)

Definition reach (c : Context) (s r : noun) (c' : Context) (s' r' : noun) : Prop :=
  forall k out, run_loop k c' s' r' = Some out -> exists k', run_loop k' c s r = Some out.

Lemma reach_trans c s r c1 s1 r1 c2 s2 r2 :
  reach c s r c1 s1 r1 -> reach c1 s1 r1 c2 s2 r2 -> reach c s r c2 s2 r2.
Proof. intros H1 H2 k out Hk. destruct (H2 k out Hk) as [k1 Hk1]. by eapply H1. Qed.

Lemma reach_step n c s r c' s' r' :
  (forall k, (n <= k)%nat -> step (interpret k) c s r = Continue c' s' r') ->
  reach c s r c' s' r'.
Proof.
  intros Hst k out Hk. exists (S (max n k)). rewrite run_loop_S.
  unfold interpret in Hst. rewrite Hst by lia. simpl. eapply run_loop_mono; [|done]. lia.
Qed.

(** ** What completeness says of a formula *)

Record same_but (c c' : Context) : Prop := {
  sb_ok : ctx_ok c';
  sb_status : running_status c' = running_status c;
}.

Definition complete (s f r : noun) : Prop :=
  forall tail c res m W F,
    ctx_ok c -> 0 <= running_status c -> at_frame c m W F ->
    exists w c' s' m', formula_work f tail = Ok w /\ same_but c c' /\ at_frame c' m' W F /\
      (tail = false -> s' = s /\ m' = m) /\
      reach (set_stack (push_work w (stack c)) c) s res c' s' r.

Lemma complete_interpret s f r c :
  complete s f r -> ctx_ok c -> 0 <= running_status c ->
  exists n c', same_but c c' /\ stack c' = stack c /\
    forall k, (n <= k)%nat -> interpret k c s f = Some (c', Ok r).
Proof.
  intros Hcomp Hc Hst.
  set (c0 := set_stack ({| mean := D 0; work := [Done] |} :: stack c)
               (set_status (running_status c + 1) c)).
  destruct (Hcomp true c0 (D 0) (D 0) [Done] (stack c)) as (w & c' & s' & m' & Ef & [Hok Hs'] & Hat & _ & Hr).
  { by apply ctx_ok_stack, ctx_ok_status. } { simpl. lia. } { done. }
  assert (Hend : run_loop 1 c' s' r = Some (LBreak (set_stack (stack c) c') (Ok r))).
  { rewrite run_loop_S. unfold step. rewrite (top_at _ _ _ _ _ Hat). simpl.
    unfold at_frame in Hat. by rewrite Hat. }
  destruct (Hr _ _ Hend) as [n Hn].
  exists n, (set_status (leave_status (running_status c')) (set_stack (stack c) c')).
  split; [split|split; [done|]].
  - by apply ctx_ok_status, ctx_ok_stack.
  - simpl. rewrite Hs'. simpl. unfold leave_status. repeat case_match; lia.
  - intros k Hk. unfold interpret, interpret_with, enter_status.
    rewrite (proj2 (Z.leb_le 0 _)) by done. rewrite Ef.
    change (stack (set_status (running_status c + 1) c)) with (stack c). fold c0.
    by rewrite (run_loop_mono _ _ _ _ _ _ Hk Hn).
Qed.

(** One step of the machine with a given work item on top. *)
Lemma reach_top n c m w W F s r c' s' r' :
  at_frame c m (w :: W) F ->
  (forall k, (n <= k)%nat -> dispatch (interpret k) c w s r = Continue c' s' r') ->
  reach c s r c' s' r'.
Proof.
  intros Hat H. apply (reach_step n). intros k Hk. unfold step.
  rewrite (top_at _ _ _ _ _ Hat). by apply H.
Qed.

(** A step that pushes a formula, and the run of that formula. *)
Lemma reach_push s res s1 f r (Hf : complete s1 f r) tail c m w W F cN mN WN FN :
  at_frame c m (w :: W) F ->
  (forall k, dispatch (interpret k) c w s res = push_or_bail f tail cN s1 res) ->
  same_but c cN -> at_frame cN mN WN FN -> 0 <= running_status c ->
  exists c' s' m', same_but c c' /\ at_frame c' m' WN FN /\
    (tail = false -> s' = s1 /\ m' = mN) /\ reach c s res c' s' r.
Proof.
  intros Hat Hd [Hok HstN] HatN Hst.
  destruct (Hf tail cN res mN WN FN) as (w1 & c' & s' & m' & Ef & [Hok' Hst'] & Hat' & Hs & Hr);
    [done|lia|done|].
  exists c', s', m'. split; [split; [done|lia]|]. split; [done|]. split; [done|].
  eapply reach_trans; [|exact Hr]. eapply (reach_top 0); [done|].
  intros k _. rewrite Hd. unfold push_or_bail. by rewrite Ef.
Qed.

(** The same when the step is the one that entered the formula. *)
Lemma same_but_stack c st : ctx_ok c -> same_but c (set_stack st c).
Proof. intros. split; [by apply ctx_ok_stack|done]. Qed.
Lemma same_but_trans c c1 c2 : same_but c c1 -> same_but c1 c2 -> same_but c c2.
Proof. intros [] []. split; [done|congruence]. Qed.
Lemma same_but_popped c : ctx_ok c -> same_but c (popped c).
Proof. apply same_but_stack. Qed.
Lemma same_but_retop c w : ctx_ok c -> same_but c (retop w c).
Proof. apply same_but_stack. Qed.

(** ** One lemma per opcode *)

Definition completes (w : NockWork) (tail : bool) (s r : noun) : Prop :=
  forall c m W F res,
    ctx_ok c -> 0 <= running_status c -> at_frame c m (w :: W) F ->
    exists c' s' m', same_but c c' /\ at_frame c' m' W F /\ (tail = false -> s' = s /\ m' = m) /\
      reach c s res c' s' r.

Lemma complete_intro s f r :
  (forall tail, exists w, formula_work f tail = Ok w /\ completes w tail s r) -> complete s f r.
Proof.
  intros H tail c res m W F Hc Hst Hat. destruct (H tail) as (w & Ef & Hw).
  destruct (Hw (set_stack (push_work w (stack c)) c) m W F res) as (c' & s' & m' & Hs & Ha & Ht & Hr);
    [by apply ctx_ok_stack|done|by apply at_frame_push|].
  exists w, c', s', m'. split; [done|]. destruct Hs. split; [by split|]. done.
Qed.

Ltac dispatch_eq :=
  cbv beta iota delta [dispatch step_work0 step_work2 step_work3 step_work4 step_work5 step_work6
    step_work7 step_work8 step_work9 step_work10 step_work11d step_work11s step_work12
    step_workcons work9_enter]; try reflexivity.

Ltac frame_eq Hat :=
  first [eapply at_frame_ret, at_frame_retop, Hat | eapply at_frame_retop, Hat
        |eapply at_frame_popped, Hat].

(** the sub-formula [Hf] is pushed by the item on top and comes back *)
Ltac cpush Hf Hat s0 r0 :=
  let c := fresh "c" in let s := fresh "s" in let m := fresh "m" in let Hs := fresh "Hs" in
  let Ha := fresh "Ha" in let Ht := fresh "Ht" in let Hr := fresh "Hr" in
  edestruct (reach_push s0 r0 _ _ _ Hf) as (c & s & m & Hs & Ha & Ht & Hr);
    [exact Hat|intros; dispatch_eq
    |unfold retop, popped; first [apply same_but_stack; assumption
       |eapply same_but_trans; apply same_but_stack; [|apply ctx_ok_stack]; assumption]
    |frame_eq Hat|assumption|];
  try (destruct (Ht eq_refl) as [-> ->]; clear Ht);
  pose proof (sb_ok _ _ Hs); assert (0 <= running_status c) by (destruct Hs; congruence).

(** the item on top pops itself *)
Ltac cpop Hat s0 r0 :=
  let Hp := fresh "Hp" in
  pose proof (reach_top 0 _ _ _ _ _ s0 r0 _ _ _ Hat (fun k _ => eq_refl)) as Hp.

Ltac chain := eauto 10 using reach_trans, same_but_trans, same_but_popped, at_frame_popped.

Lemma complete_cons s a b d r1 r2 :
  complete s (NCell a b) r1 -> complete s d r2 ->
  complete s (NCell (NCell a b) d) (NCell r1 r2).
Proof.
  intros H1 H2. apply complete_intro. intros tail. eexists. split; [reflexivity|].
  intros c m W F res Hc Hst Hat. cpush H1 Hat s res. cpush H2 Ha s r1. cpop Ha0 s r2.
  do 3 eexists. split_and!; [| | |chain]; [chain|chain|done].
Qed.

Ltac begin := apply complete_intro; intros tail; eexists; (split; [reflexivity|]);
  intros c m W F res Hc Hst Hat.
Ltac finish := do 3 eexists; split_and!; [| | |chain]; [chain|chain|done].

Ltac finish_at c s m := exists c, s, m; split_and!; [chain|chain|done|chain].

(** A called formula returns: its frame goes and the item below restores the
    subject. *)
Lemma reach_return c2 m0 m w W F s0 s1 r :
  ctx_ok c2 -> at_frame c2 m0 [Ret] ({| mean := m; work := w :: W |} :: F) ->
  (forall k c, dispatch (interpret k) c w s0 r = pop_with c s1 r) ->
  exists c3, same_but c2 c3 /\ at_frame c3 m W F /\ reach c2 s0 r c3 s1 r.
Proof.
  intros Hc Hat Hw. pose proof (at_frame_pop_frame _ _ _ _ _ Hat) as Hat'. simpl in Hat'.
  set (c2' := set_stack (frame_pop (stack c2)) c2) in *. exists (popped c2').
  assert (same_but c2 c2') as Hs by (by apply same_but_stack).
  split; [eapply same_but_trans; [done|apply same_but_popped, Hs]|].
  split; [by eapply at_frame_popped|].
  eapply reach_trans; eapply (reach_top 0).
  - exact Hat.
  - intros. reflexivity.
  - exact Hat'.
  - intros. apply Hw.
Qed.

Lemma complete_0 s b r : slot_atom s b = Ok r -> complete s (NCell (D 0) (NAtom b)) r.
Proof.
  intros H. begin. assert (Hp : reach c s res (popped c) s r).
  { eapply (reach_top 0); [exact Hat|]. intros. dispatch_eq. by rewrite H. }
  finish.
Qed.

Lemma complete_1 s b : complete s (NCell (D 1) b) b.
Proof. begin. cpop Hat s res. finish. Qed.

Lemma complete_2 s b d x f r :
  complete s b x -> complete s d f -> complete x f r ->
  complete s (NCell (D 2) (NCell b d)) r.
Proof.
  intros H1 H2 H3. begin. cpush H1 Hat s res. cpush H2 Ha s x. destruct tail.
  - cpush H3 Ha0 s f. finish.
  - cpush H3 Ha0 s f.
    destruct (reach_return _ _ _ _ _ _ s0 s r H6 Ha1 (fun _ _ => eq_refl)) as (c3 & ? & ? & ?).
    finish_at c3 s m.
Qed.

Lemma complete_3 s b x :
  complete s b x -> complete s (NCell (D 3) b) (match x with NCell _ _ => D 0 | NAtom _ => D 1 end).
Proof. intros H. begin. cpush H Hat s res. cpop Ha s x. finish. Qed.

Lemma complete_4 s b a : complete s b (NAtom a) -> complete s (NCell (D 4) b) (NAtom (inc a)).
Proof. intros H. begin. cpush H Hat s res. cpop Ha s (NAtom a). finish. Qed.

Lemma complete_5 s b d x y :
  complete s b x -> complete s d y ->
  complete s (NCell (D 5) (NCell b d)) (if decide (y = x) then D 0 else D 1).
Proof. intros H1 H2. begin. cpush H1 Hat s res. cpush H2 Ha s x. cpop Ha0 s y. finish. Qed.

Lemma complete_6_zero s b d e r :
  complete s b (D 0) -> complete s d r -> complete s (NCell (D 6) (NCell b (NCell d e))) r.
Proof. intros H1 H2. begin. cpush H1 Hat s res. cpush H2 Ha s (D 0). finish. Qed.

Lemma complete_6_one s b d e r :
  complete s b (D 1) -> complete s e r -> complete s (NCell (D 6) (NCell b (NCell d e))) r.
Proof. intros H1 H2. begin. cpush H1 Hat s res. cpush H2 Ha s (D 1). finish. Qed.

Lemma complete_7 s b d x r :
  complete s b x -> complete x d r -> complete s (NCell (D 7) (NCell b d)) r.
Proof.
  intros H1 H2. begin. cpush H1 Hat s res. destruct tail.
  - cpush H2 Ha s x. finish.
  - cpush H2 Ha s x. cpop Ha0 x r. finish_at (popped c1) s m.
Qed.

Lemma complete_8 s b d x r :
  complete s b x -> complete (NCell x s) d r -> complete s (NCell (D 8) (NCell b d)) r.
Proof.
  intros H1 H2. begin. cpush H1 Hat s res. destruct tail.
  - cpush H2 Ha s x. finish.
  - cpush H2 Ha s x. cpop Ha0 (NCell x s) r. finish_at (popped c1) s m.
Qed.

Lemma complete_10 s b d e x y r :
  complete s e x -> complete s d y -> edit b y x = Ok r ->
  complete s (NCell (D 10) (NCell (NCell (NAtom b) d) e)) r.
Proof.
  intros H1 H2 H3. begin. cpush H1 Hat s res. cpush H2 Ha s x.
  assert (Hp : reach c1 s y (popped c1) s r).
  { eapply (reach_top 0); [exact Ha0|]. intros. dispatch_eq. by rewrite H3. }
  finish.
Qed.

(** ** Calls *)

Lemma complete_enter c0 m W F s b d tail core f r :
  complete core f r -> ctx_ok c0 -> 0 <= running_status c0 ->
  at_frame c0 m (Work9 T9ComputeResult b d tail :: W) F ->
  (forall k, dispatch (interpret k) c0 (Work9 T9ComputeResult b d tail) s core
             = work9_enter c0 b tail f s core) ->
  exists c' s' m', same_but c0 c' /\ at_frame c' m' W F /\
    (tail = false -> s' = s /\ m' = m) /\ reach c0 s core c' s' r.
Proof.
  intros H Hc Hst Hat Hd. destruct tail; unfold work9_enter in Hd.
  - edestruct (reach_push s core _ _ _ H) as (c1 & s1 & m1 & Hs & Ha & _ & Hr);
      [exact Hat|exact Hd|by apply same_but_popped|by eapply at_frame_popped|done|].
    finish_at c1 s1 m1.
  - edestruct (reach_push s core _ _ _ H) as (c1 & s1 & m1 & Hs & Ha & _ & Hr);
      [exact Hat|exact Hd| |eapply at_frame_ret, at_frame_retop, Hat|done|].
    { eapply same_but_trans; apply same_but_stack; [done|by apply ctx_ok_stack]. }
    destruct (reach_return _ _ _ _ _ _ s1 s r (sb_ok _ _ Hs) Ha (fun _ _ => eq_refl)) as (c3 & ? & ? & ?).
    finish_at c3 s m.
Qed.

Lemma complete_9 s b d core f r :
  complete s d core -> slot_atom core b = Ok f -> complete core f r -> nock code_policy core f r ->
  complete s (NCell (D 9) (NCell (NAtom b) d)) r.
Proof.
  intros H1 Hsl H2 Hn. begin. cpush H1 Hat s res.
  assert (Henter : (forall k, dispatch (interpret k) c0 (Work9 T9ComputeResult b d tail) s core
             = work9_enter c0 b tail f s core) -> exists c' s' m', same_but c c' /\
      at_frame c' m' W F /\ (tail = false -> s' = s /\ m' = m) /\ reach c s res c' s' r).
  { intros Hd. destruct (complete_enter c0 m W F s b d tail core f r) as (c' & s' & m' & ? & ? & ? & ?);
      [done..|]. finish_at c' s' m'. }
  destruct (find_jet (warm c0) core f) as [[j test]|] eqn:Ej.
  2: { apply Henter. intros k. dispatch_eq. by rewrite Hsl, Ej. }
  destruct (jet_complete _ _ _ _ _ _ Ej Hn) as [Er|Er].
  2: { apply Henter. intros k. dispatch_eq. by rewrite Hsl, Ej, Er. }
  destruct test.
  - destruct (complete_interpret core f r c0) as (n & c1 & Hs1 & Hst1 & Hk); [done..|].
    assert (at_frame c1 m (Work9 T9ComputeResult b d tail :: W) F) as Ha1.
    { unfold at_frame in *. congruence. }
    assert (reach c0 s core (popped c1) s r).
    { eapply (reach_top n); [exact Ha|]. intros k Hle. dispatch_eq.
      rewrite Hsl, Ej, Er, Hk by done. by rewrite decide_True. }
    pose proof (sb_ok _ _ Hs1). finish_at (popped c1) s m.
  - assert (reach c0 s core (popped c0) s r).
    { eapply (reach_top 0); [exact Ha|]. intros k _. dispatch_eq. by rewrite Hsl, Ej, Er. }
    finish_at (popped c0) s m.
Qed.

(** ** Hints *)

(** the mean stack during the body of a hint *)
Definition premean (tag : atom) (clue : option noun) (m : noun) : noun :=
  match tag, clue with
  | Direct d, Some clue => if is_mean_tag d then T [T [NAtom tag; clue]; m] else m
  | _, _ => m
  end.

Lemma same_but_refl c : ctx_ok c -> same_but c c.
Proof. by split. Qed.

Lemma is_mean_tag_bout : is_mean_tag (tas "bout") = false.
Proof. reflexivity. Qed.
Lemma is_mean_tag_slog : is_mean_tag (tas "slog") = false.
Proof. reflexivity. Qed.
Lemma is_mean_tag_memo : is_mean_tag (tas "memo") = false.
Proof. reflexivity. Qed.

Lemma pre_nock_complete c s tag h body r m W F :
  ctx_ok c -> 0 <= running_status c -> complete s body r -> at_frame c m W F ->
  panic_free_dynamic tag ->
  (exists c', same_but c c' /\ at_frame c' (premean tag (snd <$> h) m) W F /\
     forall k, match_pre_nock (interpret k) c s tag h body = HNone c') \/
  (exists n c', same_but c c' /\ at_frame c' m W F /\
     forall k, (n <= k)%nat -> match_pre_nock (interpret k) c s tag h body = HSome c' (Ok r)).
Proof.
  intros Hc Hst Hb Hat Hpf. unfold match_pre_nock, premean.
  destruct tag as [d|ws]; [|left; exists c; eauto using same_but_refl].
  destruct (Z.eqb_spec d (tas "bout")) as [->|_].
  { right. destruct (complete_interpret s body r c) as (n & c' & Hs & Hstk & Hk); [done..|].
    exists n, c'. split; [done|]. split; [unfold at_frame in *; congruence|].
    intros k Hle. by rewrite Hk. }
  left. destruct (Z.eqb_spec d (tas "slog")) as [->|_].
  { exists (match h with Some (_, NCell (NAtom (Direct pri)) tank) => slog pri tank c | _ => c end).
    rewrite is_mean_tag_slog. split; [repeat case_match; try (by apply same_but_refl);
      split; [by apply ctx_ok_slog|done]|].
    split; [destruct h as [[]|]; simpl; repeat case_match; done|].
    intros k. repeat case_match; simplify_eq; done. }
  destruct (is_mean_tag d).
  { destruct h as [[x clue]|]; simpl; [|exists c; eauto using same_but_refl].
    eexists. split; [by apply same_but_stack|]. split; [|done].
    unfold at_frame in *. simpl. by rewrite Hat. }
  cbn [panic_free_dynamic] in Hpf. rewrite (proj2 (Z.eqb_neq _ _) Hpf).
  exists c. destruct h as [[]|]; simpl; eauto using same_but_refl.
Qed.

Lemma post_nock_complete c s tag clue body r m W F :
  ctx_ok c -> nock code_policy s body r -> at_frame c (premean tag clue m) W F ->
  (clue = None -> panic_free_static tag) ->
  exists c', match_post_nock c s tag clue body r = Some c' /\ same_but c c' /\ at_frame c' m W F.
Proof.
  intros Hc Hn Hat Hpf. unfold match_post_nock, premean in *.
  destruct tag as [d|ws]; [|exists c; eauto using same_but_refl].
  destruct (Z.eqb_spec d (tas "memo")) as [->|_].
  { rewrite is_mean_tag_memo in Hat. eexists. split; [done|].
    split; [split; [by apply ctx_ok_memo|done]|]. by destruct clue. }
  destruct (is_mean_tag d) eqn:Em.
  { destruct clue as [clue|]; [|by destruct (Hpf eq_refl) as [? _]; simpl in *; congruence].
    unfold mean_pop. unfold at_frame in Hat. rewrite Hat. simpl.
    eexists. split; [done|]. split; [by apply same_but_stack|done]. }
  assert (Hat' : at_frame c m W F) by (by destruct clue). clear Hat.
  destruct (d =? tas "fast"); [|exists c; eauto using same_but_refl].
  destruct clue as [clue|]; [|exists c; eauto using same_but_refl].
  destruct (register_parent clue) as [[[op ax] chum]|]; [|exists c; eauto using same_but_refl].
  destruct (register (cold c) r ax chum) as [k res].
  repeat case_match; eexists; (split; [reflexivity|]);
    (split; [split; eauto using ctx_ok_cold, ctx_ok_warm, ctx_ok_slog|done]).
Qed.

Lemma complete_11_static s tag d r :
  panic_free_static tag -> complete s d r -> nock code_policy s d r ->
  complete s (NCell (D 11) (NCell (NAtom tag) d)) r.
Proof.
  intros Hpf H Hn. begin.
  assert (panic_free_dynamic tag) by (destruct tag; [apply Hpf|done]).
  destruct (pre_nock_complete c s tag None d r m _ F Hc Hst H Hat)
    as [(c0 & Hs0 & Ha0 & Hk)|(n & c0 & Hs0 & Ha0 & Hk)]; [done| |].
  2: { assert (reach c s res (popped c0) s r).
       { eapply (reach_top n); [exact Hat|]. intros k Hle. dispatch_eq. by rewrite Hk. }
       pose proof (sb_ok _ _ Hs0). finish_at (popped c0) s m. }
  assert (Hm : premean tag (snd <$> (None : option (noun * noun))) m = m) by (by destruct tag).
  rewrite Hm in Ha0. pose proof (sb_ok _ _ Hs0).
  assert (0 <= running_status c0) by (destruct Hs0; congruence).
  assert (Hd : forall t c1, (exists w, formula_work d t = Ok w) ->
    match push_or_bail d t c1 s res with Return c e => Break c (Err e) | r => r end
    = push_or_bail d t c1 s res).
  { intros t c1 [w Ew]. unfold push_or_bail. by rewrite Ew. }
  assert (Hw : forall t, exists w, formula_work d t = Ok w).
  { intros t. by destruct (H t c res m _ F Hc Hst Hat) as (w & ? & ? & ? & ? & _); eauto. }
  destruct (tail && is_tail tag) eqn:Et.
  - apply andb_true_iff in Et as [-> _].
    edestruct (reach_push s res _ _ _ H) as (c1 & s1 & m1 & Hs & Ha & _ & Hr);
      [exact Hat|intros k; dispatch_eq; unfold hint_found; rewrite Hk; by apply Hd
      |eapply same_but_trans; [exact Hs0|by apply same_but_popped]|by eapply at_frame_popped|done|].
    finish_at c1 s1 m1.
  - edestruct (reach_push s res _ _ _ H) as (c1 & s1 & m1 & Hs & Ha & Ht & Hr);
      [exact Hat|intros k; dispatch_eq; unfold hint_found; rewrite Hk; by apply Hd
      |eapply same_but_trans; [exact Hs0|by apply same_but_retop]|by eapply at_frame_retop|done|].
    destruct (Ht eq_refl) as [-> ->].
    destruct (post_nock_complete c1 s tag None d r m (Work11S T11SDone tag d false :: W) F)
      as (c2 & Hp & Hs2 & Ha2); [apply Hs|done|by destruct tag|done|].
    pose proof (sb_ok _ _ Hs2). assert (reach c1 s r (popped c2) s r).
    { eapply (reach_top 0); [exact Ha|]. intros. dispatch_eq. by rewrite Hp. }
    finish_at (popped c2) s m.
Qed.

(** a [%memo] hit finds the reduction itself *)
Lemma memo_hit c s tag d r found :
  ctx_ok c -> nock code_policy s d r -> match_pre_hint c s tag d = Some found -> found = r.
Proof.
  intros Hc Hn. unfold match_pre_hint. destruct tag as [t|]; [|done].
  destruct (t =? tas "memo"); [|done]. intros Hl. apply (cache_ok _ Hc) in Hl.
  by eapply nock_det.
Qed.

Lemma complete_11_dynamic s tag b d x r :
  panic_free_dynamic tag -> complete s b x -> complete s d r -> nock code_policy s d r ->
  complete s (NCell (D 11) (NCell (NCell (NAtom tag) b) d)) r.
Proof.
  intros Hpf Hb H Hn. begin. destruct (match_pre_hint c s tag d) as [found|] eqn:Eh.
  { pose proof (memo_hit _ _ _ _ _ _ Hc Hn Eh) as ->. assert (reach c s res (popped c) s r).
    { eapply (reach_top 0); [exact Hat|]. intros. dispatch_eq. by rewrite Eh. }
    finish_at (popped c) s m. }
  edestruct (reach_push s res _ _ _ Hb) as (c0 & s0 & m0 & Hs0 & Ha0 & Ht & Hr0);
    [exact Hat|intros k; dispatch_eq; by rewrite Eh|by apply same_but_retop|by eapply at_frame_retop|done|].
  destruct (Ht eq_refl) as [-> ->]. pose proof (sb_ok _ _ Hs0).
  assert (0 <= running_status c0) by (destruct Hs0; congruence).
  destruct (pre_nock_complete c0 s tag (Some (b, x)) d r m _ F ltac:(done) ltac:(done) H Ha0)
    as [(c1 & Hs1 & Ha1 & Hk)|(n & c1 & Hs1 & Ha1 & Hk)]; [done| |]; pose proof (sb_ok _ _ Hs1).
  2: { assert (reach c0 s x (popped c1) s r).
       { eapply (reach_top n); [exact Ha0|]. intros k Hle. dispatch_eq. by rewrite Hk. }
       finish_at (popped c1) s m. }
  destruct (tail && is_tail tag) eqn:Et.
  - apply andb_true_iff in Et as [-> _].
    edestruct (reach_push s x _ _ _ H) as (c2 & s2 & m2 & Hs2 & Ha2 & _ & Hr2);
      [exact Ha0|intros k; dispatch_eq; unfold hint_found; by rewrite Hk
      |eapply same_but_trans; [exact Hs1|by apply same_but_popped]|by eapply at_frame_popped|done|].
    finish_at c2 s2 m2.
  - edestruct (reach_push s x _ _ _ H) as (c2 & s2 & m2 & Hs2 & Ha2 & Ht2 & Hr2);
      [exact Ha0|intros k; dispatch_eq; unfold hint_found; by rewrite Hk
      |eapply same_but_trans; [exact Hs1|by apply same_but_retop]|by eapply at_frame_retop|done|].
    destruct (Ht2 eq_refl) as [-> ->].
    destruct (post_nock_complete c2 s tag (Some x) d r m (Work11D T11DDone tag x d false :: W) F)
      as (c3 & Hp & Hs3 & Ha3); [apply Hs2|done|done|done|].
    pose proof (sb_ok _ _ Hs3). assert (reach c2 s r (popped c3) s r).
    { eapply (reach_top 0); [exact Ha2|]. intros. dispatch_eq. by rewrite Hp. }
    finish_at (popped c3) s m.
Qed.

Lemma nock_complete s f r : nock safe_policy s f r -> complete s f r.
Proof.
  induction 1; eauto using complete_cons, complete_0, complete_1, complete_2, complete_3,
    complete_4, complete_5, complete_6_zero, complete_6_one, complete_7, complete_8, complete_9,
    complete_10, complete_11_static, complete_11_dynamic, nock_safe_code.
  done.
Qed.

Lemma nock_interpret s f r c :
  nock safe_policy s f r -> ctx_ok c -> 0 <= running_status c ->
  exists n c', ctx_ok c' /\ running_status c' = running_status c /\ stack c' = stack c /\
    forall k, (n <= k)%nat -> interpret k c s f = Some (c', Ok r).
Proof.
  intros Hn Hc Hst. apply nock_complete in Hn.
  destruct (complete_interpret s f r c Hn Hc Hst) as (n & c' & [] & ? & ?). eauto 10.
Qed.
End Complete.
