(* ===== verification/InterpUnwind.v ===== *)
(** What a call of the interpreter leaves behind: the frames of the NockStack, the
    state that [exit] restores, and the cancellation status.

    The epilogue of [interpret] pops the frames of the call and lowers the status; a
    call that returns through [try_or_bail!] or [?] skips it.  [status_step] is the
    protocol of the status with both ways out, [layers] the shape of the frames that a
    running call has on the stack, and [unwinds] the account of a call. *)
From stdpp Require Import base option list numbers strings gmap relations.
From Stdlib Require Import ZArith Lia.
From S2P Require Import Prelude Noun Interp.

Create HintDb unwind.

(** * The protocol of the cancellation status

    A state has the number of calls that run, of calls that have returned without
    lowering the status, and the status itself, which is shared with the holders of a
    [NockCancelToken]: a cancellation may come between any two steps. *)
Inductive status_step : Z * Z * Z -> Z * Z * Z -> Prop :=
  | st_enter depth leaked s s' :
      enter_status s = Some s' -> status_step (depth, leaked, s) (depth + 1, leaked, s')
  | st_leave depth leaked s :
      0 < depth -> status_step (depth, leaked, s) (depth - 1, leaked, leave_status s)
  | st_bail depth leaked s :
      0 < depth -> status_step (depth, leaked, s) (depth - 1, leaked + 1, s)
  | st_cancel depth leaked s : status_step (depth, leaked, s) (depth, leaked, (cancel s).1).

Definition status_inv (p : Z * Z * Z) : Prop :=
  let '(depth, leaked, s) := p in 0 <= depth /\ 0 <= leaked /\ Z.abs s = depth + leaked.

Lemma status_step_inv p q : status_step p q -> status_inv p -> status_inv q.
Proof.
  destruct 1 as [d l s s' H|d l s Hd|d l s Hd|d l s]; simpl; intros (? & ? & ?).
  - unfold enter_status in H. destruct (Z.leb_spec 0 s); simplify_eq. lia.
  - unfold leave_status. destruct (Z.ltb_spec s 0); [lia|]. destruct (Z.eqb_spec s 0); lia.
  - lia.
  - unfold cancel. destruct (Z.leb_spec s 0); simpl; lia.
Qed.

(** A cancelled status with a leaked call stays cancelled. *)
Definition stuck (p : Z * Z * Z) : Prop := let '(_, leaked, s) := p in s < 0 /\ 0 < leaked.
Lemma status_step_stuck p q : status_step p q -> status_inv p -> stuck p -> stuck q.
Proof.
  destruct 1 as [d l s s' H|d l s Hd|d l s Hd|d l s]; simpl; intros (? & ? & ?) [??].
  - unfold enter_status in H. destruct (Z.leb_spec 0 s); [lia|done].
  - unfold leave_status. destruct (Z.ltb_spec s 0); lia.
  - lia.
  - unfold cancel. destruct (Z.leb_spec s 0); simpl; lia.
Qed.

Lemma status_run_inv p q : rtc status_step p q -> status_inv p -> status_inv q.
Proof. induction 1; eauto using status_step_inv. Qed.
Lemma status_run_stuck p q : rtc status_step p q -> status_inv p -> stuck p -> stuck q.
Proof. induction 1; eauto using status_step_inv, status_step_stuck. Qed.

(** A run of the protocol in which [k] calls leak, at any depth and without a
    cancellation *)
Definition leaks (s k s' : Z) : Prop :=
  0 <= k /\ s' = s + k /\
  forall depth leaked, 0 <= depth -> rtc status_step (depth, leaked, s) (depth, leaked + k, s').

Lemma leaks_refl s : leaks s 0 s.
Proof. split_and!; [lia..|]. intros d l _. by rewrite Z.add_0_r. Qed.
Lemma leaks_enter_leave s k s' : 0 <= s -> leaks (s + 1) k s' -> leaks s k (leave_status s').
Proof.
  intros Hs (Hk & -> & Hr). replace (leave_status (s + 1 + k)) with (s + k) by (unfold leave_status; repeat case_match; lia).
  split_and!; [done..|]. intros d l Hd. eapply rtc_l; [apply (st_enter _ _ _ (s + 1))|].
  { unfold enter_status. by rewrite (proj2 (Z.leb_le 0 s)). }
  eapply rtc_r; [apply Hr; lia|].
  replace d with (d + 1 - 1) at 2 by lia. replace (s + k) with (leave_status (s + 1 + k)) by (unfold leave_status; repeat case_match; lia).
  apply st_leave. lia.
Qed.
Lemma leaks_enter_bail s k s' : 0 <= s -> leaks (s + 1) k s' -> leaks s (k + 1) s'.
Proof.
  intros Hs (Hk & -> & Hr). split_and!; [lia..|]. intros d l Hd. eapply rtc_l; [apply (st_enter _ _ _ (s + 1))|].
  { unfold enter_status. by rewrite (proj2 (Z.leb_le 0 s)). }
  eapply rtc_r; [apply Hr; lia|].
  replace d with (d + 1 - 1) at 2 by lia. replace (l + (k + 1)) with (l + k + 1) by lia. apply st_bail. lia.
Qed.

Section Unwind.
Context `{JS : JetState}.

(** * The frames of a running call *)

Definition plain (w : NockWork) : Prop := match w with Done | Ret => False | _ => True end.

(** The frame of the call ends with [Done] and lies on the frames [B] of its caller;
    the frames of its calls of formulas end with [Ret]. *)
Inductive layers (B : list Frame) : list Frame -> Prop :=
  | layer_done m W : Forall plain W -> layers B ({| mean := m; work := W ++ [Done] |} :: B)
  | layer_ret m W st : Forall plain W -> layers B st -> layers B ({| mean := m; work := W ++ [Ret] |} :: st).

(** Some frames of the call are left. *)
Definition above (B st : list Frame) : Prop := exists F, F <> [] /\ st = F ++ B.

Lemma layers_above B st : layers B st -> above B st.
Proof.
  induction 1 as [m W _|m W st _ _ (F & _ & ->)]; [by exists [{| mean := m; work := W ++ [Done] |}]|].
  by exists ({| mean := m; work := W ++ [Ret] |} :: F).
Qed.
Lemma above_trans B st st' : above B st -> above st st' -> above B st'.
Proof. intros (F & ? & ->) (G & ? & ->). exists (G ++ F). rewrite <- app_assoc. split; [by destruct G|done]. Qed.
Lemma pop_to_above B st : above B st -> pop_to (length B) st = B.
Proof.
  intros (F & _ & ->). unfold pop_to. rewrite length_app, Nat.add_sub. apply drop_app_length.
Qed.

Lemma layers_push B st w : plain w -> layers B st -> layers B (push_work w st).
Proof.
  intros Hw. destruct 1; cbn [push_work mean work]; rewrite app_comm_cons; by constructor; [constructor|..].
Qed.
Lemma layers_pop B st w : layers B st -> top_work st = Some w -> plain w -> layers B (pop_work st).
Proof.
  destruct 1 as [m [|w' W] HW|m [|w' W] st HW]; cbn; intros [= <-] Hp; try done;
    apply list.Forall_cons in HW as [_ ?]; by constructor.
Qed.
Lemma layers_top B st w w' : layers B st -> top_work st = Some w -> plain w -> plain w' -> layers B (set_top w' st).
Proof. intros. apply layers_push; [done|]. by eapply layers_pop. Qed.
Lemma layers_enter B st : layers B st -> layers B (push_work Ret (mean_frame_push st)).
Proof. intros. apply (layer_ret _ _ []); [constructor|done]. Qed.
Lemma layers_mean B st m : layers B st -> layers B (set_mean m st).
Proof. by destruct 1; cbn [set_mean work]; constructor. Qed.
Lemma layers_ret B st : layers B st -> top_work st = Some Ret -> layers B (frame_pop st).
Proof.
  destruct 1 as [m [|w' W] HW|m [|w' W] st HW]; cbn; intros E; simplify_eq; try done.
  all: by apply list.Forall_cons in HW as [[] _].
Qed.
Lemma layers_done B st : layers B st -> top_work st = Some Done -> frame_pop st = B.
Proof.
  destruct 1 as [m [|w' W] HW|m [|w' W] st HW]; cbn; intros E; simplify_eq; try done.
  all: by apply list.Forall_cons in HW as [[] _].
Qed.
Lemma formula_plain f t w : formula_work f t = Ok w -> plain w.
Proof. unfold formula_work. intros H. repeat case_match; simplify_eq; done. Qed.

(** * The account of a call *)

(** The state that [exit] takes back *)
Definition restored (c c' : Context) : Prop :=
  stack c' = stack c /\ cold c' = cold c /\ warm c' = warm c /\ cache c' = cache c.

Definition unwinds (c c' : Context) (o : outcome Error noun) : Prop :=
  exists k, leaks (running_status c) k (running_status c') /\
    match o with
    | Ok _ => k = 0 /\ stack c' = stack c
    | Err _ => restored c c' \/ 0 < k /\ above (stack c) (stack c')
    | Panic => True
    end.

Definition nested_unwinds (rec : nested) : Prop :=
  forall c s f c' o, rec c s f = Some (c', o) -> o <> Panic -> unwinds c c' o.

(** One turn of the loop, and the loop, on the frames [B] of the caller *)
Definition step_ok (B : list Frame) (c : Context) (r : step_result) : Prop :=
  match r with
  | Continue c' _ _ => layers B (stack c') /\ running_status c' = running_status c
  | Break c' (Ok _) => stack c' = B /\ running_status c' = running_status c
  | Break c' (Err _) | Return c' _ =>
      above B (stack c') /\ exists k, leaks (running_status c) k (running_status c')
  | Break _ Panic => False
  | Crash | NoFuel => True
  end.

Section step.
Context (rec : nested) (Hrec : nested_unwinds rec).
Context (B : list Frame) (c : Context).

Lemma push_ok f t c' s r : layers B (stack c') -> running_status c' = running_status c -> step_ok B c (push_or_bail f t c' s r).
Proof.
  intros Hl Hs. unfold push_or_bail. destruct (formula_work f t) as [w| |] eqn:E; [|split|done].
  - split; [|done]. apply layers_push; [by eapply formula_plain|done].
  - by apply layers_above.
  - exists 0. rewrite Hs. apply leaks_refl.
Qed.

Lemma break_ok c' e : layers B (stack c') -> running_status c' = running_status c -> step_ok B c (Break c' (Err e)).
Proof. intros Hl Hs. split; [by apply layers_above|]. exists 0. rewrite Hs. apply leaks_refl. Qed.
Lemma return_ok c' e : layers B (stack c') -> running_status c' = running_status c -> step_ok B c (Return c' e).
Proof. apply break_ok. exact e. Qed.

(** What a nested call leaves *)
Lemma nested_ok c0 s f c1 r :
  layers B (stack c0) -> running_status c0 = running_status c -> rec c0 s f = Some (c1, Ok r) ->
  stack c1 = stack c0 /\ running_status c1 = running_status c.
Proof. intros _ Hs E. destruct (Hrec _ _ _ _ _ E) as (k & (_ & Hk & _) & -> & ?); [done|]. split; [done|lia]. Qed.
Lemma nested_err c0 s f c1 e :
  layers B (stack c0) -> running_status c0 = running_status c -> rec c0 s f = Some (c1, Err e) ->
  above B (stack c1) /\ exists k, leaks (running_status c) k (running_status c1).
Proof.
  intros Hl%layers_above Hs E. destruct (Hrec _ _ _ _ _ E) as (k & Hk & Ho); [done|]. rewrite Hs in Hk.
  split; [|by exists k]. destruct Ho as [(-> & _)|[_ Ha]]; [done|by eapply above_trans].
Qed.

Lemma hint_ok tag h body w s (K : Context -> step_result) :
  layers B (stack c) -> top_work (stack c) = Some w -> plain w ->
  (forall c', layers B (stack c') -> top_work (stack c') = Some w -> running_status c' = running_status c -> step_ok B c (K c')) ->
  step_ok B c (hint_found (match_pre_nock rec c s tag h body) s K).
Proof.
  intros Hl Ht Hw HK. unfold match_pre_nock. destruct tag as [d|]; [|by apply HK].
  destruct (d =? tas "bout").
  { destruct (rec c s body) as [[c1 [r|e|]]|] eqn:E; cbn [hint_found]; [|by eapply nested_err|done..].
    destruct (nested_ok _ _ _ _ _ Hl eq_refl E) as [Es ?]. split; [|done]. cbn. rewrite Es. by eapply layers_pop. }
  destruct (d =? tas "slog"); [repeat case_match; by apply HK|].
  destruct (is_mean_tag d).
  { destruct h as [[? clue]|]; [|by apply HK]. apply HK; [by apply layers_mean| |done].
    destruct (stack c) as [|[m [|]]]; done. }
  destruct (d =? tas "hela"); [|by apply HK]. destruct (mook _) as [[h' l]| |]; [|done..]. case_decide; [|done].
  assert (El : forall l c, stack (slog_list l c) = stack c /\ running_status (slog_list l c) = running_status c).
  { clear. induction l as [|h _ t IH]; intros c; cbn; [done|]. apply (IH (slog 0 h c)). }
  destruct (El l c) as [E1 E2]. apply HK; by rewrite ?E1.
Qed.
Lemma post_ok tag h body s r c' w :
  layers B (stack c) -> top_work (stack c) = Some w -> match_post_nock c s tag h body r = Some c' ->
  layers B (stack c') /\ top_work (stack c') = Some w /\ running_status c' = running_status c.
Proof.
  intros Hl Ht. unfold match_post_nock. destruct tag as [d|]; [|by intros [= <-]].
  destruct (d =? tas "memo"); [by intros [= <-]|]. destruct (is_mean_tag d).
  { unfold mean_pop. destruct (local_mean (stack c)); [done|]. intros [= <-]. cbn.
    split_and!; [by apply layers_mean| |done]. destruct (stack c) as [|[m [|]]]; done. }
  destruct (d =? tas "fast"); [|by intros [= <-]]. destruct h as [clue|]; [|by intros [= <-]].
  destruct (register_parent clue) as [[[op ax] chum]|]; [|by intros [= <-]].
  destruct (register (cold c) r ax chum) as [k res]. intros H. repeat case_match; simplify_eq; done.
Qed.

(** the top work item was replaced, or popped *)
Hint Extern 1 (layers _ (stack (retop _ _))) => (eapply layers_top; [eassumption|eassumption|exact I|exact I]) : unwind.
Hint Extern 1 (layers _ (stack (popped _))) => (eapply layers_pop; [eassumption|eassumption|exact I]) : unwind.
Hint Extern 1 (layers _ (stack (set_stack (push_work Ret _) _))) => apply layers_enter : unwind.
Hint Resolve push_ok break_ok return_ok : unwind.

Lemma popped_ok w s r : layers B (stack c) -> top_work (stack c) = Some w -> plain w -> step_ok B c (pop_with c s r).
Proof. intros. split; [by eapply layers_pop|done]. Qed.
Hint Extern 1 (step_ok _ _ (pop_with _ _ _)) => (eapply popped_ok; [eassumption|eassumption|exact I]) : unwind.

Lemma enter_ok a t f s r w : layers B (stack c) -> top_work (stack c) = Some w -> plain w -> step_ok B c (work9_enter c a t f s r).
Proof.
  intros Hl Ht Hw. unfold work9_enter. destruct t; (apply push_ok; [|done]); [by eapply layers_pop|].
  apply layers_enter. by eapply layers_top.
Qed.

Lemma work9_ok t a k tl s r :
  layers B (stack c) -> top_work (stack c) = Some (Work9 t a k tl) -> step_ok B c (step_work9 rec c t a k tl s r).
Proof.
  intros Hl Ht. destruct t; cbn [step_work9]; [eauto with unwind| |eauto with unwind].
  destruct (slot_atom r a) as [formula| |]; [|eauto with unwind..].
  destruct (find_jet (warm c) r formula) as [[j test]|]; [|by eapply enter_ok].
  destruct (run_jet j r) as [jr|[|e]|]; [|by eapply enter_ok|eauto with unwind|done].
  destruct test; [|eauto with unwind]. destruct (rec c r formula) as [[c1 [tr|e|]]|] eqn:E; [|by eapply nested_err|done..].
  destruct (nested_ok _ _ _ _ _ Hl eq_refl E) as [Es Hs]. case_decide; [|apply break_ok; by rewrite ?Es].
  split; [|done]. cbn. rewrite Es. by eapply layers_pop.
Qed.

Lemma work12_ok t a b s r :
  layers B (stack c) -> top_work (stack c) = Some (Work12 t a b) -> step_ok B c (step_work12 rec c t a b s r).
Proof.
  intros Hl Ht. destruct t; cbn [step_work12]; [eauto with unwind..|].
  destruct (scry_stack c) as [|[|gh [|? gc]] rest]; [eauto with unwind..|].
  destruct (rec _ (D 0) _) as [[c1 [tr|e|]]|] eqn:E; [| |done..].
  - destruct (nested_ok (set_scry rest c) _ _ _ _ Hl eq_refl E) as [Es Hs]. cbn in Es.
    destruct tr as [|? [|? found]].
    + apply return_ok; by rewrite ?Es.
    + apply return_ok; [cbn; apply layers_mean; by rewrite Es|done].
    + split; [|done]. cbn. rewrite Es. by eapply layers_pop.
  - pose proof (nested_err (set_scry rest c) _ _ _ _ Hl eq_refl E) as Hn. by destruct e.
Qed.

Lemma dispatch_ok w s r :
  layers B (stack c) -> top_work (stack c) = Some w -> step_ok B c (dispatch rec c w s r).
Proof.
  intros Hl Ht. destruct w; cbn [dispatch].
  - split; [by eapply layers_done|done].
  - split; [by apply layers_ret|done].
  - destruct todo; cbn [step_workcons]; eauto with unwind.
  - unfold step_work0. destruct (slot_atom s axis); eauto with unwind.
  - eauto with unwind.
  - destruct todo; cbn [step_work2]; try destruct tail; eauto with unwind.
  - destruct todo; cbn [step_work3]; eauto with unwind.
  - destruct todo; cbn [step_work4]; [eauto with unwind|]. destruct r; eauto with unwind.
  - destruct todo; cbn [step_work5]; eauto with unwind.
  - destruct todo; cbn [step_work6]; [eauto with unwind|]. repeat case_match; eauto with unwind.
  - destruct todo; cbn [step_work7]; try destruct tail; eauto with unwind.
  - destruct todo; cbn [step_work8]; try destruct tail; eauto with unwind.
  - by apply work9_ok.
  - destruct todo; cbn [step_work10]; [eauto with unwind..|]. destruct (edit _ _ _); [eauto with unwind|done..].
  - destruct todo; cbn [step_work11d].
    + destruct (match_pre_hint _ _ _ _); eauto with unwind.
    + eapply hint_ok; [done|done|done|]. intros c' Hl' Ht' Hs'. apply push_ok; destruct tail; try done; eauto with unwind.
    + destruct (match_post_nock _ _ _ _ _ _) as [c'|] eqn:E; [|done].
      destruct (post_ok _ _ _ _ _ _ _ Hl Ht E) as (Hl' & Ht' & Hs'). split; [by eapply layers_pop|done].
  - destruct todo; cbn [step_work11s].
    + eapply hint_ok; [done|done|done|]. intros c' Hl' Ht' Hs'.
      assert (Hp : step_ok B c (push_or_bail body tail (if tail then popped c' else retop (Work11S T11SDone tag body tail) c') s r)).
      { apply push_ok; destruct tail; try done; eauto with unwind. }
      by destruct (push_or_bail _ _ _ _ _).
    + destruct (match_post_nock _ _ _ _ _ _) as [c'|] eqn:E; [|done].
      destruct (post_ok _ _ _ _ _ _ _ Hl Ht E) as (Hl' & Ht' & Hs'). split; [by eapply layers_pop|done].
  - by apply work12_ok.
Qed.
End step.

(** * The loop and the call *)

Definition loop_ok (B : list Frame) (c : Context) (r : loop_result) : Prop :=
  match r with
  | LBreak c' (Ok _) => stack c' = B /\ running_status c' = running_status c
  | LBreak c' (Err _) | LReturn c' _ => above B (stack c') /\ exists k, leaks (running_status c) k (running_status c')
  | LBreak _ Panic => False
  | LPanic => True
  end.

Lemma interpret_with_unwinds loop :
  (forall B c s r o, layers B (stack c) -> loop c s r = Some o -> loop_ok B c o) -> nested_unwinds (interpret_with loop).
Proof.
  intros Hloop c s f c' o. unfold interpret_with, unwinds. destruct (Z.leb_spec 0 (running_status c)) as [Hs|Hs].
  2: { unfold enter_status. rewrite (proj2 (Z.leb_gt _ _)) by done. cbn. intros [= <- <-] _. exists 0.
       split; [apply leaks_refl|left]. split_and!; try done. cbn. unfold pop_to. by rewrite Nat.sub_diag. }
  unfold enter_status. rewrite (proj2 (Z.leb_le _ _)) by done.
  destruct (formula_work f true) as [w|e|] eqn:Ef; [|intros [= <- <-] _|by intros [= <- <-]].
  2: { exists 1. split; [apply (leaks_enter_bail _ 0); [done|apply leaks_refl]|right]. split; [lia|].
       by exists [{| mean := D 0; work := [Done] |}]. }
  destruct (loop _ s (D 0)) as [r|] eqn:Er; [|done]. apply (Hloop (stack c)) in Er.
  2: { apply (layer_done _ _ [w]). constructor; [by eapply formula_plain|constructor]. }
  destruct r as [c1 [r|e|]|c1 e|]; cbn in Er.
  - destruct Er as [Est Ess]. intros [= <- <-] _. exists 0. split; [|done].
    apply leaks_enter_leave; [done|]. cbn. rewrite Ess. apply leaks_refl.
  - destruct Er as (Ha & k & Hk). cbn. intros [= <- <-] _. exists k. split; [by apply leaks_enter_leave|left].
    split_and!; try done. cbn. by apply pop_to_above.
  - done.
  - destruct Er as (Ha & k & Hk). intros [= <- <-] _. exists (k + 1). split; [by apply leaks_enter_bail|right].
    split; [|done]. destruct Hk. lia.
  - by intros [= <- <-].
Qed.

Lemma run_loop_ok n B c s r o : layers B (stack c) -> run_loop n c s r = Some o -> loop_ok B c o.
Proof.
  revert B c s r o. induction n as [|n IH]; intros B c s r o Hl; [done|]. cbn [run_loop]. unfold step.
  destruct (top_work (stack c)) as [w|] eqn:Ht; [|by intros [= <-]].
  pose proof (dispatch_ok _ (interpret_with_unwinds _ IH) B c w s r Hl Ht) as Hd.
  destruct (dispatch _ c w s r) as [c' s' r'|c' o'|c' e| |]; cbn in Hd; [|by intros [= <-]..|done].
  destruct Hd as [Hl' Hs']. intros E. specialize (IH B c' s' r' o Hl' E). unfold loop_ok in *. by rewrite Hs' in IH.
Qed.

Lemma interpret_unwinds n : nested_unwinds (interpret n).
Proof. apply interpret_with_unwinds. intros. by eapply run_loop_ok. Qed.
End Unwind.
