(* ===== verification/InterpTheorems.v ===== *)
(** The properties of the interpreter: agreement with Nock in both directions,
    the state it leaves behind on each exit, and the cancellation protocol. *)
From stdpp Require Import base option list numbers strings gmap relations.
From Stdlib Require Import ZArith Lia.
From S2P Require Import Prelude Noun Interp NockSpec InterpSound InterpComplete InterpUnwind.

(** * A jet machinery for the witnesses: one jet, for the formula [[4 0 3]] *)

Definition inc_tail_formula : noun := T [D 4; D 0; D 3].
Definition sample_jets : JetState := {|
  warm_t := unit;
  cold_t := unit;
  jet_t := unit;
  find_jet _ _ formula := if decide (formula = inc_tail_formula) then Some (tt, true) else None;
  run_jet _ core := match core with NCell _ (NAtom a) => Ok (NAtom (inc a)) | _ => Err Punt end;
  register k _ _ _ := (k, Some false);
  warm_init k := k;
  mook n := Ok (D 2, n);
|}.

#[local] Existing Instance sample_jets.

Lemma sample_jets_laws : JetLaws.
Proof.
  split; intros w core formula j t r; simpl; case_decide as Hd; try done; intros _; rewrite Hd; clear Hd.
  - destruct core as [|h [a|]]; try done. intros [= <-]. by apply n_4, n_0.
  - intros H. inversion H as [| | | | |s b a Hn| | | | | | | | | |]; subst; try done.
    inversion Hn as [|s' b' r' Hs| | | | | | | | | | | | | |]; subst; try done.
    destruct core as [|h [a'|]]; simpl in Hs; try (by right).
    injection Hs as ->. by left.
Qed.

Definition sample_context : Context := {|
  stack := [{| mean := D 0; work := [] |}];
  cold := tt : cold_t;
  warm := tt : warm_t;
  cache := ∅;
  scry_stack := D 0;
  running_status := 0;
  slogs := [];
|}.

Lemma sample_context_ok : ctx_ok sample_context.
Proof. split; [|by exists (Direct 0)]. intros s b r. simpl. by rewrite lookup_empty. Qed.

(** [[7 [9 2 [1 [[4 0 3] 41]] ] ...]]: call the jetted arm, then increment. *)
Definition sample_formula : noun :=
  T [D 4; D 9; D 2; D 1; inc_tail_formula; D 41].

(** the value of a call, without the context it leaves *)
Definition value_of (o : option (Context * outcome Error noun)) : option (outcome Error noun) :=
  match o with Some (_, v) => Some v | None => None end.
Lemma value_of_inv o v : value_of o = Some v -> exists c, o = Some (c, v).
Proof. destruct o as [[c v']|]; simpl; [intros [= ->]; eauto|done]. Qed.

(** the frames and the status a failed call leaves *)
Definition failure_of (o : option (Context * outcome Error noun)) : option (nat * Z) :=
  match o with Some (c, Err _) => Some (length (stack c), running_status c) | _ => None end.
Lemma failure_of_inv o frames status :
  failure_of o = Some (frames, status) ->
  exists c e, o = Some (c, Err e) /\ length (stack c) = frames /\ running_status c = status.
Proof. destruct o as [[c []]|]; simpl; intros [= <- <-]; eauto. Qed.

Lemma sample_run :
  exists c, interpret 20 sample_context (D 7) sample_formula = Some (c, Ok (D 43)).
Proof. apply value_of_inv. vm_compute. reflexivity. Qed.

Lemma sample_nock : nock safe_policy (D 7) sample_formula (D 43).
Proof.
  change (D 43) with (NAtom (inc (inc (Direct 41)))). apply n_4.
  eapply n_9; [apply n_1|reflexivity|]. apply n_4, n_0. reflexivity.
Qed.

(** * Agreement with Nock *)

(** C1: Refinement. If [interpret] returns a noun, that noun is well formed, it is what Nock
    reduces the formula to against the subject (jets, the memo cache and hints
    included), and the frames of the NockStack are those before the call. *)
Theorem interpret_sound `{JL : JetLaws} fuel c s f c' r :
  ctx_ok c -> wf_noun s -> wf_noun f ->
  interpret fuel c s f = Some (c', Ok r) ->
  wf_noun r /\ mnock (den s) (den f) (den r) /\ stack c' = stack c /\ ctx_ok c'.
Proof.
  intros Hc Hs Hf Hi. destruct (interpret_nock _ _ _ _ _ _ Hc Hi) as (Hn & Hc' & Hst).
  destruct (nock_den _ _ _ Hn Hs Hf). done.
Qed.

Lemma interpret_sound_witness :
  exists c, interpret 20 sample_context (D 7) sample_formula = Some (c, Ok (D 43)) /\
    mnock (den (D 7)) (den sample_formula) (den (D 43)).
Proof.
  destruct sample_run as [c H]. exists c. split; [exact H|].
  refine (proj1 (proj2 (@interpret_sound sample_jets sample_jets_laws _ _ _ _ _ _
    sample_context_ok _ _ H))); vm_compute; repeat split; discriminate.
Defined.

(** C2: Completeness and termination. If Nock reduces the formula (by rules
    whose hints do not run into the panics of the mean stack), then from every
    amount of fuel on [interpret] returns exactly that noun, with the frames
    and the cancellation status as before the call. *)
Theorem interpret_complete `{JL : JetLaws} s f r c :
  nock safe_policy s f r -> ctx_ok c -> 0 <= running_status c ->
  exists n c', ctx_ok c' /\ running_status c' = running_status c /\ stack c' = stack c /\
    forall k, (n <= k)%nat -> interpret k c s f = Some (c', Ok r).
Proof. apply nock_interpret. Qed.

Lemma interpret_complete_witness :
  exists n c', forall k, (n <= k)%nat ->
    interpret k sample_context (D 7) sample_formula = Some (c', Ok (D 43)).
Proof.
  destruct (@interpret_complete sample_jets sample_jets_laws _ _ _ _ sample_nock sample_context_ok
    ltac:(simpl; lia)) as (n & c' & _ & _ & _ & H).
  exists n, c'. exact H.
Defined.

(** * What is left behind *)



(** Both outcomes of a failed call: [[0 2]] on an atom goes through [exit] and leaves
    the status; under a [%bout] hint the refused formula [5] makes the nested call
    return early, and the outer one restores the frames but not the status. *)
Example error_outcomes :
  (exists c e, interpret 9 sample_context (D 0) (T [D 0; D 2]) = Some (c, Err e) /\
     length (stack c) = 1%nat /\ running_status c = 0) /\
  (exists c e, interpret 9 sample_context (D 0) (T [D 11; D (tas "bout"); D 5]) = Some (c, Err e) /\
     length (stack c) = 1%nat /\ running_status c = 1).
Proof. split; apply failure_of_inv; vm_compute; reflexivity. Qed.

(** A formula that [push_formula] refuses makes [interpret] return before
    its epilogue: the error comes back with the call's frame still on the
    NockStack and the cancellation status still counting the call. *)
Theorem bad_formula_leaks `{JS : JetState} fuel c s f e :
  0 <= running_status c -> formula_work f true = Err e ->
  exists c', interpret fuel c s f = Some (c', Err e) /\
    stack c' = {| mean := D 0; work := [Done] |} :: stack c /\
    running_status c' = running_status c + 1.
Proof.
  intros Hst Ef. unfold interpret, interpret_with, enter_status.
  rewrite (proj2 (Z.leb_le 0 _)) by done. rewrite Ef. eauto.
Qed.

Lemma bad_formula_leaks_witness :
  exists c', interpret 1 sample_context (D 0) (D 5) = Some (c', Err BAIL_EXIT) /\
    length (stack c') = 2%nat /\ running_status c' = 1.
Proof.
  destruct (@bad_formula_leaks sample_jets 1 sample_context (D 0) (D 5) BAIL_EXIT)
    as (c' & H & Hs & Hr); [simpl; lia|reflexivity|].
  exists c'. split; [exact H|]. split; [rewrite Hs; reflexivity|exact Hr].
Defined.

(** A static hint of the mean family outside tail position pops a mean
    stack it never pushed to: on an empty mean stack the interpreter panics
    instead of reducing to [[0 0]]. *)
Theorem static_mean_panics :
  let f := T [T [D 11; D (tas "mean"); D 1; D 0]; D 1; D 0] in
  mnock (den (D 0)) (den f) (den (T [D 0; D 0])) /\
  exists c, interpret 20 sample_context (D 0) f = Some (c, Panic).
Proof.
  split; [|apply value_of_inv; vm_compute; reflexivity].
  apply m_cons; [apply m_11_static, m_1|apply m_1].
Qed.

(** Nock 10 with an axis that is not in the tree panics; the same axis in
    Nock 0 is an error value. *)
Theorem bad_edit_panics `{JS : JetState} a patch tree :
  wf_atom a -> axis_at (atom_val a) tree = None ->
  edit a patch tree = Panic /\ (exists e, slot_atom tree a = Err e) /\
  forall c subject, step_work10 c T10Edit a tree (D 0) subject patch = Crash /\
    step_work0 c a tree = Break c (Err BAIL_EXIT).
Proof.
  intros Hwf Hat. pose proof (slot_atom_spec tree a Hwf) as Hs. pose proof (edit_spec a patch tree Hwf) as He.
  rewrite Hat in Hs. assert (axis_put (atom_val a) patch tree = None) as Hp.
  { unfold axis_at, axis_put in *. destruct (atom_val a) as [|p|]; try done.
    revert patch He. induction p as [p IH|p IH|]; intros patch _; cbn [tree_put tree_at] in *; [..|done];
      destruct (tree_at p tree) as [[|]|]; done. }
  rewrite Hp in He.
  assert (edit a patch tree = Panic) as Hedit by (destruct (edit a patch tree) as [|[]|]; done).
  assert (exists e, slot_atom tree a = Err e) as [e Hslot].
  { assert (slot_atom tree a <> Panic).
    { unfold slot_atom, raw_slot_direct, raw_slot_indirect, slot_direct, slot_indirect.
      assert (forall x i h t, slot_direct_loop x i h t <> Panic).
      { intros x i. induction i as [|i IHi]; intros h t; cbn [slot_direct_loop]; [done|].
        repeat case_match; try done; apply IHi. }
      assert (forall x i h t, slot_indirect_loop x i h t <> Panic).
      { intros x i. induction i as [|i IHi]; intros h t; cbn [slot_indirect_loop]; [done|].
        repeat case_match; try done; apply IHi. }
      repeat case_match; done. }
    destruct (slot_atom tree a); [done|eauto|done]. }
  split; [done|]. split; [eauto|]. intros c subject.
  unfold step_work10, step_work0. rewrite Hedit, Hslot. done.
Qed.

Lemma bad_edit_panics_witness : edit (Direct 0) (D 1) (T [D 2; D 3]) = Panic.
Proof.
  apply (@bad_edit_panics sample_jets (Direct 0) (D 1) (T [D 2; D 3]));
    [vm_compute; split; discriminate|reflexivity].
Defined.

(** C7: The cancellation protocol under any interleaving of calls that enter, calls that
    leave, calls that return early without leaving, and cancellations.  Every call of
    [interpret] that does not panic is a run of this protocol.  The status is, up to its
    sign, the number of running calls plus the number of early returns so far, so [cancel]
    succeeds exactly on a positive status, and a cancelled status refuses new calls.
    Without early returns it is idle again once the running calls have returned; after
    one early return a cancelled status refuses every call from then on. *)
Theorem cancel_protocol depth leaked s :
  rtc status_step (0, 0, 0) (depth, leaked, s) ->
  0 <= depth /\ 0 <= leaked /\ Z.abs s = depth + leaked /\
  ((cancel s).2 = true <-> 0 < s) /\
  (s < 0 -> enter_status s = None) /\
  (leaked = 0 -> depth = 0 -> s = 0) /\
  (0 < leaked -> s < 0 -> forall depth' leaked' s',
     rtc status_step (depth, leaked, s) (depth', leaked', s') -> enter_status s' = None) /\
  (forall (JS : JetState) fuel c subject formula c' o,
     running_status c = s -> interpret fuel c subject formula = Some (c', o) -> o <> Panic ->
     exists k, rtc status_step (depth, leaked, s) (depth, leaked + k, running_status c')).
Proof.
  intros H. pose proof (status_run_inv _ _ H) as Hi. destruct Hi as (Hd & Hl & Ha); [done|].
  assert (Hrefuse : forall s, s < 0 -> enter_status s = None).
  { intros s' Hs'. unfold enter_status. by rewrite (proj2 (Z.leb_gt _ _)). }
  split_and!; try done; try lia.
  - unfold cancel. destruct (Z.leb_spec s 0); simpl; split; try done; lia.
  - auto.
  - intros Hl0 Hs d' l' s' Hr. apply Hrefuse. by apply (status_run_stuck _ _ Hr).
  - intros JS fuel c subject formula c' o <- Hc Hp.
    destruct (interpret_unwinds _ _ _ _ _ _ Hc Hp) as (k & (_ & _ & Hr) & _). eauto.
Qed.

(** A call returns early, the next one is cancelled and leaves: no call can enter. *)
Lemma cancel_protocol_witness : rtc status_step (0, 0, 0) (0, 1, -1) /\ enter_status (-1) = None.
Proof.
  assert (H : rtc status_step (0, 0, 0) (0, 1, -1)).
  { eapply rtc_l; [by apply (st_enter 0 0 0 1)|]. eapply rtc_l; [by apply (st_bail 1 0 1)|].
    eapply rtc_l; [by apply (st_enter 0 1 1 2)|]. eapply rtc_l; [apply (st_cancel 1 1 2)|].
    eapply rtc_l; [by apply (st_leave 1 1 (-2))|]. apply rtc_refl. }
  split; [exact H|]. destruct (cancel_protocol 0 1 (-1) H) as (_ & _ & _ & _ & _ & _ & Hf & _).
  apply (Hf ltac:(lia) ltac:(lia) 0 1 (-1)). apply rtc_refl.
Defined.
