(* ===== verification/Jets.v ===== *)
(** Jets of arithmetic, trees and bits: crates/nockvm/rust/nockvm/src/jets.rs and
    jets/math.rs, jets/tree.rs, jets/bits.rs.

    A jet takes the core it replaces and reads its sample at axis 6.  A [usize] is a
    number; a bit slice of a fresh atom is a list of bits, written range by range, and
    normalized into an atom at the end.  Big numbers of ibig are their values. *)
From stdpp Require Import base option list numbers.
From Stdlib Require Import ZArith Lia.
From S2P Require Import Prelude Noun Interp.
Local Open Scope Z_scope.

(** * jets.rs *)

Definition jet_result := outcome JetErr.
Definition bail_exit {A} : jet_result A := Err (JetFail BAIL_EXIT).
Definition bail_fail {A} : jet_result A := Err (JetFail BAIL_FAIL).
(** The conversion of every [noun::Error] *)
Definition or_exit {A} (r : result A) : jet_result A := map_err (fun _ => JetFail BAIL_EXIT) r.
Definition jet_slot (n : noun) (axis : Z) : jet_result noun := or_exit (slot n axis).
Definition as_atom (n : noun) : jet_result atom := match n with NAtom a => Ok a | NCell _ _ => bail_exit end.
Definition as_cell (n : noun) : jet_result (noun * noun) := match n with NCell h t => Ok (h, t) | NAtom _ => bail_exit end.
Definition as_direct (n : noun) : jet_result Z := match n with NAtom (Direct d) => Ok d | _ => bail_exit end.

Definition MAX_BIT_LENGTH : Z := 2 ^ 47 - 1.
Definition checked_add (a b : Z) : jet_result Z :=
  if (a + b <? U64) && (a + b <=? MAX_BIT_LENGTH) then Ok (a + b) else bail_fail.
Definition checked_sub (a b : Z) : jet_result Z := if b <=? a then Ok (a - b) else bail_fail.
Definition checked_left_shift (bloq a : Z) : jet_result Z :=
  let res := wrap64 (Z.shiftl a bloq) in
  if (Z.shiftr res bloq <? a) || (MAX_BIT_LENGTH <? res) then bail_fail else Ok res.
Definition bits_to_word (a : Z) : jet_result Z := x ← checked_add a 63; Ok (Z.shiftr x 6).
Definition bite_to_word (bloq step : Z) : jet_result Z := x ← checked_left_shift bloq step; bits_to_word x.

Definition bloq (a : noun) : jet_result Z :=
  bloq ← as_direct a; if 47 <=? bloq then bail_fail else Ok bloq.
Definition bite (a : noun) : jet_result (Z * Z) :=
  match a with
  | NCell h t => bloq ← bloq h; step ← as_direct t; Ok (bloq, step)
  | NAtom _ => bloq ← bloq a; Ok (bloq, 1)
  end.

(** ** Bit slices of fresh atoms *)

(** [new_raw_mut_bitslice] *)
Definition new_bits (words : Z) : list bool := replicate (64 * Z.to_nat words) false.
(** [&source[from..from + n]] *)
Definition bit_range (source : list bool) (from n : Z) : jet_result (list bool) :=
  if (0 <=? n) && (from + n <=? Z.of_nat (length source))
  then Ok (take (Z.to_nat n) (drop (Z.to_nat from) source)) else Panic.
(** [dest[to..to + n].copy_from_bitslice(bits)] of [n] bits *)
Definition copy_bits (dest : list bool) (to : Z) (bits : list bool) : jet_result (list bool) :=
  if to + Z.of_nat (length bits) <=? Z.of_nat (length dest)
  then Ok (take (Z.to_nat to) dest ++ bits ++ drop (Z.to_nat to + length bits) dest) else Panic.
(** [normalize_as_atom]; a buffer of no words is undefined. *)
Definition bits_atom (bits : list bool) : jet_result noun :=
  match bits with
  | [] => Panic
  | _ => Ok (NAtom (normalize_as_atom (bits_words (length bits / 64) bits)))
  end.

Definition chop (bloq from step to : Z) (dest source : list bool) : jet_result (list bool) :=
  from_b ← checked_left_shift bloq from;
  to_b ← checked_left_shift bloq to;
  step_b ← checked_left_shift bloq step;
  end_b ← checked_add from_b step_b;
  let len := Z.of_nat (length source) in
  if len <=? from_b then Ok dest
  else
    let step_b := if len <? end_b then step_b - (end_b - len) else step_b in
    bits ← bit_range source from_b step_b;
    copy_bits dest to_b bits.

(** ** Big numbers *)

Definition as_ubig (a : atom) : Z := atom_val a.
Definition bit_len (big : Z) : Z := if big =? 0 then 0 else Z.log2 big + 1.
Definition le_byte (big : Z) (i : nat) : Z := Z.land (Z.shiftr big (8 * Z.of_nat i)) 255.
(** The words of a zeroed buffer into which the little-endian bytes are copied *)
Fixpoint ubig_words (n : nat) (big : Z) : list Z :=
  match n with O => [] | S n => big mod U64 :: ubig_words n (big / U64) end.
(** [IndirectAtom::new_raw_bytes] of a number: trimmed, but left indirect *)
Definition raw_bytes_atom (bytes big : Z) : atom := Indirect (normalize (ubig_words (Z.to_nat (Z.shiftr (bytes + 7) 3)) big)).
Definition from_ubig (big : Z) : atom :=
  let bit_size := bit_len big in
  if bit_size <? 64 then
    Direct (foldl (fun value i => Z.lor value (Z.shiftl (le_byte big i) (8 * Z.of_nat i))) 0
                  (seq 0 (Z.to_nat (Z.shiftr (bit_size + 7) 3))))
  else raw_bytes_atom (Z.shiftr (bit_size + 7) 3) big.

(** * math.rs *)

Definition YES : noun := D 0.
Definition NO : noun := D 1.
Definition loob (b : bool) : noun := if b then YES else NO.

Definition sample2 (subject : noun) : jet_result (atom * atom) :=
  arg ← jet_slot subject 6;
  a ← (jet_slot arg 2 ≫= as_atom); b ← (jet_slot arg 3 ≫= as_atom); Ok (a, b).

Definition add (a b : atom) : atom :=
  match a, b with
  | Direct a, Direct b => Atom_new (wrapping_add64 a b)
  | _, _ => from_ubig (as_ubig a + as_ubig b)
  end.
Definition gte_b (a b : atom) : bool :=
  match a, b with
  | Direct a, Direct b => b <=? a
  | _, _ =>
      if bit_size b <? bit_size a then true
      else if bit_size a <? bit_size b then false
      else as_ubig b <=? as_ubig a
  end.
Definition gth_b (a b : atom) : bool :=
  match a, b with
  | Direct a, Direct b => b <? a
  | _, _ =>
      if bit_size b <? bit_size a then true
      else if bit_size a <? bit_size b then false
      else as_ubig b <? as_ubig a
  end.
Definition lte_b (a b : atom) : bool :=
  match a, b with
  | Direct a, Direct b => a <=? b
  | _, _ =>
      if bit_size a <? bit_size b then true
      else if bit_size b <? bit_size a then false
      else as_ubig a <=? as_ubig b
  end.
Definition lth_b (a b : atom) : bool :=
  match a, b with
  | Direct a, Direct b => a <? b
  | _, _ =>
      if bit_size b <? bit_size a then false
      else if bit_size a <? bit_size b then true
      else as_ubig a <? as_ubig b
  end.
Definition lth (a b : atom) : noun := loob (lth_b a b).
Definition sub (a b : atom) : result atom :=
  match a, b with
  | Direct a, Direct b => if a <? b then Err NotRepresentable else Ok (Atom_new (a - b))
  | _, _ =>
      if as_ubig a <? as_ubig b then Err NotRepresentable
      else Ok (from_ubig (as_ubig a - as_ubig b))
  end.

Definition jet_add (subject : noun) : jet_result noun :=
  '(a, b) ← sample2 subject; Ok (NAtom (add a b)).
Definition jet_dec (subject : noun) : jet_result noun :=
  arg ← jet_slot subject 6;
  match arg with
  | NCell _ _ => bail_exit
  | NAtom (Direct d) => if d =? 0 then bail_exit else Ok (NAtom (Direct (d - 1)))
  | NAtom (Indirect ws) =>
      let indirect_slice := words_bits ws in
      match first_one indirect_slice with
      | None => Panic
      | Some first_one =>
          bits_atom (replicate first_one true ++ false :: drop (S first_one) indirect_slice)
      end
  end.
Definition jet_div (subject : noun) : jet_result noun :=
  '(a, b) ← sample2 subject;
  if decide (b = Direct 0) then bail_exit
  else match a, b with
       | Direct a, Direct b => Ok (NAtom (Direct (a / b)))
       | _, _ => Ok (NAtom (from_ubig (as_ubig a / as_ubig b)))
       end.
Definition jet_mod (subject : noun) : jet_result noun :=
  '(a, b) ← sample2 subject;
  if decide (b = Direct 0) then bail_exit
  else match a, b with
       | Direct a, Direct b => Ok (NAtom (Direct (a mod b)))
       | _, _ => Ok (NAtom (from_ubig (as_ubig a mod as_ubig b)))
       end.
Definition jet_dvr (subject : noun) : jet_result noun :=
  '(a, b) ← sample2 subject;
  if decide (b = Direct 0) then bail_exit
  else match a, b with
       | Direct a, Direct b => Ok (T [NAtom (Direct (a / b)); NAtom (Direct (a mod b))])
       | _, _ => Ok (T [NAtom (from_ubig (as_ubig a / as_ubig b)); NAtom (from_ubig (as_ubig a mod as_ubig b))])
       end.
Definition jet_gte (subject : noun) : jet_result noun := '(a, b) ← sample2 subject; Ok (loob (gte_b a b)).
Definition jet_gth (subject : noun) : jet_result noun := '(a, b) ← sample2 subject; Ok (loob (gth_b a b)).
Definition jet_lte (subject : noun) : jet_result noun := '(a, b) ← sample2 subject; Ok (loob (lte_b a b)).
Definition jet_lth (subject : noun) : jet_result noun := '(a, b) ← sample2 subject; Ok (lth a b).
Definition jet_max (subject : noun) : jet_result noun :=
  '(a, b) ← sample2 subject;
  Ok (NAtom (match a, b with
             | Direct x, Direct y => if y <=? x then a else b
             | _, _ =>
                 if bit_size b <? bit_size a then a
                 else if bit_size a <? bit_size b then b
                 else if as_ubig b <=? as_ubig a then a else b
             end)).
Definition jet_min (subject : noun) : jet_result noun :=
  '(a, b) ← sample2 subject;
  Ok (NAtom (match a, b with
             | Direct x, Direct y => if x <=? y then a else b
             | _, _ =>
                 if bit_size a <? bit_size b then a
                 else if bit_size b <? bit_size a then b
                 else if as_ubig a <=? as_ubig b then a else b
             end)).
Definition jet_mul (subject : noun) : jet_result noun :=
  '(a, b) ← sample2 subject;
  match a, b with
  | Direct a, Direct b =>
      let res := a * b in
      if res <? DIRECT_MAX then Ok (NAtom (Atom_new res))
      else Ok (NAtom (raw_bytes_atom (if res <? U64 - 1 then 8 else 16) res))
  | _, _ => Ok (NAtom (from_ubig (as_ubig a * as_ubig b)))
  end.
Definition jet_sub (subject : noun) : jet_result noun :=
  '(a, b) ← sample2 subject; r ← or_exit (sub a b); Ok (NAtom r).

(** * bits.rs *)

Definition atom_size (a : atom) : Z := match a with Direct _ => 1 | Indirect ws => Z.of_nat (length ws) end.
Definition met (bloq : Z) (a : atom) : Z :=
  if decide (a = Direct 0) then 0
  else if bloq <? 6 then Z.shiftr (bit_size a + (Z.shiftl 1 bloq - 1)) bloq
  else let bloq_word := bloq - 6 in Z.shiftr (atom_size a + (Z.shiftl 1 bloq_word - 1)) bloq_word.

Definition bex (arg : Z) : jet_result noun :=
  if arg <? 63 then Ok (NAtom (Direct (Z.shiftl 1 arg)))
  else bits ← copy_bits (new_bits (Z.shiftr (arg + 7) 3)) arg [true]; bits_atom bits.
Definition lsh (bloq step : Z) (a : atom) : jet_result noun :=
  let len := met bloq a in
  if len =? 0 then Ok (D 0)
  else
    shift ← checked_left_shift bloq step;
    size ← checked_add (bit_size a) shift;
    new_size ← bits_to_word size;
    dest ← chop bloq 0 len step (new_bits new_size) (as_bitslice a);
    bits_atom dest.
Definition bits_op (op : bool -> bool -> bool) (a b : atom) : jet_result noun :=
  let dest := new_bits (Z.max (atom_size a) (atom_size b)) in
  dest ← copy_bits dest 0 (as_bitslice a);
  (* the shorter operand is extended with zeros *)
  let rhs := as_bitslice b ++ replicate (length dest - length (as_bitslice b)) false in
  bits_atom (zip_with op dest rhs).
Definition con : atom -> atom -> jet_result noun := bits_op orb.

(** Both passes over a list: the length, and the pieces one after the other *)
Section pieces.
Context (piece : noun -> jet_result (Z * atom)) (bloq : Z).
Fixpoint pieces_len (measure : noun -> jet_result Z) (items : noun) (len : Z) : jet_result Z :=
  if decide (items = D 0) then Ok len
  else match items with
       | NAtom _ => bail_exit
       | NCell item items => step ← measure item; len ← checked_add len step; pieces_len measure items len
       end.
Fixpoint pieces_chop (items : noun) (pos : Z) (dest : list bool) : jet_result (list bool) :=
  if decide (items = D 0) then Ok dest
  else match items with
       | NAtom _ => bail_exit
       | NCell item items =>
           '(step, atom) ← piece item;
           dest ← chop bloq 0 step pos dest (as_bitslice atom);
           pieces_chop items (wrapping_add64 pos step) dest
       end.
Definition pieces (measure : noun -> jet_result Z) (original_list : noun) : jet_result noun :=
  len ← pieces_len measure original_list 0;
  if len =? 0 then Ok (D 0)
  else
    words ← bite_to_word bloq len;
    dest ← pieces_chop original_list 0 (new_bits words);
    bits_atom dest.
End pieces.

Definition can_step (item : noun) : jet_result Z := '(head, _) ← as_cell item; as_direct head.
Definition can_piece (item : noun) : jet_result (Z * atom) :=
  '(head, tail) ← as_cell item; step ← as_direct head; atom ← as_atom tail; Ok (step, atom).
Definition can (bloq : Z) (list : noun) : jet_result noun := pieces can_piece bloq can_step list.
Definition rap_step (bloq : Z) (item : noun) : jet_result Z := atom ← as_atom item; Ok (met bloq atom).
Definition rap_piece (bloq : Z) (item : noun) : jet_result (Z * atom) :=
  atom ← as_atom item; Ok (met bloq atom, atom).
Definition rap (bloq : Z) (list : noun) : jet_result noun := pieces (rap_piece bloq) bloq (rap_step bloq) list.
Definition rep_piece (step : Z) (item : noun) : jet_result (Z * atom) := atom ← as_atom item; Ok (step, atom).
Definition rep (a b : noun) : jet_result noun :=
  '(bloq, step) ← bite a; pieces (rep_piece step) bloq (fun _ => Ok step) b.

(** The loop counts down from the last piece; a step of zero divides by zero. *)
Fixpoint rip_loop (bloq step : Z) (a : atom) (i : nat) (list : noun) : jet_result noun :=
  match i with
  | O => Ok list
  | S i =>
      dest ← chop bloq (wrap64 (Z.of_nat i * step)) step 0 (new_bits (wrap64 (Z.shiftl step bloq))) (as_bitslice a);
      new_atom ← bits_atom dest;
      rip_loop bloq step a i (NCell new_atom list)
  end.
Definition rip (bloq step : Z) (a : atom) : jet_result noun :=
  if step =? 0 then Panic
  else rip_loop bloq step a (Z.to_nat ((met bloq a + step - 1) / step)) (D 0).

Definition jet_bex (subject : noun) : jet_result noun :=
  arg ← (jet_slot subject 6 ≫= as_direct); bex arg.
Definition jet_can (subject : noun) : jet_result noun :=
  arg ← jet_slot subject 6; bloq ← (jet_slot arg 2 ≫= bloq); list ← jet_slot arg 3; can bloq list.
Definition jet_cat (subject : noun) : jet_result noun :=
  arg ← jet_slot subject 6; bloq ← (jet_slot arg 2 ≫= bloq);
  a ← (jet_slot arg 6 ≫= as_atom); b ← (jet_slot arg 7 ≫= as_atom);
  let len_a := met bloq a in let len_b := met bloq b in
  len ← checked_add len_a len_b;
  new_len ← bite_to_word bloq len;
  if new_len =? 0 then Ok (NAtom a)
  else
    dest ← chop bloq 0 len_a 0 (new_bits new_len) (as_bitslice a);
    dest ← chop bloq 0 len_b len_a dest (as_bitslice b);
    bits_atom dest.
Definition jet_cut (subject : noun) : jet_result noun :=
  arg ← jet_slot subject 6; bloq ← (jet_slot arg 2 ≫= bloq);
  start ← (jet_slot arg 12 ≫= as_direct); run ← (jet_slot arg 13 ≫= as_direct);
  atom ← (jet_slot arg 7 ≫= as_atom);
  if run =? 0 then Ok (D 0)
  else
    words ← bite_to_word bloq run;
    dest ← chop bloq start run 0 (new_bits words) (as_bitslice atom);
    bits_atom dest.
Definition jet_sew (subject : noun) : jet_result noun :=
  sam ← jet_slot subject 6; bloq ← (jet_slot sam 2 ≫= bloq); e ← (jet_slot sam 7 ≫= as_atom);
  bcd ← jet_slot sam 6;
  offset ← (jet_slot bcd 2 ≫= as_atom); offset ← or_exit (as_u64 offset);
  step ← (jet_slot bcd 6 ≫= as_atom); step ← or_exit (as_u64 step);
  if step =? 0 then Ok (NAtom e)
  else
    donor ← (jet_slot bcd 7 ≫= as_atom);
    let len_d := met bloq donor in let len_e := met bloq e in
    sum ← checked_add step offset;
    let new_len := Z.max sum len_e in
    words ← bite_to_word bloq new_len;
    dest ← chop bloq 0 len_e 0 (new_bits words) (as_bitslice e);
    lead_words ← bite_to_word bloq step;
    lead ← chop bloq 0 (Z.min step len_d) 0 (new_bits lead_words) (as_bitslice donor);
    dest ← chop bloq 0 step offset dest lead;
    bits_atom dest.
Definition jet_end (subject : noun) : jet_result noun :=
  arg ← jet_slot subject 6; '(bloq, step) ← (jet_slot arg 2 ≫= bite); a ← (jet_slot arg 3 ≫= as_atom);
  if step =? 0 then Ok (D 0)
  else if met bloq a <=? step then Ok (NAtom a)
  else
    words ← bite_to_word bloq step;
    dest ← chop bloq 0 step 0 (new_bits words) (as_bitslice a);
    bits_atom dest.
Definition jet_lsh (subject : noun) : jet_result noun :=
  arg ← jet_slot subject 6; '(bloq, step) ← (jet_slot arg 2 ≫= bite); a ← (jet_slot arg 3 ≫= as_atom);
  lsh bloq step a.
Definition jet_met (subject : noun) : jet_result noun :=
  arg ← jet_slot subject 6; bloq ← (jet_slot arg 2 ≫= bloq); a ← (jet_slot arg 3 ≫= as_atom);
  Ok (D (met bloq a)).
Definition jet_rap (subject : noun) : jet_result noun :=
  arg ← jet_slot subject 6; bloq ← (jet_slot arg 2 ≫= bloq); list ← jet_slot arg 3; rap bloq list.
Definition jet_rep (subject : noun) : jet_result noun :=
  arg ← jet_slot subject 6; arg2 ← jet_slot arg 2; arg3 ← jet_slot arg 3; rep arg2 arg3.
Definition jet_rev (subject : noun) : jet_result noun :=
  arg ← jet_slot subject 6; boz ← (jet_slot arg 2 ≫= as_direct);
  if 64 <=? boz then bail_exit
  else
    len ← (jet_slot arg 6 ≫= as_direct); dat ← (jet_slot arg 7 ≫= as_atom);
    let src := as_bitslice dat in
    let total_len := wrap64 (Z.shiftl len boz) in
    let block b := wrap64 (Z.shiftl b boz) in
    dest ← foldl (fun dest b =>
        dest ← dest;
        let start := block (Z.of_nat b) in let finish := block (Z.of_nat b + 1) in
        if wrapping_sub64 total_len start <=? Z.of_nat (length src) then
          bits ← bit_range src (wrapping_sub64 total_len finish) (finish - start);
          copy_bits dest start bits
        else Ok dest) (Ok (new_bits total_len)) (seq 0 (Z.to_nat len));
    bits_atom dest.
Definition jet_rip (subject : noun) : jet_result noun :=
  arg ← jet_slot subject 6; '(bloq, step) ← (jet_slot arg 2 ≫= bite); a ← (jet_slot arg 3 ≫= as_atom);
  rip bloq step a.
Definition jet_rsh (subject : noun) : jet_result noun :=
  arg ← jet_slot subject 6; '(bloq, step) ← (jet_slot arg 2 ≫= bite); a ← (jet_slot arg 3 ≫= as_atom);
  let len := met bloq a in
  if len <=? step then Ok (D 0)
  else
    shift ← checked_left_shift bloq step;
    size ← checked_sub (bit_size a) shift;
    new_size ← bits_to_word size;
    dest ← chop bloq step (len - step) 0 (new_bits new_size) (as_bitslice a);
    bits_atom dest.
Definition jet_xeb (subject : noun) : jet_result noun :=
  sam ← jet_slot subject 6; a ← (jet_slot sam 1 ≫= as_atom); Ok (D (met 0 a)).
Definition jet_con (subject : noun) : jet_result noun := '(a, b) ← sample2 subject; con a b.
Definition jet_dis (subject : noun) : jet_result noun := '(a, b) ← sample2 subject; bits_op andb a b.
Definition jet_mix (subject : noun) : jet_result noun := '(a, b) ← sample2 subject; bits_op xorb a b.

(** * tree.rs *)

Definition jet_cap (subject : noun) : jet_result noun :=
  tom ← (jet_slot subject 6 ≫= as_atom);
  let met := met 0 tom in
  if met <? 2 then bail_exit
  else if default false (as_bitslice tom !! Z.to_nat (met - 2)) then Ok (D 3) else Ok (D 2).
Definition jet_mas (subject : noun) : jet_result noun :=
  tom ← (jet_slot subject 6 ≫= as_atom);
  let met := met 0 tom in
  if met <? 2 then bail_exit
  else
    let out_bits := met - 1 in
    let out_words := Z.shiftr (out_bits + 63) 6 in
    out ← copy_bits (new_bits out_words) (met - 2) [true];
    out ← (if 2 <? met then bits ← bit_range (as_bitslice tom) 0 (met - 2); copy_bits out 0 bits else Ok out);
    bits_atom out.
Definition jet_peg (subject : noun) : jet_result noun :=
  '(a, b) ← sample2 subject;
  if decide (a = Direct 0) then bail_exit
  else if decide (b = Direct 0) then bail_exit
  else
    let a_bits := met 0 a in let b_bits := met 0 b in
    let out_bits := a_bits + b_bits - 1 in
    let out_words := Z.shiftr (out_bits + 63) 6 in
    low ← bit_range (as_bitslice b) 0 (b_bits - 1);
    out ← copy_bits (new_bits out_words) 0 low;
    high ← bit_range (as_bitslice a) 0 a_bits;
    out ← copy_bits out (b_bits - 1) high;
    bits_atom out.

(** Values of the tests in the source *)
Definition sam (n : noun) : noun := T [D 0; n; D 0].
Example jets_run :
  jet_lsh (sam (T [T [D 3; D 2]; D 0x876543])) = Ok (D 0x8765430000) /\
  jet_rsh (sam (T [T [D 0; D 5]; D 0x876543])) = Ok (D 0x43b2a) /\
  jet_cat (sam (T [D 3; D 0x876543; D 0x876543])) = Ok (D 0x876543876543) /\
  jet_peg (sam (T [D 3; D 6])) = Ok (D 14) /\
  jet_mas (sam (D 13)) = Ok (D 5) /\
  jet_rip (sam (T [D 3; D 0x876543])) = Ok (T [D 0x43; D 0x65; D 0x87; D 0]) /\
  jet_rev (sam (T [D 0; D 60; D 0x1])) = Ok (D (2 ^ 59)) /\
  jet_rev (sam (T [D 7; D 1; D 5])) = Ok (D 0).
Proof. vm_compute. repeat split; reflexivity. Qed.
