(* ===== verification/JetsTheorems.v ===== *)
(** The jets of arithmetic, trees and bits compute the functions they replace. *)
From stdpp Require Import base option list numbers.
From Stdlib Require Import ZArith Lia.
From S2P Require Import Prelude Noun Interp NockSpec Jets.
Local Open Scope Z_scope.

(** A jet returns the canonical atom of a value. *)
Definition returns (r : jet_result noun) (v : Z) : Prop :=
  exists a, r = Ok (NAtom a) /\ wf_atom a /\ atom_val a = v.
(** A core with a sample *)
Definition gate (battery sample context : noun) : noun := NCell battery (NCell sample context).

Lemma returns_atom a v : wf_atom a -> atom_val a = v -> returns (Ok (NAtom a)) v.
Proof. unfold returns; eauto. Qed.
Lemma returns_direct d : 0 <= d <= DIRECT_MAX -> returns (Ok (D d)) d.
Proof. intros. by apply returns_atom. Qed.

(** * Sizes *)

Lemma bit_len_bound z n : 0 <= z -> 0 <= n -> bit_len z <= n <-> z < 2 ^ n.
Proof.
  intros Hz Hn. unfold bit_len. destruct (Z.eqb_spec z 0) as [->|].
  - split; [|lia]. intros _. apply Z.pow_pos_nonneg; lia.
  - rewrite (Z.log2_lt_pow2 z n) by lia. lia.
Qed.
Lemma bit_len_nonneg z : 0 <= bit_len z.
Proof. unfold bit_len. case_match; pose proof (Z.log2_nonneg z); lia. Qed.
Lemma bit_len_mono x y : 0 <= x <= y -> bit_len x <= bit_len y.
Proof.
  intros. apply bit_len_bound; [lia|apply bit_len_nonneg|].
  assert (y < 2 ^ bit_len y) by (apply bit_len_bound; [lia|apply bit_len_nonneg|lia]). lia.
Qed.

Lemma bit_size_len a : wf_atom a -> bit_size a = bit_len (atom_val a).
Proof.
  destruct a as [d|ws]; intros Hw.
  - cbn [bit_size atom_val]. unfold bit_len, leading_zeros64. destruct (d =? 0); lia.
  - apply wf_indirect in Hw as (Hf & Hne & Hlow & Hbig). cbn [bit_size atom_val].
    destruct (words_last ws Hne) as (vs & w & -> & Hlast). rewrite Hlast. simpl default.
    apply Forall_app in Hf as [Hvs Hw]. rewrite Forall_singleton in Hw.
    rewrite length_app in *. cbn [length] in *. replace (length vs + 1 - 1)%nat with (length vs) in * by lia.
    rewrite words_val_app in *. cbn [words_val] in *. rewrite Z.mul_0_r, Z.add_0_r in *.
    pose proof (words_val_nonneg vs Hvs). pose proof (words_val_bound vs Hvs) as Hb.
    unfold U64 in *. rewrite <- !Z.pow_mul_r in * by lia. set (k := Z.of_nat (length vs)) in *.
    assert (0 < 2 ^ (64 * k)) by (apply Z.pow_pos_nonneg; lia).
    assert (0 < w).
    { destruct Hw as [Hw0 _]. destruct (Z.eq_dec w 0) as [->|]; [|lia]. rewrite Z.mul_0_r, Z.add_0_r in Hlow.
      destruct (Z.lt_irrefl _ (Z.lt_le_trans _ _ _ Hb Hlow)). }
    assert (Hlog : Z.log2 (words_val vs + 2 ^ (64 * k) * w) = 64 * k + Z.log2 w).
    { pose proof (Z.log2_nonneg w). destruct (Z.log2_spec w) as [Hw1 Hw2]; [lia|].
      apply Z.log2_unique; [lia|]. rewrite <- Z.add_succ_r, !Z.pow_add_r by lia. nia. }
    unfold bit_len. rewrite (proj2 (Z.eqb_neq _ _)) by nia. rewrite Hlog, Nat2Z.inj_add, Z.shiftl_mul_pow2 by lia.
    pose proof (leading_zeros64_log2 w ltac:(done)). fold k. change (2 ^ 6) with 64. lia.
Qed.

(** The comparisons on sizes first agree with those on values. *)
Lemma bit_size_lt a b : wf_atom a -> wf_atom b -> bit_size a < bit_size b -> atom_val a < atom_val b.
Proof.
  intros Ha Hb. rewrite !bit_size_len by done. intros Hlt.
  destruct (Z.lt_ge_cases (atom_val a) (atom_val b)) as [|Hge]; [done|].
  pose proof (bit_len_mono (atom_val b) (atom_val a)). pose proof (wf_atom_val b Hb). lia.
Qed.

(** * Big numbers *)

Lemma lor_shiftl a b k : 0 <= k -> 0 <= a < 2 ^ k -> Z.lor a (Z.shiftl b k) = a + b * 2 ^ k.
Proof.
  intros Hk Ha. assert (Hd : Z.land a (Z.shiftl b k) = 0).
  { apply Z.bits_inj'. intros i Hi. rewrite Z.land_spec, Z.bits_0.
    destruct (Z.lt_ge_cases i k) as [Hlt|Hge].
    - rewrite Z.shiftl_spec_low by done. by rewrite andb_false_r.
    - rewrite (Z.testbit_eqb a) by done. rewrite (Z.div_small a); [done|].
      split; [lia|]. eapply Z.lt_le_trans; [apply Ha|]. apply Z.pow_le_mono_r; lia. }
  rewrite <- Z.lxor_lor, <- Z.add_nocarry_lxor by done. by rewrite Z.shiftl_mul_pow2.
Qed.

Lemma le_bytes_value big k :
  0 <= big ->
  foldl (fun value i => Z.lor value (Z.shiftl (le_byte big i) (8 * Z.of_nat i))) 0 (seq 0 k) =
  big mod 2 ^ (8 * Z.of_nat k).
Proof.
  intros Hb. induction k as [|k IH]; [by rewrite Z.mod_1_r|].
  rewrite seq_S, foldl_app, IH. cbn [foldl Nat.add].
  assert (0 < 2 ^ (8 * Z.of_nat k)) by (apply Z.pow_pos_nonneg; lia).
  rewrite lor_shiftl by (lia || by apply Z.mod_pos_bound).
  unfold le_byte. change 255 with (Z.ones 8). rewrite Z.land_ones, Z.shiftr_div_pow2 by lia.
  replace (8 * Z.of_nat (S k)) with (8 * Z.of_nat k + 8) by lia. rewrite Z.pow_add_r by lia.
  rewrite (Z.rem_mul_r big (2 ^ (8 * Z.of_nat k))) by lia. lia.
Qed.

Lemma ubig_words_spec n big :
  0 <= big -> Forall is_u64 (ubig_words n big) /\ length (ubig_words n big) = n /\
  words_val (ubig_words n big) = big mod U64 ^ Z.of_nat n.
Proof.
  revert big. induction n as [|n IH]; intros big Hb; [by rewrite Z.mod_1_r|].
  cbn [ubig_words length words_val]. destruct (IH (big / U64)) as (Hf & Hl & Hv); [by apply Z.div_pos|].
  split; [constructor; [by apply Z.mod_pos_bound|done]|]. split; [lia|].
  rewrite Hv, Nat2Z.inj_succ, Z.pow_succ_r by lia. rewrite Z.rem_mul_r; [lia|done|].
  apply Z.pow_pos_nonneg; [done|lia].
Qed.

Lemma indirect_wf ws :
  Forall is_u64 ws -> ws <> [] -> DIRECT_MAX < words_val ws ->
  wf_atom (Indirect (normalize ws)) /\ atom_val (Indirect (normalize ws)) = words_val ws.
Proof.
  intros Hf Hne Hbig. pose proof (normalize_val ws Hne) as Hv. split; [|done].
  destruct (normalize_last ws Hf Hne) as (Hn & Hf' & Hl). apply wf_indirect. split_and!; try done; [|by rewrite Hv].
  destruct Hl as [Hl|Hl]; [|done]. rewrite Hl. change (Z.of_nat (1 - 1)) with 0. rewrite Hv, DIRECT_MAX_val in *. lia.
Qed.

Lemma raw_bytes_atom_spec bytes big :
  0 <= bytes -> DIRECT_MAX < big < 2 ^ (8 * bytes) ->
  wf_atom (raw_bytes_atom bytes big) /\ atom_val (raw_bytes_atom bytes big) = big.
Proof.
  intros Hb Hbig. unfold raw_bytes_atom. set (n := Z.to_nat (Z.shiftr (bytes + 7) 3)).
  assert (Hn : Z.of_nat n = (bytes + 7) / 8).
  { unfold n. rewrite Z.shiftr_div_pow2 by lia. change (2 ^ 3) with 8.
    rewrite Z2Nat.id; [done|]. apply Z.div_pos; lia. }
  assert (Hm : 8 * bytes <= 64 * Z.of_nat n).
  { rewrite Hn. pose proof (Z.div_mod (bytes + 7) 8). pose proof (Z.mod_pos_bound (bytes + 7) 8). lia. }
  destruct (ubig_words_spec n big) as (Hf & Hl & Hv); [rewrite DIRECT_MAX_val in *; lia|].
  assert (Hsm : words_val (ubig_words n big) = big).
  { rewrite Hv. apply Z.mod_small. split; [rewrite DIRECT_MAX_val in *; lia|]. unfold U64. rewrite <- Z.pow_mul_r by lia.
    eapply Z.lt_le_trans; [apply Hbig|]. apply Z.pow_le_mono_r; lia. }
  destruct (indirect_wf (ubig_words n big)) as [Hw Hval]; [done| |rewrite Hsm; lia|by rewrite Hval, Hsm].
  intros E. rewrite E in Hsm. simpl in Hsm. rewrite DIRECT_MAX_val in *. lia.
Qed.

Lemma from_ubig_spec big : 0 <= big -> wf_atom (from_ubig big) /\ atom_val (from_ubig big) = big.
Proof.
  intros Hb. unfold from_ubig. pose proof (bit_len_nonneg big) as Hn.
  assert (Hlt : forall m, bit_len big <= m -> big < 2 ^ m) by (intros; apply bit_len_bound; lia).
  assert (Hc : bit_len big <= 8 * Z.shiftr (bit_len big + 7) 3).
  { rewrite Z.shiftr_div_pow2 by lia. change (2 ^ 3) with 8.
    pose proof (Z.div_mod (bit_len big + 7) 8). pose proof (Z.mod_pos_bound (bit_len big + 7) 8). lia. }
  destruct (Z.ltb_spec (bit_len big) 64) as [Hs|Hs].
  - rewrite le_bytes_value, Z2Nat.id by (apply Z.shiftr_nonneg || done; lia).
    rewrite Z.mod_small by (split; [done|by apply Hlt]). split; [|done]. cbn [wf_atom].
    rewrite DIRECT_MAX_val. specialize (Hlt 63). lia.
  - apply raw_bytes_atom_spec; [apply Z.shiftr_nonneg; lia|]. split; [|by apply Hlt].
    rewrite DIRECT_MAX_val. destruct (Z.lt_ge_cases big (2 ^ 63)) as [Hl|]; [|lia].
    apply bit_len_bound in Hl; lia.
Qed.

Lemma returns_ubig v w : 0 <= v -> v = w -> returns (Ok (NAtom (from_ubig v))) w.
Proof. intros Hv <-. destruct (from_ubig_spec v Hv). by apply returns_atom. Qed.

Lemma sample2_gate bat ctx a b : sample2 (gate bat (NCell (NAtom a) (NAtom b)) ctx) = Ok (a, b).
Proof. reflexivity. Qed.

(** * Buffers of bits *)

Lemma bits_atom_spec bits n :
  length bits = (64 * n)%nat -> (0 < n)%nat -> returns (bits_atom bits) (bits_val bits).
Proof.
  intros Hl Hn. destruct (bits_words_spec n bits Hl) as (Hf & Hlen & Hv).
  unfold bits_atom. destruct bits as [|b bits]; [simpl in Hl; lia|]. set (bs := b :: bits) in *.
  rewrite Hl, Nat.mul_comm, Nat.div_mul by lia. rewrite <- Hv.
  destruct (normalize_as_atom_wf (bits_words n bs)) as [Hw Ha]; [done|intros E; rewrite E in Hlen; simpl in Hlen; lia|].
  by apply returns_atom.
Qed.

Lemma slice_val a : wf_atom a -> bits_val (as_bitslice a) = atom_val a.
Proof.
  destruct a as [d|ws]; cbn [as_bitslice atom_val].
  - cbn [wf_atom]. rewrite DIRECT_MAX_val. intros Hd. apply bits_val_of_small. cbn. lia.
  - intros [Hf _]. by apply words_bits_val.
Qed.
Lemma as_bitslice_length a : Z.of_nat (length (as_bitslice a)) = 64 * atom_size a.
Proof.
  destruct a as [d|ws]; cbn [as_bitslice atom_size]; [by unfold word_bits; rewrite length_bits_of|].
  rewrite length_words_bits. lia.
Qed.

(** * Arithmetic *)

Lemma dec_bits bs k :
  first_one bs = Some k ->
  length (replicate k true ++ false :: drop (S k) bs) = length bs /\
  bits_val (replicate k true ++ false :: drop (S k) bs) = bits_val bs - 1.
Proof.
  intros (rest & E)%first_bit_Some. simpl in E.
  assert (Hd : drop (S k) bs = rest).
  { rewrite E. rewrite drop_app_ge by (rewrite length_replicate; lia).
    rewrite length_replicate. by replace (S k - k)%nat with 1%nat by lia. }
  rewrite Hd, E, !length_app, !length_replicate. split; [done|].
  rewrite !bits_val_app, !length_replicate, bits_val_replicate_true, bits_val_replicate_false. cbn [bits_val Z.b2z]. lia.
Qed.

Lemma dec_returns bat ctx a :
  wf_atom a ->
  (atom_val a = 0 /\ jet_dec (gate bat (NAtom a) ctx) = bail_exit) \/
  (0 < atom_val a /\ returns (jet_dec (gate bat (NAtom a) ctx)) (atom_val a - 1)).
Proof.
  intros Ha. unfold jet_dec. change (jet_slot (gate bat (NAtom a) ctx) 6) with (Ok (E := JetErr) (NAtom a)).
  cbn [mbind outcome_bind]. destruct a as [d|ws].
  - cbn [wf_atom atom_val] in *. destruct (Z.eqb_spec d 0); [by left|right]. split; [lia|].
    apply returns_atom; cbn [wf_atom atom_val]; lia.
  - right. apply wf_indirect in Ha as (Hf & Hne & _ & Hbig). cbn [atom_val]. rewrite DIRECT_MAX_val in Hbig. split; [lia|].
    destruct (first_one (words_bits ws)) as [k|] eqn:E.
    + destruct (dec_bits _ _ E) as [Hl Hv]. rewrite <- (words_bits_val ws Hf), <- Hv.
      apply bits_atom_spec with (length ws); [by rewrite Hl, length_words_bits|]. destruct ws; [done|simpl; lia].
    + exfalso. apply first_bit_None in E. pose proof (words_bits_val ws Hf) as Hv.
      rewrite E, bits_val_replicate_false in Hv. lia.
Qed.

(** Comparing sizes first gives the order of the values. *)
Lemma sizes_first (s t x y : Z) :
  (s < t -> x < y) -> (t < s -> y < x) ->
  (if t <? s then true else if s <? t then false else y <=? x) = (y <=? x) /\
  (if t <? s then true else if s <? t then false else y <? x) = (y <? x) /\
  (if s <? t then true else if t <? s then false else x <=? y) = (x <=? y) /\
  (if t <? s then false else if s <? t then true else x <? y) = (x <? y).
Proof.
  intros H1 H2. destruct (Z.ltb_spec s t), (Z.ltb_spec t s); [lia|..]; split_and!; try done; symmetry;
    first [apply Z.leb_le|apply Z.ltb_lt|apply Z.leb_gt|apply Z.ltb_ge]; lia.
Qed.
Lemma choose_sizes_first {A} (s t x y : Z) (u v : A) :
  (s < t -> x < y) -> (t < s -> y < x) ->
  (if t <? s then u else if s <? t then v else if y <=? x then u else v) = (if y <=? x then u else v) /\
  (if s <? t then u else if t <? s then v else if x <=? y then u else v) = (if x <=? y then u else v).
Proof.
  intros H1 H2. destruct (sizes_first s t x y H1 H2) as (<- & _ & <- & _).
  by destruct (s <? t), (t <? s).
Qed.
Lemma compare_returns a b :
  wf_atom a -> wf_atom b ->
  gte_b a b = (atom_val b <=? atom_val a) /\ gth_b a b = (atom_val b <? atom_val a) /\
  lte_b a b = (atom_val a <=? atom_val b) /\ lth_b a b = (atom_val a <? atom_val b).
Proof.
  intros Ha Hb. pose proof (sizes_first _ _ _ _ (bit_size_lt a b Ha Hb) (bit_size_lt b a Hb Ha)) as Hs.
  by destruct a, b.
Qed.

Section math.
Context (bat ctx : noun) (a b : atom) (Ha : wf_atom a) (Hb : wf_atom b).
Let subject := gate bat (NCell (NAtom a) (NAtom b)) ctx.
Let x := atom_val a.
Let y := atom_val b.

Lemma vals_nonneg : 0 <= x /\ 0 <= y.
Proof. split; by apply wf_atom_val. Qed.

Lemma add_returns : returns (jet_add subject) (x + y).
Proof.
  destruct vals_nonneg as [Hx Hy]. unfold jet_add, subject, x, y in *. rewrite sample2_gate. cbn [mbind outcome_bind].
  unfold add, as_ubig. destruct a as [d|ws] eqn:Ea, b as [e|vs]; [|by apply returns_ubig; [lia|]..].
  cbn [wf_atom atom_val] in *. rewrite DIRECT_MAX_val in *. unfold wrapping_add64.
  rewrite wrap64_small by (unfold is_u64, U64; lia). destruct (wf_Atom_new (d + e)); [unfold is_u64, U64; lia|].
  by apply returns_atom.
Qed.
Lemma sub_returns :
  (x < y /\ jet_sub subject = bail_exit) \/ (y <= x /\ returns (jet_sub subject) (x - y)).
Proof.
  destruct vals_nonneg as [Hx Hy]. unfold jet_sub, subject, x, y in *. rewrite sample2_gate. cbn [mbind outcome_bind].
  unfold sub, as_ubig. destruct (Z.lt_ge_cases (atom_val a) (atom_val b)) as [Hlt|Hge]; [left|right]; (split; [done|]).
  - rewrite (proj2 (Z.ltb_lt (atom_val a) (atom_val b))) by done.
    destruct a, b; [|done..]. cbn [atom_val] in Hlt. by rewrite (proj2 (Z.ltb_lt _ _)).
  - rewrite (proj2 (Z.ltb_ge (atom_val a) (atom_val b))) by done.
    destruct a as [d|ws], b as [e|vs]; [|by apply returns_ubig; [lia|]..].
    cbn [wf_atom atom_val] in *. rewrite DIRECT_MAX_val in *. rewrite (proj2 (Z.ltb_ge _ _)) by lia.
    destruct (wf_Atom_new (d - e)); [unfold is_u64, U64; lia|]. by apply returns_atom.
Qed.
Lemma mul_returns : x * y <> DIRECT_MAX -> returns (jet_mul subject) (x * y).
Proof.
  intros Hne. destruct vals_nonneg as [Hx Hy]. unfold jet_mul, subject, x, y in *. rewrite sample2_gate.
  cbn [mbind outcome_bind]. unfold as_ubig.
  destruct a as [d|ws] eqn:Ea, b as [e|vs]; [|by apply returns_ubig; [apply Z.mul_nonneg_nonneg|]..].
  cbn [wf_atom atom_val] in *. destruct (Z.ltb_spec (d * e) DIRECT_MAX) as [Hs|Hs].
  - destruct (wf_Atom_new (d * e)); [rewrite DIRECT_MAX_val in *; unfold is_u64, U64; nia|]. by apply returns_atom.
  - assert (He : d * e < 2 ^ 128) by (rewrite DIRECT_MAX_val in *; nia).
    destruct (raw_bytes_atom_spec (if d * e <? U64 - 1 then 8 else 16) (d * e)) as [Hw Hv];
      [by case_match|split; [lia|]|by apply returns_atom].
    destruct (Z.ltb_spec (d * e) (U64 - 1)); [|done]. unfold U64 in *. cbn. lia.
Qed.
(** A product of [DIRECT_MAX] is one of direct atoms, and the jet makes an indirect atom of it. *)
Lemma mul_unnormalized : x * y = DIRECT_MAX -> jet_mul subject = Ok (NAtom (Indirect [DIRECT_MAX])).
Proof.
  intros E. destruct vals_nonneg as [Hx Hy]. pose proof DIRECT_MAX_val as HM.
  assert (Hfac : forall u v, 0 <= u -> 0 <= v -> u * v = DIRECT_MAX -> u <= DIRECT_MAX).
  { intros u v Hu Hv Huv. rewrite HM in *. destruct (Z.eq_dec v 0) as [->|]; [by rewrite Z.mul_0_r in Huv|nia]. }
  pose proof (Hfac x y Hx Hy E) as Hlx. pose proof (Hfac y x Hy Hx ltac:(by rewrite Z.mul_comm)) as Hly.
  unfold jet_mul, subject. rewrite sample2_gate. cbn [mbind outcome_bind].
  assert (Ea : a = Direct x) by (apply atom_val_inj; [done|split; done|done]).
  assert (Eb : b = Direct y) by (apply atom_val_inj; [done|split; done|done]).
  rewrite Ea, Eb, E. reflexivity.
Qed.
Lemma mul_cases :
  (x * y = DIRECT_MAX /\ jet_mul subject = Ok (NAtom (Indirect [DIRECT_MAX])) /\ is_normalized (Indirect [DIRECT_MAX]) = false) \/
  (x * y <> DIRECT_MAX /\ returns (jet_mul subject) (x * y)).
Proof.
  destruct (Z.eq_dec (x * y) DIRECT_MAX); [left|right]; auto using mul_unnormalized, mul_returns.
Qed.
(** Division by zero bails out; the quotient and the remainder are atoms otherwise. *)
Lemma zero_divisor : b = Direct 0 <-> y = 0.
Proof.
  unfold y. split; [by intros ->|]. intros E. apply atom_val_inj; [done| |done]. cbn. rewrite DIRECT_MAX_val. lia.
Qed.
Lemma quotient_atoms :
  y <> 0 ->
  let q := match a, b with Direct d, Direct e => Direct (d / e) | _, _ => from_ubig (x / y) end in
  let r := match a, b with Direct d, Direct e => Direct (d mod e) | _, _ => from_ubig (x mod y) end in
  (wf_atom q /\ atom_val q = x / y) /\ wf_atom r /\ atom_val r = x mod y.
Proof.
  intros Hne. destruct vals_nonneg as [Hx Hy].
  assert (Hq : 0 <= x / y <= x) by (split; [by apply Z.div_pos; lia|]; destruct (Z.eq_dec x 0) as [->|];
    [by rewrite Z.div_0_l|apply Z.div_le_upper_bound; [lia|nia]]).
  assert (Hr : 0 <= x mod y < y) by (apply Z.mod_pos_bound; lia).
  destruct (from_ubig_spec (x / y)) as [Hw1 Hv1]; [lia|]. destruct (from_ubig_spec (x mod y)) as [Hw2 Hv2]; [lia|].
  unfold x, y in *. destruct a as [d|ws], b as [e|vs]; [|done..].
  cbn [wf_atom atom_val] in *. split_and!; try done; lia.
Qed.
Lemma div_returns :
  (y = 0 /\ jet_div subject = bail_exit /\ jet_mod subject = bail_exit /\ jet_dvr subject = bail_exit) \/
  (y <> 0 /\ returns (jet_div subject) (x / y) /\ returns (jet_mod subject) (x mod y) /\
   exists q r, jet_dvr subject = Ok (NCell (NAtom q) (NAtom r)) /\
     wf_atom q /\ wf_atom r /\ atom_val q = x / y /\ atom_val r = x mod y).
Proof.
  unfold jet_div, jet_mod, jet_dvr, subject. rewrite sample2_gate. cbn [mbind outcome_bind]. unfold as_ubig. fold x y.
  destruct (decide (b = Direct 0)) as [E|E]; [left; split; [by apply zero_divisor|done]|right].
  assert (Hne : y <> 0) by (rewrite <- zero_divisor; done). split; [done|].
  destruct (quotient_atoms Hne) as ([Hq Eq] & Hr & Er).
  split; [|split]; [by destruct a, b; apply returns_atom..|].
  destruct a, b; eexists _, _; (split; [reflexivity|]); done.
Qed.
Lemma extremum_returns : returns (jet_max subject) (Z.max x y) /\ returns (jet_min subject) (Z.min x y).
Proof.
  unfold jet_max, jet_min, subject. rewrite sample2_gate. cbn [mbind outcome_bind]. unfold as_ubig.
  destruct (choose_sizes_first _ _ _ _ a b (bit_size_lt a b Ha Hb) (bit_size_lt b a Hb Ha)) as [Hge Hle].
  assert (Emax : match a, b with
    | Direct x0, Direct y0 => if y0 <=? x0 then a else b
    | _, _ => if bit_size b <? bit_size a then a else if bit_size a <? bit_size b then b
              else if atom_val b <=? atom_val a then a else b
    end = if y <=? x then a else b) by (unfold x, y; by destruct a, b).
  assert (Emin : match a, b with
    | Direct x0, Direct y0 => if x0 <=? y0 then a else b
    | _, _ => if bit_size a <? bit_size b then a else if bit_size b <? bit_size a then b
              else if atom_val a <=? atom_val b then a else b
    end = if x <=? y then a else b) by (unfold x, y; by destruct a, b).
  rewrite Emax, Emin. split.
  - destruct (Z.leb_spec y x); apply returns_atom; try done; [fold x|fold y]; lia.
  - destruct (Z.leb_spec x y); apply returns_atom; try done; [fold x|fold y]; lia.
Qed.
End math.

(** * Slices of bits as numbers *)

Lemma pow2_pos n : 0 <= n -> 0 < 2 ^ n.
Proof. intros. by apply Z.pow_pos_nonneg. Qed.

Lemma bits_val_split k bs :
  bits_val (take k bs) = bits_val bs mod 2 ^ Z.of_nat k /\ bits_val (drop k bs) = bits_val bs / 2 ^ Z.of_nat k.
Proof.
  pose proof (pow2_pos (Z.of_nat k) ltac:(lia)).
  destruct (Nat.le_gt_cases k (length bs)) as [Hk|Hk].
  - pose proof (bits_val_bound (take k bs)) as Hb. pose proof (bits_val_nonneg (take k bs)) as Hn.
    rewrite length_take_le in Hb by done.
    assert (E : bits_val bs = bits_val (take k bs) + 2 ^ Z.of_nat k * bits_val (drop k bs)).
    { rewrite <- (take_drop k bs) at 1. by rewrite bits_val_app, length_take_le. }
    split; [apply Z.mod_unique with (bits_val (drop k bs))|apply Z.div_unique with (bits_val (take k bs))]; lia.
  - rewrite take_ge, drop_ge by lia. pose proof (bits_val_nonneg bs). pose proof (bits_val_bound bs).
    assert (2 ^ Z.of_nat (length bs) <= 2 ^ Z.of_nat k) by (apply Z.pow_le_mono_r; lia).
    by rewrite Z.mod_small, Z.div_small by lia.
Qed.

Lemma bit_range_spec source from n :
  0 <= from -> 0 <= n -> from + n <= Z.of_nat (length source) ->
  exists bits, bit_range source from n = Ok bits /\ Z.of_nat (length bits) = n /\
    bits_val bits = (bits_val source / 2 ^ from) mod 2 ^ n.
Proof.
  intros Hf Hn Hl. unfold bit_range. rewrite (proj2 (Z.leb_le 0 n)), (proj2 (Z.leb_le (from + n) _)) by done.
  cbn [andb]. eexists. split; [reflexivity|]. rewrite length_take, length_drop. split; [lia|].
  rewrite (proj1 (bits_val_split _ _)), (proj2 (bits_val_split _ _)), !Z2Nat.id by done. done.
Qed.

Lemma copy_bits_spec dest to bits :
  0 <= to -> to + Z.of_nat (length bits) <= Z.of_nat (length dest) ->
  exists dest', copy_bits dest to bits = Ok dest' /\ length dest' = length dest /\
    bits_val dest' = bits_val dest mod 2 ^ to + 2 ^ to * bits_val bits +
      2 ^ (to + Z.of_nat (length bits)) * (bits_val dest / 2 ^ (to + Z.of_nat (length bits))).
Proof.
  intros Ht Hl. unfold copy_bits. rewrite (proj2 (Z.leb_le _ _)) by done. eexists. split; [reflexivity|].
  rewrite !length_app, length_drop, length_take_le by lia. split; [lia|].
  rewrite !bits_val_app, length_take_le by lia. rewrite (proj1 (bits_val_split _ _)), (proj2 (bits_val_split _ _)).
  rewrite Nat2Z.inj_add, !Z2Nat.id by done. rewrite (Z.pow_add_r 2 to) by lia. ring.
Qed.
(** Copying above everything that is set adds. *)
Lemma copy_bits_add dest to bits :
  0 <= to -> to + Z.of_nat (length bits) <= Z.of_nat (length dest) -> bits_val dest < 2 ^ to ->
  exists dest', copy_bits dest to bits = Ok dest' /\ length dest' = length dest /\
    bits_val dest' = bits_val dest + 2 ^ to * bits_val bits.
Proof.
  intros Ht Hl Hlow. destruct (copy_bits_spec dest to bits Ht Hl) as (d & -> & Hd & Hv). exists d. split_and!; try done.
  pose proof (bits_val_nonneg dest). rewrite Hv, Z.mod_small, Z.div_small; [ring| |done]. split; [done|].
  eapply Z.lt_le_trans; [exact Hlow|]. apply Z.pow_le_mono_r; lia.
Qed.

Lemma new_bits_spec w : 0 <= w -> Z.of_nat (length (new_bits w)) = 64 * w /\ bits_val (new_bits w) = 0.
Proof.
  intros Hw. unfold new_bits. rewrite length_replicate, bits_val_replicate_false. lia.
Qed.
(** A buffer of at least one word becomes the atom of its value. *)
Lemma buffer_returns bits w v :
  Z.of_nat (length bits) = 64 * w -> 0 < w -> bits_val bits = v -> returns (bits_atom bits) v.
Proof. intros Hl Hw <-. apply bits_atom_spec with (Z.to_nat w); lia. Qed.

(** * Checked sizes *)

Definition fits (n : Z) : Prop := n <= MAX_BIT_LENGTH.
Lemma MAX_U64 : MAX_BIT_LENGTH < U64.
Proof. reflexivity. Qed.

Lemma checked_left_shift_spec bloq a :
  0 <= bloq < 64 -> is_u64 a ->
  (fits (a * 2 ^ bloq) /\ checked_left_shift bloq a = Ok (a * 2 ^ bloq)) \/
  (~ fits (a * 2 ^ bloq) /\ checked_left_shift bloq a = bail_fail).
Proof.
  intros Hb Ha. unfold checked_left_shift, fits. rewrite Z.shiftl_mul_pow2, Z.shiftr_div_pow2 by lia.
  pose proof (pow2_pos bloq ltac:(lia)) as Hp. pose proof MAX_U64 as HM. unfold is_u64 in Ha.
  assert (Hn : 0 <= a * 2 ^ bloq) by (apply Z.mul_nonneg_nonneg; lia).
  destruct (Z.lt_ge_cases (a * 2 ^ bloq) U64) as [Hlt|Hge].
  - rewrite wrap64_small, Z.div_mul by (unfold is_u64; lia). rewrite Z.ltb_irrefl. cbn [orb].
    destruct (Z.ltb_spec MAX_BIT_LENGTH (a * 2 ^ bloq)); [right|left]; (split; [lia|done]).
  - right. split; [lia|]. rewrite (proj2 (Z.ltb_lt _ a)); [done|].
    apply Z.div_lt_upper_bound; [done|]. pose proof (wrap64_range (a * 2 ^ bloq)) as Hw. unfold is_u64 in Hw. lia.
Qed.
Lemma checked_add_spec a b :
  (fits (a + b) /\ checked_add a b = Ok (a + b)) \/ (~ fits (a + b) /\ checked_add a b = bail_fail).
Proof.
  unfold checked_add, fits. pose proof MAX_U64.
  destruct (Z.leb_spec (a + b) MAX_BIT_LENGTH), (Z.ltb_spec (a + b) U64); cbn [andb]; [left|lia|right..]; (split; [lia|done]).
Qed.
(** Words that hold [n] bits *)
Definition words_for (n : Z) : Z := (n + 63) / 64.
Lemma words_for_bound n : 0 <= n -> n <= 64 * words_for n /\ 64 * words_for n <= n + 63 /\ 0 <= words_for n /\ (0 < n -> 0 < words_for n).
Proof.
  intros Hn. unfold words_for. pose proof (Z.div_mod (n + 63) 64). pose proof (Z.mod_pos_bound (n + 63) 64). lia.
Qed.
Lemma bits_to_word_spec n :
  (fits (n + 63) /\ bits_to_word n = Ok (words_for n)) \/ (~ fits (n + 63) /\ bits_to_word n = bail_fail).
Proof.
  unfold bits_to_word. destruct (checked_add_spec n 63) as [[H ->]|[H ->]]; [left|right]; (split; [done|]); [|done].
  cbn [mbind outcome_bind]. by rewrite Z.shiftr_div_pow2.
Qed.
Lemma bite_to_word_spec bloq n :
  0 <= bloq < 64 -> is_u64 n ->
  (fits (n * 2 ^ bloq + 63) /\ bite_to_word bloq n = Ok (words_for (n * 2 ^ bloq))) \/
  (~ fits (n * 2 ^ bloq + 63) /\ bite_to_word bloq n = bail_fail).
Proof.
  intros Hb Hn. unfold bite_to_word. destruct (checked_left_shift_spec bloq n Hb Hn) as [[H ->]|[H ->]].
  - cbn [mbind outcome_bind]. apply bits_to_word_spec.
  - right. split; [unfold fits in *; lia|done].
Qed.

(** [chop] above everything that is set adds a piece of the source. *)
Lemma chop_spec bloq from step to dest source :
  0 <= bloq < 64 -> is_u64 from -> is_u64 step -> is_u64 to ->
  let from_b := from * 2 ^ bloq in let step_b := step * 2 ^ bloq in let to_b := to * 2 ^ bloq in
  let len := Z.of_nat (length source) in
  (from_b < len -> to_b + Z.min step_b (len - from_b) <= Z.of_nat (length dest)) -> bits_val dest < 2 ^ to_b ->
  (fits to_b /\ fits (from_b + step_b) /\ exists dest', chop bloq from step to dest source = Ok dest' /\
     length dest' = length dest /\
     bits_val dest' = bits_val dest + 2 ^ to_b * ((bits_val source / 2 ^ from_b) mod 2 ^ step_b)) \/
  (~ (fits to_b /\ fits (from_b + step_b)) /\ chop bloq from step to dest source = bail_fail).
Proof.
  intros Hb Hf Hs Ht from_b step_b to_b len Hroom Hlow.
  pose proof (pow2_pos bloq ltac:(lia)) as Hp. unfold chop, is_u64 in *.
  assert (Hfb : 0 <= from_b) by (unfold from_b; nia). assert (Hsb : 0 <= step_b) by (unfold step_b; nia).
  assert (Htb : 0 <= to_b) by (unfold to_b; nia).
  destruct (checked_left_shift_spec bloq from Hb Hf) as [[F1 ->]|[F1 ->]]; [|right; split; [unfold fits in *; fold from_b in F1; lia|done]].
  cbn [mbind outcome_bind].
  destruct (checked_left_shift_spec bloq to Hb Ht) as [[F2 ->]|[F2 ->]]; [|right; split; [unfold fits in *; fold to_b in F2; lia|done]].
  cbn [mbind outcome_bind].
  destruct (checked_left_shift_spec bloq step Hb Hs) as [[F3 ->]|[F3 ->]]; [|right; split; [unfold fits in *; fold step_b in F3; lia|done]].
  cbn [mbind outcome_bind]. fold from_b to_b step_b in F1, F2, F3 |- *.
  destruct (checked_add_spec from_b step_b) as [[F4 ->]|[F4 ->]]; [|right; split; [lia || (unfold fits in *; lia)|done]].
  cbn [mbind outcome_bind]. left. split; [done|]. split; [done|].
  pose proof (bits_val_bound source) as Hsrc. pose proof (bits_val_nonneg source) as Hsrc0. fold len in Hsrc |- *.
  destruct (Z.leb_spec len from_b) as [Hle|Hgt].
  { exists dest. split_and!; try done. rewrite Z.div_small, Z.mod_0_l; [lia|apply Z.pow_nonzero; lia|].
    split; [done|]. eapply Z.lt_le_trans; [exact Hsrc|]. apply Z.pow_le_mono_r; lia. }
  specialize (Hroom Hgt). set (n := if len <? from_b + step_b then step_b - (from_b + step_b - len) else step_b).
  assert (Hn : n = Z.min step_b (len - from_b)) by (unfold n; destruct (Z.ltb_spec len (from_b + step_b)); lia).
  destruct (bit_range_spec source from_b n) as (bits & -> & Hlb & Hvb); [lia|lia|fold len; lia|].
  cbn [mbind outcome_bind]. destruct (copy_bits_add dest to_b bits) as (d & -> & Hd & Hv); [lia|lia|done|].
  exists d. split_and!; try done. rewrite Hv, Hvb. do 2 f_equal.
  destruct (Z.le_ge_cases step_b (len - from_b)) as [Hm|Hm]; [by rewrite Hn, Z.min_l by lia|].
  rewrite Hn, Z.min_r by lia.
  assert (0 <= bits_val source / 2 ^ from_b < 2 ^ (len - from_b)).
  { split; [apply Z.div_pos; [done|by apply pow2_pos]|]. apply Z.div_lt_upper_bound; [by apply pow2_pos|].
    rewrite <- Z.pow_add_r by lia. by replace (from_b + (len - from_b)) with len by lia. }
  rewrite !Z.mod_small; [done| |done]. split; [lia|].
  eapply Z.lt_le_trans; [apply H|]. apply Z.pow_le_mono_r; lia.
Qed.

(** * The formula that [jet_dec] replaces

    The arm counts up from zero until the successor of the counter is the sample. *)

Definition dec_loop : noun :=
  T [D 6; T [D 5; T [D 0; D 30]; D 4; D 0; D 6]; T [D 0; D 6]; D 9; D 2; T [D 0; D 2]; T [D 4; D 0; D 6]; D 0; D 7].
Definition dec_battery : noun := T [D 8; T [D 1; D 0]; D 8; T [D 1; dec_loop]; D 9; D 2; D 0; D 1].

Lemma dec_loop_reduces n ctx k i :
  n = (i + N.of_nat k + 1)%N ->
  mnock (MCell (den dec_loop) (MCell (MAtom i) (MCell (den dec_battery) (MCell (MAtom n) ctx)))) (den dec_loop) (MAtom (n - 1)).
Proof.
  revert i. induction k as [|k IH]; intros i Hn.
  - apply m_6_zero.
    + replace (MAtom 0) with (MAtom (if decide (MAtom n = MAtom (i + 1)) then 0 else 1)).
      * apply m_5; [by apply m_0|]. by apply m_4, m_0.
      * rewrite decide_True; [done|]. f_equal. lia.
    + apply m_0. cbn. do 2 f_equal. lia.
  - apply m_6_one.
    + replace (MAtom 1) with (MAtom (if decide (MAtom n = MAtom (i + 1)) then 0 else 1)).
      * apply m_5; [by apply m_0|]. by apply m_4, m_0.
      * rewrite decide_False; [done|]. intros [= E]. lia.
    + apply m_9 with (MCell (den dec_loop) (MCell (MAtom (i + 1)) (MCell (den dec_battery) (MCell (MAtom n) ctx)))) (den dec_loop);
        [|reflexivity|apply (IH (i + 1)%N); lia].
      apply m_cons; [by apply m_0|]. apply m_cons; [by apply m_4, m_0|by apply m_0].
Qed.

Lemma dec_reduces n ctx :
  (0 < n)%N -> mnock (MCell (den dec_battery) (MCell (MAtom n) ctx)) (den dec_battery) (MAtom (n - 1)).
Proof.
  intros Hn. apply m_8 with (MAtom 0); [apply m_1|]. apply m_8 with (den dec_loop); [apply m_1|].
  eapply m_9; [by apply m_0|reflexivity|]. apply dec_loop_reduces with (N.to_nat (n - 1)). lia.
Qed.

(** * Properties *)

(** C5: The jets of math.rs, called on a core whose sample is a pair of atoms (one
    atom for [jet_dec]), compute on the representation what Hoon's arithmetic
    computes on numbers, with canonical results: sum; difference, or an exit below
    zero; product, except that the product [DIRECT_MAX] comes back as an indirect atom,
    which is not normalized; quotient and remainder, or an exit for
    a zero divisor; the four comparisons; maximum and minimum; decrement, or an exit
    for zero. *)
Theorem math_jets bat ctx a b :
  wf_atom a -> wf_atom b ->
  let s := gate bat (NCell (NAtom a) (NAtom b)) ctx in let x := atom_val a in let y := atom_val b in
  returns (jet_add s) (x + y) /\
  ((x < y /\ jet_sub s = bail_exit) \/ (y <= x /\ returns (jet_sub s) (x - y))) /\
  ((x * y = DIRECT_MAX /\ jet_mul s = Ok (NAtom (Indirect [DIRECT_MAX])) /\ is_normalized (Indirect [DIRECT_MAX]) = false) \/
   (x * y <> DIRECT_MAX /\ returns (jet_mul s) (x * y))) /\
  ((y = 0 /\ jet_div s = bail_exit /\ jet_mod s = bail_exit /\ jet_dvr s = bail_exit) \/
   (y <> 0 /\ returns (jet_div s) (x / y) /\ returns (jet_mod s) (x mod y) /\
    exists q r, jet_dvr s = Ok (NCell (NAtom q) (NAtom r)) /\
      wf_atom q /\ wf_atom r /\ atom_val q = x / y /\ atom_val r = x mod y)) /\
  (jet_gte s = Ok (loob (y <=? x)) /\ jet_gth s = Ok (loob (y <? x)) /\
   jet_lte s = Ok (loob (x <=? y)) /\ jet_lth s = Ok (loob (x <? y))) /\
  returns (jet_max s) (Z.max x y) /\ returns (jet_min s) (Z.min x y) /\
  ((x = 0 /\ jet_dec (gate bat (NAtom a) ctx) = bail_exit) \/
   (0 < x /\ returns (jet_dec (gate bat (NAtom a) ctx)) (x - 1))).
Proof.
  intros Ha Hb s x y. destruct (compare_returns a b Ha Hb) as (E1 & E2 & E3 & E4).
  destruct (extremum_returns bat ctx a b Ha Hb) as [Hmax Hmin].
  split_and!; try done; [by apply add_returns|by apply sub_returns|by apply mul_cases|by apply div_returns|..
    |by apply dec_returns];
    unfold jet_gte, jet_gth, jet_lte, jet_lth, lth, s; rewrite sample2_gate; cbn [mbind outcome_bind];
    by rewrite ?E1, ?E2, ?E3, ?E4.
Qed.

Lemma math_jets_witness :
  returns (jet_sub (gate (D 0) (NCell (NAtom (Indirect [0; 1])) (NAtom (Direct 1))) (D 0))) (2 ^ 64 - 1).
Proof.
  assert (Ha : wf_atom (Indirect [0; 1])) by (repeat split; repeat constructor; vm_compute; congruence).
  assert (Hb : wf_atom (Direct 1)) by (split; vm_compute; congruence).
  destruct (math_jets (D 0) (D 0) _ _ Ha Hb) as (_ & [[Hlt _]|[_ Hs]] & _); [discriminate Hlt|exact Hs].
Defined.

(** [jet_dec] agrees with the formula it replaces: on a core of the decrement
    gate with a positive sample, the arm of the gate reduces in Nock to the noun that
    the jet returns. *)
Theorem dec_jet_agrees a ctx :
  wf_atom a -> 0 < atom_val a ->
  let core := gate dec_battery (NAtom a) ctx in
  exists r, jet_dec core = Ok r /\ wf_noun r /\ mnock (den core) (den dec_battery) (den r).
Proof.
  intros Ha Hpos core. destruct (dec_returns dec_battery ctx a Ha) as [[E _]|[_ (r & E & Hw & Hv)]]; [lia|].
  exists (NAtom r). split; [done|]. split; [done|]. unfold core, gate. cbn [den]. rewrite Hv.
  replace (Z.to_N (atom_val a - 1)) with (Z.to_N (atom_val a) - 1)%N by lia. apply dec_reduces. lia.
Qed.

Lemma dec_jet_agrees_witness :
  exists r, jet_dec (gate dec_battery (D 3) (D 0)) = Ok r /\ mnock (den (gate dec_battery (D 3) (D 0))) (den dec_battery) (den r).
Proof.
  destruct (dec_jet_agrees (Direct 3) (D 0)) as (r & E & _ & H); [split; vm_compute; congruence|reflexivity|].
  exists r. split; [exact E|exact H].
Defined.
