(* ===== verification/JetsBitsTheorems.v ===== *)
(** The jets of bits.rs and tree.rs: shifts, cuts, measures, concatenation, logic,
    taking apart and putting together, and the composition of axes. *)
From stdpp Require Import base option list numbers.
From Stdlib Require Import ZArith Lia.
From S2P Require Import Prelude Noun Interp Jets JetsTheorems.
Local Open Scope Z_scope.

(** A jet returns the value, or bails out for its size, which it only does when the
    sizes involved are not bounded. *)
Definition computes (bounded : Prop) (r : jet_result noun) (v : Z) : Prop :=
  returns r v \/ (r = bail_fail /\ ~ bounded).
Definition small (n : Z) : Prop := n <= 2 ^ 45.
(** Atoms in memory: a pointer has 64 bits. *)
Definition sized (a : atom) : Prop := bit_size a < 2 ^ 63.

Lemma small_fits n : small n -> fits (n + 63).
Proof. unfold small, fits, MAX_BIT_LENGTH. lia. Qed.

(** * Measuring *)

(** [n] divided by [m], rounded up *)
Definition ceil (n m : Z) : Z := (n + (m - 1)) / m.
Lemma ceil_bound n m : 0 < m -> 0 <= n -> n <= ceil n m * m < n + m /\ 0 <= ceil n m.
Proof.
  intros Hm Hn. unfold ceil. pose proof (Z.div_mod (n + (m - 1)) m). pose proof (Z.mod_pos_bound (n + (m - 1)) m Hm).
  assert (0 <= (n + (m - 1)) / m) by (apply Z.div_pos; lia). lia.
Qed.
Lemma ceil_ceil n m : 0 < m -> ceil (words_for n) m = ceil n (64 * m).
Proof.
  intros Hm. unfold ceil, words_for. rewrite <- Z.div_div by lia. f_equal.
  replace (n + (64 * m - 1)) with (n + 63 + (m - 1) * 64) by lia. by rewrite Z.div_add.
Qed.

Lemma atom_size_words a : wf_atom a -> a <> Direct 0 -> atom_size a = words_for (bit_size a).
Proof.
  intros Hw Hne. pose proof (wf_atom_val a Hw). rewrite bit_size_len by done. unfold words_for.
  assert (Hb : forall m, 0 < m -> 2 ^ (64 * (m - 1)) <= atom_val a < 2 ^ (64 * m) -> m = (bit_len (atom_val a) + 63) / 64).
  { intros m Hm [H1 H2]. apply Z.div_unique with (bit_len (atom_val a) + 63 - 64 * m); [|lia].
    assert (bit_len (atom_val a) <= 64 * m) by (apply bit_len_bound; lia).
    assert (~ bit_len (atom_val a) <= 64 * (m - 1)) by (rewrite bit_len_bound; lia). lia. }
  destruct a as [d|ws].
  - cbn [atom_size wf_atom atom_val] in *. apply Hb; [lia|]. rewrite DIRECT_MAX_val in *. cbn.
    assert (d <> 0) by (intros ->; done). lia.
  - apply wf_indirect in Hw as (Hf & Hnil & Hlow & _). cbn [atom_size atom_val] in *.
    assert (0 < length ws)%nat by (destruct ws; [done|simpl; lia]).
    apply Hb; [lia|]. pose proof (words_val_bound ws Hf). unfold U64 in *. rewrite <- !Z.pow_mul_r in * by lia.
    by replace (Z.of_nat (length ws) - 1) with (Z.of_nat (length ws - 1)) by lia.
Qed.

Lemma met_spec bloq a : 0 <= bloq -> wf_atom a -> met bloq a = ceil (bit_size a) (2 ^ bloq).
Proof.
  intros Hb Hw. unfold met. pose proof (pow2_pos bloq Hb). case_decide as E.
  { subst a. unfold ceil. change (bit_size (Direct 0)) with 0. symmetry. apply Z.div_small. lia. }
  destruct (Z.ltb_spec bloq 6).
  - rewrite Z.shiftr_div_pow2, Z.shiftl_mul_pow2, Z.mul_1_l by lia. done.
  - rewrite Z.shiftr_div_pow2, Z.shiftl_mul_pow2, Z.mul_1_l, atom_size_words by (lia || done).
    change ((words_for (bit_size a) + (2 ^ (bloq - 6) - 1)) / 2 ^ (bloq - 6)) with (ceil (words_for (bit_size a)) (2 ^ (bloq - 6))).
    rewrite ceil_ceil by (apply pow2_pos; lia). f_equal. change 64 with (2 ^ 6). rewrite <- Z.pow_add_r by lia. f_equal. lia.
Qed.

(** What a measured atom satisfies *)
Record measured (bloq : Z) (a : atom) : Prop := {
  me_B : 0 < 2 ^ bloq;
  me_val : 0 <= atom_val a < 2 ^ (met bloq a * 2 ^ bloq);
  me_met : is_u64 (met bloq a);
  me_bits : 0 <= bit_size a <= met bloq a * 2 ^ bloq;
  me_top : met bloq a * 2 ^ bloq < bit_size a + 2 ^ bloq;
  me_zero : met bloq a = 0 <-> atom_val a = 0;
  me_len : Z.of_nat (length (as_bitslice a)) = 64 * atom_size a;
}.
Lemma measure bloq a : 0 <= bloq -> wf_atom a -> sized a -> measured bloq a.
Proof.
  intros Hb Hw Hs. pose proof (pow2_pos bloq Hb) as HB. pose proof (wf_atom_val a Hw) as Hv.
  pose proof (bit_size_len a Hw) as Hl. pose proof (bit_len_nonneg (atom_val a)) as Hn. unfold sized in Hs.
  destruct (ceil_bound (bit_size a) (2 ^ bloq)) as [Hc Hc0]; [done|lia|]. rewrite <- met_spec in Hc, Hc0 by done.
  assert (Hm : met bloq a < U64).
  { unfold U64. destruct (Z.lt_ge_cases (met bloq a) (2 ^ 64)); [done|]. rewrite Hl in *. nia. }
  split; try done; try lia.
  - split; [done|]. apply bit_len_bound; [done| |lia]. nia.
  - split; intros E.
    + rewrite E in Hc. assert (bit_len (atom_val a) <= 0) as H0%bit_len_bound by lia; [|done|done]. cbn in H0. lia.
    + rewrite met_spec, Hl, E by done. unfold ceil. cbn [bit_len Z.eqb]. apply Z.div_small. lia.
  - apply as_bitslice_length.
Qed.

(** Room for an atom moved by a whole number of blocks *)
Lemma room bloq n t :
  0 <= bloq -> 0 < n -> (2 ^ bloq | t) -> 0 <= n + t ->
  t + Z.min (ceil n (2 ^ bloq) * 2 ^ bloq) (64 * words_for n) <= 64 * words_for (n + t).
Proof.
  intros Hb Hn [k ->] Ht. pose proof (pow2_pos bloq Hb) as HB. set (B := 2 ^ bloq) in *.
  destruct (ceil_bound n B HB) as [Hc Hc0]; [lia|].
  destruct (words_for_bound n) as (Hw1 & Hw2 & Hw3 & _); [lia|].
  destruct (words_for_bound (n + k * B)) as (Hv1 & Hv2 & Hv3 & _); [lia|].
  set (w := words_for (n + k * B)) in *. set (len := ceil n B) in *. set (size := words_for n) in *.
  destruct (Z.le_gt_cases bloq 6) as [H6|H6].
  - assert (E : 64 = B * 2 ^ (6 - bloq)) by (unfold B; rewrite <- Z.pow_add_r by lia; by replace (bloq + (6 - bloq)) with 6 by lia).
    set (c := 2 ^ (6 - bloq)) in *. transitivity (k * B + len * B); [lia|].
    destruct (Z.le_gt_cases (k + len) (c * w)) as [|Hgt]; [rewrite E; nia|].
    assert (B * (c * w) <= B * (k + len - 1)) by (apply Z.mul_le_mono_nonneg_l; lia). nia.
  - assert (E : B = 64 * 2 ^ (bloq - 6)) by (unfold B; change 64 with (2 ^ 6); rewrite <- Z.pow_add_r by lia; f_equal; lia).
    set (c := 2 ^ (bloq - 6)) in *. transitivity (k * B + 64 * size); [lia|].
    assert (Hk : k * B = 64 * (k * c)) by (rewrite E; ring). rewrite Hk in *.
    destruct (Z.le_gt_cases (k * c + size) w) as [|Hgt]; [lia|]. lia.
Qed.

(** * Samples *)

Lemma jet_slot_2 h t : jet_slot (NCell h t) 2 = Ok h.
Proof. reflexivity. Qed.
Lemma jet_slot_3 h t : jet_slot (NCell h t) 3 = Ok t.
Proof. reflexivity. Qed.
Lemma jet_slot_6 h x y : jet_slot (NCell h (NCell x y)) 6 = Ok x.
Proof. reflexivity. Qed.
Lemma jet_slot_7 h x y : jet_slot (NCell h (NCell x y)) 7 = Ok y.
Proof. reflexivity. Qed.
Lemma jet_slot_12 h x y z : jet_slot (NCell h (NCell (NCell x y) z)) 12 = Ok x.
Proof. reflexivity. Qed.
Lemma jet_slot_13 h x y z : jet_slot (NCell h (NCell (NCell x y) z)) 13 = Ok y.
Proof. reflexivity. Qed.
Lemma as_direct_D n : as_direct (D n) = Ok n.
Proof. reflexivity. Qed.
Ltac slots :=
  unfold gate;
  repeat (rewrite ?jet_slot_2, ?jet_slot_3, ?jet_slot_6, ?jet_slot_7, ?jet_slot_12, ?jet_slot_13, ?as_direct_D;
          progress cbn [mbind outcome_bind as_atom as_direct]).
Lemma bloq_direct n : 0 <= n < 47 -> bloq (D n) = Ok n.
Proof. intros. unfold bloq, D. cbn [as_direct mbind outcome_bind]. rewrite (proj2 (Z.leb_gt 47 n)) by lia. done. Qed.

(** * Shifts and cuts *)

(** A size check that fails refutes the bound. *)
Ltac size_fail := right; split; [done|unfold fits, small, MAX_BIT_LENGTH in *; lia].

Lemma u64_0 : is_u64 0.
Proof. done. Qed.
Lemma mod_mul_small x n : 0 <= x < 2 ^ n -> (x / 2 ^ (0 * 1)) mod 2 ^ n = x.
Proof. intros. rewrite Z.mul_0_l, Z.pow_0_r, Z.div_1_r. by apply Z.mod_small. Qed.

(** One piece of an atom in a fresh buffer *)
Lemma chop_computes (bounded : Prop) bloq from step to w a v :
  0 <= bloq < 47 -> is_u64 from -> is_u64 step -> is_u64 to -> wf_atom a -> 0 < w ->
  let from_b := from * 2 ^ bloq in let step_b := step * 2 ^ bloq in let to_b := to * 2 ^ bloq in
  (from_b < 64 * atom_size a -> to_b + Z.min step_b (64 * atom_size a - from_b) <= 64 * w) ->
  (bounded -> fits to_b /\ fits (from_b + step_b)) ->
  2 ^ to_b * ((atom_val a / 2 ^ from_b) mod 2 ^ step_b) = v ->
  computes bounded (dest ← chop bloq from step to (new_bits w) (as_bitslice a); bits_atom dest) v.
Proof.
  intros Hb Hf Hs Ht Ha Hw from_b step_b to_b Hroom Hbd <-.
  destruct (new_bits_spec w) as [Hnl Hnv]; [lia|]. rewrite <- as_bitslice_length in Hroom.
  destruct (chop_spec bloq from step to (new_bits w) (as_bitslice a)) as [(_ & _ & d & -> & Hd & Hdv)|[F ->]];
    [lia|done|done|done|by rewrite Hnl|rewrite Hnv| |].
  - apply pow2_pos. pose proof (pow2_pos bloq). unfold is_u64 in Ht. nia.
  - left. cbn [mbind outcome_bind]. apply buffer_returns with w; [by rewrite Hd, Hnl|done|].
    rewrite Hdv, Hnv, slice_val by done. fold from_b step_b to_b. lia.
  - right. split; [done|]. intros H. by apply F, Hbd.
Qed.

Section shifts.
Context (bloq step : Z) (a : atom).
Context (Hb : 0 <= bloq < 47) (Hs : is_u64 step) (Hw : wf_atom a) (Hsz : sized a).
Let B := 2 ^ bloq.
Let v := atom_val a.

Lemma step_pos : 0 <= step * B.
Proof. unfold B. pose proof (pow2_pos bloq ltac:(lia)). unfold is_u64 in Hs. nia. Qed.

Lemma lsh_computes :
  computes (small (bit_size a) /\ small (step * B) /\ small B) (lsh bloq step a) (v * 2 ^ (step * B)).
Proof.
  pose proof (measure bloq a ltac:(lia) Hw Hsz) as [HB Hv Hm Hbits Htop Hz Hlen]. fold B in HB, Hv, Hbits, Htop. fold v in Hv, Hz.
  pose proof step_pos as Hst. unfold lsh. destruct (Z.eqb_spec (met bloq a) 0) as [E|E].
  { left. apply Hz in E. rewrite E, Z.mul_0_l. by apply returns_direct. }
  destruct (checked_left_shift_spec bloq step ltac:(lia) Hs) as [[F1 ->]|[F1 ->]]; [|size_fail].
  cbn [mbind outcome_bind]. fold B in F1 |- *.
  destruct (checked_add_spec (bit_size a) (step * B)) as [[F2 ->]|[F2 ->]]; [|size_fail].
  cbn [mbind outcome_bind].
  destruct (bits_to_word_spec (bit_size a + step * B)) as [[F3 ->]|[F3 ->]]; [|size_fail].
  cbn [mbind outcome_bind]. set (w := words_for (bit_size a + step * B)).
  assert (Hn : 0 < bit_size a) by nia.
  destruct (words_for_bound (bit_size a + step * B)) as (Hw1 & _ & Hw2 & Hw3); [lia|]. fold w in Hw1, Hw2, Hw3.
  apply chop_computes; fold B; [done|done|done|done|done|lia| | |].
  - intros _. rewrite Z.mul_0_l, Z.sub_0_r, atom_size_words by (done || intros ->; done).
    rewrite met_spec by (lia || done). apply room; [lia|done|exists step; lia|lia].
  - unfold fits, small, MAX_BIT_LENGTH. lia.
  - rewrite Z.mul_0_l, Z.pow_0_r, Z.div_1_r, Z.mod_small by done. unfold v. lia.
Qed.

Lemma rsh_computes bat ctx bite_noun :
  bite bite_noun = Ok (bloq, step) ->
  computes (small (bit_size a) /\ small B)
    (jet_rsh (gate bat (NCell bite_noun (NAtom a)) ctx)) (v / 2 ^ (step * B)).
Proof.
  intros Hbite. pose proof (measure bloq a ltac:(lia) Hw Hsz) as [HB Hv Hm Hbits Htop Hz Hlen]. fold B in HB, Hv, Hbits, Htop. fold v in Hv, Hz.
  pose proof step_pos as Hst. unfold jet_rsh. slots. rewrite Hbite. slots.
  destruct (Z.leb_spec (met bloq a) step) as [Hle|Hgt].
  { left. rewrite Z.div_small; [by apply returns_direct|]. split; [lia|].
    eapply Z.lt_le_trans; [apply Hv|]. apply Z.pow_le_mono_r; [lia|nia]. }
  unfold is_u64 in Hs.
  assert (Hk : step * B + B <= met bloq a * B) by nia.
  assert (Hne : a <> Direct 0).
  { intros E0. assert (Ev : v = 0) by (unfold v; by rewrite E0). apply Hz in Ev. lia. }
  destruct (checked_left_shift_spec bloq step ltac:(lia) Hs) as [[F1 ->]|[F1 ->]]; [|fold B in F1; size_fail].
  cbn [mbind outcome_bind]. fold B in F1 |- *. unfold checked_sub. rewrite (proj2 (Z.leb_le _ _)) by lia.
  cbn [mbind outcome_bind].
  destruct (bits_to_word_spec (bit_size a - step * B)) as [[F3 ->]|[F3 ->]]; [|size_fail].
  cbn [mbind outcome_bind]. set (w := words_for (bit_size a - step * B)).
  destruct (words_for_bound (bit_size a - step * B)) as (Hw1 & _ & Hw2 & Hw3); [lia|]. fold w in Hw1, Hw2, Hw3.
  apply chop_computes; fold B; [done|done|unfold is_u64 in *; lia|done|done|lia| | |].
  - intros _. rewrite Z.mul_0_l, Z.add_0_l, atom_size_words by done.
    pose proof (room bloq (bit_size a) (- (step * B))) as Hr. rewrite <- met_spec in Hr by (lia || done). fold B in Hr.
    specialize (Hr ltac:(lia) ltac:(lia)). unfold w.
    replace (bit_size a - step * B) with (bit_size a + - (step * B)) by lia.
    assert (Hdv : (B | - (step * B))) by (exists (- step); lia). specialize (Hr Hdv ltac:(lia)).
    rewrite Z.mul_sub_distr_r. lia.
  - unfold fits, small, MAX_BIT_LENGTH. lia.
  - rewrite Z.mul_0_l, Z.pow_0_r. fold v. rewrite Z.mod_small; [lia|].
    split; [apply Z.div_pos; [lia|by apply pow2_pos]|]. apply Z.div_lt_upper_bound; [by apply pow2_pos|].
    rewrite <- Z.pow_add_r by nia. replace (step * B + (met bloq a - step) * B) with (met bloq a * B) by ring. apply Hv.
Qed.

Lemma end_computes bat ctx bite_noun :
  bite bite_noun = Ok (bloq, step) ->
  computes (small (step * B)) (jet_end (gate bat (NCell bite_noun (NAtom a)) ctx)) (v mod 2 ^ (step * B)).
Proof.
  intros Hbite. pose proof (measure bloq a ltac:(lia) Hw Hsz) as [HB Hv Hm Hbits Htop Hz Hlen]. fold B in HB, Hv, Hbits, Htop. fold v in Hv, Hz.
  pose proof step_pos as Hst. unfold jet_end. slots. rewrite Hbite. slots.
  destruct (Z.eqb_spec step 0) as [->|Hs0].
  { left. rewrite Z.mul_0_l, Z.mod_1_r. by apply returns_direct. }
  destruct (Z.leb_spec (met bloq a) step) as [Hle|Hgt].
  { left. apply returns_atom; [done|]. fold v. symmetry. apply Z.mod_small. split; [lia|].
    eapply Z.lt_le_trans; [apply Hv|]. apply Z.pow_le_mono_r; [lia|nia]. }
  destruct (bite_to_word_spec bloq step ltac:(lia) Hs) as [[F1 ->]|[F1 ->]]; [|fold B in F1; size_fail].
  cbn [mbind outcome_bind]. fold B in F1 |- *. set (w := words_for (step * B)).
  destruct (words_for_bound (step * B)) as (Hw1 & _ & Hw2 & Hw3); [lia|]. fold w in Hw1, Hw2, Hw3.
  assert (0 < step * B) by (unfold is_u64 in Hs; nia).
  apply chop_computes; fold B; [done|done|done|done|done|lia|lia|unfold fits, small, MAX_BIT_LENGTH; lia|].
  rewrite !Z.mul_0_l, !Z.pow_0_r, Z.div_1_r. fold v. lia.
Qed.

Lemma cut_computes bat ctx start :
  is_u64 start ->
  computes (small (start * B + step * B))
    (jet_cut (gate bat (NCell (D bloq) (NCell (NCell (D start) (D step)) (NAtom a))) ctx))
    ((v / 2 ^ (start * B)) mod 2 ^ (step * B)).
Proof.
  intros Hst0. pose proof (measure bloq a ltac:(lia) Hw Hsz) as [HB Hv Hm Hbits Htop Hz Hlen]. fold B in HB, Hv, Hbits, Htop. fold v in Hv, Hz.
  pose proof step_pos as Hst. unfold jet_cut. slots. rewrite bloq_direct by done. slots.
  assert (0 <= start * B) by (unfold is_u64 in Hst0; nia).
  destruct (Z.eqb_spec step 0) as [->|Hs0].
  { left. rewrite Z.mul_0_l, Z.mod_1_r. by apply returns_direct. }
  destruct (bite_to_word_spec bloq step ltac:(lia) Hs) as [[F1 ->]|[F1 ->]]; [|fold B in F1; size_fail].
  cbn [mbind outcome_bind]. fold B in F1 |- *. set (w := words_for (step * B)).
  destruct (words_for_bound (step * B)) as (Hw1 & _ & Hw2 & Hw3); [lia|]. fold w in Hw1, Hw2, Hw3.
  assert (0 < step * B) by (unfold is_u64 in Hs; nia).
  apply chop_computes; fold B; [done|done|done|done|done|lia|lia|unfold fits, small, MAX_BIT_LENGTH; lia|].
  rewrite !Z.mul_0_l, !Z.pow_0_r. fold v. lia.
Qed.
End shifts.

Lemma met_returns bat ctx bloq a :
  0 <= bloq < 47 -> wf_atom a -> sized a ->
  returns (jet_met (gate bat (NCell (D bloq) (NAtom a)) ctx)) (ceil (bit_len (atom_val a)) (2 ^ bloq)).
Proof.
  intros Hb Hw Hs. destruct (measure bloq a ltac:(lia) Hw Hs) as [HB _ Hm Hbits Htop _ _].
  unfold jet_met. slots. rewrite bloq_direct by done. slots.
  rewrite <- bit_size_len, <- met_spec by (done || lia). apply returns_direct.
  rewrite DIRECT_MAX_val. unfold sized, is_u64 in *. nia.
Qed.

Lemma bex_returns bat ctx n : 0 <= n <= DIRECT_MAX -> returns (jet_bex (gate bat (D n) ctx)) (2 ^ n).
Proof.
  rewrite DIRECT_MAX_val. intros Hn. unfold jet_bex. slots. unfold bex. destruct (Z.ltb_spec n 63) as [Hs|Hs].
  - rewrite Z.shiftl_mul_pow2, Z.mul_1_l by lia. apply returns_direct. rewrite DIRECT_MAX_val.
    pose proof (pow2_pos n ltac:(lia)). assert (2 ^ n <= 2 ^ 62) by (apply Z.pow_le_mono_r; lia). lia.
  - set (w := Z.shiftr (n + 7) 3). assert (Hw : n < 64 * w /\ 0 < w).
    { unfold w. rewrite Z.shiftr_div_pow2 by lia. change (2 ^ 3) with 8.
      pose proof (Z.div_mod (n + 7) 8). pose proof (Z.mod_pos_bound (n + 7) 8). lia. }
    destruct (new_bits_spec w) as [Hnl Hnv]; [lia|].
    destruct (copy_bits_add (new_bits w) n [true]) as (d & -> & Hd & Hv); [lia|cbn [length]; lia|rewrite Hnv; apply pow2_pos; lia|].
    cbn [mbind outcome_bind]. apply buffer_returns with w; [by rewrite Hd|lia|]. rewrite Hv, Hnv. cbn [bits_val Z.b2z]. lia.
Qed.

(** * Logic *)

Lemma b2z_double_bits (op : bool -> bool -> bool) (zop : Z -> Z -> Z) :
  op false false = false -> (forall x y i, Z.testbit (zop x y) i = op (Z.testbit x i) (Z.testbit y i)) ->
  forall b c x y, zop (Z.b2z b + 2 * x) (Z.b2z c + 2 * y) = Z.b2z (op b c) + 2 * zop x y.
Proof.
  intros Hf Hop b c x y. apply Z.bits_inj'. intros i Hi. rewrite Hop.
  assert (Ht : forall e z, Z.testbit (Z.b2z e + 2 * z) i = if i =? 0 then e else Z.testbit z (i - 1)).
  { intros e z. destruct (Z.eqb_spec i 0) as [->|]; [by rewrite Z.add_b2z_double_bit0|].
    replace i with (Z.succ (i - 1)) at 1 by lia. rewrite Z.add_comm, Z.testbit_succ_r; [done|lia]. }
  rewrite !Ht. destruct (i =? 0); [done|by rewrite Hop].
Qed.
Lemma bits_val_zip (op : bool -> bool -> bool) (zop : Z -> Z -> Z) xs ys :
  op false false = false -> (forall x y i, Z.testbit (zop x y) i = op (Z.testbit x i) (Z.testbit y i)) ->
  length xs = length ys -> bits_val (zip_with op xs ys) = zop (bits_val xs) (bits_val ys).
Proof.
  intros Hf Hop. revert ys. induction xs as [|x xs IH]; intros [|y ys] Hl; try done.
  - cbn. apply Z.bits_inj'. intros i Hi. by rewrite Hop, Z.bits_0, Hf.
  - cbn [zip_with bits_val]. rewrite IH by (simpl in Hl; lia). symmetry. by apply b2z_double_bits.
Qed.

Lemma bits_op_returns (op : bool -> bool -> bool) (zop : Z -> Z -> Z) a b :
  op false false = false -> (forall x y i, Z.testbit (zop x y) i = op (Z.testbit x i) (Z.testbit y i)) ->
  wf_atom a -> wf_atom b -> returns (bits_op op a b) (zop (atom_val a) (atom_val b)).
Proof.
  intros Hf Hop Ha Hb. unfold bits_op. set (w := Z.max (atom_size a) (atom_size b)).
  assert (Hp : forall c, wf_atom c -> 0 < atom_size c).
  { intros [|ws]; [done|]. intros (_ & Hne & _). destruct ws; [done|cbn; lia]. }
  pose proof (Hp a Ha). pose proof (as_bitslice_length a) as La. pose proof (as_bitslice_length b) as Lb.
  destruct (new_bits_spec w) as [Hnl Hnv]; [lia|].
  destruct (copy_bits_add (new_bits w) 0 (as_bitslice a)) as (d & -> & Hd & Hv); [lia|lia|by rewrite Hnv|].
  cbn [mbind outcome_bind]. set (rhs := as_bitslice b ++ _).
  assert (Hr : length rhs = length d) by (unfold rhs; rewrite length_app, length_replicate; lia).
  apply buffer_returns with w; [rewrite length_zip_with_l_eq by done; lia|lia|].
  rewrite (bits_val_zip op zop) by done. rewrite Hv, Hnv, slice_val by done. f_equal; [lia|].
  unfold rhs. rewrite bits_val_app, bits_val_replicate_false, slice_val by done. lia.
Qed.

Lemma logic_returns bat ctx a b :
  wf_atom a -> wf_atom b -> let s := gate bat (NCell (NAtom a) (NAtom b)) ctx in
  returns (jet_con s) (Z.lor (atom_val a) (atom_val b)) /\ returns (jet_dis s) (Z.land (atom_val a) (atom_val b)) /\
  returns (jet_mix s) (Z.lxor (atom_val a) (atom_val b)).
Proof.
  intros Ha Hb s. unfold jet_con, jet_dis, jet_mix, s. rewrite sample2_gate. cbn [mbind outcome_bind].
  split_and!; apply bits_op_returns; auto using Z.lor_spec, Z.land_spec, Z.lxor_spec.
Qed.

(** * Concatenation *)

(** Pieces of [step] blocks one above the other *)
Fixpoint assemble (B : Z) (ps : list (Z * Z)) : Z :=
  match ps with
  | [] => 0
  | (step, v) :: ps => v mod 2 ^ (step * B) + 2 ^ (step * B) * assemble B ps
  end.
Definition total (ps : list (Z * Z)) : Z := foldr (fun p acc => p.1 + acc) 0 ps.

Fixpoint noun_list (ns : list noun) : noun := match ns with [] => D 0 | n :: ns => NCell n (noun_list ns) end.

Section assembling.
Context (piece : noun -> jet_result (Z * atom)) (measure : noun -> jet_result Z) (bloq : Z) (Hb : 0 <= bloq < 47).
Let B := 2 ^ bloq.

(** An item that is read as [step] blocks of an atom *)
Definition reads_as (n : noun) (p : Z * atom) : Prop :=
  measure n = Ok p.1 /\ piece n = Ok p /\ is_u64 p.1 /\ wf_atom p.2.
Definition values (ps : list (Z * atom)) : list (Z * Z) := (fun p => (p.1, atom_val p.2)) <$> ps.

Lemma total_nonneg ns ps : Forall2 reads_as ns ps -> 0 <= total (values ps).
Proof. induction 1 as [|n p ns ps (_ & _ & Hs & _) _ IH]; [done|]. cbn. unfold is_u64 in Hs. unfold total, values in IH. lia. Qed.

Lemma pieces_len_spec ns ps len :
  Forall2 reads_as ns ps -> 0 <= len ->
  (fits (len + total (values ps)) /\ pieces_len measure (noun_list ns) len = Ok (len + total (values ps))) \/
  (~ fits (len + total (values ps)) /\ pieces_len measure (noun_list ns) len = bail_fail) \/
  (ns = [] /\ pieces_len measure (noun_list ns) len = Ok len).
Proof.
  intros H. revert len. induction H as [|n p ns ps (Hm & _ & Hs & _) Hps IH]; intros len Hl; [by right; right|].
  cbn [noun_list pieces_len]. rewrite decide_False by done. rewrite Hm. cbn [mbind outcome_bind].
  pose proof (total_nonneg ns ps Hps) as Ht. unfold is_u64 in Hs.
  change (total (values (p :: ps))) with (p.1 + total (values ps)).
  destruct (checked_add_spec len p.1) as [[F ->]|[F ->]].
  - cbn [mbind outcome_bind]. replace (len + (p.1 + total (values ps))) with (len + p.1 + total (values ps)) by lia.
    destruct (IH (len + p.1) ltac:(lia)) as [[F' E]|[[F' E]|[-> E]]]; [by left|by right; left|].
    left. inversion Hps; subst. rewrite E. change (total (values [])) with 0. rewrite Z.add_0_r. done.
  - right; left. split; [unfold fits in *; lia|done].
Qed.

Lemma pieces_chop_spec ns ps pos dest :
  Forall2 reads_as ns ps -> 0 <= pos -> (pos + total (values ps)) * B <= Z.of_nat (length dest) ->
  fits ((pos + total (values ps)) * B) -> bits_val dest < 2 ^ (pos * B) ->
  exists dest', pieces_chop piece bloq (noun_list ns) pos dest = Ok dest' /\ length dest' = length dest /\
    bits_val dest' = bits_val dest + 2 ^ (pos * B) * assemble B (values ps).
Proof.
  pose proof (pow2_pos bloq ltac:(lia)) as HB. fold B in HB. pose proof MAX_U64 as HM.
  intros H. revert pos dest. induction H as [|n p ns ps (_ & Hp & Hs & Hw) Hps IH]; intros pos dest Hpos Hl Hf Hlow.
  { exists dest. cbn. split_and!; try done. lia. }
  cbn [noun_list pieces_chop]. rewrite decide_False by done. rewrite Hp. destruct p as [step a]. cbn [mbind outcome_bind fst snd] in *.
  pose proof (total_nonneg ns ps Hps) as Ht.
  change (total (values ((step, a) :: ps))) with (step + total (values ps)) in Hl, Hf.
  unfold is_u64, fits in *.
  destruct (chop_spec bloq 0 step pos dest (as_bitslice a)) as [(_ & _ & d & -> & Hd & Hv)|[F _]];
    [lia|done|done|unfold is_u64; nia|rewrite Z.mul_0_l; fold B; nia|done| |exfalso; apply F; fold B; unfold fits; nia].
  cbn [mbind outcome_bind]. fold B in Hv. rewrite Z.mul_0_l, Z.pow_0_r, Z.div_1_r, slice_val in Hv by done.
  unfold wrapping_add64. rewrite wrap64_small by (unfold is_u64; nia).
  assert (Hsb : 0 <= step * B) by nia. assert (Hpb : 0 <= pos * B) by nia.
  pose proof (Z.mod_pos_bound (atom_val a) (2 ^ (step * B)) (pow2_pos _ Hsb)) as Hmod.
  destruct (IH (pos + step) d) as (d' & -> & Hd' & Hv'); [lia|rewrite Hd; lia|by rewrite <- Z.add_assoc| |].
  - rewrite Hv, Z.mul_add_distr_r, Z.pow_add_r by lia. pose proof (pow2_pos (pos * B) Hpb). nia.
  - exists d'. split_and!; [done|by rewrite Hd', Hd|]. rewrite Hv', Hv.
    change (values ((step, a) :: ps)) with ((step, atom_val a) :: values ps). cbn [assemble].
    rewrite Z.mul_add_distr_r, Z.pow_add_r by lia. ring.
Qed.

Lemma assemble_zero ns ps : Forall2 reads_as ns ps -> total (values ps) = 0 -> assemble B (values ps) = 0.
Proof.
  induction 1 as [|n p ns ps (_ & _ & Hs & _) Hps IH]; [done|].
  pose proof (total_nonneg ns ps Hps). change (total (values (p :: ps))) with (p.1 + total (values ps)).
  unfold is_u64 in Hs. intros E. change (values (p :: ps)) with ((p.1, atom_val p.2) :: values ps). cbn [assemble].
  rewrite IH by lia. replace (p.1) with 0 by lia. rewrite Z.mul_0_l, Z.pow_0_r, Z.mod_1_r. lia.
Qed.

Lemma pieces_computes ns ps :
  Forall2 reads_as ns ps ->
  computes (small (total (values ps) * B)) (pieces piece bloq measure (noun_list ns)) (assemble B (values ps)).
Proof.
  intros H. pose proof (total_nonneg ns ps H) as Ht. pose proof (pow2_pos bloq ltac:(lia)) as HB. fold B in HB.
  unfold pieces. set (t := total (values ps)) in *. pose proof MAX_U64 as HM.
  assert (Hlen : (fits t /\ pieces_len measure (noun_list ns) 0 = Ok t) \/
    (~ fits t /\ pieces_len measure (noun_list ns) 0 = bail_fail)).
  { destruct (pieces_len_spec ns ps 0 H) as [[F E]|[[F E]|[-> E]]]; [done|by left|by right|left].
    rewrite E. inversion H; subst. done. }
  destruct Hlen as [[Ft ->]|[F ->]]; [|right; split; [done|unfold fits, small, MAX_BIT_LENGTH in *; nia]].
  cbn [mbind outcome_bind]. destruct (Z.eqb_spec t 0) as [E|E].
  { left. rewrite (assemble_zero ns ps H E). by apply returns_direct. }
  assert (Htu : is_u64 t) by (unfold is_u64, fits in *; lia). assert (HtB : 0 < t * B) by nia.
  destruct (bite_to_word_spec bloq t ltac:(lia) Htu) as [[F ->]|[F ->]]; [|fold B in F; size_fail].
  cbn [mbind outcome_bind]. fold B in F |- *.
  destruct (words_for_bound (t * B)) as (Hw1 & _ & Hw2 & Hw3); [lia|]. set (w := words_for (t * B)) in *.
  destruct (new_bits_spec w Hw2) as [Hnl Hnv].
  destruct (pieces_chop_spec ns ps 0 (new_bits w) H) as (d & -> & Hd & Hv);
    [lia|fold t; rewrite Z.add_0_l; lia|fold t; rewrite Z.add_0_l; unfold fits in *; lia|by rewrite Hnv|].
  left. cbn [mbind outcome_bind]. apply buffer_returns with w; [by rewrite Hd|lia|]. rewrite Hv, Hnv, Z.mul_0_l, Z.pow_0_r. lia.
Qed.
End assembling.

Lemma can_reads items :
  Forall (fun p => 0 <= p.1 <= DIRECT_MAX /\ wf_atom p.2) items ->
  Forall2 (reads_as can_piece can_step) ((fun p => NCell (D p.1) (NAtom p.2)) <$> items) items.
Proof.
  rewrite DIRECT_MAX_val. induction 1 as [|[s a] items [Hs Hw] _ IH]; [constructor|]. cbn [fst snd] in *.
  constructor; [|done]. split_and!; [done|done|unfold is_u64, U64; cbn; lia|done].
Qed.
Lemma rap_reads bloq as_ :
  0 <= bloq < 47 -> Forall (fun a => wf_atom a /\ sized a) as_ ->
  Forall2 (reads_as (rap_piece bloq) (rap_step bloq)) (NAtom <$> as_) ((fun a => (met bloq a, a)) <$> as_).
Proof.
  intros Hb. induction 1 as [|a as_ [Hw Hs] _ IH]; [constructor|]. constructor; [|done].
  split_and!; [done|done| |done]. apply (measure bloq a); [lia|done|done].
Qed.
Lemma rep_reads step as_ :
  is_u64 step -> Forall wf_atom as_ ->
  Forall2 (reads_as (rep_piece step) (fun _ => Ok step)) (NAtom <$> as_) ((fun a => (step, a)) <$> as_).
Proof. intros Hs. induction 1 as [|a as_ Hw _ IH]; [constructor|]. by constructor. Qed.

Lemma cat_computes bat ctx bloq a b :
  0 <= bloq < 47 -> wf_atom a -> wf_atom b -> sized a -> sized b ->
  computes (small ((met bloq a + met bloq b) * 2 ^ bloq))
    (jet_cat (gate bat (NCell (D bloq) (NCell (NAtom a) (NAtom b))) ctx))
    (atom_val a + 2 ^ (met bloq a * 2 ^ bloq) * atom_val b).
Proof.
  intros Hb Hwa Hwb Hsa Hsb. destruct (measure bloq a ltac:(lia) Hwa Hsa) as [HB Hva Hma _ _ Hza Hla].
  destruct (measure bloq b ltac:(lia) Hwb Hsb) as [_ Hvb Hmb _ _ Hzb Hlb].
  unfold jet_cat. slots. rewrite bloq_direct by done. slots. set (B := 2 ^ bloq) in *. pose proof MAX_U64 as HM.
  set (la := met bloq a) in *. set (lb := met bloq b) in *. unfold is_u64 in *.
  destruct (checked_add_spec la lb) as [[F1 ->]|[F1 ->]]; [|right; split; [done|unfold fits, small, MAX_BIT_LENGTH in *; nia]].
  cbn [mbind outcome_bind].
  destruct (bite_to_word_spec bloq (la + lb)) as [[F2 ->]|[F2 ->]]; [lia|unfold is_u64, fits in *; lia| |fold B in F2; size_fail].
  cbn [mbind outcome_bind]. fold B in F2 |- *. assert (Hn : 0 <= (la + lb) * B) by nia.
  destruct (words_for_bound ((la + lb) * B) Hn) as (Hw1 & Hw2 & Hw3 & Hw4). set (w := words_for ((la + lb) * B)) in *.
  destruct (Z.eqb_spec w 0) as [E|E].
  { assert (la = 0 /\ lb = 0) as [Ea Eb] by nia. left. apply returns_atom; [done|]. apply Hzb in Eb. rewrite Eb. lia. }
  destruct (new_bits_spec w Hw3) as [Hnl Hnv]. unfold fits in F2.
  destruct (chop_spec bloq 0 la 0 (new_bits w) (as_bitslice a)) as [(_ & _ & d & -> & Hd & Hv)|[F _]];
    [lia|done|done|done|fold B; nia|by rewrite Hnv| |exfalso; apply F; fold B; unfold fits; nia].
  cbn [mbind outcome_bind]. fold B in Hv. rewrite !Z.mul_0_l, !Z.pow_0_r, Z.div_1_r, slice_val, Z.mod_small, Hnv in Hv by done.
  destruct (chop_spec bloq 0 lb la d (as_bitslice b)) as [(_ & _ & d' & -> & Hd' & Hv')|[F _]];
    [lia|done|done|done|rewrite Hd; fold B; nia|fold B; lia| |exfalso; apply F; fold B; unfold fits; nia].
  cbn [mbind outcome_bind]. fold B in Hv'. rewrite !Z.mul_0_l, !Z.pow_0_r, Z.div_1_r, slice_val, (Z.mod_small (atom_val b)) in Hv' by done.
  left. apply buffer_returns with w; [by rewrite Hd', Hd|lia|]. rewrite Hv', Hv. lia.
Qed.

(** * Taking apart *)

Definition chunk (v S : Z) (j : nat) : Z := (v / 2 ^ (Z.of_nat j * S)) mod 2 ^ S.

Lemma returns_canonical r v : 0 <= v -> returns r v -> r = Ok (NAtom (from_ubig v)).
Proof.
  intros Hv (a & -> & Hw & Ha). do 2 f_equal. destruct (from_ubig_spec v Hv). apply atom_val_inj; [done|done|congruence].
Qed.

Section rip.
Context (bloq step : Z) (a : atom).
Context (Hb : 0 <= bloq < 47) (Hs : is_u64 step) (Hs0 : 0 < step) (Hw : wf_atom a) (Hsz : sized a).
Let S := step * 2 ^ bloq.
Context (HS : S <= 2 ^ 43) (Hbits : bit_size a <= 2 ^ 43).

Lemma S_pos : 0 < S.
Proof. unfold S. pose proof (pow2_pos bloq). nia. Qed.
Lemma chunk_nonneg j : 0 <= chunk (atom_val a) S j < 2 ^ S.
Proof. apply Z.mod_pos_bound, pow2_pos. pose proof S_pos. lia. Qed.

Lemma rip_loop_spec i lst :
  Z.of_nat i * S <= 2 ^ 45 ->
  rip_loop bloq step a i lst =
    Ok (foldr (fun j t => NCell (NAtom (from_ubig (chunk (atom_val a) S j))) t) lst (seq 0 i)).
Proof.
  pose proof S_pos as HSp. pose proof (pow2_pos bloq ltac:(lia)) as HB. unfold is_u64 in Hs.
  revert lst. induction i as [|i IH]; intros lst Hi; [done|]. cbn [rip_loop].
  assert (Hi' : Z.of_nat i * S + S <= 2 ^ 45) by lia.
  assert (Hstep : Z.of_nat i * step < U64) by (unfold U64; unfold S in *; nia).
  rewrite !wrap64_small by (rewrite ?Z.shiftl_mul_pow2 by lia; fold S; unfold is_u64, U64 in *; lia).
  rewrite Z.shiftl_mul_pow2 by lia. fold S.
  assert (Hc : computes True (dest ← chop bloq (Z.of_nat i * step) step 0 (new_bits S) (as_bitslice a); bits_atom dest)
                 (chunk (atom_val a) S i)).
  { apply chop_computes; [done|unfold is_u64; lia|done|done|done|done|fold S; rewrite Z.mul_0_l; lia| |].
    - intros _. fold S. rewrite Z.mul_0_l. unfold fits, MAX_BIT_LENGTH. rewrite <- Z.mul_assoc. fold S. lia.
    - rewrite Z.mul_0_l, Z.pow_0_r, Z.mul_1_l, <- Z.mul_assoc. fold S. done. }
  destruct Hc as [Hc|[_ []]]; [|done]. apply returns_canonical in Hc; [|apply chunk_nonneg].
  destruct (chop _ _ _ _ _ _) as [d| |]; cbn [mbind outcome_bind] in *; [|done..]. rewrite Hc. cbn [mbind outcome_bind].
  rewrite IH by lia. rewrite seq_S, foldr_app. done.
Qed.

(** The number of pieces *)
Definition rip_count : nat := Z.to_nat (ceil (met bloq a) step).
Lemma rip_count_bound : atom_val a < 2 ^ (Z.of_nat rip_count * S) /\ Z.of_nat rip_count * S <= 2 ^ 45.
Proof.
  pose proof (measure bloq a ltac:(lia) Hw Hsz) as [HB Hv Hm Hbz Htop _ _]. unfold is_u64 in *.
  destruct (ceil_bound (met bloq a) step) as [Hc Hc0]; [lia|lia|]. unfold rip_count. rewrite Z2Nat.id by done.
  set (c := ceil (met bloq a) step) in *. unfold S in *. split.
  - eapply Z.lt_le_trans; [apply Hv|]. apply Z.pow_le_mono_r; [lia|]. nia.
  - assert (c * step * 2 ^ bloq < (met bloq a + step) * 2 ^ bloq) by nia.
    assert (2 ^ bloq <= step * 2 ^ bloq) by nia. lia.
Qed.

Lemma rip_spec : rip bloq step a = Ok (noun_list ((fun j => NAtom (from_ubig (chunk (atom_val a) S j))) <$> seq 0 rip_count)).
Proof.
  unfold rip. rewrite (proj2 (Z.eqb_neq step 0)) by lia.
  replace ((met bloq a + step - 1) / step) with (ceil (met bloq a) step) by (unfold ceil; f_equal; lia).
  fold rip_count. rewrite rip_loop_spec by apply rip_count_bound. f_equal.
  induction (seq 0 rip_count) as [|j l IHl]; [done|]. cbn [foldr fmap list_fmap noun_list]. f_equal. exact IHl.
Qed.

Lemma assemble_chunks k n :
  assemble (2 ^ bloq) ((fun j => (step, chunk (atom_val a) S j)) <$> seq k n) =
  (atom_val a / 2 ^ (Z.of_nat k * S)) mod 2 ^ (Z.of_nat n * S).
Proof.
  pose proof S_pos as HSp. revert k. induction n as [|n IH]; intros k; [by rewrite Z.mod_1_r|].
  cbn [seq fmap list_fmap assemble]. fold S. unfold fmap in IH. rewrite IH.
  rewrite (Z.mod_small (chunk _ _ _)) by apply chunk_nonneg. unfold chunk.
  rewrite !Nat2Z.inj_succ, <- !Z.add_1_r, !Z.mul_add_distr_r, !Z.mul_1_l.
  rewrite (Z.add_comm (Z.of_nat n * S)), !Z.pow_add_r by nia. rewrite <- Z.div_div by (apply Z.pow_nonzero || apply pow2_pos; nia).
  rewrite (Z.rem_mul_r _ (2 ^ S)) by (apply Z.pow_nonzero || apply pow2_pos; nia). done.
Qed.

(** Putting the pieces together again *)
Lemma rep_rip bite_noun :
  bite bite_noun = Ok (bloq, step) ->
  (l ← rip bloq step a; rep bite_noun l) = Ok (NAtom a).
Proof.
  intros Hbite. destruct rip_count_bound as [Hv Hbd]. rewrite rip_spec. cbn [mbind outcome_bind]. unfold rep. rewrite Hbite.
  cbn [mbind outcome_bind]. set (as_ := (fun j => from_ubig (chunk (atom_val a) S j)) <$> seq 0 rip_count).
  replace ((fun j => NAtom (from_ubig (chunk (atom_val a) S j))) <$> seq 0 rip_count) with (NAtom <$> as_)
    by (unfold as_; by rewrite <- list_fmap_compose).
  assert (Has : Forall wf_atom as_).
  { apply Forall_fmap, Forall_true. intros j. apply from_ubig_spec, chunk_nonneg. }
  pose proof (pieces_computes (rep_piece step) (fun _ => Ok step) bloq Hb _ _ (rep_reads step as_ Hs Has)) as Hc.
  assert (Ev : values ((fun c => (step, c)) <$> as_) = (fun j => (step, chunk (atom_val a) S j)) <$> seq 0 rip_count).
  { unfold values, as_. rewrite <- !list_fmap_compose. apply list_fmap_ext. intros _ j _. cbn. f_equal.
    apply from_ubig_spec, chunk_nonneg. }
  rewrite Ev, assemble_chunks in Hc. change (Z.of_nat 0 * S) with 0 in Hc.
  rewrite Z.pow_0_r, Z.div_1_r, Z.mod_small in Hc by (split; [by apply wf_atom_val|done]).
  assert (Ht : forall l : list nat, total ((fun j => (step, chunk (atom_val a) S j)) <$> l) = Z.of_nat (length l) * step).
  { induction l as [|j l IHl]; [done|]. rewrite fmap_cons. unfold total in *. cbn [foldr fst length]. rewrite IHl. lia. }
  rewrite Ht, length_seq, <- Z.mul_assoc in Hc. fold S in Hc. destruct Hc as [(c & -> & Hwc & Hvc)|[_ []]]; [|done].
  do 2 f_equal. by apply atom_val_inj.
Qed.
End rip.

(** * Axes *)

(** The axis [b] below the axis [a] *)
Definition peg (a b : Z) : Z := a * 2 ^ Z.log2 b + (b - 2 ^ Z.log2 b).

Lemma peg_double a b : 0 < b -> peg a (2 * b) = 2 * peg a b /\ peg a (2 * b + 1) = 2 * peg a b + 1.
Proof.
  intros Hb. unfold peg. pose proof (Z.log2_nonneg b).
  rewrite Z.log2_double, Z.log2_succ_double, Z.pow_succ_r by done. split; ring.
Qed.
Lemma axis_peg a b n : 0 < a -> 0 < b -> axis_at (peg a b) n = axis_at a n ≫= axis_at b.
Proof.
  intros Ha Hb. destruct a as [|p|]; try lia. destruct b as [|q|]; try lia.
  assert (H : exists r, peg (Z.pos p) (Z.pos q) = Z.pos r /\ tree_at r n = tree_at p n ≫= tree_at q).
  { induction q as [q IH|q IH|].
    - destruct IH as (r & E & Er); [lia|]. exists (r~1)%positive.
      change (Z.pos q~1) with (2 * Z.pos q + 1). rewrite (proj2 (peg_double _ (Z.pos q) ltac:(lia))), E. split; [done|].
      cbn [tree_at]. rewrite Er. by destruct (tree_at p n).
    - destruct IH as (r & E & Er); [lia|]. exists (r~0)%positive.
      change (Z.pos q~0) with (2 * Z.pos q). rewrite (proj1 (peg_double _ (Z.pos q) ltac:(lia))), E. split; [done|].
      cbn [tree_at]. rewrite Er. by destruct (tree_at p n).
    - exists p. unfold peg. change (Z.log2 1) with 0. split; [lia|]. by destruct (tree_at p n). }
  destruct H as (r & E & Er). rewrite E. exact Er.
Qed.

Lemma met0_bits a : wf_atom a -> 0 < atom_val a ->
  met 0 a = Z.log2 (atom_val a) + 1 /\ met 0 a <= Z.of_nat (length (as_bitslice a)) /\ a <> Direct 0.
Proof.
  intros Hw Hv. assert (Hne : a <> Direct 0) by (intros ->; done).
  rewrite met_spec, bit_size_len by (done || lia). unfold ceil, bit_len. rewrite (proj2 (Z.eqb_neq _ _)) by lia.
  change (2 ^ 0) with 1. rewrite Z.div_1_r. split; [lia|]. split; [|done].
  rewrite as_bitslice_length, atom_size_words by done. rewrite bit_size_len by done. unfold bit_len.
  rewrite (proj2 (Z.eqb_neq _ _)) by lia. pose proof (Z.log2_nonneg (atom_val a)).
  pose proof (words_for_bound (Z.log2 (atom_val a) + 1)). lia.
Qed.
Lemma top_bit v : 0 < v -> v mod 2 ^ Z.log2 v = v - 2 ^ Z.log2 v.
Proof.
  intros Hv. destruct (Z.log2_spec v Hv) as [H1 H2]. rewrite Z.pow_succ_r in H2 by apply Z.log2_nonneg.
  symmetry. apply Z.mod_unique with 1; lia.
Qed.

Lemma peg_returns bat ctx a b :
  wf_atom a -> wf_atom b -> 0 < atom_val a -> 0 < atom_val b ->
  returns (jet_peg (gate bat (NCell (NAtom a) (NAtom b)) ctx)) (peg (atom_val a) (atom_val b)).
Proof.
  intros Ha Hb Hva Hvb. destruct (met0_bits a Ha Hva) as (Ma & La & Na). destruct (met0_bits b Hb Hvb) as (Mb & Lb & Nb).
  unfold jet_peg. rewrite sample2_gate. cbn [mbind outcome_bind]. rewrite !decide_False by done.
  set (la := met 0 a) in *. set (lb := met 0 b) in *.
  pose proof (Z.log2_nonneg (atom_val a)). pose proof (Z.log2_nonneg (atom_val b)).
  rewrite Z.shiftr_div_pow2 by lia. change ((la + lb - 1 + 63) / 2 ^ 6) with (words_for (la + lb - 1)).
  destruct (words_for_bound (la + lb - 1)) as (Hw1 & _ & Hw3 & Hw4); [lia|]. set (w := words_for (la + lb - 1)) in *.
  destruct (new_bits_spec w Hw3) as [Hnl Hnv].
  destruct (bit_range_spec (as_bitslice b) 0 (lb - 1)) as (low & -> & Hll & Hlv); [lia|lia|lia|]. cbn [mbind outcome_bind].
  destruct (copy_bits_add (new_bits w) 0 low) as (d & -> & Hd & Hdv); [lia|lia|by rewrite Hnv|]. cbn [mbind outcome_bind].
  destruct (bit_range_spec (as_bitslice a) 0 la) as (high & -> & Hhl & Hhv); [lia|lia|lia|]. cbn [mbind outcome_bind].
  rewrite Z.pow_0_r, Z.div_1_r, slice_val in Hlv, Hhv by done.
  rewrite Hnv, Z.add_0_l, Z.pow_0_r, Z.mul_1_l, Hlv in Hdv.
  destruct (copy_bits_add d (lb - 1) high) as (d' & -> & Hd' & Hdv'); [lia|lia| |].
  { rewrite Hdv. apply Z.mod_pos_bound, pow2_pos. lia. }
  cbn [mbind outcome_bind]. apply buffer_returns with w; [by rewrite Hd', Hd|lia|].
  rewrite Hdv', Hdv, Hhv. replace (lb - 1) with (Z.log2 (atom_val b)) by lia. rewrite top_bit by done.
  rewrite Z.mod_small; [unfold peg; ring|]. rewrite Ma, Z.add_1_r. pose proof (Z.log2_spec (atom_val a) Hva). lia.
Qed.

(** The step from the root towards the axis, and the rest of the way *)
Definition cap (v : Z) : Z := v / 2 ^ (Z.log2 v - 1).
Definition mas (v : Z) : Z := 2 ^ (Z.log2 v - 1) + v mod 2 ^ (Z.log2 v - 1).
Lemma cap_mas v : 1 < v -> peg (cap v) (mas v) = v /\ (cap v = 2 \/ cap v = 3) /\ 0 < mas v.
Proof.
  intros Hv. assert (Hl : 0 < Z.log2 v) by (apply Z.log2_pos; lia). destruct (Z.log2_spec v) as [H1 H2]; [lia|].
  unfold cap, mas. remember (Z.log2 v - 1) as k eqn:Ek. replace (Z.log2 v) with (Z.succ k) in H1, H2 by lia.
  pose proof (pow2_pos k ltac:(lia)) as Hk. rewrite (Z.pow_succ_r 2 k) in H1 by lia.
  rewrite (Z.pow_succ_r 2 (Z.succ k)), (Z.pow_succ_r 2 k) in H2 by lia.
  pose proof (Z.mod_pos_bound v (2 ^ k) Hk) as Hm. pose proof (Z.div_mod v (2 ^ k) ltac:(lia)) as Hdm.
  assert (Hlo : 2 <= v / 2 ^ k) by (apply Z.div_le_lower_bound; lia).
  assert (Hhi : v / 2 ^ k < 4) by (apply Z.div_lt_upper_bound; lia).
  assert (Hc : v / 2 ^ k = 2 \/ v / 2 ^ k = 3) by lia. split_and!; [|done|lia].
  unfold peg. rewrite (Z.log2_unique (2 ^ k + v mod 2 ^ k) k); [lia|lia|]. rewrite Z.pow_succ_r by lia. lia.
Qed.

Lemma lookup_bits_val bs i : (i < length bs)%nat -> bs !! i = Some (Z.testbit (bits_val bs) (Z.of_nat i)).
Proof. intros Hi. rewrite <- (bits_of_val bs) at 1. by apply lookup_bits_of. Qed.

Lemma cap_mas_returns bat ctx a :
  wf_atom a -> 1 < atom_val a -> let s := gate bat (NAtom a) ctx in
  jet_cap s = Ok (D (cap (atom_val a))) /\ returns (jet_mas s) (mas (atom_val a)).
Proof.
  intros Ha Hv s. destruct (met0_bits a Ha ltac:(lia)) as (Ma & La & _).
  assert (Hl : 0 < Z.log2 (atom_val a)) by (apply Z.log2_pos; lia).
  destruct (cap_mas (atom_val a) Hv) as (_ & Hc & _). split.
  - unfold jet_cap, s. slots. rewrite (proj2 (Z.ltb_ge (met 0 a) 2)) by lia.
    rewrite lookup_bits_val by lia. simpl default. rewrite Z2Nat.id, slice_val by (done || lia).
    rewrite Z.testbit_odd, Z.shiftr_div_pow2 by lia. replace (met 0 a - 2) with (Z.log2 (atom_val a) - 1) by lia.
    fold (cap (atom_val a)). by destruct Hc as [-> | ->].
  - unfold jet_mas, s. slots. rewrite (proj2 (Z.ltb_ge (met 0 a) 2)) by lia. set (l := met 0 a) in *.
    rewrite Z.shiftr_div_pow2 by lia. change ((l - 1 + 63) / 2 ^ 6) with (words_for (l - 1)).
    destruct (words_for_bound (l - 1)) as (Hw1 & _ & Hw3 & Hw4); [lia|]. set (w := words_for (l - 1)) in *.
    destruct (new_bits_spec w Hw3) as [Hnl Hnv]. pose proof (pow2_pos (l - 2) ltac:(lia)) as Hk.
    destruct (copy_bits_add (new_bits w) (l - 2) [true]) as (d & -> & Hd & Hdv); [lia|cbn [length]; lia|by rewrite Hnv|].
    cbn [mbind outcome_bind]. rewrite Hnv in Hdv. cbn [bits_val Z.b2z] in Hdv.
    unfold mas. replace (Z.log2 (atom_val a) - 1) with (l - 2) by lia.
    destruct (Z.ltb_spec 2 l) as [H2|H2].
    + destruct (bit_range_spec (as_bitslice a) 0 (l - 2)) as (low & -> & Hll & Hlv); [lia|lia|lia|]. cbn [mbind outcome_bind].
      destruct (copy_bits_spec d 0 low) as (d' & -> & Hd' & Hdv'); [lia|lia|]. cbn [mbind outcome_bind].
      apply buffer_returns with w; [by rewrite Hd', Hd|lia|].
      rewrite Hdv', Hdv, Hll, Hlv, slice_val, Z.pow_0_r, !Z.div_1_r, Z.mod_1_r, !Z.mul_1_l, !Z.add_0_l by done.
      rewrite Z.mul_1_r, Z.div_same by lia. lia.
    + cbn [mbind outcome_bind]. apply buffer_returns with w; [by rewrite Hd|lia|].
      rewrite Hdv. replace (l - 2) with 0 by lia. rewrite Z.pow_0_r, Z.mod_1_r. lia.
Qed.

(** Axes that the jets refuse *)
Lemma zero_atom a : wf_atom a -> atom_val a = 0 -> a = Direct 0.
Proof. intros Hw E. apply atom_val_inj; [done|split; vm_compute; congruence|done]. Qed.
Lemma peg_refuses bat ctx a b :
  wf_atom a -> wf_atom b -> atom_val a = 0 \/ atom_val b = 0 ->
  jet_peg (gate bat (NCell (NAtom a) (NAtom b)) ctx) = bail_exit.
Proof.
  intros Ha Hb Hz. unfold jet_peg. rewrite sample2_gate. cbn [mbind outcome_bind].
  destruct (decide (a = Direct 0)); [done|]. destruct Hz as [E|E]; apply zero_atom in E; [done|done| |done].
  by rewrite decide_True.
Qed.
Lemma cap_mas_refuses bat ctx a :
  wf_atom a -> atom_val a <= 1 ->
  jet_cap (gate bat (NAtom a) ctx) = bail_exit /\ jet_mas (gate bat (NAtom a) ctx) = bail_exit.
Proof.
  intros Ha Hle. pose proof (wf_atom_val a Ha).
  assert (a = Direct (atom_val a)) as -> by (apply atom_val_inj; [done|split; [done|rewrite DIRECT_MAX_val; lia]|done]).
  assert (atom_val a = 0 \/ atom_val a = 1) as [-> | ->] by lia; by split.
Qed.

(** * Properties *)

(** C12: The bit jets compute what their Hoon arms compute, in blocks of [2 ^ bloq]
    bits and with canonical results, and bail out with a failure only when the sizes
    go beyond [2 ^ 45] bits: shifts left and right, the low end, a cut, the
    concatenation, the measure, the three logical operations and the power of two. *)
Theorem bit_jets bat ctx bloq step start a b :
  0 <= bloq < 47 -> is_u64 step -> is_u64 start -> wf_atom a -> wf_atom b -> sized a -> sized b ->
  let B := 2 ^ bloq in let x := atom_val a in let y := atom_val b in let run n := gate bat n ctx in
  (forall bite_noun, bite bite_noun = Ok (bloq, step) ->
     computes (small (bit_size a) /\ small (step * B) /\ small B) (jet_lsh (run (NCell bite_noun (NAtom a)))) (x * 2 ^ (step * B)) /\
     computes (small (bit_size a) /\ small B) (jet_rsh (run (NCell bite_noun (NAtom a)))) (x / 2 ^ (step * B)) /\
     computes (small (step * B)) (jet_end (run (NCell bite_noun (NAtom a)))) (x mod 2 ^ (step * B))) /\
  computes (small (start * B + step * B)) (jet_cut (run (NCell (D bloq) (NCell (NCell (D start) (D step)) (NAtom a)))))
    ((x / 2 ^ (start * B)) mod 2 ^ (step * B)) /\
  computes (small ((met bloq a + met bloq b) * B)) (jet_cat (run (NCell (D bloq) (NCell (NAtom a) (NAtom b)))))
    (x + 2 ^ (met bloq a * B) * y) /\
  returns (jet_met (run (NCell (D bloq) (NAtom a)))) (ceil (bit_len x) B) /\
  returns (jet_con (run (NCell (NAtom a) (NAtom b)))) (Z.lor x y) /\
  returns (jet_dis (run (NCell (NAtom a) (NAtom b)))) (Z.land x y) /\
  returns (jet_mix (run (NCell (NAtom a) (NAtom b)))) (Z.lxor x y) /\
  (forall n, 0 <= n <= DIRECT_MAX -> returns (jet_bex (run (D n))) (2 ^ n)).
Proof.
  intros Hb Hs Hst Ha Hwb Hsa Hsb B x y run. destruct (logic_returns bat ctx a b Ha Hwb) as (Hcon & Hdis & Hmix).
  split_and!; [|by apply cut_computes|by apply cat_computes|by apply met_returns|done|done|done|by apply bex_returns].
  intros bite_noun Hbite. split_and!; [|by apply rsh_computes|by apply end_computes].
  unfold jet_lsh, run. slots. rewrite Hbite. slots. by apply lsh_computes.
Qed.

Lemma bit_jets_witness :
  returns (jet_lsh (gate (D 0) (NCell (NCell (D 3) (D 2)) (D 0x876543)) (D 0))) 0x8765430000.
Proof.
  destruct (bit_jets (D 0) (D 0) 3 2 0 (Direct 0x876543) (Direct 0)) as [Hsh _];
    [lia|split; done|split; done|split; done|split; done|done|done|].
  destruct (Hsh (NCell (D 3) (D 2)) eq_refl) as [[H|[_ []]] _]; [exact H|].
  split_and!; vm_compute; congruence.
Defined.

(** [jet_rip] takes an atom apart into its pieces of [step] blocks, lowest piece
    first, without leading zero pieces, and [jet_rep] with the same step puts them
    together again. A step of zero divides by zero. *)
Theorem rip_rep bat ctx bite_noun bloq step a :
  bite bite_noun = Ok (bloq, step) -> 0 <= bloq < 47 -> is_u64 step -> wf_atom a ->
  step * 2 ^ bloq <= 2 ^ 43 -> bit_size a <= 2 ^ 43 ->
  let sample n := gate bat (NCell bite_noun n) ctx in
  (step = 0 /\ jet_rip (sample (NAtom a)) = Panic) \/
  (0 < step /\
   let S := step * 2 ^ bloq in let count := Z.to_nat (ceil (met bloq a) step) in
   let pieces := (fun j => NAtom (from_ubig (chunk (atom_val a) S j))) <$> seq 0 count in
   jet_rip (sample (NAtom a)) = Ok (noun_list pieces) /\
   jet_rep (sample (noun_list pieces)) = Ok (NAtom a)).
Proof.
  intros Hbite Hb Hs Hw HS Hbits sample. assert (Hsz : sized a) by (unfold sized; lia).
  unfold jet_rip, jet_rep, sample. slots. rewrite Hbite. slots.
  destruct (Z.eq_dec step 0) as [->|Hne]; [by left|right]. unfold is_u64 in Hs. split; [lia|].
  pose proof (rip_spec bloq step a Hb Hs ltac:(lia) Hw Hsz HS Hbits) as Hrip. unfold rip_count in Hrip.
  pose proof (rep_rip bloq step a Hb Hs ltac:(lia) Hw Hsz HS Hbits bite_noun Hbite) as Hrep.
  rewrite Hrip in Hrep. by split.
Qed.

Lemma rip_rep_witness :
  jet_rip (gate (D 0) (NCell (D 3) (D 0x876543)) (D 0)) = Ok (T [D 0x43; D 0x65; D 0x87; D 0]).
Proof.
  destruct (rip_rep (D 0) (D 0) (D 3) 3 1 (Direct 0x876543)) as [[H _]|(_ & H & _)];
    [reflexivity|lia|split; done|split; done|vm_compute; congruence|vm_compute; congruence|discriminate H|].
  refine (eq_trans H _). vm_compute. reflexivity.
Defined.

(** The jets on axes agree with the walk of the tree: [jet_peg] composes two
    axes, so that its result addresses in every noun what the second axis addresses
    below the first; [jet_cap] and [jet_mas] split an axis below the root into its
    first step, 2 or 3, and the rest of the way, and the composition of the two is
    the axis; the axis 0, and for the split also 1, are refused. *)
Theorem axis_jets bat ctx a b :
  wf_atom a -> wf_atom b ->
  (atom_val a = 0 \/ atom_val b = 0 -> jet_peg (gate bat (NCell (NAtom a) (NAtom b)) ctx) = bail_exit) /\
  (0 < atom_val a -> 0 < atom_val b -> exists c, jet_peg (gate bat (NCell (NAtom a) (NAtom b)) ctx) = Ok (NAtom c) /\
     wf_atom c /\ forall n, ok_of (slot_atom n c) = ok_of (slot_atom n a) ≫= fun m => ok_of (slot_atom m b)) /\
  (atom_val a <= 1 -> jet_cap (gate bat (NAtom a) ctx) = bail_exit /\ jet_mas (gate bat (NAtom a) ctx) = bail_exit) /\
  (1 < atom_val a -> exists c m, jet_cap (gate bat (NAtom a) ctx) = Ok (NAtom c) /\
     jet_mas (gate bat (NAtom a) ctx) = Ok (NAtom m) /\ (c = Direct 2 \/ c = Direct 3) /\
     jet_peg (gate bat (NCell (NAtom c) (NAtom m)) ctx) = Ok (NAtom a)).
Proof.
  intros Ha Hb. pose proof (wf_atom_val a Ha). pose proof (wf_atom_val b Hb). split_and!.
  - apply peg_refuses; done.
  - intros Hva Hvb. destruct (peg_returns bat ctx a b Ha Hb Hva Hvb) as (c & E & Hw & Hc). exists c. split_and!; [done|done|].
    intros n. rewrite !slot_atom_spec, Hc, axis_peg by done. destruct (axis_at _ n); [|done]. cbn. by rewrite slot_atom_spec.
  - intros Hle. by apply cap_mas_refuses.
  - intros Hlt. destruct (cap_mas_returns bat ctx a Ha Hlt) as [Ecap (m & Emas & Hwm & Hvm)].
    destruct (cap_mas (atom_val a) Hlt) as (Hpeg & Hc & Hm). exists (Direct (cap (atom_val a))), m.
    assert (Hwc : wf_atom (Direct (cap (atom_val a)))) by (destruct Hc as [-> | ->]; by split).
    split_and!; [done|done|by destruct Hc as [-> | ->]; auto|].
    destruct (peg_returns bat ctx _ m Hwc Hwm) as (r & -> & Hwr & Hvr); [cbn; lia|lia|].
    do 2 f_equal. apply atom_val_inj; [done|done|]. rewrite Hvr, Hvm. exact Hpeg.
Qed.

Lemma axis_jets_witness :
  exists c m, jet_cap (gate (D 0) (D 13) (D 0)) = Ok (NAtom c) /\ jet_mas (gate (D 0) (D 13) (D 0)) = Ok (NAtom m) /\
    jet_peg (gate (D 0) (NCell (NAtom c) (NAtom m)) (D 0)) = Ok (D 13).
Proof.
  assert (Ha : wf_atom (Direct 13)) by (split; vm_compute; congruence).
  destruct (axis_jets (D 0) (D 0) _ _ Ha Ha) as (_ & _ & _ & H).
  destruct (H eq_refl) as (c & m & Hc & Hm & _ & Hp). exists c, m. split; [exact Hc|]. split; [exact Hm|exact Hp].
Defined.
