(* ===== verification/Belt.v ===== *)
(** The base field: [crates/nockchain-math/src/belt.rs].

    A [Belt] is a [u64] below the prime 2^64 - 2^32 + 1.  The operations are the
    branch-free word arithmetic of the source, with its wrap-around, and the
    theorems say that on based operands they are arithmetic modulo [PRIME]. *)
From stdpp Require Import base option list numbers strings.
From Stdlib Require Import ZArith Lia Znumtheory Zmod.
From S2P Require Import Prelude Noun.

Definition U128 : Z := 2 ^ 128.
Definition wrap128 (x : Z) : Z := x mod U128.

Definition PRIME : Z := 18446744069414584321.
Definition RP : Z := 340282366841710300967557013911933812736.
Definition R2 : Z := 18446744065119617025.
Definition H : Z := 20033703337.
Definition ORDER : Z := 2 ^ 32.

Notation Belt := Z (only parsing).

Inductive FieldError := OrderedRootError.

Definition based_check (a : Z) : bool := a <? PRIME.

(** A [u64] that is a field element. *)
Definition based (a : Z) : Prop := 0 <= a < PRIME.

Definition ROOTS : list Z :=
  [ 0x0000000000000001; 0xffffffff00000000; 0x0001000000000000; 0xfffffffeff000001;
    0xefffffff00000001; 0x00003fffffffc000; 0x0000008000000000; 0xf80007ff08000001;
    0xbf79143ce60ca966; 0x1905d02a5c411f4e; 0x9d8f2ad78bfed972; 0x0653b4801da1c8cf;
    0xf2c35199959dfcb6; 0x1544ef2335d17997; 0xe0ee099310bba1e2; 0xf6b2cffe2306baac;
    0x54df9630bf79450e; 0xabd0a6e8aa3d8a0e; 0x81281a7b05f9beac; 0xfbd41c6b8caa3302;
    0x30ba2ecd5e93e76d; 0xf502aef532322654; 0x4b2a18ade67246b5; 0xea9d5a1336fbc98b;
    0x86cdcc31c307e171; 0x4bbaf5976ecfefd8; 0xed41d05b78d6e286; 0x10d78dd8915a171d;
    0x59049500004a4485; 0xdfa8c93ba46d2666; 0x7e9bd009b86a0845; 0x400a7f755588e659;
    0x185629dcda58878c ].

(** [u64::ilog2] panics on zero. *)
Definition ilog2 (x : Z) : outcome FieldError Z :=
  if x <=? 0 then Panic else Ok (Z.log2 x).

Definition ordered_root (x : Z) : outcome FieldError Belt :=
  log_of_self ← ilog2 x;
  if Z.of_nat (length ROOTS) <=? log_of_self then Err OrderedRootError
  else if negb (x =? Z.shiftl 1 log_of_self) then Err OrderedRootError
  else match ROOTS !! Z.to_nat log_of_self with
       | Some r => Ok r
       | None => Panic
       end.

Definition mont_reduction (a : Z) : Z :=
  let x1 := Z.land (Z.shiftr a 32) 0xffffffff in
  let x2 := Z.shiftr a 64 in
  let c := let x0 := Z.land a 0xffffffff in wrap128 (Z.shiftl (x0 + x1) 32) in
  let f := Z.shiftr c 64 in
  let d := wrap128 (c - (x1 + f * PRIME)) in
  if d <=? x2 then wrap64 (x2 - d)
  else wrap64 (x2 + PRIME - d).

Definition montiply (a b : Z) : Z := mont_reduction (a * b).

Definition montify (a : Z) : Z := mont_reduction (a * R2).

Definition badd (a b : Z) : Z :=
  let b := wrapping_sub64 PRIME b in
  let '(r, c) := overflowing_sub64 a b in
  let adj := wrapping_sub32 0 (Z.b2z c) in
  wrapping_sub64 r adj.

Definition bneg (a : Z) : Z :=
  if negb (a =? 0) then wrap64 (PRIME - a) else 0.

Definition bsub (a b : Z) : Z :=
  let '(r, c) := overflowing_sub64 a b in
  let adj := wrapping_sub32 0 (Z.b2z c) in
  wrapping_sub64 r adj.

(** [reduce_159] up to its second conditional: [result] after the first one and
    the carry that decided it. *)
Definition reduce_159_carry (low mid high : Z) : Z * bool :=
  let '(low2, carry) := overflowing_sub64 low high in
  let low2 := if carry : bool then wrapping_add64 low2 PRIME else low2 in
  let product := wrap64 (Z.shiftl mid 32) in
  let product := wrap64 (product - Z.shiftr product 32) in
  let '(result, carry) := overflowing_add64 product low2 in
  (if carry : bool then wrapping_sub64 result PRIME else result, carry).

Definition reduce_159 (low mid high : Z) : Z :=
  let '(result, _) := reduce_159_carry low mid high in
  if PRIME <=? result then wrap64 (result - PRIME) else result.

Definition reduce (n : Z) : Z :=
  reduce_159 (wrap64 n) (wrap32 (Z.shiftr n 64)) (wrap64 (Z.shiftr n 96)).

Definition bmul (a b : Z) : Z := reduce (a * b).

(** [for _ in 0..b { res = montiply(res, res) }]. *)
Fixpoint montwopow (a : Z) (b : nat) : Z :=
  match b with
  | O => a
  | S b' => montwopow (montiply a a) b'
  end.

Definition binv (a : Z) : Z :=
  let y := montify a in
  let y2 := montiply y (montiply y y) in
  let y3 := montiply y (montiply y2 y2) in
  let y5 := montiply y2 (montwopow y3 2) in
  let y10 := montiply y5 (montwopow y5 5) in
  let y20 := montiply y10 (montwopow y10 10) in
  let y30 := montiply y10 (montwopow y20 10) in
  let y31 := montiply y (montiply y30 y30) in
  let dup := montiply (montwopow y31 32) y31 in
  mont_reduction (montiply y (montiply dup dup)).

(** The loop of [bpow]; the value at exhausted fuel is never the result, as
    [bpow_spec] shows for every 64-bit exponent. *)
Fixpoint bpow_loop (fuel : nat) (a b c : Z) : Z :=
  match fuel with
  | O => 0
  | S fuel =>
      if 1 <? b then
        if Z.land b 1 =? 0 then
          bpow_loop fuel (reduce (a * a)) (b / 2) c
        else
          bpow_loop fuel (reduce (a * a)) ((b - 1) / 2) (reduce (c * a))
      else reduce (c * a)
  end.

Definition bpow (a b : Z) : Z :=
  if b =? 0 then 1 else bpow_loop 64 a b 1.

(** [noun_serde::NounDecodeError]. *)
Inductive NounDecodeError :=
  | ExpectedAtom
  | ExpectedCell
  | DecodeFieldError (field msg : string)
  | InvalidEnumVariant
  | InvalidEnumData
  | InvalidTag
  | Custom (msg : string)
  | MaryDecodeError
  | FPolyDecodeError
  | ConstraintsDecodeError.

Definition Belt_to_noun (b : Belt) : noun := NAtom (Atom_new b).

Definition Belt_from_noun (n : noun) : outcome NounDecodeError Belt :=
  match n with
  | NCell _ _ => Err ExpectedAtom
  | NAtom a =>
      value ← map_err (fun _ => Custom "Belt value too large") (as_u64 a);
      if negb (based_check value) then Err (Custom "Belt value not based") else Ok value
  end.

(** * Word arithmetic is arithmetic modulo [PRIME] *)

Ltac belt_nums :=
  unfold based, is_u64, is_u32, wrapping_sub64, wrapping_add64, overflowing_sub64,
    overflowing_add64, wrapping_sub32, wrap32, wrap64, wrap128, U64, U32, U128, PRIME in *.

(** A modular equation by exhibiting the quotient's remainder range. *)
Lemma mod_of_cong n r k : based r -> n = r + k * PRIME -> r = n mod PRIME.
Proof. intros Hr ->. rewrite Z.mod_add by (unfold PRIME; lia). symmetry. by apply Z.mod_small. Qed.

Lemma badd_mod a b : based a -> based b -> badd a b = (a + b) mod PRIME.
Proof.
  intros Ha Hb. unfold badd, wrapping_sub64, overflowing_sub64.
  rewrite (wrap64_small (PRIME - b)) by (belt_nums; lia).
  destruct (Z.ltb_spec a (PRIME - b)).
  - rewrite (wrap64_add_modulus (a - _)) by (belt_nums; lia).
    apply mod_of_cong with 0; change (wrapping_sub32 0 (Z.b2z true)) with 4294967295;
      rewrite wrap64_small; belt_nums; lia.
  - rewrite (wrap64_small (a - _)) by (belt_nums; lia).
    apply mod_of_cong with 1; change (wrapping_sub32 0 (Z.b2z false)) with 0;
      rewrite wrap64_small; belt_nums; lia.
Qed.

Lemma bsub_mod a b : based a -> based b -> bsub a b = (a - b) mod PRIME.
Proof.
  intros Ha Hb. unfold bsub, wrapping_sub64, overflowing_sub64.
  destruct (Z.ltb_spec a b).
  - rewrite (wrap64_add_modulus (a - _)) by (belt_nums; lia).
    apply mod_of_cong with (-1); change (wrapping_sub32 0 (Z.b2z true)) with 4294967295;
      rewrite wrap64_small; belt_nums; lia.
  - rewrite (wrap64_small (a - _)) by (belt_nums; lia).
    apply mod_of_cong with 0; change (wrapping_sub32 0 (Z.b2z false)) with 0;
      rewrite wrap64_small; belt_nums; lia.
Qed.

Lemma bneg_mod a : based a -> bneg a = (- a) mod PRIME.
Proof.
  intros Ha. unfold bneg. destruct (Z.eqb_spec a 0) as [->|]; [done|]. simpl.
  apply mod_of_cong with (-1); rewrite wrap64_small; belt_nums; lia.
Qed.

(** The exact sum that [reduce_159] reduces. *)
Definition reduce_sum (low mid high : Z) : Z :=
  mid * (2 ^ 32 - 1) + (if low <? high then low - high + PRIME else low - high).

Lemma reduce_sum_range low mid high :
  is_u64 low -> is_u32 mid -> 0 <= high < PRIME -> 0 <= reduce_sum low mid high < 2 * PRIME.
Proof. intros. unfold reduce_sum. destruct (Z.ltb_spec low high); belt_nums; lia. Qed.

Lemma reduce_159_carry_sum low mid high :
  is_u64 low -> is_u32 mid -> 0 <= high < PRIME ->
  let s := reduce_sum low mid high in
  reduce_159_carry low mid high = (if U64 <=? s then s - PRIME else s, U64 <=? s).
Proof.
  intros Hl Hm Hh s. pose proof (reduce_sum_range low mid high Hl Hm Hh) as Hs.
  assert (Hlow2 : (let '(low2, carry) := overflowing_sub64 low high in
    if carry : bool then wrapping_add64 low2 PRIME else low2)
    = (if low <? high then low - high + PRIME else low - high)).
  { simpl. destruct (Z.ltb_spec low high).
    - rewrite (wrap64_add_modulus (low - high)) by (belt_nums; lia).
      unfold wrapping_add64. rewrite wrap64_sub_modulus; belt_nums; lia.
    - apply wrap64_small. belt_nums; lia. }
  assert (Hprod : wrap64 (wrap64 (Z.shiftl mid 32) - Z.shiftr (wrap64 (Z.shiftl mid 32)) 32)
    = mid * (2 ^ 32 - 1)).
  { rewrite Z.shiftl_mul_pow2 by lia. rewrite (wrap64_small (mid * _)) by (belt_nums; lia).
    rewrite Z.shiftr_div_pow2, Z.div_mul by lia. rewrite wrap64_small; belt_nums; lia. }
  unfold reduce_159_carry, overflowing_add64. rewrite Hprod.
  unfold overflowing_sub64 in *. rewrite Hlow2. fold (reduce_sum low mid high); fold s.
  fold s in Hs. destruct (Z.leb_spec U64 s); f_equal.
  - rewrite (wrap64_sub_modulus s) by (belt_nums; lia). unfold wrapping_sub64.
    rewrite wrap64_add_modulus by (belt_nums; lia). belt_nums; lia.
  - apply wrap64_small. belt_nums; lia.
Qed.

Lemma reduce_159_sum low mid high :
  is_u64 low -> is_u32 mid -> 0 <= high < PRIME ->
  let s := reduce_sum low mid high in
  reduce_159 low mid high = (if s <? PRIME then s else s - PRIME).
Proof.
  intros Hl Hm Hh s. pose proof (reduce_sum_range low mid high Hl Hm Hh) as Hs.
  unfold reduce_159. rewrite reduce_159_carry_sum by done. fold s in Hs |- *.
  destruct (Z.leb_spec U64 s), (Z.ltb_spec s PRIME).
  - belt_nums; lia.
  - destruct (Z.leb_spec PRIME (s - PRIME)); lia.
  - destruct (Z.leb_spec PRIME s); lia.
  - destruct (Z.leb_spec PRIME s); [|lia]. apply wrap64_small. belt_nums; lia.
Qed.

Lemma reduce_159_mod low mid high :
  is_u64 low -> is_u32 mid -> 0 <= high < PRIME ->
  reduce_159 low mid high = (low + mid * 2 ^ 64 + high * 2 ^ 96) mod PRIME.
Proof.
  intros Hl Hm Hh. rewrite reduce_159_sum by done.
  pose proof (reduce_sum_range low mid high Hl Hm Hh).
  assert (E : reduce_sum low mid high = low + mid * 2 ^ 64 + high * 2 ^ 96
    - (mid + high * (2 ^ 32 + 1) - Z.b2z (low <? high)) * PRIME).
  { unfold reduce_sum, PRIME. destruct (low <? high); simpl Z.b2z; lia. }
  set (k := mid + high * (2 ^ 32 + 1) - Z.b2z (low <? high)) in E.
  destruct (Z.ltb_spec (reduce_sum low mid high) PRIME).
  - apply mod_of_cong with k; [unfold based; lia|]. rewrite E. ring.
  - apply mod_of_cong with (k + 1); [unfold based; lia|]. rewrite E. ring.
Qed.

Lemma reduce_mod n : 0 <= n < U128 -> reduce n = n mod PRIME.
Proof.
  intros Hn. unfold reduce. rewrite !Z.shiftr_div_pow2 by lia.
  assert (Hh : 0 <= n / 2 ^ 96 < 2 ^ 32).
  { split; [apply Z.div_pos; lia|]. apply Z.div_lt_upper_bound; unfold U128 in *; lia. }
  rewrite (wrap64_small (n / 2 ^ 96)) by (belt_nums; lia).
  rewrite reduce_159_mod; [|apply wrap64_range|apply Z.mod_pos_bound; reflexivity|belt_nums; lia].
  f_equal. unfold wrap64, wrap32, U64, U32.
  pose proof (Z.div_mod n (2 ^ 64)) as E1. pose proof (Z.div_mod (n / 2 ^ 64) (2 ^ 32)) as E2.
  rewrite Z.div_div in E2 by lia. change (2 ^ 64 * 2 ^ 32) with (2 ^ 96) in E2. lia.
Qed.

Lemma mod_based n : based (n mod PRIME).
Proof. apply Z.mod_pos_bound. reflexivity. Qed.

Lemma based_mul a b : based a -> based b -> 0 <= a * b < U128.
Proof. unfold based, PRIME, U128. nia. Qed.

Lemma bmul_mod a b : based a -> based b -> bmul a b = (a * b) mod PRIME.
Proof. intros. by apply reduce_mod, based_mul. Qed.

(** * Congruence modulo [PRIME] *)

Definition cong (a b : Z) : Prop := (PRIME | a - b).
Infix "==" := cong (at level 70) : nock_scope.
Open Scope nock_scope.

Lemma cong_iff a b : a == b <-> a mod PRIME = b mod PRIME.
Proof.
  unfold cong. split.
  - intros [k E]. replace a with (b + k * PRIME) by lia. by apply Z.mod_add.
  - intros E. exists (a / PRIME - b / PRIME).
    pose proof (Z.div_mod a PRIME ltac:(done)). pose proof (Z.div_mod b PRIME ltac:(done)). lia.
Qed.

Global Instance cong_equiv : Equivalence cong.
Proof.
  split; red; intros *; rewrite !cong_iff; congruence.
Qed.
Global Instance cong_add : Proper (cong ==> cong ==> cong) Z.add.
Proof. intros a a' [k Hk] b b' [l Hl]. exists (k + l). lia. Qed.
Global Instance cong_mul : Proper (cong ==> cong ==> cong) Z.mul.
Proof. intros a a' [k Hk] b b' [l Hl]. exists (k * b + a' * l). nia. Qed.
Global Instance cong_opp : Proper (cong ==> cong) Z.opp.
Proof. intros a a' [k Hk]. exists (- k). lia. Qed.
Global Instance cong_sub : Proper (cong ==> cong ==> cong) Z.sub.
Proof. intros a a' [k Hk] b b' [l Hl]. exists (k - l). lia. Qed.

Lemma cong_mod a : a mod PRIME == a.
Proof. apply cong_iff, Z.mod_mod. done. Qed.
Lemma cong_add_mul a k : a + k * PRIME == a.
Proof. exists k. lia. Qed.
Lemma cong_based a b : based a -> based b -> a == b -> a = b.
Proof. rewrite cong_iff. intros Ha Hb E. by rewrite !Z.mod_small in E. Qed.
Lemma cong_eq_mod a b : based a -> a == b -> a = b mod PRIME.
Proof. intros Ha E. apply cong_based; [done|apply mod_based|by rewrite cong_mod]. Qed.
Global Instance cong_pow : Proper (cong ==> eq ==> cong) Z.pow.
Proof.
  intros a b E n ? <-. destruct (Z.lt_ge_cases n 0) as [|Hn]; [by rewrite !Z.pow_neg_r|].
  pattern n. apply natlike_ind; [done| |done].
  intros m Hm IH. rewrite !Z.pow_succ_r by done. by apply cong_mul.
Qed.
(** Congruence of closed numbers, by evaluation. *)
Ltac cong_compute := apply cong_iff; vm_compute; reflexivity.

(** The inverse of the Montgomery radix 2^64. *)
Definition Rinv : Z := 18446744065119617025.
Lemma radix_cancel a b : a * 2 ^ 64 == b * 2 ^ 64 -> a == b.
Proof.
  intros E. assert (H1 : 2 ^ 64 * Rinv == 1) by cong_compute.
  rewrite <- (Z.mul_1_r a), <- (Z.mul_1_r b), <- H1, !Z.mul_assoc. by rewrite E.
Qed.

(** * Montgomery multiplication *)

Lemma mont_reduction_spec a :
  0 <= a < RP -> based (mont_reduction a) /\ mont_reduction a * 2 ^ 64 == a.
Proof.
  intros Ha. unfold mont_reduction.
  change 4294967295 with (Z.ones 32). rewrite !Z.land_ones, !Z.shiftr_div_pow2 by lia.
  set (x0 := a mod 2 ^ 32). set (x1 := (a / 2 ^ 32) mod 2 ^ 32). set (x2 := a / 2 ^ 64).
  assert (Hx0 : 0 <= x0 < 2 ^ 32) by (apply Z.mod_pos_bound; lia).
  assert (Hx1 : 0 <= x1 < 2 ^ 32) by (apply Z.mod_pos_bound; lia).
  assert (Hx2 : based x2).
  { unfold x2. split; [apply Z.div_pos; lia|]. apply Z.div_lt_upper_bound; [lia|].
    unfold RP, PRIME in *. lia. }
  assert (Ea : a = x0 + x1 * 2 ^ 32 + x2 * 2 ^ 64).
  { unfold x0, x1, x2. pose proof (Z.div_mod a (2 ^ 32)). pose proof (Z.div_mod (a / 2 ^ 32) (2 ^ 32)) as E2.
    rewrite Z.div_div in E2 by lia. change (2 ^ 32 * 2 ^ 32) with (2 ^ 64) in E2. lia. }
  rewrite Z.shiftl_mul_pow2 by lia.
  assert (Hc : wrap128 ((x0 + x1) * 2 ^ 32) = (x0 + x1) * 2 ^ 32)
    by (apply Z.mod_small; unfold U128; lia).
  rewrite Hc. set (f := (x0 + x1) * 2 ^ 32 / 2 ^ 64).
  set (d := (x0 + x1) * 2 ^ 32 - (x1 + f * PRIME)).
  assert (Hf : (x0 + x1 < 2 ^ 32 /\ f = 0) \/ (2 ^ 32 <= x0 + x1 /\ f = 1)).
  { unfold f. destruct (Z.lt_ge_cases (x0 + x1) (2 ^ 32)); [left|right]; (split; [done|]).
    - apply Z.div_small. lia.
    - symmetry. apply Z.div_unique with ((x0 + x1 - 2 ^ 32) * 2 ^ 32); lia. }
  assert (Hd : based d) by (unfold d, based, PRIME; lia).
  assert (Ed : d * 2 ^ 64 == - (x0 + x1 * 2 ^ 32)).
  { replace (d * 2 ^ 64) with
      (- (x0 + x1 * 2 ^ 32) + ((x0 + x1) * (2 ^ 32 + 1) - x1 - f * 2 ^ 64) * PRIME)
      by (unfold d, PRIME; ring). apply cong_add_mul. }
  assert (Hd' : wrap128 d = d) by (apply Z.mod_small; belt_nums; lia). rewrite Hd'.
  assert (Hres : (x2 - d) * 2 ^ 64 == a).
  { rewrite Z.mul_sub_distr_r, Ed, Ea. by replace (x2 * 2 ^ 64 - - (x0 + x1 * 2 ^ 32))
      with (x0 + x1 * 2 ^ 32 + x2 * 2 ^ 64) by ring. }
  destruct (Z.leb_spec d x2).
  - rewrite wrap64_small by (belt_nums; lia). split; [belt_nums; lia|done].
  - rewrite wrap64_small by (belt_nums; lia). split; [belt_nums; lia|].
    rewrite <- Hres. replace (x2 + PRIME - d) with (x2 - d + 1 * PRIME) by ring.
    by rewrite cong_add_mul.
Qed.

Lemma montiply_spec a b :
  based a -> based b -> based (montiply a b) /\ montiply a b * 2 ^ 64 == a * b.
Proof.
  intros Ha Hb. apply mont_reduction_spec. unfold based, PRIME, RP in *. nia.
Qed.

(** [y] is the Montgomery form of [x]. *)
Definition mont_form (y x : Z) : Prop := based y /\ y == x * 2 ^ 64.

Lemma montify_form a : based a -> mont_form (montify a) a.
Proof.
  intros Ha. destruct (mont_reduction_spec (a * R2)) as [Hb Hc].
  { unfold based, PRIME, R2, RP in *. lia. }
  split; [done|]. apply radix_cancel. unfold montify. rewrite Hc, <- Z.mul_assoc.
  by assert (R2 == 2 ^ 64 * 2 ^ 64) as -> by cong_compute.
Qed.

Lemma montiply_form y x y' x' :
  mont_form y x -> mont_form y' x' -> mont_form (montiply y y') (x * x').
Proof.
  intros [Hb Hc] [Hb' Hc']. destruct (montiply_spec y y' Hb Hb') as [H1 H2].
  split; [done|]. apply radix_cancel. rewrite H2, Hc, Hc'.
  by replace (x * 2 ^ 64 * (x' * 2 ^ 64)) with (x * x' * 2 ^ 64 * 2 ^ 64) by ring.
Qed.

(** [y] is the Montgomery form of the [e]-th power of [a]. *)
Inductive mont_power (a y e : Z) : Prop :=
  | MontPower : 0 <= e -> mont_form y (a ^ e) -> mont_power a y e.

Lemma montiply_pow a y z n m e :
  mont_power a y n -> mont_power a z m -> e = n + m -> mont_power a (montiply y z) e.
Proof.
  intros [Hn Hy] [Hm Hz] ->. split; [lia|]. rewrite Z.pow_add_r by done. by apply montiply_form.
Qed.

Lemma montwopow_pow b a y n e :
  mont_power a y n -> e = n * 2 ^ Z.of_nat b -> mont_power a (montwopow y b) e.
Proof.
  intros Hy ->. revert y n Hy. induction b as [|b IH]; intros y n Hy; simpl montwopow.
  - by rewrite Z.mul_1_r.
  - replace (n * 2 ^ Z.of_nat (S b)) with ((n + n) * 2 ^ Z.of_nat b).
    + eapply IH, montiply_pow; done.
    + rewrite Nat2Z.inj_succ, Z.pow_succ_r by lia. ring.
Qed.

Lemma mont_reduction_form y x : mont_form y x -> mont_reduction y = x mod PRIME.
Proof.
  intros [Hb Hc]. destruct (mont_reduction_spec y) as [H1 H2].
  { unfold based, PRIME, RP in *. lia. }
  apply cong_eq_mod; [done|]. apply radix_cancel. by rewrite H2.
Qed.

Ltac mont_chain :=
  repeat lazymatch goal with
    | |- mont_power _ (montiply _ _) _ => eapply montiply_pow
    | |- mont_power _ (montwopow _ _) _ => eapply montwopow_pow
    | |- mont_power _ _ _ => eassumption
    end; reflexivity.
(** Name a step of the addition chain and record its exponent. *)
Ltac mont_name y t a e :=
  set (y := t); assert (mont_power a y e) by (unfold y; mont_chain); clearbody y.

Section addition_chain.
Local Opaque montiply mont_reduction montwopow.

Lemma binv_pow a : based a -> binv a = a ^ (PRIME - 2) mod PRIME.
Proof.
  intros Ha. unfold binv. set (y := montify a).
  assert (H1 : mont_power a y 1).
  { split; [lia|]. rewrite Z.pow_1_r. by apply montify_form. }
  clearbody y.
  mont_name y2 (montiply y (montiply y y)) a 3.
  mont_name y3 (montiply y (montiply y2 y2)) a 7.
  mont_name y5 (montiply y2 (montwopow y3 2)) a (2 ^ 5 - 1).
  mont_name y10 (montiply y5 (montwopow y5 5)) a (2 ^ 10 - 1).
  mont_name y20 (montiply y10 (montwopow y10 10)) a (2 ^ 20 - 1).
  mont_name y30 (montiply y10 (montwopow y20 10)) a (2 ^ 30 - 1).
  mont_name y31 (montiply y (montiply y30 y30)) a (2 ^ 31 - 1).
  mont_name dup (montiply (montwopow y31 32) y31) a ((2 ^ 31 - 1) * (2 ^ 32 + 1)).
  assert (mont_power a (montiply y (montiply dup dup)) (PRIME - 2)) as [_ Hf] by mont_chain.
  by apply mont_reduction_form.
Qed.

End addition_chain.

(** * Exponentiation *)

Lemma reduce_mul_mod a b : based a -> based b -> reduce (a * b) = (a * b) mod PRIME.
Proof. intros. by apply reduce_mod, based_mul. Qed.

Lemma bpow_loop_spec fuel a b c :
  based a -> based c -> 1 <= b < 2 ^ Z.of_nat fuel ->
  bpow_loop fuel a b c = (c * a ^ b) mod PRIME.
Proof.
  revert a b c. induction fuel as [|fuel IH]; intros a b c Ha Hc Hb; [simpl in Hb; lia|].
  rewrite Nat2Z.inj_succ, Z.pow_succ_r in Hb by lia.
  simpl. destruct (Z.ltb_spec 1 b).
  2:{ replace b with 1 by lia. rewrite Z.pow_1_r. by apply reduce_mul_mod. }
  rewrite !reduce_mul_mod by done. change 1 with (Z.ones 1) at 1. rewrite Z.land_ones by lia.
  assert (Hsq : forall k, 0 <= k -> (((a * a) mod PRIME) ^ k) == a ^ (2 * k)).
  { intros k Hk. rewrite cong_mod. by rewrite <- Z.pow_2_r, <- Z.pow_mul_r by lia. }
  pose proof (Z.div_mod b 2) as Hdm. pose proof (Z.mod_pos_bound b 2). 
  destruct (Z.eqb_spec (b mod 2 ^ 1) 0) as [E|E]; rewrite Z.pow_1_r in E.
  - rewrite IH by (apply mod_based || done || lia). 
    apply cong_iff. rewrite Hsq by lia.
    by replace (2 * (b / 2)) with b by lia.
  - replace ((b - 1) / 2) with (b / 2) by (apply Z.div_unique with 0; lia).
    rewrite IH by (apply mod_based || lia).
    apply cong_iff.
    rewrite Hsq, cong_mod by lia. replace b with (Z.succ (2 * (b / 2))) at 2 by lia.
    rewrite Z.pow_succ_r by lia. by rewrite Z.mul_assoc.
Qed.

Lemma bpow_mod a b : based a -> is_u64 b -> bpow a b = a ^ b mod PRIME.
Proof.
  intros Ha Hb. unfold bpow. destruct (Z.eqb_spec b 0) as [->|]; [done|].
  rewrite bpow_loop_spec by (done || (change (Z.of_nat 64) with 64; belt_nums; lia)).
  by rewrite Z.mul_1_l.
Qed.

(** * [PRIME] is prime *)

Lemma prime_divisor n : 1 < n -> exists q, Z.prime q /\ (q | n).
Proof.
  intros Hn. assert (Hge : 0 <= n) by lia. revert Hn. pattern n.
  apply Z_lt_induction; [|done]. intros m IH Hm.
  destruct (prime_dec m) as [Hp|Hp].
  - exists m. split; [by apply prime_alt|apply Z.divide_refl].
  - destruct (not_prime_divide m Hm Hp) as (k & Hk & Hd).
    destruct (IH k) as (q & Hq & Hqk); [lia..|]. exists q. split; [done|].
    by transitivity k.
Qed.

(** A positive number is a power of two times an odd number. *)
Lemma odd_part n : 0 < n -> exists k m, 0 <= k /\ n = 2 ^ k * (2 * m + 1) /\ 0 <= m.
Proof.
  intros Hn. assert (Hge : 0 <= n) by lia. revert Hn. pattern n.
  apply Z_lt_induction; [|done]. intros x IH Hx.
  destruct (Z.Even_or_Odd x) as [[y ->]|[y ->]].
  - destruct (IH y) as (k & m & Hk & -> & Hm); [lia..|]. exists (Z.succ k), m.
    rewrite Z.pow_succ_r by done. repeat split; (lia || ring).
  - exists 0, y. rewrite Z.pow_0_r. repeat split; lia.
Qed.

(** When [b^(2^n)] is -1 modulo an odd prime [q], 2^(n+1) divides [q - 1]. *)
Lemma order_bound q b n :
  Z.prime q -> 2 < q -> 0 <= n -> (q | b ^ 2 ^ n + 1) -> (2 ^ (n + 1) | q - 1).
Proof.
  intros Hq Hq2 Hn Hb. pose proof (Z.pow_pos_nonneg 2 n) as Hpos.
  assert (Hnz : b mod q <> 0).
  { intros E. apply Z.mod_divide in E; [|lia].
    apply Z.divide_add_cancel_r with (m := b ^ 2 ^ n) in Hb.
    - apply Z.divide_1_r_nonneg in Hb; lia.
    - apply Z.divide_trans with b; [done|]. exists (b ^ (2 ^ n - 1)).
      rewrite Z.mul_comm, <- Z.pow_succ_r by lia. f_equal; lia. }
  pose proof (Z.fermat_nz q b Hq Hnz) as Hf.
  destruct (odd_part (q - 1)) as (k & m & Hk & E & Hm); [lia|].
  destruct (Z.lt_ge_cases n k) as [Hk32|Hk32].
  { exists (2 ^ (k - (n + 1)) * (2 * m + 1)). rewrite E.
    replace k with ((k - (n + 1)) + (n + 1)) at 1 by lia. rewrite Z.pow_add_r by lia. ring. }
  exfalso. rewrite E in Hf. pose proof (Z.pow_pos_nonneg 2 k).
  pose proof (Z.pow_pos_nonneg 2 (n - k)).
  assert (Hone : (b ^ 2 ^ n) ^ (2 * m + 1) mod q = 1).
  { rewrite <- Z.pow_mul_r by lia.
    replace (2 ^ n * (2 * m + 1)) with (2 ^ k * (2 * m + 1) * 2 ^ (n - k)).
    - rewrite Z.pow_mul_r by nia. rewrite <- Z.mod_pow_l, Hf.
      rewrite Z.pow_1_l by lia. apply Z.mod_small; lia.
    - replace n with (k + (n - k)) at 2 by lia. rewrite Z.pow_add_r by lia. ring. }
  assert (Hneg : (b ^ 2 ^ n) mod q = (-1) mod q).
  { destruct Hb as [z Hz]. replace (b ^ 2 ^ n) with (-1 + z * q) by lia. apply Z.mod_add; lia. }
  rewrite <- Z.mod_pow_l, Hneg, Z.mod_pow_l in Hone.
  rewrite Z.pow_add_r, Z.pow_mul_r in Hone by lia. change ((-1) ^ 2) with 1 in Hone.
  rewrite Z.pow_1_l in Hone by lia. change (1 * (-1) ^ 1) with (-1) in Hone.
  replace (-1) with (q - 1 + (-1) * q) in Hone by ring.
  rewrite Z.mod_add, Z.mod_small in Hone; lia.
Qed.

(** 7 generates the multiplicative group; its power below has order 2^32. *)
Definition gen32 : Z := bpow 7 (2 ^ 32 - 1).

Lemma gen32_half : (PRIME | gen32 ^ 2 ^ 31 + 1).
Proof.
  assert (E : gen32 ^ 2 ^ 31 == -1).
  { apply cong_iff. rewrite <- bpow_mod; [vm_compute; reflexivity|split; by vm_compute..]. }
  rewrite <- (Z.sub_opp_r _ 1). exact E.
Qed.

Lemma prime_factor_large q : Z.prime q -> (q | PRIME) -> 2 ^ 32 < q.
Proof.
  intros Hq Hd. pose proof (Z.prime_ge_2 q Hq).
  assert (q <> 2). { intros ->. apply Z.mod_divide in Hd; [|lia]. by vm_compute in Hd. }
  assert (Hdiv : (2 ^ (31 + 1) | q - 1)).
  { apply order_bound with gen32; [done|lia|lia|]. by apply Z.divide_trans with PRIME, gen32_half. }
  apply Z.divide_pos_le in Hdiv; lia.
Qed.

Lemma PRIME_prime : Z.prime PRIME.
Proof.
  split; [done|]. intros n Hn [m E].
  assert (1 < m < PRIME) by nia.
  destruct (prime_divisor n) as (q & Hq & Hqn); [lia|].
  destruct (prime_divisor m) as (r & Hr & Hrm); [lia|].
  assert (2 ^ 32 < q).
  { apply prime_factor_large; [done|]. apply Z.divide_trans with n; [done|]. by exists m. }
  assert (2 ^ 32 < r).
  { apply prime_factor_large; [done|]. apply Z.divide_trans with m; [done|]. exists n. lia. }
  apply Z.divide_pos_le in Hqn, Hrm; [|lia..]. unfold PRIME in E. nia.
Qed.

(** * The field laws *)

Lemma binv_correct a : based a -> a <> 0 -> bmul a (binv a) = 1.
Proof.
  intros Ha Hnz. rewrite binv_pow by done. rewrite bmul_mod by (done || apply mod_based).
  assert (E : a * (a ^ (PRIME - 2) mod PRIME) == a ^ (PRIME - 1)).
  { rewrite cong_mod, <- Z.pow_succ_r by (unfold PRIME; lia).
    by replace (Z.succ (PRIME - 2)) with (PRIME - 1) by lia. }
  apply cong_iff in E. rewrite E. apply Z.fermat_nz; [apply PRIME_prime|].
  rewrite Z.mod_small; [done|]. apply Ha.
Qed.

Lemma mul_cancel a b : a * b == 0 -> a == 0 \/ b == 0.
Proof.
  unfold cong. rewrite !Z.sub_0_r. apply Z.divide_prime_mul, PRIME_prime.
Qed.

(** * The table of roots of unity *)

Definition root_at (k : nat) : Z := ROOTS !!! k.

Lemma roots_checked :
  forallb (fun k => based_check (root_at (S k)) && (0 <=? root_at (S k)) &&
    (bmul (root_at (S k)) (root_at (S k)) =? root_at k)) (seq 0 32) = true.
Proof. vm_compute. reflexivity. Qed.

(** Each root is based and squares to the one before it. *)
Lemma root_square k : (k < 32)%nat ->
  based (root_at (S k)) /\ root_at (S k) ^ 2 == root_at k.
Proof.
  intros Hk. pose proof roots_checked as Hall. rewrite forallb_forall in Hall.
  specialize (Hall k). rewrite in_seq, !andb_true_iff in Hall.
  destruct Hall as [[Hb H0] Hsq]; [lia|]. unfold based_check in Hb.
  assert (based (root_at (S k))) by (unfold based; lia). split; [done|].
  apply Z.eqb_eq in Hsq. rewrite bmul_mod in Hsq by done.
  rewrite Z.pow_2_r, <- cong_mod. by rewrite Hsq.
Qed.

Lemma root_based k : (k <= 32)%nat -> based (root_at k).
Proof. intros Hk. destruct k as [|k]; [by belt_nums|]. apply root_square. lia. Qed.

Lemma root_half k : (k < 32)%nat -> root_at (S k) ^ 2 ^ Z.of_nat k == -1.
Proof.
  induction k as [|k IH]; intros Hk; [cong_compute|].
  rewrite Nat2Z.inj_succ, Z.pow_succ_r, Z.pow_mul_r by lia.
  destruct (root_square (S k)) as [_ ->]; [lia|]. apply IH. lia.
Qed.

Lemma root_one k : (k <= 32)%nat -> root_at k ^ 2 ^ Z.of_nat k == 1.
Proof.
  destruct k as [|k]; intros Hk; [done|].
  rewrite Nat2Z.inj_succ, Z.pow_succ_r, Z.mul_comm, Z.pow_mul_r by lia.
  by rewrite root_half by lia.
Qed.

Lemma ordered_root_pow2 k : (k <= 32)%nat -> ordered_root (2 ^ Z.of_nat k) = Ok (root_at k).
Proof.
  intros Hk. unfold ordered_root, ilog2.
  pose proof (Z.pow_pos_nonneg 2 (Z.of_nat k)).
  destruct (Z.leb_spec (2 ^ Z.of_nat k) 0); [lia|]. unfold mbind, outcome_bind.
  rewrite Z.log2_pow2 by lia. change (Z.of_nat (length ROOTS)) with 33.
  destruct (Z.leb_spec 33 (Z.of_nat k)); [lia|].
  rewrite Z.shiftl_1_l, Z.eqb_refl. cbn [negb]. rewrite Nat2Z.id.
  destruct (lookup_lt_is_Some_2 ROOTS k) as [r Hr]; [change (length ROOTS) with 33%nat; lia|].
  rewrite Hr. unfold root_at. by rewrite (list_lookup_total_correct _ _ _ Hr).
Qed.

Lemma ordered_root_err x :
  0 < x -> (forall k, (k <= 32)%nat -> x <> 2 ^ Z.of_nat k) -> ordered_root x = Err OrderedRootError.
Proof.
  intros Hx Hk. unfold ordered_root, ilog2. destruct (Z.leb_spec x 0); [lia|]. unfold mbind, outcome_bind.
  change (Z.of_nat (length ROOTS)) with 33. destruct (Z.leb_spec 33 (Z.log2 x)) as [|Hl]; [done|].
  rewrite Z.shiftl_1_l. destruct (Z.eqb_spec x (2 ^ Z.log2 x)) as [E|]; [|done].
  exfalso. pose proof (Z.log2_nonneg x). apply (Hk (Z.to_nat (Z.log2 x))); [lia|].
  by rewrite Z2Nat.id by done.
Qed.

(** * Nouns *)

Lemma belt_noun_roundtrip b : based b -> Belt_from_noun (Belt_to_noun b) = Ok b.
Proof.
  intros Hb. unfold Belt_to_noun, Belt_from_noun, Atom_new.
  assert (based_check b = true) as E by (unfold based_check; apply Z.ltb_lt, Hb).
  destruct (b <=? DIRECT_MAX); simpl; by rewrite E.
Qed.

Lemma as_u64_Ok a v : wf_atom a -> as_u64 a = Ok v -> is_u64 v /\ a = Atom_new v.
Proof.
  intros Hwf Ha. assert (Hv : is_u64 v /\ atom_val a = v).
  { destruct a as [d|ws]; simpl in Ha.
    - simplify_eq. simpl in *. split; [|done]. rewrite DIRECT_MAX_val in Hwf. width. lia.
    - apply wf_indirect in Hwf as (Hws & _ & _). destruct ws as [|w [|]]; simplify_eq/=.
      apply Forall_cons in Hws as [Hw _]. split; [done|lia]. }
  destruct Hv as [Hv <-]. split; [done|]. destruct (wf_Atom_new _ Hv). by apply atom_val_inj.
Qed.

Lemma belt_from_noun_inv n b :
  wf_noun n -> Belt_from_noun n = Ok b -> based b /\ n = Belt_to_noun b.
Proof.
  intros Hwf. unfold Belt_from_noun, Belt_to_noun. destruct n as [a|]; [|done].
  destruct (as_u64 a) as [v|e|] eqn:Ea; simpl; [|done..].
  unfold based_check. destruct (Z.ltb_spec v PRIME); simpl; [|done]. intros [= <-].
  destruct (as_u64_Ok a v Hwf Ea) as [Hv ->]. split; [split; [apply Hv|done]|done].
Qed.

(** * Claims *)

(** C8: On field elements the branch-free word operations are the ring operations
    of the integers modulo [PRIME], and their results are field elements. *)
Theorem belt_ring a b :
  based a -> based b ->
  badd a b = (a + b) mod PRIME /\ bsub a b = (a - b) mod PRIME /\
  bneg a = (- a) mod PRIME /\ bmul a b = (a * b) mod PRIME.
Proof. intros. auto using badd_mod, bsub_mod, bneg_mod, bmul_mod. Qed.

Lemma belt_ring_witness :
  based 5 /\ based (PRIME - 2) /\ badd 5 (PRIME - 2) = 3 /\ bmul 5 (PRIME - 2) = PRIME - 10.
Proof.
  assert (H5 : based 5) by (unfold based, PRIME; lia).
  assert (H2 : based (PRIME - 2)) by (unfold based, PRIME; lia).
  destruct (belt_ring 5 (PRIME - 2) H5 H2) as (-> & _ & _ & ->). split; [done|split; [done|]].
  split; vm_compute; reflexivity.
Defined.

(** [reduce] is reduction modulo [PRIME] on every 128-bit number, [reduce_159]
    on every number whose top limb is below [PRIME] (159 bits and more), and the
    second conditional subtraction is never taken after the first one. *)
Theorem reduce_correct n low mid high :
  0 <= n < U128 -> is_u64 low -> is_u32 mid -> 0 <= high < PRIME ->
  reduce n = n mod PRIME /\
  reduce_159 low mid high = (low + mid * 2 ^ 64 + high * 2 ^ 96) mod PRIME /\
  (snd (reduce_159_carry low mid high) = true -> fst (reduce_159_carry low mid high) < PRIME).
Proof.
  intros Hn Hl Hm Hh. split; [by apply reduce_mod|]. split; [by apply reduce_159_mod|].
  rewrite reduce_159_carry_sum by done. pose proof (reduce_sum_range low mid high Hl Hm Hh).
  simpl. intros ->. lia.
Qed.

Lemma reduce_correct_witness :
  reduce (U128 - 1) = (U128 - 1) mod PRIME /\
  snd (reduce_159_carry (U64 - 1) (U32 - 1) 0) = true /\
  fst (reduce_159_carry (U64 - 1) (U32 - 1) 0) < PRIME.
Proof.
  destruct (reduce_correct (U128 - 1) (U64 - 1) (U32 - 1) 0) as (H1 & _ & H3).
  - unfold U128. lia.
  - width. lia.
  - width. lia.
  - unfold PRIME. lia.
  - split; [exact H1|]. split; [vm_compute; reflexivity|]. apply H3. vm_compute. reflexivity.
Defined.

(** [bpow] returns, for every 64-bit exponent, the power modulo [PRIME]: its
    loop ends within 64 iterations. *)
Theorem bpow_correct a b : based a -> is_u64 b -> bpow a b = a ^ b mod PRIME.
Proof. apply bpow_mod. Qed.

Lemma bpow_correct_witness : bpow 3 (2 ^ 63 + 1) = 3 ^ (2 ^ 63 + 1) mod PRIME.
Proof. apply (bpow_correct 3 (2 ^ 63 + 1)); [unfold based, PRIME; lia|width; lia]. Defined.

(** C11: [PRIME] is prime, and the Montgomery addition chain of [binv] computes the
    multiplicative inverse of every non-zero field element (and zero for zero). *)
Theorem binv_inverse a :
  based a ->
  Z.prime PRIME /\ based (binv a) /\ (a <> 0 -> bmul a (binv a) = 1) /\ (a = 0 -> binv a = 0).
Proof.
  intros Ha. split; [apply PRIME_prime|]. split; [rewrite binv_pow by done; apply mod_based|].
  split; [by apply binv_correct|]. intros ->. vm_compute. reflexivity.
Qed.

Lemma binv_inverse_witness : based 7 /\ bmul 7 (binv 7) = 1.
Proof.
  assert (H7 : based 7) by (unfold based, PRIME; lia). split; [exact H7|].
  apply (binv_inverse 7 H7). lia.
Defined.

(** [ordered_root] gives, for an order 2^k up to 2^32, a primitive root of
    unity of that order; it refuses every other positive order and panics on zero.
    The table is not the powers of [H] that the comment beside it names. *)
Theorem ordered_root_correct (k : nat) x :
  (k <= 32)%nat -> 0 < x -> (forall j, (j <= 32)%nat -> x <> 2 ^ Z.of_nat j) ->
  (exists r, ordered_root (2 ^ Z.of_nat k) = Ok r /\ based r /\ r ^ 2 ^ Z.of_nat k == 1 /\
     (0 < k -> r ^ 2 ^ Z.of_nat (k - 1) == -1)%nat) /\
  ordered_root x = Err OrderedRootError /\ ordered_root 0 = Panic /\
  ordered_root 4 <> Ok (bpow H (ORDER / 4)).
Proof.
  intros Hk Hx Hn. split; [|split; [by apply ordered_root_err|split; [done|]]].
  - exists (root_at k). split; [by apply ordered_root_pow2|]. split; [by apply root_based|].
    split; [by apply root_one|]. intros H0. destruct k as [|k]; [lia|].
    replace (S k - 1)%nat with k by lia. apply root_half. lia.
  - vm_compute. discriminate.
Qed.

Lemma pow2_not_six j : 6 <> 2 ^ Z.of_nat j.
Proof.
  destruct j as [|[|[|j]]]; [done..|]. rewrite !Nat2Z.inj_succ, !Z.pow_succ_r by lia.
  pose proof (Z.pow_pos_nonneg 2 (Z.of_nat j)). lia.
Qed.

Lemma ordered_root_correct_witness :
  ordered_root 6 = Err OrderedRootError /\ is_Some (ok_of (ordered_root (2 ^ Z.of_nat 5))).
Proof.
  destruct (ordered_root_correct 5 6) as ((r & Hr & _) & H6 & _); [lia|lia|intros; apply pow2_not_six|].
  split; [exact H6|]. rewrite Hr. eexists; reflexivity.
Defined.
