(* ===== verification/Vec.v ===== *)
(** Vectors and loops of the numeric code: indexing that panics out of range,
    [for] loops over a range with the invariant rule used by every loop proof,
    and [fill], [copy_from_slice] and [swap].  A computation is an [option];
    [None] is a panic. *)
From stdpp Require Import base option list numbers.
From Stdlib Require Import Lia.

Section vec.
Context {A : Type}.
Implicit Types (l : list A) (i : nat).

(** [l[i]] *)
Definition vget (l : list A) (i : nat) : option A := l !! i.
(** [l[i] = x] *)
Definition vset (l : list A) (i : nat) (x : A) : option (list A) :=
  if decide (i < length l) then Some (<[i:=x]> l) else None.
(** [l.swap(i, j)] *)
Definition vswap (l : list A) (i j : nat) : option (list A) :=
  x ← vget l i; y ← vget l j; l ← vset l i y; vset l j x.
(** [l.fill(x)] *)
Definition vfill (l : list A) (x : A) : list A := replicate (length l) x.
(** [l[0..n].copy_from_slice(&src[0..n])] *)
Definition vcopy (n : nat) (l src : list A) : option (list A) :=
  if decide (n <= length l /\ n <= length src) then Some (take n src ++ drop n l) else None.
(** [l.iter().rposition(p)] *)
Fixpoint rposition (p : A -> bool) (l : list A) : option nat :=
  match l with
  | [] => None
  | x :: l => match rposition p l with
              | Some i => Some (S i)
              | None => if p x then Some 0 else None
              end
  end.

Lemma vset_Some l i x l' :
  vset l i x = Some l' <-> i < length l /\ l' = <[i:=x]> l.
Proof. unfold vset. destruct (decide _); naive_solver. Qed.
Lemma vset_ok l i x : i < length l -> vset l i x = Some (<[i:=x]> l).
Proof. intros. apply vset_Some. done. Qed.
Lemma vget_ok l i : i < length l -> exists x, vget l i = Some x.
Proof. intros. by apply lookup_lt_is_Some. Qed.

Lemma rposition_None p l j x : rposition p l = None -> l !! j = Some x -> p x = false.
Proof.
  revert j. induction l as [|y l IH]; intros j; simpl; [done|].
  destruct (rposition p l) eqn:E; [done|]. destruct (p y) eqn:Ey; [done|].
  intros _. destruct j; simpl; [naive_solver|by apply IH].
Qed.
Lemma rposition_Some p l i :
  rposition p l = Some i ->
  (exists x, l !! i = Some x /\ p x = true) /\
  forall j x, i < j -> l !! j = Some x -> p x = false.
Proof.
  revert i. induction l as [|y l IH]; intros i; simpl; [done|].
  destruct (rposition p l) as [k|] eqn:E.
  - intros [= <-]. destruct (IH k eq_refl) as [(x & Hx & Hp) Hj]. split; [by exists x|].
    intros [|j] z Hlt; [lia|]. simpl. apply Hj. lia.
  - destruct (p y) eqn:Ey; [|done]. intros [= <-]. split; [by exists y|].
    intros [|j] z Hlt; [lia|]. simpl. by apply rposition_None.
Qed.
End vec.

(** [for i in lo..lo + n { body }] *)
Fixpoint for_range {S} (lo n : nat) (body : nat -> S -> option S) (s : S) : option S :=
  match n with
  | O => Some s
  | Datatypes.S n => s ← body lo s; for_range (Datatypes.S lo) n body s
  end.

(** A loop whose body keeps an indexed invariant does not panic and ends in it. *)
Lemma for_range_inv {S} (I : nat -> S -> Prop) lo n body (s : S) :
  I lo s ->
  (forall i s, lo <= i < lo + n -> I i s -> exists s', body i s = Some s' /\ I (Datatypes.S i) s') ->
  exists s', for_range lo n body s = Some s' /\ I (lo + n) s'.
Proof.
  revert lo s. induction n as [|n IH]; intros lo s Hs Hb; simpl.
  - exists s. by rewrite Nat.add_0_r.
  - destruct (Hb lo s) as (s' & -> & Hs'); [lia|done|]. simpl.
    replace (lo + Datatypes.S n) with (Datatypes.S lo + n) by lia. apply IH; [done|].
    intros i t Hi. apply Hb. lia.
Qed.

(** Run the first loop of the goal under the invariant [I]: two goals for the
    entry and the body, then the rest with the final state. *)
Tactic Notation "for_inv" constr(I) "as" simple_intropattern(p) :=
  match goal with
  | |- context [for_range ?lo ?n ?body ?s] => destruct (for_range_inv I lo n body s) as p
  end.
