(* ===== verification/Poly.v ===== *)
(** Univariate polynomials over a commutative ring whose equality is a setoid:
    the mathematical side of the polynomial code.  A polynomial is its list of
    coefficients, lowest first; [peq] ignores trailing zeros.  The section proves
    that polynomials form a commutative ring, that evaluation is a ring morphism,
    and the degree facts that division and gcd need. *)
From stdpp Require Import base option list numbers.
From Stdlib Require Import Lia Setoid Morphisms Ring.

Declare Scope poly_scope.

(** A commutative ring with its equality, as an interface. *)
Class SRing (R : Type) := {
  rO : R; rI : R;
  radd : R -> R -> R; rmul : R -> R -> R; rsub : R -> R -> R; ropp : R -> R;
  req : R -> R -> Prop;
  req_equiv :: Equivalence req;
  ring_ext : ring_eq_ext radd rmul ropp req;
  ring_laws : ring_theory rO rI radd rmul rsub ropp req;
}.

Section poly.
Context {R : Type} {HR : SRing R}.

Local Infix "==" := req (at level 70).
Local Infix "+" := radd.
Local Infix "*" := rmul.

Global Instance radd_proper : Proper (req ==> req ==> req) radd := Radd_ext ring_ext.
Global Instance rmul_proper : Proper (req ==> req ==> req) rmul := Rmul_ext ring_ext.
Global Instance ropp_proper : Proper (req ==> req) ropp := Ropp_ext ring_ext.
Add Ring coefficient_ring : ring_laws (setoid req_equiv ring_ext).

Definition coef (l : list R) (i : nat) : R := nth i l rO.
Definition peq (l m : list R) : Prop := forall i, coef l i == coef m i.

Fixpoint padd (l m : list R) : list R :=
  match l, m with
  | [], _ => m
  | _, [] => l
  | a :: l, b :: m => (a + b) :: padd l m
  end.
Definition popp (l : list R) : list R := map ropp l.
Definition psub (l m : list R) : list R := padd l (popp m).
Definition pscale (c : R) (l : list R) : list R := map (rmul c) l.
Fixpoint pmul (l m : list R) : list R :=
  match l with
  | [] => []
  | a :: l => padd (pscale a m) (rO :: pmul l m)
  end.
Fixpoint peval (l : list R) (x : R) : R :=
  match l with
  | [] => rO
  | a :: l => a + x * peval l x
  end.
(** Multiplication by a power of the indeterminate. *)
Definition pshift (n : nat) (l : list R) : list R := replicate n rO ++ l.

Global Instance peq_equiv : Equivalence peq.
Proof.
  split.
  - intros l i. reflexivity.
  - intros l m Hl i. symmetry. apply Hl.
  - intros l m n Hl Hm i. rewrite (Hl i). apply Hm.
Qed.

Global Instance coef_proper : Proper (peq ==> eq ==> req) coef.
Proof. intros l m Hl i ? <-. apply Hl. Qed.

Lemma coef_nil i : coef [] i = rO.
Proof. by destruct i. Qed.
Lemma coef_cons_0 a l : coef (a :: l) 0 = a.
Proof. done. Qed.
Lemma coef_cons_S a l i : coef (a :: l) (S i) = coef l i.
Proof. done. Qed.
Lemma coef_padd l m i : coef (padd l m) i == coef l i + coef m i.
Proof.
  revert m i. induction l as [|a l IH]; intros [|b m] [|i]; unfold coef in *; simpl; try ring.
  apply IH.
Qed.
Lemma coef_pscale c l i : coef (pscale c l) i == c * coef l i.
Proof. revert i. induction l; intros [|i]; unfold coef in *; simpl; try ring. done. Qed.
Lemma coef_popp l i : coef (popp l) i == ropp (coef l i).
Proof. revert i. induction l; intros [|i]; unfold coef in *; simpl; try ring. done. Qed.
Lemma coef_psub l m i : coef (psub l m) i == rsub (coef l i) (coef m i).
Proof. unfold psub. rewrite coef_padd, coef_popp. ring. Qed.

Lemma peq_cons a b l m : a == b -> peq l m -> peq (a :: l) (b :: m).
Proof. intros Ha Hl [|i]; [done|apply Hl]. Qed.
Lemma peq_nil_cons a l : peq [] (a :: l) <-> a == rO /\ peq [] l.
Proof.
  split.
  - intros H. split; [symmetry; apply (H 0)|]. intros i. rewrite <- (coef_cons_S a l i).
    rewrite <- (H (S i)), !coef_nil. reflexivity.
  - intros [Ha Hl] [|i]; [by symmetry|]. rewrite coef_cons_S, <- Hl, !coef_nil. reflexivity.
Qed.
Lemma peq_cons_inv a b l m : peq (a :: l) (b :: m) -> a == b /\ peq l m.
Proof. intros H. split; [apply (H 0)|]. intros i. apply (H (S i)). Qed.

Global Instance padd_proper : Proper (peq ==> peq ==> peq) padd.
Proof. intros l l' Hl m m' Hm i. by rewrite !coef_padd, (Hl i), (Hm i). Qed.
Global Instance popp_proper : Proper (peq ==> peq) popp.
Proof. intros l l' Hl i. by rewrite !coef_popp, (Hl i). Qed.
Global Instance psub_proper : Proper (peq ==> peq ==> peq) psub.
Proof. intros l l' Hl m m' Hm. unfold psub. by rewrite Hl, Hm. Qed.
Global Instance pscale_proper : Proper (req ==> peq ==> peq) pscale.
Proof. intros c d Hc l m Hl i. by rewrite !coef_pscale, Hc, (Hl i). Qed.
Global Instance cons_proper : Proper (req ==> peq ==> peq) cons.
Proof. intros a b Ha l m Hl. by apply peq_cons. Qed.

(** Goals about coefficients of sums, scalings and shifts. *)
Ltac coefs :=
  repeat first [ rewrite coef_padd | rewrite coef_pscale | rewrite coef_popp
               | rewrite coef_nil | rewrite coef_cons_0 | rewrite coef_cons_S ].
Ltac pring := intros [|?i]; coefs; ring.

Lemma padd_nil_r l : padd l [] = l.
Proof. by destruct l. Qed.
Lemma padd_comm l m : peq (padd l m) (padd m l).
Proof. intros i. coefs. ring. Qed.
Lemma padd_assoc l m n : peq (padd l (padd m n)) (padd (padd l m) n).
Proof. intros i. coefs. ring. Qed.
Lemma padd_opp l : peq (padd l (popp l)) [].
Proof. intros i. coefs. ring. Qed.
Lemma zero_cons_nil : peq [rO] [].
Proof. pring. Qed.

Lemma pmul_nil_r l : peq (pmul l []) [].
Proof.
  induction l as [|a l IH]; [done|]. simpl. rewrite IH. apply zero_cons_nil.
Qed.
Lemma pmul_cons_r l b m : peq (pmul l (b :: m)) (padd (pscale b l) (rO :: pmul l m)).
Proof.
  induction l as [|a l IH]; simpl; [symmetry; apply zero_cons_nil|].
  apply peq_cons; [ring|]. rewrite IH, !padd_assoc. apply padd_proper; [apply padd_comm|done].
Qed.
Lemma pmul_comm l m : peq (pmul l m) (pmul m l).
Proof.
  induction l as [|a l IH]; simpl; [by rewrite pmul_nil_r|].
  by rewrite pmul_cons_r, IH.
Qed.
Lemma pmul_zero_l l m : peq [] l -> peq (pmul l m) [].
Proof.
  induction l as [|a l IH]; simpl; [done|]. rewrite peq_nil_cons. intros [Ha Hl].
  rewrite Ha, (IH Hl). pring.
Qed.
Global Instance pmul_proper : Proper (peq ==> peq ==> peq) pmul.
Proof.
  assert (Hr : forall l m m', peq m m' -> peq (pmul l m) (pmul l m')).
  { intros l m m' Hm. induction l as [|a l IH]; simpl; [done|]. by rewrite IH, Hm. }
  intros l l' Hl m m' Hm. rewrite (Hr l m m' Hm), (pmul_comm l), (pmul_comm l'). by apply Hr.
Qed.
Lemma pscale_padd c l m : peq (pscale c (padd l m)) (padd (pscale c l) (pscale c m)).
Proof. intros i. coefs. ring. Qed.
Lemma pmul_padd_r l m n : peq (pmul l (padd m n)) (padd (pmul l m) (pmul l n)).
Proof.
  induction l as [|a l IH]; simpl; [done|]. rewrite IH. pring.
Qed.
Lemma pmul_padd_l l m n : peq (pmul (padd l m) n) (padd (pmul l n) (pmul m n)).
Proof. by rewrite pmul_comm, pmul_padd_r, (pmul_comm n l), (pmul_comm n m). Qed.
Lemma pmul_pscale_l c l m : peq (pmul (pscale c l) m) (pscale c (pmul l m)).
Proof. induction l as [|a l IH]; simpl; [done|]. rewrite IH. pring. Qed.
Lemma pmul_assoc l m n : peq (pmul l (pmul m n)) (pmul (pmul l m) n).
Proof.
  induction l as [|a l IH]; simpl; [done|].
  rewrite pmul_padd_l, pmul_pscale_l, IH. simpl. apply padd_proper; [done|].
  pring.
Qed.
Lemma pmul_1_l l : peq (pmul [rI] l) l.
Proof. simpl. pring. Qed.

Lemma pring_theory : ring_theory [] [rI] padd pmul psub popp peq.
Proof.
  split; intros; try done.
  - apply padd_comm.
  - apply padd_assoc.
  - apply pmul_1_l.
  - apply pmul_comm.
  - apply pmul_assoc.
  - apply pmul_padd_l.
  - apply padd_opp.
Qed.
Lemma pring_eq_ext : ring_eq_ext padd pmul popp peq.
Proof. split; apply _. Qed.

(** * Evaluation *)

Lemma peval_padd l m x : peval (padd l m) x == peval l x + peval m x.
Proof.
  revert m. induction l as [|a l IH]; intros [|b m]; simpl; try ring. rewrite IH. ring.
Qed.
Lemma peval_pscale c l x : peval (pscale c l) x == c * peval l x.
Proof. induction l as [|a l IH]; simpl; [ring|]. rewrite IH. ring. Qed.
Lemma peval_popp l x : peval (popp l) x == ropp (peval l x).
Proof. induction l as [|a l IH]; simpl; [ring|]. rewrite IH. ring. Qed.
Lemma peval_pmul l m x : peval (pmul l m) x == peval l x * peval m x.
Proof.
  induction l as [|a l IH]; simpl; [ring|].
  rewrite peval_padd, peval_pscale. simpl. rewrite IH. ring.
Qed.
Lemma peval_nil l x : peq [] l -> peval l x == rO.
Proof.
  induction l as [|a l IH]; simpl; [done|]. rewrite peq_nil_cons. intros [-> Hl].
  rewrite (IH Hl). ring.
Qed.
Global Instance peval_proper : Proper (peq ==> req ==> req) peval.
Proof.
  intros l m Hl x y Hx. revert m Hl. induction l as [|a l IH]; intros [|b m] Hl; simpl; try done.
  - symmetry. by apply (peval_nil (b :: m)).
  - by apply (peval_nil (a :: l)).
  - apply peq_cons_inv in Hl as [Ha Hl]. by rewrite Ha, (IH _ Hl), Hx.
Qed.

(** * Coefficients of shifts, prefixes and updates *)

Lemma coef_lookup l i x : l !! i = Some x -> coef l i = x.
Proof. unfold coef. revert i. induction l; intros [|i] ?; naive_solver. Qed.
Lemma coef_beyond l i : length l <= i -> coef l i = rO.
Proof. apply nth_overflow. Qed.
Lemma coef_insert l k v i : k < length l -> coef (<[k:=v]> l) i = if decide (i = k) then v else coef l i.
Proof.
  intros Hk. case_decide as E.
  - subst. apply coef_lookup. by apply list_lookup_insert_eq.
  - revert k i Hk E. induction l as [|a l IH]; intros [|k] [|i] Hk E; simpl in *; try done; try lia.
    rewrite !coef_cons_S. apply IH; lia.
Qed.
Lemma coef_app l m i : coef (l ++ m) i = if decide (i < length l) then coef l i else coef m (i - length l).
Proof. unfold coef. case_decide; [apply app_nth1; lia|apply app_nth2; lia]. Qed.
Lemma coef_replicate n i : coef (replicate n rO) i = rO.
Proof. revert i. induction n; intros [|i]; unfold coef in *; simpl; auto. Qed.
Lemma coef_pshift n l i : coef (pshift n l) i = if decide (i < n) then rO else coef l (i - n).
Proof.
  unfold pshift. rewrite coef_app, length_replicate. case_decide; [apply coef_replicate|done].
Qed.
Lemma coef_take n l i : coef (take n l) i = if decide (i < n) then coef l i else rO.
Proof.
  revert n i. induction l as [|a l IH]; intros [|n] [|i]; simpl; try done;
    rewrite ?coef_nil; try by case_decide.
  rewrite !coef_cons_S, IH. repeat case_decide; try lia; done.
Qed.
Global Instance pshift_proper n : Proper (peq ==> peq) (pshift n).
Proof. intros l m Hl i. rewrite !coef_pshift. case_decide; [done|apply Hl]. Qed.

Lemma pshift_S n l : pshift (S n) l = rO :: pshift n l.
Proof. done. Qed.
Lemma pshift_0 l : pshift 0 l = l.
Proof. done. Qed.
Lemma replicate_zero n : peq (replicate n rO) [].
Proof. intros i. by rewrite coef_replicate, coef_nil. Qed.
(** Adding to one coefficient. *)
Lemma insert_add l k v w :
  k < length l -> v == coef l k + w -> peq (<[k:=v]> l) (padd l (pshift k [w])).
Proof.
  intros Hk Hv i. rewrite coef_insert, coef_padd, coef_pshift by done.
  repeat case_decide; subst; try lia.
  - rewrite Nat.sub_diag. done.
  - ring.
  - destruct (i - k) as [|j] eqn:E; [lia|]. rewrite coef_cons_S, coef_nil. ring.
Qed.
Lemma pmul_snoc l x m : peq (pmul (l ++ [x]) m) (padd (pmul l m) (pshift (length l) (pscale x m))).
Proof.
  induction l as [|a l IH]; simpl.
  - rewrite pshift_0. intros i. rewrite !coef_padd. destruct i; rewrite ?coef_cons_0, ?coef_cons_S, ?coef_nil; ring.
  - rewrite IH, pshift_S. intros i. rewrite !coef_padd. destruct i; rewrite ?coef_cons_0, ?coef_cons_S, ?coef_padd; ring.
Qed.
Lemma pshift_snoc n l x : peq (pshift n (l ++ [x])) (padd (pshift n l) (pshift (n + length l) [x])).
Proof.
  intros i. rewrite coef_padd, !coef_pshift, coef_app. repeat case_decide; try lia.
  - ring.
  - ring.
  - rewrite (coef_beyond l) by lia. replace (i - n - length l) with (i - (n + length l)) by lia. ring.
Qed.
Lemma pscale_snoc c l x : pscale c (l ++ [x]) = pscale c l ++ [c * x].
Proof. unfold pscale. by rewrite map_app. Qed.
Lemma length_pscale c l : length (pscale c l) = length l.
Proof. apply length_map. Qed.
(** A shift is a product by a monomial. *)
Lemma pshift_pmul n l m : peq (pmul (pshift n l) m) (pshift n (pmul l m)).
Proof.
  unfold pshift. induction n as [|n IH]; simpl; [done|]. rewrite IH.
  intros i. rewrite coef_padd, coef_pscale. ring.
Qed.
Lemma pmul_monomial n c m : peq (pmul (pshift n [c]) m) (pshift n (pscale c m)).
Proof.
  rewrite pshift_pmul. apply pshift_proper. simpl. intros [|i]; rewrite coef_padd;
    rewrite ?coef_cons_0, ?coef_cons_S, ?coef_nil; ring.
Qed.

(** * Degree bounds *)

Definition deg_le (l : list R) (n : nat) : Prop := forall j, n < j -> coef l j == rO.

Global Instance deg_le_proper : Proper (peq ==> eq ==> iff) deg_le.
Proof.
  assert (Hone : forall l m n, peq l m -> deg_le l n -> deg_le m n).
  { intros l m n Hlm Hl j Hj. rewrite <- (Hlm j). by apply Hl. }
  intros l m Hlm n ? <-. split; apply Hone; [done|by symmetry].
Qed.
Lemma deg_le_nil l : deg_le (l :: []) 0.
Proof. intros [|j] Hj; [lia|]. by rewrite coef_cons_S, coef_nil. Qed.

Lemma pmul_zero_coefs l m j : (forall i, i <= j -> coef l i == rO) -> coef (pmul l m) j == rO.
Proof.
  revert j. induction l as [|a l IH]; intros j Hl; simpl; [by rewrite coef_nil|].
  rewrite coef_padd, coef_pscale.
  assert (Ha : a == rO) by (apply (Hl 0); lia). rewrite Ha.
  destruct j as [|j]; rewrite ?coef_cons_0, ?coef_cons_S; [ring|].
  rewrite IH; [ring|]. intros i Hi. apply (Hl (S i)). lia.
Qed.

(** The top coefficient of a product. *)
Lemma coef_pmul_top l m n k :
  deg_le l n -> deg_le m k ->
  coef (pmul l m) (n + k) == coef l n * coef m k /\ deg_le (pmul l m) (n + k).
Proof.
  revert n. induction l as [|a l IH]; intros n Hl Hm.
  { simpl. rewrite !coef_nil. split; [ring|]. intros j _. by rewrite coef_nil. }
  assert (Hp : forall j, coef (pmul (a :: l) m) j == a * coef m j + coef (rO :: pmul l m) j).
  { intros j. simpl. by rewrite coef_padd, coef_pscale. }
  destruct n as [|n].
  - assert (Hz : forall j, coef (pmul l m) j == rO).
    { intros j. apply pmul_zero_coefs. intros i _. apply (Hl (S i)). lia. }
    split.
    + rewrite Hp. change (coef (a :: l) 0) with a.
      destruct k; simpl Nat.add; rewrite ?coef_cons_0, ?coef_cons_S, ?Hz; ring.
    + intros [|j] Hj; [lia|]. rewrite Hp, coef_cons_S, Hz, (Hm (S j)) by lia. ring.
  - destruct (IH n) as [H1 H2]; [intros j Hj; apply (Hl (S j)); lia|done|]. split.
    + simpl Nat.add. rewrite Hp, !coef_cons_S, H1, (Hm (S (n + k))) by lia. ring.
    + intros [|j] Hj; [lia|]. rewrite Hp, coef_cons_S, (Hm (S j)), (H2 j) by lia. ring.
Qed.
End poly.

#[global] Arguments pmul : simpl nomatch.
#[global] Arguments padd : simpl nomatch.
