(* ===== verification/BPoly.v ===== *)
(** Polynomials over the base field: [poly.rs] and [bpoly.rs] of
    [crates/nockchain-math/src].

    A slice is the list of its words, lowest coefficient first.  Output slices are
    arguments and results, as in the source, so that a result slice that is too
    short behaves as the code does: writes by index panic ([None]), writes through
    [zip] stop early. *)
From stdpp Require Import base option list numbers.
From Stdlib Require Import ZArith Lia.
From S2P Require Import Prelude Belt Vec Poly.

(** * The [Poly] trait on slices of belts *)

Definition Belt_is_zero (b : Belt) : bool := b =? 0.

Definition degree (data : list Belt) : nat :=
  match rposition (fun x => negb (Belt_is_zero x)) data with
  | Some i => i
  | None => 0%nat
  end.

Definition leading_coeff (data : list Belt) : option Belt := vget data (degree data).

Definition is_zero (data : list Belt) : bool :=
  match data with
  | [] => true
  | [x] => if Belt_is_zero x then true else forallb Belt_is_zero data
  | _ => forallb Belt_is_zero data
  end.

(** * Addition, subtraction, scaling *)

(** [zip(res, max).zip(min.map(Some).chain(repeat(None)))] *)
Fixpoint bpadd_zip (res mx mn : list Belt) : list Belt :=
  match res, mx with
  | _ :: res, x :: mx =>
      match mn with
      | y :: mn => badd y x :: bpadd_zip res mx mn
      | [] => x :: bpadd_zip res mx []
      end
  | _, _ => res
  end.

Definition bpadd (a b res : list Belt) : list Belt :=
  let '(mn, mx) := if (length a <=? length b)%nat then (a, b) else (b, a) in
  bpadd_zip res mx mn.

Definition bpadd_ (left right : list Belt) : list Belt :=
  bpadd left right (replicate (max (length left) (length right)) 0).

(** The loop of the two [_in_place] functions stops at the end of [b]. *)
Fixpoint zip_in_place (f : Belt -> Belt -> Belt) (a b : list Belt) : list Belt :=
  match a, b with
  | x :: a, y :: b => f x y :: zip_in_place f a b
  | _, _ => a
  end.

Definition bpadd_in_place (a b : list Belt) : option (list Belt) :=
  if (length b <=? length a)%nat then Some (zip_in_place (fun x y => badd y x) a b) else None.

Definition bpsub_in_place (a b : list Belt) : list Belt :=
  zip_in_place (fun x y => bsub x y) a b.

Definition bpsub (a b res : list Belt) : option (list Belt) :=
  let a_len := length a in
  let b_len := length b in
  let res_len := max a_len b_len in
  for_range 0 res_len (fun n res =>
    if (n <? a_len)%nat && (n <? b_len)%nat then
      x ← vget a n; y ← vget b n; vset res n (bsub x y)
    else if (n <? a_len)%nat then
      x ← vget a n; vset res n x
    else
      y ← vget b n; vset res n (bneg y)) res.

Definition bpsub_ (left right : list Belt) : option (list Belt) :=
  bpsub left right (replicate (max (length left) (length right)) 0).

(** [for (res, b) in res.iter_mut().zip(b.iter()) { *res = f(b) }] *)
Fixpoint zip_map (f : Belt -> Belt) (b res : list Belt) : list Belt :=
  match res, b with
  | _ :: res, y :: b => f y :: zip_map f b res
  | _, _ => res
  end.

Definition bpscal (scalar : Belt) (b res : list Belt) : list Belt := zip_map (bmul scalar) b res.
Definition bpscal_ (scalar : Belt) (b : list Belt) : list Belt :=
  bpscal scalar b (replicate (length b) 0).
Definition bpneg (b res : list Belt) : list Belt := zip_map bneg b res.

Fixpoint zip_map2 (f : Belt -> Belt -> Belt) (a b res : list Belt) : list Belt :=
  match res, a, b with
  | _ :: res, x :: a, y :: b => f x y :: zip_map2 f a b res
  | _, _, _ => res
  end.

Definition bp_hadamard (a b res : list Belt) : option (list Belt) :=
  if (length a =? length b)%nat then Some (zip_map2 bmul a b res) else None.
Definition bp_hadamard_ (a b : list Belt) : option (list Belt) :=
  if (length a =? length b)%nat then Some (zip_map2 bmul a b (replicate (length a) 0)) else None.

(** * Multiplication *)

Definition bpmul (a b res : list Belt) : option (list Belt) :=
  if is_zero a || is_zero b then Some (vfill res 0)
  else
    let res := vfill res 0 in
    for_range 0 (length a) (fun i res =>
      ai ← vget a i;
      if ai =? 0 then Some res
      else
        for_range 0 (length b) (fun j res =>
          bj ← vget b j; r ← vget res (i + j); vset res (i + j) (badd r (bmul ai bj))) res) res.

(** [left.len() + right.len() - 1] underflows for two empty slices, and the
    allocation of the wrapped length panics. *)
Definition bpmul_ (left right : list Belt) : option (list Belt) :=
  if (length left + length right =? 0)%nat then None
  else bpmul left right (replicate (length left + length right - 1) 0).

(** [while n != 0]: [n] is a [usize], so 64 halvings end the loop. *)
Fixpoint bppow_loop (fuel : nat) (q p : list Belt) (n : Z) : option (list Belt) :=
  if n =? 0 then Some q
  else match fuel with
  | O => None
  | S fuel =>
      if Z.land n 1 =? 1 then
        q ← bpmul_ q p; bppow_loop fuel q p (Z.shiftr n 1)
      else
        p ← bpmul_ p p; bppow_loop fuel q p (Z.shiftr n 1)
  end.

Definition bppow (a : list Belt) (n : Z) : option (list Belt) := bppow_loop 64 [1] a n.

(** * Shift, zero extension, normalization *)

Definition bp_shift (poly_a : list Belt) (belt_b : Belt) (poly_res : list Belt) : option (list Belt) :=
  '(res, _) ← for_range 0 (length poly_a) (fun i '(res, belt_power) =>
    x ← vget poly_a i;
    res ← vset res i (bmul x belt_power);
    Some (res, bmul belt_power belt_b)) (poly_res, 1);
  Some res.

Definition bpoly_zero_extend (a res : list Belt) : option (list Belt) :=
  res ← vcopy (length a) res a;
  Some (take (length a) res ++ replicate (length res - length a) 0).

(** [for i in (0..a.len()).rev() { if a[i] is zero then a.pop() else break }] *)
Fixpoint pop_zeros (i : nat) (a : list Belt) : option (list Belt) :=
  match i with
  | O => Some a
  | S i => x ← vget a i;
           if Belt_is_zero x then pop_zeros i (take (length a - 1) a) else Some a
  end.

Definition normalize_bpoly (a : list Belt) : option (list Belt) :=
  if (length a <=? 1)%nat then Some a
  else if is_zero a then Some [0]
  else pop_zeros (length a) a.

(** * Division and the extended Euclidean algorithm *)

(** The body of the [while deg_r >= deg_b] loop for one [i]. *)
Definition bpdvr_row (b : list Belt) (a_end deg_b i : nat) (coeff : Belt) (r : list Belt) :
    option (list Belt) :=
  for_range 0 (deg_b + 1) (fun k r =>
    if (k <=? a_end)%nat && (k <? length b)%nat && (k <=? i)%nat then
      x ← vget r (i - k); y ← vget b (deg_b - k);
      vset r (i - k) (bsub x (bmul coeff y))
    else Some r) r.

(** [deg_r] falls by one each round (saturating), so [a_end + 1] rounds end it. *)
Fixpoint bpdvr_loop (fuel : nat) (b : list Belt) (a_end deg_b i deg_r q_index : nat)
    (q r : list Belt) : option (list Belt * list Belt * nat) :=
  if (deg_b <=? deg_r)%nat then
    match fuel with
    | O => None
    | S fuel =>
        ri ← vget r i; bn ← vget b deg_b;
        let coeff := bmul ri (binv bn) in
        q ← vset q q_index coeff;
        r ← bpdvr_row b a_end deg_b i coeff r;
        let deg_r := (deg_r - 1)%nat in
        let q_index := (q_index - 1)%nat in
        r0 ← vget r 0;
        if (deg_r =? 0)%nat && (r0 =? 0) then Some (q, r, deg_r)
        else if (i =? 0)%nat then None
        else bpdvr_loop fuel b a_end deg_b (i - 1) deg_r q_index q r
    end
  else Some (q, r, deg_r).

Definition bpdvr (a b q res : list Belt) : option (list Belt * list Belt) :=
  if is_zero a then Some (vfill q 0, vfill res 0)
  else if is_zero b then None
  else
    let q := vfill q 0 in
    let res := vfill res 0 in
    let a_end := degree a in
    let r := take (a_end + 1) a in
    let deg_b := degree b in
    '(q, r, deg_r) ← bpdvr_loop (a_end + 1) b a_end deg_b a_end a_end (a_end - deg_b) q r;
    res ← vcopy (deg_r + 1) res r;
    Some (q, res).

(** One of the two cofactor updates of [bpegcd]: [m2 - q * m1] with the buffer of
    the product given by its length. *)
Definition egcd_cofactor (q m1 m2 : list Belt) (buf : list Belt) : option (list Belt) :=
  res1 ← bpmul q m1 buf;
  bpsub m2 res1 (replicate (max (length m2) (length q + length m1 - 1)) 0).

Fixpoint bpegcd_loop (fuel : nat) (a b m1_u m2_u m1_v m2_v : list Belt) :
    option (list Belt * list Belt * list Belt) :=
  if is_zero b then Some (a, m2_u, m2_v)
  else match fuel with
  | O => None
  | S fuel =>
      let deg_a := degree a in
      let deg_b := degree b in
      let deg_q := (deg_a - deg_b)%nat in
      '(q, r) ← bpdvr a b (replicate (deg_q + 1) 0) (replicate (deg_b + 1) 0);
      let buf := replicate (length q + length m1_u - 1) 0 in
      res2 ← egcd_cofactor q m1_u m2_u buf;
      res3 ← egcd_cofactor q m1_v m2_v buf;
      bpegcd_loop fuel b r res2 m1_u res3 m1_v
  end.

(** Each round lowers the degree of [b], so [degree b + 1] rounds reach zero. *)
Definition bpegcd (a b d u v : list Belt) : option (list Belt * list Belt * list Belt) :=
  let d := vfill d 0 in
  let u := vfill u 0 in
  let v := vfill v 0 in
  '(a, m2_u, m2_v) ← bpegcd_loop (degree b + 1) a b [0] [1] [1] [0];
  d ← vcopy (length a) d a;
  u ← vcopy (length m2_u) u m2_u;
  v ← vcopy (length m2_v) v m2_v;
  Some (d, u, v).

(** * The base field as a coefficient ring *)

Lemma belt_ring_ext : ring_eq_ext Z.add Z.mul Z.opp cong.
Proof. split; apply _. Qed.
Lemma belt_ring_laws : ring_theory 0 1 Z.add Z.mul Z.sub Z.opp cong.
Proof.
  split; intros.
  - by rewrite Z.add_0_l.
  - by rewrite Z.add_comm.
  - by rewrite Z.add_assoc.
  - by rewrite Z.mul_1_l.
  - by rewrite Z.mul_comm.
  - by rewrite Z.mul_assoc.
  - by rewrite Z.mul_add_distr_r.
  - by rewrite Z.add_opp_r.
  - by rewrite Z.add_opp_diag_r.
Qed.
Global Instance belt_sring : SRing Z :=
  {| rO := 0; rI := 1; radd := Z.add; rmul := Z.mul; rsub := Z.sub; ropp := Z.opp; req := cong;
     ring_ext := belt_ring_ext; ring_laws := belt_ring_laws |}.

Lemma eq_cong a b : a = b -> a == b.
Proof. by intros ->. Qed.
(** Congruences that already hold in the integers. *)
Ltac zfold := cbn [radd rmul rsub ropp rO rI req belt_sring] in *.
Ltac zring := zfold; apply eq_cong; ring.
Add Ring belt_polynomials :
  (pring_theory (R := Z)) (setoid (peq_equiv (R := Z)) (pring_eq_ext (R := Z))).

Infix "≃" := (peq (R := Z)) (at level 70) : nock_scope.

Notation based_poly := (Forall based).

Lemma based_0 : based 0.
Proof. by belt_nums. Qed.
Lemma based_1 : based 1.
Proof. by belt_nums. Qed.
Lemma badd_based a b : based a -> based b -> based (badd a b).
Proof. intros. rewrite badd_mod by done. apply mod_based. Qed.
Lemma bsub_based a b : based a -> based b -> based (bsub a b).
Proof. intros. rewrite bsub_mod by done. apply mod_based. Qed.
Lemma bneg_based a : based a -> based (bneg a).
Proof. intros. rewrite bneg_mod by done. apply mod_based. Qed.
Lemma bmul_based a b : based a -> based b -> based (bmul a b).
Proof. intros. rewrite bmul_mod by done. apply mod_based. Qed.
Lemma binv_based a : based a -> based (binv a).
Proof. intros. rewrite binv_pow by done. apply mod_based. Qed.
#[export] Hint Resolve based_0 based_1 badd_based bsub_based bneg_based bmul_based binv_based : nock.

Lemma badd_cong a b : based a -> based b -> badd a b == a + b.
Proof. intros. rewrite badd_mod by done. apply cong_mod. Qed.
Lemma bsub_cong a b : based a -> based b -> bsub a b == a - b.
Proof. intros. rewrite bsub_mod by done. apply cong_mod. Qed.
Lemma bneg_cong a : based a -> bneg a == - a.
Proof. intros. rewrite bneg_mod by done. apply cong_mod. Qed.
Lemma bmul_cong a b : based a -> based b -> bmul a b == a * b.
Proof. intros. rewrite bmul_mod by done. apply cong_mod. Qed.

Lemma based_lookup l i x : based_poly l -> l !! i = Some x -> based x.
Proof. intros Hl. by apply Forall_lookup. Qed.
Lemma based_insert l i x : based_poly l -> based x -> based_poly (<[i:=x]> l).
Proof. apply Forall_insert. Qed.
Lemma based_zeros n : based_poly (replicate n 0).
Proof. apply Forall_replicate, based_0. Qed.
Lemma based_coef l i : based_poly l -> based (coef l i).
Proof.
  intros Hl. destruct (l !! i) as [x|] eqn:E.
  - rewrite (coef_lookup _ _ _ E). by eapply based_lookup.
  - rewrite coef_beyond; [apply based_0|by apply lookup_ge_None].
Qed.
#[export] Hint Resolve based_insert based_zeros based_coef : nock.

(** Basedness of a concrete slice, by evaluation. *)
Definition based_polyb (l : list Z) : bool := forallb (fun x => (0 <=? x) && (x <? PRIME)) l.
Lemma based_polyb_ok l : based_polyb l = true -> based_poly l.
Proof.
  induction l as [|x l IH]; simpl; [constructor|]. rewrite !andb_true_iff. intros [[H0 H1] Hl].
  constructor; [unfold based; lia|by apply IH].
Qed.

Lemma coef_zeros n i : coef (replicate n 0) i = 0.
Proof. exact (coef_replicate (R := Z) n i). Qed.
Lemma zeros_peq n : replicate n 0 ≃ [].
Proof. exact (replicate_zero (R := Z) n). Qed.

(** Two based slices of equal length that are equal as polynomials are equal. *)
Lemma based_peq l m : based_poly l -> based_poly m -> length l = length m -> l ≃ m -> l = m.
Proof.
  intros Hl Hm Hlen Heq. apply list_eq_same_length with (length m); [done..|].
  intros i x y Hi Hx Hy. apply cong_based;
    [exact (based_lookup _ _ _ Hl Hx)|exact (based_lookup _ _ _ Hm Hy)|].
  rewrite <- (coef_lookup _ _ _ Hx), <- (coef_lookup _ _ _ Hy). apply Heq.
Qed.

(** * Sums, differences and multiples *)

Lemma bpadd_zip_spec res mx mn :
  based_poly mx -> based_poly mn -> (length mn <= length mx)%nat -> length res = length mx ->
  length (bpadd_zip res mx mn) = length mx /\ based_poly (bpadd_zip res mx mn) /\
  bpadd_zip res mx mn ≃ padd mx mn.
Proof.
  revert mx mn. induction res as [|r res IH]; intros [|x mx] [|y mn] Hx Hn Hle Hlen;
    simpl in *; try lia; [by split_and!|apply Forall_cons_1 in Hx as [Hx0 Hx]..].
  - destruct (IH mx []) as (IH1 & IH2 & IH3); [done|constructor|simpl; lia|lia|].
    rewrite IH1. split; [done|]. split; [by constructor|]. apply peq_cons; [done|].
    by rewrite IH3, padd_nil_r.
  - apply Forall_cons_1 in Hn as [Hy0 Hn].
    destruct (IH mx mn) as (IH1 & IH2 & IH3); [done|done|lia|lia|].
    rewrite IH1. split; [done|]. split; [constructor; auto with nock|]. apply peq_cons; [|done].
    simpl. rewrite badd_cong by done. zring.
Qed.

Lemma bpadd_spec a b res :
  based_poly a -> based_poly b -> length res = max (length a) (length b) ->
  length (bpadd a b res) = length res /\ based_poly (bpadd a b res) /\ bpadd a b res ≃ padd a b.
Proof.
  intros Ha Hb Hlen. unfold bpadd. destruct (Nat.leb_spec (length a) (length b)).
  - destruct (bpadd_zip_spec res b a) as (H1 & H2 & H3); [done..|lia|]. rewrite H1.
    split; [lia|]. split; [done|]. rewrite H3. ring.
  - destruct (bpadd_zip_spec res a b) as (H1 & H2 & H3); [done|done|lia..|]. rewrite H1.
    split; [lia|]. done.
Qed.

Lemma zip_map_spec f c res b :
  (forall x, based x -> based (f x) /\ f x == c * x) ->
  based_poly b -> length res = length b ->
  length (zip_map f b res) = length b /\ based_poly (zip_map f b res) /\
  zip_map f b res ≃ pscale c b.
Proof.
  intros Hf. revert b. induction res as [|r res IH]; intros [|y b] Hb Hlen; simpl in *; try lia; [by split_and!|].
  apply Forall_cons_1 in Hb as [Hy Hb]. destruct (IH b Hb) as (H1 & H2 & H3); [lia|].
  destruct (Hf y Hy). rewrite H1. split; [done|]. split; [by constructor|]. by apply peq_cons.
Qed.

Lemma bpscal_spec c b res :
  based c -> based_poly b -> length res = length b ->
  length (bpscal c b res) = length b /\ based_poly (bpscal c b res) /\ bpscal c b res ≃ pscale c b.
Proof.
  intros Hc. apply zip_map_spec. intros x Hx. split; [auto with nock|]. by apply bmul_cong.
Qed.

Lemma bpneg_spec b res :
  based_poly b -> length res = length b ->
  length (bpneg b res) = length b /\ based_poly (bpneg b res) /\ bpneg b res ≃ popp b.
Proof.
  intros Hb Hlen. destruct (zip_map_spec bneg (-1) res b) as (H1 & H2 & H3); [|done..|].
  - intros x Hx. split; [auto with nock|]. rewrite bneg_cong by done. zring.
  - split; [done|]. split; [done|]. unfold bpneg. rewrite H3. intros i.
    rewrite coef_pscale, coef_popp. zring.
Qed.

(** A write keeps length and range, and adds to one coefficient. *)
Lemma vset_based l k x :
  based_poly l -> based x -> (k < length l)%nat ->
  exists l', vset l k x = Some l' /\ l' = <[k:=x]> l /\ based_poly l' /\ length l' = length l.
Proof.
  intros Hl Hx Hk. exists (<[k:=x]> l). rewrite vset_ok, length_insert by done.
  auto with nock.
Qed.

Definition bpsub_at (a b : list Belt) (n : nat) : Belt :=
  if (n <? length a)%nat && (n <? length b)%nat then bsub (coef a n) (coef b n)
  else if (n <? length a)%nat then coef a n else bneg (coef b n).

Lemma bpsub_at_spec a b n :
  based_poly a -> based_poly b ->
  based (bpsub_at a b n) /\ bpsub_at a b n == coef a n - coef b n.
Proof.
  intros Ha Hb. unfold bpsub_at.
  destruct (Nat.ltb_spec n (length a)), (Nat.ltb_spec n (length b)); simpl;
    (split; [auto with nock|]).
  - by apply bsub_cong; apply based_coef.
  - rewrite (coef_beyond b) by done. zring.
  - rewrite (coef_beyond a) by done. rewrite bneg_cong by auto with nock. zring.
  - rewrite (coef_beyond a), (coef_beyond b) by done. by apply eq_cong.
Qed.

Lemma vget_coef l i : (i < length l)%nat -> vget l i = Some (coef l i).
Proof.
  intros Hi. destruct (vget_ok l i Hi) as [x Hx]. unfold vget in *.
  by rewrite Hx, (coef_lookup _ _ _ Hx).
Qed.

Lemma bpsub_spec a b res :
  based_poly a -> based_poly b -> based_poly res -> length res = max (length a) (length b) ->
  exists r, bpsub a b res = Some r /\ length r = length res /\ based_poly r /\ r ≃ psub a b.
Proof.
  intros Ha Hb Hres Hlen. unfold bpsub.
  for_inv (fun n r => length r = length res /\ based_poly r /\
    forall i, (i < n)%nat -> coef r i = bpsub_at a b i)
    as (r & -> & Hl & Hbr & Hc).
  - split; [done|]. split; [exact Hres|]. lia.
  - intros n r Hn (Hl & Hbr & Hc). cbv beta.
    assert (Hset : exists r', vset r n (bpsub_at a b n) = Some r' /\
      length r' = length res /\ based_poly r' /\ forall i, (i < S n)%nat -> coef r' i = bpsub_at a b i).
    { destruct (vset_based r n (bpsub_at a b n)) as (r' & -> & -> & Hb' & Hl'); [done| |lia|].
      - by apply bpsub_at_spec.
      - eexists. split; [done|]. split; [lia|]. split; [done|]. intros i Hi.
        rewrite coef_insert by lia. case_decide; [by subst|]. apply Hc. lia. }
    unfold bpsub_at in Hset.
    destruct (Nat.ltb_spec n (length a)), (Nat.ltb_spec n (length b)); cbn [andb] in *;
      rewrite ?(vget_coef a), ?(vget_coef b) by done; try exact Hset. lia.
  - exists r. split; [done|]. split; [done|]. split; [done|]. intros i.
    rewrite coef_psub. zfold. destruct (decide (i < max (length a) (length b))%nat).
    + rewrite Hc by lia. by apply bpsub_at_spec.
    + rewrite !coef_beyond by lia. done.
Qed.

(** * Multiplication *)

Lemma is_zero_spec l : based_poly l -> is_zero l = true <-> l ≃ [].
Proof.
  intros Hl. assert (E : is_zero l = forallb Belt_is_zero l).
  { destruct l as [|x [|]]; simpl; [done| |done]. by destruct (Belt_is_zero x). }
  rewrite E. clear E. induction Hl as [|x l Hx Hl IH]; simpl; [done|].
  rewrite andb_true_iff, IH. unfold Belt_is_zero. rewrite Z.eqb_eq. split.
  - intros [-> Hz]. symmetry. apply peq_nil_cons. split; [done|]. by symmetry.
  - intros Hz. symmetry in Hz. apply peq_nil_cons in Hz as [Hx0 Hz].
    split; [|by symmetry]. by apply cong_based; auto with nock.
Qed.

Lemma take_S_coef l i : (i < length l)%nat -> take (S i) l = take i l ++ [coef l i].
Proof. intros Hi. apply take_S_r. by apply vget_coef. Qed.

(** One row of the product: [res += ai * x^i * b]. *)
Lemma bpmul_row ai b i res :
  based ai -> based_poly b -> based_poly res -> (i + length b <= length res)%nat ->
  exists r, for_range 0 (length b) (fun j res =>
      bj ← vget b j; r ← vget res (i + j); vset res (i + j) (badd r (bmul ai bj))) res = Some r /\
    length r = length res /\ based_poly r /\ r ≃ padd res (pshift i (pscale ai b)).
Proof.
  intros Hai Hb Hres Hlen.
  for_inv (fun j r => length r = length res /\ based_poly r /\
    r ≃ padd res (pshift i (pscale ai (take j b))))
    as (r & -> & Hl & Hbr & Hc).
  - split; [reflexivity|]. split; [exact Hres|]. intros k.
    rewrite coef_padd, coef_pshift. simpl. case_decide; rewrite ?coef_nil; zring.
  - intros j r Hj (Hl & Hbr & Hc). rewrite !vget_coef by lia. cbn [mbind option_bind].
    destruct (vset_based r (i + j) (badd (coef r (i + j)) (bmul ai (coef b j))))
      as (r' & -> & -> & Hb' & Hl'); [done|auto with nock|lia|].
    eexists. split; [done|]. split; [lia|]. split; [done|].
    rewrite (insert_add _ _ _ (ai * coef b j)); [|lia|].
    + rewrite Hc, take_S_coef, pscale_snoc, pshift_snoc by lia.
      rewrite length_pscale, length_take_le by lia. zfold. ring.
    + zfold. rewrite badd_cong by auto with nock. by rewrite bmul_cong by auto with nock.
  - exists r. split; [done|]. split; [done|]. split; [done|].
    by rewrite Hc, Nat.add_0_l, firstn_all.
Qed.

Lemma bpmul_spec a b res :
  based_poly a -> based_poly b -> (length a + length b <= length res + 1)%nat ->
  exists r, bpmul a b res = Some r /\ length r = length res /\ based_poly r /\ r ≃ pmul a b.
Proof.
  intros Ha Hb Hlen. unfold bpmul, vfill.
  destruct (is_zero a || is_zero b) eqn:Hz.
  { eexists. split; [done|]. rewrite length_replicate. split; [done|]. split; [auto with nock|].
    rewrite zeros_peq.
    apply orb_true_iff in Hz as [Hz|Hz]; apply is_zero_spec in Hz; try done; rewrite Hz.
    - done.
    - by rewrite pmul_nil_r. }
  for_inv (fun i r => length r = length res /\ based_poly r /\
    r ≃ pmul (take i a) b)
    as (r & -> & Hl & Hbr & Hc).
  - split; [apply length_replicate|]. split; [auto with nock|].
    by rewrite zeros_peq.
  - intros i r Hi (Hl & Hbr & Hc). rewrite vget_coef by lia. cbn [mbind option_bind].
    assert (Hstep : padd r (pshift i (pscale (coef a i) b)) ≃ pmul (take (S i) a) b).
    { rewrite take_S_coef, pmul_snoc, length_take_le, Hc by lia. done. }
    destruct (Z.eqb_spec (coef a i) 0) as [E|E].
    + exists r. split; [done|]. split; [done|]. split; [done|]. rewrite <- Hstep, E.
      intros k. rewrite coef_padd, coef_pshift. case_decide; rewrite ?coef_pscale; zring.
    + destruct (bpmul_row (coef a i) b i r) as (r' & -> & Hl' & Hb' & Hc');
        [auto with nock|done|done|lia|].
      eexists. split; [done|]. split; [lia|]. split; [done|]. by rewrite Hc', Hstep.
  - exists r. split; [done|]. split; [done|]. split; [done|].
    by rewrite Hc, Nat.add_0_l, firstn_all.
Qed.

Lemma bpmul__spec a b :
  based_poly a -> based_poly b -> (0 < length a + length b)%nat ->
  exists r, bpmul_ a b = Some r /\ length r = (length a + length b - 1)%nat /\
    based_poly r /\ r ≃ pmul a b.
Proof.
  intros Ha Hb Hlen. unfold bpmul_. destruct (Nat.eqb_spec (length a + length b) 0); [lia|].
  destruct (bpmul_spec a b (replicate (length a + length b - 1) 0)) as (r & -> & Hl & Hr);
    rewrite ?length_replicate in *; [done|done|lia|]. by exists r.
Qed.

(** * Degree *)

Lemma degree_beyond l j : (degree l < j)%nat -> coef l j = 0.
Proof.
  unfold degree. intros Hj. destruct (l !! j) as [x|] eqn:Ex.
  2:{ rewrite coef_beyond; [done|by apply lookup_ge_None]. }
  rewrite (coef_lookup _ _ _ Ex).
  destruct (rposition _ l) as [i|] eqn:E.
  - apply rposition_Some in E as [_ Hz]. specialize (Hz j x Hj Ex).
    by apply negb_false_iff, Z.eqb_eq in Hz.
  - apply (rposition_None _ _ j x) in E; [|done]. by apply negb_false_iff, Z.eqb_eq in E.
Qed.

Lemma is_zero_coef l : is_zero l = false -> exists i, (i < length l)%nat /\ coef l i <> 0.
Proof.
  intros Hz. assert (E : forallb Belt_is_zero l = false).
  { destruct l as [|x [|]]; simpl in *; [done| |done]. by destruct (Belt_is_zero x). }
  clear Hz. induction l as [|x l IH]; simpl in E; [done|].
  apply andb_false_iff in E as [E|E].
  - exists 0%nat. split; [simpl; lia|]. by apply Z.eqb_neq in E.
  - destruct (IH E) as (i & Hi & Hc). exists (S i). split; [simpl; lia|done].
Qed.

Lemma degree_lead l :
  is_zero l = false -> (degree l < length l)%nat /\ coef l (degree l) <> 0.
Proof.
  intros Hz. destruct (is_zero_coef l Hz) as (i & Hi & Hc).
  unfold degree. destruct (rposition _ l) as [k|] eqn:E.
  - apply rposition_Some in E as [(x & Hx & Hp) _]. split; [by eapply lookup_lt_Some|].
    rewrite (coef_lookup _ _ _ Hx). apply negb_true_iff in Hp. by apply Z.eqb_neq.
  - exfalso. destruct (vget_ok l i Hi) as [x Hx]. unfold vget in Hx.
    apply (rposition_None _ _ i x) in E; [|done]. apply negb_false_iff, Z.eqb_eq in E.
    by rewrite (coef_lookup _ _ _ Hx) in Hc.
Qed.

Lemma degree_zero l : is_zero l = true -> degree l = 0%nat.
Proof.
  intros Hz. unfold degree. destruct (rposition _ l) as [i|] eqn:E; [|done].
  apply rposition_Some in E as [(x & Hx & Hp) _]. exfalso.
  assert (F : forallb Belt_is_zero l = true).
  { destruct l as [|y [|]]; simpl in *; [done| |done]. by destruct (Belt_is_zero y). }
  rewrite forallb_forall in F. apply list_elem_of_lookup_2, list_elem_of_In, F in Hx. by rewrite Hx in Hp.
Qed.
Lemma degree_pos l : (0 < degree l)%nat -> is_zero l = false.
Proof. intros H. destruct (is_zero l) eqn:E; [|done]. rewrite degree_zero in H by done. lia. Qed.

(** * Division *)

Lemma bpdvr_row_spec b a_end deg_b i coeff r :
  based_poly b -> based_poly r -> based coeff ->
  (deg_b < length b)%nat -> (deg_b <= i <= a_end)%nat -> (i < length r)%nat ->
  (forall j, (deg_b < j)%nat -> coef b j = 0) ->
  exists r', bpdvr_row b a_end deg_b i coeff r = Some r' /\ length r' = length r /\
    based_poly r' /\ r' ≃ psub r (pshift (i - deg_b) (pscale coeff b)).
Proof.
  intros Hb Hr Hco Hdb Hi Hlen Hbz. unfold bpdvr_row.
  for_inv (fun k s => length s = length r /\ based_poly s /\ forall j,
    coef s j == coef r j - (if decide (i < j + k /\ j <= i)%nat then coeff * coef b (j + deg_b - i) else 0))
    as (s & -> & Hl & Hbs & Hc).
  - split; [done|]. split; [done|]. intros j. case_decide; [lia|]. zring.
  - intros k s Hk (Hl & Hbs & Hc).
    replace ((k <=? a_end)%nat && (k <? length b)%nat && (k <=? i)%nat) with true.
    2:{ symmetry. rewrite !andb_true_iff, !Nat.leb_le, Nat.ltb_lt. lia. }
    rewrite !vget_coef by lia. cbn [mbind option_bind].
    destruct (vset_based s (i - k) (bsub (coef s (i - k)) (bmul coeff (coef b (deg_b - k)))))
      as (s' & -> & -> & Hb' & Hl'); [done|auto with nock|lia|].
    eexists. split; [done|]. split; [lia|]. split; [done|]. intros j.
    rewrite coef_insert by lia. destruct (decide (j = i - k)%nat) as [->|Hne].
    + rewrite bsub_cong by auto with nock. rewrite bmul_cong by auto with nock. rewrite Hc.
      rewrite decide_False by lia. rewrite decide_True by lia.
      replace (i - k + deg_b - i)%nat with (deg_b - k)%nat by lia. zring.
    + rewrite Hc. destruct (decide (i < j + k /\ j <= i)%nat), (decide (i < j + S k /\ j <= i)%nat); (lia || done).
  - exists s. split; [done|]. split; [done|]. split; [done|]. intros j.
    rewrite coef_psub, coef_pshift, Hc. zfold.
    destruct (decide (i < j + (0 + (deg_b + 1)) /\ j <= i)%nat), (decide (j < i - deg_b)%nat); try lia; try done.
    + rewrite coef_pscale. by replace (j + deg_b - i)%nat with (j - (i - deg_b))%nat by lia.
    + rewrite coef_pscale, (Hbz (j - (i - deg_b))%nat) by lia. zring.
Qed.

(** The state of the division loop at index [i]. *)
Record dvr_state (A b : list Belt) (deg_b i : nat) (q r : list Belt) : Prop := {
  dvr_q : based_poly q;
  dvr_r : based_poly r;
  dvr_len : (i < length r)%nat;
  dvr_eq : A ≃ padd (pmul q b) r;
  dvr_top : forall j, (i < j)%nat -> coef r j = 0;
  dvr_low : (deg_b <= i)%nat -> forall j, (j <= i - deg_b)%nat -> coef q j = 0;
}.

Lemma elim_coeff x y : based x -> based y -> y <> 0 -> bmul x (binv y) * y == x.
Proof.
  intros Hx Hy Hnz. rewrite bmul_cong by auto with nock.
  assert (E : y * binv y == 1).
  { rewrite <- bmul_cong by auto with nock. by rewrite binv_correct. }
  rewrite <- Z.mul_assoc, (Z.mul_comm (binv y)), E. by rewrite Z.mul_1_r.
Qed.

Lemma dvr_step A b a_end i q r :
  based_poly b -> is_zero b = false -> (degree b <= i <= a_end)%nat ->
  (i - degree b < length q)%nat -> dvr_state A b (degree b) i q r ->
  let coeff := bmul (coef r i) (binv (coef b (degree b))) in
  exists r', bpdvr_row b a_end (degree b) i coeff r = Some r' /\ length r' = length r /\
    based_poly r' /\ based_poly (<[i - degree b:=coeff]> q)%nat /\
    A ≃ padd (pmul (<[i - degree b:=coeff]> q)%nat b) r' /\
    (forall j, (i <= j)%nat -> coef r' j = 0) /\
    (forall j, (j < i - degree b)%nat -> coef (<[i - degree b:=coeff]> q)%nat j = 0).
Proof.
  intros Hb Hbz Hi Hlq [Hq Hr Hlr HA Htop Hlow] coeff.
  destruct (degree_lead b Hbz) as [Hdl Hlead]. set (n := (i - degree b)%nat) in *.
  assert (Hco : based coeff) by (unfold coeff; auto with nock).
  destruct (bpdvr_row_spec b a_end (degree b) i coeff r) as (r' & -> & Hl' & Hb' & Hc');
    [done..|by apply degree_beyond|].
  exists r'. split; [done|]. split; [done|]. split; [done|]. split; [auto with nock|].
  split; [|split].
  - rewrite (insert_add q n coeff coeff), Hc'; [|done|rewrite Hlow by lia; zring].
    rewrite HA, pmul_padd_l, pmul_monomial. fold n. ring.
  - intros j Hj. apply cong_based; [auto with nock..|].
    rewrite (Hc' j), coef_psub, coef_pshift, decide_False, coef_pscale by lia. fold n.
    destruct (decide (j = i)) as [->|Hne].
    + replace (i - n)%nat with (degree b) by lia. zfold. unfold coeff.
      rewrite elim_coeff by auto with nock. zring.
    + rewrite (Htop j), (degree_beyond b) by lia. zring.
  - intros j Hj. rewrite coef_insert, decide_False by lia. apply Hlow; lia.
Qed.

Lemma bpdvr_loop_spec fuel A b a_end i q r :
  based_poly b -> is_zero b = false -> (i <= a_end)%nat -> (i < fuel)%nat ->
  (a_end - degree b < length q)%nat -> dvr_state A b (degree b) i q r ->
  exists q' r' deg_r,
    bpdvr_loop fuel b a_end (degree b) i i (i - degree b) q r = Some (q', r', deg_r) /\
    length q' = length q /\ length r' = length r /\ based_poly q' /\ based_poly r' /\
    A ≃ padd (pmul q' b) r' /\
    (deg_r <= i)%nat /\ (deg_r <= degree b - 1)%nat /\
    (forall j, (deg_r < j \/ degree b <= j)%nat -> coef r' j = 0).
Proof.
  intros Hb Hbz. revert i q r. induction fuel as [|fuel IH]; intros i q r Hi Hf Hlq Hst; [lia|].
  simpl. destruct (Nat.leb_spec (degree b) i) as [Hd|Hd].
  2:{ exists q, r, i. destruct Hst as [Hq Hr Hlr HA Htop _]. split_and!; try done; try lia.
      intros j [Hj|Hj]; apply Htop; lia. }
  destruct (dvr_step A b a_end i q r) as (r' & Hrow & Hl' & Hb' & Hq' & HA & Htop & Hlow);
    [done|done|lia|lia|done|].
  destruct (degree_lead b Hbz) as [Hdl Hlead]. pose proof (dvr_len _ _ _ _ _ _ Hst) as Hlr.
  rewrite !vget_coef by lia. cbn [mbind option_bind].
  rewrite vset_ok by lia. cbn [mbind option_bind]. rewrite Hrow. cbn [mbind option_bind].
  rewrite vget_coef by lia. cbn [mbind option_bind].
  set (q' := <[(i - degree b)%nat:=_]> q) in *.
  assert (Hlq' : length q' = length q) by apply length_insert.
  destruct (((i - 1) =? 0)%nat && (coef r' 0 =? 0)) eqn:Hbreak.
  - apply andb_true_iff in Hbreak as [Hi1 Hr0]. apply Nat.eqb_eq in Hi1. apply Z.eqb_eq in Hr0.
    exists q', r', (i - 1)%nat. split_and!; try done; try lia.
    intros j _. destruct (decide (j = 0)%nat) as [->|]; [done|]. apply Htop. lia.
  - destruct (Nat.eqb_spec i 0) as [->|Hi0].
    { rewrite (Htop 0%nat) in Hbreak by lia. done. }
    replace (i - degree b - 1)%nat with (i - 1 - degree b)%nat by lia.
    destruct (IH (i - 1)%nat q' r') as (q2 & r2 & dr & -> & H1 & H2 & H3 & H4 & H5 & H6 & H7 & H8);
      [lia|lia|lia| |].
    + split; try done; [lia| |]; intros.
      * apply Htop. lia.
      * apply Hlow. lia.
    + exists q2, r2, dr. split_and!; try done; lia.
Qed.

(** Euclidean division: the buffers only have to be long enough. *)
Lemma bpdvr_spec a b q res :
  based_poly a -> based_poly b -> is_zero b = false ->
  (degree a - degree b < length q)%nat -> (max 1 (degree b) <= length res)%nat ->
  exists q' r', bpdvr a b q res = Some (q', r') /\
    length q' = length q /\ length r' = length res /\ based_poly q' /\ based_poly r' /\
    a ≃ padd (pmul q' b) r' /\ (forall j, (degree b <= j)%nat -> coef r' j = 0).
Proof.
  intros Ha Hb Hbz Hlq Hlr. unfold bpdvr, vfill. destruct (is_zero a) eqn:Haz.
  { apply is_zero_spec in Haz; [|done]. eexists _, _. split; [done|]. rewrite !length_replicate.
    split_and!; try done; auto with nock.
    - rewrite Haz, !zeros_peq. done.
    - intros j _. apply coef_zeros. }
  rewrite Hbz. destruct (degree_lead a Haz) as [Hda _].
  assert (Hst : dvr_state a b (degree b) (degree a) (replicate (length q) 0) (take (degree a + 1) a)).
  { split; auto with nock.
    - by apply Forall_take.
    - rewrite length_take_le; lia.
    - rewrite zeros_peq. intros j. simpl. rewrite coef_take.
      case_decide; [done|]. rewrite degree_beyond by lia. done.
    - intros j Hj. rewrite coef_take, decide_False by lia. done.
    - intros _ j _. apply coef_zeros. }
  destruct (bpdvr_loop_spec (degree a + 1) a b (degree a) (degree a) (replicate (length q) 0)
    (take (degree a + 1) a)) as (q' & r' & dr & -> & H1 & H2 & H3 & H4 & H5 & H6 & H7 & H8);
    [done|done|lia|lia|rewrite length_replicate; lia|done|].
  rewrite length_replicate in H1. rewrite length_take_le in H2 by lia.
  cbn [mbind option_bind]. unfold vcopy. rewrite length_replicate, decide_True by lia.
  eexists _, _. split; [done|]. rewrite drop_replicate, length_app, length_take, length_replicate.
  assert (Er : take (dr + 1) r' ++ replicate (length res - (dr + 1)) 0 ≃ r').
  { intros j. rewrite coef_app, length_take. case_decide.
    - rewrite coef_take, decide_True by lia. done.
    - rewrite coef_zeros, (H8 j) by lia. done. }
  assert (based_poly (take (dr + 1) r' ++ replicate (length res - (dr + 1)) 0)).
  { apply Forall_app_2; [by apply Forall_take|auto with nock]. }
  split_and!; try done; [lia|by rewrite Er|].
  intros j Hj. apply cong_based; [auto with nock..|]. by rewrite (Er j), (H8 j) by lia.
Qed.

(** * The extended Euclidean algorithm *)

Lemma egcd_cofactor_spec q m1 m2 buf :
  based_poly q -> based_poly m1 -> based_poly m2 -> (0 < length q)%nat -> (0 < length m1)%nat ->
  length buf = (length q + length m1 - 1)%nat ->
  exists r, egcd_cofactor q m1 m2 buf = Some r /\
    length r = max (length m2) (length q + length m1 - 1) /\ based_poly r /\
    r ≃ psub m2 (pmul q m1).
Proof.
  intros Hq H1 H2 Hlq Hl1 Hbuf. unfold egcd_cofactor.
  destruct (bpmul_spec q m1 buf) as (p & -> & Hlp & Hbp & Hp); [done|done|lia|].
  cbn [mbind option_bind].
  destruct (bpsub_spec m2 p (replicate (max (length m2) (length q + length m1 - 1)) 0))
    as (r & -> & Hlr & Hbr & Hr); [done|done|auto with nock|rewrite length_replicate; lia|].
  exists r. rewrite Hlr, length_replicate. split_and!; try done. by rewrite Hr, Hp.
Qed.

(** A remainder that vanishes from [n] on is zero or has a smaller degree. *)
Lemma degree_below l n :
  is_zero l = false -> (forall j, (n <= j)%nat -> coef l j = 0) -> (degree l < n)%nat.
Proof.
  intros Hz Hn. destruct (degree_lead l Hz) as [_ Hl].
  destruct (decide (degree l < n)%nat) as [|E]; [done|]. exfalso. apply Hl, Hn. lia.
Qed.

(** The rounds keep both pairs of combinations between the inputs [A], [B] and the
    current pair [a], [b], and bound the cofactors. *)
Record egcd_state (A B a b u1 u2 v1 v2 : list Belt) : Prop := {
  eg_a : based_poly a; eg_b : based_poly b;
  eg_u1 : based_poly u1; eg_u2 : based_poly u2; eg_v1 : based_poly v1; eg_v2 : based_poly v2;
  eg_comb_a : a ≃ padd (pmul u2 A) (pmul v2 B);
  eg_comb_b : b ≃ padd (pmul u1 A) (pmul v1 B);
  eg_A : exists s t, A ≃ padd (pmul s a) (pmul t b);
  eg_B : exists s t, B ≃ padd (pmul s a) (pmul t b);
  eg_deg : is_zero b = true \/ (degree b <= degree a)%nat;
  eg_dega : (degree a <= degree A)%nat;
  eg_uv1 : length u1 = length v1; eg_uv2 : length u2 = length v2;
  eg_len1 : (1 <= length u1 <= 1 + degree A - degree a)%nat;
  eg_len2 : (1 <= length u2 <= 1 + degree A - degree a)%nat;
  eg_strict : (degree B < degree A)%nat ->
    (is_zero b = true \/ (degree b < degree a)%nat) /\ (length u2 <= max 1 (degree A - degree a))%nat;
  eg_lena : (length a <= max (length A) (length B))%nat;
  eg_lenb : (length b <= max (length A) (length B))%nat;
}.

Lemma egcd_round A B a b u1 u2 v1 v2 :
  is_zero b = false -> egcd_state A B a b u1 u2 v1 v2 ->
  exists q r u3 v3,
    bpdvr a b (replicate (degree a - degree b + 1) 0) (replicate (degree b + 1) 0) = Some (q, r) /\
    let buf := replicate (length q + length u1 - 1) 0 in
    egcd_cofactor q u1 u2 buf = Some u3 /\ egcd_cofactor q v1 v2 buf = Some v3 /\
    egcd_state A B b r u3 u1 v3 v1 /\ (is_zero r = true \/ (degree r < degree b)%nat).
Proof.
  intros Hbz [Ha Hb Hu1 Hu2 Hv1 Hv2 Hca Hcb (s & t & HA) (s' & t' & HB) Hdeg Hda Huv1 Huv2 Hl1 Hl2 Hstr Hla Hlb].
  destruct Hdeg as [Hdeg|Hdeg]; [by rewrite Hbz in Hdeg|]. destruct (degree_lead b Hbz) as [Hdl _].
  destruct (bpdvr_spec a b (replicate (degree a - degree b + 1) 0) (replicate (degree b + 1) 0))
    as (q & r & -> & Hlq & Hlr & Hq & Hr & Heq & Hrz); try done;
    rewrite ?length_replicate in *; try lia.
  destruct (egcd_cofactor_spec q u1 u2 (replicate (length q + length u1 - 1) 0))
    as (u3 & Eu & Hlu & Hu3 & Hu); try done; rewrite ?length_replicate; try lia.
  destruct (egcd_cofactor_spec q v1 v2 (replicate (length q + length u1 - 1) 0))
    as (v3 & Ev & Hlv & Hv3 & Hv); try done; rewrite ?length_replicate; try lia.
  assert (Hdr : is_zero r = true \/ (degree r < degree b)%nat).
  { destruct (is_zero r) eqn:Hz; [by left|right]. by apply degree_below. }
  exists q, r, u3, v3. split; [done|]. split; [done|]. split; [done|]. split; [|done].
  split; try done; try lia.
  - rewrite Hu, Hv. transitivity (psub a (pmul q b)); [rewrite Heq; ring|]. rewrite Hca, Hcb. ring.
  - exists (padd (pmul s q) t), s. rewrite HA, Heq. ring.
  - exists (padd (pmul s' q) t'), s'. rewrite HB, Heq. ring.
  - destruct Hdr; [by left|right; lia].
  - intros Hs. destruct (Hstr Hs) as [[Hz|Hlt] _]; [by rewrite Hbz in Hz|]. split; [done|lia].
Qed.

Lemma bpegcd_loop_spec fuel A B a b u1 u2 v1 v2 :
  (degree b < fuel)%nat -> egcd_state A B a b u1 u2 v1 v2 ->
  exists d u v w1 w2 b', bpegcd_loop fuel a b u1 u2 v1 v2 = Some (d, u, v) /\
    egcd_state A B d b' w1 u w2 v /\ is_zero b' = true.
Proof.
  revert a b u1 u2 v1 v2. induction fuel as [|fuel IH]; intros a b u1 u2 v1 v2 Hf Hst; [lia|].
  simpl. destruct (is_zero b) eqn:Hbz.
  { by exists a, u2, v2, u1, v1, b. }
  destruct (egcd_round A B a b u1 u2 v1 v2 Hbz Hst) as (q & r & u3 & v3 & -> & Hc).
  cbn [mbind option_bind]. cbv zeta in Hc. destruct Hc as (-> & -> & Hst' & Hdr).
  cbn [mbind option_bind]. destruct Hdr as [Hz|Hd].
  - exists b, u1, v1, u3, v3, r. split; [|done]. destruct fuel; simpl; by rewrite Hz.
  - apply IH; [lia|done].
Qed.

Lemma vcopy_based n l src :
  based_poly l -> based_poly src -> l ≃ [] -> (length src <= length l)%nat -> n = length src ->
  exists l', vcopy n l src = Some l' /\ based_poly l' /\ length l' = length l /\ l' ≃ src.
Proof.
  intros Hl Hs Hz Hlen ->. unfold vcopy. rewrite decide_True by lia. eexists. split; [done|].
  rewrite firstn_all, length_app, length_drop. split; [apply Forall_app_2; [done|by apply Forall_drop]|].
  split; [lia|]. intros i. rewrite coef_app. case_decide; [done|].
  rewrite (coef_beyond src) by lia. rewrite <- (coef_nil (R := Z) i), <- (Hz i).
  unfold coef. rewrite nth_skipn. by replace (length src + (i - length src))%nat with i by lia.
Qed.

Lemma pmul_one l : pmul [1] l ≃ l.
Proof. exact (pmul_1_l (R := Z) l). Qed.
Lemma pmul_zero l : pmul [0] l ≃ [].
Proof. apply pmul_zero_l. symmetry. exact (zero_cons_nil (R := Z)). Qed.

Lemma egcd_state_init A B :
  based_poly A -> based_poly B -> (degree B <= degree A)%nat -> egcd_state A B A B [0] [1] [1] [0].
Proof.
  intros HA HB Hdeg. split; try done; try (simpl; lia); try (by constructor; auto with nock).
  - by rewrite pmul_one, pmul_zero, padd_nil_r.
  - by rewrite pmul_one, pmul_zero.
  - exists [1], []. rewrite pmul_one. change (pmul [] B) with (@nil Z). by rewrite padd_nil_r.
  - exists [], [1]. by rewrite pmul_one.
Qed.

Lemma bpegcd_spec A B d u v :
  based_poly A -> based_poly B -> (degree B <= degree A)%nat ->
  (max (length A) (length B) <= length d)%nat -> (degree A < length u)%nat ->
  (degree A < length v)%nat ->
  exists d' u' v', bpegcd A B d u v = Some (d', u', v') /\
    based_poly d' /\ based_poly u' /\ based_poly v' /\ length v' = length v /\
    d' ≃ padd (pmul u' A) (pmul v' B) /\
    (exists s, A ≃ pmul s d') /\ (exists t, B ≃ pmul t d') /\
    ((degree B < degree A)%nat -> forall j, (degree A <= j)%nat -> coef v' j == 0).
Proof.
  intros HA HB Hdeg Hld Hlu Hlv. unfold bpegcd, vfill.
  pose proof (egcd_state_init A B HA HB Hdeg) as Hst.
  destruct (bpegcd_loop_spec (degree B + 1) A B A B [0] [1] [1] [0])
    as (a & m2u & m2v & w1 & w2 & b' & -> & Hend & Hbz); [lia|done|].
  destruct Hend as [Ha Hb Hu1 Hu2 Hv1 Hv2 Hca Hcb (s & t & HsA) (s' & t' & HsB) _ Hda _ Huv2 _ Hl2 Hstr Hla _].
  apply is_zero_spec in Hbz; [|done]. cbn [mbind option_bind].
  destruct (vcopy_based (length a) (replicate (length d) 0) a) as (d' & -> & Hbd & Hl1 & Ed);
    rewrite ?length_replicate in *; auto using zeros_peq with nock; [lia|].
  destruct (vcopy_based (length m2u) (replicate (length u) 0) m2u) as (u' & -> & Hbu & Hlu' & Eu);
    rewrite ?length_replicate in *; auto using zeros_peq with nock; [lia|].
  destruct (vcopy_based (length m2v) (replicate (length v) 0) m2v) as (v' & -> & Hbv & Hlv' & Ev);
    rewrite ?length_replicate in *; auto using zeros_peq with nock; [lia|].
  exists d', u', v'. split; [done|]. split_and!; try done.
  - by rewrite Ed, Eu, Ev.
  - exists s. rewrite Ed, HsA, Hbz. ring.
  - exists s'. rewrite Ed, HsB, Hbz. ring.
  - intros Hs j Hj. destruct (Hstr Hs) as [_ Hlen]. rewrite (Ev j), coef_beyond by lia. done.
Qed.

Lemma pscale_pmul c v : pscale c v ≃ pmul [c] v.
Proof.
  intros j. simpl. rewrite coef_padd. destruct j as [|j];
    rewrite ?coef_cons_0, ?coef_cons_S, ?coef_nil; zring.
Qed.

(** ** Operands in increasing degree *)

(** The loop of [bpegcd] with the two cofactors exchanged *)
Lemma bpegcd_loop_exchanged fuel A B a b u1 u2 v1 v2 :
  (degree b < fuel)%nat -> egcd_state A B a b u1 u2 v1 v2 ->
  exists d u v w1 w2 b', bpegcd_loop fuel a b v1 v2 u1 u2 = Some (d, v, u) /\
    egcd_state A B d b' w1 u w2 v /\ is_zero b' = true.
Proof.
  revert a b u1 u2 v1 v2. induction fuel as [|fuel IH]; intros a b u1 u2 v1 v2 Hf Hst; [lia|].
  simpl. destruct (is_zero b) eqn:Hbz.
  { by exists a, u2, v2, u1, v1, b. }
  pose proof (eg_uv1 _ _ _ _ _ _ _ _ Hst) as Hlen.
  destruct (egcd_round A B a b u1 u2 v1 v2 Hbz Hst) as (q & r & u3 & v3 & -> & Hc).
  cbn [mbind option_bind]. rewrite <- Hlen. cbv zeta in Hc. destruct Hc as (-> & -> & Hst' & Hdr).
  cbn [mbind option_bind]. destruct Hdr as [Hz|Hd].
  - exists b, u1, v1, u3, v3, r. split; [|done]. destruct fuel; simpl; by rewrite Hz.
  - apply IH; [lia|done].
Qed.

(** The first round on operands in increasing degree only exchanges them. *)
Lemma bpdvr_smaller A B :
  based_poly A -> based_poly B -> (degree A < degree B)%nat ->
  exists r, bpdvr A B [0] (replicate (degree B + 1) 0) = Some ([0], r) /\ based_poly r /\ A ≃ r /\
    length r = (degree B + 1)%nat /\ (degree r < degree B)%nat.
Proof.
  intros HA HB Hd. pose proof (degree_pos B ltac:(lia)) as HzB.
  destruct (bpdvr_spec A B [0] (replicate (degree B + 1) 0)) as (q & r & -> & Hlq & Hlr & Hq & Hr & Heq & Hrz);
    [done|done|done|simpl; lia|rewrite length_replicate; lia|].
  destruct q as [|q0 [|]]; try done. rewrite length_replicate in Hlr.
  destruct (degree_lead B HzB) as [_ Hlead].
  assert (E0 : q0 == 0).
  { specialize (Heq (degree B)). rewrite coef_padd, Hrz in Heq by lia.
    rewrite (degree_beyond A) in Heq by lia. rewrite <- (pscale_pmul q0 B (degree B)), coef_pscale in Heq. zfold.
    destruct (mul_cancel q0 (coef B (degree B))) as [|E]; [by rewrite Heq, Z.add_0_r|done|].
    exfalso. apply Hlead, cong_based; auto with nock. }
  apply cong_based in E0; [|by apply list.Forall_cons in Hq as [? _]|auto with nock]. subst q0.
  rewrite pmul_zero in Heq. change (padd [] r) with r in Heq.
  exists r. split_and!; try done.
  destruct (is_zero r) eqn:Hz; [rewrite degree_zero by done; lia|by apply degree_below].
Qed.

Lemma bpegcd_smaller A B d u v :
  based_poly A -> based_poly B -> (degree A < degree B)%nat ->
  (max (length A) (length B) <= length d)%nat -> (degree B <= length u)%nat -> (degree B <= length v)%nat ->
  exists d' u' v', bpegcd A B d u v = Some (d', u', v') /\
    based_poly d' /\ based_poly u' /\ length u' = length u /\
    d' ≃ padd (pmul u' A) (pmul v' B) /\ (exists s, A ≃ pmul s d') /\ (exists t, B ≃ pmul t d') /\
    (forall j, (degree B <= j)%nat -> coef u' j == 0).
Proof.
  intros HA HB Hdeg Hld Hlu Hlv. pose proof (degree_pos B ltac:(lia)) as HzB. unfold bpegcd, vfill. rewrite Nat.add_1_r. cbn [bpegcd_loop].
  rewrite HzB. replace (degree A - degree B + 1)%nat with 1%nat by lia. cbn [replicate].
  destruct (bpdvr_smaller A B) as (r & -> & Hr & HAr & Hlr & Hdr); [done..|]. cbn [mbind option_bind length].
  change (replicate (1 + 1 - 1) 0) with [0].
  replace (egcd_cofactor [0] [0] [1] [0]) with (Some [1]) by (by vm_compute).
  replace (egcd_cofactor [0] [1] [0] [0]) with (Some [0]) by (by vm_compute). cbn [mbind option_bind].
  destruct (bpegcd_loop_exchanged (degree B) B r B r [0] [1] [1] [0])
    as (a & mv & mu & w1 & w2 & b' & -> & Hend & Hbz); [done|apply egcd_state_init; [done|done|lia]|].
  destruct Hend as [Ha Hb _ Hmv _ Hmu Hca _ (s & t & HsB) (s' & t' & HsA) _ Hda _ Huv2 _ Hl2 Hstr Hla _].
  destruct (Hstr Hdr) as [_ Hlen]. apply is_zero_spec in Hbz; [|done]. cbn [mbind option_bind].
  destruct (degree_lead B HzB) as [HlB _].
  destruct (vcopy_based (length a) (replicate (length d) 0) a) as (d' & -> & Hbd & Hl1 & Ed);
    rewrite ?length_replicate in *; auto using zeros_peq with nock; [lia|].
  destruct (vcopy_based (length mu) (replicate (length u) 0) mu) as (u' & -> & Hbu & Hlu' & Eu);
    rewrite ?length_replicate in *; auto using zeros_peq with nock; [lia|].
  destruct (vcopy_based (length mv) (replicate (length v) 0) mv) as (v' & -> & Hbv & Hlv' & Ev);
    rewrite ?length_replicate in *; auto using zeros_peq with nock; [lia|].
  exists d', u', v'. split; [done|]. split_and!; try done.
  - rewrite Ed, Eu, Ev, HAr, Hca. ring.
  - exists s'. rewrite HAr, Ed, HsA, Hbz. ring.
  - exists s. rewrite Ed, HsB, Hbz. ring.
  - intros j Hj. rewrite (Eu j), coef_beyond by lia. done.
Qed.

(** * Powers *)

Fixpoint ppow (a : list Z) (n : nat) : list Z :=
  match n with O => [1] | S n => pmul a (ppow a n) end.

Global Instance ppow_proper : Proper (peq (R := Z) ==> eq ==> peq (R := Z)) ppow.
Proof. intros a b Hab n ? <-. induction n; simpl; [done|]. by rewrite IHn, Hab. Qed.

Lemma ppow_add a n m : ppow a (n + m) ≃ pmul (ppow a n) (ppow a m).
Proof.
  induction n as [|n IH]; cbn [ppow Nat.add]; [by rewrite pmul_one|]. rewrite IH. ring.
Qed.
Lemma ppow_square a n : ppow (pmul a a) n ≃ ppow a (2 * n).
Proof.
  replace (2 * n)%nat with (n + n)%nat by lia. rewrite ppow_add.
  induction n as [|n IH]; cbn [ppow]; [by rewrite pmul_one|]. rewrite IH. ring.
Qed.

(** The exponent that the loop of [bppow] raises to: a set bit adds the current
    power without squaring it. *)
Fixpoint bppow_exponent (n : positive) : nat :=
  match n with
  | xH => 1
  | xI n => 1 + bppow_exponent n
  | xO n => 2 * bppow_exponent n
  end%nat.

Lemma bppow_loop_spec fuel q p n :
  based_poly q -> based_poly p -> (0 < length q)%nat -> (0 < length p)%nat ->
  (Z.pos n < 2 ^ Z.of_nat fuel) ->
  exists r, bppow_loop fuel q p (Z.pos n) = Some r /\ r ≃ pmul q (ppow p (bppow_exponent n)).
Proof.
  revert q p n. induction fuel as [|fuel IH]; intros q p n Hq Hp Hlq Hlp Hn; [simpl in Hn; lia|].
  rewrite Nat2Z.inj_succ, Z.pow_succ_r in Hn by lia.
  destruct (bpmul__spec q p) as (q' & Eq & Hlq' & Hbq & Hq'); [done|done|lia|].
  destruct (bpmul__spec p p) as (p' & Ep & Hlp' & Hbp & Hp'); [done|done|lia|].
  destruct n as [n|n|]; cbn [bppow_loop Z.eqb Z.land Pos.land Pos.Ndouble Z.of_N Pos.eqb N.double].
  - rewrite Eq. cbn [mbind option_bind]. change (Z.shiftr (Z.pos n~1) 1) with (Z.pos n).
    destruct (IH q' p n) as (r & -> & Hr); [done|done|lia|lia|lia|].
    exists r. split; [done|]. rewrite Hr, Hq'. simpl. ring.
  - rewrite Ep. cbn [mbind option_bind]. change (Z.shiftr (Z.pos n~0) 1) with (Z.pos n).
    destruct (IH q p' n) as (r & -> & Hr); [done|done|lia|lia|lia|].
    exists r. split; [done|]. rewrite Hr, Hp', ppow_square. done.
  - rewrite Eq. cbn [mbind option_bind]. change (Z.shiftr 1 1) with 0.
    exists q'. split; [by destruct fuel|]. rewrite Hq'. simpl. change [1] with [rI (R := Z)]. ring.
Qed.

Lemma bppow_spec a n :
  based_poly a -> (0 < length a)%nat -> Z.pos n < U64 ->
  exists r, bppow a (Z.pos n) = Some r /\ r ≃ ppow a (bppow_exponent n).
Proof.
  intros Ha Hl Hn. destruct (bppow_loop_spec 64 [1] a n) as (r & Er & Hr);
    [constructor; auto with nock|done|simpl; lia|done|exact Hn|].
  exists r. split; [done|]. by rewrite Hr, pmul_one.
Qed.

Lemma bppow_exponent_pow2 k : bppow_exponent (Pos.pow 2 (Pos.of_succ_nat k)) = (2 ^ S k)%nat.
Proof.
  induction k as [|k IH]; [done|]. simpl Pos.of_succ_nat. rewrite Pos.pow_succ_r.
  cbn [bppow_exponent]. change (2 * ?x)%positive with x~0%positive. cbn [bppow_exponent]. rewrite IH. done.
Qed.

(** * Claims *)

(** The slice routines for sum, difference, scaling and negation compute the
    corresponding polynomial, in range, with the length of the longer operand. *)
Theorem bpoly_linear a b c :
  based_poly a -> based_poly b -> based c ->
  (length (bpadd_ a b) = max (length a) (length b) /\ based_poly (bpadd_ a b) /\
   bpadd_ a b ≃ padd a b) /\
  (exists r, bpsub_ a b = Some r /\ length r = max (length a) (length b) /\ based_poly r /\
   r ≃ psub a b) /\
  (based_poly (bpscal_ c a) /\ bpscal_ c a ≃ pscale c a) /\
  (based_poly (bpneg a a) /\ bpneg a a ≃ popp a).
Proof.
  intros Ha Hb Hc. unfold bpadd_, bpsub_, bpscal_.
  destruct (bpadd_spec a b (replicate (max (length a) (length b)) 0)) as (H1 & H2);
    rewrite ?length_replicate in *; try done.
  destruct (bpsub_spec a b (replicate (max (length a) (length b)) 0)) as (r & -> & H3);
    rewrite ?length_replicate in *; auto with nock.
  destruct (bpscal_spec c a (replicate (length a) 0)) as (_ & H4); rewrite ?length_replicate; try done.
  destruct (bpneg_spec a a) as (_ & H5); try done.
  split; [done|]. split; [by exists r|]. done.
Qed.

Lemma bpoly_linear_witness :
  based_poly [1; 2] /\ based_poly [3] /\ bpadd_ [1; 2] [3] ≃ padd [1; 2] [3].
Proof.
  assert (H1 : based_poly [1; 2]) by (apply based_polyb_ok; reflexivity).
  assert (H2 : based_poly [3]) by (apply based_polyb_ok; reflexivity).
  destruct (bpoly_linear [1; 2] [3] 1 H1 H2 based_1) as ((_ & _ & H3) & _).
  split; [exact H1|]. split; [exact H2|]. exact H3.
Defined.

(** [bpmul] is the product of polynomials whenever the result slice holds it. *)
Theorem bpmul_correct a b res :
  based_poly a -> based_poly b -> (length a + length b <= length res + 1)%nat ->
  exists r, bpmul a b res = Some r /\ length r = length res /\ based_poly r /\ r ≃ pmul a b.
Proof. apply bpmul_spec. Qed.

Lemma bpmul_correct_witness :
  exists r, bpmul [1; 1] [1; 1] [7; 7; 7] = Some r /\ r ≃ [1; 2; 1].
Proof.
  assert (H1 : based_poly [1; 1]) by (apply based_polyb_ok; reflexivity).
  destruct (bpmul_correct [1; 1] [1; 1] [7; 7; 7] H1 H1) as (r & Hr & _ & _ & Hp);
    [simpl; lia|]. exists r. split; [exact Hr|]. rewrite Hp. intros [|[|[|i]]]; apply eq_cong; reflexivity.
Defined.

(** C15: [bpdvr] is Euclidean division: it terminates without an index out of
    range, and returns a quotient and a remainder of degree below the divisor's. *)
Theorem bpdvr_correct a b q res :
  based_poly a -> based_poly b -> is_zero b = false ->
  (degree a - degree b < length q)%nat -> (max 1 (degree b) <= length res)%nat ->
  exists q' r', bpdvr a b q res = Some (q', r') /\ a ≃ padd (pmul q' b) r' /\
    based_poly q' /\ based_poly r' /\ (forall j, (degree b <= j)%nat -> coef r' j = 0).
Proof.
  intros Ha Hb Hz Hq Hr. destruct (bpdvr_spec a b q res Ha Hb Hz Hq Hr)
    as (q' & r' & H1 & _ & _ & H2 & H3 & H4 & H5). by exists q', r'.
Qed.

Lemma bpdvr_correct_witness :
  exists q r, bpdvr [5; 0; 1] [1; 1] [0; 0] [0; 0] = Some (q, r) /\ q = [PRIME - 1; 1] /\ r = [6; 0].
Proof.
  destruct (bpdvr_correct [5; 0; 1] [1; 1] [0; 0] [0; 0]) as (q & r & H1 & _).
  - apply based_polyb_ok; reflexivity.
  - apply based_polyb_ok; reflexivity.
  - reflexivity.
  - vm_compute; lia.
  - vm_compute; lia.
  - exists q, r. split; [exact H1|]. vm_compute in H1. injection H1 as <- <-. split; reflexivity.
Defined.

(** C16: On any two polynomials, whichever has the greater degree and zero included,
    [bpegcd] terminates, stays within its buffers and returns a common divisor of its
    inputs together with the Bezout cofactors of that divisor.  The buffers must have
    the sizes that the callers give them: [d] the length of the longer input, the
    cofactors more than the degree of [A] and at least that of [B]. *)
Theorem bpegcd_correct A B d u v :
  based_poly A -> based_poly B -> (max (length A) (length B) <= length d)%nat ->
  (degree A < length u)%nat -> (degree B <= length u)%nat ->
  (degree A < length v)%nat -> (degree B <= length v)%nat ->
  exists d' u' v', bpegcd A B d u v = Some (d', u', v') /\
    d' ≃ padd (pmul u' A) (pmul v' B) /\ (exists s, A ≃ pmul s d') /\ (exists t, B ≃ pmul t d').
Proof.
  intros HA HB Hd Hu1 Hu2 Hv1 Hv2. destruct (Nat.le_gt_cases (degree B) (degree A)) as [Hle|Hlt].
  - destruct (bpegcd_spec A B d u v) as (d' & u' & v' & H4 & _ & _ & _ & _ & H5 & H6 & H7 & _); [done..|]. by exists d', u', v'.
  - destruct (bpegcd_smaller A B d u v) as (d' & u' & v' & H4 & _ & _ & _ & H5 & H6 & H7 & _); [done..|]. by exists d', u', v'.
Qed.

(** [1 + x] against [1 + 2x + x^2], in the order of [f6_inv] *)
Lemma bpegcd_correct_witness :
  exists d u v, bpegcd [1; 1] [1; 2; 1] [0; 0; 0] [0; 0; 0] [0; 0] = Some (d, u, v) /\
    d ≃ padd (pmul u [1; 1]) (pmul v [1; 2; 1]).
Proof.
  destruct (bpegcd_correct [1; 1] [1; 2; 1] [0; 0; 0] [0; 0; 0] [0; 0]) as (d & u & v & H1 & H2 & _);
    [apply based_polyb_ok; reflexivity..|vm_compute; lia|vm_compute; lia|vm_compute; lia|vm_compute; lia|vm_compute; lia|].
  exists d, u, v. split; [exact H1|exact H2].
Defined.

(** [bppow] does not raise to the power [n]: its loop squares the base only on
    zero bits.  It computes [a] to [bppow_exponent n], which is [n] for powers of
    two but 2 for [n = 3]. *)
Theorem bppow_exponent_of a n (k : nat) :
  based_poly a -> (0 < length a)%nat -> Z.pos n < U64 ->
  (exists r, bppow a (Z.pos n) = Some r /\ r ≃ ppow a (bppow_exponent n)) /\
  bppow_exponent (Pos.pow 2 (Pos.of_succ_nat k)) = (2 ^ S k)%nat /\ bppow_exponent 3 = 2%nat.
Proof.
  intros Ha Hl Hn. split; [by apply bppow_spec|]. split; [apply bppow_exponent_pow2|done].
Qed.

Lemma bppow_exponent_of_witness :
  bppow [0; 1] 3 = Some [0; 0; 1] /\ exists r, bppow [0; 1] 3 = Some r /\ r ≃ ppow [0; 1] 2.
Proof.
  split; [vm_compute; reflexivity|].
  destruct (bppow_exponent_of [0; 1] 3 0) as ((r & H1 & H2) & _ & H3).
  - apply based_polyb_ok; reflexivity.
  - simpl; lia.
  - unfold U64; lia.
  - exists r. split; [exact H1|]. rewrite H2, H3. reflexivity.
Defined.
