(* ===== verification/Ntt.v ===== *)
(** The number-theoretic transform of [crates/nockchain-math/src/bpoly.rs]:
    [bitreverse], [bp_ntt], [bp_fft] and [bp_coseword].  The in-place iterative
    transform is shown to evaluate the polynomial at the powers of the root. *)
From stdpp Require Import base option list numbers.
From Stdlib Require Import ZArith Lia Zbitwise.
From S2P Require Import Prelude Belt Vec Poly BPoly.

(** [for _ in 0..l { r = (r << 1) | (n & 1); n >>= 1 }] on [u32]. *)
Fixpoint bitreverse_loop (l : nat) (n r : Z) : Z :=
  match l with
  | O => r
  | S l => bitreverse_loop l (Z.shiftr n 1) (wrap32 (Z.lor (Z.shiftl r 1) (Z.land n 1)))
  end.
Definition bitreverse (n : Z) (l : nat) : Z := bitreverse_loop l n 0.

(** The butterflies of the block at [k], for [j] in [0..m]. *)
Definition ntt_block (w_m : Belt) (m k : nat) (x : list Belt) : option (list Belt) :=
  '(x, _) ← for_range 0 m (fun j '(x, w) =>
    u ← vget x (k + j);
    t ← vget x (k + j + m);
    let v := bmul t w in
    x ← vset x (k + j) (badd u v);
    x ← vset x (k + j + m) (bsub u v);
    Some (x, bmul w w_m)) (x, 1);
  Some x.

(** [while k < n { ...; k += 2 * m }] *)
Fixpoint ntt_blocks (fuel : nat) (w_m : Belt) (m n k : nat) (x : list Belt) : option (list Belt) :=
  if (k <? n)%nat then
    match fuel with
    | O => None
    | S fuel => x ← ntt_block w_m m k x; ntt_blocks fuel w_m m n (k + 2 * m) x
    end
  else Some x.

Definition ntt_permute (n log_2_of_n : nat) (x : list Belt) : option (list Belt) :=
  for_range 0 n (fun k x =>
    let rk := Z.to_nat (bitreverse (Z.of_nat k) log_2_of_n) in
    if (k <? rk)%nat then vswap x rk k else Some x) x.

(** [for _ in 0..log_2_of_n { ...; m *= 2 }] *)
Definition ntt_stages (n log_2_of_n : nat) (root : Belt) (x : list Belt) :
    option (list Belt * nat) :=
  for_range 0 log_2_of_n (fun _ '(x, m) =>
    let w_m := bpow root (Z.of_nat (n / (2 * m))) in
    x ← ntt_blocks n w_m m n 0 x;
    Some (x, (2 * m)%nat)) (x, 1%nat).

Definition bp_ntt (bp : list Belt) (root : Belt) : option (list Belt) :=
  let n := wrap32 (Z.of_nat (length bp)) in
  if n =? 1 then x ← vget bp 0; Some [x]
  else
    (* [ilog2] panics on zero, [copy_from_slice] on a length that [u32] cannot hold *)
    if (n =? 0) || negb (n =? Z.of_nat (length bp)) then None
    else
      let log_2_of_n := Z.to_nat (Z.log2 n) in
      let n := Z.to_nat n in
      x ← ntt_permute n log_2_of_n bp;
      '(x, _) ← ntt_stages n log_2_of_n root x;
      Some x.

Definition bp_fft (bp : list Belt) : outcome FieldError (list Belt) :=
  root ← ordered_root (Z.of_nat (length bp));
  match bp_ntt bp root with
  | Some x => Ok x
  | None => Panic
  end.

Definition bp_coseword (bp : list Belt) (offset : Belt) (order : nat) (root : Belt) :
    option (list Belt) :=
  res ← bp_shift bp offset (replicate order 0);
  bp_ntt res root.

(** * Bit reversal *)

Definition rv (l : nat) (n : Z) : Z := bits_val (rev (bits_of l n)).

Lemma rv_range l n : 0 <= rv l n < 2 ^ Z.of_nat l.
Proof.
  unfold rv. pose proof (bits_val_nonneg (rev (bits_of l n))).
  pose proof (bits_val_bound (rev (bits_of l n))) as Hb. rewrite length_rev, length_bits_of in Hb. lia.
Qed.

Lemma rv_involutive l n : 0 <= n < 2 ^ Z.of_nat l -> rv l (rv l n) = n.
Proof.
  intros Hn. unfold rv.
  assert (Hl : length (rev (bits_of l n)) = l) by (by rewrite length_rev, length_bits_of).
  rewrite <- Hl at 1. rewrite bits_of_val, rev_involutive. by apply bits_val_of_small.
Qed.

Lemma bits_of_S l n : bits_of (S l) n = Z.odd n :: bits_of l (n / 2).
Proof. simpl. by rewrite Z.div2_div. Qed.

Lemma rv_S l n : rv (S l) n = rv l (n / 2) + 2 ^ Z.of_nat l * Z.b2z (Z.odd n).
Proof.
  unfold rv. rewrite bits_of_S. simpl rev. rewrite bits_val_app, length_rev, length_bits_of.
  simpl. destruct (Z.odd n); simpl; lia.
Qed.

Lemma bitreverse_loop_rv l n r k :
  0 <= n -> 0 <= r < 2 ^ Z.of_nat k -> (k + l <= 32)%nat ->
  bitreverse_loop l n r = r * 2 ^ Z.of_nat l + rv l n.
Proof.
  revert n r k. induction l as [|l IH]; intros n r k Hn Hr Hk.
  { simpl. unfold rv. simpl. lia. }
  simpl bitreverse_loop.
  assert (E : Z.lor (Z.shiftl r 1) (Z.land n 1) = 2 * r + Z.b2z (Z.odd n)).
  { assert (El : Z.land n 1 = Z.b2z (Z.odd n)).
    { change 1 with (Z.ones 1). rewrite Z.land_ones by lia. change (2 ^ 1) with 2.
      rewrite Zmod_odd. by destruct (Z.odd n). }
    rewrite El, Z.shiftl_mul_pow2 by lia. pose proof (Z.add_lor_land (r * 2 ^ 1) (Z.b2z (Z.odd n))).
    assert (Z.land (r * 2 ^ 1) (Z.b2z (Z.odd n)) = 0); [|lia].
    destruct (Z.odd n); [|by rewrite Z.land_0_r]. simpl Z.b2z. change 1 with (Z.ones 1) at 2.
    by rewrite Z.land_ones, Z.mod_mul by lia. }
  assert (Hp : 2 ^ Z.of_nat (S k) <= 2 ^ 32) by (apply Z.pow_le_mono_r; lia).
  rewrite Nat2Z.inj_succ, Z.pow_succ_r in Hp by lia.
  assert (Hb : 0 <= Z.b2z (Z.odd n) <= 1) by (destruct (Z.odd n); simpl; lia).
  unfold wrap32. rewrite E, Z.mod_small by (unfold U32; lia).
  rewrite (IH _ _ (S k)); [|apply Z.shiftr_nonneg; lia| |lia].
  - rewrite rv_S, Nat2Z.inj_succ, Z.pow_succ_r, Z.shiftr_div_pow2 by lia. change (2 ^ 1) with 2. ring.
  - rewrite Nat2Z.inj_succ, Z.pow_succ_r by lia. lia.
Qed.

Lemma bitreverse_rv l n : 0 <= n -> (l <= 32)%nat -> bitreverse n l = rv l n.
Proof. intros Hn Hl. unfold bitreverse. rewrite (bitreverse_loop_rv l n 0 0); simpl; lia. Qed.

(** The same permutation on indices. *)
Definition rvn (l n : nat) : nat := Z.to_nat (rv l (Z.of_nat n)).

Lemma pow2_nat l : Z.of_nat (2 ^ l) = 2 ^ Z.of_nat l.
Proof. by rewrite Nat2Z.inj_pow. Qed.

Lemma rvn_range l n : (rvn l n < 2 ^ l)%nat.
Proof.
  unfold rvn. pose proof (rv_range l (Z.of_nat n)). apply Nat2Z.inj_lt. rewrite pow2_nat. lia.
Qed.
Lemma rvn_involutive l n : (n < 2 ^ l)%nat -> rvn l (rvn l n) = n.
Proof.
  intros Hn. unfold rvn. pose proof (rv_range l (Z.of_nat n)). apply Nat2Z.inj_lt in Hn.
  rewrite pow2_nat in Hn. rewrite Z2Nat.id, rv_involutive by lia. lia.
Qed.
Lemma rvn_even l b : rvn (S l) (2 * b) = rvn l b.
Proof.
  unfold rvn. rewrite rv_S, Nat2Z.inj_mul. change (Z.of_nat 2) with 2.
  rewrite Z.odd_mul, Z.mul_comm, Z.div_mul by lia. simpl. f_equal. lia.
Qed.
Lemma rvn_odd l b : rvn (S l) (2 * b + 1) = (rvn l b + 2 ^ l)%nat.
Proof.
  unfold rvn. rewrite rv_S. replace (Z.of_nat (2 * b + 1)) with (1 + Z.of_nat b * 2) by lia.
  rewrite Z.div_add by lia. change (1 / 2) with 0. rewrite Z.add_0_l.
  replace (Z.odd (1 + Z.of_nat b * 2)) with true.
  2:{ rewrite Z.odd_add, Z.odd_mul. simpl. by rewrite andb_false_r. }
  pose proof (rv_range l (Z.of_nat b)). simpl Z.b2z.
  rewrite Z.mul_1_r, <- pow2_nat, Z2Nat.inj_add by lia. by rewrite Nat2Z.id.
Qed.

(** Exchanging [k] with its reversal once for each pair permutes the slice. *)
Lemma ntt_permute_spec l x :
  based_poly x -> length x = (2 ^ l)%nat -> (l <= 32)%nat ->
  exists y, ntt_permute (2 ^ l) l x = Some y /\ length y = length x /\ based_poly y /\
    forall i, (i < 2 ^ l)%nat -> coef y i = coef x (rvn l i).
Proof.
  intros Hx Hlen Hl. unfold ntt_permute.
  for_inv (fun k y => length y = length x /\ based_poly y /\ forall i, (i < 2 ^ l)%nat ->
    coef y i = if decide (i < k \/ rvn l i < k)%nat then coef x (rvn l i) else coef x i)
    as (y & -> & Hly & Hby & Hc).
  - split; [done|]. split; [done|]. intros i Hi. rewrite decide_False by lia. done.
  - intros k y Hk (Hly & Hby & Hc). rewrite bitreverse_rv by lia. fold (rvn l k).
    pose proof (rvn_range l k) as Hr. assert (Hkk : rvn l (rvn l k) = k) by (apply rvn_involutive; lia).
    destruct (Nat.ltb_spec k (rvn l k)) as [Hlt|Hge].
    + unfold vswap. rewrite !vget_coef by lia. cbn [mbind option_bind].
      rewrite vset_ok by lia. cbn [mbind option_bind]. rewrite vset_ok by (rewrite length_insert; lia).
      eexists. split; [done|]. rewrite !length_insert. split; [done|]. split; [auto with nock|].
      intros i Hi. rewrite !coef_insert by (rewrite ?length_insert; lia).
      destruct (decide (i = k)) as [->|Hik]; [|destruct (decide (i = rvn l k)) as [->|Hir]].
      * rewrite (Hc (rvn l k)), Hkk, !decide_False by lia. rewrite decide_True by lia. done.
      * rewrite (Hc k), Hkk, decide_False, decide_True by lia. done.
      * rewrite Hc by done. assert (rvn l i <> k).
        { intros E. apply Hir. rewrite <- E. symmetry. by apply rvn_involutive. }
        destruct (decide (i < k \/ rvn l i < k)%nat), (decide (i < S k \/ rvn l i < S k)%nat); (done || lia).
    + exists y. split; [done|]. split; [done|]. split; [done|]. intros i Hi. rewrite Hc by done.
      destruct (decide (i = k)) as [->|Hik].
      { destruct (decide (rvn l k < k)%nat) as [|E]; [by rewrite !decide_True by lia|].
        replace (rvn l k) with k by lia. by destruct (decide _), (decide _). }
      destruct (decide (rvn l i = k)) as [E|E].
      { assert (i = rvn l k) by (rewrite <- E; symmetry; by apply rvn_involutive).
        by rewrite !decide_True by lia. }
      destruct (decide (i < k \/ rvn l i < k)%nat), (decide (i < S k \/ rvn l i < S k)%nat); (done || lia).
  - exists y. split; [done|]. split; [done|]. split; [done|]. intros i Hi.
    rewrite Hc, decide_True by lia. done.
Qed.

(** * Butterflies *)

(** [y] has the first [lim] butterflies of the block at [k] of [x] applied. *)
Definition butterflies (w : Z) (m lim k : nat) (x y : list Z) : Prop :=
  forall j, (j < lim)%nat ->
    coef y (k + j) == coef x (k + j) + coef x (k + j + m) * w ^ Z.of_nat j /\
    coef y (k + j + m) == coef x (k + j) - coef x (k + j + m) * w ^ Z.of_nat j.

Lemma ntt_block_spec w_m m k x :
  based_poly x -> based w_m -> (k + 2 * m <= length x)%nat ->
  exists y, ntt_block w_m m k x = Some y /\ length y = length x /\ based_poly y /\
    butterflies w_m m m k x y /\ (forall i, (i < k \/ k + 2 * m <= i)%nat -> coef y i = coef x i).
Proof.
  intros Hx Hw Hlen. unfold ntt_block.
  for_inv (fun j (s : list Z * Z) => length s.1 = length x /\ based_poly s.1 /\ based s.2 /\
    s.2 == w_m ^ Z.of_nat j /\ butterflies w_m m j k x s.1 /\
    (forall i, (i < k \/ k + j <= i < k + m \/ k + m + j <= i)%nat -> coef s.1 i = coef x i))
    as ([y w] & -> & H1 & H2 & H3 & H4 & H5 & H6).
  - split; [done|]. split; [done|]. split; [auto with nock|]. split; [done|].
    split; [intros j Hj; lia|done].
  - intros j [y w] Hj (H1 & H2 & H3 & H4 & H5 & H6); simpl fst in *; simpl snd in *.
    rewrite !vget_coef by lia. cbn [mbind option_bind].
    assert (Eu : coef y (k + j) = coef x (k + j)) by (apply H6; lia).
    assert (Et : coef y (k + j + m) = coef x (k + j + m)) by (apply H6; lia).
    rewrite Eu, Et. set (v := bmul (coef x (k + j + m)) w).
    assert (Hv : based v) by (unfold v; auto with nock).
    assert (Ev : v == coef x (k + j + m) * w_m ^ Z.of_nat j).
    { unfold v. by rewrite bmul_cong, H4 by auto with nock. }
    rewrite vset_ok by lia. cbn [mbind option_bind].
    rewrite vset_ok by (rewrite length_insert; lia). cbn [mbind option_bind].
    eexists. split; [done|]. cbn [fst snd]. rewrite !length_insert.
    split; [done|]. split; [auto 7 with nock|]. split; [auto with nock|]. split; [|split].
    + rewrite bmul_cong, H4, Nat2Z.inj_succ, Z.pow_succ_r by (auto with nock || lia). zring.
    + intros i Hi. rewrite !coef_insert by (rewrite ?length_insert; lia).
      destruct (decide (i = j)) as [->|Hne].
      * rewrite !(decide_False (P := (k + j = k + j + m)%nat)) by lia.
        rewrite !(decide_True (P := (k + j = k + j)%nat)) by lia.
        rewrite (decide_True (P := (k + j + m = k + j + m)%nat)) by lia.
        rewrite badd_cong, bsub_cong, Ev by auto with nock. done.
      * rewrite !decide_False by lia. apply H5. lia.
    + intros i Hi. rewrite !coef_insert by (rewrite ?length_insert; lia).
      rewrite !decide_False by lia. apply H6. lia.
  - cbn [mbind option_bind fst snd] in *. exists y. split_and!; try done.
    intros i Hi. apply H6. lia.
Qed.

(** Every block of a stage. *)
Lemma ntt_blocks_spec fuel w_m m B b x :
  based_poly x -> based w_m -> (0 < m)%nat -> length x = (B * (2 * m))%nat ->
  (b <= B)%nat -> (B - b <= fuel)%nat ->
  exists y, ntt_blocks fuel w_m m (B * (2 * m)) (b * (2 * m)) x = Some y /\
    length y = length x /\ based_poly y /\
    (forall c, (b <= c < B)%nat -> butterflies w_m m m (c * (2 * m)) x y) /\
    (forall i, (i < b * (2 * m))%nat -> coef y i = coef x i).
Proof.
  intros Hx Hw Hm. revert b x Hx. induction fuel as [|fuel IH]; intros b x Hx Hlen Hb Hf.
  - replace b with B by lia. simpl. rewrite Nat.ltb_irrefl. exists x. do 3 (split; [done|]).
    split; [lia|done].
  - cbn [ntt_blocks]. destruct (Nat.ltb_spec (b * (2 * m)) (B * (2 * m))) as [Hlt|Hge].
    2:{ exists x. do 3 (split; [done|]). split; [|done]. intros c Hc. nia. }
    assert (b < B)%nat by nia.
    destruct (ntt_block_spec w_m m (b * (2 * m)) x) as (y & -> & Hly & Hby & Hbf & Hout); [done|done|nia|].
    cbn [mbind option_bind]. replace (b * (2 * m) + 2 * m)%nat with (S b * (2 * m))%nat by lia.
    destruct (IH (S b) y) as (z & -> & Hlz & Hbz & Hbf' & Hlow); [done|lia|lia|lia|].
    exists z. split; [done|]. split; [lia|]. split; [done|]. split.
    + intros c Hc j Hj. destruct (decide (c = b)) as [->|].
      * rewrite !Hlow by nia. by apply Hbf.
      * destruct (Hbf' c ltac:(lia) j Hj) as [E1 E2]. rewrite E1, E2.
        rewrite !Hout by nia. done.
    + intros i Hi. rewrite Hlow by nia. apply Hout. lia.
Qed.

(** * Decimation in time *)

Definition tab (f : nat -> Z) (n : nat) : list Z := map f (seq 0 n).

Lemma tab_S f n : tab f (S n) = f 0%nat :: tab (fun i => f (S i)) n.
Proof. unfold tab. simpl. f_equal. rewrite <- seq_shift, map_map. done. Qed.
Lemma tab_ext f g n : (forall i, f i = g i) -> tab f n = tab g n.
Proof. intros E. unfold tab. apply map_ext, E. Qed.

(** Splitting a polynomial into its even and odd coefficients. *)
Lemma peval_even_odd f n z :
  peval (tab f (2 * n)) z ==
  peval (tab (fun i => f (2 * i)%nat) n) (z * z) + z * peval (tab (fun i => f (2 * i + 1)%nat) n) (z * z).
Proof.
  revert f. induction n as [|n IH]; intros f; [simpl; apply eq_cong; ring|].
  replace (2 * S n)%nat with (S (S (2 * n))) by lia. rewrite !tab_S. cbn [peval]. zfold.
  rewrite (IH (fun i => f (S (S i)))).
  rewrite (tab_ext (fun i => f (2 * S i)%nat) (fun i => f (S (S (2 * i)))))
    by (intros; f_equal; lia).
  rewrite (tab_ext (fun i => f (2 * S i + 1)%nat) (fun i => f (S (S (2 * i + 1)))))
    by (intros; f_equal; lia).
  simpl (2 * 0)%nat. simpl (0 + 1)%nat. apply eq_cong. ring.
Qed.

Section transform.
Context (a : list Z) (root : Z) (L : nat).

(** The coefficients of [a] with index [c] modulo 2^(L-s). *)
Definition decimated (s c : nat) : list Z := tab (fun i => coef a (c + i * 2 ^ (L - s))) (2 ^ s).

Definition stage_value (s c j : nat) : Z :=
  peval (decimated s c) (root ^ Z.of_nat (2 ^ (L - s) * j)).

(** After [s] stages, block [b] holds the transform of a decimated slice. *)
Definition stage (s : nat) (x : list Z) : Prop :=
  forall b j, (b < 2 ^ (L - s))%nat -> (j < 2 ^ s)%nat ->
    coef x (b * 2 ^ s + j) == stage_value s (rvn (L - s) b) j.

Lemma decimated_split s c z : (s < L)%nat ->
  peval (decimated (S s) c) z ==
  peval (decimated s c) (z * z) + z * peval (decimated s (c + 2 ^ (L - S s))) (z * z).
Proof.
  intros Hs. unfold decimated. replace (2 ^ S s)%nat with (2 * 2 ^ s)%nat by done.
  rewrite peval_even_odd. replace (L - s)%nat with (S (L - S s)) by lia. rewrite Nat.pow_succ_r'.
  set (t := (2 ^ (L - S s))%nat).
  rewrite (tab_ext (fun i => coef a (c + 2 * i * t)) (fun i => coef a (c + i * (2 * t))))
    by (intros; f_equal; lia).
  rewrite (tab_ext (fun i => coef a (c + (2 * i + 1) * t)) (fun i => coef a (c + t + i * (2 * t))))
    by (intros; f_equal; lia). done.
Qed.

Hypothesis Hhalf : forall t, L = S t -> root ^ Z.of_nat (2 ^ t) == -1.

Lemma stage_step s w x y :
  (s < L)%nat -> w == root ^ Z.of_nat (2 ^ (L - S s)) ->
  stage s x ->
  (forall c, (c < 2 ^ (L - S s))%nat -> butterflies w (2 ^ s) (2 ^ s) (c * (2 * 2 ^ s)) x y) ->
  stage (S s) y.
Proof.
  intros Hs Hw Hst Hbf b j Hb Hj. unfold stage_value. set (t := (L - S s)%nat) in *.
  assert (Et : (L - s)%nat = S t) by (unfold t; lia). set (m := (2 ^ s)%nat) in *.
  assert (Hm : (2 ^ S s)%nat = (2 * m)%nat) by done. rewrite Hm in Hj |- *.
  assert (Hx : forall j, (j < m)%nat ->
    let z := root ^ Z.of_nat (2 ^ t * j) in
    coef x (b * (2 * m) + j) == peval (decimated s (rvn t b)) (z * z) /\
    coef x (b * (2 * m) + j + m) == peval (decimated s (rvn t b + 2 ^ t)) (z * z) /\
    w ^ Z.of_nat j == z).
  { intros i Hi z.
    assert (Hz : z * z = root ^ Z.of_nat (2 ^ (L - s) * i)).
    { unfold z. rewrite <- Z.pow_add_r by lia. f_equal. rewrite Et, Nat.pow_succ_r'. lia. }
    split_and!.
    - replace (b * (2 * m) + i)%nat with (2 * b * m + i)%nat by lia.
      pose proof (Hst (2 * b)%nat i) as E. fold m in E. rewrite E; [|rewrite Et, Nat.pow_succ_r'; lia|done].
      unfold stage_value. by rewrite Hz, Et, rvn_even.
    - replace (b * (2 * m) + i + m)%nat with ((2 * b + 1) * m + i)%nat by lia.
      pose proof (Hst (2 * b + 1)%nat i) as E. fold m in E. rewrite E; [|rewrite Et, Nat.pow_succ_r'; lia|done].
      unfold stage_value. by rewrite Hz, Et, rvn_odd.
    - rewrite Hw, <- Z.pow_mul_r by lia. unfold z. by rewrite Nat2Z.inj_mul. }
  assert (Hone : forall i, (i < m)%nat -> root ^ Z.of_nat (2 ^ t * (i + m)) ==
    - root ^ Z.of_nat (2 ^ t * i)).
  { intros i Hi. rewrite Nat.mul_add_distr_l, Nat2Z.inj_add, Z.pow_add_r by lia.
    replace (2 ^ t * m)%nat with (2 ^ (t + s))%nat by apply Nat.pow_add_r.
    rewrite Hhalf by lia. apply eq_cong; ring. }
  destruct (decide (j < m)%nat) as [Hlt|Hge].
  - destruct (Hx j Hlt) as (E1 & E2 & E3). destruct (Hbf b Hb j Hlt) as [-> _].
    rewrite E1, E2, E3, decimated_split by done. fold t. apply eq_cong; ring.
  - replace j with ((j - m) + m)%nat by lia. set (i := (j - m)%nat). assert (Hi : (i < m)%nat) by lia.
    destruct (Hx i Hi) as (E1 & E2 & E3). destruct (Hbf b Hb i Hi) as [_ E4].
    rewrite Nat.add_assoc, E4, E1, E2, E3, decimated_split by done. fold t. rewrite (Hone i Hi).
    set (z := root ^ Z.of_nat (2 ^ t * i)). replace (- z * - z) with (z * z) by ring.
    apply eq_cong; ring.
Qed.
End transform.

Lemma decimated_full a L : length a = (2 ^ L)%nat -> decimated a L L 0 = a.
Proof.
  intros Hlen. unfold decimated, tab. apply list_eq_same_length with (2 ^ L)%nat;
    [done|by rewrite length_map, length_seq|].
  intros i x y Hi Hx Hy. change (map ?f ?l) with (f <$> l) in Hx. rewrite list_lookup_fmap in Hx.
  rewrite lookup_seq_lt in Hx by done. simpl in Hx. injection Hx as <-.
  rewrite Nat.sub_diag, Nat.mul_1_r. by apply coef_lookup.
Qed.

(** The stages of the transform, from the permuted slice. *)
Lemma ntt_stages_spec a root L x :
  based root -> (forall t, L = S t -> root ^ Z.of_nat (2 ^ t) == -1) -> (L <= 31)%nat ->
  length x = (2 ^ L)%nat -> based_poly x -> stage a root L 0 x ->
  exists y, ntt_stages (2 ^ L) L root x = Some (y, (2 ^ L)%nat) /\
    length y = length x /\ based_poly y /\ stage a root L L y.
Proof.
  intros Hr Hhalf HL Hlen Hx Hst. unfold ntt_stages.
  for_inv (fun s (p : list Z * nat) => p.2 = (2 ^ s)%nat /\ length p.1 = length x /\ based_poly p.1 /\
    stage a root L s p.1) as ([y m] & -> & Hm & H1 & H2 & H3).
  - done.
  - intros s [y m] Hs (Hm & H1 & H2 & H3). cbn [fst snd] in *. subst m.
    assert (EL : (2 ^ L = 2 ^ (L - S s) * (2 * 2 ^ s))%nat).
    { rewrite <- Nat.pow_succ_r', <- Nat.pow_add_r. f_equal. lia. }
    assert (Hpos : (2 ^ s <> 0)%nat) by (apply Nat.pow_nonzero; lia).
    assert (Ediv : (2 ^ L / (2 * 2 ^ s) = 2 ^ (L - S s))%nat).
    { rewrite EL at 1. apply Nat.div_mul. lia. }
    cbv zeta. rewrite Ediv. set (w := bpow root (Z.of_nat (2 ^ (L - S s)))).
    assert (Hu : is_u64 (Z.of_nat (2 ^ (L - S s)))).
    { rewrite pow2_nat. pose proof (Z.pow_le_mono_r 2 (Z.of_nat (L - S s)) 32 ltac:(lia) ltac:(lia)).
      pose proof (Z.pow_pos_nonneg 2 (Z.of_nat (L - S s))). belt_nums. lia. }
    assert (Hw : based w) by (unfold w; rewrite bpow_mod by done; apply mod_based).
    destruct (ntt_blocks_spec (2 ^ L) w (2 ^ s) (2 ^ (L - S s)) 0 y)
      as (z & Ez & H4 & H5 & H6 & _); [done|done|lia|lia|lia|nia|].
    rewrite Nat.mul_0_l, <- EL in Ez. rewrite Ez. cbn [mbind option_bind].
    eexists. split; [done|]. cbn [fst snd]. split; [done|]. split; [lia|]. split; [done|].
    apply stage_step with w y; [done|lia| |done|].
    + unfold w. rewrite bpow_mod by done. apply cong_mod.
    + intros c Hc. apply H6. lia.
  - exists y. cbn [fst snd] in *. rewrite Nat.add_0_l in *. subst m. done.
Qed.

Lemma bp_ntt_spec bp root L :
  based_poly bp -> length bp = (2 ^ L)%nat -> (L <= 31)%nat -> based root ->
  (forall t, L = S t -> root ^ Z.of_nat (2 ^ t) == -1) ->
  exists y, bp_ntt bp root = Some y /\ length y = length bp /\ based_poly y /\
    forall j, (j < 2 ^ L)%nat -> coef y j = peval bp (root ^ Z.of_nat j) mod PRIME.
Proof.
  intros Hbp Hlen HL Hr Hhalf.
  assert (Hn : wrap32 (Z.of_nat (length bp)) = 2 ^ Z.of_nat L).
  { rewrite Hlen, pow2_nat. apply Z.mod_small. split; [apply Z.pow_nonneg; lia|].
    apply Z.pow_lt_mono_r; lia. }
  unfold bp_ntt. rewrite Hn. destruct (Z.eqb_spec (2 ^ Z.of_nat L) 1) as [E|E].
  - assert (L = 0%nat) as ->.
    { destruct L; [done|]. rewrite Nat2Z.inj_succ, Z.pow_succ_r in E by lia.
      pose proof (Z.pow_pos_nonneg 2 (Z.of_nat L)). lia. }
    destruct bp as [|x [|]]; try done. exists [x]. split; [done|]. split; [done|]. split; [done|].
    intros j Hj. assert (j = 0%nat) as -> by (simpl in Hj; lia).
    apply cong_eq_mod; [by apply (based_coef _ 0 Hbp)|].
    change (x == x + 1 * 0). apply eq_cong. ring.
  - rewrite Hlen, pow2_nat. rewrite Z.eqb_refl.
    destruct (Z.eqb_spec (2 ^ Z.of_nat L) 0); [pose proof (Z.pow_pos_nonneg 2 (Z.of_nat L)); lia|].
    cbn [orb negb]. rewrite Z.log2_pow2, Nat2Z.id by lia.
    replace (Z.to_nat (2 ^ Z.of_nat L)) with (2 ^ L)%nat by (rewrite <- pow2_nat; lia).
    destruct (ntt_permute_spec L bp) as (x & -> & Hlx & Hbx & Hc); [done|done|lia|].
    cbn [mbind option_bind].
    destruct (ntt_stages_spec bp root L x) as (y & -> & Hly & Hby & Hst); [done..|lia|done| |].
    { intros b j Hb Hj. assert (j = 0%nat) as -> by (simpl in Hj; lia).
      rewrite Nat.sub_0_r in *. rewrite Nat.mul_1_r, Nat.add_0_r, Hc by done.
      unfold stage_value, decimated, tab. simpl. apply eq_cong. simpl.
      rewrite Nat.add_0_r. ring. }
    cbn [mbind option_bind]. exists y. split; [done|]. split; [lia|]. split; [done|].
    intros j Hj. apply cong_eq_mod; [auto with nock|].
    specialize (Hst 0%nat j). rewrite Nat.sub_diag, Nat.mul_0_l, Nat.add_0_l in Hst.
    rewrite Hst by (simpl; lia). unfold stage_value. change (rvn 0 0) with 0%nat.
    rewrite decimated_full by done. by rewrite Nat.sub_diag, Nat.mul_1_l.
Qed.

(** * Claims *)

(** C22: [bp_fft] of a slice of length 2^L, L at most 31, returns without panic the
    values of the polynomial at the powers of the table's root of order 2^L. *)
Theorem bp_fft_correct bp L :
  based_poly bp -> length bp = (2 ^ L)%nat -> (L <= 31)%nat ->
  exists y, bp_fft bp = Ok y /\ length y = length bp /\ based_poly y /\
    forall j, (j < 2 ^ L)%nat -> coef y j = peval bp (root_at L ^ Z.of_nat j) mod PRIME.
Proof.
  intros Hbp Hlen HL. unfold bp_fft. rewrite Hlen, pow2_nat, ordered_root_pow2 by lia.
  cbn [mbind outcome_bind].
  destruct (bp_ntt_spec bp (root_at L) L) as (y & -> & H1 & H2 & H3); try done.
  - apply root_based. lia.
  - intros t ->. rewrite pow2_nat. apply root_half. lia.
  - exists y. split; [done|]. split; [lia|done].
Qed.

Lemma bp_fft_correct_witness :
  exists y, bp_fft [1; 2; 3; 4] = Ok y /\ coef y 1 = peval [1; 2; 3; 4] (root_at 2 ^ Z.of_nat 1) mod PRIME.
Proof.
  destruct (bp_fft_correct [1; 2; 3; 4] 2) as (y & H1 & _ & _ & H2).
  - apply based_polyb_ok; reflexivity.
  - reflexivity.
  - lia.
  - exists y. split; [exact H1|]. apply H2. simpl; lia.
Defined.
