(* ===== verification/Felt.v ===== *)
(** The cubic extension field: [crates/nockchain-math/src/felt.rs].

    A [Felt] is three belts, the coefficients of an element of
    F_p[x]/(x^3 - x + 1).  The file models every operation of the module and shows
    that they are the operations of a field: [x^3 - x + 1] has no root, so the
    extended Euclidean algorithm inverts every non-zero element. *)
From stdpp Require Import base option list numbers.
From Stdlib Require Import ZArith Lia Zmod.
From S2P Require Import Prelude Belt Vec Poly BPoly.

Record Felt := mkFelt { f0 : Belt; f1 : Belt; f2 : Belt }.

Global Instance Felt_eq_dec : EqDecision Felt.
Proof. solve_decision. Defined.

Definition Felt_zero : Felt := mkFelt 0 0 0.
Definition Felt_one : Felt := mkFelt 1 0 0.
Definition constant (a : Z) : Felt := mkFelt a 0 0.
Definition lift (a : Belt) : Felt := mkFelt a 0 0.
Definition Felt_slice (a : Felt) : list Belt := [f0 a; f1 a; f2 a].

Definition Felt_ordered_root (order : Z) : outcome FieldError Felt :=
  r ← ordered_root order; Ok (constant r).

Definition Felt_is_zero (a : Felt) : bool := forallb Belt_is_zero (Felt_slice a).

(** [self.0.iter().rposition(|&x| x.is_zero())] *)
Definition Felt_degree (a : Felt) : Z :=
  match rposition Belt_is_zero (Felt_slice a) with
  | Some i => Z.of_nat i
  | None => 0
  end.

(** [TryFrom<&[u64]>] and [TryFrom<&[Belt]>] *)
Definition Felt_try_from (f : list Z) : option Felt :=
  match f with
  | [a; b; c] => Some (mkFelt a b c)
  | _ => None
  end.

Definition fadd (a b : Felt) : Felt :=
  mkFelt (badd (f0 a) (f0 b)) (badd (f1 a) (f1 b)) (badd (f2 a) (f2 b)).
Definition fadd_self (a res : Felt) : Felt :=
  mkFelt (badd (f0 a) (f0 res)) (badd (f1 a) (f1 res)) (badd (f2 a) (f2 res)).
Definition fsub (a b : Felt) : Felt :=
  mkFelt (bsub (f0 a) (f0 b)) (bsub (f1 a) (f1 b)) (bsub (f2 a) (f2 b)).
Definition fneg (a : Felt) : Felt := mkFelt (bneg (f0 a)) (bneg (f1 a)) (bneg (f2 a)).

Definition fmul (a b : Felt) : Felt :=
  let a0 := f0 a in let a1 := f1 a in let a2 := f2 a in
  let b0 := f0 b in let b1 := f1 b in let b2 := f2 b in
  let a0b0 := bmul a0 b0 in
  let a1b1 := bmul a1 b1 in
  let a2b2 := bmul a2 b2 in
  let a0b1_a1b0 := bsub (bsub (bmul (badd a0 a1) (badd b0 b1)) a0b0) a1b1 in
  let a1b2_a2b1 := bsub (bsub (bmul (badd a1 a2) (badd b1 b2)) a1b1) a2b2 in
  let a0b2_a2b0 := bsub (bsub (bmul (badd a0 a2) (badd b0 b2)) a0b0) a2b2 in
  mkFelt (bsub a0b0 a1b2_a2b1)
         (bsub (badd a0b1_a1b0 a1b2_a2b1) a2b2)
         (badd (badd a0b2_a2b0 a1b1) a2b2).

Definition fscal (a : Belt) (b : Felt) : Felt :=
  mkFelt (bmul (f0 b) a) (bmul (f1 b) a) (bmul (f2 b) a).

(** [Felt::mul_add]: [self * a + b]. *)
Definition mul_add (self a b : Felt) : Felt := fadd_self b (fmul self a).

Definition POLY : list Belt := [1; 18446744069414584320; 0; 1].
Definition DUV_LEN : nat := 4.

Definition finv (a : Felt) : option Felt :=
  '(poly_d, _, poly_v) ← bpegcd POLY (Felt_slice a)
     (replicate DUV_LEN 0) (replicate DUV_LEN 0) (replicate DUV_LEN 0);
  d0 ← vget poly_d 0;
  Felt_try_from (bpscal (binv d0) poly_v [0; 0; 0]).

(** The loop of [fpow]; every 64-bit exponent ends it within 64 rounds. *)
Fixpoint fpow_loop (fuel : nat) (a : Felt) (b : Z) (c : Felt) : Felt :=
  match fuel with
  | O => Felt_zero
  | S fuel =>
      if 1 <? b then
        if Z.land b 1 =? 0 then fpow_loop fuel (fmul a a) (b / 2) c
        else fpow_loop fuel (fmul a a) ((b - 1) / 2) (fmul c a)
      else fmul c a
  end.

Definition fpow (term : Felt) (exponent : Z) : Felt :=
  if exponent =? 0 then Felt_one else fpow_loop 64 term exponent Felt_one.

Definition fdiv (a b : Felt) : option Felt :=
  binv ← finv b; Some (fmul a binv).

(** * The field laws *)

Definition based_felt (a : Felt) : Prop := based (f0 a) /\ based (f1 a) /\ based (f2 a).
Definition fcong (a b : Felt) : Prop := f0 a == f0 b /\ f1 a == f1 b /\ f2 a == f2 b.

Lemma fcong_eq a b : based_felt a -> based_felt b -> fcong a b -> a = b.
Proof.
  destruct a, b. intros (?&?&?) (?&?&?) (?&?&?); simpl in *. f_equal; by apply cong_based.
Qed.

Lemma based_felt_slice a : based_felt a <-> based_poly (Felt_slice a).
Proof.
  unfold Felt_slice, based_felt. split.
  - intros (?&?&?). do 3 (constructor; [done|]). constructor.
  - intros Hl. inversion_clear Hl as [|?? H0 Hl']. inversion_clear Hl' as [|?? H1 Hl].
    inversion_clear Hl as [|?? H2 _]. done.
Qed.

(** Schoolbook product reduced by [x^3 = x - 1]. *)
Definition fmul_spec (a b : Felt) : Felt :=
  let c0 := f0 a * f0 b in
  let c1 := f0 a * f1 b + f1 a * f0 b in
  let c2 := f0 a * f2 b + f1 a * f1 b + f2 a * f0 b in
  let c3 := f1 a * f2 b + f2 a * f1 b in
  let c4 := f2 a * f2 b in
  mkFelt (c0 - c3) (c1 + c3 - c4) (c2 + c4).

(** Basedness of an expression built from the word operations. *)
Ltac based_expr :=
  repeat lazymatch goal with
    | |- based (badd _ _) => apply badd_based
    | |- based (bsub _ _) => apply bsub_based
    | |- based (bmul _ _) => apply bmul_based
    | |- based (bneg _) => apply bneg_based
    | |- based _ => assumption
    end.

(** Push congruences through the word operations of based operands. *)
Ltac belt_cong :=
  repeat first [ rewrite badd_cong by based_expr | rewrite bsub_cong by based_expr
               | rewrite bneg_cong by based_expr | rewrite bmul_cong by based_expr ].

Lemma fmul_ok a b :
  based_felt a -> based_felt b -> based_felt (fmul a b) /\ fcong (fmul a b) (fmul_spec a b).
Proof.
  intros (A0 & A1 & A2) (B0 & B1 & B2). split.
  - unfold based_felt. split_and!; cbn [fmul f0 f1 f2]; based_expr.
  - unfold fcong, fmul, fmul_spec. simpl. split_and!; belt_cong; apply eq_cong; ring.
Qed.

Lemma fadd_ok a b :
  based_felt a -> based_felt b -> based_felt (fadd a b) /\
  fcong (fadd a b) (mkFelt (f0 a + f0 b) (f1 a + f1 b) (f2 a + f2 b)).
Proof.
  intros (A0 & A1 & A2) (B0 & B1 & B2).
  split; [repeat split; simpl; apply badd_based; done|].
  unfold fcong; simpl. by split_and!; apply badd_cong.
Qed.

(** The element as a polynomial, and the product as a product modulo [POLY]. *)
Lemma fmul_poly a b :
  based_felt a -> based_felt b ->
  pmul (Felt_slice a) (Felt_slice b) ≃
  padd (Felt_slice (fmul a b))
    (pmul POLY [f1 a * f2 b + f2 a * f1 b; f2 a * f2 b]).
Proof.
  intros Ha Hb. destruct (fmul_ok a b Ha Hb) as [_ (H0 & H1 & H2)].
  assert (Hs : Felt_slice (fmul a b) ≃ Felt_slice (fmul_spec a b)).
  { intros [|[|[|i]]]; [exact H0|exact H1|exact H2|done]. }
  rewrite Hs. clear Hs H0 H1 H2. unfold POLY, fmul_spec, Felt_slice.
  assert (Hm : 18446744069414584320 == -1) by cong_compute.
  intros i. do 6 (destruct i as [|i]; [cbn; rewrite ?Hm; apply eq_cong; ring|]). done.
Qed.

Global Instance fcong_equiv : Equivalence fcong.
Proof.
  unfold fcong. split; red.
  - done.
  - intros ? ? (?&?&?). by split_and!; symmetry.
  - intros ? ? ? (->&->&->). done.
Qed.
Global Instance fmul_spec_proper : Proper (fcong ==> fcong ==> fcong) fmul_spec.
Proof.
  intros a a' (H0 & H1 & H2) b b' (G0 & G1 & G2). unfold fcong, fmul_spec; simpl.
  rewrite H0, H1, H2, G0, G1, G2. done.
Qed.

Lemma fmul_based a b : based_felt a -> based_felt b -> based_felt (fmul a b).
Proof. intros. by apply fmul_ok. Qed.
Lemma Felt_one_based : based_felt Felt_one.
Proof. split_and!; auto with nock. Qed.
#[export] Hint Resolve fmul_based Felt_one_based : nock.

(** An identity of [fmul] follows from the identity of the schoolbook product. *)
Ltac fmul_law :=
  apply fcong_eq; [auto 10 with nock..|];
  repeat match goal with
    | |- context [fmul ?a ?b] => rewrite (proj2 (fmul_ok a b ltac:(auto 10 with nock) ltac:(auto 10 with nock)))
    end;
  unfold fcong, fmul_spec; simpl; split_and!; apply eq_cong; ring.

Lemma fmul_comm a b : based_felt a -> based_felt b -> fmul a b = fmul b a.
Proof. intros. fmul_law. Qed.
Lemma fmul_assoc a b c :
  based_felt a -> based_felt b -> based_felt c -> fmul a (fmul b c) = fmul (fmul a b) c.
Proof. intros. fmul_law. Qed.
Lemma fmul_1_l a : based_felt a -> fmul Felt_one a = a.
Proof. intros. fmul_law. Qed.
Lemma fmul_1_r a : based_felt a -> fmul a Felt_one = a.
Proof. intros. fmul_law. Qed.

(** * Powers *)

Fixpoint fpower (a : Felt) (n : nat) : Felt :=
  match n with O => Felt_one | S n => fmul a (fpower a n) end.

Lemma fpower_based a n : based_felt a -> based_felt (fpower a n).
Proof. intros Ha. induction n; simpl; auto with nock. Qed.
#[export] Hint Resolve fpower_based : nock.

Lemma fpower_add a n m : based_felt a -> fpower a (n + m) = fmul (fpower a n) (fpower a m).
Proof.
  intros Ha. induction n as [|n IH]; simpl; [by rewrite fmul_1_l by auto with nock|].
  rewrite IH. apply fmul_assoc; auto with nock.
Qed.
Lemma fpower_square a n : based_felt a -> fpower (fmul a a) n = fpower a (2 * n).
Proof.
  intros Ha. induction n as [|n IH]; [done|].
  replace (2 * S n)%nat with (2 + 2 * n)%nat by lia. rewrite fpower_add, <- IH by done.
  simpl. by rewrite fmul_1_r.
Qed.

Lemma fpow_loop_spec fuel a b c :
  based_felt a -> based_felt c -> 1 <= b < 2 ^ Z.of_nat fuel ->
  fpow_loop fuel a b c = fmul c (fpower a (Z.to_nat b)).
Proof.
  revert a b c. induction fuel as [|fuel IH]; intros a b c Ha Hc Hb; [simpl in Hb; lia|].
  rewrite Nat2Z.inj_succ, Z.pow_succ_r in Hb by lia. simpl fpow_loop.
  destruct (Z.ltb_spec 1 b).
  2:{ replace b with 1 by lia. simpl. by rewrite fmul_1_r. }
  change 1 with (Z.ones 1) at 1. rewrite Z.land_ones by lia.
  pose proof (Z.div_mod b 2) as Hdm. pose proof (Z.mod_pos_bound b 2).
  destruct (Z.eqb_spec (b mod 2 ^ 1) 0) as [E|E]; rewrite Z.pow_1_r in E.
  - rewrite IH by (auto with nock || lia). rewrite fpower_square by done.
    by replace (2 * Z.to_nat (b / 2))%nat with (Z.to_nat b) by lia.
  - replace ((b - 1) / 2) with (b / 2) by (apply Z.div_unique with 0; lia).
    rewrite IH by (auto with nock || lia). rewrite fpower_square by done.
    replace (Z.to_nat b) with (1 + 2 * Z.to_nat (b / 2))%nat by lia.
    rewrite fpower_add by done. simpl (fpower a 1). rewrite fmul_1_r by done.
    rewrite fmul_assoc; auto with nock.
Qed.

Lemma fpow_spec a b : based_felt a -> is_u64 b -> fpow a b = fpower a (Z.to_nat b).
Proof.
  intros Ha Hb. unfold fpow. destruct (Z.eqb_spec b 0) as [->|]; [done|].
  rewrite fpow_loop_spec;
    [by apply fmul_1_l; auto with nock|done|auto with nock|change (Z.of_nat 64) with 64; belt_nums; lia].
Qed.

(** * [x^3 - x + 1] has no root *)

Definition feval (r : Z) (a : Felt) : Z := f0 a + r * (f1 a + r * f2 a).

Section root.
Context (r : Z) (Hr : r ^ 3 - r + 1 == 0).

Lemma feval_fmul a b :
  based_felt a -> based_felt b -> feval r (fmul a b) == feval r a * feval r b.
Proof.
  intros Ha Hb. destruct (fmul_ok a b Ha Hb) as [_ (H0 & H1 & H2)].
  unfold feval at 1. rewrite H0, H1, H2. unfold fmul_spec; simpl.
  set (c3 := f1 a * f2 b + f2 a * f1 b). set (c4 := f2 a * f2 b).
  transitivity (feval r a * feval r b - (r ^ 3 - r + 1) * (c3 + c4 * r)).
  - apply eq_cong. unfold feval, c3, c4. ring.
  - rewrite Hr. apply eq_cong. ring.
Qed.

Lemma feval_fpower a n : based_felt a -> feval r (fpower a n) == feval r a ^ Z.of_nat n.
Proof.
  intros Ha. induction n as [|n IH]; simpl fpower.
  - apply eq_cong. rewrite Z.pow_0_r. unfold feval. simpl. ring.
  - rewrite feval_fmul, IH, Nat2Z.inj_succ, Z.pow_succ_r by (auto with nock || lia). done.
Qed.
End root.

Lemma feval_fsub r a b :
  based_felt a -> based_felt b -> feval r (fsub a b) == feval r a - feval r b.
Proof.
  intros (?&?&?) (?&?&?). unfold feval, fsub. cbn [f0 f1 f2]. belt_cong. apply eq_cong. ring.
Qed.

Definition felt_X : Felt := mkFelt 0 1 0.
(** [x^p - x] and its inverse modulo [POLY]: [POLY] shares no factor with [x^p - x]. *)
Definition frobenius_gap : Felt := fsub (fpow felt_X PRIME) felt_X.
Definition frobenius_gap_inv : Felt := default Felt_zero (finv frobenius_gap).

Lemma frobenius_unit : fmul frobenius_gap frobenius_gap_inv = Felt_one.
Proof. vm_compute. reflexivity. Qed.

Lemma based_feltb a : based_polyb (Felt_slice a) = true -> based_felt a.
Proof. intros E. by apply based_felt_slice, based_polyb_ok. Qed.

Lemma POLY_no_root r : ~ (r ^ 3 - r + 1 == 0).
Proof.
  intros Hr. assert (HX : based_felt felt_X) by (split_and!; auto with nock).
  assert (Hp : based_felt (fpow felt_X PRIME)) by (apply based_feltb; vm_compute; reflexivity).
  assert (Hg : based_felt frobenius_gap) by (apply based_feltb; vm_compute; reflexivity).
  assert (Hi : based_felt frobenius_gap_inv) by (apply based_feltb; vm_compute; reflexivity).
  assert (Hu : is_u64 PRIME) by (unfold is_u64, PRIME, U64; lia).
  assert (Hf : r ^ PRIME == r) by (apply cong_iff, Z.fermat, PRIME_prime).
  assert (HXr : feval r felt_X = r) by (unfold feval; simpl; ring).
  assert (Hpow : feval r (fpow felt_X PRIME) == r).
  { rewrite (fpow_spec felt_X PRIME HX Hu), (feval_fpower r Hr _ _ HX), HXr.
    rewrite Z2Nat.id by (unfold PRIME; lia). exact Hf. }
  assert (Hgap : feval r frobenius_gap == 0).
  { unfold frobenius_gap. rewrite (feval_fsub r _ _ Hp HX), Hpow, HXr. apply eq_cong; ring. }
  assert (E : feval r frobenius_gap * feval r frobenius_gap_inv == 1).
  { rewrite <- (feval_fmul r Hr _ _ Hg Hi), frobenius_unit. apply eq_cong. unfold feval. simpl. ring. }
  rewrite Hgap in E. apply cong_iff in E. by vm_compute in E.
Qed.

(** * Factors of [POLY] *)

Lemma cong_0_dec a : a == 0 \/ ~ (a == 0).
Proof. rewrite cong_iff. destruct (decide (a mod PRIME = 0 mod PRIME)); auto. Qed.

(** A polynomial is zero or has an exact degree. *)
Lemma exact_degree (l : list Z) : l ≃ [] \/ exists n, ~ (coef l n == 0) /\ deg_le l n.
Proof.
  induction l as [|a l IH]; [by left|]. destruct IH as [Hz|(n & Hn & Hd)].
  - destruct (cong_0_dec a) as [Ha|Ha].
    + left. symmetry. apply peq_nil_cons. split; [done|by symmetry].
    + right. exists 0%nat. split; [done|]. intros [|j] Hj; [lia|]. rewrite coef_cons_S, (Hz j).
      by rewrite coef_nil.
  - right. exists (S n). split; [done|]. intros [|j] Hj; [lia|]. apply Hd. lia.
Qed.

Lemma cong_inverse a : ~ (a == 0) -> exists b, a * b == 1.
Proof.
  intros Ha. exists (binv (a mod PRIME)). rewrite <- (cong_mod a) at 1.
  rewrite <- bmul_cong by (apply mod_based || apply binv_based, mod_based).
  rewrite binv_correct; [done|apply mod_based|].
  intros E. apply Ha. rewrite <- (cong_mod a), E. done.
Qed.

Lemma linear_root (l : list Z) : deg_le l 1 -> ~ (coef l 1 == 0) -> exists r, peval l r == 0.
Proof.
  intros Hd Hl. destruct (cong_inverse _ Hl) as [b Hb]. exists (- coef l 0 * b).
  assert (E : l ≃ [coef l 0; coef l 1]).
  { intros [|[|j]]; [done|done|]. rewrite (Hd (S (S j))) by lia. by rewrite !coef_cons_S, coef_nil. }
  rewrite E at 1. cbn [peval]. zfold.
  transitivity (coef l 0 - coef l 0 * (coef l 1 * b)); [apply eq_cong; ring|].
  rewrite Hb. apply eq_cong; ring.
Qed.

Lemma POLY_eval r : peval POLY r == r ^ 3 - r + 1.
Proof.
  unfold POLY. cbn [peval]. zfold. assert (Hm : 18446744069414584320 == -1) by cong_compute.
  rewrite Hm. apply eq_cong. ring.
Qed.

Lemma POLY_degree : deg_le POLY 3 /\ coef POLY 3 = 1.
Proof.
  split; [|done]. intros [|[|[|[|j]]]] Hj; try lia. unfold POLY. by rewrite !coef_cons_S, coef_nil.
Qed.

(** Degrees add up: the base field has no zero divisors. *)
Lemma degree_sum l k :
  deg_le l k -> ~ (coef l k == 0) -> forall s t, l ≃ pmul s t ->
  exists i j, (i + j = k)%nat /\ deg_le s i /\ ~ (coef s i == 0) /\ deg_le t j /\ ~ (coef t j == 0).
Proof.
  intros Hk Hl s t E. destruct (exact_degree s) as [Hs|(i & Hsi & Hs)].
  { exfalso. apply Hl. rewrite (E k), Hs. simpl. by rewrite coef_nil. }
  destruct (exact_degree t) as [Ht|(j & Htj & Ht)].
  { exfalso. apply Hl. rewrite (E k), Ht, pmul_nil_r. by rewrite coef_nil. }
  destruct (coef_pmul_top s t i j Hs Ht) as [H1 H2]. zfold. exists i, j. split_and!; try done.
  assert (Hij : ~ (coef l (i + j) == 0)).
  { rewrite (E (i + j)%nat), H1. intros Hz. by destruct (mul_cancel _ _ Hz). }
  destruct (Nat.lt_trichotomy (i + j) k) as [Hlt|[?|Hlt]]; [|done|].
  - exfalso. apply Hl. rewrite (E k). by apply H2.
  - exfalso. apply Hij. by apply Hk.
Qed.

(** [POLY] is irreducible: a factor is constant or has degree 3. *)
Lemma POLY_factor s d :
  POLY ≃ pmul s d -> exists j, (j = 0 \/ j = 3)%nat /\ deg_le d j /\ ~ (coef d j == 0).
Proof.
  intros E. destruct POLY_degree as [Hd Hl].
  assert (Hno : forall l, (exists m, POLY ≃ pmul l m) -> deg_le l 1 -> ~ (coef l 1 == 0) -> False).
  { intros l [m Em] H1 H2. destruct (linear_root l H1 H2) as [r Hr].
    apply (POLY_no_root r). rewrite <- POLY_eval, Em, peval_pmul. zfold. rewrite Hr.
    apply eq_cong; ring. }
  destruct (degree_sum POLY 3 Hd) with (s := s) (t := d) as (i & j & Hij & Hs & Hsi & Hdj & Hj); [|done|].
  { rewrite Hl. intros E1. apply cong_iff in E1. by vm_compute in E1. }
  exists j. split_and!; try done. destruct (decide (j = 1)%nat) as [->|].
  { exfalso. apply (Hno d); [exists s; rewrite E; ring|done|done]. }
  destruct (decide (i = 1)%nat) as [->|]; [|lia].
  exfalso. apply (Hno s); [by exists d|done|done].
Qed.

Lemma Felt_slice_degree a : (degree (Felt_slice a) < 3)%nat.
Proof.
  unfold degree. destruct (rposition _ (Felt_slice a)) as [i|] eqn:E; [|lia].
  apply rposition_Some in E as [(x & Hx & _) _]. by apply lookup_lt_Some in Hx.
Qed.

Lemma Felt_zero_slice a : based_felt a -> Felt_slice a ≃ [] -> a = Felt_zero.
Proof.
  intros Ha E. apply fcong_eq; [done|split_and!; auto with nock|].
  split_and!; [apply (E 0%nat)|apply (E 1%nat)|apply (E 2%nat)].
Qed.

(** The three words [finv] writes: the cofactor scaled by the inverse of the gcd. *)
Lemma finv_value a :
  based_felt a ->
  exists d u v r, finv a = Some r /\ based_felt r /\ based_poly d /\
    Felt_slice r ≃ pscale (binv (coef d 0)) v /\
    d ≃ padd (pmul u POLY) (pmul v (Felt_slice a)) /\
    (exists s, POLY ≃ pmul s d) /\ (exists t, Felt_slice a ≃ pmul t d).
Proof.
  intros Ha. pose proof (Felt_slice_degree a) as Hda. apply based_felt_slice in Ha as Hsl.
  assert (HP : based_poly POLY) by (apply based_polyb_ok; reflexivity).
  destruct (bpegcd_spec POLY (Felt_slice a) (replicate DUV_LEN 0) (replicate DUV_LEN 0)
    (replicate DUV_LEN 0)) as (d & u & v & E & Hd & Hu & Hv & Hlv & Hc & Hs & Ht & Htop);
    [done|done|change (degree POLY) with 3%nat; simpl; lia..|].
  change (degree POLY) with 3%nat in Htop. specialize (Htop Hda).
  assert (Hd0 : vget d 0 = Some (coef d 0)).
  { apply vget_coef. destruct d; [|simpl; lia]. destruct Hs as [s Hs]. specialize (Hs 3%nat).
    rewrite pmul_nil_r in Hs. apply cong_iff in Hs. by vm_compute in Hs. }
  unfold finv. rewrite E. cbn [mbind option_bind]. rewrite Hd0. cbn [mbind option_bind].
  destruct v as [|v0 [|v1 [|v2 [|v3 [|]]]]]; try done. unfold bpscal. cbn [zip_map Felt_try_from].
  set (c := binv (coef d 0)). assert (Hbc : based c) by (apply binv_based, based_coef, Hd).
  assert (Hb4 : based v0 /\ based v1 /\ based v2).
  { split_and!; [apply (based_coef _ 0 Hv)|apply (based_coef _ 1 Hv)|apply (based_coef _ 2 Hv)]. }
  destruct Hb4 as (B0 & B1 & B2).
  eexists d, u, [v0; v1; v2; v3], _. split; [reflexivity|].
  split; [split_and!; simpl; by apply bmul_based|]. split; [done|]. split; [|done].
  specialize (Htop 3%nat ltac:(lia)). change (v3 == 0) in Htop.
  intros [|[|[|[|j]]]]; [exact (bmul_cong c v0 Hbc B0)|exact (bmul_cong c v1 Hbc B1)
    |exact (bmul_cong c v2 Hbc B2)| |].
  - change (0 == c * v3). by rewrite Htop, Z.mul_0_r.
  - rewrite !coef_beyond by (simpl; lia). done.
Qed.

(** The remainder modulo a monic polynomial is unique. *)
Lemma monic_remainder P n l w :
  deg_le P n -> coef P n = 1 -> (forall j, (n <= j)%nat -> coef l j == 0) -> l ≃ pmul P w -> l ≃ [].
Proof.
  intros Hd H1 Hl E. destruct (exact_degree w) as [Hw|(k & Hk & Hw)].
  - by rewrite E, Hw, pmul_nil_r.
  - exfalso. destruct (coef_pmul_top P w n k Hd Hw) as [Htop _].
    apply Hk. rewrite H1 in Htop. zfold. rewrite Z.mul_1_l in Htop. rewrite <- Htop, <- (E _).
    apply Hl. lia.
Qed.

(** The gcd of [POLY] and a non-zero element is a constant. *)
Lemma gcd_constant a d s t :
  based_felt a -> a <> Felt_zero -> POLY ≃ pmul s d -> Felt_slice a ≃ pmul t d ->
  d ≃ [coef d 0] /\ ~ (coef d 0 == 0).
Proof.
  intros Ha Hnz Hs Ht. destruct (POLY_factor s d Hs) as (j & [->| ->] & Hdj & Hj).
  { split; [|done]. intros [|j]; [done|]. rewrite coef_cons_S, coef_nil. apply Hdj. lia. }
  exfalso. destruct (exact_degree (Felt_slice a)) as [Hz|(k & Hk & Hda)].
  { by apply Hnz, Felt_zero_slice. }
  destruct (degree_sum (Felt_slice a) k Hda Hk t d Ht) as (i & j & Hij & _ & _ & Hdj' & Hj').
  assert (j = 3)%nat as ->.
  { destruct (Nat.lt_trichotomy j 3) as [Hlt|[?|Hlt]]; [|done|]; exfalso.
    - by apply Hj, Hdj'.
    - by apply Hj', Hdj. }
  apply Hk. rewrite coef_beyond; [done|]. unfold Felt_slice. cbn [length]. lia.
Qed.

Lemma felt_one_slice g : Felt_slice g ≃ [1] -> fcong g Felt_one.
Proof. intros H1. split_and!; [exact (H1 0%nat)|exact (H1 1%nat)|exact (H1 2%nat)]. Qed.

(** A scaled Bezout cofactor inverts modulo a monic polynomial. *)
Lemma bezout_inverse P n c d u v w x g :
  deg_le P n -> coef P n = 1 -> (0 < n)%nat -> length g = n ->
  c * d == 1 -> [d] ≃ padd (pmul u P) (pmul v x) ->
  pmul x (pscale c v) ≃ padd g (pmul P w) -> g ≃ [1].
Proof.
  intros HP H1P Hn Hg Hcd Hd Hp.
  assert (H1 : pmul [c] [d] ≃ [1]).
  { intros [|j]; cbn; [by rewrite Z.add_0_r|by destruct j]. }
  assert (Hz : psub g [1] ≃ []).
  { apply (monic_remainder P n) with (popp (padd (pmul [c] u) w)); [done|done|..].
    - intros j Hj. rewrite coef_psub, !coef_beyond; [zring|simpl; lia..].
    - rewrite pscale_pmul in Hp. rewrite <- H1, Hd.
      transitivity (psub (psub (padd g (pmul P w)) (pmul P w))
        (pmul [c] (padd (pmul u P) (pmul v x)))); [ring|].
      rewrite <- Hp. ring. }
  transitivity (padd (psub g [1]) [1]); [ring|by rewrite Hz].
Qed.

Lemma finv_inverse a :
  based_felt a -> a <> Felt_zero ->
  exists r, finv a = Some r /\ based_felt r /\ fmul a r = Felt_one.
Proof.
  intros Ha Hnz. destruct (finv_value a Ha) as (d & u & v & r & E & Hr & Hbd & Hv & Hc & [s Hs] & [t Ht]).
  exists r. split; [done|]. split; [done|].
  destruct (gcd_constant a d s t Ha Hnz Hs Ht) as [Hd Hc0].
  pose proof (fmul_poly a r Ha Hr) as Hp. rewrite Hv in Hp.
  apply fcong_eq; [by apply fmul_based|apply Felt_one_based|].
  destruct POLY_degree as [HP3 HP1].
  eapply felt_one_slice, (bezout_inverse POLY 3 (binv (coef d 0)) (coef d 0));
    [done|done|lia|done| |rewrite <- Hd; exact Hc|exact Hp].
  rewrite Z.mul_comm, <- bmul_cong by auto with nock. rewrite binv_correct; [done|auto with nock|].
  intros Ez. apply Hc0. by rewrite Ez.
Qed.

Lemma finv_zero : finv Felt_zero = Some Felt_zero.
Proof. vm_compute. reflexivity. Qed.

(** * Claims *)

(** On based elements [fmul] is multiplication in F_p[x]/(x^3 - x + 1): the
    product of the polynomials is the result plus a multiple of [POLY]; it is
    associative, commutative and has [Felt_one] as unit. *)
Theorem fmul_ring a b c :
  based_felt a -> based_felt b -> based_felt c ->
  based_felt (fmul a b) /\
  (exists q, pmul (Felt_slice a) (Felt_slice b) ≃ padd (Felt_slice (fmul a b)) (pmul POLY q)) /\
  fmul a b = fmul b a /\ fmul a (fmul b c) = fmul (fmul a b) c /\ fmul Felt_one a = a.
Proof.
  intros Ha Hb Hc. split; [by apply fmul_based|].
  split; [eexists; by apply fmul_poly|]. auto using fmul_comm, fmul_assoc, fmul_1_l.
Qed.

Lemma fmul_ring_witness :
  fmul felt_X (fmul felt_X felt_X) = mkFelt (PRIME - 1) 1 0 /\
  fmul felt_X (fmul felt_X felt_X) = fmul (fmul felt_X felt_X) felt_X.
Proof.
  assert (HX : based_felt felt_X) by (apply based_feltb; reflexivity).
  destruct (fmul_ring felt_X felt_X felt_X HX HX HX) as (_ & _ & _ & Ha & _).
  split; [vm_compute; reflexivity|exact Ha].
Defined.

(** [x^3 - x + 1] has no root modulo [PRIME], so the ring is a field; [finv]
    terminates without panic and returns the inverse of every non-zero element. *)
Theorem finv_correct a r :
  based_felt a -> a <> Felt_zero ->
  ~ (r ^ 3 - r + 1 == 0) /\
  exists b, finv a = Some b /\ based_felt b /\ fmul a b = Felt_one.
Proof. intros Ha Hnz. split; [apply POLY_no_root|by apply finv_inverse]. Qed.

Lemma finv_correct_witness :
  based_felt (mkFelt 1 2 3) /\ exists b, finv (mkFelt 1 2 3) = Some b /\ fmul (mkFelt 1 2 3) b = Felt_one.
Proof.
  assert (Ha : based_felt (mkFelt 1 2 3)) by (apply based_feltb; reflexivity).
  split; [exact Ha|].
  destruct (finv_correct (mkFelt 1 2 3) 0 Ha ltac:(discriminate)) as (_ & b & H1 & _ & H2).
  exists b. split; [exact H1|exact H2].
Defined.

(** [fpow] is iterated [fmul] for every 64-bit exponent. *)
Theorem fpow_correct a n : based_felt a -> is_u64 n -> fpow a n = fpower a (Z.to_nat n).
Proof. apply fpow_spec. Qed.

Lemma fpow_correct_witness : fpow felt_X 5 = fpower felt_X 5.
Proof.
  apply (fpow_correct felt_X 5); [apply based_feltb; reflexivity|unfold is_u64, U64; lia].
Defined.

(** [Felt::degree] looks for the last zero coefficient instead of the last
    non-zero one: a constant has degree 2, and [x^2] has degree 1. *)
Theorem Felt_degree_wrong c :
  c <> 0 -> Felt_degree (mkFelt c 0 0) = 2 /\ Felt_degree (mkFelt 0 0 c) = 1.
Proof.
  intros Hc. unfold Felt_degree, Felt_slice, Belt_is_zero. simpl.
  destruct (Z.eqb_spec c 0); [done|]. done.
Qed.

Lemma Felt_degree_wrong_witness : Felt_degree Felt_one = 2.
Proof. apply (Felt_degree_wrong 1). lia. Defined.
