(* ===== verification/Tip5.v ===== *)
(** The Tip5 hash: [crates/nockchain-math/src/tip5/mod.rs] and [tip5/hash.rs].

    The sponge is a list of sixteen words.  The file models the permutation, the
    padding, the absorption loop and the two hashes of belts, and shows that the
    permutation maps field states to field states injectively. *)
From stdpp Require Import base option list numbers.
From Stdlib Require Import ZArith Lia Zmod.
From S2P Require Import Prelude Belt Vec Poly BPoly.

Definition DIGEST_LENGTH : nat := 5.
Definition STATE_SIZE : nat := 16.
Definition NUM_SPLIT_AND_LOOKUP : nat := 4.
Definition RATE : nat := 10.
Definition NUM_ROUNDS : nat := 7.
Definition R : Z := 18446744073709551616.

Definition LOOKUP_TABLE : list Z :=
  [
    0; 7; 26; 63; 124; 215; 85; 254; 214; 228; 45; 185; 140; 173; 33; 240; 29; 177; 176; 32;
    8; 110; 87; 202; 204; 99; 150; 106; 230; 14; 235; 128; 213; 239; 212; 138; 23; 130; 208; 6;
    44; 71; 93; 116; 146; 189; 251; 81; 199; 97; 38; 28; 73; 179; 95; 84; 152; 48; 35; 119;
    49; 88; 242; 3; 148; 169; 72; 120; 62; 161; 166; 83; 175; 191; 137; 19; 100; 129; 112; 55;
    221; 102; 218; 61; 151; 237; 68; 164; 17; 147; 46; 234; 203; 216; 22; 141; 65; 57; 123; 12;
    244; 54; 219; 231; 96; 77; 180; 154; 5; 253; 133; 165; 98; 195; 205; 134; 245; 30; 9; 188;
    59; 142; 186; 197; 181; 144; 92; 31; 224; 163; 111; 74; 58; 69; 113; 196; 67; 246; 225; 10;
    121; 50; 60; 157; 90; 122; 2; 250; 101; 75; 178; 159; 24; 36; 201; 11; 243; 132; 198; 190;
    114; 233; 39; 52; 21; 209; 108; 238; 91; 187; 18; 104; 194; 37; 153; 34; 200; 143; 126; 155;
    236; 118; 64; 80; 172; 89; 94; 193; 135; 183; 86; 107; 252; 13; 167; 206; 136; 220; 207; 103;
    171; 160; 76; 182; 227; 217; 158; 56; 174; 4; 66; 109; 139; 162; 184; 211; 249; 47; 125; 232;
    117; 43; 16; 42; 127; 20; 241; 25; 149; 105; 156; 51; 53; 168; 145; 247; 223; 79; 78; 226;
    15; 222; 82; 115; 70; 210; 27; 41; 1; 170; 40; 131; 192; 229; 248; 255 ].

Definition ROUND_CONSTANTS : list Z :=
  [
    1332676891236936200; 16607633045354064669; 12746538998793080786; 15240351333789289931;
    10333439796058208418; 986873372968378050; 153505017314310505; 703086547770691416;
    8522628845961587962; 1727254290898686320; 199492491401196126; 2969174933639985366;
    1607536590362293391; 16971515075282501568; 15401316942841283351; 14178982151025681389;
    2916963588744282587; 5474267501391258599; 5350367839445462659; 7436373192934779388;
    12563531800071493891; 12265318129758141428; 6524649031155262053; 1388069597090660214;
    3049665785814990091; 5225141380721656276; 10399487208361035835; 6576713996114457203;
    12913805829885867278; 10299910245954679423; 12980779960345402499; 593670858850716490;
    12184128243723146967; 1315341360419235257; 9107195871057030023; 4354141752578294067;
    8824457881527486794; 14811586928506712910; 7768837314956434138; 2807636171572954860;
    9487703495117094125; 13452575580428891895; 14689488045617615844; 16144091782672017853;
    15471922440568867245; 17295382518415944107; 15054306047726632486; 5708955503115886019;
    9596017237020520842; 16520851172964236909; 8513472793890943175; 8503326067026609602;
    9402483918549940854; 8614816312698982446; 7744830563717871780; 14419404818700162041;
    8090742384565069824; 15547662568163517559; 17314710073626307254; 10008393716631058961;
    14480243402290327574; 13569194973291808551; 10573516815088946209; 15120483436559336219;
    3515151310595301563; 1095382462248757907; 5323307938514209350; 14204542692543834582;
    12448773944668684656; 13967843398310696452; 14838288394107326806; 13718313940616442191;
    15032565440414177483; 13769903572116157488; 17074377440395071208; 16931086385239297738;
    8723550055169003617; 590842605971518043; 16642348030861036090; 10708719298241282592;
    12766914315707517909; 11780889552403245587; 113183285481780712; 9019899125655375514;
    3300264967390964820; 12802381622653377935; 891063765000023873; 15939045541699412539;
    3240223189948727743; 4087221142360949772; 10980466041788253952; 18199914337033135244;
    7168108392363190150; 16860278046098150740; 13088202265571714855; 4712275036097525581;
    16338034078141228133; 1455012125527134274; 5024057780895012002; 9289161311673217186;
    9401110072402537104; 11919498251456187748; 4173156070774045271; 15647643457869530627;
    15642078237964257476; 1405048341078324037; 3059193199283698832; 1605012781983592984;
    7134876918849821827; 5796994175286958720; 7251651436095127661; 4565856221886323991 ].

Definition MDS_MATRIX_I64 : list (list Z) :=
  [
    [61402; 17845; 26798; 59689; 12021; 40901; 41351; 27521; 56951; 12034; 53865; 43244; 7454; 33823; 28750; 1108];
    [1108; 61402; 17845; 26798; 59689; 12021; 40901; 41351; 27521; 56951; 12034; 53865; 43244; 7454; 33823; 28750];
    [28750; 1108; 61402; 17845; 26798; 59689; 12021; 40901; 41351; 27521; 56951; 12034; 53865; 43244; 7454; 33823];
    [33823; 28750; 1108; 61402; 17845; 26798; 59689; 12021; 40901; 41351; 27521; 56951; 12034; 53865; 43244; 7454];
    [7454; 33823; 28750; 1108; 61402; 17845; 26798; 59689; 12021; 40901; 41351; 27521; 56951; 12034; 53865; 43244];
    [43244; 7454; 33823; 28750; 1108; 61402; 17845; 26798; 59689; 12021; 40901; 41351; 27521; 56951; 12034; 53865];
    [53865; 43244; 7454; 33823; 28750; 1108; 61402; 17845; 26798; 59689; 12021; 40901; 41351; 27521; 56951; 12034];
    [12034; 53865; 43244; 7454; 33823; 28750; 1108; 61402; 17845; 26798; 59689; 12021; 40901; 41351; 27521; 56951];
    [56951; 12034; 53865; 43244; 7454; 33823; 28750; 1108; 61402; 17845; 26798; 59689; 12021; 40901; 41351; 27521];
    [27521; 56951; 12034; 53865; 43244; 7454; 33823; 28750; 1108; 61402; 17845; 26798; 59689; 12021; 40901; 41351];
    [41351; 27521; 56951; 12034; 53865; 43244; 7454; 33823; 28750; 1108; 61402; 17845; 26798; 59689; 12021; 40901];
    [40901; 41351; 27521; 56951; 12034; 53865; 43244; 7454; 33823; 28750; 1108; 61402; 17845; 26798; 59689; 12021];
    [12021; 40901; 41351; 27521; 56951; 12034; 53865; 43244; 7454; 33823; 28750; 1108; 61402; 17845; 26798; 59689];
    [59689; 12021; 40901; 41351; 27521; 56951; 12034; 53865; 43244; 7454; 33823; 28750; 1108; 61402; 17845; 26798];
    [26798; 59689; 12021; 40901; 41351; 27521; 56951; 12034; 53865; 43244; 7454; 33823; 28750; 1108; 61402; 17845];
    [17845; 26798; 59689; 12021; 40901; 41351; 27521; 56951; 12034; 53865; 43244; 7454; 33823; 28750; 1108; 61402] ].

(** [u64::to_le_bytes] and [u64::from_le_bytes] *)
Fixpoint to_le_bytes (n : nat) (x : Z) : list Z :=
  match n with
  | O => []
  | S n => (x mod 256) :: to_le_bytes n (x / 256)
  end.
Fixpoint from_le_bytes (bs : list Z) : Z :=
  match bs with
  | [] => 0
  | b :: bs => b + 256 * from_le_bytes bs
  end.

(** A table index is a byte, so it is in range. *)
Definition lookup_byte (b : Z) : Z := LOOKUP_TABLE !!! Z.to_nat b.

Definition split_and_lookup (x : Z) : Z := from_le_bytes (map lookup_byte (to_le_bytes 8 x)).

Definition sbox_layer (state : list Z) : list Z :=
  map split_and_lookup (take NUM_SPLIT_AND_LOOKUP state) ++
  map (fun x => bpow x 7) (drop NUM_SPLIT_AND_LOOKUP state).

(** One entry of the result: [for j in 0..16 { result[i] += m[i][j] * state[j] }]. *)
Fixpoint linear_row (row state : list Z) (acc : Z) : Z :=
  match row, state with
  | m :: row, x :: state => linear_row row state (badd acc (bmul m x))
  | _, _ => acc
  end.
Definition linear_layer (state : list Z) : list Z :=
  map (fun row => linear_row row state 0) MDS_MATRIX_I64.

Definition round_constant (i j : nat) : Z :=
  wrap64 ((ROUND_CONSTANTS !!! (i * STATE_SIZE + j)%nat * R) mod PRIME).

Definition tip5_round (i : nat) (sponge : list Z) : list Z :=
  let a := sbox_layer sponge in
  let b := linear_layer a in
  imap (fun j x => badd (round_constant i j) x) b.

Definition permute (sponge : list Z) : list Z :=
  foldl (fun s i => tip5_round i s) sponge (seq 0 NUM_ROUNDS).

(** * [tip5/hash.rs] *)

Definition tip5_calc_q_r (input_vec : list Belt) : nat * nat :=
  (length input_vec / RATE, length input_vec mod RATE)%nat.

Definition tip5_pad_vecbelt (input_vec : list Belt) (r : nat) : list Belt :=
  input_vec ++ [1] ++ replicate (RATE - r - 1) 0.

Definition tip5_montify_vecbelt (input_vec : list Belt) : list Belt := map montify input_vec.

Definition tip5_calc_digest (sponge : list Z) : list Z :=
  map mont_reduction (take DIGEST_LENGTH sponge).

Definition tip5_absorb_rate (sponge : list Z) (input : list Belt) : option (list Z) :=
  if (length input =? RATE)%nat then Some (permute (input ++ drop RATE sponge)) else None.

(** [split_at] panics on a slice shorter than [RATE]; the loop runs [q + 1] times. *)
Fixpoint tip5_absorb_input (input_vec : list Belt) (sponge : list Z) (q : nat) : option (list Z) :=
  if (length input_vec <? RATE)%nat then None
  else
    sponge ← tip5_absorb_rate sponge (take RATE input_vec);
    match q with
    | O => Some sponge
    | S q => tip5_absorb_input (drop RATE input_vec) sponge q
    end.

Definition create_init_sponge_variable : list Z := replicate STATE_SIZE 0.
Definition create_init_sponge_fixed : list Z := replicate 10 0 ++ replicate 6 4294967295.

Definition hash_varlen (input_vec : list Belt) : option (list Z) :=
  let sponge := create_init_sponge_variable in
  let '(q, r) := tip5_calc_q_r input_vec in
  let input_vec := tip5_pad_vecbelt input_vec r in
  let input_vec := tip5_montify_vecbelt input_vec in
  sponge ← tip5_absorb_input input_vec sponge q;
  Some (tip5_calc_digest sponge).

Definition hash_10 (input_vec : list Belt) : option (list Z) :=
  let '(q, r) := tip5_calc_q_r input_vec in
  if (q =? 1)%nat && (r =? 0)%nat then
    let input_vec := tip5_montify_vecbelt input_vec in
    sponge ← tip5_absorb_rate create_init_sponge_fixed input_vec;
    Some (tip5_calc_digest sponge)
  else None.

(** * Inverse tables, to show that the layers lose nothing *)

Definition LOOKUP_INVERSE : list Z :=
  [
    0; 248; 146; 63; 209; 108; 39; 1; 20; 118; 139; 155; 99; 193; 29; 240; 222; 88; 170; 75;
    225; 164; 94; 36; 152; 227; 2; 246; 51; 16; 117; 127; 19; 14; 175; 58; 153; 173; 50; 162;
    250; 247; 223; 221; 40; 10; 90; 217; 57; 60; 141; 231; 163; 232; 101; 79; 207; 97; 132; 120;
    142; 83; 68; 3; 182; 96; 210; 136; 86; 133; 244; 41; 66; 52; 131; 149; 202; 105; 238; 237;
    183; 47; 242; 71; 55; 6; 190; 22; 61; 185; 144; 168; 126; 42; 186; 54; 104; 49; 112; 25;
    76; 148; 81; 199; 171; 229; 27; 191; 166; 211; 21; 130; 78; 134; 160; 243; 43; 220; 181; 59;
    67; 140; 145; 98; 4; 218; 178; 224; 31; 77; 37; 251; 157; 110; 115; 188; 196; 74; 35; 212;
    12; 95; 121; 177; 125; 234; 44; 89; 64; 228; 26; 84; 56; 174; 107; 179; 230; 143; 206; 151;
    201; 69; 213; 129; 87; 111; 70; 194; 233; 65; 249; 200; 184; 13; 208; 72; 18; 17; 150; 53;
    106; 124; 203; 189; 214; 11; 122; 169; 119; 45; 159; 73; 252; 187; 172; 113; 135; 123; 158; 48;
    176; 154; 23; 92; 24; 114; 195; 198; 38; 165; 245; 215; 34; 32; 8; 5; 93; 205; 82; 102;
    197; 80; 241; 236; 128; 138; 239; 204; 9; 253; 28; 103; 219; 161; 91; 30; 180; 85; 167; 33;
    15; 226; 62; 156; 100; 116; 137; 235; 254; 216; 147; 46; 192; 109; 7; 255 ].

(** First row of the inverse of the circulant matrix modulo [PRIME]. *)
Definition MDS_INVERSE_ROW : list Z :=
  [
    15912549870313651656; 2023675406146731649; 17543090776822458088; 3825852867695828414;
    14847848069928210678; 13121474687711251347; 13211954570983385247; 10599296789410715599;
    17659977357900657937; 2307649269465227820; 12271798289280172751; 5043248029905115028;
    15816617833956622048; 6933430136313882537; 14775920307428630109; 3616330022892099367 ].

Definition rotate_right (l : list Z) (i : nat) : list Z :=
  drop (length l - i) l ++ take (length l - i) l.
Definition MDS_INVERSE : list (list Z) := map (rotate_right MDS_INVERSE_ROW) (seq 0 16).

(** * The lookup layer *)

Definition byte (b : Z) : Prop := 0 <= b < 256.

Lemma lookup_checked :
  forallb (fun b => let x := lookup_byte (Z.of_nat b) in
    (0 <=? x) && (x <? 256) && (LOOKUP_INVERSE !!! Z.to_nat x =? Z.of_nat b)) (seq 0 256) = true.
Proof. vm_compute. reflexivity. Qed.

Lemma lookup_byte_ok b :
  byte b -> byte (lookup_byte b) /\ LOOKUP_INVERSE !!! Z.to_nat (lookup_byte b) = b.
Proof.
  intros Hb. pose proof lookup_checked as Hall. rewrite forallb_forall in Hall.
  specialize (Hall (Z.to_nat b)). unfold byte in *. rewrite in_seq, Z2Nat.id in Hall by lia.
  rewrite !andb_true_iff in Hall. destruct Hall as [[H0 H1] H2]; [lia|]. lia.
Qed.

Lemma lookup_byte_inj b c : byte b -> byte c -> lookup_byte b = lookup_byte c -> b = c.
Proof.
  intros Hb Hc E. apply lookup_byte_ok in Hb as [_ <-], Hc as [_ <-]. by rewrite E.
Qed.
Lemma lookup_byte_0 : lookup_byte 0 = 0.
Proof. reflexivity. Qed.
Lemma lookup_byte_255 : lookup_byte 255 = 255.
Proof. reflexivity. Qed.

Lemma to_le_bytes_byte n x : Forall byte (to_le_bytes n x).
Proof.
  revert x. induction n as [|n IH]; intros x; constructor; [|done]. apply Z.mod_pos_bound. lia.
Qed.
Lemma length_to_le_bytes n x : length (to_le_bytes n x) = n.
Proof. revert x. induction n; intros; simpl; auto. Qed.
Lemma from_to_le_bytes n x : 0 <= x < 256 ^ Z.of_nat n -> from_le_bytes (to_le_bytes n x) = x.
Proof.
  revert x. induction n as [|n IH]; intros x Hx; [simpl in *; lia|]. simpl.
  rewrite Nat2Z.inj_succ, Z.pow_succ_r in Hx by lia. rewrite IH.
  - pose proof (Z.div_mod x 256). lia.
  - split; [apply Z.div_pos; lia|apply Z.div_lt_upper_bound; lia].
Qed.
Lemma from_le_bytes_range bs : Forall byte bs -> 0 <= from_le_bytes bs < 256 ^ Z.of_nat (length bs).
Proof.
  induction 1 as [|b bs Hb Hbs IH]; [simpl; lia|]. cbn [from_le_bytes length].
  rewrite Nat2Z.inj_succ, Z.pow_succ_r by lia. unfold byte in Hb. lia.
Qed.
Lemma from_le_bytes_inj bs cs :
  Forall byte bs -> Forall byte cs -> length bs = length cs ->
  from_le_bytes bs = from_le_bytes cs -> bs = cs.
Proof.
  intros Hbs. revert cs. induction Hbs as [|b bs Hb Hbs IH]; intros [|c cs] Hcs Hl E; try done.
  inversion_clear Hcs as [|?? Hc Hcs']. simpl in *. unfold byte in *.
  assert (b = c /\ from_le_bytes bs = from_le_bytes cs) as [-> E'] by lia.
  f_equal. apply IH; [done|lia|done].
Qed.
Lemma from_le_bytes_app bs cs :
  from_le_bytes (bs ++ cs) = from_le_bytes bs + 256 ^ Z.of_nat (length bs) * from_le_bytes cs.
Proof.
  induction bs as [|b bs IH]; [simpl; lia|]. cbn [app from_le_bytes length].
  rewrite IH, Nat2Z.inj_succ, Z.pow_succ_r by lia. ring.
Qed.

Lemma map_lookup_byte bs : Forall byte bs -> Forall byte (map lookup_byte bs).
Proof. induction 1; constructor; [by apply lookup_byte_ok|done]. Qed.
Lemma map_lookup_inj bs cs :
  Forall byte bs -> Forall byte cs -> map lookup_byte bs = map lookup_byte cs -> bs = cs.
Proof.
  intros Hbs. revert cs. induction Hbs as [|b bs Hb Hbs IH]; intros [|c cs] Hcs E; try done.
  inversion_clear Hcs as [|?? Hc Hcs']. injection E as E1 E2. f_equal; [by apply lookup_byte_inj|auto].
Qed.

Lemma split_and_lookup_u64 x : is_u64 (split_and_lookup x).
Proof.
  pose proof (from_le_bytes_range _ (map_lookup_byte _ (to_le_bytes_byte 8 x))) as Hr.
  rewrite length_map, length_to_le_bytes in Hr. exact Hr.
Qed.

Lemma split_and_lookup_inj x y :
  is_u64 x -> is_u64 y -> split_and_lookup x = split_and_lookup y -> x = y.
Proof.
  intros Hx Hy E. rewrite <- (from_to_le_bytes 8 x), <- (from_to_le_bytes 8 y) by done. f_equal.
  apply map_lookup_inj; [apply to_le_bytes_byte..|].
  apply from_le_bytes_inj; [apply map_lookup_byte, to_le_bytes_byte..| |exact E].
  by rewrite !length_map, !length_to_le_bytes.
Qed.

(** The halves of a word: 32 low and 32 high bits. *)
Lemma based_halves lo hi :
  0 <= lo < 2 ^ 32 -> 0 <= hi < 2 ^ 32 ->
  (based (lo + 2 ^ 32 * hi) <-> (hi = 2 ^ 32 - 1 -> lo = 0)).
Proof. intros Hlo Hhi. unfold based, PRIME. lia. Qed.

(** The table fixes 0 and 255, so a word of the field stays in the field. *)
Lemma split_and_lookup_based x : based x -> based (split_and_lookup x).
Proof.
  intros Hx. assert (Hu : is_u64 x) by (belt_nums; lia).
  unfold split_and_lookup. pose proof (from_to_le_bytes 8 x Hu) as Ex.
  pose proof (to_le_bytes_byte 8 x) as Hby. pose proof (length_to_le_bytes 8 x) as Hlen.
  rewrite <- (take_drop 4 (to_le_bytes 8 x)) in Ex |- *. rewrite map_app.
  set (lo := take 4 (to_le_bytes 8 x)) in *. set (hi := drop 4 (to_le_bytes 8 x)) in *.
  assert (Hlo : Forall byte lo) by (by apply Forall_take).
  assert (Hhi : Forall byte hi) by (by apply Forall_drop).
  assert (Llo : length lo = 4%nat) by (unfold lo; rewrite length_take; lia).
  assert (Lhi : length hi = 4%nat) by (unfold hi; rewrite length_drop; lia).
  rewrite from_le_bytes_app in Ex |- *. rewrite Llo in Ex. rewrite length_map, Llo.
  pose proof (from_le_bytes_range _ Hlo) as R1. pose proof (from_le_bytes_range _ Hhi) as R2.
  pose proof (from_le_bytes_range _ (map_lookup_byte _ Hlo)) as R3.
  pose proof (from_le_bytes_range _ (map_lookup_byte _ Hhi)) as R4.
  rewrite Llo in R1. rewrite Lhi in R2. rewrite length_map, Llo in R3. rewrite length_map, Lhi in R4.
  change (256 ^ Z.of_nat 4) with (2 ^ 32) in *. rewrite <- Ex in Hx.
  pose proof (proj1 (based_halves _ _ R1 R2) Hx) as Hz. apply based_halves; [done..|]. intros Eh.
  assert (Hhi255 : map lookup_byte hi = replicate 4 255).
  { apply from_le_bytes_inj; [by apply map_lookup_byte|by repeat constructor|by rewrite length_map|exact Eh]. }
  assert (hi = replicate 4 255) as Hh.
  { apply map_lookup_inj; [done|by repeat constructor|]. by rewrite Hhi255. }
  rewrite Hh in Hz. specialize (Hz eq_refl).
  assert (lo = replicate 4 0) as ->.
  { apply from_le_bytes_inj; [done|by repeat constructor|done|exact Hz]. }
  reflexivity.
Qed.

(** * The power map *)

(** The inverse of 7 modulo [PRIME - 1]. *)
Definition seventh_root : Z := 10540996611094048183.

Lemma bpow7_inj x y : based x -> based y -> bpow x 7 = bpow y 7 -> x = y.
Proof.
  intros Hx Hy E. assert (Hu : is_u64 7) by (width; lia).
  rewrite !bpow_mod in E by done. apply cong_iff in E.
  assert (Hroot : forall z, based z -> (z ^ 7) ^ seventh_root == z).
  { intros z Hz. rewrite <- Z.pow_mul_r by (unfold seventh_root; lia).
    destruct (decide (z = 0)) as [->|Hnz]; [reflexivity|].
    replace (7 * seventh_root) with (1 + (PRIME - 1) * (7 * seventh_root / (PRIME - 1)))
      by (vm_compute; reflexivity).
    rewrite Z.pow_add_r, Z.pow_mul_r, Z.pow_1_r by (vm_compute; congruence).
    assert (Hf : z ^ (PRIME - 1) == 1).
    { apply cong_iff. rewrite Z.fermat_nz; [done|apply PRIME_prime|].
      rewrite Z.mod_small by apply Hz. done. }
    rewrite Hf, Z.pow_1_l by (vm_compute; congruence). apply eq_cong; ring. }
  apply cong_based; [done..|]. rewrite <- (Hroot x Hx), <- (Hroot y Hy). by rewrite E.
Qed.

Lemma bpow7_based x : based x -> based (bpow x 7).
Proof. intros Hx. rewrite bpow_mod; [apply mod_based|done|width; lia]. Qed.

(** * Layers *)

Lemma Forall_map_based (f : Z -> Z) l :
  (forall x, based x -> based (f x)) -> based_poly l -> based_poly (map f l).
Proof. intros Hf. induction 1; constructor; auto. Qed.
Lemma map_based_inj (f : Z -> Z) l m :
  (forall x y, based x -> based y -> f x = f y -> x = y) ->
  based_poly l -> based_poly m -> map f l = map f m -> l = m.
Proof.
  intros Hf Hl. revert m. induction Hl as [|x l Hx Hl IH]; intros [|y m] Hm E; try done.
  inversion_clear Hm as [|?? Hy Hm']. injection E as E1 E2. f_equal; auto.
Qed.

Lemma sbox_layer_based s : based_poly s -> based_poly (sbox_layer s).
Proof.
  intros Hs. apply Forall_app_2; apply Forall_map_based;
    auto using split_and_lookup_based, bpow7_based, Forall_take, Forall_drop.
Qed.
Lemma length_sbox_layer s : length (sbox_layer s) = length s.
Proof. unfold sbox_layer. rewrite length_app, !length_map, length_take, length_drop. lia. Qed.
Lemma sbox_layer_inj s t :
  based_poly s -> based_poly t -> length s = length t -> sbox_layer s = sbox_layer t -> s = t.
Proof.
  intros Hs Ht Hl E. unfold sbox_layer in E. apply app_inj_1 in E as [E1 E2].
  2:{ rewrite !length_map, !length_take. lia. }
  rewrite <- (take_drop NUM_SPLIT_AND_LOOKUP s), <- (take_drop NUM_SPLIT_AND_LOOKUP t). f_equal.
  - apply (map_based_inj split_and_lookup); auto using Forall_take.
    intros x y Hx Hy. apply split_and_lookup_inj; belt_nums; lia.
  - apply (map_based_inj (fun x => bpow x 7)); auto using Forall_drop, bpow7_inj.
Qed.

(** * The linear layer *)

Fixpoint dot (l m : list Z) : Z :=
  match l, m with
  | x :: l, y :: m => x * y + dot l m
  | _, _ => 0
  end.

Lemma linear_row_spec row state acc :
  based_poly row -> based_poly state -> based acc ->
  based (linear_row row state acc) /\ linear_row row state acc == acc + dot row state.
Proof.
  intros Hr. revert state acc. induction Hr as [|m row Hm Hr IH]; intros [|x state] acc Hs Ha; simpl;
    try (split; [done|apply eq_cong; ring]).
  inversion_clear Hs as [|?? Hx Hs'].
  destruct (IH state (badd acc (bmul m x))) as [H1 H2]; [done|auto with nock|]. split; [done|].
  rewrite H2, badd_cong, bmul_cong by auto with nock. apply eq_cong. ring.
Qed.

Lemma MDS_based row : In row MDS_MATRIX_I64 -> based_poly row.
Proof.
  intros Hrow. apply based_polyb_ok.
  assert (Hall : forallb based_polyb MDS_MATRIX_I64 = true) by (vm_compute; reflexivity).
  rewrite forallb_forall in Hall. by apply Hall.
Qed.

Lemma linear_layer_based s : based_poly s -> based_poly (linear_layer s).
Proof.
  intros Hs. unfold linear_layer. apply List.Forall_map, List.Forall_forall. intros row Hrow.
  apply linear_row_spec; auto using MDS_based with nock.
Qed.

(** Scalar combinations of rows: the inverse matrix undoes the layer. *)
Fixpoint combine_rows (cs : list Z) (rows : list (list Z)) (n : nat) : list Z :=
  match cs, rows with
  | c :: cs, r :: rows => zip_with Z.add (map (Z.mul c) r) (combine_rows cs rows n)
  | _, _ => replicate n 0
  end.

Lemma dot_zeros n m : dot (replicate n 0) m = 0.
Proof. revert m. induction n; intros [|y m]; simpl; try done. rewrite IHn. lia. Qed.
Lemma dot_scale c l m : dot (map (Z.mul c) l) m = c * dot l m.
Proof. revert m. induction l as [|x l IH]; intros [|y m]; simpl; try lia. rewrite IH. ring. Qed.
Lemma dot_zip_add l l' m :
  length l = length l' -> dot (zip_with Z.add l l') m = dot l m + dot l' m.
Proof.
  revert l' m. induction l as [|x l IH]; intros [|x' l'] [|y m] Hl; simpl in *; try lia.
  rewrite IH by lia. ring.
Qed.
Lemma length_combine_rows cs rows n :
  Forall (fun r => length r = n) rows -> length (combine_rows cs rows n) = n.
Proof.
  intros Hr. revert cs. induction Hr as [|r rows Hl Hr IH]; intros [|c cs]; simpl;
    rewrite ?length_replicate, ?length_zip_with, ?length_map, ?IH; lia.
Qed.

Lemma dot_combine cs rows n s :
  Forall (fun r => length r = n) rows ->
  dot cs (map (fun r => dot r s) rows) = dot (combine_rows cs rows n) s.
Proof.
  intros Hr. revert cs. induction Hr as [|r rows Hl Hr IH]; intros [|c cs]; simpl;
    rewrite ?dot_zeros; try done.
  rewrite dot_zip_add by (rewrite length_map, length_combine_rows by done; lia).
  rewrite dot_scale, IH. done.
Qed.

Lemma dot_cong l l' m m' :
  Forall2 cong l l' -> Forall2 cong m m' -> dot l m == dot l' m'.
Proof.
  intros Hl. revert m m'. induction Hl as [|x x' l l' Hx Hl IH]; intros m m' Hm; [done|].
  destruct Hm as [|y y' m m' Hy Hm]; [done|]. simpl. by rewrite Hx, Hy, (IH _ _ Hm).
Qed.

Definition unit_vector (n i : nat) : list Z := map (fun j => Z.b2z (j =? i)%nat) (seq 0 n).

(** Each row of the inverse picks one entry out of the layer's output. *)
Definition congb (a b : Z) : bool := a mod PRIME =? b mod PRIME.
Lemma inverse_checked :
  forallb (fun i => forallb (fun '(a, b) => congb a b)
      (zip (combine_rows (MDS_INVERSE !!! i) MDS_MATRIX_I64 16) (unit_vector 16 i)))
    (seq 0 16) = true.
Proof. vm_compute. reflexivity. Qed.

Lemma congb_Forall2 l l' :
  length l = length l' -> forallb (fun '(a, b) => congb a b) (zip l l') = true -> Forall2 cong l l'.
Proof.
  revert l'. induction l as [|x l IH]; intros [|x' l'] Hl E; try done; simpl in *.
  apply andb_true_iff in E as [E1 E2]. constructor; [by apply cong_iff, Z.eqb_eq|]. apply IH; [lia|done].
Qed.

Lemma MDS_rows : Forall (fun r => length r = 16%nat) MDS_MATRIX_I64.
Proof. repeat constructor. Qed.

Lemma inverse_row i : (i < 16)%nat ->
  Forall2 cong (combine_rows (MDS_INVERSE !!! i) MDS_MATRIX_I64 16) (unit_vector 16 i).
Proof.
  intros Hi. apply congb_Forall2.
  - rewrite length_combine_rows by apply MDS_rows. unfold unit_vector. by rewrite length_map, length_seq.
  - pose proof inverse_checked as Hall. rewrite forallb_forall in Hall. apply Hall, in_seq. lia.
Qed.

Lemma dot_unit n i s : (i < n)%nat -> length s = n -> dot (unit_vector n i) s = coef s i.
Proof.
  unfold unit_vector. intros Hi Hl. assert (Hgen : forall k s, length s = (n - k)%nat ->
    ((k <= i)%nat -> dot (map (fun j => Z.b2z (j =? i)%nat) (seq k (n - k))) s = coef s (i - k)) /\
    ((i < k)%nat -> dot (map (fun j => Z.b2z (j =? i)%nat) (seq k (n - k))) s = 0)).
  { intros k t. remember (n - k)%nat as d eqn:Ed. revert k t Ed.
    induction d as [|d IH]; intros k [|x t] Ed Ht; try done.
    - split; [lia|done].
    - destruct (IH (S k) t) as [IH1 IH2]; [lia|by injection Ht|]. simpl.
      destruct (Nat.eqb_spec k i) as [->|Hne]; simpl Z.b2z.
      + split; [|lia]. intros _. rewrite IH2 by lia. rewrite Nat.sub_diag, coef_cons_0. lia.
      + split; intros H1.
        * rewrite IH1 by lia. replace (i - k)%nat with (S (i - S k)) by lia. rewrite coef_cons_S. lia.
        * rewrite IH2 by lia. lia. }
  destruct (Hgen 0%nat s) as [H1 _]; [lia|]. rewrite !Nat.sub_0_r in H1. apply H1. lia.
Qed.

Definition field_state (s : list Z) : Prop := based_poly s /\ length s = STATE_SIZE.

Lemma linear_layer_dots s :
  based_poly s -> Forall2 cong (linear_layer s) (map (fun r => dot r s) MDS_MATRIX_I64).
Proof.
  intros Hs. unfold linear_layer.
  assert (Hrows : forall r, In r MDS_MATRIX_I64 -> based_poly r) by apply MDS_based.
  induction MDS_MATRIX_I64 as [|r rows IH]; simpl; constructor.
  - destruct (linear_row_spec r s 0) as [_ ->]; [apply Hrows; by left|done|auto with nock|].
    apply eq_cong; ring.
  - apply IH. intros r' Hr'. apply Hrows. by right.
Qed.

Lemma linear_layer_undo s i :
  field_state s -> (i < 16)%nat -> dot (MDS_INVERSE !!! i) (linear_layer s) == coef s i.
Proof.
  intros [Hs Hl] Hi. rewrite <- (dot_unit 16 i s) by done.
  rewrite <- (dot_cong _ _ s s (inverse_row i Hi)) by reflexivity.
  rewrite <- (dot_combine (MDS_INVERSE !!! i) MDS_MATRIX_I64 16 s MDS_rows).
  apply dot_cong; [reflexivity|by apply linear_layer_dots].
Qed.

Lemma linear_layer_inj s t :
  field_state s -> field_state t -> linear_layer s = linear_layer t -> s = t.
Proof.
  intros Hs Ht E. apply based_peq; [apply Hs|apply Ht|by rewrite (proj2 Hs), (proj2 Ht)|].
  intros i. destruct (decide (i < 16)%nat) as [Hi|Hi].
  - zfold. rewrite <- (linear_layer_undo s i Hs Hi), E. by apply linear_layer_undo.
  - rewrite !coef_beyond; [done|rewrite (proj2 Ht)|rewrite (proj2 Hs)]; unfold STATE_SIZE; lia.
Qed.

(** * Rounds *)

Lemma round_constant_based i j : based (round_constant i j).
Proof.
  unfold round_constant. rewrite wrap64_small; [apply mod_based|].
  pose proof (mod_based (ROUND_CONSTANTS !!! (i * STATE_SIZE + j)%nat * R)). belt_nums. lia.
Qed.

Lemma badd_inj c x y : based c -> based x -> based y -> badd c x = badd c y -> x = y.
Proof.
  intros Hc Hx Hy E. apply cong_based; [done..|].
  assert (H1 : c + x == c + y) by (rewrite <- !badd_cong by done; by rewrite E).
  replace x with (c + x - c) by lia. replace y with (c + y - c) by lia. by rewrite H1.
Qed.

Lemma imap_badd_based (f : nat -> Z) l :
  (forall j, based (f j)) -> based_poly l -> based_poly (imap (fun j x => badd (f j) x) l).
Proof.
  intros Hf Hl. apply Forall_lookup. intros i x. rewrite list_lookup_imap.
  destruct (l !! i) as [y|] eqn:E; simpl; [|done]. intros [= <-].
  apply badd_based; [done|]. by eapply based_lookup.
Qed.
Lemma imap_badd_inj (f : nat -> Z) l m :
  (forall j, based (f j)) -> based_poly l -> based_poly m ->
  imap (fun j x => badd (f j) x) l = imap (fun j x => badd (f j) x) m -> l = m.
Proof.
  intros Hf Hl Hm E. apply list_eq. intros i.
  assert (Ei : imap (fun j x => badd (f j) x) l !! i = imap (fun j x => badd (f j) x) m !! i) by (by rewrite E).
  rewrite !list_lookup_imap in Ei.
  destruct (l !! i) as [x|] eqn:Ex, (m !! i) as [y|] eqn:Ey; simplify_eq/=; [|done].
  f_equal. eapply badd_inj; eauto; [exact (based_lookup _ _ _ Hl Ex)|exact (based_lookup _ _ _ Hm Ey)].
Qed.

Lemma sbox_field s : field_state s -> field_state (sbox_layer s).
Proof. intros [Hs Hl]. split; [by apply sbox_layer_based|by rewrite length_sbox_layer]. Qed.
Lemma linear_field s : field_state s -> field_state (linear_layer s).
Proof. intros [Hs Hl]. split; [by apply linear_layer_based|reflexivity]. Qed.

Lemma tip5_round_field i s : field_state s -> field_state (tip5_round i s).
Proof.
  intros Hs. destruct (linear_field _ (sbox_field s Hs)) as [H1 H2]. split.
  - by apply imap_badd_based; [apply round_constant_based|].
  - unfold tip5_round. by rewrite length_imap.
Qed.
Lemma tip5_round_inj i s t :
  field_state s -> field_state t -> tip5_round i s = tip5_round i t -> s = t.
Proof.
  intros Hs Ht E. apply sbox_layer_inj; [apply Hs|apply Ht|by rewrite (proj2 Hs), (proj2 Ht)|].
  apply linear_layer_inj; [by apply sbox_field..|].
  apply (imap_badd_inj (round_constant i)); [apply round_constant_based|apply linear_field, sbox_field, Hs
    |apply linear_field, sbox_field, Ht|exact E].
Qed.

Lemma rounds_field rs s : field_state s -> field_state (foldl (fun s i => tip5_round i s) s rs).
Proof. revert s. induction rs as [|i rs IH]; intros s Hs; simpl; [done|]. by apply IH, tip5_round_field. Qed.
Lemma rounds_inj rs s t :
  field_state s -> field_state t ->
  foldl (fun s i => tip5_round i s) s rs = foldl (fun s i => tip5_round i s) t rs -> s = t.
Proof.
  revert s t. induction rs as [|i rs IH]; intros s t Hs Ht E; simpl in E; [done|].
  apply (tip5_round_inj i); [done..|]. apply IH; auto using tip5_round_field.
Qed.

Lemma permute_field s : field_state s -> field_state (permute s).
Proof. apply rounds_field. Qed.
Lemma permute_inj s t : field_state s -> field_state t -> permute s = permute t -> s = t.
Proof. apply rounds_inj. Qed.

(** * Padding and absorption *)

Lemma mont_reduction_word_based x : is_u64 x -> based (mont_reduction x).
Proof. intros Hx. apply mont_reduction_spec. unfold is_u64, U64, RP in *. lia. Qed.

Lemma montify_inj a b : based a -> based b -> montify a = montify b -> a = b.
Proof.
  intros Ha Hb E. destruct (montify_form a Ha) as [_ H1], (montify_form b Hb) as [_ H2].
  apply cong_based; [done..|]. apply radix_cancel. by rewrite <- H1, <- H2, E.
Qed.

Definition padded (l : list Z) : list Z := tip5_pad_vecbelt l (snd (tip5_calc_q_r l)).

Lemma length_padded l : length (padded l) = (RATE * S (fst (tip5_calc_q_r l)))%nat.
Proof.
  unfold padded, tip5_pad_vecbelt, tip5_calc_q_r, RATE. cbn [fst snd].
  rewrite !length_app, length_replicate. simpl (length [1]).
  pose proof (Nat.div_mod_eq (length l) 10). pose proof (Nat.mod_upper_bound (length l) 10). lia.
Qed.

Lemma padded_based l : based_poly l -> based_poly (padded l).
Proof.
  intros Hl. apply Forall_app_2; [done|]. constructor; [apply based_1|apply based_zeros].
Qed.

(** The first one before the zeros marks the end of the message. *)
Lemma zeros_one_inj n m l l' :
  replicate n 0 ++ 1 :: l = replicate m 0 ++ 1 :: l' -> l = l'.
Proof.
  revert m. induction n as [|n IH]; intros [|m] E; simpl in E; try done; [by injection E|].
  injection E as E. by apply (IH m).
Qed.
Lemma padded_inj l l' : padded l = padded l' -> l = l'.
Proof.
  unfold padded, tip5_pad_vecbelt. intros E. apply (f_equal (@rev Z)) in E.
  rewrite !rev_app_distr in E. simpl in E. rewrite <- !app_assoc in E. simpl in E.
  assert (Hrep : forall n, rev (replicate n 0) = replicate n 0).
  { intros n. rewrite rev_alt. apply reverse_replicate. }
  rewrite !Hrep in E. apply zeros_one_inj in E. apply (f_equal (@rev Z)) in E.
  by rewrite !rev_involutive in E.
Qed.

Lemma absorb_input_ok q input sponge :
  based_poly input -> field_state sponge -> length input = (RATE * S q)%nat ->
  exists s, tip5_absorb_input input sponge q = Some s /\ field_state s.
Proof.
  revert input sponge. induction q as [|q IH]; intros input sponge Hi Hs Hl.
  all: cbn [tip5_absorb_input]; destruct (Nat.ltb_spec (length input) RATE) as [Hlt|_];
    [unfold RATE in *; lia|].
  all: unfold tip5_absorb_rate; rewrite length_take_le by (unfold RATE in *; lia);
    rewrite Nat.eqb_refl; cbn [mbind option_bind].
  all: assert (Hst : field_state (permute (take RATE input ++ drop RATE sponge)));
    [apply permute_field; split;
      [apply Forall_app_2; [by apply Forall_take|apply Forall_drop, Hs]
      |rewrite length_app, length_take, length_drop, (proj2 Hs); unfold RATE, STATE_SIZE in *; lia]|].
  - eexists. split; [done|exact Hst].
  - apply IH; [by apply Forall_drop|exact Hst|]. rewrite length_drop. unfold RATE in *. lia.
Qed.

Lemma digest_ok s :
  field_state s -> length (tip5_calc_digest s) = 5%nat /\ based_poly (tip5_calc_digest s).
Proof.
  intros [Hs Hl]. unfold tip5_calc_digest, DIGEST_LENGTH. split.
  - rewrite length_map, length_take, Hl. reflexivity.
  - apply Forall_map_based; [|by apply Forall_take]. intros x Hx. apply mont_reduction_word_based.
    belt_nums. lia.
Qed.

Lemma montify_vec_based l : based_poly l -> based_poly (tip5_montify_vecbelt l).
Proof. apply Forall_map_based. intros x Hx. by apply montify_form. Qed.

Lemma hash_varlen_ok l :
  based_poly l -> exists d, hash_varlen l = Some d /\ length d = 5%nat /\ based_poly d.
Proof.
  intros Hl. unfold hash_varlen. destruct (tip5_calc_q_r l) as [q r] eqn:E.
  assert (Ep : tip5_pad_vecbelt l r = padded l) by (unfold padded; by rewrite E). rewrite Ep.
  destruct (absorb_input_ok q (tip5_montify_vecbelt (padded l)) create_init_sponge_variable)
    as (s & -> & Hs).
  - by apply montify_vec_based, padded_based.
  - split; [apply based_zeros|reflexivity].
  - unfold tip5_montify_vecbelt. by rewrite length_map, length_padded, E.
  - eexists. split; [done|]. by apply digest_ok.
Qed.

(** * Known answers, from the tests of the jets *)

Example hash_varlen_empty : hash_varlen [] = Some
  [11048995573592393898; 6655187932135147625; 8573492257662932655;
   4379820112787053727; 3881663824627898703].
Proof. vm_compute. reflexivity. Qed.
Example hash_varlen_5_26 : hash_varlen [5; 26] = Some
  [4045697570544439560; 13674194094340317530; 13743008867885290460;
   6020910684025273897; 3362765570390427021].
Proof. vm_compute. reflexivity. Qed.

(** * Claims *)

(** C23: The Tip5 permutation is a permutation of the field states: it maps sixteen
    field elements to sixteen field elements, and different states to different
    states (the lookup table and the seventh power are injective and the matrix is
    invertible modulo [PRIME]). *)
Theorem permute_permutation s t :
  field_state s -> field_state t ->
  field_state (permute s) /\ (permute s = permute t -> s = t).
Proof. intros Hs Ht. split; [by apply permute_field|by apply permute_inj]. Qed.

Lemma permute_permutation_witness :
  field_state create_init_sponge_fixed /\ field_state (permute create_init_sponge_fixed).
Proof.
  assert (H1 : field_state create_init_sponge_fixed).
  { split; [apply based_polyb_ok; reflexivity|reflexivity]. }
  split; [exact H1|]. apply (permute_permutation _ _ H1 H1).
Defined.

(** [hash_varlen] accepts every list of field elements: the padding always
    yields the [q + 1] full blocks that the absorption loop takes, different inputs
    are absorbed as different block sequences, and the digest is five field
    elements. *)
Theorem hash_varlen_total l l' :
  based_poly l -> based_poly l' ->
  (exists d, hash_varlen l = Some d /\ length d = 5%nat /\ based_poly d) /\
  (length (padded l) = RATE * S (fst (tip5_calc_q_r l)))%nat /\
  (tip5_montify_vecbelt (padded l) = tip5_montify_vecbelt (padded l') -> l = l').
Proof.
  intros Hl Hl'. split; [by apply hash_varlen_ok|]. split; [apply length_padded|]. intros E.
  apply padded_inj. apply (map_based_inj montify); auto using montify_inj, padded_based.
Qed.

Lemma hash_varlen_total_witness :
  based_poly [1; 2; 3] /\ exists d, hash_varlen [1; 2; 3] = Some d /\ based_poly d.
Proof.
  assert (H1 : based_poly [1; 2; 3]) by (apply based_polyb_ok; reflexivity).
  destruct (hash_varlen_total _ _ H1 H1) as ((d & H2 & _ & H3) & _).
  split; [exact H1|]. exists d. split; [exact H2|exact H3].
Defined.

(** [hash_10] panics exactly on inputs that are not ten elements long, and
    otherwise returns five field elements. *)
Theorem hash_10_length l :
  based_poly l ->
  (length l = 10%nat -> exists d, hash_10 l = Some d /\ length d = 5%nat /\ based_poly d) /\
  (length l <> 10%nat -> hash_10 l = None).
Proof.
  intros Hl. unfold hash_10, tip5_calc_q_r, RATE. split; intros Hlen.
  - rewrite Hlen. cbn [Nat.eqb andb]. change (10 / 10)%nat with 1%nat. change (10 mod 10)%nat with 0%nat.
    cbn [Nat.eqb andb]. unfold tip5_absorb_rate, tip5_montify_vecbelt. rewrite length_map, Hlen.
    cbn [Nat.eqb RATE mbind option_bind]. eexists. split; [done|]. apply digest_ok, permute_field. split.
    + apply Forall_app_2; [by apply montify_vec_based|]. apply Forall_drop.
      apply based_polyb_ok; reflexivity.
    + rewrite length_app, length_map, Hlen. reflexivity.
  - pose proof (Nat.div_mod_eq (length l) 10). pose proof (Nat.mod_upper_bound (length l) 10).
    destruct (Nat.eqb_spec (length l / 10) 1), (Nat.eqb_spec (length l mod 10) 0); simpl; (done || lia).
Qed.

Lemma hash_10_length_witness :
  based_poly [1; 2] /\ hash_10 [1; 2] = None.
Proof.
  assert (H1 : based_poly [1; 2]) by (apply based_polyb_ok; reflexivity).
  split; [exact H1|]. apply (hash_10_length _ H1). simpl. lia.
Defined.
