(* ===== verification/NounHash.v ===== *)
(** Hashing nouns: [crates/nockchain-math/src/shape.rs] (leaf sequence and Dyck
    word), the list and array encodings of [crates/noun-serde/src/lib.rs] that it
    uses, and [hash_noun_varlen] and [hash_belts_list] of [tip5/hash.rs].

    The theorem of the file is that the list of belts that is hashed determines the
    noun, so a collision of the noun hash is a collision of [hash_varlen]. *)
From stdpp Require Import base option list numbers strings.
From Stdlib Require Import ZArith Lia.
From S2P Require Import Prelude Noun Interp Belt Vec Poly BPoly Tip5.

(** [From<noun::Error> for JetErr] and [From<NounDecodeError> for JetErr] *)
Definition noun_jet_err (_ : error) : JetErr := JetFail BAIL_EXIT.
Definition decode_jet_err (_ : NounDecodeError) : JetErr := JetFail BAIL_FAIL.

(** * Shape *)

Fixpoint dyck_recursive (t : noun) (vec : noun) : noun :=
  match t with
  | NAtom _ => vec
  | NCell head tail =>
      let vec_inner := T [D 0; vec] in
      let dyck_inner := dyck_recursive head vec_inner in
      let vec_outer := T [D 1; dyck_inner] in
      dyck_recursive tail vec_outer
  end.

Definition dyck (t : noun) : outcome JetErr noun :=
  map_err noun_jet_err (flop (dyck_recursive t (D 0))).

Fixpoint do_leaf_sequence (n : noun) (vec : list Z) : outcome JetErr (list Z) :=
  match n with
  | NAtom a => x ← map_err noun_jet_err (as_u64 a); Ok (vec ++ [x])
  | NCell head tail => vec ← do_leaf_sequence head vec; do_leaf_sequence tail vec
  end.

(** [Vec<T>::to_noun] *)
Fixpoint Vec_to_noun {A} (to_noun : A -> noun) (l : list A) : noun :=
  match l with
  | [] => D 0
  | x :: l => T [to_noun x; Vec_to_noun to_noun l]
  end.

Definition u64_to_noun (x : Z) : noun := NAtom (Atom_new x).

Definition leaf_sequence (t : noun) : outcome JetErr noun :=
  leaf ← do_leaf_sequence t []; Ok (Vec_to_noun u64_to_noun leaf).

(** [Vec<T>::from_noun]: a list that does not end in zero panics. *)
Fixpoint Vec_from_noun {A} (from_noun : noun -> outcome NounDecodeError A) (n : noun) :
    outcome NounDecodeError (list A) :=
  match n with
  | NCell h t => item ← from_noun h; rest ← Vec_from_noun from_noun t; Ok (item :: rest)
  | NAtom a => match as_u64 a with Ok 0 => Ok [] | _ => Panic end
  end.

(** [[u64; N]::to_noun] and [[u64; N]::from_noun]: a right-nested tuple. *)
Fixpoint array_to_noun (l : list Z) : noun :=
  match l with
  | [] => D 0
  | [x] => u64_to_noun x
  | x :: l => T [u64_to_noun x; array_to_noun l]
  end.

Definition u64_from_noun (n : noun) : outcome NounDecodeError Z :=
  match n with
  | NAtom a => map_err (fun _ => Custom "Atom too large for u64") (as_u64 a)
  | NCell _ _ => Err ExpectedAtom
  end.

Fixpoint array_from_noun (n : nat) (t : noun) : outcome NounDecodeError (list Z) :=
  match n with
  | O => Ok []
  | S O => x ← u64_from_noun t; Ok [x]
  | S n => match t with
           | NAtom _ => Err ExpectedCell
           | NCell h t => x ← u64_from_noun h; rest ← array_from_noun n t; Ok (x :: rest)
           end
  end.

(** [jets::list::util::lent] *)
Fixpoint lent (list : noun) (len : Z) : outcome JetErr Z :=
  match list with
  | NAtom a => match first_one (as_bitslice a) with None => Ok len | Some _ => Err (JetFail BAIL_EXIT) end
  | NCell _ t => lent t (len + 1)
  end.

(** * Hashes of nouns *)

Definition hash_belts_list (input : noun) : outcome JetErr noun :=
  input_vec ← map_err decode_jet_err (Vec_from_noun Belt_from_noun input);
  match hash_varlen input_vec with
  | Some digest => Ok (array_to_noun digest)
  | None => Panic
  end.

Definition hash_noun_varlen (n : noun) : outcome JetErr noun :=
  leaf ← leaf_sequence n;
  dyck ← dyck n;
  size ← lent leaf 0;
  weld ← map_err noun_jet_err (weld leaf dyck);
  hash_belts_list (T [D size; weld]).

Definition hash_noun_varlen_digest (n : noun) : outcome JetErr (list Z) :=
  noun_res ← hash_noun_varlen n;
  map_err decode_jet_err (array_from_noun 5 noun_res).

(** * The list of belts that is hashed *)

Fixpoint leaves (n : noun) : list atom :=
  match n with
  | NAtom a => [a]
  | NCell h t => leaves h ++ leaves t
  end.
Fixpoint dyck_word (n : noun) : list Z :=
  match n with
  | NAtom _ => []
  | NCell h t => 0 :: dyck_word h ++ 1 :: dyck_word t
  end.
Definition noun_belts (n : noun) : list Z :=
  let ls := map atom_val (leaves n) in Z.of_nat (length ls) :: ls ++ dyck_word n.

(** * Lists *)

Definition nlist (l : list noun) : noun := Vec_to_noun id l.

Lemma Vec_to_noun_nlist {A} (f : A -> noun) l : Vec_to_noun f l = nlist (map f l).
Proof. induction l as [|x l IH]; simpl; [done|]. by rewrite IH. Qed.

Lemma flop_loop_nlist l acc : flop_loop (nlist l) (nlist acc) = Ok (nlist (rev l ++ acc)).
Proof.
  revert acc. induction l as [|x l IH]; intros acc; [done|].
  change (flop_loop (nlist l) (nlist (x :: acc)) = Ok (nlist (rev (x :: l) ++ acc))).
  rewrite IH. simpl rev. by rewrite <- app_assoc.
Qed.
Lemma flop_nlist l : flop (nlist l) = Ok (nlist (rev l)).
Proof. unfold flop. change (D 0) with (nlist []). by rewrite flop_loop_nlist, app_nil_r. Qed.
Lemma weld_nlist a b : weld (nlist a) (nlist b) = Ok (nlist (a ++ b)).
Proof.
  unfold weld. change (D 0) with (nlist []). rewrite flop_loop_nlist. cbn [mbind outcome_bind].
  rewrite flop_loop_nlist. cbn [mbind outcome_bind].
  by rewrite app_nil_r, flop_nlist, rev_app_distr, !rev_involutive.
Qed.
Lemma lent_nlist l k : lent (nlist l) k = Ok (k + Z.of_nat (length l)).
Proof.
  revert k. induction l as [|x l IH]; intros k; simpl; [f_equal; lia|].
  change (lent (nlist l) (k + 1) = Ok (k + Z.of_nat (S (length l)))). rewrite IH. f_equal. lia.
Qed.

Lemma dyck_recursive_nlist t acc :
  dyck_recursive t (nlist acc) = nlist (map D (rev (dyck_word t)) ++ acc).
Proof.
  revert acc. induction t as [a|h IHh s IHt]; intros acc; [done|].
  cbn [dyck_recursive dyck_word].
  change (T [D 0; nlist acc]) with (nlist (D 0 :: acc)). rewrite IHh.
  change (T [D 1; nlist ?l]) with (nlist (D 1 :: l)). rewrite IHt. f_equal.
  simpl rev. rewrite rev_app_distr. simpl rev. rewrite !map_app, <- !app_assoc. done.
Qed.
Lemma dyck_spec t : dyck t = Ok (nlist (map D (dyck_word t))).
Proof.
  unfold dyck. change (D 0) with (nlist []). rewrite dyck_recursive_nlist, app_nil_r, flop_nlist.
  simpl. by rewrite <- map_rev, rev_involutive.
Qed.

Lemma do_leaf_sequence_spec n vec :
  Forall (fun a => as_u64 a = Ok (atom_val a)) (leaves n) ->
  do_leaf_sequence n vec = Ok (vec ++ map atom_val (leaves n)).
Proof.
  revert vec. induction n as [a|h IHh t IHt]; intros vec Hl; simpl.
  - inversion_clear Hl as [|?? Ha _]. rewrite Ha. done.
  - simpl in Hl. apply Forall_app in Hl as [Hh Ht]. rewrite IHh by done. cbn [mbind outcome_bind].
    rewrite IHt by done. by rewrite map_app, app_assoc.
Qed.
Lemma do_leaf_sequence_cases n vec :
  match do_leaf_sequence n vec with
  | Ok _ => Forall (fun a => is_Some (ok_of (as_u64 a))) (leaves n)
  | Err e => e = JetFail BAIL_EXIT
  | Panic => False
  end.
Proof.
  revert vec. induction n as [a|h IHh t IHt]; intros vec; simpl.
  - destruct a as [d|ws]; simpl; [by repeat constructor|].
    destruct (length ws =? 1)%nat eqn:E; simpl; [|done]. repeat constructor. simpl. by rewrite E.
  - specialize (IHh vec). destruct (do_leaf_sequence h vec) as [v|e|]; simpl; [|done..].
    specialize (IHt v). destruct (do_leaf_sequence t v); [|done..]. by apply Forall_app.
Qed.

Lemma Vec_from_nlist bs :
  based_poly bs -> Vec_from_noun Belt_from_noun (nlist (map Belt_to_noun bs)) = Ok bs.
Proof.
  induction 1 as [|b bs Hb Hbs IH]; [done|].
  change (Vec_from_noun Belt_from_noun (NCell (Belt_to_noun b) (nlist (map Belt_to_noun bs))) = Ok (b :: bs)).
  cbn [Vec_from_noun]. rewrite belt_noun_roundtrip by done. cbn [mbind outcome_bind]. by rewrite IH.
Qed.

(** * What is hashed *)

(** Atoms that are field elements, in a tree whose leaves can be counted. *)
Record hashable (n : noun) : Prop := {
  hb_wf : wf_noun n;
  hb_leaves : Forall (fun a => atom_val a < PRIME) (leaves n);
  hb_size : Z.of_nat (length (leaves n)) <= DIRECT_MAX;
}.

Lemma wf_leaves n : wf_noun n -> Forall wf_atom (leaves n).
Proof. induction n; simpl; intros; [by constructor|]. apply Forall_app; naive_solver. Qed.

Lemma as_u64_val a : wf_atom a -> atom_val a < U64 -> as_u64 a = Ok (atom_val a).
Proof.
  intros Hwf Hlt. pose proof (wf_atom_val a Hwf). destruct (wf_Atom_new (atom_val a)) as [Hw Hv]; [done|].
  rewrite (atom_val_inj a (Atom_new (atom_val a))) at 1 by done.
  unfold Atom_new. by destruct (atom_val a <=? DIRECT_MAX).
Qed.

Lemma dyck_word_bits n : Forall (fun b => b = 0 \/ b = 1) (dyck_word n).
Proof.
  induction n as [a|h IHh t IHt]; simpl; [constructor|]. constructor; [by left|].
  apply Forall_app. split; [done|]. constructor; [by right|done].
Qed.

Lemma noun_belts_based n : hashable n -> based_poly (noun_belts n).
Proof.
  intros [Hwf Hl Hs]. constructor.
  - rewrite length_map. rewrite DIRECT_MAX_val in Hs. unfold based, PRIME. lia.
  - apply Forall_app. split.
    + apply wf_leaves in Hwf. apply List.Forall_map. induction (leaves n); constructor.
      * inversion_clear Hwf. inversion_clear Hl. split; [by apply wf_atom_val|done].
      * inversion_clear Hwf. inversion_clear Hl. apply IHl; [done|done|]. simpl in Hs. lia.
    + eapply Forall_impl; [apply dyck_word_bits|]. intros x [->| ->]; auto with nock.
Qed.

(** The pipeline hands [noun_belts] to the list decoder. *)
Lemma hash_noun_varlen_input n :
  wf_noun n -> Forall (fun a => atom_val a < U64) (leaves n) ->
  Z.of_nat (length (leaves n)) <= DIRECT_MAX ->
  hash_noun_varlen n = hash_belts_list (nlist (map Belt_to_noun (noun_belts n))).
Proof.
  intros Hwf Hl Hs. unfold hash_noun_varlen, leaf_sequence.
  assert (Hu : Forall (fun a => as_u64 a = Ok (atom_val a)) (leaves n)).
  { apply wf_leaves in Hwf. rewrite List.Forall_forall in *. intros a Ha. apply as_u64_val; auto. }
  rewrite do_leaf_sequence_spec by done. cbn [mbind outcome_bind app].
  rewrite Vec_to_noun_nlist, dyck_spec. cbn [mbind outcome_bind].
  rewrite lent_nlist. cbn [mbind outcome_bind]. rewrite weld_nlist. cbn [map_err mbind outcome_bind].
  f_equal. unfold noun_belts. rewrite !length_map, Z.add_0_l. cbn [map].
  change (nlist (?x :: ?l)) with (T [x; nlist l]). f_equal. f_equal.
  - unfold Belt_to_noun, Atom_new, D. destruct (Z.leb_spec (Z.of_nat (length (leaves n))) DIRECT_MAX); [done|lia].
  - f_equal. f_equal. rewrite map_app. f_equal. apply map_ext_Forall.
    eapply Forall_impl; [apply dyck_word_bits|]. by intros x [->| ->].
Qed.

Lemma hash_noun_varlen_spec n :
  hashable n ->
  exists d, hash_varlen (noun_belts n) = Some d /\ hash_noun_varlen n = Ok (array_to_noun d).
Proof.
  intros Hn. destruct (hash_varlen_ok _ (noun_belts_based n Hn)) as (d & Hd & _). exists d.
  split; [done|]. rewrite hash_noun_varlen_input; [|apply Hn| |apply Hn].
  - unfold hash_belts_list. rewrite Vec_from_nlist by (by apply noun_belts_based).
    cbn [map_err mbind outcome_bind]. by rewrite Hd.
  - eapply Forall_impl; [apply (hb_leaves n Hn)|]. simpl. intros a Ha. unfold U64, PRIME in *. lia.
Qed.

(** * Errors *)

Lemma as_u64_big a : wf_atom a -> U64 <= atom_val a -> ok_of (as_u64 a) = None.
Proof.
  intros Hwf Hbig. destruct (as_u64 a) as [v| |] eqn:E; [|done..].
  destruct (as_u64_Ok a v Hwf E) as [Hv ->]. destruct (wf_Atom_new v Hv) as [_ Hval].
  rewrite Hval in Hbig. width. lia.
Qed.

Lemma Vec_from_not_based vs :
  Forall is_u64 vs -> ~ based_poly vs ->
  Vec_from_noun Belt_from_noun (nlist (map Belt_to_noun vs)) = Err (Custom "Belt value not based").
Proof.
  induction 1 as [|v vs Hv Hvs IH]; intros Hnb; [exfalso; apply Hnb; constructor|].
  change (Vec_from_noun Belt_from_noun (NCell (Belt_to_noun v) (nlist (map Belt_to_noun vs))) =
    Err (Custom "Belt value not based")).
  cbn [Vec_from_noun].
  assert (E : Belt_from_noun (Belt_to_noun v) =
    if based_check v then Ok v else Err (Custom "Belt value not based")).
  { unfold Belt_to_noun, Belt_from_noun, Atom_new. destruct (v <=? DIRECT_MAX); simpl; by destruct (based_check v). }
  rewrite E. destruct (based_check v) eqn:Hb; cbn [mbind outcome_bind]; [|done].
  rewrite IH; [done|]. intros Hvb. apply Hnb. constructor; [|done].
  apply Z.ltb_lt in Hb. split; [apply Hv|done].
Qed.

Lemma hash_noun_big_leaf n a :
  wf_noun n -> In a (leaves n) -> U64 <= atom_val a -> hash_noun_varlen n = Err (JetFail BAIL_EXIT).
Proof.
  intros Hwf Hin Hbig. unfold hash_noun_varlen, leaf_sequence.
  pose proof (do_leaf_sequence_cases n []) as Hc.
  destruct (do_leaf_sequence n []) as [v|e|]; simpl; [|by subst|done].
  exfalso. rewrite List.Forall_forall in Hc. destruct (Hc a Hin) as [x Hx].
  apply wf_leaves in Hwf. rewrite List.Forall_forall in Hwf.
  rewrite as_u64_big in Hx; [done|auto|done].
Qed.

Lemma hash_noun_unbased_leaf n a :
  wf_noun n -> Forall (fun a => atom_val a < U64) (leaves n) ->
  Z.of_nat (length (leaves n)) <= DIRECT_MAX -> In a (leaves n) -> PRIME <= atom_val a ->
  hash_noun_varlen n = Err (JetFail BAIL_FAIL).
Proof.
  intros Hwf Hl Hs Hin Hbig. rewrite hash_noun_varlen_input by done. unfold hash_belts_list.
  rewrite Vec_from_not_based; [done| |].
  - constructor; [rewrite length_map, DIRECT_MAX_val in *; width; lia|]. apply Forall_app. split.
    + apply wf_leaves in Hwf. apply List.Forall_map. rewrite List.Forall_forall in *. intros x Hx.
      specialize (Hl x Hx). split; [by apply wf_atom_val, Hwf|done].
    + eapply Forall_impl; [apply dyck_word_bits|]. intros x [->| ->]; width; lia.
  - intros Hb. apply Forall_cons_1 in Hb as [_ Hb]. apply Forall_app in Hb as [Hb _].
    rewrite List.Forall_forall in Hb. specialize (Hb (atom_val a) (in_map _ _ _ Hin)). unfold based in Hb. lia.
Qed.

(** * The encoding is injective *)

Fixpoint same_shape (n m : noun) : Prop :=
  match n, m with
  | NAtom _, NAtom _ => True
  | NCell h t, NCell h' t' => same_shape h h' /\ same_shape t t'
  | _, _ => False
  end.

(** What can follow a Dyck word inside a larger one. *)
Definition closes (r : list Z) : Prop := match r with [] => True | x :: _ => x = 1 end.

Lemma dyck_word_parse n m r r' :
  closes r -> closes r' -> dyck_word n ++ r = dyck_word m ++ r' -> same_shape n m /\ r = r'.
Proof.
  revert m r r'. induction n as [a|h IHh t IHt]; intros [b|h' t'] r r' Hr Hr' E; simpl in E.
  - done.
  - destruct r as [|x r]; [done|]. simpl in Hr. injection E as E _. lia.
  - destruct r' as [|x r']; [done|]. simpl in Hr'. injection E as E _. lia.
  - injection E as E. rewrite <- !app_assoc in E. simpl in E.
    apply IHh in E as [Hh E]; [|done..]. injection E as E. apply IHt in E as [Ht ->]; [|done..].
    simpl. done.
Qed.

Lemma same_shape_length n m : same_shape n m -> length (leaves n) = length (leaves m).
Proof.
  revert m. induction n as [a|h IHh t IHt]; intros [b|h' t']; simpl; try done.
  intros [Hh Ht]. rewrite !length_app. by rewrite (IHh _ Hh), (IHt _ Ht).
Qed.

Lemma leaves_inj n m :
  wf_noun n -> wf_noun m -> same_shape n m ->
  map atom_val (leaves n) = map atom_val (leaves m) -> n = m.
Proof.
  revert m. induction n as [a|h IHh t IHt]; intros [b|h' t'] Hn Hm Hs E; simpl in *; try done.
  - injection E as E. f_equal. by apply atom_val_inj.
  - rewrite !map_app in E. destruct Hs as [Hsh Hst]. apply app_inj_1 in E as [E1 E2].
    + f_equal; [apply IHh|apply IHt]; naive_solver.
    + rewrite !length_map. by apply same_shape_length.
Qed.

Lemma noun_belts_inj n m : wf_noun n -> wf_noun m -> noun_belts n = noun_belts m -> n = m.
Proof.
  intros Hn Hm E. unfold noun_belts in E. injection E as El E. apply app_inj_1 in E as [E1 E2]; [|lia].
  rewrite <- (app_nil_r (dyck_word n)), <- (app_nil_r (dyck_word m)) in E2.
  apply dyck_word_parse in E2 as [Hs _]; [|done..]. by apply leaves_inj.
Qed.

(** * Claims *)

(** C26: The hash of a noun of field elements exists and is the hash of a list of
    belts from which the noun can be read back: two nouns that are hashed from the
    same list are equal. *)
Theorem noun_hash_injective n m :
  hashable n -> hashable m ->
  (exists d, hash_varlen (noun_belts n) = Some d /\ hash_noun_varlen n = Ok (array_to_noun d)) /\
  (noun_belts n = noun_belts m -> n = m).
Proof.
  intros Hn Hm. split; [by apply hash_noun_varlen_spec|].
  apply noun_belts_inj; [apply Hn|apply Hm].
Qed.

Lemma noun_hash_injective_witness :
  hashable (T [D 1; D 2; D 3]) /\
  exists d, hash_noun_varlen (T [D 1; D 2; D 3]) = Ok (array_to_noun d).
Proof.
  assert (H1 : hashable (T [D 1; D 2; D 3])).
  { split.
    - simpl. rewrite DIRECT_MAX_val. lia.
    - repeat constructor.
    - rewrite DIRECT_MAX_val. simpl. lia. }
  split; [exact H1|]. destruct (noun_hash_injective _ _ H1 H1) as ((d & _ & H2) & _).
  exists d. exact H2.
Defined.

(** Hashing a noun with an atom of more than 64 bits fails with [Exit]; an atom
    of 64 bits that is not a field element makes it fail with the
    non-deterministic [Fail]. *)
Theorem noun_hash_errors n a :
  wf_noun n -> In a (leaves n) -> Z.of_nat (length (leaves n)) <= DIRECT_MAX ->
  (U64 <= atom_val a -> hash_noun_varlen n = Err (JetFail BAIL_EXIT)) /\
  (Forall (fun a => atom_val a < U64) (leaves n) -> PRIME <= atom_val a ->
   hash_noun_varlen n = Err (JetFail BAIL_FAIL)).
Proof.
  intros Hwf Hin Hs. split; [by apply hash_noun_big_leaf|].
  intros Hl Hp. by apply (hash_noun_unbased_leaf n a).
Qed.

Lemma noun_hash_errors_witness :
  hash_noun_varlen (T [D 1; NAtom (Indirect [U64 - 1])]) = Err (JetFail BAIL_FAIL).
Proof.
  apply (noun_hash_errors (T [D 1; NAtom (Indirect [U64 - 1])]) (Indirect [U64 - 1])).
  - simpl. split; [rewrite DIRECT_MAX_val; lia|]. split; [|split; [done|reflexivity]].
    constructor; [width; lia|constructor].
  - simpl. right. left. reflexivity.
  - rewrite DIRECT_MAX_val. simpl. lia.
  - simpl. repeat constructor.
  - vm_compute. discriminate.
Defined.
