(* ===== verification/Treap.v ===== *)
(** Treaps as a data structure: search trees ordered by [lt] on keys and heaps
    ordered by [mt].  This is the specification that the noun routines of the zoon
    module are refined to; the file shows that insertion, splitting and merging
    keep the invariant, what they contain, and that a treap is determined by its
    elements. *)
From stdpp Require Import base option list numbers.

(** A strict total order, as a boolean test, on the elements of a domain. *)
Class StrictOrder {A} (dom : A -> Prop) (lt : A -> A -> bool) : Prop := {
  so_irrefl a : dom a -> lt a a = false;
  so_trans a b c : dom a -> dom b -> dom c -> lt a b = true -> lt b c = true -> lt a c = true;
  so_total a b : dom a -> dom b -> a <> b -> lt a b = true \/ lt b a = true;
}.

Lemma so_asym {A} (dom : A -> Prop) lt `{!StrictOrder dom lt} a b :
  dom a -> dom b -> lt a b = true -> lt b a = true -> False.
Proof.
  intros Ha Hb H1 H2. pose proof (so_trans a b a Ha Hb Ha H1 H2) as H3.
  rewrite so_irrefl in H3 by done. done.
Qed.
Lemma so_flip {A} (dom : A -> Prop) lt `{!StrictOrder dom lt} a b :
  dom a -> dom b -> a <> b -> lt a b = false -> lt b a = true.
Proof. intros Ha Hb Hne H1. destruct (so_total a b Ha Hb Hne); congruence. Qed.

Inductive tree (E : Type) :=
  | Leaf
  | Node (n : E) (l r : tree E).
Arguments Leaf {E}.
Arguments Node {E} n l r.

Section treap.
Context {E K : Type} `{EqDecision K} (key : E -> K) (dom : K -> Prop).
Context (lt mt : K -> K -> bool) `{!StrictOrder dom lt} `{!StrictOrder dom mt}.

Fixpoint mem (x : E) (t : tree E) : Prop :=
  match t with
  | Leaf => False
  | Node n l r => x = n \/ mem x l \/ mem x r
  end.

(** The invariant: keys in the domain, searched by [lt], heaped by [mt]. *)
Fixpoint wf (t : tree E) : Prop :=
  match t with
  | Leaf => True
  | Node n l r =>
      dom (key n) /\
      (forall x, mem x l -> lt (key x) (key n) = true /\ mt (key n) (key x) = true) /\
      (forall x, mem x r -> lt (key n) (key x) = true /\ mt (key n) (key x) = true) /\
      wf l /\ wf r
  end.

Fixpoint tput (t : tree E) (e : E) : tree E :=
  match t with
  | Leaf => Node e Leaf Leaf
  | Node n l r =>
      if decide (key e = key n) then Node e l r
      else if lt (key e) (key n) then
        match tput l e with
        | Node cn cl cr =>
            if mt (key n) (key cn) then Node n (Node cn cl cr) r else Node cn cl (Node n cr r)
        | Leaf => Node n Leaf r
        end
      else
        match tput r e with
        | Node cn cl cr =>
            if mt (key n) (key cn) then Node n l (Node cn cl cr) else Node cn (Node n l cl) cr
        | Leaf => Node n l Leaf
        end
  end.

Fixpoint tsplit (t : tree E) (k : K) : tree E * tree E :=
  match t with
  | Leaf => (Leaf, Leaf)
  | Node n l r =>
      if decide (k = key n) then (l, r)
      else if lt k (key n) then let '(cl, cr) := tsplit l k in (cl, Node n cr r)
      else let '(cl, cr) := tsplit r k in (Node n l cl, cr)
  end.

Fixpoint tmerge (d : tree E) : tree E -> tree E :=
  fix merge_e (e : tree E) : tree E :=
  match d, e with
  | Leaf, _ => e
  | _, Leaf => d
  | Node dn dl dr, Node en el er =>
      if mt (key dn) (key en) then Node dn dl (tmerge dr e) else Node en (merge_e el) er
  end.

(** * Keys of a well-formed tree *)

Lemma wf_dom t x : wf t -> mem x t -> dom (key x).
Proof.
  induction t as [|n l IHl r IHr]; simpl; [done|].
  intros (Hd & _ & _ & Wl & Wr) [->|[Hx|Hx]]; auto.
Qed.

Lemma key_irrefl t x y : wf t -> mem x t -> key x = key y -> lt (key x) (key y) = true -> False.
Proof.
  intros Hwf Hx <- H1. rewrite so_irrefl in H1; [done|]. by eapply wf_dom.
Qed.

Lemma mem_key t x y : wf t -> mem x t -> mem y t -> key x = key y -> x = y.
Proof.
  intros Hwf Hx Hy Ek. pose proof (key_irrefl _ _ _ Hwf Hx Ek) as Hirr1.
  pose proof (key_irrefl _ _ _ Hwf Hy (eq_sym Ek)) as Hirr2.
  assert (Dx : dom (key x)) by (by eapply wf_dom). assert (Dy : dom (key y)) by (by eapply wf_dom).
  induction t as [|n l IHl r IHr]; simpl in *; [done|].
  destruct Hwf as (Hd & Hl & Hr & Wl & Wr).
  destruct Hx as [->|[Hx|Hx]], Hy as [->|[Hy|Hy]]; auto; exfalso.
  - by apply Hirr2, Hl.
  - by apply Hirr1, Hr.
  - by apply Hirr1, Hl.
  - apply Hirr1. apply Hl in Hx as [Hx _]. apply Hr in Hy as [Hy _].
    exact (so_trans _ _ _ Dx Hd Dy Hx Hy).
  - by apply Hirr2, Hr.
  - apply Hirr2. apply Hr in Hx as [Hx _]. apply Hl in Hy as [Hy _].
    exact (so_trans _ _ _ Dy Hd Dx Hy Hx).
Qed.

Lemma wf_Node n l r :
  dom (key n) ->
  (forall x, mem x l -> lt (key x) (key n) = true /\ mt (key n) (key x) = true) ->
  (forall x, mem x r -> lt (key n) (key x) = true /\ mt (key n) (key x) = true) ->
  wf l -> wf r -> wf (Node n l r).
Proof. done. Qed.

(** * Insertion *)

Lemma tput_mem t e x :
  (mem x (tput t e) -> x = e \/ mem x t) /\ mem e (tput t e) /\
  (mem x t -> key x <> key e -> mem x (tput t e)).
Proof.
  induction t as [|n l IHl r IHr]; simpl; [tauto|].
  destruct (decide (key e = key n)) as [Ek|Ek]; simpl.
  { split; [tauto|]. split; [tauto|]. intros [->|Hx] Hne; [congruence|by right]. }
  destruct (lt (key e) (key n)).
  - destruct (tput l e) as [|cn cl cr]; simpl in *; [tauto|].
    destruct (mt (key n) (key cn)); simpl; tauto.
  - destruct (tput r e) as [|cn cl cr]; simpl in *; [tauto|].
    destruct (mt (key n) (key cn)); simpl; tauto.
Qed.

(** A parent above the root of a heap is above all of it. *)
Lemma above_root n cn cl cr x :
  dom n -> wf (Node cn cl cr) -> mt n (key cn) = true -> mem x (Node cn cl cr) -> mt n (key x) = true.
Proof.
  intros Hn Hwf Hm Hx. pose proof (wf_dom _ _ Hwf Hx) as Dx.
  destruct Hwf as (Hd & Hl & Hr & _). simpl in Hx.
  destruct Hx as [->|[Hx|Hx]]; [done|..]; apply (so_trans _ (key cn)); try done;
    [by apply Hl|by apply Hr].
Qed.

Lemma wf_tput t e : wf t -> dom (key e) -> wf (tput t e).
Proof.
  intros Hwf He. induction t as [|n l IHl r IHr]; simpl; [done|].
  destruct Hwf as (Hd & Hl & Hr & Wl & Wr).
  destruct (decide (key e = key n)) as [Ek|Ek]; [simpl; rewrite Ek; done|].
  destruct (lt (key e) (key n)) eqn:Hlt.
  - pose proof (fun x => proj1 (tput_mem l e x)) as Hmem. pose proof (proj1 (proj2 (tput_mem l e e))) as Hin.
    specialize (IHl Wl). destruct (tput l e) as [|cn cl cr]; [done|].
    assert (Hbelow : forall x, mem x (Node cn cl cr) -> lt (key x) (key n) = true).
    { intros x Hx. destruct (Hmem x Hx) as [->|Hx']; [done|by apply Hl]. }
    destruct (mt (key n) (key cn)) eqn:Hm.
    { apply wf_Node; try done. intros x Hx. split; [by apply Hbelow|]. by eapply above_root. }
    assert (Hcn : mem cn (Node cn cl cr)) by (by left).
    assert (Dcn : dom (key cn)) by (by eapply wf_dom).
    assert (Hmn : mt (key cn) (key n) = true).
    { apply (so_flip dom mt); [done..| |done]. intros E1. apply (key_irrefl _ cn n IHl Hcn); auto. }
    assert (cn = e) as ->.
    { destruct (Hmem cn Hcn) as [|Hc]; [done|]. apply Hl in Hc as [_ Hc]. congruence. }
    pose proof IHl as IHl'. destruct IHl' as (_ & Hcl & Hcr & Wcl & Wcr). apply wf_Node; try done; [|apply wf_Node; try done].
    + intros x [->|[Hx|Hx]]; [done|by apply Hcr|]. apply Hr in Hx as Hx'. destruct Hx' as [H1 H2].
      pose proof (wf_dom _ _ Wr Hx) as Dx.
      split; [exact (so_trans _ _ _ He Hd Dx Hlt H1)|exact (so_trans _ _ _ He Hd Dx Hmn H2)].
    + intros x Hx. assert (Hxc : mem x (Node e cl cr)) by (by right; right). split; [by apply Hbelow|].
      destruct (Hmem x Hxc) as [->|Hxl]; [|by apply Hl].
      apply Hcr in Hx as [Hx _]. by rewrite so_irrefl in Hx.
  - pose proof (so_flip dom lt _ _ He Hd Ek Hlt) as Hgt.
    pose proof (fun x => proj1 (tput_mem r e x)) as Hmem. pose proof (proj1 (proj2 (tput_mem r e e))) as Hin.
    specialize (IHr Wr). destruct (tput r e) as [|cn cl cr]; [done|].
    assert (Hbeyond : forall x, mem x (Node cn cl cr) -> lt (key n) (key x) = true).
    { intros x Hx. destruct (Hmem x Hx) as [->|Hx']; [done|by apply Hr]. }
    destruct (mt (key n) (key cn)) eqn:Hm.
    { apply wf_Node; try done. intros x Hx. split; [by apply Hbeyond|]. by eapply above_root. }
    assert (Hcn : mem cn (Node cn cl cr)) by (by left).
    assert (Dcn : dom (key cn)) by (by eapply wf_dom).
    assert (Hmn : mt (key cn) (key n) = true).
    { apply (so_flip dom mt); [done..| |done]. intros E1. pose proof (Hbeyond cn Hcn) as H1.
      rewrite E1 in H1. by rewrite so_irrefl in H1. }
    assert (cn = e) as ->.
    { destruct (Hmem cn Hcn) as [|Hc]; [done|]. apply Hr in Hc as [_ Hc]. congruence. }
    pose proof IHr as IHr'. destruct IHr' as (_ & Hcl & Hcr & Wcl & Wcr). apply wf_Node; try done; [|apply wf_Node; try done].
    + intros x [->|[Hx|Hx]]; [done| |by apply Hcl]. apply Hl in Hx as Hx'. destruct Hx' as [H1 H2].
      pose proof (wf_dom _ _ Wl Hx) as Dx.
      split; [exact (so_trans _ _ _ Dx Hd He H1 Hgt)|exact (so_trans _ _ _ He Hd Dx Hmn H2)].
    + intros x Hx. assert (Hxc : mem x (Node e cl cr)) by (by right; left). split; [by apply Hbeyond|].
      destruct (Hmem x Hxc) as [->|Hxl]; [|by apply Hr].
      apply Hcl in Hx as [Hx _]. by rewrite so_irrefl in Hx.
Qed.

Lemma tput_elements t e x :
  wf t -> dom (key e) -> mem x (tput t e) <-> x = e \/ (mem x t /\ key x <> key e).
Proof.
  intros Hwf He. destruct (tput_mem t e x) as (H1 & H2 & H3). split.
  - intros Hx. destruct (decide (key x = key e)) as [Ek|Ek].
    + left. eapply mem_key; [by apply (wf_tput t e)|done..].
    + destruct (H1 Hx); auto.
  - intros [->|[Hx Hne]]; auto.
Qed.

(** * Splitting and merging *)

Lemma tsplit_spec t k :
  wf t -> dom k ->
  let '(a, b) := tsplit t k in
  wf a /\ wf b /\ (forall x, mem x a <-> mem x t /\ lt (key x) k = true) /\
  (forall x, mem x b <-> mem x t /\ lt k (key x) = true).
Proof.
  intros Hwf Hk. induction t as [|n l IHl r IHr]; simpl; [naive_solver|].
  destruct Hwf as (Hd & Hl & Hr & Wl & Wr). specialize (IHl Wl). specialize (IHr Wr).
  assert (Hasym : forall x y, dom x -> dom y -> lt x y = true -> lt y x = true -> False)
    by (intros x y Dx Dy; exact (so_asym dom lt x y Dx Dy)).
  destruct (decide (k = key n)) as [->|Ek].
  - split; [done|]. split; [done|]. split; intros x; split.
    + intros Hx. split; [tauto|by apply Hl].
    + intros [[->|[Hx|Hx]] H1]; [by rewrite so_irrefl in H1|done|]. exfalso.
      pose proof (wf_dom r x Wr Hx). destruct (Hr x Hx) as [H2 _]. by apply (Hasym (key x) (key n)).
    + intros Hx. split; [tauto|by apply Hr].
    + intros [[->|[Hx|Hx]] H1]; [by rewrite so_irrefl in H1| |done]. exfalso.
      pose proof (wf_dom l x Wl Hx). destruct (Hl x Hx) as [H2 _]. by apply (Hasym (key n) (key x)).
  - destruct (lt k (key n)) eqn:Hlt.
    + destruct (tsplit l k) as [cl cr]. destruct IHl as (W1 & W2 & M1 & M2).
      assert (Hbig : forall x, mem x r -> lt k (key x) = true).
      { intros x Hx. pose proof (wf_dom r x Wr Hx). destruct (Hr x Hx) as [H2 _]. by apply (so_trans _ (key n)). }
      split; [done|]. split; [|split; intros x; split].
      * apply wf_Node; try done. intros x Hx. apply M2 in Hx as [Hx _]. by apply Hl.
      * intros Hx. apply M1 in Hx as [Hx H1]. auto.
      * intros [[->|[Hx|Hx]] H1]; [exfalso; by apply (Hasym k (key n))| |].
        -- apply M1. auto.
        -- exfalso. apply (Hasym k (key x)); auto. by apply (wf_dom r).
      * intros [->|[Hx|Hx]]; [auto| |auto]. apply M2 in Hx as [Hx H1]. auto.
      * intros [[->|[Hx|Hx]] H1]; simpl; auto. right. left. apply M2. auto.
    + pose proof (so_flip dom lt _ _ Hk Hd Ek Hlt) as Hgt.
      destruct (tsplit r k) as [cl cr]. destruct IHr as (W1 & W2 & M1 & M2).
      assert (Hsmall : forall x, mem x l -> lt (key x) k = true).
      { intros x Hx. pose proof (wf_dom l x Wl Hx). destruct (Hl x Hx) as [H2 _]. by apply (so_trans _ (key n)). }
      split; [|split; [done|split; intros x; split]].
      * apply wf_Node; try done. intros x Hx. apply M1 in Hx as [Hx _]. by apply Hr.
      * intros [->|[Hx|Hx]]; [auto|auto|]. apply M1 in Hx as [Hx H1]. auto.
      * intros [[->|[Hx|Hx]] H1]; simpl; auto. right. right. apply M1. auto.
      * intros Hx. apply M2 in Hx as [Hx H1]. auto.
      * intros [[->|[Hx|Hx]] H1]; [congruence| |].
        -- exfalso. apply (Hasym (key x) k); auto. by apply (wf_dom l).
        -- apply M2. auto.
Qed.

Lemma tmerge_Leaf_l e : tmerge Leaf e = e.
Proof. by destruct e. Qed.
Lemma tmerge_Leaf_r d : tmerge d Leaf = d.
Proof. by destruct d. Qed.
Lemma tmerge_Node dn dl dr en el er :
  tmerge (Node dn dl dr) (Node en el er) =
  if mt (key dn) (key en) then Node dn dl (tmerge dr (Node en el er))
  else Node en (tmerge (Node dn dl dr) el) er.
Proof. done. Qed.

Lemma tmerge_spec d e :
  wf d -> wf e -> (forall x y, mem x d -> mem y e -> lt (key x) (key y) = true) ->
  wf (tmerge d e) /\ (forall x, mem x (tmerge d e) <-> mem x d \/ mem x e).
Proof.
  revert e. induction d as [|dn dl IHdl dr IHdr]; intros e Wd We Hlt.
  { rewrite tmerge_Leaf_l. split; [done|]. intros x. simpl. tauto. }
  induction e as [|en el IHel er IHer].
  { rewrite tmerge_Leaf_r. split; [done|]. intros x. simpl. tauto. }
  rewrite tmerge_Node. pose proof Wd as (Dd & Hdl & Hdr & Wdl & Wdr).
  pose proof We as (De & Hel & Her & Wel & Wer).
  assert (Hde : lt (key dn) (key en) = true) by (apply Hlt; by left).
  destruct (mt (key dn) (key en)) eqn:Hm.
  - destruct (IHdr (Node en el er) Wdr We) as [Wm Mm].
    { intros x y Hx Hy. apply Hlt; [by right; right|done]. }
    split; [|intros x; cbn [mem]; rewrite Mm; simpl; tauto].
    apply wf_Node; try done. intros x Hx. apply Mm in Hx as [Hx|Hx]; [by apply Hdr|].
    split; [apply Hlt; [by left|done]|]. by apply (above_root _ en el er).
  - destruct IHel as [Wm Mm]; [done| |].
    { intros x y Hx Hy. apply Hlt; [done|by right; left]. }
    split; [|intros x; cbn [mem]; rewrite Mm; simpl; tauto].
    assert (Hne : key dn <> key en) by (intros E1; rewrite E1 in Hde; by rewrite so_irrefl in Hde).
    pose proof (so_flip dom mt _ _ Dd De Hne Hm) as Hmn.
    apply wf_Node; try done. intros x Hx. apply Mm in Hx as [Hx|Hx]; [|by apply Hel].
    split; [apply Hlt; [done|by left]|]. by apply (above_root _ dn dl dr).
Qed.

(** * A treap is determined by its elements *)

Lemma treap_unique s t : wf s -> wf t -> (forall x, mem x s <-> mem x t) -> s = t.
Proof.
  revert t. induction s as [|n l IHl r IHr]; intros [|m k q] Ws Wt Hm.
  - done.
  - exfalso. apply (Hm m). by left.
  - exfalso. apply (Hm n). by left.
  - pose proof Ws as (Dn & Hl & Hr & Wl & Wr). pose proof Wt as (Dm & Hk & Hq & Wk & Wq).
    assert (n = m) as <-.
    { destruct (proj1 (Hm n) ltac:(by left)) as [|Hn]; [done|].
      destruct (proj2 (Hm m) ltac:(by left)) as [|Hm']; [done|]. exfalso.
      apply (so_asym dom mt (key n) (key m)); try done.
      - destruct Hm' as [Hx|Hx]; [by apply Hl|by apply Hr].
      - destruct Hn as [Hx|Hx]; [by apply Hk|by apply Hq]. }
    assert (Hside : forall x, (mem x l \/ mem x r) <-> (mem x k \/ mem x q)).
    { intros x. specialize (Hm x). simpl in Hm.
      assert (Hnot : forall y, mem y l \/ mem y r \/ mem y k \/ mem y q -> y <> n).
      { intros y Hy ->. assert (Hirr : lt (key n) (key n) = true).
        { destruct Hy as [Hy|[Hy|[Hy|Hy]]]; [by apply Hl|by apply Hr|by apply Hk|by apply Hq]. }
        by rewrite so_irrefl in Hirr. }
      pose proof (Hnot x). tauto. }
    assert (Hno : forall x, lt (key x) (key n) = true -> lt (key n) (key x) = true -> dom (key x) -> False).
    { intros x H1 H2 Dx. exact (so_asym dom lt _ _ Dx Dn H1 H2). }
    f_equal.
    + apply IHl; [done..|]. intros x. specialize (Hside x). split; intros Hx.
      * destruct (proj1 Hside (or_introl Hx)) as [|Hx']; [done|]. exfalso.
        apply (Hno x); [by apply Hl|by apply Hq|by apply (wf_dom l)].
      * destruct (proj2 Hside (or_introl Hx)) as [|Hx']; [done|]. exfalso.
        apply (Hno x); [by apply Hk|by apply Hr|by apply (wf_dom k)].
    + apply IHr; [done..|]. intros x. specialize (Hside x). split; intros Hx.
      * destruct (proj1 Hside (or_intror Hx)) as [Hx'|]; [|done]. exfalso.
        apply (Hno x); [by apply Hk|by apply Hr|by apply (wf_dom r)].
      * destruct (proj2 Hside (or_intror Hx)) as [Hx'|]; [|done]. exfalso.
        apply (Hno x); [by apply Hl|by apply Hq|by apply (wf_dom q)].
Qed.
End treap.
