(* ===== verification/Zoon.v ===== *)
(** The hash-ordered treaps of [crates/nockchain-math/src/zoon]: the orders of
    [common.rs], the sets of [zset.rs] and the maps of [zmap.rs].

    The routines work on nouns as in the source: a tree is [D 0] or the tuple
    [[n l r]], an ill-formed node is an error.  The hasher is the source's trait
    [TipHasher], here an interface; [DefaultTipHasher] is its Tip5 instance. *)
From stdpp Require Import base option list numbers strings.
From Stdlib Require Import ZArith Lia.
From S2P Require Import Prelude Noun Interp Jets Belt Vec Poly BPoly Tip5 NounHash.

(** [trait TipHasher]: digests are arrays of five words. *)
Class TipHasher := {
  tip_hash_noun_varlen : noun -> outcome JetErr (list Z);
  hash_ten_cell : list Z -> outcome JetErr (list Z);
}.

Definition DefaultTipHasher : TipHasher := {|
  tip_hash_noun_varlen noun :=
    noun_res ← hash_noun_varlen noun;
    map_err decode_jet_err (array_from_noun 5 noun_res);
  hash_ten_cell ten :=
    if negb (length ten =? 10)%nat then Err (JetFail BAIL_FAIL)
    else match hash_10 ten with Some d => Ok d | None => Panic end;
|}.

(** [for i in (0..=4).rev()]: the most significant word is the last one. *)
Fixpoint lth_words (a b : list Z) : bool :=
  match a, b with
  | x :: a, y :: b => if x <? y then true else if y <? x then false else lth_words a b
  | _, _ => false
  end.
Definition lth_tip (a b : list Z) : bool := lth_words (rev a) (rev b).

Fixpoint dor_tip (a b : noun) : bool :=
  if decide (a = b) then true
  else match a with
  | NCell ah at' =>
      match b with
      | NAtom _ => false
      | NCell bh bt => if decide (ah = bh) then dor_tip at' bt else dor_tip ah bh
      end
  | NAtom x =>
      match b with
      | NCell _ _ => false
      | NAtom y => bool_decide (lth x y = D 1)
      end
  end.

Section hasher.
Context {hasher : TipHasher}.

Definition tip (a : noun) : outcome JetErr (list Z) := tip_hash_noun_varlen a.

Definition double_tip (a : noun) : outcome JetErr (list Z) :=
  hash ← tip_hash_noun_varlen a; hash_ten_cell (hash ++ hash).

Definition gor_tip (a b : noun) : outcome JetErr bool :=
  a_tip ← tip a;
  b_tip ← tip b;
  if decide (a_tip = b_tip) then Ok (dor_tip a b) else Ok (lth_tip a_tip b_tip).

Definition mor_tip (a b : noun) : outcome JetErr bool :=
  a_tip ← double_tip a;
  b_tip ← double_tip b;
  if decide (a_tip = b_tip) then Ok (dor_tip a b) else Ok (lth_tip a_tip b_tip).

(** [uncell::<3>] and [uncell::<2>] with [?] into [JetErr] *)
Definition uncell3 (n : noun) : outcome JetErr (noun * noun * noun) :=
  match n with
  | NCell a (NCell b c) => Ok (a, b, c)
  | _ => Err (JetFail BAIL_EXIT)
  end.
Definition uncell2 (n : noun) : outcome JetErr (noun * noun) :=
  match n with
  | NCell a b => Ok (a, b)
  | NAtom _ => Err (JetFail BAIL_EXIT)
  end.

(** * Sets *)

Fixpoint z_set_put (a b : noun) : outcome JetErr noun :=
  if decide (a = D 0) then Ok (T [b; D 0; D 0])
  else match a with
  | NCell an (NCell al ar) =>
      if decide (b = an) then Ok a
      else
        goes_left ← gor_tip b an;
        if (goes_left : bool) then
          c ← z_set_put al b;
          '(cn, cl, cr) ← uncell3 c;
          above ← mor_tip an cn;
          if (above : bool) then Ok (T [an; c; ar])
          else Ok (T [cn; cl; T [an; cr; ar]])
        else
          c ← z_set_put ar b;
          '(cn, cl, cr) ← uncell3 c;
          above ← mor_tip an cn;
          if (above : bool) then Ok (T [an; al; c])
          else Ok (T [cn; T [an; al; cl]; cr])
  | _ => Err (JetFail BAIL_EXIT)
  end.

Fixpoint do_bif (a b : noun) : outcome JetErr noun :=
  if decide (a = D 0) then Ok (T [b; D 0; D 0])
  else match a with
  | NCell n (NCell l r) =>
      if decide (b = n) then Ok a
      else
        goes_left ← gor_tip b n;
        if (goes_left : bool) then
          c ← do_bif l b;
          '(cn, cl, cr) ← uncell3 c;
          Ok (T [cn; cl; T [n; cr; r]])
        else
          c ← do_bif r b;
          '(cn, cl, cr) ← uncell3 c;
          Ok (T [cn; T [n; l; cl]; cr])
  | _ => Err (JetFail BAIL_EXIT)
  end.

Definition z_set_bif (a b : noun) : outcome JetErr noun :=
  res ← do_bif a b;
  match res with
  | NCell _ t => Ok t
  | NAtom _ => Err (JetFail BAIL_EXIT)
  end.

Fixpoint dif_helper (d : noun) : noun -> outcome JetErr noun :=
  fix dif_e (e : noun) : outcome JetErr noun :=
  if decide (d = D 0) then Ok e
  else if decide (e = D 0) then Ok d
  else match d, e with
  | NCell dn (NCell dl dr), NCell en (NCell el er) =>
      above ← mor_tip dn en;
      if (above : bool) then
        df ← dif_helper dr e; Ok (T [dn; dl; df])
      else
        df ← dif_e el; Ok (T [en; df; er])
  | _, _ => Err (JetFail BAIL_EXIT)
  end.

Fixpoint z_set_dif (a b : noun) : outcome JetErr noun :=
  if decide (b = D 0) then Ok a
  else match b with
  | NCell bn (NCell bl br) =>
      c ← z_set_bif a bn;
      '(cl, cr) ← uncell2 c;
      d ← z_set_dif cl bl;
      e ← z_set_dif cr br;
      dif_helper d e
  | _ => Err (JetFail BAIL_EXIT)
  end.

(** * Maps *)

Fixpoint z_map_put (a b c : noun) : outcome JetErr noun :=
  if decide (a = D 0) then Ok (T [T [b; c]; D 0; D 0])
  else match a with
  | NCell an (NCell al ar) =>
      '(anp, anq) ← uncell2 an;
      if decide (b = anp) then
        if decide (c = anq) then Ok a else Ok (T [T [b; c]; al; ar])
      else
        goes_left ← gor_tip b anp;
        if (goes_left : bool) then
          d ← z_map_put al b c;
          '(dn, dl, dr) ← uncell3 d;
          '(dnp, _) ← uncell2 dn;
          above ← mor_tip anp dnp;
          if (above : bool) then Ok (T [an; d; ar])
          else Ok (T [dn; dl; T [an; dr; ar]])
        else
          d ← z_map_put ar b c;
          '(dn, dl, dr) ← uncell3 d;
          '(dnp, _) ← uncell2 dn;
          above ← mor_tip anp dnp;
          if (above : bool) then Ok (T [an; al; d])
          else Ok (T [dn; T [an; al; dl]; dr])
  | _ => Err (JetFail BAIL_EXIT)
  end.

(** [rep_fold], with the gate as a function on entry and accumulator. *)
Fixpoint rep_fold (reducer : noun -> noun -> outcome JetErr noun) (tree acc : noun) : outcome JetErr noun :=
  if decide (tree = D 0) then Ok acc
  else match tree with
  | NCell entry (NCell tl tr) =>
      acc ← reducer entry acc;
      acc ← rep_fold reducer tl acc;
      rep_fold reducer tr acc
  | _ => Err (JetFail BAIL_EXIT)
  end.
End hasher.
