(* ===== verification/ZoonTheorems.v ===== *)
(** The noun routines of Zoon.v implement treaps: they refine the operations of
    Treap.v, so a set or map has one representation per contents, whatever the
    order of its insertions. *)
From stdpp Require Import base option list numbers strings.
From Stdlib Require Import ZArith Lia.
From S2P Require Import Prelude Noun Interp Jets Belt Vec Poly BPoly Tip5 NounHash Treap Zoon.

(** What the treaps need of a hasher: on a set of keys it succeeds and does not
    collide. *)
Class TipLaws (hasher : TipHasher) (dom : noun -> Prop) := {
  digest : noun -> list Z;
  ddigest : noun -> list Z;
  tip_ok n : dom n -> tip n = Ok (digest n);
  double_tip_ok n : dom n -> double_tip n = Ok (ddigest n);
  digest_length n : dom n -> length (digest n) = 5%nat;
  ddigest_length n : dom n -> length (ddigest n) = 5%nat;
  digest_inj a b : dom a -> dom b -> digest a = digest b -> a = b;
  ddigest_inj a b : dom a -> dom b -> ddigest a = ddigest b -> a = b;
}.

(** * The order on digests *)

Lemma lth_words_irrefl a : lth_words a a = false.
Proof. induction a as [|x a IH]; simpl; [done|]. by rewrite !Z.ltb_irrefl. Qed.

Lemma lth_words_trans a b c :
  length a = length b -> length b = length c ->
  lth_words a b = true -> lth_words b c = true -> lth_words a c = true.
Proof.
  revert b c. induction a as [|x a IH]; intros [|y b] [|z c]; simpl; try done.
  intros E1 E2. simplify_eq.
  destruct (Z.ltb_spec x y), (Z.ltb_spec y x), (Z.ltb_spec y z), (Z.ltb_spec z y),
    (Z.ltb_spec x z), (Z.ltb_spec z x); try lia; try done. by apply IH.
Qed.

Lemma lth_words_total a b :
  length a = length b -> a <> b -> lth_words a b = true \/ lth_words b a = true.
Proof.
  revert b. induction a as [|x a IH]; intros [|y b]; simpl; try done.
  intros E1 Hne. simplify_eq.
  destruct (Z.ltb_spec x y), (Z.ltb_spec y x); auto; try lia.
  assert (x = y) as -> by lia. apply IH; congruence.
Qed.

(** Comparing the words from the last one is comparing the numbers they write
    in base 2^64. *)
Lemma lth_words_order {A} (dom : A -> Prop) (f : A -> list Z) :
  (forall a, dom a -> length (f a) = 5%nat) ->
  (forall a b, dom a -> dom b -> f a = f b -> a = b) ->
  StrictOrder dom (fun a b => lth_tip (f a) (f b)).
Proof.
  intros Hlen Hinj. unfold lth_tip. split.
  - intros a _. apply lth_words_irrefl.
  - intros a b c Da Db Dc. apply lth_words_trans; rewrite !length_rev, !Hlen; done.
  - intros a b Da Db Hne. apply lth_words_total; [by rewrite !length_rev, !Hlen|].
    intros E1. apply Hne, Hinj; [done..|]. by rewrite <-(rev_involutive (f a)), E1, rev_involutive.
Qed.

Section laws.
Context {hasher : TipHasher} {dom : noun -> Prop} `{HL : !TipLaws hasher dom}.

Definition gor (a b : noun) : bool := lth_tip (digest a) (digest b).
Definition mor (a b : noun) : bool := lth_tip (ddigest a) (ddigest b).

Global Instance gor_order : StrictOrder dom gor.
Proof. apply lth_words_order; [apply digest_length|apply digest_inj]. Qed.
Global Instance mor_order : StrictOrder dom mor.
Proof. apply lth_words_order; [apply ddigest_length|apply ddigest_inj]. Qed.

Lemma gor_tip_ok a b : dom a -> dom b -> a <> b -> gor_tip a b = Ok (gor a b).
Proof.
  intros Da Db Hne. unfold gor_tip. rewrite !tip_ok by done. simpl.
  rewrite decide_False; [done|]. intros E1. by apply Hne, digest_inj.
Qed.
Lemma mor_tip_ok a b : dom a -> dom b -> a <> b -> mor_tip a b = Ok (mor a b).
Proof.
  intros Da Db Hne. unfold mor_tip. rewrite !double_tip_ok by done. simpl.
  rewrite decide_False; [done|]. intros E1. by apply Hne, ddigest_inj.
Qed.

(** A tree as the noun that represents it *)
Fixpoint enc {E} (f : E -> noun) (t : tree E) : noun :=
  match t with
  | Leaf => D 0
  | Node n l r => T [f n; enc f l; enc f r]
  end.
Definition kv (e : noun * noun) : noun := T [e.1; e.2].

Notation set_wf := (wf (fun n : noun => n) dom gor mor).
Notation map_wf := (wf (fst : noun * noun -> noun) dom gor mor).
Notation set_put := (tput (fun n : noun => n) gor mor).
Notation map_put := (tput (fst : noun * noun -> noun) gor mor).
Notation set_split := (tsplit (fun n : noun => n) gor).
Notation set_merge := (tmerge (fun n : noun => n) mor).

(** The root of a tree after an insertion below [n] is not [n]. *)
Lemma put_root {E} (key : E -> noun) t e n cn cl cr :
  tput key gor mor t e = Node cn cl cr -> dom (key n) ->
  (forall x, mem x t -> gor (key x) (key n) = true \/ gor (key n) (key x) = true) ->
  key e <> key n -> key n <> key cn.
Proof.
  intros Hput Hd Hside Hne E1.
  destruct (proj1 (tput_mem key gor mor t e cn) ltac:(rewrite Hput; by left)) as [->|Hx]; [done|].
  destruct (Hside _ Hx) as [H1|H1]; rewrite <-E1, so_irrefl in H1 by done; done.
Qed.

Lemma put_not_Leaf {E} (key : E -> noun) t e : tput key gor mor t e <> Leaf.
Proof. intros H1. pose proof (proj1 (proj2 (tput_mem key gor mor t e e))) as H2. by rewrite H1 in H2. Qed.

Lemma put_dom {E} (key : E -> noun) t e cn cl cr :
  wf key dom gor mor t -> dom (key e) -> tput key gor mor t e = Node cn cl cr -> dom (key cn).
Proof.
  intros Hwf He Hput. eapply (wf_dom key dom gor mor); [by apply (wf_tput key dom gor mor t e)|].
  rewrite Hput. by left.
Qed.

Lemma set_dom t x : set_wf t -> mem x t -> dom x.
Proof. apply (wf_dom (fun n : noun => n) dom gor mor). Qed.

Lemma z_set_put_refines t b :
  set_wf t -> dom b -> z_set_put (enc id t) b = Ok (enc id (set_put t b)).
Proof.
  intros Hwf Db. induction t as [|n l IHl r IHr]; [done|].
  destruct Hwf as (Dn & Hl & Hr & Wl & Wr). specialize (IHl Wl). specialize (IHr Wr).
  cbn [enc tput z_set_put T id]. case_decide as E0; [done|clear E0].
  destruct (decide (b = n)) as [->|Hne]; [done|].
  rewrite gor_tip_ok by done. cbn [mbind outcome_bind].
  destruct (gor b n) eqn:Hg.
  - rewrite IHl. cbn [mbind outcome_bind].
    destruct (set_put l b) as [|cn cl cr] eqn:Hput; [by apply put_not_Leaf in Hput|].
    cbn [enc T uncell3 id mbind outcome_bind].
    rewrite mor_tip_ok; [|done|by eapply (put_dom (fun n => n) l b cn)|].
    + cbn [mbind outcome_bind]. by destruct (mor n cn).
    + eapply (put_root (fun n => n) l b n cn); [done|done| |done]. intros x Hx. left. by apply Hl.
  - rewrite IHr. cbn [mbind outcome_bind].
    destruct (set_put r b) as [|cn cl cr] eqn:Hput; [by apply put_not_Leaf in Hput|].
    cbn [enc T uncell3 id mbind outcome_bind].
    rewrite mor_tip_ok; [|done|by eapply (put_dom (fun n => n) r b cn)|].
    + cbn [mbind outcome_bind]. by destruct (mor n cn).
    + eapply (put_root (fun n => n) r b n cn); [done|done| |done]. intros x Hx. right. by apply Hr.
Qed.

Lemma z_map_put_refines t b c :
  map_wf t -> dom b -> z_map_put (enc kv t) b c = Ok (enc kv (map_put t (b, c))).
Proof.
  intros Hwf Db. induction t as [|[p q] l IHl r IHr]; [done|].
  destruct Hwf as (Dn & Hl & Hr & Wl & Wr). specialize (IHl Wl). specialize (IHr Wr).
  cbn [enc tput z_map_put T kv fst snd uncell2 mbind outcome_bind] in *.
  case_decide as E0; [done|clear E0].
  destruct (decide (b = p)) as [->|Hne].
  { destruct (decide (c = q)) as [->|]; done. }
  rewrite gor_tip_ok by done. cbn [mbind outcome_bind].
  destruct (gor b p) eqn:Hg.
  - rewrite IHl. cbn [mbind outcome_bind].
    destruct (map_put l (b, c)) as [|[cn cv] cl cr] eqn:Hput; [by apply put_not_Leaf in Hput|].
    cbn [enc T uncell3 uncell2 kv fst snd mbind outcome_bind].
    rewrite mor_tip_ok; [|done|by eapply (put_dom fst l (b, c) (cn, cv))|].
    + cbn [mbind outcome_bind]. by destruct (mor p cn).
    + eapply (put_root fst l (b, c) (p, q) (cn, cv)); [done|done| |done].
      intros x Hx. left. by apply Hl.
  - rewrite IHr. cbn [mbind outcome_bind].
    destruct (map_put r (b, c)) as [|[cn cv] cl cr] eqn:Hput; [by apply put_not_Leaf in Hput|].
    cbn [enc T uncell3 uncell2 kv fst snd mbind outcome_bind].
    rewrite mor_tip_ok; [|done|by eapply (put_dom fst r (b, c) (cn, cv))|].
    + cbn [mbind outcome_bind]. by destruct (mor p cn).
    + eapply (put_root fst r (b, c) (p, q) (cn, cv)); [done|done| |done].
      intros x Hx. right. by apply Hr.
Qed.

Lemma do_bif_refines t b :
  set_wf t -> dom b ->
  do_bif (enc id t) b = Ok (T [b; enc id (set_split t b).1; enc id (set_split t b).2]).
Proof.
  intros Hwf Db. induction t as [|n l IHl r IHr]; [done|].
  destruct Hwf as (Dn & _ & _ & Wl & Wr). specialize (IHl Wl). specialize (IHr Wr).
  cbn [enc tsplit do_bif T id] in *. case_decide as E0; [done|clear E0].
  destruct (decide (b = n)) as [->|Hne]; [done|].
  rewrite gor_tip_ok by done. cbn [mbind outcome_bind].
  destruct (gor b n) eqn:Hg.
  - rewrite IHl. by destruct (set_split l b) as [cl cr].
  - rewrite IHr. by destruct (set_split r b) as [cl cr].
Qed.

Lemma z_set_bif_refines t b :
  set_wf t -> dom b ->
  z_set_bif (enc id t) b = Ok (T [enc id (set_split t b).1; enc id (set_split t b).2]).
Proof. intros Hwf Db. unfold z_set_bif. by rewrite do_bif_refines. Qed.

Lemma dif_helper_Leaf e : dif_helper (D 0) e = Ok e.
Proof. by destruct e. Qed.
Lemma dif_helper_Node dn dl dr e :
  dif_helper (T [dn; dl; dr]) e =
  if decide (e = D 0) then Ok (T [dn; dl; dr])
  else match e with
  | NCell en (NCell el er) =>
      above ← mor_tip dn en;
      if (above : bool) then df ← dif_helper dr e; Ok (T [dn; dl; df])
      else df ← dif_helper (T [dn; dl; dr]) el; Ok (T [en; df; er])
  | _ => Err (JetFail BAIL_EXIT)
  end.
Proof. by destruct e as [|? [|]]. Qed.

Lemma dif_helper_refines d e :
  set_wf d -> set_wf e -> (forall x y, mem x d -> mem y e -> gor x y = true) ->
  dif_helper (enc id d) (enc id e) = Ok (enc id (set_merge d e)).
Proof.
  revert e. induction d as [|dn dl _ dr IHdr]; intros e Wd We Hlt.
  { rewrite tmerge_Leaf_l. apply dif_helper_Leaf. }
  induction e as [|en el IHel er _].
  { rewrite tmerge_Leaf_r. cbn [enc id]. by rewrite dif_helper_Node, decide_True. }
  rewrite tmerge_Node. pose proof Wd as (Dd & _ & _ & _ & Wdr). pose proof We as (De & _ & _ & Wel & _).
  cbn [enc id]. rewrite dif_helper_Node, decide_False by done. cbn [T].
  rewrite mor_tip_ok; [|done|done|]; cbn [mbind outcome_bind].
  - destruct (mor dn en) eqn:Hm.
    + change (NCell en (NCell (enc id el) (enc id er))) with (enc id (Node en el er)).
      rewrite IHdr; [done|done|done|]. intros x y Hx Hy. apply Hlt; [by right; right|done].
    + change (NCell dn (NCell (enc id dl) (enc id dr))) with (enc id (Node dn dl dr)).
      rewrite IHel; [done|done|]. intros x y Hx Hy. apply Hlt; [done|by right; left].
  - intros <-. specialize (Hlt dn dn ltac:(by left) ltac:(by left)). by rewrite so_irrefl in Hlt.
Qed.

(** * What the routines compute *)

(** Membership of a noun in a tree of nouns, and the treaps with given elements *)
Definition is_zset (s : noun) (elems : noun -> Prop) : Prop :=
  exists t, s = enc id t /\ set_wf t /\ forall x, mem x t <-> elems x.
Definition is_zmap (m : noun) (entries : noun * noun -> Prop) : Prop :=
  exists t, m = enc kv t /\ map_wf t /\ forall e, mem e t <-> entries e.

(** A set has one representation. *)
Lemma is_zset_unique s1 s2 P1 P2 :
  is_zset s1 P1 -> is_zset s2 P2 -> (forall x, P1 x <-> P2 x) -> s1 = s2.
Proof.
  intros (t1 & -> & W1 & M1) (t2 & -> & W2 & M2) HP. f_equal.
  apply (treap_unique (fun n : noun => n) dom gor mor); [done|done|]. intros x.
  by rewrite M1, M2.
Qed.
Lemma is_zmap_unique s1 s2 P1 P2 :
  is_zmap s1 P1 -> is_zmap s2 P2 -> (forall x, P1 x <-> P2 x) -> s1 = s2.
Proof.
  intros (t1 & -> & W1 & M1) (t2 & -> & W2 & M2) HP. f_equal.
  apply (treap_unique (fst : noun * noun -> noun) dom gor mor); [done|done|]. intros x.
  by rewrite M1, M2.
Qed.

Lemma z_set_put_spec s P b :
  is_zset s P -> dom b -> exists s', z_set_put s b = Ok s' /\ is_zset s' (fun x => x = b \/ P x).
Proof.
  intros (t & -> & Wt & Mt) Db. eexists. split; [by apply z_set_put_refines|].
  exists (set_put t b). split; [done|]. split; [by apply (wf_tput (fun n : noun => n) dom gor mor)|]. intros x.
  rewrite (tput_elements (fun n : noun => n) dom gor mor) by done. rewrite Mt.
  destruct (decide (x = b)); naive_solver.
Qed.

Lemma z_map_put_spec m P b c :
  is_zmap m P -> dom b ->
  exists m', z_map_put m b c = Ok m' /\ is_zmap m' (fun e => e = (b, c) \/ (P e /\ e.1 <> b)).
Proof.
  intros (t & -> & Wt & Mt) Db. eexists. split; [by apply z_map_put_refines|].
  exists (map_put t (b, c)). split; [done|]. split; [by apply (wf_tput fst dom gor mor)|]. intros x.
  rewrite (tput_elements fst dom gor mor) by done. by rewrite Mt.
Qed.

Lemma z_set_dif_spec s1 s2 P1 P2 :
  is_zset s1 P1 -> is_zset s2 P2 ->
  exists s, z_set_dif s1 s2 = Ok s /\ is_zset s (fun x => P1 x /\ ~ P2 x).
Proof.
  intros (a & -> & Wa & Ma) (b & -> & Wb & Mb).
  assert (Hdif : exists t, z_set_dif (enc id a) (enc id b) = Ok (enc id t) /\ set_wf t /\
    forall x, mem x t <-> mem x a /\ ~ mem x b).
  { clear P1 P2 Ma Mb. revert a Wa. induction b as [|n l IHl r IHr]; intros a Wa.
    { exists a. split; [by destruct (enc id a)|]. split; [done|]. simpl. tauto. }
    destruct Wb as (Dn & Hl & Hr & Wl & Wr).
    cbn [enc z_set_dif T id]. rewrite decide_False by done.
    rewrite z_set_bif_refines by done.
    pose proof (tsplit_spec (fun n : noun => n) dom gor mor a n Wa Dn) as Hsp.
    destruct (set_split a n) as [cl cr]. destruct Hsp as (Wcl & Wcr & Mcl & Mcr).
    cbn [T mbind outcome_bind uncell2 fst snd].
    destruct (IHl Wl cl Wcl) as (d & Ed & Wd & Md). destruct (IHr Wr cr Wcr) as (e & Ee & We & Me).
    rewrite Ed. cbn [mbind outcome_bind]. rewrite Ee. cbn [mbind outcome_bind].
    assert (Hde : forall x y, mem x d -> mem y e -> gor x y = true).
    { intros x y Hx Hy. apply Md in Hx as [[Hx Hxn]%Mcl _]. apply Me in Hy as [[Hy Hyn]%Mcr _].
      apply (so_trans x n y); [by apply (set_dom a)|done|by apply (set_dom a)|done..]. }
    exists (set_merge d e). split; [by apply dif_helper_refines|].
    destruct (tmerge_spec (fun n : noun => n) dom gor mor d e Wd We Hde) as [Wm Mm].
    split; [done|]. intros x. rewrite Mm, Md, Me, Mcl, Mcr. cbn [mem].
    assert (Hx : mem x a -> x <> n -> gor x n = true \/ gor n x = true).
    { intros Hx Hne. apply so_total; [|done..]. by apply (set_dom a). }
    assert (Hno : mem x a -> gor x n = true -> gor n x = true -> False).
    { intros Hxa. apply (so_asym dom gor); [|done]. by apply (set_dom a). }
    assert (Hirr : gor n n = true -> False) by (rewrite so_irrefl by done; done).
    pose proof (Hl x). pose proof (Hr x). destruct (decide (x = n)) as [->|]; tauto. }
  destruct Hdif as (t & Et & Wt & Mt). exists (enc id t). split; [done|]. exists t.
  split; [done|]. split; [done|]. intros x. by rewrite Mt, Ma, Mb.
Qed.
End laws.

Definition z_set_puts {hasher : TipHasher} (xs : list noun) : outcome JetErr noun :=
  foldl (fun acc b => s ← acc; z_set_put s b) (Ok (D 0)) xs.

Lemma z_set_puts_spec {hasher : TipHasher} {dom : noun -> Prop} `{HL : !TipLaws hasher dom} xs s P :
  is_zset s P -> (forall x, x ∈ xs -> dom x) ->
  exists s', foldl (fun acc b => s ← acc; z_set_put s b) (Ok s) xs = Ok s' /\
             is_zset s' (fun x => x ∈ xs \/ P x).
Proof.
  revert s P. induction xs as [|b xs IH]; intros s P Hs Hd; simpl.
  { exists s. split; [done|]. destruct Hs as (t & -> & Wt & Mt). exists t. repeat split; [done|..].
    - rewrite Mt. auto.
    - rewrite Mt. rewrite elem_of_nil. tauto. }
  destruct (z_set_put_spec s P b) as (s1 & E1 & H1); [done|apply Hd; by left|].
  cbn [mbind outcome_bind]. rewrite E1.
  destruct (IH s1 _ H1) as (s2 & E2 & t & -> & Wt & Mt); [intros x Hx; apply Hd; by right|].
  exists (enc id t). split; [done|]. exists t. split; [done|]. split; [done|]. intros x.
  rewrite Mt, elem_of_cons. tauto.
Qed.

Lemma is_zset_empty {hasher : TipHasher} {dom : noun -> Prop} `{HL : !TipLaws hasher dom} :
  is_zset (D 0) (fun _ => False).
Proof. by exists Leaf. Qed.

(** C28: however the elements of a z-set are inserted, in any order and with any
    repetitions, [z_set_put] succeeds and builds the same noun, the treap whose
    members are those elements, as long as the hasher does not collide on them. *)
Theorem z_set_canonical {hasher : TipHasher} (dom : noun -> Prop) `{HL : !TipLaws hasher dom} xs ys :
  (forall x, x ∈ xs -> dom x) -> (forall x, x ∈ ys <-> x ∈ xs) ->
  exists s, z_set_puts xs = Ok s /\ z_set_puts ys = Ok s /\ is_zset s (fun x => x ∈ xs).
Proof.
  intros Hd Hxy.
  destruct (z_set_puts_spec xs _ _ is_zset_empty Hd) as (s & E1 & H1).
  destruct (z_set_puts_spec ys _ _ is_zset_empty) as (s' & E2 & H2).
  { intros x Hx. by apply Hd, Hxy. }
  exists s. split; [done|]. split.
  - unfold z_set_puts. rewrite E2. f_equal. apply (is_zset_unique _ _ _ _ H2 H1). intros x. by rewrite Hxy.
  - destruct H1 as (t & -> & Wt & Mt). exists t. split; [done|]. split; [done|]. intros x. rewrite Mt. tauto.
Qed.

(** C29: [z_set_dif] of two z-sets is the z-set of the elements of the first that
    are not in the second, in its canonical representation. *)
Theorem z_set_dif_correct {hasher : TipHasher} (dom : noun -> Prop) `{HL : !TipLaws hasher dom} a b A B :
  is_zset a A -> is_zset b B ->
  exists s, z_set_dif a b = Ok s /\ is_zset s (fun x => A x /\ ~ B x) /\
            forall s', is_zset s' (fun x => A x /\ ~ B x) -> s' = s.
Proof.
  intros Ha Hb. destruct (z_set_dif_spec a b A B Ha Hb) as (s & E1 & Hs). exists s.
  split; [done|]. split; [done|]. intros s' Hs'. by apply (is_zset_unique _ _ _ _ Hs' Hs).
Qed.

(** [z_map_put] binds the key and keeps the entries of every other key;
    bindings of different keys commute and a second binding of the same key
    replaces the first, as equalities of the resulting nouns. *)
Theorem z_map_put_correct {hasher : TipHasher} (dom : noun -> Prop) `{HL : !TipLaws hasher dom} m P k v :
  is_zmap m P -> dom k ->
  exists m', z_map_put m k v = Ok m' /\ is_zmap m' (fun e => e = (k, v) \/ (P e /\ e.1 <> k)) /\
  (forall v', z_map_put m' k v' = z_map_put m k v') /\
  (forall k' v' m'', dom k' -> k' <> k -> z_map_put m k' v' = Ok m'' ->
     z_map_put m' k' v' = z_map_put m'' k v).
Proof.
  intros Hm Hk. destruct (z_map_put_spec m P k v Hm Hk) as (m' & E1 & Hm'). exists m'.
  split; [done|]. split; [done|]. split.
  - intros v'. destruct (z_map_put_spec m P k v' Hm Hk) as (a & -> & Ha).
    destruct (z_map_put_spec m' _ k v' Hm' Hk) as (b & -> & Hb). f_equal.
    apply (is_zmap_unique _ _ _ _ Hb Ha). intros [x y]. simpl. naive_solver.
  - intros k' v' m'' Hk' Hne E2. destruct (z_map_put_spec m P k' v' Hm Hk') as (a & E3 & Ha).
    rewrite E3 in E2. injection E2 as <-.
    destruct (z_map_put_spec m' _ k' v' Hm' Hk') as (b & -> & Hb).
    destruct (z_map_put_spec a _ k v Ha Hk) as (c & -> & Hc). f_equal.
    apply (is_zmap_unique _ _ _ _ Hb Hc). intros [x y]. simpl. naive_solver.
Qed.

(** The tie-break [dor_tip] is not the order of the Hoon library it mirrors:
    on distinct direct atoms it is the reverse of [lth], and it orders an atom
    neither before nor after a cell (Hoon puts the atom first), so it is not total. *)
Theorem dor_tip_wrong x y h t :
  x <> y ->
  dor_tip (D x) (D y) = (y <? x) /\
  dor_tip (D x) (NCell h t) = false /\ dor_tip (NCell h t) (D x) = false.
Proof.
  intros Hne. unfold D. cbn [dor_tip]. rewrite decide_False by congruence. split; [|done].
  unfold lth, lth_b, loob, YES, NO. destruct (Z.ltb_spec x y); case_bool_decide; destruct (Z.ltb_spec y x); try done; lia.
Qed.

Lemma dor_tip_wrong_witness : dor_tip (D 1) (D 2) = false.
Proof. exact (proj1 (dor_tip_wrong 1 2 (D 0) (D 0) ltac:(lia))). Defined.

(** * The Tip5 hasher on concrete keys *)

Definition small (n : noun) : Prop := n = D 1 \/ n = D 2.
Definition small_digest (n : noun) : list Z :=
  if decide (n = D 1) then
    [6727110957294540849; 15606243244732609007; 11887284596344881785; 10646863421881571398; 8146872807338919620]
  else
    [18231555041488428999; 5063297683814298723; 5930591443922689894; 7724548256996479859; 11211780738083075004].
Definition small_ddigest (n : noun) : list Z :=
  if decide (n = D 1) then
    [6747336176473181167; 4585781975441773750; 17559854549958230721; 818062297507640176; 13774900032983863453]
  else
    [10859381309495191524; 6510283231318493496; 11285017227985209544; 18086270613006108948; 1263077742236678962].

Lemma small_tip n : small n -> tip_hash_noun_varlen (TipHasher := DefaultTipHasher) n = Ok (small_digest n).
Proof.
  intros [->| ->].
  - vm_cast_no_check (@eq_refl (outcome JetErr (list Z)) (Ok (small_digest (D 1)))).
  - vm_cast_no_check (@eq_refl (outcome JetErr (list Z)) (Ok (small_digest (D 2)))).
Qed.

Lemma small_ten n :
  small n ->
  hash_ten_cell (TipHasher := DefaultTipHasher) (small_digest n ++ small_digest n) = Ok (small_ddigest n).
Proof.
  intros [->| ->].
  - vm_cast_no_check (@eq_refl (outcome JetErr (list Z)) (Ok (small_ddigest (D 1)))).
  - vm_cast_no_check (@eq_refl (outcome JetErr (list Z)) (Ok (small_ddigest (D 2)))).
Qed.

Global Instance small_TipLaws : TipLaws DefaultTipHasher small.
Proof.
  refine {| digest := small_digest; ddigest := small_ddigest |}.
  - apply small_tip.
  - intros n Hn. unfold double_tip. rewrite small_tip by done. apply small_ten. done.
  - by intros n [->| ->].
  - by intros n [->| ->].
  - intros a b [->| ->] [->| ->]; [done| | |done]; intros E1; exfalso; revert E1; vm_compute; congruence.
  - intros a b [->| ->] [->| ->]; [done| | |done]; intros E1; exfalso; revert E1; vm_compute; congruence.
Defined.

Lemma small_elems x : x ∈ [D 1; D 2] -> small x.
Proof. rewrite !elem_of_cons, elem_of_nil. unfold small. tauto. Qed.

Lemma z_set_canonical_witness :
  exists s, z_set_puts (hasher := DefaultTipHasher) [D 1; D 2] = Ok s /\
            z_set_puts (hasher := DefaultTipHasher) [D 2; D 1; D 2] = Ok s.
Proof.
  destruct (z_set_canonical (hasher := DefaultTipHasher) small [D 1; D 2] [D 2; D 1; D 2])
    as (s & E1 & E2 & _).
  - apply small_elems.
  - intros x. rewrite !elem_of_cons, elem_of_nil. tauto.
  - exact (ex_intro _ s (conj E1 E2)).
Defined.

Lemma small_single x : small x -> is_zset (hasher := DefaultTipHasher) (dom := small) (T [x; D 0; D 0]) (fun y => y = x).
Proof. intros Hx. exists (Node x Leaf Leaf). split; [done|]. split; [done|]. simpl. tauto. Qed.

Lemma z_set_dif_correct_witness :
  exists s, z_set_dif (hasher := DefaultTipHasher) (T [D 1; D 0; D 0]) (T [D 2; D 0; D 0]) = Ok s.
Proof.
  destruct (z_set_dif_correct (hasher := DefaultTipHasher) small (T [D 1; D 0; D 0]) (T [D 2; D 0; D 0]) (fun x => x = D 1) (fun x => x = D 2))
    as (s & E1 & _).
  - apply small_single. by left.
  - apply small_single. by right.
  - exact (ex_intro _ s E1).
Defined.

Lemma z_map_put_correct_witness :
  exists m, z_map_put (hasher := DefaultTipHasher) (D 0) (D 1) (D 7) = Ok m /\
            z_map_put (hasher := DefaultTipHasher) m (D 1) (D 8) = Ok (T [T [D 1; D 8]; D 0; D 0]).
Proof.
  destruct (z_map_put_correct (hasher := DefaultTipHasher) small (D 0) (fun _ => False) (D 1) (D 7)) as (m & E1 & _ & E2 & _).
  - by exists Leaf.
  - by left.
  - exists m. split; [exact E1|]. rewrite E2. vm_compute. reflexivity.
Defined.

(** [rep_fold] visits the entries of a tree in preorder. *)
Fixpoint preorder {E} (t : tree E) : list E :=
  match t with Leaf => [] | Node n l r => n :: preorder l ++ preorder r end.

Lemma rep_fold_preorder {E} (f : E -> noun) reducer t acc :
  rep_fold reducer (enc f t) acc =
  foldl (fun acc e => a ← acc; reducer (f e) a) (Ok acc) (preorder t).
Proof.
  assert (Hstuck : forall l m, (forall a, m <> Ok a) ->
    foldl (fun acc e => a ← acc; reducer (f e) a) m l = m).
  { induction l as [|e l IHl]; intros m Hm; simpl; [done|].
    assert (Hb : mbind (M := outcome JetErr) (fun a => reducer (f e) a) m = m).
    { destruct m; try done. by destruct (Hm a). }
    rewrite Hb. by apply IHl. }
  revert acc. induction t as [|n l IHl r IHr]; intros acc; [done|].
  cbn [enc rep_fold T preorder foldl]. rewrite decide_False by done. rewrite foldl_app.
  cbn [mbind outcome_bind]. destruct (reducer (f n) acc) as [a| |]; cbn [mbind outcome_bind];
    [|by rewrite (Hstuck (preorder l)), Hstuck by (intros ?; discriminate)..].
  rewrite <-IHl. destruct (rep_fold reducer (enc f l) a) as [b| |]; cbn [mbind outcome_bind];
    [|by rewrite Hstuck by (intros ?; discriminate)..].
  apply IHr.
Qed.
