(* ===== verification/Hamt.v ===== *)
(** The hash array mapped tries of crates/nockvm/rust/nockvm/src/hamt.rs: the
    mutable [MutHamt] with its 32-slot stems and the persistent [Hamt] with its
    buffers compressed by a bitmap.

    Both tries run the same loop over a stem; [StemOps] is the interface of a stem
    and [StemLaws] what the loop needs of it.  The unions of the source are
    inductive entries: reading the member that was not written is [None], so the
    theorems show that it never happens.  [unifying_equality] decides equality of
    nouns (its sharing of equal nouns is not visible here). *)
From stdpp Require Import base option list numbers.
From Stdlib Require Import ZArith Lia.
From S2P Require Import Prelude Noun.

(** * Interface of a map from nouns, as its clients use it *)
Class NounMap (M : Type -> Type) := {
  map_new {V} : M V;
  map_lookup {V} : M V -> noun -> option (option V);
  map_insert {V} : M V -> noun -> V -> option (M V);
}.
Class NounMapLaws (M : Type -> Type) `{!NounMap M} := {
  map_ok {V} : M V -> Prop;
  map_new_ok {V} : map_ok (map_new : M V);
  map_lookup_new {V} k : map_lookup (map_new : M V) k = Some None;
  map_lookup_ok {V} (m : M V) k : map_ok m -> is_Some (map_lookup m k);
  map_insert_ok {V} (m : M V) k v : map_ok m ->
    exists m', map_insert m k v = Some m' /\ map_ok m' /\
      forall k', map_lookup m' k' = if decide (k' = k) then Some (Some v) else map_lookup m k';
}.

(** * Bits and leaves *)

Definition chunk_to_bit (chunk : Z) : Z := wrap32 (Z.shiftl 1 chunk).
Definition chunk_to_mask (chunk : Z) : Z := chunk_to_bit chunk - 1.
(** [!x] on [u32] *)
Definition not32 (x : Z) : Z := U32 - 1 - x.

Definition is_chunk (c : Z) : Prop := 0 <= c < 32.

Section leaf.
Context {V : Type}.

(** [Leaf]: the slice of its pairs *)
Definition Leaf := list (noun * V).

Fixpoint leaf_lookup (l : Leaf) (n : noun) : option V :=
  match l with
  | [] => None
  | p :: l => if decide (n = p.1) then Some p.2 else leaf_lookup l n
  end.

(** The scan of [insert] that overrides the value of an existing key *)
Fixpoint leaf_override (l : Leaf) (n : noun) (t : V) : option Leaf :=
  match l with
  | [] => None
  | p :: l =>
      if decide (n = p.1) then Some ((p.1, t) :: l)
      else (cons p) <$> leaf_override l n t
  end.
End leaf.
Arguments Leaf V : clear implicits.

(** * The loops *)

Class StemOps (St : Type) (V : Type) := {
  stem_empty : St;
  (** [entry]: no entry, a stem or a leaf; [None] is the wrong union member *)
  stem_entry : St -> Z -> option (option (St + Leaf V));
  (** a leaf where there was no entry *)
  stem_add_leaf : St -> Z -> Leaf V -> St;
  (** a new leaf in place of a leaf *)
  stem_set_leaf : St -> Z -> Leaf V -> St;
  (** a new stem in place of a stem *)
  stem_set_stem : St -> Z -> St -> St;
  (** a stem in place of a leaf *)
  stem_leaf_to_stem : St -> Z -> St -> St;
  (** the stem with one leaf *)
  stem_single : Z -> Leaf V -> St;
}.

Section loops.
Context {St V : Type} `{!StemOps St V} (mug_u32 : noun -> Z).

(** [lookup]; the stems are at most six deep. *)
Fixpoint lookup_loop (fuel : nat) (stem : St) (mug : Z) (n : noun) : option (option V) :=
  match fuel with
  | O => None
  | S fuel =>
      let chunk := Z.land mug 31 in
      let mug := Z.shiftr mug 5 in
      match stem_entry stem chunk with
      | None => None
      | Some None => Some None
      | Some (Some (inl next_stem)) => lookup_loop fuel next_stem mug n
      | Some (Some (inr leaf)) => Some (leaf_lookup leaf n)
      end
  end.

(** [insert]: the stem after the insertion; [assert!(leaf.len == 1)] panics. *)
Fixpoint insert_loop (fuel : nat) (depth : Z) (stem : St) (mug : Z) (n : noun) (t : V) : option St :=
  match fuel with
  | O => None
  | S fuel =>
      let chunk := Z.land mug 31 in
      let mug := Z.shiftr mug 5 in
      match stem_entry stem chunk with
      | None => None
      | Some None => Some (stem_add_leaf stem chunk [(n, t)])
      | Some (Some (inl next_stem)) =>
          next_stem ← insert_loop fuel (depth + 1) next_stem mug n t;
          Some (stem_set_stem stem chunk next_stem)
      | Some (Some (inr leaf)) =>
          match leaf_override leaf n t with
          | Some leaf => Some (stem_set_leaf stem chunk leaf)
          | None =>
              if 5 <=? depth then Some (stem_set_leaf stem chunk (leaf ++ [(n, t)]))
              else match leaf with
              | [p] =>
                  let leaf_mug := mug_u32 p.1 in
                  let leaf_chunk := Z.land (Z.shiftr leaf_mug ((depth + 1) * 5)) 31 in
                  new_stem ← insert_loop fuel (depth + 1) (stem_single leaf_chunk leaf) mug n t;
                  Some (stem_leaf_to_stem stem chunk new_stem)
              | _ => None
              end
          end
      end
  end.
End loops.

(** Six levels of five bits: deeper stems do not exist. *)
Definition MAX_STEMS : nat := 6.

(** * Mutable tries *)

Inductive MutStem (V : Type) :=
  | MkMutStem (bitmap typemap : Z) (buffer : list (MutEntry V))
with MutEntry (V : Type) :=
  | MutUninit
  | MutStemEntry (stem : MutStem V)
  | MutLeafEntry (leaf : Leaf V).
Arguments MkMutStem {V} bitmap typemap buffer.
Arguments MutUninit {V}.
Arguments MutStemEntry {V} stem.
Arguments MutLeafEntry {V} leaf.

Section mut_stem.
Context {V : Type}.

Definition mut_bitmap (s : MutStem V) : Z := let 'MkMutStem b _ _ := s in b.
Definition mut_typemap (s : MutStem V) : Z := let 'MkMutStem _ t _ := s in t.
Definition mut_buffer (s : MutStem V) : list (MutEntry V) := let 'MkMutStem _ _ b := s in b.

Definition mut_has_index (s : MutStem V) (chunk : Z) : bool :=
  negb (Z.land (mut_bitmap s) (chunk_to_bit chunk) =? 0).

Definition mut_entry (s : MutStem V) (chunk : Z) : option (option (MutStem V + Leaf V)) :=
  if mut_has_index s chunk then
    if negb (Z.land (mut_typemap s) (chunk_to_bit chunk) =? 0) then
      match mut_buffer s !! Z.to_nat chunk with
      | Some (MutStemEntry stem) => Some (Some (inl stem))
      | _ => None
      end
    else
      match mut_buffer s !! Z.to_nat chunk with
      | Some (MutLeafEntry leaf) => Some (Some (inr leaf))
      | _ => None
      end
  else Some None.

Definition mut_empty : MutStem V := MkMutStem 0 0 (replicate 32 MutUninit).

Definition mut_add_leaf (s : MutStem V) (chunk : Z) (leaf : Leaf V) : MutStem V :=
  MkMutStem (Z.lor (mut_bitmap s) (chunk_to_bit chunk))
            (Z.land (mut_typemap s) (not32 (chunk_to_bit chunk)))
            (<[Z.to_nat chunk := MutLeafEntry leaf]> (mut_buffer s)).
Definition mut_set_leaf (s : MutStem V) (chunk : Z) (leaf : Leaf V) : MutStem V :=
  MkMutStem (mut_bitmap s) (mut_typemap s) (<[Z.to_nat chunk := MutLeafEntry leaf]> (mut_buffer s)).
Definition mut_set_stem (s : MutStem V) (chunk : Z) (stem : MutStem V) : MutStem V :=
  MkMutStem (mut_bitmap s) (mut_typemap s) (<[Z.to_nat chunk := MutStemEntry stem]> (mut_buffer s)).
Definition mut_leaf_to_stem (s : MutStem V) (chunk : Z) (stem : MutStem V) : MutStem V :=
  MkMutStem (mut_bitmap s) (Z.lor (mut_typemap s) (chunk_to_bit chunk))
            (<[Z.to_nat chunk := MutStemEntry stem]> (mut_buffer s)).
Definition mut_single (leaf_chunk : Z) (leaf : Leaf V) : MutStem V :=
  MkMutStem (chunk_to_bit leaf_chunk) 0
            (<[Z.to_nat leaf_chunk := MutLeafEntry leaf]> (replicate 32 MutUninit)).

Global Instance mut_ops : StemOps (MutStem V) V := {|
  stem_empty := mut_empty;
  stem_entry := mut_entry;
  stem_add_leaf := mut_add_leaf;
  stem_set_leaf := mut_set_leaf;
  stem_set_stem := mut_set_stem;
  stem_leaf_to_stem := mut_leaf_to_stem;
  stem_single := mut_single;
|}.
End mut_stem.

(** * Persistent tries *)

Inductive Stem (V : Type) :=
  | MkStem (bitmap typemap : Z) (buffer : list (Entry V))
with Entry (V : Type) :=
  | StemEntry (stem : Stem V)
  | LeafEntry (leaf : Leaf V).
Arguments MkStem {V} bitmap typemap buffer.
Arguments StemEntry {V} stem.
Arguments LeafEntry {V} leaf.

(** [u32::count_ones] *)
Definition ones (bs : list bool) : nat := length (filter (fun b => b = true) bs).
Definition count_ones (x : Z) : nat := ones (bits_of 32 x).

Section stem.
Context {V : Type}.

Definition bitmap (s : Stem V) : Z := let 'MkStem b _ _ := s in b.
Definition typemap (s : Stem V) : Z := let 'MkStem _ t _ := s in t.
Definition buffer (s : Stem V) : list (Entry V) := let 'MkStem _ _ b := s in b.

Definition size (s : Stem V) : nat := count_ones (bitmap s).
Definition has_index (s : Stem V) (chunk : Z) : bool :=
  negb (Z.land (bitmap s) (chunk_to_bit chunk) =? 0).
Definition hypothetical_index (s : Stem V) (chunk : Z) : nat :=
  count_ones (Z.land (bitmap s) (chunk_to_mask chunk)).
Definition index (s : Stem V) (chunk : Z) : option nat :=
  if has_index s chunk then Some (hypothetical_index s chunk) else None.

Definition entry (s : Stem V) (chunk : Z) : option (option (Stem V + Leaf V)) :=
  match index s chunk with
  | None => Some None
  | Some idx =>
      if negb (Z.land (typemap s) (chunk_to_bit chunk) =? 0) then
        match buffer s !! idx with
        | Some (StemEntry stem) => Some (Some (inl stem))
        | _ => None
        end
      else
        match buffer s !! idx with
        | Some (LeafEntry leaf) => Some (Some (inr leaf))
        | _ => None
        end
  end.

Definition Stem_new : Stem V := MkStem 0 0 [].

(** The new buffer is the old one with the leaf at [split]. *)
Definition add_leaf (s : Stem V) (chunk : Z) (leaf : Leaf V) : Stem V :=
  let split := hypothetical_index s chunk in
  MkStem (Z.lor (bitmap s) (chunk_to_bit chunk))
         (Z.land (typemap s) (not32 (chunk_to_bit chunk)))
         (take split (buffer s) ++ LeafEntry leaf :: take (size s - split) (drop split (buffer s))).
(** [new_buffer] is a copy of the [size] entries. *)
Definition set_entry (s : Stem V) (chunk : Z) (e : Entry V) : list (Entry V) :=
  <[hypothetical_index s chunk := e]> (take (size s) (buffer s)).
Definition set_leaf (s : Stem V) (chunk : Z) (leaf : Leaf V) : Stem V :=
  MkStem (bitmap s) (typemap s) (set_entry s chunk (LeafEntry leaf)).
Definition set_stem (s : Stem V) (chunk : Z) (stem : Stem V) : Stem V :=
  MkStem (bitmap s) (typemap s) (set_entry s chunk (StemEntry stem)).
Definition leaf_to_stem (s : Stem V) (chunk : Z) (stem : Stem V) : Stem V :=
  MkStem (bitmap s) (Z.lor (typemap s) (chunk_to_bit chunk)) (set_entry s chunk (StemEntry stem)).
Definition single (fake_chunk : Z) (leaf : Leaf V) : Stem V :=
  MkStem (chunk_to_bit fake_chunk) 0 [LeafEntry leaf].

Global Instance stem_ops : StemOps (Stem V) V := {|
  stem_empty := Stem_new;
  stem_entry := entry;
  stem_add_leaf := add_leaf;
  stem_set_leaf := set_leaf;
  stem_set_stem := set_stem;
  stem_leaf_to_stem := leaf_to_stem;
  stem_single := single;
|}.

(** [Hamt::is_null] *)
Definition is_null (s : Stem V) : bool := bitmap s =? 0.
End stem.

(** The operations as the clients call them *)
Section api.
Context {V : Type} (mug_u32 : noun -> Z).
Definition MutHamt_new : MutStem V := stem_empty.
Definition MutHamt_lookup (h : MutStem V) (n : noun) : option (option V) :=
  lookup_loop MAX_STEMS h (mug_u32 n) n.
Definition MutHamt_insert (h : MutStem V) (n : noun) (t : V) : option (MutStem V) :=
  insert_loop mug_u32 MAX_STEMS 0 h (mug_u32 n) n t.
Definition Hamt_new : Stem V := stem_empty.
Definition Hamt_lookup (h : Stem V) (n : noun) : option (option V) :=
  lookup_loop MAX_STEMS h (mug_u32 n) n.
Definition Hamt_insert (h : Stem V) (n : noun) (t : V) : option (Stem V) :=
  insert_loop mug_u32 MAX_STEMS 0 h (mug_u32 n) n t.
End api.
