(* ===== verification/HamtTheorems.v ===== *)
(** Both tries of Hamt.v are maps from nouns: what an insertion puts in is what a
    lookup finds, no assertion fails, no union member is misread and six levels
    are enough. *)
From stdpp Require Import base option list numbers.
From Stdlib Require Import ZArith Lia.
From S2P Require Import Prelude Noun Hamt.

(** * What the loops need of a stem *)

Class StemLaws (St V : Type) `{!StemOps St V} := {
  stem_ok : St -> Prop;
  stem_empty_ok : stem_ok stem_empty;
  entry_empty c : is_chunk c -> stem_entry stem_empty c = Some None;
  add_leaf_ok s c l : stem_ok s -> is_chunk c -> stem_entry s c = Some None ->
    stem_ok (stem_add_leaf s c l) /\
    forall c', is_chunk c' -> stem_entry (stem_add_leaf s c l) c' =
      if decide (c' = c) then Some (Some (inr l)) else stem_entry s c';
  set_leaf_ok s c l l' : stem_ok s -> is_chunk c -> stem_entry s c = Some (Some (inr l)) ->
    stem_ok (stem_set_leaf s c l') /\
    forall c', is_chunk c' -> stem_entry (stem_set_leaf s c l') c' =
      if decide (c' = c) then Some (Some (inr l')) else stem_entry s c';
  set_stem_ok s c t t' : stem_ok s -> is_chunk c -> stem_entry s c = Some (Some (inl t)) ->
    stem_ok (stem_set_stem s c t') /\
    forall c', is_chunk c' -> stem_entry (stem_set_stem s c t') c' =
      if decide (c' = c) then Some (Some (inl t')) else stem_entry s c';
  leaf_to_stem_ok s c l t : stem_ok s -> is_chunk c -> stem_entry s c = Some (Some (inr l)) ->
    stem_ok (stem_leaf_to_stem s c t) /\
    forall c', is_chunk c' -> stem_entry (stem_leaf_to_stem s c t) c' =
      if decide (c' = c) then Some (Some (inl t)) else stem_entry s c';
  single_ok c l : is_chunk c ->
    stem_ok (stem_single c l) /\
    forall c', is_chunk c' -> stem_entry (stem_single c l) c' =
      if decide (c' = c) then Some (Some (inr l)) else Some None;
}.

Lemma land31_chunk x : is_chunk (Z.land x 31).
Proof. unfold is_chunk. change 31 with (Z.ones 5). rewrite Z.land_ones by lia. apply Z.mod_pos_bound. done. Qed.

(** * Leaves *)

Section leaves.
Context {V : Type}.
Implicit Types l : Leaf V.

Lemma leaf_override_None l n t : leaf_override l n t = None -> n ∉ l.*1.
Proof.
  induction l as [|[k v] l IH]; cbn [leaf_override fst fmap list_fmap]; [intros _ H; by apply elem_of_nil in H|].
  destruct (decide (n = k)); [done|]. destruct (leaf_override l n t); [done|].
  intros _. rewrite elem_of_cons. intros [|]; [done|by apply IH].
Qed.

Lemma leaf_override_Some l n t l' :
  leaf_override l n t = Some l' ->
  l'.*1 = l.*1 /\ forall n', leaf_lookup l' n' = if decide (n' = n) then Some t else leaf_lookup l n'.
Proof.
  revert l'. induction l as [|[k v] l IH]; intros l'; cbn [leaf_override fst]; [done|].
  destruct (decide (n = k)) as [->|Hne].
  - intros [= <-]. split; [done|]. intros n'. cbn [leaf_lookup fst snd].
    by destruct (decide (n' = k)).
  - destruct (leaf_override l n t) as [l1|]; [|done]. intros [= <-].
    destruct (IH l1 eq_refl) as [H1 H2]. split; [cbn; by rewrite H1|]. intros n'.
    cbn [leaf_lookup fst snd]. rewrite H2. destruct (decide (n' = k)), (decide (n' = n)); congruence.
Qed.

Lemma leaf_lookup_None l n : n ∉ l.*1 -> leaf_lookup l n = None.
Proof.
  induction l as [|[k v] l IH]; [done|]. cbn [leaf_lookup fst fmap list_fmap].
  rewrite not_elem_of_cons. intros [H1 H2]. destruct (decide (n = k)); [done|by apply IH].
Qed.

Lemma leaf_lookup_snoc l n t n' :
  n ∉ l.*1 -> leaf_lookup (l ++ [(n, t)]) n' = if decide (n' = n) then Some t else leaf_lookup l n'.
Proof.
  induction l as [|[k v] l IH]; cbn [leaf_lookup app fst snd fmap list_fmap]; [done|].
  rewrite not_elem_of_cons. intros [H1 H2]. rewrite IH by done.
  destruct (decide (n' = k)), (decide (n' = n)); congruence.
Qed.
End leaves.

(** * The trie *)

Section trie.
Context {St V : Type} `{!StemOps St V} `{!StemLaws St V} (mug_u32 : noun -> Z).

(** The bits of the hash that are left at a depth *)
Definition mug_at (d : Z) (k : noun) : Z := Z.shiftr (mug_u32 k) (d * 5).
Definition chunk_at (d : Z) (k : noun) : Z := Z.land (mug_at d k) 31.

Lemma mug_at_succ d k : 0 <= d -> Z.shiftr (mug_at d k) 5 = mug_at (d + 1) k.
Proof. intros. unfold mug_at. rewrite Z.shiftr_shiftr by lia. f_equal. lia. Qed.
Lemma mug_at_0 k : mug_at 0 k = mug_u32 k.
Proof. done. Qed.

(** A leaf at depth [5 - n]: only there may it hold several pairs. *)
Definition leaf_ok (n : nat) (P : noun -> Prop) (l : Leaf V) : Prop :=
  l <> [] /\ (forall k, k ∈ l.*1 -> P k) /\ NoDup l.*1 /\ (n <> O -> length l = 1%nat).

(** The invariant of a stem with [n] levels from it down; [P] holds of the keys
    whose path leads here. *)
Fixpoint trie_ok (n : nat) (d : Z) (P : noun -> Prop) (s : St) : Prop :=
  match n with
  | O => False
  | S n =>
      stem_ok s /\ forall c, is_chunk c ->
        match stem_entry s c with
        | None => False
        | Some None => True
        | Some (Some (inl s')) => trie_ok n (d + 1) (fun k => P k /\ chunk_at d k = c) s'
        | Some (Some (inr l)) => leaf_ok n (fun k => P k /\ chunk_at d k = c) l
        end
  end.

Lemma trie_ok_empty n d P : trie_ok (S n) d P stem_empty.
Proof. split; [apply stem_empty_ok|]. intros c Hc. by rewrite entry_empty. Qed.

Lemma trie_lookup_ok n d P s k : trie_ok n d P s -> 0 <= d -> is_Some (lookup_loop n s (mug_at d k) k).
Proof.
  revert d P s. induction n as [|n IH]; intros d P s Hs Hd; [done|]. destruct Hs as [_ Hs].
  cbn [lookup_loop]. specialize (Hs _ (land31_chunk (mug_at d k))).
  destruct (stem_entry s _) as [[[s'|l]|]|]; [|by eexists|by eexists|done].
  rewrite mug_at_succ by done. eapply IH; [done|lia].
Qed.

Definition insert_spec (n : nat) (d : Z) (P : noun -> Prop) (s : St) (k : noun) (v : V) : Prop :=
  exists s', insert_loop mug_u32 n d s (mug_at d k) k v = Some s' /\ trie_ok n d P s' /\
    forall k', P k' -> lookup_loop n s' (mug_at d k') k' =
      if decide (k' = k) then Some (Some v) else lookup_loop n s (mug_at d k') k'.

(** One slot of a stem changes: the lookups in the other slots do not. *)
Lemma slot_update n d P s s' k e :
  0 <= d -> P k -> trie_ok (S n) d P s -> stem_ok s' ->
  (forall c, is_chunk c -> stem_entry s' c = if decide (c = chunk_at d k) then Some (Some e) else stem_entry s c) ->
  match e with
  | inl t => trie_ok n (d + 1) (fun k' => P k' /\ chunk_at d k' = chunk_at d k) t
  | inr l => leaf_ok n (fun k' => P k' /\ chunk_at d k' = chunk_at d k) l
  end ->
  trie_ok (S n) d P s' /\
  forall k', P k' -> lookup_loop (S n) s' (mug_at d k') k' =
    if decide (chunk_at d k' = chunk_at d k) then
      match e with
      | inl t => lookup_loop n t (mug_at (d + 1) k') k'
      | inr l => Some (leaf_lookup l k')
      end
    else lookup_loop (S n) s (mug_at d k') k'.
Proof.
  intros Hd Hk [Hs0 Hs] Hs' He Hnew. split.
  - split; [done|]. intros c Hc. rewrite He by done. destruct (decide (c = chunk_at d k)) as [->|]; [|by apply Hs].
    by destruct e.
  - intros k' Hk'. cbn [lookup_loop]. fold (chunk_at d k'). rewrite He by apply land31_chunk.
    rewrite !mug_at_succ by done. destruct (decide (chunk_at d k' = chunk_at d k)); [|done].
    by destruct e.
Qed.

Lemma insert_leaf_slot n d (P : noun -> Prop) s s' k v l :
  0 <= d -> P k -> trie_ok (S n) d P s -> stem_ok s' ->
  (forall c, is_chunk c -> stem_entry s' c = if decide (c = chunk_at d k) then Some (Some (inr l)) else stem_entry s c) ->
  leaf_ok n (fun k' => P k' /\ chunk_at d k' = chunk_at d k) l ->
  (forall k', P k' -> chunk_at d k' = chunk_at d k ->
     Some (leaf_lookup l k') = if decide (k' = k) then Some (Some v) else lookup_loop (S n) s (mug_at d k') k') ->
  trie_ok (S n) d P s' /\
  forall k', P k' -> lookup_loop (S n) s' (mug_at d k') k' =
    if decide (k' = k) then Some (Some v) else lookup_loop (S n) s (mug_at d k') k'.
Proof.
  intros Hd Hk Hs Hs' He Hl Hlook.
  destruct (slot_update n d P s s' k (inr l)) as [H1 H2]; [done..|]. split; [done|].
  intros k' Hk'. rewrite H2 by done. destruct (decide (chunk_at d k' = chunk_at d k)) as [Ec|Ec].
  - by apply Hlook.
  - destruct (decide (k' = k)) as [->|]; [done|done].
Qed.

Lemma insert_subtree n d (P : noun -> Prop) s s' k v t' :
  0 <= d -> P k -> trie_ok (S n) d P s -> stem_ok s' ->
  (forall c, is_chunk c -> stem_entry s' c = if decide (c = chunk_at d k) then Some (Some (inl t')) else stem_entry s c) ->
  trie_ok n (d + 1) (fun k' => P k' /\ chunk_at d k' = chunk_at d k) t' ->
  (forall k', P k' -> chunk_at d k' = chunk_at d k ->
     lookup_loop n t' (mug_at (d + 1) k') k' = if decide (k' = k) then Some (Some v) else lookup_loop (S n) s (mug_at d k') k') ->
  trie_ok (S n) d P s' /\
  forall k', P k' -> lookup_loop (S n) s' (mug_at d k') k' =
    if decide (k' = k) then Some (Some v) else lookup_loop (S n) s (mug_at d k') k'.
Proof.
  intros Hd Hk Hs Hs' He Ht Hlook. destruct (slot_update n d P s s' k (inl t') Hd Hk Hs Hs' He Ht) as [H1 H2]. split; [done|].
  intros k' Hk'. rewrite H2 by done. destruct (decide (chunk_at d k' = chunk_at d k)) as [Ec|Ec]; [by apply Hlook|].
  by destruct (decide (k' = k)) as [->|].
Qed.

Lemma leaf_ok_keys n P (l l' : Leaf V) : leaf_ok n P l -> l'.*1 = l.*1 -> leaf_ok n P l'.
Proof.
  intros (Hne & HP & Hnd & Hlen) Hkeys. unfold leaf_ok. rewrite Hkeys. split_and!; try done.
  - intros ->. destruct l; [done|]. simpl in Hkeys. discriminate.
  - intros H. rewrite <- (Hlen H), <- (length_fmap fst l), <- Hkeys. by rewrite length_fmap.
Qed.

Lemma leaf_ok_snoc P (l : Leaf V) k v : leaf_ok O P l -> k ∉ l.*1 -> P k -> leaf_ok O P (l ++ [(k, v)]).
Proof.
  intros (Hne & HP & Hnd & _) Hnin Hk. unfold leaf_ok. rewrite fmap_app. split_and!; [by destruct l| | |done].
  - intros k' [Hk'|Hk'%list_elem_of_singleton]%elem_of_app; [by apply HP|by subst].
  - apply list.NoDup_app. split_and!; [done| |apply NoDup_singleton]. by intros k' Hk' ->%list_elem_of_singleton.
Qed.

Lemma leaf_ok_single n P k v : P k -> leaf_ok n P [(k, v)].
Proof. intros Hk. split_and!; try done; [|apply NoDup_singleton]. by intros k' ->%list_elem_of_singleton. Qed.

(** The stem made of a leaf that is pushed down *)
Lemma single_trie n d P k0 v0 : P k0 ->
  trie_ok (S n) d P (stem_single (chunk_at d k0) [(k0, v0)]) /\
  forall k', lookup_loop (S n) (stem_single (chunk_at d k0) [(k0, v0)]) (mug_at d k') k' = Some (leaf_lookup [(k0, v0)] k').
Proof.
  intros H0. assert (Hc0 : is_chunk (chunk_at d k0)) by apply land31_chunk.
  destruct (single_ok (V := V) (chunk_at d k0) [(k0, v0)] Hc0) as [Hsok Hsent]. split; [split; [done|]|].
  - intros c Hcc. rewrite Hsent by done. destruct (decide (c = chunk_at d k0)) as [->|]; [|done]. by apply leaf_ok_single.
  - intros k'. cbn [lookup_loop]. fold (chunk_at d k'). rewrite Hsent by apply land31_chunk.
    destruct (decide (chunk_at d k' = chunk_at d k0)); [done|]. cbn [leaf_lookup fst snd]. destruct (decide (k' = k0)); [congruence|done].
Qed.

Lemma insert_ok n d P s k v :
  trie_ok n d P s -> P k -> 0 <= d -> d + Z.of_nat n = 6 -> insert_spec n d P s k v.
Proof.
  revert d P s. induction n as [|n IH]; intros d P s Hs Hk Hd Hn; [done|].
  pose proof Hs as [Hok Hent]. unfold insert_spec. cbn [insert_loop]. fold (chunk_at d k).
  assert (Hc : is_chunk (chunk_at d k)) by apply land31_chunk.
  specialize (Hent _ Hc). destruct (stem_entry s (chunk_at d k)) as [[[t|l]|]|] eqn:He; [| | |done].
  - (* a stem *)
    rewrite mug_at_succ by done. destruct (IH (d + 1) _ t Hent) as (t' & -> & Ht & Hlook); [done|lia|lia|].
    destruct (set_stem_ok s _ t t' Hok Hc He) as [Hok' He']. eexists. split; [done|].
    apply (insert_subtree n d P s _ k v t'); try done. intros k' Hk' Ec. rewrite Hlook by done. destruct (decide (k' = k)); [done|].
    cbn [lookup_loop]. fold (chunk_at d k'). by rewrite Ec, He, mug_at_succ.
  - (* a leaf *)
    assert (Hold : forall k', chunk_at d k' = chunk_at d k -> lookup_loop (S n) s (mug_at d k') k' = Some (leaf_lookup l k')).
    { intros k' Ec. cbn [lookup_loop]. fold (chunk_at d k'). by rewrite Ec, He. }
    destruct (leaf_override l k v) as [l'|] eqn:Hov.
    + destruct (leaf_override_Some _ _ _ _ Hov) as [Hkeys Hlk].
      destruct (set_leaf_ok s _ l l' Hok Hc He) as [Hok' He']. eexists. split; [done|].
      apply (insert_leaf_slot n d P s _ k v l'); try done; [by eapply leaf_ok_keys|].
      intros k' Hk' Ec. rewrite Hold, Hlk by done. by destruct (decide (k' = k)).
    + pose proof (leaf_override_None _ _ _ Hov) as Hnin. destruct (Z.leb_spec 5 d) as [Hd5|Hd5].
      * destruct (set_leaf_ok s _ l (l ++ [(k, v)]) Hok Hc He) as [Hok' He']. eexists. split; [done|]. assert (n = O) as -> by lia.
        apply (insert_leaf_slot 0 d P s _ k v (l ++ [(k, v)])); try done; [by apply leaf_ok_snoc|].
        intros k' Hk' Ec. rewrite Hold, leaf_lookup_snoc by done. by destruct (decide (k' = k)).
      * destruct n as [|n]; [lia|]. destruct Hent as (Hne & HP & _ & Hlen). specialize (Hlen ltac:(done)).
        destruct l as [|[k0 v0] [|]]; [done| |done]. cbn [fst]. fold (mug_at (d + 1) k0). fold (chunk_at (d + 1) k0).
        destruct (single_trie n (d + 1) (fun k' => P k' /\ chunk_at d k' = chunk_at d k) k0 v0) as [Hsingle Hsl]; [apply HP; constructor|].
        rewrite mug_at_succ by done. destruct (IH (d + 1) _ _ Hsingle) as (t' & -> & Ht & Hlook); [done|lia|lia|].
        destruct (leaf_to_stem_ok s _ _ t' Hok Hc He) as [Hok' He']. eexists. split; [done|].
        apply (insert_subtree (S n) d P s _ k v t'); try done.
        intros k' Hk' Ec. by rewrite Hlook, Hsl, Hold by done.
  - (* no entry *)
    destruct (add_leaf_ok s _ [(k, v)] Hok Hc He) as [Hok' He']. eexists. split; [done|].
    apply (insert_leaf_slot n d P s _ k v [(k, v)]); try done; [by apply leaf_ok_single|].
    intros k' Hk' Ec. cbn [leaf_lookup fst snd lookup_loop]. fold (chunk_at d k'). rewrite Ec, He. by destruct (decide (k' = k)).
Qed.
End trie.

(** * Bitmaps *)

Lemma chunk_to_bit_pow c : is_chunk c -> chunk_to_bit c = 2 ^ c.
Proof.
  unfold is_chunk, chunk_to_bit, wrap32. intros Hc. rewrite Z.shiftl_1_l. apply Z.mod_small.
  split; [apply Z.pow_nonneg; lia|]. unfold U32. apply Z.pow_lt_mono_r; lia.
Qed.

Lemma has_bit m c : is_chunk c -> negb (Z.land m (chunk_to_bit c) =? 0) = Z.testbit m c.
Proof.
  intros Hc. rewrite chunk_to_bit_pow by done. unfold is_chunk in Hc.
  destruct (Z.testbit m c) eqn:Hb.
  - destruct (Z.eqb_spec (Z.land m (2 ^ c)) 0) as [E|]; [|done]. exfalso.
    assert (Z.testbit (Z.land m (2 ^ c)) c = true) as Ht by (rewrite Z.land_spec, Hb, Z.pow2_bits_true; lia || done).
    rewrite E, Z.testbit_0_l in Ht. done.
  - destruct (Z.eqb_spec (Z.land m (2 ^ c)) 0) as [|E]; [done|]. exfalso. apply E.
    apply Z.bits_inj'. intros i Hi. rewrite Z.land_spec, Z.testbit_0_l, Z.pow2_bits_eqb by lia.
    destruct (Z.eqb_spec c i) as [<-|]; [by rewrite Hb|apply andb_false_r].
Qed.

Lemma set_bit m c c' : is_chunk c -> is_chunk c' ->
  Z.testbit (Z.lor m (chunk_to_bit c)) c' = if decide (c' = c) then true else Z.testbit m c'.
Proof.
  intros Hc Hc'. rewrite chunk_to_bit_pow, Z.lor_spec by done. unfold is_chunk in *.
  rewrite Z.pow2_bits_eqb by lia.
  destruct (decide (c' = c)) as [->|]; [rewrite Z.eqb_refl; apply orb_true_r|].
  replace (c =? c') with false by lia. apply orb_false_r.
Qed.

Lemma clear_bit m c c' : is_chunk c -> is_chunk c' ->
  Z.testbit (Z.land m (not32 (chunk_to_bit c))) c' = if decide (c' = c) then false else Z.testbit m c'.
Proof.
  intros Hc Hc'. rewrite chunk_to_bit_pow, Z.land_spec by done. unfold is_chunk, not32 in *.
  replace (U32 - 1 - 2 ^ c) with (Z.ldiff (Z.ones 32) (2 ^ c)).
  - rewrite Z.ldiff_spec, Z.ones_spec_low, Z.pow2_bits_eqb by lia.
    destruct (decide (c' = c)) as [->|]; [rewrite Z.eqb_refl; apply andb_false_r|].
    replace (c =? c') with false by lia. apply andb_true_r.
  - rewrite <- Z.sub_nocarry_ldiff; [done|]. apply Z.bits_inj'. intros i Hi.
    rewrite Z.ldiff_spec, Z.testbit_0_l, Z.pow2_bits_eqb by lia.
    destruct (Z.eqb_spec c i) as [<-|]; [|done]. by rewrite Z.ones_spec_low by lia.
Qed.

Lemma bit_only c c' : is_chunk c -> is_chunk c' ->
  Z.testbit (chunk_to_bit c) c' = if decide (c' = c) then true else false.
Proof.
  intros Hc Hc'. rewrite <- (Z.lor_0_l (chunk_to_bit c)), set_bit by done. by rewrite Z.testbit_0_l.
Qed.

(** * Stems of the mutable trie *)

Section mut_laws.
Context {V : Type}.

Lemma mut_entry_bits (s : MutStem V) c :
  is_chunk c ->
  mut_entry s c =
    if Z.testbit (mut_bitmap s) c then
      if Z.testbit (mut_typemap s) c then
        match mut_buffer s !! Z.to_nat c with Some (MutStemEntry t) => Some (Some (inl t)) | _ => None end
      else match mut_buffer s !! Z.to_nat c with Some (MutLeafEntry l) => Some (Some (inr l)) | _ => None end
    else Some None.
Proof. intros Hc. unfold mut_entry, mut_has_index. by rewrite !has_bit by done. Qed.

Definition mut_stem_ok (s : MutStem V) : Prop := length (mut_buffer s) = 32%nat.

(** Writing slot [c] of a buffer and reading slot [c'] *)
Lemma buffer_write {A} (b : list A) c c' e :
  length b = 32%nat -> is_chunk c -> is_chunk c' ->
  <[Z.to_nat c := e]> b !! Z.to_nat c' = if decide (c' = c) then Some e else b !! Z.to_nat c'.
Proof.
  unfold is_chunk. intros Hb Hc Hc'. destruct (decide (c' = c)) as [->|Hne].
  - apply list_lookup_insert_eq. lia.
  - apply list_lookup_insert_ne. lia.
Qed.

Global Program Instance mut_laws : StemLaws (MutStem V) V := {| stem_ok := mut_stem_ok |}.
Next Obligation. done. Qed.
Next Obligation. intros c Hc. cbn [stem_entry mut_ops]. rewrite mut_entry_bits by done. by rewrite Z.testbit_0_l. Qed.
Next Obligation.
  intros s c l Hs Hc He. cbn [stem_entry stem_add_leaf mut_ops] in *. unfold mut_stem_ok.
  split; [cbn; by rewrite length_insert|]. intros c' Hc'. rewrite !mut_entry_bits by done.
  cbn [mut_bitmap mut_typemap mut_buffer mut_add_leaf]. rewrite set_bit, clear_bit, buffer_write by done.
  by destruct (decide (c' = c)).
Qed.
Next Obligation.
  intros s c l l' Hs Hc He. cbn [stem_entry stem_set_leaf mut_ops] in *. unfold mut_stem_ok.
  split; [cbn; by rewrite length_insert|]. intros c' Hc'. rewrite !mut_entry_bits in * by done.
  cbn [mut_bitmap mut_typemap mut_buffer mut_set_leaf]. rewrite buffer_write by done.
  destruct (decide (c' = c)) as [->|]; [|done].
  destruct (Z.testbit (mut_bitmap s) c), (Z.testbit (mut_typemap s) c); try done.
  by destruct (mut_buffer s !! Z.to_nat c) as [[]|].
Qed.
Next Obligation.
  intros s c t t' Hs Hc He. cbn [stem_entry stem_set_stem mut_ops] in *. unfold mut_stem_ok.
  split; [cbn; by rewrite length_insert|]. intros c' Hc'. rewrite !mut_entry_bits in * by done.
  cbn [mut_bitmap mut_typemap mut_buffer mut_set_stem]. rewrite buffer_write by done.
  destruct (decide (c' = c)) as [->|]; [|done].
  destruct (Z.testbit (mut_bitmap s) c), (Z.testbit (mut_typemap s) c); try done.
  by destruct (mut_buffer s !! Z.to_nat c) as [[]|].
Qed.
Next Obligation.
  intros s c l t Hs Hc He. cbn [stem_entry stem_leaf_to_stem mut_ops] in *. unfold mut_stem_ok.
  split; [cbn; by rewrite length_insert|]. intros c' Hc'. rewrite !mut_entry_bits in * by done.
  cbn [mut_bitmap mut_typemap mut_buffer mut_leaf_to_stem]. rewrite set_bit, buffer_write by done.
  destruct (decide (c' = c)) as [->|]; [|done]. by destruct (Z.testbit (mut_bitmap s) c).
Qed.
Next Obligation.
  intros c l Hc. cbn [stem_entry stem_single mut_ops]. unfold mut_stem_ok.
  split; [cbn [mut_single mut_buffer]; by rewrite length_insert|]. intros c' Hc'.
  rewrite mut_entry_bits by done. cbn [mut_bitmap mut_typemap mut_buffer mut_single].
  rewrite bit_only, Z.testbit_0_l, buffer_write by done. by destruct (decide (c' = c)).
Qed.
End mut_laws.

(** * Stems of the persistent trie *)

Lemma ones_app a b : ones (a ++ b) = (ones a + ones b)%nat.
Proof. unfold ones. by rewrite list.filter_app, length_app. Qed.
Lemma ones_replicate_false n : ones (replicate n false) = 0%nat.
Proof. induction n; [done|]. unfold ones in *. cbn [replicate]. by rewrite filter_cons_False. Qed.
Lemma ones_cons b bs : ones (b :: bs) = ((if b then 1 else 0) + ones bs)%nat.
Proof. by destruct b. Qed.

Lemma ones_take_lt bs i j :
  bs !! i = Some true -> (i < j)%nat -> (ones (take i bs) < ones (take j bs))%nat.
Proof.
  revert i j. induction bs as [|b bs IH]; intros [|i] [|j] Hi Hj; try done; try lia.
  - simpl in Hi. injection Hi as ->. cbn [take]. rewrite ones_cons. change (ones []) with 0%nat. lia.
  - cbn [take]. rewrite !ones_cons. specialize (IH i j Hi). lia.
Qed.
Lemma ones_take_le bs i j : (i <= j)%nat -> (ones (take i bs) <= ones (take j bs))%nat.
Proof.
  revert i j. induction bs as [|b bs IH]; intros i j Hj; [by rewrite !take_nil|].
  destruct i as [|i], j as [|j]; cbn [take]; rewrite ?ones_cons; change (ones []) with 0%nat; try lia.
  specialize (IH i j). lia.
Qed.
Lemma ones_take_all bs i : (ones (take i bs) <= ones bs)%nat.
Proof. rewrite <- (take_drop i bs) at 2. rewrite ones_app. lia. Qed.

Lemma ones_insert bs i j :
  bs !! i = Some false ->
  ones (take j (<[i := true]> bs)) = (ones (take j bs) + if decide (i < j)%nat then 1 else 0)%nat.
Proof.
  revert i j. induction bs as [|b bs IH]; intros [|i] [|j] Hi; try done.
  - simpl in Hi. injection Hi as ->. cbn [insert list_insert take]. rewrite !ones_cons.
    rewrite decide_True by lia. lia.
  - cbn [insert list_insert take]. rewrite !ones_cons, IH by done.
    destruct (decide (i < j)%nat), (decide (S i < S j)%nat); lia.
Qed.

Lemma bits_of_ext n x bs :
  length bs = n -> (forall i b, bs !! i = Some b -> Z.testbit x (Z.of_nat i) = b) -> bits_of n x = bs.
Proof.
  intros Hl Hb. apply list_eq_same_length with n; [done|by rewrite length_bits_of|].
  intros i x' y Hi Hx Hy. rewrite lookup_bits_of in Hx by done. injection Hx as <-. by apply Hb.
Qed.

Lemma bits_of_set m c : is_chunk c ->
  bits_of 32 (Z.lor m (chunk_to_bit c)) = <[Z.to_nat c := true]> (bits_of 32 m).
Proof.
  intros Hc. pose proof Hc as Hc0. unfold is_chunk in Hc0.
  apply bits_of_ext; [by rewrite length_insert, length_bits_of|]. intros i b Hi.
  assert (Hi32 : (i < 32)%nat) by (apply lookup_lt_Some in Hi; rewrite length_insert, length_bits_of in Hi; done).
  rewrite set_bit by (done || unfold is_chunk; lia).
  destruct (decide (Z.of_nat i = c)) as [E|E].
  - subst c. rewrite Nat2Z.id, list_lookup_insert_eq in Hi by (by rewrite length_bits_of). congruence.
  - rewrite list_lookup_insert_ne, lookup_bits_of in Hi by lia. congruence.
Qed.

Lemma mask_bits m c : is_chunk c ->
  bits_of 32 (Z.land m (chunk_to_mask c)) = take (Z.to_nat c) (bits_of 32 m) ++ replicate (32 - Z.to_nat c) false.
Proof.
  intros Hc. pose proof Hc as Hc0. unfold is_chunk in Hc0. unfold chunk_to_mask. rewrite chunk_to_bit_pow by done.
  apply bits_of_ext.
  { rewrite length_app, length_take, length_bits_of, length_replicate. lia. }
  intros i b Hi. replace (2 ^ c - 1) with (Z.ones c) by (rewrite Z.ones_equiv; lia). rewrite Z.land_spec.
  destruct (decide (i < Z.to_nat c)%nat) as [Hlt|Hge].
  - rewrite lookup_app_l in Hi by (rewrite length_take, length_bits_of; lia).
    rewrite lookup_take_lt, lookup_bits_of in Hi by lia. injection Hi as <-.
    rewrite Z.ones_spec_low by lia. apply andb_true_r.
  - rewrite lookup_app_r in Hi by (rewrite length_take, length_bits_of; lia).
    apply lookup_replicate in Hi as [-> _]. rewrite Z.ones_spec_high by lia. apply andb_false_r.
Qed.

Lemma lookup_bitmap m c : is_chunk c -> bits_of 32 m !! Z.to_nat c = Some (Z.testbit m c).
Proof. unfold is_chunk. intros Hc. rewrite lookup_bits_of by lia. do 2 f_equal. lia. Qed.

Section stem_laws.
Context {V : Type}.
Implicit Types s : Stem V.

Definition rank (m c : Z) : nat := ones (take (Z.to_nat c) (bits_of 32 m)).

Lemma hypothetical_index_rank s c : is_chunk c -> hypothetical_index s c = rank (bitmap s) c.
Proof.
  intros Hc. unfold hypothetical_index, count_ones. rewrite mask_bits by done.
  by rewrite ones_app, ones_replicate_false, Nat.add_0_r.
Qed.

Lemma rank_lt m c c' : is_chunk c -> is_chunk c' -> Z.testbit m c = true -> c < c' -> (rank m c < rank m c')%nat.
Proof.
  intros Hc Hc' Hb Hlt. pose proof Hc as Hc0. unfold is_chunk in Hc0. apply ones_take_lt; [|lia]. by rewrite lookup_bitmap, Hb.
Qed.
Lemma rank_le m c c' : c <= c' -> (rank m c <= rank m c')%nat.
Proof. intros Hle. apply ones_take_le. lia. Qed.
Lemma rank_size m c : is_chunk c -> Z.testbit m c = true -> (rank m c < count_ones m)%nat.
Proof.
  intros Hc Hb. unfold rank, count_ones. pose proof Hc as Hc0. unfold is_chunk in Hc0.
  pose proof (ones_take_lt (bits_of 32 m) (Z.to_nat c) 32) as H. rewrite lookup_bitmap, Hb in H by done.
  rewrite (take_ge _ 32) in H by (rewrite length_bits_of; lia). apply H; [done|lia].
Qed.
Lemma rank_inj m c c' :
  is_chunk c -> is_chunk c' -> Z.testbit m c = true -> Z.testbit m c' = true -> c' <> c -> rank m c <> rank m c'.
Proof.
  intros Hc Hc' Hb Hb' Hne. destruct (Z.lt_total c c') as [Hlt|[->|Hlt]]; [|done|].
  - pose proof (rank_lt m c c' Hc Hc' Hb Hlt). lia.
  - pose proof (rank_lt m c' c Hc' Hc Hb' Hlt). lia.
Qed.

(** The bitmap with one more bit *)
Lemma rank_set m c c' : is_chunk c -> Z.testbit m c = false -> is_chunk c' ->
  rank (Z.lor m (chunk_to_bit c)) c' = (rank m c' + if decide (c < c')%Z then 1 else 0)%nat.
Proof.
  intros Hc Hb Hc'. unfold rank. rewrite bits_of_set by done. rewrite ones_insert by (by rewrite lookup_bitmap, Hb).
  unfold is_chunk in *. destruct (decide (c < c')), (decide (Z.to_nat c < Z.to_nat c')%nat); lia.
Qed.
Lemma count_set m c : is_chunk c -> Z.testbit m c = false ->
  count_ones (Z.lor m (chunk_to_bit c)) = S (count_ones m).
Proof.
  intros Hc Hb. unfold count_ones. rewrite bits_of_set by done.
  pose proof (ones_insert (bits_of 32 m) (Z.to_nat c) 32) as H. rewrite lookup_bitmap, Hb in H by done.
  rewrite !take_ge in H by (rewrite ?length_insert, length_bits_of; lia). rewrite H by done.
  unfold is_chunk in Hc. rewrite decide_True by lia. lia.
Qed.

Definition slot_of (t : bool) (o : option (Entry V)) : option (option (Stem V + Leaf V)) :=
  match o with
  | Some (StemEntry s) => if t then Some (Some (inl s)) else None
  | Some (LeafEntry l) => if t then None else Some (Some (inr l))
  | None => None
  end.

Lemma entry_bits s c :
  is_chunk c ->
  entry s c = if Z.testbit (bitmap s) c then slot_of (Z.testbit (typemap s) c) (buffer s !! rank (bitmap s) c)
              else Some None.
Proof.
  intros Hc. unfold entry, index, has_index. rewrite !has_bit, hypothetical_index_rank by done.
  destruct (Z.testbit (bitmap s) c); [|done].
  destruct (Z.testbit (typemap s) c), (buffer s !! rank (bitmap s) c) as [[]|]; done.
Qed.

Definition persistent_ok s : Prop := length (buffer s) = size s.

Lemma entry_bit s c e : is_chunk c -> entry s c = Some (Some e) -> Z.testbit (bitmap s) c = true.
Proof. intros Hc. rewrite entry_bits by done. by destruct (Z.testbit (bitmap s) c). Qed.

(** Replacing the entry of an occupied slot *)
Lemma set_entry_lookup s c c' e :
  persistent_ok s -> is_chunk c -> is_chunk c' ->
  Z.testbit (bitmap s) c = true -> Z.testbit (bitmap s) c' = true ->
  length (set_entry s c e) = size s /\
  set_entry s c e !! rank (bitmap s) c' =
    if decide (c' = c) then Some e else buffer s !! rank (bitmap s) c'.
Proof.
  intros Hs Hc Hc' Hb Hb'. unfold set_entry. rewrite hypothetical_index_rank, take_ge by (done || rewrite Hs; lia).
  split; [by rewrite length_insert|]. destruct (decide (c' = c)) as [->|Hne].
  - apply list_lookup_insert_eq. rewrite Hs. by apply rank_size.
  - apply list_lookup_insert_ne. by apply rank_inj.
Qed.

Lemma replace_entry_ok s c e0 e tm :
  persistent_ok s -> is_chunk c -> entry s c = Some (Some e0) ->
  (forall c', is_chunk c' -> c' <> c -> Z.testbit tm c' = Z.testbit (typemap s) c') ->
  let s' := MkStem (bitmap s) tm (set_entry s c e) in
  persistent_ok s' /\
  forall c', is_chunk c' -> entry s' c' =
    if decide (c' = c) then slot_of (Z.testbit tm c) (Some e) else entry s c'.
Proof.
  intros Hs Hc He Htm s'. pose proof (entry_bit _ _ _ Hc He) as Hb.
  split; [exact (proj1 (set_entry_lookup s c c e Hs Hc Hc Hb Hb))|]. intros c' Hc'.
  rewrite !entry_bits by done. subst s'. cbn [bitmap typemap buffer].
  destruct (Z.testbit (bitmap s) c') eqn:Hb'.
  - rewrite (proj2 (set_entry_lookup s c c' e Hs Hc Hc' Hb Hb')).
    destruct (decide (c' = c)) as [->|]; [done|]. by rewrite Htm.
  - destruct (decide (c' = c)) as [->|]; [congruence|done].
Qed.

Lemma add_leaf_entries s c l :
  persistent_ok s -> is_chunk c -> entry s c = Some None ->
  persistent_ok (add_leaf s c l) /\
  forall c', is_chunk c' -> entry (add_leaf s c l) c' =
    if decide (c' = c) then Some (Some (inr l)) else entry s c'.
Proof.
  intros Hs Hc He. unfold persistent_ok, size in *.
  assert (Hb : Z.testbit (bitmap s) c = false).
  { rewrite entry_bits in He by done. destruct (Z.testbit (bitmap s) c); [|done].
    unfold slot_of in He. destruct (buffer s !! _) as [[]|], (Z.testbit (typemap s) c); done. }
  set (r := rank (bitmap s) c).
  assert (Hr : (r <= count_ones (bitmap s))%nat) by apply ones_take_all.
  assert (Hbuf : buffer (add_leaf s c l) = take r (buffer s) ++ LeafEntry l :: drop r (buffer s)).
  { cbn [add_leaf buffer]. rewrite hypothetical_index_rank by done. fold r. unfold size.
    do 2 f_equal. apply take_ge. rewrite length_drop. lia. }
  split.
  - rewrite Hbuf. cbn [add_leaf bitmap]. rewrite count_set by done.
    rewrite length_app, length_take, length_cons, length_drop. lia.
  - intros c' Hc'. rewrite !entry_bits, Hbuf by done. cbn [add_leaf bitmap typemap].
    rewrite set_bit, clear_bit, rank_set by done.
    destruct (decide (c' = c)) as [->|Hne].
    + rewrite decide_False by lia. fold r. rewrite Nat.add_0_r, list_lookup_middle; [done|].
      rewrite length_take. lia.
    + destruct (Z.testbit (bitmap s) c') eqn:Hb'; [|done]. f_equal.
      destruct (decide (c < c')) as [Hlt|Hge].
      * pose proof (rank_le (bitmap s) c c' ltac:(lia)) as Hle. fold r in Hle.
        rewrite lookup_app_r by (rewrite length_take; lia). rewrite length_take, Nat.min_l by lia.
        replace (rank (bitmap s) c' + 1 - r)%nat with (S (rank (bitmap s) c' - r)) by lia.
        rewrite <- lookup_tail. cbn [tail]. rewrite lookup_drop. f_equal. lia.
      * pose proof (rank_lt (bitmap s) c' c Hc' Hc Hb' ltac:(lia)) as Hlt. fold r in Hlt.
        rewrite lookup_app_l by (rewrite length_take; lia). rewrite lookup_take_lt by lia. f_equal. lia.
Qed.

Global Program Instance persistent_laws : StemLaws (Stem V) V := {| stem_ok := persistent_ok |}.
Next Obligation. done. Qed.
Next Obligation. intros c Hc. cbn [stem_entry stem_ops stem_empty]. rewrite entry_bits by done. by rewrite Z.testbit_0_l. Qed.
Next Obligation. intros s c l Hs Hc He. by apply add_leaf_entries. Qed.
Next Obligation.
  intros s c l l' Hs Hc He. destruct (replace_entry_ok s c _ (LeafEntry l') (typemap s) Hs Hc He) as [H1 H2]; [done|].
  split; [done|]. intros c' Hc'. cbn [stem_entry stem_set_leaf stem_ops] in *. unfold set_leaf. rewrite H2 by done.
  destruct (decide (c' = c)); [|done]. rewrite entry_bits in He by done.
  destruct (Z.testbit (bitmap s) c), (Z.testbit (typemap s) c); try done.
  by destruct (buffer s !! rank (bitmap s) c) as [[]|].
Qed.
Next Obligation.
  intros s c t t' Hs Hc He. destruct (replace_entry_ok s c _ (StemEntry t') (typemap s) Hs Hc He) as [H1 H2]; [done|].
  split; [done|]. intros c' Hc'. cbn [stem_entry stem_set_stem stem_ops] in *. unfold set_stem. rewrite H2 by done.
  destruct (decide (c' = c)); [|done]. rewrite entry_bits in He by done.
  destruct (Z.testbit (bitmap s) c), (Z.testbit (typemap s) c); try done.
  by destruct (buffer s !! rank (bitmap s) c) as [[]|].
Qed.
Next Obligation.
  intros s c l t Hs Hc He.
  destruct (replace_entry_ok s c _ (StemEntry t) (Z.lor (typemap s) (chunk_to_bit c)) Hs Hc He) as [H1 H2].
  { intros c' Hc' Hne. rewrite set_bit by done. by rewrite decide_False. }
  split; [done|]. intros c' Hc'. cbn [stem_entry stem_leaf_to_stem stem_ops] in *. unfold leaf_to_stem.
  rewrite H2 by done. destruct (decide (c' = c)); [|done]. rewrite set_bit by done. by rewrite decide_True.
Qed.
Next Obligation.
  intros c l Hc. cbn [stem_entry stem_single stem_ops]. unfold single, persistent_ok, size.
  rewrite <- (Z.lor_0_l (chunk_to_bit c)). split.
  - cbn [buffer bitmap]. by rewrite count_set by (done || apply Z.testbit_0_l).
  - intros c' Hc'. rewrite entry_bits by done. cbn [bitmap typemap buffer].
    rewrite set_bit, rank_set, !Z.testbit_0_l by (done || apply Z.testbit_0_l).
    assert (Hz : bits_of 32 0 = replicate 32 false) by done.
    destruct (decide (c' = c)) as [->|]; [|done]. rewrite decide_False by lia.
    unfold rank. rewrite Hz, take_replicate, ones_replicate_false. done.
Qed.
End stem_laws.

(** * The tries as maps *)

Section maps.
Context {St V : Type} `{!StemOps St V} `{!StemLaws St V} (mug_u32 : noun -> Z).

Definition hamt_ok (h : St) : Prop := trie_ok mug_u32 MAX_STEMS 0 (fun _ => True) h.

Lemma hamt_empty_ok : hamt_ok stem_empty.
Proof. apply trie_ok_empty. Qed.

Lemma hamt_lookup_ok h k : hamt_ok h -> is_Some (lookup_loop MAX_STEMS h (mug_u32 k) k).
Proof. intros Hh. rewrite <- mug_at_0. eapply trie_lookup_ok; [done|lia]. Qed.

Lemma hamt_lookup_empty k : lookup_loop MAX_STEMS (stem_empty : St) (mug_u32 k) k = Some None.
Proof. unfold MAX_STEMS. cbn [lookup_loop]. by rewrite entry_empty by apply land31_chunk. Qed.

Lemma hamt_insert_ok h k v : hamt_ok h ->
  exists h', insert_loop mug_u32 MAX_STEMS 0 h (mug_u32 k) k v = Some h' /\ hamt_ok h' /\
    forall k', lookup_loop MAX_STEMS h' (mug_u32 k') k' =
      if decide (k' = k) then Some (Some v) else lookup_loop MAX_STEMS h (mug_u32 k') k'.
Proof.
  intros Hh. destruct (insert_ok mug_u32 MAX_STEMS 0 (fun _ => True) h k v Hh) as (h' & E1 & H1 & H2); try done.
  exists h'. split; [done|]. split; [done|]. intros k'. by apply H2.
Qed.

(** The bindings of a list of insertions: the last one of a key counts. *)
Definition bindings (kvs : list (noun * V)) (k : noun) : option V :=
  foldl (fun o kv => if decide (k = kv.1) then Some kv.2 else o) None kvs.
Definition insert_all (h : option St) (kvs : list (noun * V)) : option St :=
  foldl (fun h kv => h ← h; insert_loop mug_u32 MAX_STEMS 0 h (mug_u32 kv.1) kv.1 kv.2) h kvs.

Lemma insert_all_ok kvs :
  exists h, insert_all (Some stem_empty) kvs = Some h /\ hamt_ok h /\
    forall k, lookup_loop MAX_STEMS h (mug_u32 k) k = Some (bindings kvs k).
Proof.
  induction kvs as [|[k v] kvs IH] using rev_ind.
  { exists stem_empty. split; [done|]. split; [apply hamt_empty_ok|apply hamt_lookup_empty]. }
  destruct IH as (h & E1 & H1 & H2). destruct (hamt_insert_ok h k v H1) as (h' & E2 & H3 & H4).
  exists h'. unfold insert_all, bindings in *. rewrite !foldl_snoc, E1. split; [done|]. split; [done|].
  intros k'. rewrite H4, foldl_snoc. cbn [fst snd]. destruct (decide (k' = k)); [done|apply H2].
Qed.
End maps.

Definition MutHamt_build {V} (mug_u32 : noun -> Z) (kvs : list (noun * V)) : option (MutStem V) :=
  foldl (fun h kv => h ← h; MutHamt_insert mug_u32 h kv.1 kv.2) (Some MutHamt_new) kvs.
Definition Hamt_build {V} (mug_u32 : noun -> Z) (kvs : list (noun * V)) : option (Stem V) :=
  foldl (fun h kv => h ← h; Hamt_insert mug_u32 h kv.1 kv.2) (Some Hamt_new) kvs.

(** C32: Whatever the hash function, and however its values collide, a sequence of
    insertions into either trie succeeds (no assertion fails, the depth stays
    within six stems, every union is read as it was written) and gives the finite
    map with those bindings: a lookup finds the last value bound to its key. *)
Theorem hamt_is_map {V} (mug_u32 : noun -> Z) (kvs : list (noun * V)) :
  (exists h, MutHamt_build mug_u32 kvs = Some h /\
     forall k, MutHamt_lookup mug_u32 h k = Some (bindings kvs k)) /\
  (exists h, Hamt_build mug_u32 kvs = Some h /\
     forall k, Hamt_lookup mug_u32 h k = Some (bindings kvs k)).
Proof.
  split.
  - destruct (insert_all_ok (St := MutStem V) mug_u32 kvs) as (h & E & _ & H). by exists h.
  - destruct (insert_all_ok (St := Stem V) mug_u32 kvs) as (h & E & _ & H). by exists h.
Qed.

(** The mutable trie as the map its clients use *)
Section client.
Context (mug_u32 : noun -> Z).
Instance mut_hamt_map : NounMap MutStem := {|
  map_new V := MutHamt_new;
  map_lookup V := MutHamt_lookup mug_u32;
  map_insert V := MutHamt_insert mug_u32;
|}.
Instance mut_hamt_laws : NounMapLaws MutStem.
Proof.
  refine {| map_ok V := hamt_ok mug_u32 |}.
  - intros V. apply hamt_empty_ok.
  - intros V. apply hamt_lookup_empty.
  - intros V. apply hamt_lookup_ok.
  - intros V. apply hamt_insert_ok.
Defined.
(** and the persistent one, whose values are shared *)
Instance hamt_map : NounMap Stem := {|
  map_new V := Hamt_new;
  map_lookup V := Hamt_lookup mug_u32;
  map_insert V := Hamt_insert mug_u32;
|}.
Instance hamt_laws : NounMapLaws Stem.
Proof.
  refine {| map_ok V := hamt_ok mug_u32 |}.
  - intros V. apply hamt_empty_ok.
  - intros V. apply hamt_lookup_empty.
  - intros V. apply hamt_lookup_ok.
  - intros V. apply hamt_insert_ok.
Defined.
End client.

(** A worst case: six keys with one hash share the deepest leaf. *)
Example hamt_collisions :
  (h ← Hamt_build (fun _ => 0) [(D 1, 10); (D 2, 20); (D 3, 30); (D 2, 21)];
   v ← Hamt_lookup (fun _ => 0) h (D 2); v) = Some 21.
Proof. reflexivity. Qed.
