(* ===== verification/Serialization.v ===== *)
(** Serialization of nouns, crates/nockvm/rust/nockvm/src/serialization.rs: [jam]
    writes a noun into a growing bit buffer with back-references, [cue] reads it
    back through destination pointers.

    [cue] fills cells while they are already reachable from the table of
    back-references, so it works on a heap of cells whose fields may still be
    uninitialised; what it returns is a value in that heap.  The table is any
    [NounMap]; the instance of Hamt.v is the one of the source.  Running out of
    memory is not modelled. *)
From stdpp Require Import base option list numbers.
From Stdlib Require Import ZArith Lia.
From S2P Require Import Prelude Noun Interp Hamt.

(** * Bits *)

Definition met0_usize (a : atom) : nat :=
  match last_one (as_bitslice a) with Some i => S i | None => O end.
Definition met0_u64_to_usize (x : Z) : nat :=
  match last_one (bits_of 64 x) with Some i => S i | None => O end.

Definition bit_len (bs : list bool) : Z := Z.of_nat (length bs).

(** [&slice[a..b]]: panics unless [a <= b <= len]. *)
Definition slice_range (bs : list bool) (a b : Z) : option (list bool) :=
  if (a <=? b) && (b <=? bit_len bs) then Some (take (Z.to_nat (b - a)) (drop (Z.to_nat a) bs)) else None.

Definition next_bit (cursor : Z) (slice : list bool) : bool * Z :=
  if cursor <? bit_len slice then (default false (slice !! Z.to_nat cursor), cursor + 1)
  else (false, cursor).

Definition next_up_to_n_bits (cursor : Z) (slice : list bool) (n : Z) : option (list bool * Z) :=
  let e := wrap64 (cursor + n) in
  res ← (if e <=? bit_len slice then slice_range slice cursor e
         else if cursor <? bit_len slice then slice_range slice cursor (bit_len slice)
         else Some []);
  Some (res, e).

Definition rest_bits (cursor : Z) (slice : list bool) : list bool :=
  if cursor <? bit_len slice then drop (Z.to_nat cursor) slice else [].

Definition or_panic {E A} (o : option A) : outcome E A :=
  match o with Some a => Ok a | None => Panic end.

(** [copy_from_bitslice] panics unless the lengths are equal, and the shift
    amount of [1 << (bitsize - 1)] is taken modulo 64. *)
Definition get_size (cursor : Z) (buffer : list bool) : outcome Error (Z * Z) :=
  match first_one (rest_bits cursor buffer) with
  | None => Err BAIL_EXIT
  | Some O => Ok (0, cursor + 1)
  | Some bitsize =>
      let bitsize := Z.of_nat bitsize in
      let cursor := cursor + bitsize + 1 in
      '(size_bits, cursor) ← or_panic (next_up_to_n_bits cursor buffer (bitsize - 1));
      if (64 <? bitsize - 1) || negb (bit_len size_bits =? bitsize - 1) then Panic
      else
        let size := bits_val size_bits in
        Ok (wrap64 (size + Z.shiftl 1 ((bitsize - 1) mod 64)), cursor)
  end.

Definition rub_atom_internal (cursor : Z) (buffer : list bool) : outcome Error (atom * Z) :=
  '(size, cursor) ← get_size cursor buffer;
  '(bits, cursor) ← or_panic (next_up_to_n_bits cursor buffer size);
  if size =? 0 then Ok (Direct 0, cursor)
  else if size <? 64 then Ok (Direct (bits_val bits), cursor)
  else
    let wordsize := Z.shiftr (wrap64 (size + 63)) 6 in
    if 64 * wordsize <? bit_len bits then Panic
    else if wordsize =? 0 then Panic
    else Ok (normalize_as_atom (bits_words (Z.to_nat wordsize) bits), cursor).

Definition rub_backref (cursor : Z) (buffer : list bool) : outcome Error (Z * Z) :=
  '(size, cursor) ← get_size cursor buffer;
  if size =? 0 then Ok (0, cursor)
  else if size <=? 64 then
    bits ← or_panic (slice_range buffer cursor (wrap64 (cursor + size)));
    Ok (bits_val bits, wrap64 (cursor + size))
  else Err BAIL_FAIL.

(** * Deserialization *)

(** A noun in memory: an atom or a pointer to a cell. *)
Inductive val := VAtom (a : atom) | VCell (ptr : nat).
Record CellMemory := { cell_head : option val; cell_tail : option val }.
Notation heap := (list CellMemory).

(** [*mut Noun]: the local [result] or a field of a cell. *)
Inductive dest := DResult | DHead (ptr : nat) | DTail (ptr : nat).

Global Instance dest_eq_dec : EqDecision dest.
Proof. solve_decision. Defined.

Inductive CueStackEntry :=
  | DestinationPointer (d : dest)
  | BackRef (backref : Z) (d : dest).

Section cue.
Context {M : Type -> Type} `{HM : !NounMap M}.

Record CueState := {
  cue_result : val;
  cue_heap : heap;
  cue_cursor : Z;
  cue_map : M val;
  cue_stack : list CueStackEntry;
}.

Definition set_head (v : val) (c : CellMemory) := {| cell_head := Some v; cell_tail := cell_tail c |}.
Definition set_tail (v : val) (c : CellMemory) := {| cell_head := cell_head c; cell_tail := Some v |}.

(** [*d = v] and [*d] *)
Definition write_dest (d : dest) (v : val) (r : val) (h : heap) : val * heap :=
  match d with
  | DResult => (v, h)
  | DHead p => (r, alter (set_head v) p h)
  | DTail p => (r, alter (set_tail v) p h)
  end.
Definition read_dest (d : dest) (r : val) (h : heap) : option val :=
  match d with
  | DResult => Some r
  | DHead p => c ← h !! p; cell_head c
  | DTail p => c ← h !! p; cell_tail c
  end.

Definition map_put (m : M val) (backref : Z) (v : val) : outcome Error (M val) :=
  or_panic (map_insert m (NAtom (Atom_new backref)) v).

(** One turn of the loop, for the popped entry *)
Definition cue_step (buffer : list bool) (entry : CueStackEntry) (s : CueState) : outcome Error CueState :=
  let '(Build_CueState r h cursor m stk) := s in
  match entry with
  | DestinationPointer dest_ptr =>
      let '(b, cursor) := next_bit cursor buffer in
      if (b : bool) then
        let '(b, cursor) := next_bit cursor buffer in
        if (b : bool) then
          (* 11 tag: backref *)
          '(backref, cursor) ← rub_backref cursor buffer;
          found ← or_panic (map_lookup m (NAtom (Atom_new backref)));
          match found with
          | None => Err BAIL_EXIT
          | Some v =>
              let '(r, h) := write_dest dest_ptr v r h in
              Ok (Build_CueState r h cursor m stk)
          end
        else
          (* 10 tag: cell *)
          let ptr := length h in
          let h := h ++ [{| cell_head := None; cell_tail := None |}] in
          let '(r, h) := write_dest dest_ptr (VCell ptr) r h in
          let backref := wrap64 (cursor - 2) in
          m ← map_put m backref (VCell ptr);
          Ok (Build_CueState r h cursor m
            (DestinationPointer (DHead ptr) :: DestinationPointer (DTail ptr) :: BackRef backref dest_ptr :: stk))
      else
        (* 0 tag: atom *)
        let backref := wrap64 (cursor - 1) in
        '(a, cursor) ← rub_atom_internal cursor buffer;
        let '(r, h) := write_dest dest_ptr (VAtom a) r h in
        m ← map_put m backref (VAtom a);
        Ok (Build_CueState r h cursor m stk)
  | BackRef backref noun_ptr =>
      v ← or_panic (read_dest noun_ptr r h);
      m ← map_put m backref v;
      Ok (Build_CueState r h cursor m stk)
  end.

(** [None]: the fuel ran out. *)
Fixpoint cue_loop (fuel : nat) (buffer : list bool) (s : CueState) : option (outcome Error (val * heap)) :=
  match fuel with
  | O => None
  | S fuel =>
      match cue_stack s with
      | [] => Some (Ok (cue_result s, cue_heap s))
      | entry :: stk =>
          match cue_step buffer entry
            (Build_CueState (cue_result s) (cue_heap s) (cue_cursor s) (cue_map s) stk) with
          | Ok s => cue_loop fuel buffer s
          | Err e => Some (Err e)
          | Panic => Some Panic
          end
      end
  end.

Definition cue_fuel (buffer : list bool) : nat := (3 * length buffer + 2)%nat.
Definition cue_init : CueState :=
  Build_CueState (VAtom (Direct 0)) [] 0 map_new [DestinationPointer DResult].

Definition cue_bitslice (buffer : list bool) : option (outcome Error (val * heap)) :=
  cue_loop (cue_fuel buffer) buffer cue_init.

Definition cue (buffer : atom) : option (outcome Error (val * heap)) := cue_bitslice (as_bitslice buffer).

(** [cue_into_stack_pointer_form] runs the same loop between its own [frame_push]
    and [frame_pop]; the [?] of the loop returns without the latter.  The number
    of frames is the first component. *)
Definition cue_into_stack_pointer_form (frames : nat) (buffer : atom) :
    option (nat * outcome Error (val * heap)) :=
  let frames := S frames in
  res ← cue_bitslice (as_bitslice buffer);
  match res with
  | Ok v => Some (Nat.pred frames, Ok v)
  | e => Some (frames, e)
  end.
End cue.
Arguments CueState : clear implicits.

(** * Serialization *)

(** [size] is the length of the slice in words. *)
Record JamState := { jam_cursor : nat; jam_slice : list bool }.

(** [slice[from..from + len].copy_from_bitslice(bits)] *)
Definition write_bits (slice : list bool) (from : nat) (bits : list bool) : list bool :=
  take from slice ++ bits ++ drop (from + length bits) slice.

Definition double_atom_size (st : JamState) : JamState :=
  let new_len := (length (jam_slice st) + length (jam_slice st))%nat in
  {| jam_cursor := jam_cursor st;
     jam_slice := take (jam_cursor st) (jam_slice st) ++ replicate (new_len - jam_cursor st) false |}.

(** [loop { if cursor + n > len { double } else { break } }]: the length doubles
    each time, so [cursor + n] turns are enough. *)
Fixpoint grow_loop (fuel n : nat) (st : JamState) : JamState :=
  match fuel with
  | O => st
  | S fuel =>
      if (length (jam_slice st) <? jam_cursor st + n)%nat then grow_loop fuel n (double_atom_size st) else st
  end.
Definition grow (n : nat) (st : JamState) : JamState := grow_loop (jam_cursor st + n) n st.

Definition set_bits (st : JamState) (bits : list bool) : JamState :=
  {| jam_cursor := jam_cursor st + length bits;
     jam_slice := write_bits (jam_slice st) (jam_cursor st) bits |}.

(** [None] is [Err(())], without a change of state. *)
Definition mat (st : JamState) (a : atom) : option JamState :=
  let b_atom_size := met0_usize a in
  let b_atom_size_atom := Atom_new (Z.of_nat b_atom_size) in
  let cursor := jam_cursor st in
  let slice := jam_slice st in
  if (b_atom_size =? 0)%nat then
    if (length slice <? cursor + 1)%nat then None else Some (set_bits st [true])
  else
    let c_b_size := met0_usize b_atom_size_atom in
    if (length slice <? cursor + c_b_size + c_b_size + b_atom_size)%nat then None
    else
      let slice := write_bits slice cursor (replicate c_b_size false) in
      let slice := write_bits slice (cursor + c_b_size) [true] in
      let slice := write_bits slice (cursor + c_b_size + 1) (take (c_b_size - 1) (as_bitslice b_atom_size_atom)) in
      let slice := write_bits slice (cursor + c_b_size + c_b_size) (take b_atom_size (as_bitslice a)) in
      Some {| jam_cursor := cursor + c_b_size + c_b_size + b_atom_size; jam_slice := slice |}.

(** [loop { if let Ok(()) = mat(..) { break } else { double_atom_size(..) } }] *)
Fixpoint mat_loop (fuel : nat) (st : JamState) (a : atom) : option JamState :=
  match fuel with
  | O => None
  | S fuel =>
      match mat st a with
      | Some st => Some st
      | None => mat_loop fuel (double_atom_size st) a
      end
  end.
Definition mat_fuel (st : JamState) (a : atom) : nat := (jam_cursor st + 3 * length (as_bitslice a) + 256)%nat.

Definition jam_atom (st : JamState) (a : atom) : option JamState :=
  let st := set_bits (grow 1 st) [false] in
  mat_loop (mat_fuel st a) st a.

Definition jam_cell (st : JamState) : JamState := set_bits (grow 2 st) [true; false].

Definition jam_backref (st : JamState) (backref : Z) : option JamState :=
  let st := set_bits (grow 2 st) [true; true] in
  let backref_atom := Atom_new backref in
  mat_loop (mat_fuel st backref_atom) st backref_atom.

Section jam.
Context {M : Type -> Type} `{HM : !NounMap M}.

Fixpoint noun_nodes (n : noun) : nat :=
  match n with
  | NAtom _ => 1
  | NCell h t => S (noun_nodes h + noun_nodes t)
  end.

(** The traversal; the loop body visits the noun on top of the stack. *)
Fixpoint jam_loop (fuel : nat) (stack : list noun) (backref_map : M Z) (state : JamState) : option JamState :=
  match fuel with
  | O => None
  | S fuel =>
      match stack with
      | [] => Some state
      | noun :: stack =>
          found ← map_lookup backref_map noun;
          match found with
          | Some backref =>
              state ← (match noun with
                       | NAtom a =>
                           if (met0_usize a <=? met0_u64_to_usize backref)%nat then jam_atom state a
                           else jam_backref state backref
                       | NCell _ _ => jam_backref state backref
                       end);
              jam_loop fuel stack backref_map state
          | None =>
              backref_map ← map_insert backref_map noun (Z.of_nat (jam_cursor state));
              match noun with
              | NAtom a =>
                  state ← jam_atom state a;
                  jam_loop fuel stack backref_map state
              | NCell head tail =>
                  jam_loop fuel (head :: tail :: stack) backref_map (jam_cell state)
              end
          end
      end
  end.

(** The buffer starts with 8 words; the result is its normalized atom. *)
Definition jam (n : noun) : option atom :=
  state ← jam_loop (S (noun_nodes n)) [n] map_new {| jam_cursor := 0; jam_slice := replicate (64 * 8) false |};
  Some (normalize_as_atom (bits_words (length (jam_slice state) / 64) (jam_slice state))).
End jam.
