(* ===== verification/SerializationTheorems.v ===== *)
(** [cue] undoes [jam], and what [cue] does on other input. *)
From stdpp Require Import base option list numbers.
From Stdlib Require Import ZArith Lia.
From S2P Require Import Prelude Noun Interp Hamt HamtTheorems Serialization.

(** * The bits of a number *)

(** [(met 0 z)] *)
Definition bitlen (z : Z) : nat := if z =? 0 then O else S (Z.to_nat (Z.log2 z)).

Lemma bitlen_bound z : 0 <= z -> z < 2 ^ Z.of_nat (bitlen z).
Proof.
  intros Hz. unfold bitlen. destruct (Z.eqb_spec z 0) as [->|Hne]; [done|].
  pose proof (Z.log2_spec z ltac:(lia)). rewrite Nat2Z.inj_succ, Z2Nat.id by apply Z.log2_nonneg. lia.
Qed.
Lemma bitlen_low z : 0 < z -> 2 ^ (Z.of_nat (bitlen z) - 1) <= z.
Proof.
  intros Hz. unfold bitlen. destruct (Z.eqb_spec z 0) as [->|Hne]; [done|].
  pose proof (Z.log2_spec z ltac:(lia)). rewrite Nat2Z.inj_succ, Z2Nat.id by apply Z.log2_nonneg.
  replace (Z.succ (Z.log2 z) - 1) with (Z.log2 z) by lia. lia.
Qed.
Lemma bitlen_0 z : 0 <= z -> bitlen z = O <-> z = 0.
Proof. intros Hz. unfold bitlen. destruct (Z.eqb_spec z 0); split; intros; done || lia. Qed.
Lemma bitlen_le z n : 0 <= z < 2 ^ Z.of_nat n -> (bitlen z <= n)%nat.
Proof.
  intros Hz. unfold bitlen. destruct (Z.eqb_spec z 0) as [->|Hne]; [lia|].
  assert (Z.log2 z < Z.of_nat n); [|pose proof (Z.log2_nonneg z); lia]. apply Z.log2_lt_pow2; lia.
Qed.
Lemma bitlen_mono x y : 0 <= x <= y -> (bitlen x <= bitlen y)%nat.
Proof. intros H. apply bitlen_le. pose proof (bitlen_bound y). lia. Qed.
Lemma bitlen_small z : 0 <= z -> Z.of_nat (bitlen z) <= z.
Proof.
  intros Hz. unfold bitlen. destruct (Z.eqb_spec z 0) as [->|Hne]; [done|].
  rewrite Nat2Z.inj_succ, Z2Nat.id by apply Z.log2_nonneg. pose proof (Z.log2_lt_lin z). lia.
Qed.

Lemma last_one_bitlen bs :
  match last_one bs with Some i => S i | None => O end = bitlen (bits_val bs).
Proof.
  pose proof (last_one_val bs) as H. pose proof (bits_val_nonneg bs) as Hn. unfold bitlen.
  destruct (last_one bs) as [i|]; [|by rewrite H]. destruct H as [_ H].
  assert (0 < 2 ^ Z.of_nat i) by (apply Z.pow_pos_nonneg; lia).
  destruct (Z.eqb_spec (bits_val bs) 0); [lia|]. f_equal.
  rewrite Nat2Z.inj_succ in H. rewrite (Z.log2_unique (bits_val bs) (Z.of_nat i)); [lia|lia|lia].
Qed.

Lemma as_bitslice_val a : wf_atom a -> bits_val (as_bitslice a) = atom_val a.
Proof.
  destruct a as [d|ws]; cbn [wf_atom as_bitslice atom_val].
  - intros Hd. rewrite DIRECT_MAX_val in Hd. apply bits_val_of_small. lia.
  - intros [Hf _]. by apply words_bits_val.
Qed.

Lemma met0_usize_val a : wf_atom a -> met0_usize a = bitlen (atom_val a).
Proof. intros Ha. unfold met0_usize. by rewrite last_one_bitlen, as_bitslice_val. Qed.
Lemma met0_u64_val x : is_u64 x -> met0_u64_to_usize x = bitlen x.
Proof. intros Hx. unfold met0_u64_to_usize. rewrite last_one_bitlen, bits_val_of_small by apply Hx. done. Qed.

Lemma take_bits_of n m z : (n <= m)%nat -> take n (bits_of m z) = bits_of n z.
Proof.
  intros H. replace m with (n + (m - n))%nat by lia. rewrite bits_of_app.
  rewrite take_app_le by (rewrite length_bits_of; lia). apply take_ge. rewrite length_bits_of. lia.
Qed.

Lemma take_as_bitslice a n :
  wf_atom a -> (n <= length (as_bitslice a))%nat -> take n (as_bitslice a) = bits_of n (atom_val a).
Proof.
  intros Ha Hn. rewrite <- (bits_of_val (as_bitslice a)), as_bitslice_val by done. by apply take_bits_of.
Qed.
Lemma bitlen_slice a : wf_atom a -> (bitlen (atom_val a) <= length (as_bitslice a))%nat.
Proof.
  intros Ha. apply bitlen_le. rewrite <- as_bitslice_val by done.
  split; [apply bits_val_nonneg|apply bits_val_bound].
Qed.

(** What [mat] writes for a number *)
Definition mat_bits (z : Z) : list bool :=
  if z =? 0 then [true]
  else
    let b := bitlen z in
    let c := bitlen (Z.of_nat b) in
    replicate c false ++ [true] ++ bits_of (c - 1) (Z.of_nat b) ++ bits_of b z.

Lemma length_mat_bits z : 0 < z ->
  length (mat_bits z) = (2 * bitlen (Z.of_nat (bitlen z)) + bitlen z)%nat.
Proof.
  intros Hz. unfold mat_bits. destruct (Z.eqb_spec z 0); [lia|].
  rewrite !length_app, length_replicate, !length_bits_of. cbn [length].
  assert (bitlen (Z.of_nat (bitlen z)) <> O); [|lia].
  intros E. apply bitlen_0 in E; [|lia]. assert (bitlen z = O) as E2 by lia. apply bitlen_0 in E2; lia.
Qed.

(** * The jam buffer *)

(** The bits written so far, followed by zeros *)
Definition jam_inv (st : JamState) (out : list bool) : Prop :=
  jam_cursor st = length out /\
  exists k, jam_slice st = out ++ replicate k false /\
  exists w, (0 < w)%nat /\ length (jam_slice st) = (64 * w)%nat.

Lemma write_bits_app out bits k :
  (length bits <= k)%nat ->
  write_bits (out ++ replicate k false) (length out) bits =
  (out ++ bits) ++ replicate (k - length bits) false.
Proof.
  intros H. unfold write_bits. rewrite take_app_length, <- app_assoc. do 2 f_equal.
  rewrite <- drop_drop, drop_app_length, drop_replicate. done.
Qed.

Lemma length_write_bits slice from bits :
  (from + length bits <= length slice)%nat -> length (write_bits slice from bits) = length slice.
Proof. intros H. unfold write_bits. rewrite !length_app, length_take, length_drop. lia. Qed.

Lemma jam_inv_room st out bits :
  jam_inv st out -> (length out + length bits <= length (jam_slice st))%nat ->
  jam_inv {| jam_cursor := length out + length bits;
             jam_slice := write_bits (jam_slice st) (length out) bits |} (out ++ bits).
Proof.
  intros (Hc & k & Hs & w & Hw & Hl) Hroom. split; [cbn; by rewrite length_app|]. cbn [jam_slice].
  rewrite Hs, length_app, length_replicate in Hroom.
  exists (k - length bits)%nat. split; [rewrite Hs; apply write_bits_app; lia|]. exists w. split; [done|].
  rewrite length_write_bits; [done|]. rewrite Hs, length_app, length_replicate. lia.
Qed.

Lemma set_bits_inv st out bits :
  jam_inv st out -> (length out + length bits <= length (jam_slice st))%nat ->
  jam_inv (set_bits st bits) (out ++ bits).
Proof. intros H Hroom. unfold set_bits. rewrite (proj1 H). by apply jam_inv_room. Qed.

Lemma double_inv st out :
  jam_inv st out ->
  jam_inv (double_atom_size st) out /\
  length (jam_slice (double_atom_size st)) = (2 * length (jam_slice st))%nat.
Proof.
  intros (Hc & k & Hs & w & Hw & Hl). unfold double_atom_size. cbn [jam_slice jam_cursor].
  assert (Hlen : (length out <= length (jam_slice st))%nat) by (rewrite Hs, length_app; lia).
  assert (Hl2 : length (take (jam_cursor st) (jam_slice st) ++
    replicate (length (jam_slice st) + length (jam_slice st) - jam_cursor st) false)
    = (2 * length (jam_slice st))%nat).
  { rewrite length_app, length_take, length_replicate, Hc. lia. }
  split; [|done]. split; [done|]. cbn [jam_slice].
  exists (length (jam_slice st) + length (jam_slice st) - jam_cursor st)%nat.
  split; [by rewrite Hs, Hc, take_app_length at 1|]. exists (2 * w)%nat. split; [lia|]. rewrite Hl2. lia.
Qed.

Lemma jam_inv_pos st out : jam_inv st out -> (64 <= length (jam_slice st))%nat.
Proof. intros (_ & _ & _ & w & Hw & ->). lia. Qed.

Lemma grow_loop_inv fuel n st out :
  jam_inv st out -> (length out + n <= length (jam_slice st) + fuel)%nat ->
  jam_inv (grow_loop fuel n st) out /\ (length out + n <= length (jam_slice (grow_loop fuel n st)))%nat.
Proof.
  revert st. induction fuel as [|fuel IH]; intros st H Hf; cbn [grow_loop]; [split; [done|lia]|].
  rewrite (proj1 H). destruct (Nat.ltb_spec (length (jam_slice st)) (length out + n)); [|split; [done|lia]].
  destruct (double_inv st out H) as [H' Hl]. pose proof (jam_inv_pos _ _ H). apply IH; [done|lia].
Qed.
Lemma grow_inv n st out :
  jam_inv st out -> jam_inv (grow n st) out /\ (length out + n <= length (jam_slice (grow n st)))%nat.
Proof. intros H. apply grow_loop_inv; [done|]. rewrite (proj1 H). lia. Qed.

Lemma grow_set st out bits : jam_inv st out -> jam_inv (set_bits (grow (length bits) st) bits) (out ++ bits).
Proof. intros H. destruct (grow_inv (length bits) st out H). by apply set_bits_inv. Qed.

Lemma mat_room st out a :
  jam_inv st out -> wf_atom a -> Z.of_nat (length (as_bitslice a)) < U64 ->
  if (length (jam_slice st) <? length out + length (mat_bits (atom_val a)))%nat then mat st a = None
  else exists st', mat st a = Some st' /\ jam_inv st' (out ++ mat_bits (atom_val a)).
Proof.
  intros H Ha Hsz. pose proof (wf_atom_val a Ha) as Hv. pose proof (bitlen_slice a Ha) as Hbl.
  unfold mat. rewrite met0_usize_val by done. rewrite (proj1 H).
  destruct (Nat.eqb_spec (bitlen (atom_val a)) 0) as [E|E].
  { apply bitlen_0 in E; [|done]. rewrite E. cbn [mat_bits Z.eqb length].
    destruct (Nat.ltb_spec (length (jam_slice st)) (length out + 1)); [done|]. eexists. split; [done|].
    by apply set_bits_inv. }
  assert (Hpos : 0 < atom_val a) by (destruct (Z.eq_dec (atom_val a) 0) as [E0|]; [rewrite E0 in E; done|lia]).
  set (b := bitlen (atom_val a)) in *.
  destruct (wf_Atom_new (Z.of_nat b)) as [Hwb Hvb]; [split; width; lia|].
  rewrite met0_usize_val, Hvb by done.
  set (c := bitlen (Z.of_nat b)) in *.
  assert (Hc : c <> O) by (intros E1; apply bitlen_0 in E1; lia).
  assert (Hcb : (c <= length (as_bitslice (Atom_new (Z.of_nat b))))%nat).
  { unfold c. rewrite <- Hvb at 1. by apply bitlen_slice. }
  rewrite length_mat_bits by done. fold b. fold c.
  replace (length out + (2 * c + b))%nat with (length out + c + c + b)%nat by lia.
  destruct (Nat.ltb_spec (length (jam_slice st)) (length out + c + c + b)) as [|Hroom]; [done|].
  eexists. split; [done|]. rewrite !take_as_bitslice, Hvb by (done || lia).
  unfold mat_bits. destruct (Z.eqb_spec (atom_val a) 0); [lia|]. fold b. fold c.
  pose proof (jam_inv_room st out (replicate c false) H) as H1. rewrite length_replicate in H1.
  specialize (H1 ltac:(lia)).
  pose proof (jam_inv_room _ _ [true] H1) as H2. cbn [jam_slice] in H2.
  rewrite length_write_bits, length_app, length_replicate in H2 by (rewrite length_replicate; lia).
  specialize (H2 ltac:(cbn; lia)).
  pose proof (jam_inv_room _ _ (bits_of (c - 1) (Z.of_nat b)) H2) as H3. cbn [jam_slice] in H3.
  rewrite !length_write_bits, !length_app, length_replicate, length_bits_of in H3
    by (rewrite ?length_write_bits, ?length_replicate by (rewrite ?length_replicate; lia); cbn; lia).
  specialize (H3 ltac:(cbn; lia)).
  pose proof (jam_inv_room _ _ (bits_of b (atom_val a)) H3) as H4. cbn [jam_slice] in H4.
  rewrite !length_write_bits, !length_app, length_replicate, !length_bits_of in H4
    by (rewrite ?length_write_bits, ?length_replicate, ?length_bits_of
          by (rewrite ?length_write_bits, ?length_replicate by (rewrite ?length_replicate; lia); cbn; lia); cbn; lia).
  specialize (H4 ltac:(cbn; lia)). cbn [length] in H4.
  rewrite <- !app_assoc in H4. cbn [length].
  replace (length out + c + 1 + (c - 1))%nat with (length out + c + c)%nat in H4 by lia. exact H4.
Qed.

Lemma bitlen_u64 x : is_u64 x -> (bitlen x <= 64)%nat.
Proof. intros Hx. by apply bitlen_le. Qed.

Lemma mat_bits_length_le a :
  wf_atom a -> Z.of_nat (length (as_bitslice a)) < U64 ->
  (length (mat_bits (atom_val a)) <= length (as_bitslice a) + 128)%nat.
Proof.
  intros Ha Hsz. pose proof (wf_atom_val a Ha). pose proof (bitlen_slice a Ha).
  destruct (Z.eq_dec (atom_val a) 0) as [->|]; [cbn; lia|].
  rewrite length_mat_bits by lia.
  pose proof (bitlen_u64 (Z.of_nat (bitlen (atom_val a)))). width. lia.
Qed.

Lemma mat_loop_inv fuel st out a :
  jam_inv st out -> wf_atom a -> Z.of_nat (length (as_bitslice a)) < U64 ->
  (length out + length (mat_bits (atom_val a)) <= length (jam_slice st) + fuel)%nat ->
  exists st', mat_loop (S fuel) st a = Some st' /\ jam_inv st' (out ++ mat_bits (atom_val a)).
Proof.
  revert st. induction fuel as [|fuel IH]; intros st H Ha Hsz Hf;
    pose proof (mat_room st out a H Ha Hsz) as Hm;
    destruct (Nat.ltb_spec (length (jam_slice st)) (length out + length (mat_bits (atom_val a))));
    [lia| | |]; try (destruct Hm as (st' & E & H'); exists st'; cbn [mat_loop]; by rewrite E).
  destruct (double_inv st out H) as [H' Hl]. pose proof (jam_inv_pos _ _ H).
  destruct (IH (double_atom_size st)) as (st' & E & H2); [done..|lia|].
  exists st'. split; [|done]. cbn [mat_loop] in *. by rewrite Hm.
Qed.

Lemma mat_loop_spec st out a :
  jam_inv st out -> wf_atom a -> Z.of_nat (length (as_bitslice a)) < U64 ->
  exists st', mat_loop (mat_fuel st a) st a = Some st' /\ jam_inv st' (out ++ mat_bits (atom_val a)).
Proof.
  intros H Ha Hsz. unfold mat_fuel.
  replace (jam_cursor st + 3 * length (as_bitslice a) + 256)%nat
    with (S (jam_cursor st + 3 * length (as_bitslice a) + 255)) by lia.
  apply mat_loop_inv; [done..|]. rewrite (proj1 H). pose proof (mat_bits_length_le a Ha Hsz). lia.
Qed.

Lemma jam_atom_spec st out a :
  jam_inv st out -> wf_atom a -> Z.of_nat (length (as_bitslice a)) < U64 ->
  exists st', jam_atom st a = Some st' /\ jam_inv st' (out ++ false :: mat_bits (atom_val a)).
Proof.
  intros H Ha Hsz. destruct (mat_loop_spec (set_bits (grow 1 st) [false]) (out ++ [false]) a) as (st' & E & H');
    [by apply (grow_set st out [false])|done..|].
  exists st'. split; [done|]. by rewrite <- app_assoc in H'.
Qed.

Lemma jam_cell_spec st out : jam_inv st out -> jam_inv (jam_cell st) (out ++ [true; false]).
Proof. intros H. by apply (grow_set st out [true; false]). Qed.

Lemma Atom_new_slice x : length (as_bitslice (Atom_new x)) = 64%nat.
Proof. unfold Atom_new. by destruct (x <=? DIRECT_MAX). Qed.

Lemma jam_backref_spec st out x :
  jam_inv st out -> is_u64 x ->
  exists st', jam_backref st x = Some st' /\ jam_inv st' (out ++ true :: true :: mat_bits x).
Proof.
  intros H Hx. destruct (wf_Atom_new x Hx) as [Hw Hv].
  destruct (mat_loop_spec (set_bits (grow 2 st) [true; true]) (out ++ [true; true]) (Atom_new x)) as (st' & E & H');
    [by apply (grow_set st out [true; true])|done|by rewrite Atom_new_slice|].
  exists st'. split; [done|]. by rewrite <- app_assoc, Hv in H'.
Qed.

(** * The encoding, by recursion on the noun *)

(** The positions of the nouns written so far *)
Definition positions := noun -> option nat.
Definition pos_insert (m : positions) (n : noun) (p : nat) : positions :=
  fun n' => if decide (n' = n) then Some p else m n'.

Definition ref_bits (q : nat) : list bool := true :: true :: mat_bits (Z.of_nat q).
Definition atom_bits (a : atom) : list bool := false :: mat_bits (atom_val a).

Fixpoint jam_bits (n : noun) (p : nat) (m : positions) : list bool * positions :=
  match m n with
  | Some q =>
      (match n with
       | NAtom a => if (bitlen (atom_val a) <=? bitlen (Z.of_nat q))%nat then atom_bits a else ref_bits q
       | NCell _ _ => ref_bits q
       end, m)
  | None =>
      let m := pos_insert m n p in
      match n with
      | NAtom a => (atom_bits a, m)
      | NCell h t =>
          let '(bh, m) := jam_bits h (p + 2) m in
          let '(bt, m) := jam_bits t (p + 2 + length bh) m in
          (true :: false :: bh ++ bt, m)
      end
  end.

(** The atoms of a noun fit in memory. *)
Fixpoint sized (n : noun) : Prop :=
  match n with
  | NAtom a => Z.of_nat (length (as_bitslice a)) < U64
  | NCell h t => sized h /\ sized t
  end.

Section jam.
Context {M : Type -> Type} `{HM : !NounMap M} `{HL : !NounMapLaws M}.

Definition agrees (bm : M Z) (m : positions) : Prop :=
  map_ok bm /\ forall n, map_lookup bm n = Some (Z.of_nat <$> m n).

Lemma agrees_insert bm m n p :
  agrees bm m -> exists bm', map_insert bm n (Z.of_nat p) = Some bm' /\ agrees bm' (pos_insert m n p).
Proof.
  intros [Hok Hl]. destruct (map_insert_ok bm n (Z.of_nat p) Hok) as (bm' & E & Hok' & Hl').
  exists bm'. split; [done|]. split; [done|]. intros n'. rewrite Hl', Hl. unfold pos_insert.
  by destruct (decide (n' = n)).
Qed.

(** Positions of earlier nouns are before the cursor. *)
Definition before (m : positions) (p : nat) : Prop := forall n q, m n = Some q -> (q < p)%nat.

Lemma jam_bits_length n p m : (0 < length (fst (jam_bits n p m)))%nat.
Proof.
  destruct n as [a|h t]; cbn [jam_bits].
  - destruct (m (NAtom a)) as [q|]; cbn; [|lia]. destruct (_ <=? _)%nat; cbn; lia.
  - destruct (m (NCell h t)); cbn; [lia|]. destruct (jam_bits h _ _) as [bh m1].
    destruct (jam_bits t _ _) as [bt m2]. cbn. lia.
Qed.

Lemma before_mono m p p' : before m p -> (p <= p')%nat -> before m p'.
Proof. intros H Hp n q E. specialize (H n q E). lia. Qed.
Lemma before_insert m n p p' : before m p -> (p < p')%nat -> before (pos_insert m n p) p'.
Proof.
  intros H Hp n' q. unfold pos_insert. destruct (decide (n' = n)); [intros [= <-]; done|].
  intros E. specialize (H n' q E). lia.
Qed.

Lemma jam_bits_before n p m :
  before m p -> before (snd (jam_bits n p m)) (p + length (fst (jam_bits n p m))).
Proof.
  revert p m. induction n as [a|h IHh t IHt]; intros p m Hb; pose proof (jam_bits_length) as Hlen.
  - specialize (Hlen (NAtom a) p m). revert Hlen. cbn [jam_bits].
    destruct (m (NAtom a)) as [q|]; cbn [fst snd]; intros Hlen; [eapply before_mono; [done|lia]|].
    apply before_insert; [done|lia].
  - specialize (Hlen (NCell h t) p m). revert Hlen. cbn [jam_bits].
    destruct (m (NCell h t)) as [q|]; cbn [fst snd]; intros Hlen; [eapply before_mono; [done|lia]|].
    specialize (IHh (p + 2)%nat (pos_insert m (NCell h t) p)).
    destruct (jam_bits h (p + 2) _) as [bh m1]. cbn [fst snd] in IHh.
    specialize (IHt (p + 2 + length bh)%nat m1). destruct (jam_bits t _ m1) as [bt m2]. cbn [fst snd] in *.
    eapply before_mono; [apply IHt, IHh; apply before_insert; [done|lia]|].
    cbn [length]. rewrite length_app. lia.
Qed.

(** The loop writes the encoding of the noun on top of the stack. *)
Lemma jam_loop_noun n : forall stack bm m st out,
  wf_noun n -> sized n -> jam_inv st out -> agrees bm m -> before m (length out) ->
  Z.of_nat (length out + length (fst (jam_bits n (length out) m))) < U64 ->
  exists steps bm' st', (steps <= noun_nodes n)%nat /\
    (forall f, jam_loop (steps + f) (n :: stack) bm st = jam_loop f stack bm' st') /\
    jam_inv st' (out ++ fst (jam_bits n (length out) m)) /\
    agrees bm' (snd (jam_bits n (length out) m)).
Proof.
  induction n as [a|h IHh t IHt]; intros stack bm m st out Hwf Hsz Hst Hbm Hbef Hbound;
    cbn [jam_bits wf_noun sized] in *.
  - pose proof (proj2 Hbm (NAtom a)) as Hlook. destruct (m (NAtom a)) as [q|] eqn:Hm; cbn [fmap option_fmap option_map] in Hlook.
    + pose proof (Hbef _ _ Hm) as Hq. assert (Hq64 : is_u64 (Z.of_nat q)) by (width; lia).
      destruct (bitlen (atom_val a) <=? bitlen (Z.of_nat q))%nat eqn:Hcmp.
      * destruct (jam_atom_spec st out a Hst Hwf Hsz) as (st' & E & Hst').
        exists 1%nat, bm, st'. split; [cbn; lia|]. split; [|split; done]. intros f. cbn [jam_loop Nat.add].
        rewrite Hlook. cbn [mbind option_bind]. by rewrite met0_usize_val, met0_u64_val, Hcmp, E by done.
      * destruct (jam_backref_spec st out (Z.of_nat q) Hst Hq64) as (st' & E & Hst').
        exists 1%nat, bm, st'. split; [cbn; lia|]. split; [|split; done]. intros f. cbn [jam_loop Nat.add].
        rewrite Hlook. cbn [mbind option_bind]. by rewrite met0_usize_val, met0_u64_val, Hcmp, E by done.
    + destruct (agrees_insert bm m (NAtom a) (length out) Hbm) as (bm' & Eb & Hbm').
      destruct (jam_atom_spec st out a Hst Hwf Hsz) as (st' & E & Hst').
      exists 1%nat, bm', st'. split; [cbn; lia|]. split; [|split; done]. intros f. cbn [jam_loop Nat.add].
      rewrite Hlook. cbn [mbind option_bind]. by rewrite (proj1 Hst), Eb; cbn [mbind option_bind]; rewrite E.
  - pose proof (proj2 Hbm (NCell h t)) as Hlook. destruct (m (NCell h t)) as [q|] eqn:Hm; cbn [fmap option_fmap option_map] in Hlook.
    + pose proof (Hbef _ _ Hm) as Hq. assert (Hq64 : is_u64 (Z.of_nat q)) by (width; lia).
      destruct (jam_backref_spec st out (Z.of_nat q) Hst Hq64) as (st' & E & Hst').
      exists 1%nat, bm, st'. split; [cbn; lia|]. split; [|split; done]. intros f. cbn [jam_loop Nat.add].
      rewrite Hlook. cbn [mbind option_bind]. by rewrite E.
    + destruct Hwf as [Wh Wt], Hsz as [Sh St].
      destruct (agrees_insert bm m (NCell h t) (length out) Hbm) as (bm1 & Eb & Hbm1).
      pose proof (jam_cell_spec st out Hst) as Hst1.
      set (m1 := pos_insert m (NCell h t) (length out)) in *.
      assert (Hlo : length (out ++ [true; false]) = (length out + 2)%nat) by (by rewrite length_app).
      specialize (IHh (t :: stack) bm1 m1 (jam_cell st) (out ++ [true; false]) Wh Sh Hst1 Hbm1).
      rewrite Hlo in IHh.
      assert (Hbef1 : before m1 (length out + 2)) by (apply before_insert; [done|lia]).
      pose proof (jam_bits_before h (length out + 2) m1 Hbef1) as Hbef2.
      destruct (jam_bits h (length out + 2) m1) as [bh m2] eqn:Ejh. cbn [fst snd] in *.
      specialize (IHt stack).
      destruct (jam_bits t (length out + 2 + length bh) m2) as [bt m3] eqn:Ejt. cbn [fst snd length] in *.
      rewrite length_app in Hbound.
      destruct (IHh Hbef1 ltac:(lia)) as (k1 & bm2 & st2 & Hk1 & Hloop1 & Hst2 & Hbm2).
      assert (Hlo2 : length ((out ++ [true; false]) ++ bh) = (length out + 2 + length bh)%nat)
        by (rewrite length_app, Hlo; lia).
      specialize (IHt bm2 m2 st2 _ Wt St Hst2 Hbm2). rewrite Hlo2, Ejt in IHt. cbn [fst snd] in IHt.
      destruct (IHt Hbef2 ltac:(lia)) as (k2 & bm3 & st3 & Hk2 & Hloop2 & Hst3 & Hbm3).
      exists (S (k1 + k2)), bm3, st3. split; [cbn; lia|]. split; [|split; [|done]].
      * intros f. cbn [jam_loop Nat.add]. rewrite Hlook. cbn [mbind option_bind].
        rewrite (proj1 Hst), Eb. cbn [mbind option_bind].
        rewrite <- Nat.add_assoc, Hloop1. apply Hloop2.
      * rewrite <- !app_assoc in Hst3. exact Hst3.
Qed.
End jam.

(** * The result of [jam] *)

(** A word that ends with a one is determined by its value. *)
Definition top (bs : list bool) : Prop := bs <> [] /\ 2 ^ Z.of_nat (length bs - 1) <= bits_val bs.

Lemma top_app pre bs : top bs -> top (pre ++ bs).
Proof.
  intros [Hne Hv]. split; [by destruct pre, bs|]. rewrite bits_val_app, length_app.
  assert (length bs <> O) by (by destruct bs). pose proof (bits_val_nonneg pre).
  replace (Z.of_nat (length pre + length bs - 1)) with (Z.of_nat (length pre) + Z.of_nat (length bs - 1)) by lia.
  rewrite Z.pow_add_r by lia. assert (0 < 2 ^ Z.of_nat (length pre)) by (apply Z.pow_pos_nonneg; lia). nia.
Qed.

Lemma top_bits_of z : 0 < z -> top (bits_of (bitlen z) z).
Proof.
  intros Hz. assert (Hb : bitlen z <> O) by (intros E; apply bitlen_0 in E; lia).
  split; [intros E; apply (f_equal length) in E; by rewrite length_bits_of in E|].
  rewrite length_bits_of, bits_val_of_small by (split; [lia|apply bitlen_bound; lia]).
  pose proof (bitlen_low z Hz). by replace (Z.of_nat (bitlen z - 1)) with (Z.of_nat (bitlen z) - 1) by lia.
Qed.

Lemma mat_bits_top z : 0 <= z -> top (mat_bits z).
Proof.
  intros Hz. unfold mat_bits. destruct (Z.eqb_spec z 0); [done|].
  rewrite !app_assoc. apply top_app, top_bits_of. lia.
Qed.

Lemma jam_bits_top n p m : wf_noun n -> top (fst (jam_bits n p m)).
Proof.
  revert p m. induction n as [a|h IHh t IHt]; intros p m Hwf; cbn [jam_bits wf_noun] in *.
  - pose proof (wf_atom_val a Hwf).
    assert (Ha : top (atom_bits a)) by (apply (top_app [false]), mat_bits_top; done).
    assert (Hq : forall q, top (ref_bits q)) by (intros q; apply (top_app [true; true]), mat_bits_top; lia).
    destruct (m (NAtom a)); cbn [fst]; [|done]. by destruct (_ <=? _)%nat.
  - destruct (m (NCell h t)); cbn [fst]; [apply (top_app [true; true]), mat_bits_top; lia|].
    destruct (jam_bits h _ _) as [bh m1].
    specialize (IHt (p + 2 + length bh)%nat m1 (proj2 Hwf)). destruct (jam_bits t _ m1) as [bt m2].
    apply (top_app ([true; false] ++ bh)) in IHt. cbn in *. done.
Qed.

Lemma slice_of_value a bs :
  wf_atom a -> atom_val a = bits_val bs -> top bs ->
  exists k, as_bitslice a = bs ++ replicate k false.
Proof.
  intros Ha Hv [Hne Ht]. pose proof (bitlen_slice a Ha) as Hl. rewrite Hv in Hl.
  assert (Hlen : (length bs <= length (as_bitslice a))%nat).
  { etransitivity; [|exact Hl]. assert (length bs <> O) by (by destruct bs).
    destruct (Nat.le_gt_cases (length bs) (bitlen (bits_val bs))) as [|Hgt]; [done|exfalso].
    pose proof (bitlen_bound (bits_val bs) (bits_val_nonneg bs)) as Hb.
    assert (2 ^ Z.of_nat (bitlen (bits_val bs)) <= 2 ^ Z.of_nat (length bs - 1)) by (apply Z.pow_le_mono_r; lia). lia. }
  exists (length (as_bitslice a) - length bs)%nat. apply bits_val_inj.
  - rewrite length_app, length_replicate. lia.
  - by rewrite as_bitslice_val, Hv, bits_val_app, bits_val_replicate_false, Z.mul_0_r, Z.add_0_r.
Qed.

(** The encoding of a whole noun *)
Definition encoding (n : noun) : list bool := fst (jam_bits n 0 (fun _ => None)).

Lemma jam_spec {M : Type -> Type} `{HM : !NounMap M} `{HL : !NounMapLaws M} n :
  wf_noun n -> sized n -> Z.of_nat (length (encoding n)) < U64 ->
  exists a, jam n = Some a /\ wf_atom a /\ exists k, as_bitslice a = encoding n ++ replicate k false.
Proof.
  intros Hwf Hsz Hb.
  destruct (jam_loop_noun n [] map_new (fun _ => None) {| jam_cursor := 0; jam_slice := replicate (64 * 8) false |} [])
    as (k & bm & st & Hk & Hloop & Hst & _); try done.
  - split; [done|]. exists (64 * 8)%nat. split; [done|]. exists 8%nat. split; [lia|done].
  - split; [apply map_new_ok|]. intros n'. apply map_lookup_new.
  - fold (encoding n) in Hst. unfold jam.
    replace (S (noun_nodes n)) with (k + (S (noun_nodes n) - k))%nat by lia. rewrite Hloop.
    destruct (S (noun_nodes n) - k)%nat eqn:E; [lia|]. cbn [jam_loop mbind option_bind].
    eexists. split; [done|]. destruct Hst as (_ & j & Hs & w & Hw & Hl). cbn [app] in Hs.
    replace (length (jam_slice st) / 64)%nat with w by (rewrite Hl, Nat.mul_comm, Nat.div_mul; done).
    destruct (bits_words_spec w (jam_slice st) Hl) as (Hf & Hlw & Hv).
    assert (Hne : bits_words w (jam_slice st) <> []) by (intros E'; rewrite E' in Hlw; cbn in Hlw; lia).
    destruct (normalize_as_atom_wf _ Hf Hne) as [Hwa Hva]. split; [done|].
    apply slice_of_value; [done| |by apply jam_bits_top].
    rewrite Hva, Hv, Hs. rewrite bits_val_app, bits_val_replicate_false. by rewrite Z.mul_0_r, Z.add_0_r.
Qed.

(** * Reading numbers *)

Section read.
Context (pre bits post : list bool).
Notation buffer := (pre ++ bits ++ post).
Notation here := (Z.of_nat (length pre)).

Lemma slice_range_app :
  slice_range buffer here (here + Z.of_nat (length bits)) = Some bits.
Proof.
  unfold slice_range, bit_len. rewrite !length_app, !(proj2 (Z.leb_le _ _)) by lia. cbn [andb]. replace (here + Z.of_nat (length bits) - here) with (Z.of_nat (length bits)) by lia.
  by rewrite !Nat2Z.id, drop_app_length, take_app_length.
Qed.

Lemma next_up_to_app :
  here + Z.of_nat (length bits) < U64 ->
  next_up_to_n_bits here buffer (Z.of_nat (length bits)) = Some (bits, here + Z.of_nat (length bits)).
Proof.
  intros Hlen. unfold next_up_to_n_bits, bit_len in *. rewrite !length_app in *.
  rewrite wrap64_small by (width; lia).
  rewrite (proj2 (Z.leb_le _ _)) by lia. by rewrite slice_range_app.
Qed.

Lemma rest_bits_app : bits <> [] -> rest_bits here buffer = bits ++ post.
Proof.
  intros Hne. unfold rest_bits, bit_len. assert (length bits <> O) by (by destruct bits).
  rewrite !length_app, (proj2 (Z.ltb_lt _ _)) by lia. by rewrite Nat2Z.id, drop_app_length.
Qed.
End read.

Lemma get_size_mat pre z post :
  0 <= z -> bit_len (pre ++ mat_bits z) < 2 ^ 63 ->
  exists pre', pre ++ mat_bits z = pre' ++ bits_of (bitlen z) z /\
  get_size (Z.of_nat (length pre)) (pre ++ mat_bits z ++ post) =
    Ok (Z.of_nat (bitlen z), Z.of_nat (length pre')).
Proof.
  intros Hz Hlen. unfold get_size. rewrite rest_bits_app by (apply mat_bits_top; done).
  unfold mat_bits in *. destruct (Z.eqb_spec z 0) as [->|Hne].
  { exists (pre ++ [true]). split; [by rewrite app_nil_r|].
    cbn. rewrite length_app. cbn. do 2 f_equal. lia. }
  set (b := bitlen z) in *. set (c := bitlen (Z.of_nat b)) in *.
  assert (Hb : b <> O) by (intros E; apply bitlen_0 in E; lia).
  assert (Hc : c <> O) by (intros E; apply bitlen_0 in E; lia).
  exists (pre ++ replicate c false ++ [true] ++ bits_of (c - 1) (Z.of_nat b)).
  split; [by rewrite <- !app_assoc|].
  assert (Hfirst : first_one ((replicate c false ++ [true] ++ bits_of (c - 1) (Z.of_nat b) ++ bits_of b z) ++ post) = Some c).
  { rewrite <- !app_assoc. apply (first_bit_app true). }
  rewrite Hfirst. destruct c as [|c'] eqn:Ec; [done|].
  set (pre1 := pre ++ replicate (S c') false ++ [true]).
  assert (Hbuf : pre ++ (replicate (S c') false ++ [true] ++ bits_of (S c' - 1) (Z.of_nat b) ++ bits_of b z) ++ post
    = pre1 ++ bits_of (S c' - 1) (Z.of_nat b) ++ (bits_of b z ++ post)).
  { unfold pre1. by rewrite <- !app_assoc. }
  rewrite Hbuf. unfold bit_len in Hlen. rewrite !length_app, length_replicate, !length_bits_of in Hlen. cbn [length] in Hlen.
  assert (Hcur : Z.of_nat (length pre) + Z.of_nat (S c') + 1 = Z.of_nat (length pre1)).
  { unfold pre1. rewrite !length_app, length_replicate. cbn [length]. lia. }
  rewrite Hcur. pose proof (next_up_to_app pre1 (bits_of (S c' - 1) (Z.of_nat b)) (bits_of b z ++ post)) as Hn.
  rewrite length_bits_of in Hn. replace (Z.of_nat (S c') - 1) with (Z.of_nat (S c' - 1)) by lia.
  rewrite Hn by (width; lia).
  cbn [or_panic mbind outcome_bind]. unfold bit_len. rewrite length_bits_of.
  assert (Hc64 : (S c' <= 64)%nat).
  { rewrite <- Ec. apply bitlen_u64. width. lia. }
  rewrite (proj2 (Z.ltb_ge _ _)), Z.eqb_refl by lia. cbn [negb orb].
  assert (Hbv : 2 ^ Z.of_nat c' <= Z.of_nat b < 2 ^ Z.of_nat (S c')).
  { rewrite <- Ec. split; [|apply bitlen_bound; lia]. pose proof (bitlen_low (Z.of_nat b) ltac:(lia)) as Hlow.
    fold c in Hlow. rewrite Ec in Hlow. by replace (Z.of_nat (S c') - 1) with (Z.of_nat c') in Hlow by lia. }
  replace (S c' - 1)%nat with c' in * by lia.
  rewrite bits_val_of, Z.mod_small with (b := 64), Z.shiftl_1_l by lia.
  assert (Hmod : Z.of_nat b mod 2 ^ Z.of_nat c' = Z.of_nat b - 2 ^ Z.of_nat c').
  { rewrite Nat2Z.inj_succ, Z.pow_succ_r in Hbv by lia. symmetry. apply (Z.mod_unique_pos _ _ 1); lia. }
  rewrite Hmod, wrap64_small.
  - do 2 f_equal; [lia|]. unfold pre1. rewrite !length_app, length_replicate, length_bits_of. cbn [length]. lia.
  - width. lia.
Qed.

Lemma bits_words_short n bs :
  (length bs <= 64 * n)%nat -> bits_words n bs = bits_words n (bs ++ replicate (64 * n - length bs) false).
Proof.
  revert bs. induction n as [|n IH]; intros bs Hl; [done|]. cbn [bits_words]. f_equal.
  - destruct (Nat.le_gt_cases 64 (length bs)).
    + by rewrite take_app_le.
    + rewrite take_app_ge, (take_ge bs) by lia. rewrite bits_val_app, take_replicate.
      by rewrite bits_val_replicate_false, Z.mul_0_r, Z.add_0_r.
  - destruct (Nat.le_gt_cases 64 (length bs)).
    + rewrite drop_app_le, (IH (drop 64 bs)) by (rewrite ?length_drop; lia). do 3 f_equal.
      rewrite length_drop. lia.
    + rewrite drop_app_ge, (drop_ge bs), drop_replicate by lia. rewrite IH by (cbn; lia). cbn [app].
      do 2 f_equal. cbn [length]. lia.
Qed.

(** After the size, the bits of the number *)
Lemma mat_number pre z post :
  0 <= z -> bit_len (pre ++ mat_bits z) < 2 ^ 63 ->
  exists pre', pre ++ mat_bits z = pre' ++ bits_of (bitlen z) z /\
  get_size (Z.of_nat (length pre)) (pre ++ mat_bits z ++ post) = Ok (Z.of_nat (bitlen z), Z.of_nat (length pre')) /\
  pre ++ mat_bits z ++ post = pre' ++ bits_of (bitlen z) z ++ post /\
  Z.of_nat (length (pre ++ mat_bits z)) = Z.of_nat (length pre') + Z.of_nat (bitlen z) /\
  Z.of_nat (length pre') + Z.of_nat (bitlen z) < 2 ^ 63 /\
  bits_val (bits_of (bitlen z) z) = z.
Proof.
  intros Hz Hlen. destruct (get_size_mat pre z post Hz Hlen) as (pre' & Hpre & Hget). exists pre'.
  assert (Hl : Z.of_nat (length (pre ++ mat_bits z)) = Z.of_nat (length pre') + Z.of_nat (bitlen z)).
  { rewrite Hpre, length_app, length_bits_of. lia. }
  split_and!; [done|done|by rewrite app_assoc, Hpre, <- app_assoc|done|unfold bit_len in Hlen; lia|].
  apply bits_val_of_small. split; [done|by apply bitlen_bound].
Qed.

Lemma rub_atom_mat pre a post :
  wf_atom a -> bit_len (pre ++ mat_bits (atom_val a)) < 2 ^ 63 ->
  rub_atom_internal (Z.of_nat (length pre)) (pre ++ mat_bits (atom_val a) ++ post) =
    Ok (a, Z.of_nat (length (pre ++ mat_bits (atom_val a)))).
Proof.
  intros Ha Hlen. pose proof (wf_atom_val a Ha) as Hv.
  destruct (mat_number pre (atom_val a) post Hv Hlen) as (pre' & _ & Hget & Hbuf & -> & Hmax & Hbits).
  unfold rub_atom_internal. rewrite Hget, Hbuf. cbn [mbind outcome_bind].
  remember (atom_val a) as z eqn:Ez. pose proof (bitlen_bound z Hv) as Hz. pose proof (bitlen_0 z Hv) as Hz0.
  remember (bitlen z) as b eqn:Eb.
  pose proof (next_up_to_app pre' (bits_of b z) post) as Hn. rewrite length_bits_of in Hn.
  rewrite Hn by (width; lia). cbn [or_panic mbind outcome_bind]. clear Hn Hget Hbuf.
  destruct (Z.eqb_spec (Z.of_nat b) 0) as [E|E].
  { do 2 f_equal. apply atom_val_inj; [by split|done|]. cbn [atom_val]. rewrite <- Ez. symmetry. apply Hz0. lia. }
  destruct (Z.ltb_spec (Z.of_nat b) 64) as [Hb|Hb].
  { do 2 f_equal. rewrite Hbits. assert (2 ^ Z.of_nat b <= 2 ^ 63) by (apply Z.pow_le_mono_r; lia).
    apply atom_val_inj; [|done|done]. cbn [wf_atom]. rewrite DIRECT_MAX_val. lia. }
  rewrite wrap64_small, Z.shiftr_div_pow2 by (width; lia). change (2 ^ 6) with 64.
  set (w := (Z.of_nat b + 63) / 64). assert (Hw : Z.of_nat b <= 64 * w < Z.of_nat b + 64 /\ 0 < w).
  { unfold w. pose proof (Z.div_mod (Z.of_nat b + 63) 64). pose proof (Z.mod_pos_bound (Z.of_nat b + 63) 64). lia. }
  unfold bit_len. rewrite length_bits_of, (proj2 (Z.ltb_ge _ _)), (proj2 (Z.eqb_neq _ _)) by lia.
  do 2 f_equal. rewrite bits_words_short by (rewrite length_bits_of; lia).
  set (ws := bits_of b z ++ _). assert (Hl : length ws = (64 * Z.to_nat w)%nat).
  { unfold ws. rewrite length_app, length_replicate, length_bits_of. lia. }
  destruct (bits_words_spec (Z.to_nat w) ws Hl) as (Hf & Hlw & Hval).
  assert (Hne : bits_words (Z.to_nat w) ws <> []) by (intros E'; rewrite E' in Hlw; cbn in Hlw; lia).
  destruct (normalize_as_atom_wf _ Hf Hne) as [Hwf Hva]. apply atom_val_inj; [done..|].
  rewrite Hva, Hval. unfold ws. by rewrite bits_val_app, bits_val_replicate_false, Z.mul_0_r, Z.add_0_r, Hbits.
Qed.

Lemma rub_backref_mat pre x post :
  is_u64 x -> bit_len (pre ++ mat_bits x) < 2 ^ 63 ->
  rub_backref (Z.of_nat (length pre)) (pre ++ mat_bits x ++ post) =
    Ok (x, Z.of_nat (length (pre ++ mat_bits x))).
Proof.
  intros Hx Hlen.
  destruct (mat_number pre x post (proj1 Hx) Hlen) as (pre' & _ & Hget & Hbuf & -> & Hmax & Hbits).
  unfold rub_backref. rewrite Hget, Hbuf. cbn [mbind outcome_bind].
  pose proof (bitlen_0 x (proj1 Hx)) as Hx0. pose proof (bitlen_u64 x Hx).
  destruct (Z.eqb_spec (Z.of_nat (bitlen x)) 0) as [E|E].
  { do 2 f_equal; [|lia]. symmetry. apply Hx0. lia. }
  rewrite (proj2 (Z.leb_le _ _)), wrap64_small by (width; lia).
  pose proof (slice_range_app pre' (bits_of (bitlen x) x) post) as Hs. rewrite length_bits_of in Hs.
  rewrite Hs. cbn [or_panic mbind outcome_bind]. by rewrite Hbits.
Qed.

(** * Nouns in the heap *)

(** The noun that a value represents; a value on a cycle represents none. *)
Inductive reads (h : heap) : val -> noun -> Prop :=
  | reads_atom a : reads h (VAtom a) (NAtom a)
  | reads_cell p c vh vt hn tn :
      h !! p = Some c -> cell_head c = Some vh -> cell_tail c = Some vt ->
      reads h vh hn -> reads h vt tn -> reads h (VCell p) (NCell hn tn).

(** A later heap: initialised fields keep their value. *)
Definition cell_ext (c c' : CellMemory) : Prop :=
  (forall v, cell_head c = Some v -> cell_head c' = Some v) /\
  (forall v, cell_tail c = Some v -> cell_tail c' = Some v).
Definition heap_ext (h h' : heap) : Prop :=
  forall p c, h !! p = Some c -> exists c', h' !! p = Some c' /\ cell_ext c c'.

Global Instance heap_ext_preorder : PreOrder heap_ext.
Proof.
  split.
  - intros h p c Hp. exists c. by split; [|split].
  - intros h1 h2 h3 H12 H23 p c Hp. destruct (H12 p c Hp) as (c2 & Hp2 & A1 & A2).
    destruct (H23 p c2 Hp2) as (c3 & Hp3 & B1 & B2). exists c3. split; [done|]. split; auto.
Qed.

Lemma reads_mono h h' v n : heap_ext h h' -> reads h v n -> reads h' v n.
Proof.
  intros Hext. induction 1 as [a|p c vh vt hn tn Hp Hh Ht _ IHh _ IHt]; [constructor|].
  destruct (Hext p c Hp) as (c' & Hp' & A1 & A2). eapply reads_cell; eauto.
Qed.

(** A destination that is still to be written *)
Definition free (h : heap) (d : dest) : Prop :=
  match d with
  | DResult => True
  | DHead p => exists c, h !! p = Some c /\ cell_head c = None
  | DTail p => exists c, h !! p = Some c /\ cell_tail c = None
  end.

Definition new_cell : CellMemory := {| cell_head := None; cell_tail := None |}.

Lemma free_snoc h d : free h d -> free (h ++ [new_cell]) d.
Proof.
  destruct d as [|p|p]; cbn; [done|..]; intros (c & Hp & Hc); exists c; split; try done; by apply lookup_app_l_Some.
Qed.
Lemma heap_ext_snoc h : heap_ext h (h ++ [new_cell]).
Proof. intros p c Hp. exists c. split; [by apply lookup_app_l_Some|by split]. Qed.

Lemma write_free d v r h :
  free h d ->
  heap_ext h (snd (write_dest d v r h)) /\
  read_dest d (fst (write_dest d v r h)) (snd (write_dest d v r h)) = Some v /\
  (d <> DResult -> fst (write_dest d v r h) = r) /\
  (forall d', d' <> d -> free h d' -> free (snd (write_dest d v r h)) d').
Proof.
  assert (Halter : forall (f : CellMemory -> CellMemory) p, (forall c, h !! p = Some c -> cell_ext c (f c)) -> heap_ext h (alter f p h)).
  { intros f p Hf q c Hq. destruct (decide (p = q)) as [->|Hne].
    - exists (f c). rewrite list_lookup_alter_eq, Hq. split; [done|by apply Hf].
    - exists c. rewrite list_lookup_alter_ne by done. by split; [|split]. }
  destruct d as [|p|p]; cbn [free write_dest fst snd read_dest].
  - intros _. split; [done|]. by split.
  - intros (c & Hp & Hc). split; [|split; [|split; [done|]]].
    + apply Halter. intros c' Hc'. simplify_eq. split; cbn; [congruence|done].
    + by rewrite list_lookup_alter_eq, Hp.
    + intros d' Hne Hfree. destruct d' as [|q|q]; cbn [free] in *; [done|..]; destruct Hfree as (c' & Hq & Hc').
      * assert (p <> q) by congruence. exists c'. by rewrite list_lookup_alter_ne.
      * destruct (decide (p = q)) as [->|]; [|exists c'; by rewrite list_lookup_alter_ne].
        simplify_eq. exists (set_head v c). by rewrite list_lookup_alter_eq, Hp.
  - intros (c & Hp & Hc). split; [|split; [|split; [done|]]].
    + apply Halter. intros c' Hc'. simplify_eq. split; cbn; [done|congruence].
    + by rewrite list_lookup_alter_eq, Hp.
    + intros d' Hne Hfree. destruct d' as [|q|q]; cbn [free] in *; [done|..]; destruct Hfree as (c' & Hq & Hc').
      * destruct (decide (p = q)) as [->|]; [|exists c'; by rewrite list_lookup_alter_ne].
        simplify_eq. exists (set_tail v c). by rewrite list_lookup_alter_eq, Hp.
      * assert (p <> q) by congruence. exists c'. by rewrite list_lookup_alter_ne.
Qed.

Lemma read_dest_mono d r h h' v :
  d <> DResult -> heap_ext h h' -> read_dest d r h = Some v -> forall r', read_dest d r' h' = Some v.
Proof.
  intros Hd Hext. destruct d as [|p|p]; [done|..]; cbn [read_dest]; intros Hr r';
    destruct (h !! p) as [c|] eqn:Hp; try done; destruct (Hext p c Hp) as (c' & -> & A1 & A2); cbn in *; auto.
Qed.

(** * Reading back an encoding *)

Lemma next_bit_at pre b post :
  next_bit (Z.of_nat (length pre)) (pre ++ b :: post) = (b, Z.of_nat (length (pre ++ [b]))).
Proof.
  unfold next_bit, bit_len. rewrite !length_app. cbn [length]. rewrite (proj2 (Z.ltb_lt _ _)) by lia.
  rewrite Nat2Z.id, list_lookup_middle by done. cbn. f_equal. lia.
Qed.

Section cue.
Context {M : Type -> Type} `{HM : !NounMap M} `{HL : !NounMapLaws M}.

Definition key (q : nat) : noun := NAtom (Atom_new (Z.of_nat q)).

Lemma key_inj p q : Z.of_nat p < 2 ^ 63 -> Z.of_nat q < 2 ^ 63 -> key p = key q -> p = q.
Proof.
  intros Hp Hq. unfold key. intros [= E]. apply (f_equal atom_val) in E.
  rewrite (proj2 (wf_Atom_new (Z.of_nat p) ltac:(width; lia))) in E.
  rewrite (proj2 (wf_Atom_new (Z.of_nat q) ltac:(width; lia))) in E. lia.
Qed.

(** The table has the nouns of [m] that are no larger than [k]. *)
Definition covers (k : nat) (h : heap) (C : M val) (m : positions) : Prop :=
  forall n q, m n = Some q -> (noun_nodes n <= k)%nat ->
    exists v, map_lookup C (key q) = Some (Some v) /\ reads h v n.

(** After a noun was read into [d], starting at position [p] *)
Record cue_post (p : nat) (n : noun) (d : dest) (m m' : positions)
    (r : val) (h : heap) (C : M val) (r' : val) (h' : heap) (C' : M val) : Prop := {
  post_ext : heap_ext h h';
  post_value : exists v, read_dest d r' h' = Some v /\ reads h' v n;
  post_free d' : d' <> d -> free h d' -> free h' d';
  post_result : d <> DResult -> r' = r;
  post_ok : map_ok C';
  post_old q : (q < p)%nat -> map_lookup C' (key q) = map_lookup C (key q);
  post_new n' q : m' n' = Some q -> m n' = Some q \/
    ((p <= q)%nat /\ exists v, map_lookup C' (key q) = Some (Some v) /\ reads h' v n');
}.

Arguments post_ext {p n d m m' r h C r' h' C'}.
Arguments post_value {p n d m m' r h C r' h' C'}.
Arguments post_free {p n d m m' r h C r' h' C'}.
Arguments post_result {p n d m m' r h C r' h' C'}.
Arguments post_ok {p n d m m' r h C r' h' C'}.
Arguments post_old {p n d m m' r h C r' h' C'}.
Arguments post_new {p n d m m' r h C r' h' C'}.

Lemma map_put_ok (C : M val) q v :
  map_ok C -> Z.of_nat q < 2 ^ 63 ->
  exists C', map_put C (Z.of_nat q) v = Ok C' /\ map_ok C' /\
    forall q', Z.of_nat q' < 2 ^ 63 ->
      map_lookup C' (key q') = if decide (q' = q) then Some (Some v) else map_lookup C (key q').
Proof.
  intros HC Hq. destruct (map_insert_ok C (key q) v HC) as (C' & E & HC' & Hl).
  exists C'. unfold map_put. fold (key q). rewrite E. split; [done|]. split; [done|].
  intros q' Hq'. rewrite Hl. destruct (decide (q' = q)) as [->|Hne]; [by rewrite decide_True|].
  rewrite decide_False; [done|]. intros E2. by apply Hne, key_inj.
Qed.

(** A noun already in the table, or an atom written in full *)
Lemma cue_ref pre post q d stk r h (C : M val) v n m :
  Z.of_nat q < 2 ^ 63 -> bit_len (pre ++ ref_bits q) < 2 ^ 63 -> free h d -> map_ok C ->
  map_lookup C (key q) = Some (Some v) -> reads h v n ->
  exists r' h',
    cue_step (pre ++ ref_bits q ++ post) (DestinationPointer d) (Build_CueState r h (Z.of_nat (length pre)) C stk) =
      Ok (Build_CueState r' h' (Z.of_nat (length (pre ++ ref_bits q))) C stk) /\
    cue_post (length pre) n d m m r h C r' h' C.
Proof.
  intros Hq Hlen Hfree HC Hlook Hv. destruct (write_free d v r h Hfree) as (Hext & Hread & Hr & Hfr).
  exists (fst (write_dest d v r h)), (snd (write_dest d v r h)). split.
  - unfold cue_step, ref_bits. cbn [app]. rewrite next_bit_at.
    replace (pre ++ true :: true :: mat_bits (Z.of_nat q) ++ post)
      with ((pre ++ [true]) ++ true :: mat_bits (Z.of_nat q) ++ post) by (by rewrite <- app_assoc).
    rewrite next_bit_at.
    replace ((pre ++ [true]) ++ true :: mat_bits (Z.of_nat q) ++ post)
      with (((pre ++ [true]) ++ [true]) ++ mat_bits (Z.of_nat q) ++ post) by (by rewrite <- !app_assoc).
    assert (Hpre : ((pre ++ [true]) ++ [true]) ++ mat_bits (Z.of_nat q) = pre ++ ref_bits q)
      by (by rewrite <- !app_assoc).
    rewrite rub_backref_mat by (rewrite ?Hpre; width; done || lia).
    cbn [mbind outcome_bind]. fold (key q). rewrite Hlook. cbn [or_panic mbind outcome_bind].
    destruct (write_dest d v r h). cbn [fst snd]. by rewrite Hpre.
  - split; try done; [|by left]. exists v. split; [done|]. by eapply reads_mono.
Qed.

Lemma cue_atom pre post a d stk r h (C : M val) m :
  wf_atom a -> bit_len (pre ++ atom_bits a) < 2 ^ 63 -> free h d -> map_ok C ->
  exists r' h' C',
    cue_step (pre ++ atom_bits a ++ post) (DestinationPointer d) (Build_CueState r h (Z.of_nat (length pre)) C stk) =
      Ok (Build_CueState r' h' (Z.of_nat (length (pre ++ atom_bits a))) C' stk) /\
    cue_post (length pre) (NAtom a) d m (pos_insert m (NAtom a) (length pre)) r h C r' h' C' /\
    cue_post (length pre) (NAtom a) d m m r h C r' h' C'.
Proof.
  intros Ha Hlen Hfree HC. destruct (write_free d (VAtom a) r h Hfree) as (Hext & Hread & Hr & Hfr).
  unfold bit_len in Hlen. rewrite length_app in Hlen.
  destruct (map_put_ok C (length pre) (VAtom a) HC ltac:(lia)) as (C' & Eput & HC' & Hl).
  exists (fst (write_dest d (VAtom a) r h)), (snd (write_dest d (VAtom a) r h)), C'. split.
  - unfold cue_step, atom_bits. cbn [app]. rewrite next_bit_at.
    replace (pre ++ false :: mat_bits (atom_val a) ++ post)
      with ((pre ++ [false]) ++ mat_bits (atom_val a) ++ post) by (by rewrite <- app_assoc).
    assert (Hpre : (pre ++ [false]) ++ mat_bits (atom_val a) = pre ++ atom_bits a) by (by rewrite <- app_assoc).
    rewrite rub_atom_mat by (rewrite ?Hpre; unfold bit_len; rewrite ?length_app; done || lia).
    cbn [mbind outcome_bind].
    replace (wrap64 (Z.of_nat (length (pre ++ [false])) - 1)) with (Z.of_nat (length pre))
      by (rewrite wrap64_small; rewrite length_app; cbn [length]; width; lia).
    destruct (write_dest d (VAtom a) r h). cbn [fst snd]. rewrite Eput. cbn [mbind outcome_bind]. by rewrite Hpre.
  - assert (Hpost : forall m', (forall n' q, m' n' = Some q -> m n' = Some q \/ (n' = NAtom a /\ q = length pre)) ->
      cue_post (length pre) (NAtom a) d m m' r h C
        (fst (write_dest d (VAtom a) r h)) (snd (write_dest d (VAtom a) r h)) C').
    { intros m' Hm'. split; try done.
      - exists (VAtom a). split; [done|constructor].
      - intros q Hq. rewrite Hl by lia. by rewrite decide_False by lia.
      - intros n' q Hn'. destruct (Hm' n' q Hn') as [|[-> ->]]; [by left|right]. split; [lia|].
        exists (VAtom a). rewrite Hl by lia. rewrite decide_True by done. split; [done|constructor]. }
    split; apply Hpost; [|by left]. intros n' q. unfold pos_insert.
    destruct (decide (n' = NAtom a)); [intros [= <-]; by right|by left].
Qed.

(** A cell: its fields become the next destinations. *)
Lemma cue_cell pre post d stk r h (C : M val) :
  bit_len (pre ++ [true; false]) < 2 ^ 63 -> free h d -> map_ok C ->
  exists r' h' C',
    cue_step (pre ++ true :: false :: post) (DestinationPointer d) (Build_CueState r h (Z.of_nat (length pre)) C stk) =
      Ok (Build_CueState r' h' (Z.of_nat (length (pre ++ [true; false]))) C'
        (DestinationPointer (DHead (length h)) :: DestinationPointer (DTail (length h)) ::
         BackRef (Z.of_nat (length pre)) d :: stk)) /\
    heap_ext h h' /\ read_dest d r' h' = Some (VCell (length h)) /\ (d <> DResult -> r' = r) /\
    (forall d', d' <> d -> free h d' -> free h' d') /\
    free h' (DHead (length h)) /\ free h' (DTail (length h)) /\ map_ok C' /\
    (forall q, Z.of_nat q < 2 ^ 63 -> q <> length pre -> map_lookup C' (key q) = map_lookup C (key q)).
Proof.
  intros Hlen Hfree HC. unfold bit_len in Hlen. rewrite length_app in Hlen. cbn [length] in Hlen.
  set (ptr := length h). set (v := VCell ptr). set (h0 := h ++ [new_cell]).
  assert (Hnew : h0 !! ptr = Some new_cell) by (by apply list_lookup_middle).
  assert (Hd : d <> DHead ptr /\ d <> DTail ptr).
  { split; intros ->; cbn [free] in Hfree; destruct Hfree as (c & Hp & _);
      apply lookup_lt_Some in Hp; unfold ptr in Hp; lia. }
  destruct (write_free d v r h0 (free_snoc _ _ Hfree)) as (Hext & Hread & Hr & Hfr).
  destruct (map_put_ok C (length pre) v HC ltac:(lia)) as (C' & Eput & HC' & Hl).
  exists (fst (write_dest d v r h0)), (snd (write_dest d v r h0)), C'. split_and!; try done.
  - unfold cue_step. rewrite next_bit_at.
    replace (pre ++ true :: false :: post) with ((pre ++ [true]) ++ false :: post) by (by rewrite <- app_assoc).
    rewrite next_bit_at. fold new_cell. fold ptr. fold v. fold h0.
    replace (wrap64 (Z.of_nat (length ((pre ++ [true]) ++ [false])) - 2)) with (Z.of_nat (length pre))
      by (rewrite wrap64_small; rewrite !length_app; cbn [length]; width; lia).
    destruct (write_dest d v r h0). cbn [fst snd]. rewrite Eput. cbn [mbind outcome_bind]. by rewrite <- app_assoc.
  - etransitivity; [apply heap_ext_snoc|done].
  - intros d' Hne Hf. apply Hfr; [done|by apply free_snoc].
  - apply Hfr; [intros E; by destruct Hd|]. by exists new_cell.
  - apply Hfr; [intros E; by destruct Hd|]. by exists new_cell.
  - intros q Hq Hne. rewrite Hl by done. by rewrite decide_False.
Qed.

Lemma cue_step_loop f buffer entry r h c (C : M val) stk s :
  cue_step buffer entry (Build_CueState r h c C stk) = Ok s ->
  cue_loop (S f) buffer (Build_CueState r h c C (entry :: stk)) = cue_loop f buffer s.
Proof. intros E. cbn [cue_loop cue_stack cue_result cue_heap cue_cursor cue_map]. by rewrite E. Qed.

(** A cell that is being read is not needed for its parts. *)
Lemma covers_part x n h h' (C C' : M val) m p :
  covers (noun_nodes n) h C m -> (noun_nodes x < noun_nodes n)%nat -> heap_ext h h' -> before m p ->
  (forall q, (q < p)%nat -> map_lookup C' (key q) = map_lookup C (key q)) ->
  covers (noun_nodes x) h' C' (pos_insert m n p).
Proof.
  intros Hcov Hx Hext Hbef Hold n' q Hn' Hsz. unfold pos_insert in Hn'. destruct (decide (n' = n)) as [->|]; [lia|].
  destruct (Hcov n' q Hn' ltac:(lia)) as (v & Hl & Hv). exists v. rewrite Hold by (by eapply Hbef). split; [done|by eapply reads_mono].
Qed.

Lemma covers_post k p n d m m' r h (C : M val) r' h' C' :
  covers k h C m -> before m p -> cue_post p n d m m' r h C r' h' C' -> covers k h' C' m'.
Proof.
  intros Hcov Hbef P n' q Hn' Hsz. destruct (post_new P n' q Hn') as [Hm|(_ & v & Hv & Rv)]; [|by exists v].
  destruct (Hcov n' q Hm Hsz) as (v & Hl & Hv). exists v. rewrite (post_old P) by (by eapply Hbef).
  split; [done|]. eapply reads_mono; [apply (post_ext P)|done].
Qed.

Definition reads_back (n : noun) : Prop := forall d stk r h (C : M val) m pre post,
  let bits := fst (jam_bits n (length pre) m) in
  wf_noun n -> bit_len (pre ++ bits) < 2 ^ 63 -> free h d -> map_ok C ->
  before m (length pre) -> covers (noun_nodes n) h C m ->
  exists steps r' h' C', (steps <= length bits)%nat /\
    (forall f, cue_loop (steps + f) (pre ++ bits ++ post)
                 (Build_CueState r h (Z.of_nat (length pre)) C (DestinationPointer d :: stk)) =
               cue_loop f (pre ++ bits ++ post)
                 (Build_CueState r' h' (Z.of_nat (length (pre ++ bits))) C' stk)) /\
    cue_post (length pre) n d m (snd (jam_bits n (length pre) m)) r h C r' h' C'.

Lemma cue_back_atom a : reads_back (NAtom a).
Proof.
  intros d stk r h C m pre post bits Hwf Hlen Hfree HC Hbef Hcov. subst bits.
  pose proof (jam_bits_length (NAtom a) (length pre) m) as Hpos. revert Hlen Hpos. cbn [jam_bits wf_noun] in *.
  destruct (m (NAtom a)) as [q|] eqn:Hm; cbn [fst snd].
  - destruct (bitlen (atom_val a) <=? bitlen (Z.of_nat q))%nat; intros Hlen Hpos.
    + destruct (cue_atom pre post a d stk r h C m Hwf Hlen Hfree HC) as (r' & h' & C' & E & _ & Hpost).
      exists 1%nat, r', h', C'. split; [lia|]. split; [|done]. intros f. by apply cue_step_loop.
    + pose proof (Hbef _ _ Hm) as Hq. unfold bit_len in Hlen. rewrite length_app in Hlen.
      destruct (Hcov _ _ Hm ltac:(lia)) as (v & Hl & Hv).
      destruct (cue_ref pre post q d stk r h C v (NAtom a) m) as (r' & h' & E & Hpost);
        [lia|unfold bit_len; rewrite length_app; lia|done..|].
      exists 1%nat, r', h', C. split; [lia|]. split; [|done]. intros f. by apply cue_step_loop.
  - intros Hlen Hpos.
    destruct (cue_atom pre post a d stk r h C m Hwf Hlen Hfree HC) as (r' & h' & C' & E & Hpost & _).
    exists 1%nat, r', h', C'. split; [lia|]. split; [|done]. intros f. by apply cue_step_loop.
Qed.

(** The two fields of a fresh cell were read: the cell itself is complete. *)
Lemma cue_cell_post p p1 p2 d hn tn m m1 m2 m3 r h (C : M val) r1 h1 C1 r2 h2 C2 r3 h3 C3 ptr :
  let n := NCell hn tn in
  m1 = pos_insert m n p -> (p < p1)%nat -> (p1 <= p2)%nat -> Z.of_nat p2 < 2 ^ 63 ->
  (forall n' q, m3 n' = Some q -> Z.of_nat q < 2 ^ 63) -> before m2 p2 ->
  heap_ext h h1 -> read_dest d r1 h1 = Some (VCell ptr) -> (d <> DResult -> r1 = r) ->
  (forall d', d' <> d -> free h d' -> free h1 d') ->
  (forall d', free h d' -> d' <> DHead ptr /\ d' <> DTail ptr) ->
  (forall q, Z.of_nat q < 2 ^ 63 -> q <> p -> map_lookup C1 (key q) = map_lookup C (key q)) ->
  cue_post p1 hn (DHead ptr) m1 m2 r1 h1 C1 r2 h2 C2 ->
  cue_post p2 tn (DTail ptr) m2 m3 r2 h2 C2 r3 h3 C3 ->
  exists C4, (v ← or_panic (read_dest d r3 h3); map_put C3 (Z.of_nat p) v) = Ok C4 /\
    cue_post p n d m m3 r h C r3 h3 C4.
Proof.
  intros n Hm1 Hp1 Hp2 Hmax Hm3 Hbef2 Hext1 Hread1 Hres1 Hfree1 Hfresh Hold1 P2 P3.
  pose proof (post_ext P2) as Hext2. pose proof (post_ext P3) as Hext3.
  assert (Hr3 : r3 = r1).
  { rewrite (post_result P3), (post_result P2) by done. done. }
  assert (Hread3 : read_dest d r3 h3 = Some (VCell ptr)).
  { destruct (decide (d = DResult)) as [->|Hd]; [cbn in *; congruence|].
    eapply read_dest_mono; [done|etransitivity; [exact Hext2|exact Hext3]|exact Hread1]. }
  destruct (map_put_ok C3 p (VCell ptr) (post_ok P3) ltac:(lia)) as (C4 & E4 & HC4 & Hl4).
  exists C4. split; [by rewrite Hread3|].
  assert (Hcell : reads h3 (VCell ptr) n).
  { destruct (post_value P2) as (vh & Hvh & Rh). destruct (post_value P3) as (vt & Hvt & Rt).
    assert (Hvh3 : read_dest (DHead ptr) r3 h3 = Some vh) by (by eapply read_dest_mono).
    cbn [read_dest] in Hvh3, Hvt. destruct (h3 !! ptr) as [c|] eqn:Hp; [|done].
    eapply reads_cell; [exact Hp|exact Hvh3|exact Hvt| |exact Rt]. by eapply reads_mono. }
  assert (Hold4 : forall q, Z.of_nat q < 2 ^ 63 -> q <> p -> (q < p1)%nat -> map_lookup C4 (key q) = map_lookup C (key q)).
  { intros q Hq Hne Hlt. rewrite Hl4, decide_False by done.
    rewrite (post_old P3), (post_old P2), Hold1 by (done || lia). done. }
  assert (Hnew4 : forall q v, Z.of_nat q < 2 ^ 63 -> q <> p -> map_lookup C3 (key q) = Some (Some v) ->
    map_lookup C4 (key q) = Some (Some v)).
  { intros q v Hq Hne E. by rewrite Hl4, decide_False. }
  split.
  - etransitivity; [exact Hext1|etransitivity; [exact Hext2|exact Hext3]].
  - by exists (VCell ptr).
  - intros d' Hne Hf. destruct (Hfresh d' Hf) as [N1 N2].
    apply (post_free P3); [done|]. apply (post_free P2); [done|]. by apply Hfree1.
  - intros Hd. rewrite Hr3. by apply Hres1.
  - done.
  - intros q Hq. apply Hold4; lia.
  - intros n' q Hq. pose proof (Hm3 n' q Hq) as Hq63.
    destruct (post_new P3 n' q Hq) as [Hq2|(Hge & v & Hv & Rv)].
    + destruct (post_new P2 n' q Hq2) as [Hq1|(Hge & v & Hv & Rv)].
      * rewrite Hm1 in Hq1. unfold pos_insert in Hq1. destruct (decide (n' = n)) as [->|]; [|by left].
        injection Hq1 as <-. right. split; [lia|]. exists (VCell ptr). split; [|done].
        rewrite Hl4 by done. by rewrite decide_True.
      * right. split; [lia|]. exists v. split; [|by eapply reads_mono]. apply Hnew4; [done|lia|].
        rewrite (post_old P3); [done|by eapply Hbef2].
    + right. split; [lia|]. exists v. split; [|done]. apply Hnew4; [done|lia|done].
Qed.

Lemma free_fresh h d : free h d -> d <> DHead (length h) /\ d <> DTail (length h).
Proof.
  intros Hf. split; intros ->; cbn [free] in Hf; destruct Hf as (c & Hp & _); apply lookup_lt_Some in Hp; lia.
Qed.

Lemma cue_back_cell hn tn : reads_back hn -> reads_back tn -> reads_back (NCell hn tn).
Proof.
  intros IHh IHt d stk r h C m pre post bits Hwf Hlen Hfree HC Hbef Hcov. subst bits.
  pose proof (jam_bits_length (NCell hn tn) (length pre) m) as Hpos.
  pose proof (jam_bits_before (NCell hn tn) (length pre) m Hbef) as Hbef3.
  revert Hlen Hpos Hbef3. cbn [jam_bits wf_noun] in *.
  destruct (m (NCell hn tn)) as [q|] eqn:Hm; cbn [fst snd].
  { intros Hlen Hpos _. pose proof (Hbef _ _ Hm) as Hq. destruct (Hcov _ _ Hm ltac:(done)) as (v & Hl & Hv).
    destruct (cue_ref pre post q d stk r h C v (NCell hn tn) m) as (r' & h' & E & Hpost);
      [unfold bit_len in Hlen; rewrite length_app in Hlen; lia|done..|].
    exists 1%nat, r', h', C. split; [lia|]. split; [|done]. intros f. by apply cue_step_loop. }
  set (m1 := pos_insert m (NCell hn tn) (length pre)).
  assert (Hbef1 : before m1 (length pre + 2)) by (apply before_insert; [done|lia]).
  pose proof (jam_bits_before hn (length pre + 2) m1 Hbef1) as Hbef2.
  destruct (jam_bits hn (length pre + 2) m1) as [bh m2] eqn:Ejh.
  destruct (jam_bits tn (length pre + 2 + length bh) m2) as [bt m3] eqn:Ejt. cbn [fst snd length] in *.
  intros Hlen _ Hbef3. unfold bit_len in Hlen. rewrite length_app in Hlen. cbn [length] in Hlen. rewrite length_app in Hlen, Hbef3.
  assert (Hpre1 : length (pre ++ [true; false]) = (length pre + 2)%nat) by (by rewrite length_app).
  assert (Hpre2 : length ((pre ++ [true; false]) ++ bh) = (length pre + 2 + length bh)%nat) by (by rewrite length_app, Hpre1).
  assert (Hbuf1 : pre ++ (true :: false :: bh ++ bt) ++ post = (pre ++ [true; false]) ++ bh ++ bt ++ post) by (by rewrite <- !app_assoc; cbn; rewrite <- app_assoc).
  assert (Hbuf2 : pre ++ (true :: false :: bh ++ bt) ++ post = ((pre ++ [true; false]) ++ bh) ++ bt ++ post) by (by rewrite Hbuf1, <- !app_assoc).
  destruct (cue_cell pre ((bh ++ bt) ++ post) d stk r h C) as
    (r1 & h1 & C1 & E1 & Hext1 & Hread1 & Hres1 & Hfree1 & Hfh & Hft & HC1 & Hold1);
    [unfold bit_len; rewrite Hpre1; lia|done..|].
  assert (Hpart : forall x, (noun_nodes x < noun_nodes (NCell hn tn))%nat -> covers (noun_nodes x) h1 C1 m1).
  { intros x Hx. eapply covers_part; [exact Hcov|done..|]. intros q Hq. apply Hold1; lia. }
  set (stk1 := BackRef (Z.of_nat (length pre)) d :: stk) in *.
  specialize (IHh (DHead (length h)) (DestinationPointer (DTail (length h)) :: stk1) r1 h1 C1 m1 (pre ++ [true; false]) (bt ++ post)).
  rewrite Hpre1, Ejh in IHh. cbn [fst snd] in IHh.
  destruct IHh as (k1 & r2 & h2 & C2 & Hk1 & Hloop1 & P2);
    [by apply Hwf|unfold bit_len; rewrite Hpre2; lia|done..|apply Hpart; cbn; lia|].
  specialize (IHt (DTail (length h)) stk1 r2 h2 C2 m2 ((pre ++ [true; false]) ++ bh) post).
  rewrite Hpre2, Ejt in IHt. cbn [fst snd] in IHt.
  destruct IHt as (k2 & r3 & h3 & C3 & Hk2 & Hloop2 & P3);
    [by apply Hwf|unfold bit_len; rewrite length_app, Hpre2; lia|by apply (post_free P2)|apply (post_ok P2)|done| |].
  { eapply covers_post; [apply Hpart; cbn; lia|exact Hbef1|exact P2]. }
  destruct (cue_cell_post (length pre) (length pre + 2) (length pre + 2 + length bh) d hn tn m m1 m2 m3
              r h C r1 h1 C1 r2 h2 C2 r3 h3 C3 (length h)) as (C4 & E4 & P4); try done; try lia.
  { intros n' q Hq. apply Hbef3 in Hq. lia. }
  { intros d'. apply free_fresh. }
  exists (S (k1 + (k2 + 1))), r3, h3, C4. split; [rewrite length_app; lia|]. split; [|done]. intros f.
  cbn [Nat.add]. rewrite (cue_step_loop _ _ _ _ _ _ _ _ _ E1).
  change (pre ++ true :: false :: (bh ++ bt) ++ post) with (pre ++ (true :: false :: bh ++ bt) ++ post).
  rewrite <- !Nat.add_assoc. rewrite Hbuf1, Hpre1, Hloop1, <- Hbuf1, Hbuf2.
  replace (Z.of_nat (length ((pre ++ [true; false]) ++ bh))) with (Z.of_nat (length pre + 2 + length bh)) by (by rewrite Hpre2).
  rewrite Hloop2. cbn [Nat.add].
  erewrite (cue_step_loop _ _ (BackRef (Z.of_nat (length pre)) d) r3 h3 _ C3 stk); [do 2 f_equal|].
  - cbn [cue_step]. revert E4. destruct (or_panic (read_dest d r3 h3)) as [v| |]; cbn [mbind outcome_bind]; try done.
    intros ->. cbn [mbind outcome_bind]. do 2 f_equal. rewrite !length_app. cbn [length]. rewrite length_app. lia.
Qed.

Lemma cue_back n : reads_back n.
Proof. induction n as [a|h IHh t IHt]; [apply cue_back_atom|by apply cue_back_cell]. Qed.
End cue.

Lemma reads_fun h v n n' : reads h v n -> reads h v n' -> n = n'.
Proof.
  intros H. revert n'. induction H as [a|p c vh vt hn tn Hp Hh Ht _ IHh _ IHt]; intros n' H'; inversion H'; subst; [done|].
  simplify_eq. f_equal; auto.
Qed.

(** * Termination *)

(** The unread bits *)
Definition unread (buffer : list bool) (cursor : Z) : nat := Z.to_nat (bit_len buffer - cursor).

Lemma slice_range_le bs a b x : slice_range bs a b = Some x -> a <= b.
Proof. unfold slice_range. destruct (Z.leb_spec a b); [done|]. by destruct (b <=? bit_len bs). Qed.

Lemma next_up_to_unread cursor buffer n bits c :
  next_up_to_n_bits cursor buffer n = Some (bits, c) -> (unread buffer c <= unread buffer cursor)%nat.
Proof.
  unfold next_up_to_n_bits, unread. set (e := wrap64 (cursor + n)).
  destruct (Z.leb_spec e (bit_len buffer)) as [He|He].
  - destruct (slice_range buffer cursor e) eqn:Es; [|done]. cbn. intros [= _ <-]. apply slice_range_le in Es. lia.
  - destruct (if cursor <? bit_len buffer then _ else _); [|done]. cbn. intros [= _ <-]. lia.
Qed.

Lemma get_size_unread cursor buffer size c :
  get_size cursor buffer = Ok (size, c) -> (unread buffer c <= unread buffer cursor)%nat.
Proof.
  unfold get_size. destruct (first_one _) as [[|k]|]; [|intros E|done].
  - intros [= _ <-]. unfold unread. lia.
  - destruct (next_up_to_n_bits _ _ _) as [[bits c']|] eqn:En; cbn in E; [|done].
    apply next_up_to_unread in En. destruct (_ || _); [done|]. injection E as _ <-. unfold unread in *. lia.
Qed.

Lemma rub_atom_unread cursor buffer a c :
  rub_atom_internal cursor buffer = Ok (a, c) -> (unread buffer c <= unread buffer cursor)%nat.
Proof.
  unfold rub_atom_internal. destruct (get_size cursor buffer) as [[size c1]| |] eqn:Eg; cbn; try done.
  apply get_size_unread in Eg. destruct (next_up_to_n_bits c1 buffer size) as [[bits c2]|] eqn:En; cbn; [|done].
  apply next_up_to_unread in En. intros E. repeat case_match; simplify_eq; lia.
Qed.

Lemma rub_backref_unread cursor buffer x c :
  rub_backref cursor buffer = Ok (x, c) -> (unread buffer c <= unread buffer cursor)%nat.
Proof.
  unfold rub_backref. destruct (get_size cursor buffer) as [[size c1]| |] eqn:Eg; cbn; try done.
  apply get_size_unread in Eg. destruct (size =? 0); [by intros [= _ <-]|]. destruct (size <=? 64); [|done].
  destruct (slice_range buffer c1 _) eqn:Es; cbn; [|done]. apply slice_range_le in Es. intros [= _ <-].
  unfold unread in *. lia.
Qed.

Lemma next_bit_unread cursor buffer b c :
  next_bit cursor buffer = (b, c) ->
  (unread buffer c <= unread buffer cursor)%nat /\ (b = true -> (unread buffer c < unread buffer cursor)%nat).
Proof. unfold next_bit, unread. destruct (Z.ltb_spec cursor (bit_len buffer)); intros [= <- <-]; split; done || lia. Qed.

Section termination.
Context {M : Type -> Type} `{HM : !NounMap M}.

Lemma cue_step_unread buffer entry r h c (C : M val) stk s :
  cue_step buffer entry (Build_CueState r h c C stk) = Ok s ->
  (length (cue_stack s) + 3 * unread buffer (cue_cursor s) <= length stk + 3 * unread buffer c)%nat.
Proof.
  destruct entry as [d|b d]; cbn [cue_step].
  - destruct (next_bit c buffer) as [b1 c1] eqn:E1. apply next_bit_unread in E1 as [U1 L1]. destruct b1.
    + specialize (L1 eq_refl). destruct (next_bit c1 buffer) as [b2 c2] eqn:E2. apply next_bit_unread in E2 as [U2 _].
      destruct b2.
      * destruct (rub_backref c2 buffer) as [[x c3]| |] eqn:E3; cbn; try done. apply rub_backref_unread in E3.
        destruct (map_lookup C _) as [[v|]|]; cbn; try done. destruct (write_dest d v r h). intros [= <-]. cbn. lia.
      * destruct (write_dest d _ r _) as [r' h']. destruct (map_put C _ _) as [C'| |]; cbn; try done.
        intros [= <-]. cbn. lia.
    + destruct (rub_atom_internal c1 buffer) as [[a c3]| |] eqn:E3; cbn; try done. apply rub_atom_unread in E3.
      destruct (write_dest d _ r h). destruct (map_put C _ _) as [C'| |]; cbn; try done. intros [= <-]. cbn. lia.
  - destruct (read_dest d r h) as [v|]; cbn; [|done]. destruct (map_put C b v) as [C'| |]; cbn; try done.
    intros [= <-]. cbn. lia.
Qed.

Lemma cue_loop_total fuel buffer (s : CueState M) :
  (length (cue_stack s) + 3 * unread buffer (cue_cursor s) < fuel)%nat -> is_Some (cue_loop fuel buffer s).
Proof.
  revert s. induction fuel as [|fuel IH]; intros [r h c C [|entry stk]] Hf; cbn in Hf; try lia; cbn [cue_loop cue_stack]; [by eexists|].
  cbn [cue_result cue_heap cue_cursor cue_map].
  destruct (cue_step buffer entry _) as [s| |] eqn:E; [|by eexists..].
  apply cue_step_unread in E. apply IH. lia.
Qed.
End termination.

(** * Properties *)

(** C33: [cue] undoes [jam], with the table of the source and whatever its hash: on a
    well-formed noun whose encoding is shorter than 2^63 bits, [jam] returns a
    normalized atom, and [cue] of that atom returns a value whose heap represents
    exactly that noun, shared structure written as back-references included. *)
Theorem cue_jam (mug_u32 : noun -> Z) n :
  wf_noun n -> sized n -> Z.of_nat (length (encoding n)) < 2 ^ 63 ->
  exists a v h, jam (HM := mut_hamt_map mug_u32) n = Some a /\ wf_atom a /\
    cue (HM := mut_hamt_map mug_u32) a = Some (Ok (v, h)) /\
    forall n', reads h v n' <-> n' = n.
Proof.
  intros Hwf Hsz Hlen.
  pose (HM := mut_hamt_map mug_u32). pose (HL := mut_hamt_laws mug_u32).
  destruct (jam_spec (HM := HM) (HL := HL) n Hwf Hsz ltac:(width; lia)) as (a & Ej & Ha & k & Hs).
  destruct (cue_back (HM := HM) (HL := HL) n DResult [] (VAtom (Direct 0)) [] map_new (fun _ => None) [] (replicate k false))
    as (steps & r & h & C & Hsteps & Hloop & Hpost); [done|exact Hlen|done|apply map_new_ok|done|done|].
  destruct Hpost as [_ (v & Hv & Hr) _ _ _ _ _]. cbn in Hv. injection Hv as ->.
  exists a, v, h. split; [done|]. split; [done|]. split.
  - unfold cue, cue_bitslice, cue_init. rewrite Hs. cbn [app length] in Hloop.
    replace (cue_fuel (encoding n ++ replicate k false))
      with (steps + S (cue_fuel (encoding n ++ replicate k false) - steps - 1))%nat.
    + unfold encoding in *. rewrite Hloop. done.
    + unfold cue_fuel, encoding in *. rewrite length_app. cbn [length] in *. lia.
  - intros n'. split; [intros H'; by eapply reads_fun|by intros ->].
Qed.

Lemma cue_jam_witness :
  exists a v h, jam (HM := mut_hamt_map (fun _ => 7)) (T [D 1; D 2; D 1000; T [D 2; D 1000]]) = Some a /\
    cue (HM := mut_hamt_map (fun _ => 7)) a = Some (Ok (v, h)) /\ reads h v (T [D 1; D 2; D 1000; T [D 2; D 1000]]).
Proof.
  destruct (cue_jam (fun _ => 7) (T [D 1; D 2; D 1000; T [D 2; D 1000]])) as (a & v & h & E1 & _ & E2 & H).
  - vm_compute. intuition congruence.
  - vm_compute. intuition congruence.
  - vm_compute. reflexivity.
  - exists a, v, h. split; [done|]. split; [done|]. by apply H.
Defined.

(** [cue] terminates on every bit slice, well formed or not: it returns a noun,
    an error or panics within three turns of its loop per bit. *)
Theorem cue_terminates {M : Type -> Type} `{HM : !NounMap M} buffer :
  exists res, cue_bitslice buffer = Some res.
Proof.
  apply cue_loop_total. cbn. unfold unread, bit_len, cue_fuel. lia.
Qed.

(** A cell that is its own head represents no noun. *)
Lemma own_head h p c n : h !! p = Some c -> cell_head c = Some (VCell p) -> reads h (VCell p) n -> False.
Proof.
  intros Hp Hh. induction n as [a|hn IHh tn _]; intros H; inversion H; simplify_eq. auto.
Qed.

(** [cue] accepts back-references to a cell that is still being read, where the
    Hoon definition crashes: on 93 it returns a cell that is its own head, which
    represents no noun. *)
Theorem cue_cyclic :
  exists v h, cue (HM := mut_hamt_map (fun _ => 0)) (Direct 93) = Some (Ok (v, h)) /\ forall n, ~ reads h v n.
Proof.
  eexists _, _. split; [vm_compute; reflexivity|]. intros n H. by eapply own_head; [| |exact H].
Qed.

(** A buffer that ends inside a back-reference makes [cue] panic instead of
    returning the error that other malformed buffers give. *)
Theorem cue_truncated_panics buffer cursor size c :
  get_size cursor buffer = Ok (size, c) -> 0 < size <= 64 -> bit_len buffer < c + size < U64 -> 0 <= c ->
  rub_backref cursor buffer = Panic /\
  cue (HM := mut_hamt_map (fun _ => 0)) (Direct 16131) = Some Panic.
Proof.
  intros Hg Hs Hlen Hc. split; [|vm_compute; reflexivity].
  unfold rub_backref. rewrite Hg. cbn [mbind outcome_bind].
  rewrite (proj2 (Z.eqb_neq _ _)), (proj2 (Z.leb_le _ _)), wrap64_small by (width; lia).
  unfold slice_range. rewrite (proj2 (Z.leb_gt (c + size) _)) by lia. by rewrite andb_false_r.
Qed.

Lemma cue_truncated_panics_witness : rub_backref 2 (bits_of 64 16131) = Panic.
Proof.
  refine (proj1 (cue_truncated_panics (bits_of 64 16131) 2 63 14 _ _ _ _)); [vm_compute; reflexivity|..];
    unfold bit_len; width; cbn; lia.
Defined.

(** [cue_into_stack_pointer_form] returns an error without popping the frame it
    pushed, for every buffer that [cue] rejects; a successful call is balanced. *)
Lemma cue_frame_leak {M : Type -> Type} `{HM : !NounMap M} frames buffer res :
  cue buffer = Some res ->
  cue_into_stack_pointer_form frames buffer =
    Some (match res with Ok _ => frames | _ => S frames end, res).
Proof. intros E. unfold cue_into_stack_pointer_form. fold (cue buffer). rewrite E. by destruct res. Qed.

Example cue_frame_leaked :
  cue_into_stack_pointer_form (HM := mut_hamt_map (fun _ => 0)) 3 (Direct 0) = Some (4%nat, Err BAIL_EXIT).
Proof. vm_compute. reflexivity. Qed.
