(* ===== verification/NounSerde.v ===== *)
(** The encoding of Rust values as nouns, crates/noun-serde/src/lib.rs, and the byte
    and string conversions of atoms it uses (nockvm's ext.rs and noun.rs).

    The traits [NounEncode] and [NounDecode] are type classes; an encoder returns
    [None] where it is undefined (a string without bytes), a decoder is an outcome.
    A hash map is a finite map and its iteration order is an argument of the
    encoder.  The machine is little-endian. *)
From stdpp Require Import base option list numbers strings gmap.
From Stdlib Require Import ZArith Lia.
From S2P Require Import Prelude Noun Interp Belt Vec Poly BPoly Tip5 NounHash.

Class NounEncode (A : Type) := to_noun : A -> option noun.
Class NounDecode (A : Type) := from_noun : noun -> outcome NounDecodeError A.

(** [impl Display for Error] and [From<nockvm::noun::Error>] *)
Definition error_to_string (e : error) : string :=
  match e with
  | NotAllocated => "not an allocated noun"
  | NotAtom => "not an atom"
  | NotCell => "not a cell"
  | NotDirectAtom => "not a direct atom"
  | NotIndirectAtom => "not an indirect atom"
  | NotRepresentable => "unrepresentable value"
  end.
Definition noun_decode_err (e : error) : NounDecodeError := Custom (error_to_string e).

(** * Bytes of atoms *)

(** [as_ne_bytes]: the bytes of the word or of the buffer *)
Definition as_ne_bytes (a : atom) : list Z :=
  match a with
  | Direct d => to_le_bytes 8 d
  | Indirect ws => mjoin (to_le_bytes 8 <$> ws)
  end.

(** The words of a zeroed buffer into which bytes are copied *)
Fixpoint bytes_words (n : nat) (bs : list Z) : list Z :=
  match n with
  | O => []
  | S n => from_le_bytes (take 8 bs) :: bytes_words n (drop 8 bs)
  end.

(** [from_bytes]; normalizing a buffer of no words is undefined. *)
Definition from_bytes (bytes : list Z) : option atom :=
  let word_size := Nat.div (length bytes + 7) 8 in
  if (word_size =? 0)%nat then None
  else Some (normalize_as_atom (normalize (bytes_words word_size bytes))).

(** [str::from_utf8] *)
Definition in_range (lo hi b : Z) : bool := (lo <=? b) && (b <=? hi).
Definition cont (b : Z) : bool := in_range 128 191 b.
Fixpoint utf8_valid (bs : list Z) : bool :=
  match bs with
  | [] => true
  | b0 :: r0 =>
      if in_range 0 127 b0 then utf8_valid r0
      else match r0 with
      | [] => false
      | b1 :: r1 =>
          if in_range 194 223 b0 then cont b1 && utf8_valid r1
          else match r1 with
          | [] => false
          | b2 :: r2 =>
              if (b0 =? 224) then in_range 160 191 b1 && cont b2 && utf8_valid r2
              else if in_range 225 236 b0 || in_range 238 239 b0 then cont b1 && cont b2 && utf8_valid r2
              else if (b0 =? 237) then in_range 128 159 b1 && cont b2 && utf8_valid r2
              else match r2 with
              | [] => false
              | b3 :: r3 =>
                  if (b0 =? 240) then in_range 144 191 b1 && cont b2 && cont b3 && utf8_valid r3
                  else if in_range 241 243 b0 then cont b1 && cont b2 && cont b3 && utf8_valid r3
                  else if (b0 =? 244) then in_range 128 143 b1 && cont b2 && cont b3 && utf8_valid r3
                  else false
              end
          end
      end
  end.

(** [trim_end_matches('\0')] *)
Fixpoint trim_end (bs : list Z) : list Z :=
  match bs with
  | [] => []
  | b :: bs => match trim_end bs with
               | [] => if b =? 0 then [] else [b]
               | bs' => b :: bs'
               end
  end.

(** [AtomHandle::into_string]: [None] is the UTF-8 error. *)
Definition into_string (a : atom) : option (list Z) :=
  if utf8_valid (as_ne_bytes a) then Some (trim_end (as_ne_bytes a)) else None.

Definition make_tas (tas : list Z) : option atom := from_bytes tas.

(** * Primitive types *)

Inductive u64 := MkU64 (x : Z).
Inductive u32 := MkU32 (x : Z).
Inductive usize := MkUsize (x : Z).
(** A [String] is its bytes. *)
Inductive String := MkString (bytes : list Z).
Inductive Bytes := MkBytes (bytes : list Z).
Inductive VecU8 := MkVecU8 (bytes : list Z).

Global Instance noun_encode : NounEncode noun := Some.
Global Instance noun_decode : NounDecode noun := Ok.

Global Instance u64_encode : NounEncode u64 := fun '(MkU64 x) => Some (u64_to_noun x).
Global Instance u64_decode : NounDecode u64 := fun n => x ← u64_from_noun n; Ok (MkU64 x).

Global Instance u32_encode : NounEncode u32 := fun '(MkU32 x) => Some (NAtom (Atom_new x)).
(** [x as u32] keeps the low bits. *)
Global Instance u32_decode : NounDecode u32 := fun n =>
  match n with
  | NAtom a =>
      x ← map_err (fun _ => Custom "Atom too large for u32") (as_u64 a);
      Ok (MkU32 (wrap32 x))
  | NCell _ _ => Err ExpectedAtom
  end.

Global Instance usize_encode : NounEncode usize := fun '(MkUsize x) => Some (u64_to_noun x).
(** [usize] has 64 bits, so the check of the value never fails. *)
Global Instance usize_decode : NounDecode usize := fun n =>
  value ← u64_from_noun n;
  if U64 - 1 <? value then Err (Custom "Value too large for usize on this architecture")
  else Ok (MkUsize value).

Global Instance String_encode : NounEncode String := fun '(MkString bs) => NAtom <$> make_tas bs.
Global Instance String_decode : NounDecode String := fun n =>
  match n with
  | NAtom a =>
      match into_string a with
      | Some bs => Ok (MkString bs)
      | None => Err (Custom "Invalid string atom")
      end
  | NCell _ _ => Err ExpectedAtom
  end.

Global Instance Bytes_encode : NounEncode Bytes := fun '(MkBytes bs) => NAtom <$> from_bytes bs.
Global Instance Bytes_decode : NounDecode Bytes := fun n =>
  match n with
  | NAtom a => Ok (MkBytes (as_ne_bytes a))
  | NCell _ _ => Err ExpectedAtom
  end.

(** [encode_bool], [decode_bool] and the instances of [bool] *)
Definition encode_bool (value : bool) : noun := if value then D 0 else D 1.
Definition decode_bool (n : noun) : outcome NounDecodeError bool :=
  match n with
  | NAtom a =>
      match as_u64 a with
      | Ok 0 => Ok true
      | Ok 1 => Ok false
      | _ => Err (Custom "Invalid boolean value")
      end
  | NCell _ _ => Err ExpectedAtom
  end.
Global Instance bool_encode : NounEncode bool := fun b => Some (encode_bool b).
Global Instance bool_decode : NounDecode bool := decode_bool.

(** * Compound types *)

Record Tuple3 (X Y Z : Type) := MkTuple3 { t3_a : X; t3_b : Y; t3_c : Z }.
Record Tuple4 (W X Y Z : Type) := MkTuple4 { t4_a : W; t4_b : X; t4_c : Y; t4_d : Z }.
Record Tuple5 (V W X Y Z : Type) := MkTuple5 { t5_a : V; t5_b : W; t5_c : X; t5_d : Y; t5_e : Z }.
Record Tuple6 (U V W X Y Z : Type) := MkTuple6 { t6_a : U; t6_b : V; t6_c : W; t6_d : X; t6_e : Y; t6_f : Z }.
Arguments MkTuple3 {X Y Z}.
Arguments MkTuple4 {W X Y Z}.
Arguments MkTuple5 {V W X Y Z}.
Arguments MkTuple6 {U V W X Y Z}.

Inductive Result (T E : Type) := ROk (v : T) | RErr (e : E).
Arguments ROk {T E} v.
Arguments RErr {T E} e.

(** [noun.as_cell().map_err(|_| ExpectedCell)?] and [noun.slot(axis)?] *)
Definition expect_cell (n : noun) : outcome NounDecodeError noun :=
  match n with NCell _ _ => Ok n | NAtom _ => Err ExpectedCell end.
Definition slot_or_err (n : noun) (axis : Z) : outcome NounDecodeError noun :=
  map_err noun_decode_err (slot n axis).

Section tuples.
Context {U V W X Y Z : Type}.
Context `{!NounEncode U, !NounEncode V, !NounEncode W, !NounEncode X, !NounEncode Y, !NounEncode Z}.
Context `{!NounDecode U, !NounDecode V, !NounDecode W, !NounDecode X, !NounDecode Y, !NounDecode Z}.

Global Instance pair_encode : NounEncode (X * Y) := fun '(a, b) =>
  a_noun ← to_noun a; b_noun ← to_noun b; Some (T [a_noun; b_noun]).
Global Instance pair_decode : NounDecode (X * Y) := fun n =>
  cell ← expect_cell n;
  head ← slot_or_err cell 2; tail ← slot_or_err cell 3;
  a ← from_noun head; b ← from_noun tail; Ok (a, b).

Global Instance tuple3_encode : NounEncode (Tuple3 X Y Z) := fun '(MkTuple3 a b c) =>
  a_noun ← to_noun a; b_noun ← to_noun b; c_noun ← to_noun c;
  let bc := T [b_noun; c_noun] in Some (T [a_noun; bc]).
Global Instance tuple3_decode : NounDecode (Tuple3 X Y Z) := fun n =>
  cell ← expect_cell n;
  a_slot ← slot_or_err cell 2; b_slot ← slot_or_err cell 6; c_slot ← slot_or_err cell 7;
  a ← from_noun a_slot; b ← from_noun b_slot; c ← from_noun c_slot; Ok (MkTuple3 a b c).

Global Instance tuple4_encode : NounEncode (Tuple4 W X Y Z) := fun '(MkTuple4 a b c d) =>
  a_noun ← to_noun a; b_noun ← to_noun b; c_noun ← to_noun c; d_noun ← to_noun d;
  let cd := T [c_noun; d_noun] in let bcd := T [b_noun; cd] in Some (T [a_noun; bcd]).
Global Instance tuple4_decode : NounDecode (Tuple4 W X Y Z) := fun n =>
  cell ← expect_cell n;
  a_slot ← slot_or_err cell 2; b_slot ← slot_or_err cell 6; c_slot ← slot_or_err cell 14;
  d_slot ← slot_or_err cell 15;
  a ← from_noun a_slot; b ← from_noun b_slot; c ← from_noun c_slot; d ← from_noun d_slot;
  Ok (MkTuple4 a b c d).

Global Instance tuple5_encode : NounEncode (Tuple5 V W X Y Z) := fun '(MkTuple5 a b c d e) =>
  a_noun ← to_noun a; b_noun ← to_noun b; c_noun ← to_noun c; d_noun ← to_noun d; e_noun ← to_noun e;
  let de := T [d_noun; e_noun] in let cde := T [c_noun; de] in let bcde := T [b_noun; cde] in
  Some (T [a_noun; bcde]).
Global Instance tuple5_decode : NounDecode (Tuple5 V W X Y Z) := fun n =>
  cell ← expect_cell n;
  a_slot ← slot_or_err cell 2; b_slot ← slot_or_err cell 6; c_slot ← slot_or_err cell 14;
  d_slot ← slot_or_err cell 30; e_slot ← slot_or_err cell 31;
  a ← from_noun a_slot; b ← from_noun b_slot; c ← from_noun c_slot; d ← from_noun d_slot;
  e ← from_noun e_slot; Ok (MkTuple5 a b c d e).

Global Instance tuple6_encode : NounEncode (Tuple6 U V W X Y Z) := fun '(MkTuple6 a b c d e f) =>
  a_noun ← to_noun a; b_noun ← to_noun b; c_noun ← to_noun c; d_noun ← to_noun d; e_noun ← to_noun e;
  f_noun ← to_noun f;
  let ef := T [e_noun; f_noun] in let def := T [d_noun; ef] in let cdef := T [c_noun; def] in
  let bcdef := T [b_noun; cdef] in Some (T [a_noun; bcdef]).
Global Instance tuple6_decode : NounDecode (Tuple6 U V W X Y Z) := fun n =>
  cell ← expect_cell n;
  a_slot ← slot_or_err cell 2; b_slot ← slot_or_err cell 6; c_slot ← slot_or_err cell 14;
  d_slot ← slot_or_err cell 30; e_slot ← slot_or_err cell 62; f_slot ← slot_or_err cell 63;
  a ← from_noun a_slot; b ← from_noun b_slot; c ← from_noun c_slot; d ← from_noun d_slot;
  e ← from_noun e_slot; f ← from_noun f_slot; Ok (MkTuple6 a b c d e f).
End tuples.

Section compound.
Context {A E : Type} `{!NounEncode A, !NounDecode A, !NounEncode E, !NounDecode E}.

Global Instance option_encode : NounEncode (option A) := fun o =>
  match o with
  | Some value => value_noun ← to_noun value; Some (T [D 0; value_noun])
  | None => Some (D 0)
  end.
Global Instance option_decode : NounDecode (option A) := fun n =>
  match n with
  | NAtom a =>
      match as_u64 a with
      | Ok 0 => Ok None
      | _ => Err (Custom "Invalid Option encoding")
      end
  | NCell (NCell _ _) _ => Err ExpectedAtom
  | NCell (NAtom head) value_noun =>
      h ← map_err noun_decode_err (as_u64 head);
      if negb (h =? 0) then Err (Custom "Invalid Option encoding - expected ~")
      else value ← from_noun value_noun; Ok (Some value)
  end.

Global Instance Vec_encode : NounEncode (list A) :=
  foldr (fun item acc => acc ← acc; item_noun ← to_noun item; Some (T [item_noun; acc])) (Some (D 0)).
Global Instance Vec_decode : NounDecode (list A) := Vec_from_noun from_noun.

(** Arrays: [N] is the number of elements. *)
Fixpoint array_encode (l : list A) : option noun :=
  match l with
  | [] => Some (D 0)
  | [x] => to_noun x
  | x :: l => result ← array_encode l; e ← to_noun x; Some (T [e; result])
  end.
Fixpoint array_decode (N : nat) (current : noun) : outcome NounDecodeError (list A) :=
  match N with
  | O => Ok []
  | S O => last_item ← from_noun current; Ok [last_item]
  | S N =>
      match current with
      | NCell head tail => item ← from_noun head; result ← array_decode N tail; Ok (item :: result)
      | NAtom _ => Err ExpectedCell
      end
  end.

(** The tags [%ok] and [%err] *)
Definition tag_ok : list Z := [111; 107].
Definition tag_err : list Z := [101; 114; 114].
Global Instance Result_encode : NounEncode (Result A E) := fun r =>
  match r with
  | ROk v => tag ← make_tas tag_ok; value ← to_noun v; Some (T [NAtom tag; value])
  | RErr e => tag ← make_tas tag_err; value ← to_noun e; Some (T [NAtom tag; value])
  end.
Global Instance Result_decode : NounDecode (Result A E) := fun n =>
  match n with
  | NAtom _ => Err ExpectedCell
  | NCell (NCell _ _) _ => Err ExpectedAtom
  | NCell (NAtom head) tail =>
      match into_string head with
      | None => Err InvalidTag
      | Some tag =>
          if decide (tag = tag_ok) then v ← from_noun tail; Ok (ROk v)
          else if decide (tag = tag_err) then e ← from_noun tail; Ok (RErr e)
          else Err InvalidEnumVariant
      end
  end.
End compound.

(** [Vec<u8>] goes through [Vec<u64>]; [x as u8] keeps the low bits. *)
Global Instance VecU8_encode : NounEncode VecU8 := fun '(MkVecU8 bs) => to_noun (MkU64 <$> bs).
Global Instance VecU8_decode : NounDecode VecU8 := fun n =>
  nums ← from_noun (A := list u64) n; Ok (MkVecU8 ((fun '(MkU64 x) => x mod 256) <$> nums)).

(** * Maps and sets *)

(** [build_tree]: the middle entry is the root; the recursion is on shorter slices. *)
Fixpoint build_tree {N} (fuel : nat) (node : N -> option noun) (entries : list N) : option noun :=
  match entries, fuel with
  | [], _ => Some (D 0)
  | _, O => None
  | _, S fuel =>
      let mid := Nat.div (length entries) 2 in
      entry ← entries !! mid;
      node_noun ← node entry;
      left ← build_tree fuel node (take mid entries);
      right ← build_tree fuel node (drop (S mid) entries);
      Some (T [node_noun; left; right])
  end.

(** [traverse_tree]: node first, then the branches *)
Fixpoint traverse_tree {N S} (node : noun -> outcome NounDecodeError N) (insert : N -> S -> S)
    (t : noun) (s : S) : outcome NounDecodeError S :=
  match t with
  | NAtom a =>
      x ← map_err noun_decode_err (as_u64 a);
      if x =? 0 then Ok s else Err ExpectedCell
  | NCell head rest =>
      n ← node head;
      let s := insert n s in
      match rest with
      | NCell l r => s ← traverse_tree node insert l s; traverse_tree node insert r s
      | NAtom _ => Err (Custom (error_to_string NotCell))
      end
  end.

Section maps.
Context {K V : Type} `{Countable K} `{!NounEncode K, !NounDecode K, !NounEncode V, !NounDecode V}.

Definition encode_pair (e : K * V) : option noun :=
  k ← to_noun e.1; v ← to_noun e.2; Some (T [k; v]).
(** The error for a node that is not a pair differs between the two maps. *)
Definition decode_pair (err : NounDecodeError) (n : noun) : outcome NounDecodeError (K * V) :=
  match n with
  | NCell pair_head pair_tail => key ← from_noun pair_head; value ← from_noun pair_tail; Ok (key, value)
  | NAtom _ => Err err
  end.
Definition map_add (e : K * V) (m : gmap K V) : gmap K V := <[e.1 := e.2]> m.

(** [entries] is what [self.iter()] yields. *)
Definition HashMap_to_noun (entries : list (K * V)) : option noun :=
  build_tree (length entries) encode_pair entries.
Definition HashMap_from_noun (n : noun) : outcome NounDecodeError (gmap K V) :=
  match n with
  | NAtom a =>
      x ← map_err noun_decode_err (as_u64 a);
      if x =? 0 then Ok ∅ else Err ExpectedCell
  | NCell _ _ => traverse_tree (decode_pair ExpectedCell) map_add n ∅
  end.

Definition BTreeMap_to_noun (entries : list (K * V)) : option noun :=
  build_tree (length entries) encode_pair entries.
Definition BTreeMap_from_noun (n : noun) : outcome NounDecodeError (gmap K V) :=
  traverse_tree (decode_pair (Custom (error_to_string NotCell))) map_add n ∅.

Definition HashSet_to_noun (entries : list K) : option noun := build_tree (length entries) to_noun entries.
Definition HashSet_from_noun (n : noun) : outcome NounDecodeError (gset K) :=
  match n with
  | NAtom a =>
      x ← map_err noun_decode_err (as_u64 a);
      if x =? 0 then Ok ∅ else Err ExpectedCell
  | NCell _ _ => traverse_tree from_noun (fun x s => {[ x ]} ∪ s) n ∅
  end.
End maps.
