(* ===== verification/NounSerdeTheorems.v ===== *)
(** Round trips of the noun encodings, type by type: [Serde] is the interface a
    type gives (which values survive, and that they do), and every type
    constructor keeps it. *)
From stdpp Require Import base option list numbers strings gmap.
From Stdlib Require Import ZArith Lia.
From S2P Require Import Prelude Noun Interp Belt Vec Poly BPoly Tip5 NounHash NounSerde.

Class Serde (A : Type) `{!NounEncode A} `{!NounDecode A} := {
  serde_ok : A -> Prop;
  roundtrip a : serde_ok a -> exists n, to_noun a = Some n /\ from_noun n = Ok a;
}.

(** * Bytes *)

Lemma bytes_words_spec n bs :
  Forall byte bs -> length bs = (8 * n)%nat ->
  Forall is_u64 (bytes_words n bs) /\ length (bytes_words n bs) = n /\
  words_val (bytes_words n bs) = from_le_bytes bs.
Proof.
  revert bs. induction n as [|n IH]; intros bs Hb Hl.
  { destruct bs; [done|simpl in Hl; lia]. }
  cbn [bytes_words length words_val]. destruct (IH (drop 8 bs)) as (Hf & Hn & Hv);
    [by apply Forall_drop|rewrite length_drop; lia|].
  assert (Ht : length (take 8 bs) = 8%nat) by (rewrite length_take; lia).
  pose proof (from_le_bytes_range (take 8 bs) ltac:(by apply Forall_take)) as Hr. rewrite Ht in Hr.
  split; [constructor; [exact Hr|done]|]. split; [by rewrite Hn|].
  rewrite Hv. rewrite <- (take_drop 8 bs) at 3. rewrite from_le_bytes_app, Ht. done.
Qed.

Lemma from_le_bytes_zeros k : from_le_bytes (replicate k 0) = 0.
Proof. induction k; cbn; lia. Qed.

Lemma bytes_words_pad n bs :
  (length bs <= 8 * n)%nat -> bytes_words n bs = bytes_words n (bs ++ replicate (8 * n - length bs) 0).
Proof.
  revert bs. induction n as [|n IH]; intros bs Hl; [done|]. cbn [bytes_words].
  destruct (Nat.le_gt_cases 8 (length bs)).
  - rewrite take_app_le, drop_app_le by lia. f_equal. rewrite (IH (drop 8 bs)) by (rewrite length_drop; lia).
    do 3 f_equal. rewrite length_drop. lia.
  - rewrite take_app_ge, (take_ge bs), drop_app_ge, (drop_ge bs), drop_replicate by lia. f_equal.
    + rewrite from_le_bytes_app, take_replicate, from_le_bytes_zeros. lia.
    + rewrite IH by (cbn; lia). cbn [app length]. do 2 f_equal. lia.
Qed.

Lemma from_bytes_spec bs :
  Forall byte bs -> bs <> [] ->
  exists a, from_bytes bs = Some a /\ wf_atom a /\ atom_val a = from_le_bytes bs.
Proof.
  intros Hb Hne. assert (Hl : length bs <> O) by (by destruct bs). unfold from_bytes.
  set (n := Nat.div (length bs + 7) 8).
  assert (Hn : (length bs <= 8 * n)%nat /\ n <> O).
  { unfold n. pose proof (Nat.div_mod (length bs + 7) 8 ltac:(lia)). pose proof (Nat.mod_upper_bound (length bs + 7) 8 ltac:(lia)). lia. }
  destruct (Nat.eqb_spec n 0); [lia|]. eexists. split; [done|]. rewrite bytes_words_pad by lia.
  set (bs' := bs ++ _). destruct (bytes_words_spec n bs') as (Hf & Hlen & Hv).
  { unfold bs'. apply Forall_app. split; [done|]. apply Forall_replicate. unfold byte. lia. }
  { unfold bs'. rewrite length_app, length_replicate. lia. }
  assert (Hne' : bytes_words n bs' <> []) by (intros E; apply (proj2 Hn); by rewrite <- Hlen, E).
  destruct (normalize_last _ Hf Hne') as (Hne2 & Hf2 & _).
  destruct (normalize_as_atom_wf _ Hf2 Hne2) as [Hw Hval]. split; [done|].
  rewrite Hval, normalize_val, Hv by done. unfold bs'. rewrite from_le_bytes_app, from_le_bytes_zeros. lia.
Qed.

Lemma as_ne_bytes_spec a :
  wf_atom a -> Forall byte (as_ne_bytes a) /\ from_le_bytes (as_ne_bytes a) = atom_val a.
Proof.
  destruct a as [d|ws]; cbn [wf_atom as_ne_bytes atom_val].
  - intros Hd. split; [apply to_le_bytes_byte|]. apply from_to_le_bytes. rewrite DIRECT_MAX_val in Hd. cbn. lia.
  - intros [Hf _]. induction Hf as [|w ws Hw Hf [IH1 IH2]]; [done|].
    change (mjoin (to_le_bytes 8 <$> (w :: ws))) with (to_le_bytes 8 w ++ mjoin (to_le_bytes 8 <$> ws)). cbn [words_val].
    split; [apply Forall_app; split; [apply to_le_bytes_byte|done]|].
    rewrite from_le_bytes_app, IH2, length_to_le_bytes, from_to_le_bytes by exact Hw. done.
Qed.

Lemma from_le_bytes_last bs b :
  Forall byte bs -> b <> 0 -> byte b -> 256 ^ Z.of_nat (length bs) <= from_le_bytes (bs ++ [b]).
Proof.
  intros Hb Hne Hbb. rewrite from_le_bytes_app. pose proof (from_le_bytes_range bs Hb). unfold byte in Hbb.
  cbn [from_le_bytes]. assert (0 < 256 ^ Z.of_nat (length bs)) by (apply Z.pow_pos_nonneg; lia). nia.
Qed.

(** The bytes of an atom made of bytes are those, followed by zeros. *)
Lemma from_bytes_ne bs b a :
  Forall byte (bs ++ [b]) -> b <> 0 -> from_bytes (bs ++ [b]) = Some a ->
  exists k, as_ne_bytes a = (bs ++ [b]) ++ replicate k 0.
Proof.
  intros Hb Hne Ea. destruct (from_bytes_spec (bs ++ [b]) Hb) as (a' & E & Hw & Hv); [by destruct bs|].
  rewrite E in Ea. injection Ea as ->. destruct (as_ne_bytes_spec a Hw) as [Hby Hval].
  pose proof (from_le_bytes_range _ Hby) as Hr. rewrite Hval, Hv in Hr.
  apply Forall_app in Hb as Hb'. destruct Hb' as [Hb1 Hb2]. inversion Hb2; subst.
  pose proof (from_le_bytes_last bs b Hb1 Hne ltac:(done)) as Hlow.
  assert (Hlen : (length bs < length (as_ne_bytes a))%nat).
  { destruct (Nat.le_gt_cases (length (as_ne_bytes a)) (length bs)) as [Hle|]; [|done]. exfalso.
    assert (256 ^ Z.of_nat (length (as_ne_bytes a)) <= 256 ^ Z.of_nat (length bs)) by (apply Z.pow_le_mono_r; lia). lia. }
  exists (length (as_ne_bytes a) - length (bs ++ [b]))%nat. apply from_le_bytes_inj.
  - done.
  - apply Forall_app. split; [done|]. apply Forall_replicate. unfold byte. lia.
  - rewrite !length_app, length_replicate. cbn [length]. lia.
  - rewrite Hval, Hv, (from_le_bytes_app (bs ++ [b])), from_le_bytes_zeros. lia.
Qed.

(** * Strings *)

Lemma utf8_valid_zeros k : utf8_valid (replicate k 0) = true.
Proof. by induction k. Qed.

Lemma utf8_valid_app n bs cs :
  (length bs <= n)%nat -> utf8_valid bs = true -> utf8_valid (bs ++ cs) = utf8_valid cs.
Proof.
  revert bs. induction n as [|n IH]; intros [|b0 r0] Hl; try done; [simpl in Hl; lia|].
  cbn [utf8_valid app]. cbn [length] in Hl. destruct (in_range 0 127 b0); [intros H; apply IH; [lia|done]|].
  destruct r0 as [|b1 r1]; [done|]. cbn [app length] in *.
  destruct (in_range 194 223 b0).
  { rewrite andb_true_iff. intros [-> H]. apply IH; [lia|done]. }
  destruct r1 as [|b2 r2]; [done|]. cbn [app length] in *.
  destruct (b0 =? 224); [rewrite !andb_true_iff; intros [[-> ->] H]; apply IH; [lia|done]|].
  destruct (in_range 225 236 b0 || in_range 238 239 b0); [rewrite !andb_true_iff; intros [[-> ->] H]; apply IH; [lia|done]|].
  destruct (b0 =? 237); [rewrite !andb_true_iff; intros [[-> ->] H]; apply IH; [lia|done]|].
  destruct r2 as [|b3 r3]; [done|]. cbn [app length] in *.
  destruct (b0 =? 240); [rewrite !andb_true_iff; intros [[[-> ->] ->] H]; apply IH; [lia|done]|].
  destruct (in_range 241 243 b0); [rewrite !andb_true_iff; intros [[[-> ->] ->] H]; apply IH; [lia|done]|].
  destruct (b0 =? 244); [rewrite !andb_true_iff; intros [[[-> ->] ->] H]; apply IH; [lia|done]|done].
Qed.

Lemma trim_end_zeros k : trim_end (replicate k 0) = [].
Proof. induction k as [|k IH]; [done|]. cbn. by rewrite IH. Qed.
Lemma trim_end_app bs b k : b <> 0 -> trim_end ((bs ++ [b]) ++ replicate k 0) = bs ++ [b].
Proof.
  intros Hb. induction bs as [|c bs IH]; cbn [app trim_end].
  - rewrite trim_end_zeros. by destruct (Z.eqb_spec b 0).
  - rewrite IH. by destruct bs.
Qed.

(** Strings that survive: valid, not empty, without a trailing NUL *)
Definition string_ok (bs : list Z) : Prop :=
  Forall byte bs /\ utf8_valid bs = true /\ exists bs' b, bs = bs' ++ [b] /\ b <> 0.

Lemma into_string_make_tas bs :
  string_ok bs -> exists a, make_tas bs = Some a /\ into_string a = Some bs.
Proof.
  intros (Hb & Hv & bs' & b & -> & Hne).
  destruct (from_bytes_spec (bs' ++ [b]) Hb) as (a & E & _); [by destruct bs'|]. exists a. split; [done|].
  destruct (from_bytes_ne bs' b a Hb Hne E) as [k Hk]. unfold into_string. rewrite Hk.
  rewrite (utf8_valid_app _ _ _ (le_n _) Hv), utf8_valid_zeros. by rewrite trim_end_app.
Qed.

Lemma trim_end_last bs : trim_end bs = [] \/ exists bs' b, trim_end bs = bs' ++ [b] /\ b <> 0.
Proof.
  induction bs as [|c bs IH]; [by left|]. cbn [trim_end]. destruct IH as [->|(bs' & b & -> & Hb)].
  - destruct (Z.eqb_spec c 0); [by left|right]. by exists [], c.
  - right. exists (c :: bs'), b. split; [by destruct bs'|done].
Qed.
(** No other string survives. *)
Lemma string_survives bs :
  Forall byte bs -> utf8_valid bs = true ->
  (exists n, to_noun (MkString bs) = Some n /\ from_noun n = Ok (MkString bs)) <-> exists bs' b, bs = bs' ++ [b] /\ b <> 0.
Proof.
  intros Hb Hv. unfold to_noun, String_encode, from_noun, String_decode. split.
  - intros (n & En & Ed). destruct (make_tas bs) as [a|] eqn:Ea; [|done]. injection En as <-.
    unfold into_string in Ed. destruct (utf8_valid (as_ne_bytes a)); [|done]. injection Ed as Ed.
    destruct (trim_end_last (as_ne_bytes a)) as [E|(bs' & b & E & Hne)]; [|exists bs', b; split; [congruence|done]].
    rewrite E in Ed. by subst bs.
  - intros Hl. destruct (into_string_make_tas bs) as (a & E & Ei); [done|]. exists (NAtom a). by rewrite E, Ei.
Qed.
(** Bytes come back with the zeros of their last word. *)
Lemma as_ne_bytes_length a : exists w, length (as_ne_bytes a) = (8 * w)%nat.
Proof.
  destruct a as [d|ws]; [by exists 1%nat|]. exists (length ws). cbn [as_ne_bytes].
  induction ws as [|w ws IH]; [done|]. rewrite fmap_cons.
  change (mjoin (to_le_bytes 8 w :: ?l)) with (to_le_bytes 8 w ++ mjoin l). rewrite length_app, IH. cbn [length].
  change (length (to_le_bytes 8 w)) with 8%nat. lia.
Qed.
Lemma bytes_padded bs b :
  Forall byte (bs ++ [b]) -> b <> 0 -> exists n k w, to_noun (MkBytes (bs ++ [b])) = Some n /\
    from_noun n = Ok (MkBytes ((bs ++ [b]) ++ replicate k 0)) /\ (length (bs ++ [b]) + k = 8 * w)%nat.
Proof.
  intros Hb Hne. destruct (from_bytes_spec (bs ++ [b]) Hb) as (a & E & _); [by destruct bs|].
  destruct (from_bytes_ne bs b a Hb Hne E) as [k Hk]. destruct (as_ne_bytes_length a) as [w Hw].
  exists (NAtom a), k, w. unfold to_noun, Bytes_encode, from_noun, Bytes_decode. rewrite E, Hk. split_and!; [done..|].
  rewrite Hk, length_app, length_replicate in Hw. done.
Qed.

(** * Primitive types *)

Lemma as_u64_Atom_new x : is_u64 x -> as_u64 (Atom_new x) = Ok x.
Proof. intros Hx. destruct (wf_Atom_new x Hx) as [Hw Hv]. rewrite as_u64_val; [by rewrite Hv|done|]. rewrite Hv. apply Hx. Qed.

Global Program Instance noun_serde : Serde noun := {| serde_ok _ := True |}.
Next Obligation. intros n _. by exists n. Qed.
Global Program Instance u64_serde : Serde u64 := {| serde_ok '(MkU64 x) := is_u64 x |}.
Next Obligation. intros [x] Hx. eexists. split; [done|]. cbn. by rewrite as_u64_Atom_new. Qed.
Global Program Instance u32_serde : Serde u32 := {| serde_ok '(MkU32 x) := is_u32 x |}.
Next Obligation.
  intros [x] Hx. eexists. split; [done|]. cbn. rewrite as_u64_Atom_new by (width; lia). cbn.
  unfold wrap32. by rewrite Z.mod_small.
Qed.
Global Program Instance usize_serde : Serde usize := {| serde_ok '(MkUsize x) := is_u64 x |}.
Next Obligation.
  intros [x] Hx. eexists. split; [done|]. unfold from_noun, usize_decode. cbn [u64_to_noun u64_from_noun].
  rewrite as_u64_Atom_new by done. cbn [map_err mbind outcome_bind].
  rewrite (proj2 (Z.ltb_ge _ _)) by (width; lia). done.
Qed.
Global Program Instance bool_serde : Serde bool := {| serde_ok _ := True |}.
Next Obligation. intros [] _; eexists; by split. Qed.
Global Program Instance String_serde : Serde String := {| serde_ok '(MkString bs) := string_ok bs |}.
Next Obligation.
  intros [bs] Hbs. destruct (into_string_make_tas bs Hbs) as (a & E & Ei). exists (NAtom a).
  unfold to_noun, String_encode, from_noun, String_decode. by rewrite E, Ei.
Qed.

(** * Type constructors *)

(** Encodes the components one by one, with their round trips. *)
Ltac encode_component :=
  match goal with
  | H : serde_ok ?a |- _ =>
      let n := fresh "n" in let E := fresh "E" in let Hd := fresh "Hd" in
      destruct (roundtrip a H) as (n & E & Hd); clear H; rewrite E; cbn [mbind option_bind]
  end.
Ltac decode_components :=
  cbn [T mbind outcome_bind expect_cell];
  repeat match goal with
  | |- context [slot_or_err ?n ?axis] =>
      let r := eval vm_compute in (slot_or_err n axis) in
      change (slot_or_err n axis) with r; cbn [mbind outcome_bind]
  end;
  repeat match goal with Hd : from_noun ?n = Ok _ |- context [from_noun ?n] => rewrite Hd; cbn [mbind outcome_bind] end.

Section constructors.
Context {U V W X Y Z : Type}.
Context `{Serde U, Serde V, Serde W, Serde X, Serde Y, Serde Z}.

Global Program Instance pair_serde : Serde (X * Y) :=
  {| serde_ok p := serde_ok p.1 /\ serde_ok p.2 |}.
Next Obligation.
  intros [a b] [Ha Hb]. cbn [fst snd] in *. unfold to_noun at 1, pair_encode. repeat encode_component.
  eexists. split; [done|]. unfold from_noun at 1, pair_decode. by decode_components.
Qed.
Global Program Instance tuple3_serde : Serde (Tuple3 X Y Z) :=
  {| serde_ok '(MkTuple3 a b c) := serde_ok a /\ serde_ok b /\ serde_ok c |}.
Next Obligation.
  intros [a b c] (Ha & Hb & Hc). unfold to_noun at 1, tuple3_encode. repeat encode_component.
  eexists. split; [done|]. unfold from_noun at 1, tuple3_decode. by decode_components.
Qed.
Global Program Instance tuple4_serde : Serde (Tuple4 W X Y Z) :=
  {| serde_ok '(MkTuple4 a b c d) := serde_ok a /\ serde_ok b /\ serde_ok c /\ serde_ok d |}.
Next Obligation.
  intros [a b c d] (Ha & Hb & Hc & Ok4). unfold to_noun at 1, tuple4_encode. repeat encode_component.
  eexists. split; [done|]. unfold from_noun at 1, tuple4_decode. by decode_components.
Qed.
Global Program Instance tuple5_serde : Serde (Tuple5 V W X Y Z) :=
  {| serde_ok '(MkTuple5 a b c d e) := serde_ok a /\ serde_ok b /\ serde_ok c /\ serde_ok d /\ serde_ok e |}.
Next Obligation.
  intros [a b c d e] (Ha & Hb & Hc & Ok4 & Ok5). unfold to_noun at 1, tuple5_encode. repeat encode_component.
  eexists. split; [done|]. unfold from_noun at 1, tuple5_decode. by decode_components.
Qed.
Global Program Instance tuple6_serde : Serde (Tuple6 U V W X Y Z) :=
  {| serde_ok '(MkTuple6 a b c d e f) :=
       serde_ok a /\ serde_ok b /\ serde_ok c /\ serde_ok d /\ serde_ok e /\ serde_ok f |}.
Next Obligation.
  intros [a b c d e f] (Ha & Hb & Hc & Ok4 & Ok5 & Ok6). unfold to_noun at 1, tuple6_encode. repeat encode_component.
  eexists. split; [done|]. unfold from_noun at 1, tuple6_decode. by decode_components.
Qed.

Global Program Instance option_serde : Serde (option X) :=
  {| serde_ok o := match o with Some a => serde_ok a | None => True end |}.
Next Obligation.
  intros [a|] Ha; [|by eexists]. cbn in Ha. unfold to_noun at 1, option_encode. encode_component. eexists. split; [done|].
  unfold from_noun at 1, option_decode. cbn [T D as_u64 map_err mbind outcome_bind]. cbn. by rewrite Hd.
Qed.

Global Program Instance Vec_serde : Serde (list X) := {| serde_ok l := Forall serde_ok l |}.
Next Obligation.
  intros l Hl. induction Hl as [|a l Ha _ (n & En & Dn)]; [by eexists|].
  unfold to_noun at 1, Vec_encode. cbn [foldr]. unfold to_noun at 1, Vec_encode in En. rewrite En. cbn [mbind option_bind].
  encode_component. eexists. split; [done|]. unfold from_noun at 1, Vec_decode. cbn [T Vec_from_noun].
  rewrite Hd. cbn [mbind outcome_bind]. unfold from_noun at 1, Vec_decode in Dn. by rewrite Dn.
Qed.

Lemma array_roundtrip (l : list X) :
  Forall serde_ok l -> exists n, array_encode l = Some n /\ array_decode (length l) n = Ok l.
Proof.
  induction 1 as [|a l Ha Hl (n & En & Dn)]; [by eexists|]. destruct l as [|b l].
  - cbn [array_encode]. encode_component. eexists. split; [done|]. cbn [length array_decode]. by rewrite Hd.
  - cbn [array_encode]. cbn [array_encode] in En. rewrite En. cbn [mbind option_bind]. encode_component.
    eexists. split; [done|]. cbn [length array_decode T]. rewrite Hd. cbn [mbind outcome_bind].
    cbn [length array_decode] in Dn. by rewrite Dn.
Qed.

Lemma tag_ok_ok : string_ok tag_ok /\ string_ok tag_err.
Proof.
  split; (split; [repeat constructor; done|split; [done|]]).
  - by exists [111], 107.
  - by exists [101; 114], 114.
Qed.

Global Program Instance Result_serde : Serde (Result X Y) :=
  {| serde_ok r := match r with ROk v => serde_ok v | RErr e => serde_ok e end |}.
Next Obligation.
  destruct tag_ok_ok as [Hok Herr].
  destruct (into_string_make_tas _ Hok) as (a1 & E1 & I1). destruct (into_string_make_tas _ Herr) as (a2 & E2 & I2).
  intros [v|e] Ha; cbn in Ha; unfold to_noun at 1, Result_encode.
  - rewrite E1. cbn [mbind option_bind]. encode_component. eexists. split; [done|].
    unfold from_noun at 1, Result_decode. cbn [T]. rewrite I1, decide_True by done. by rewrite Hd.
  - rewrite E2. cbn [mbind option_bind]. encode_component. eexists. split; [done|].
    unfold from_noun at 1, Result_decode. cbn [T]. rewrite I2, decide_False, decide_True by done. by rewrite Hd.
Qed.
End constructors.

Global Program Instance VecU8_serde : Serde VecU8 := {| serde_ok '(MkVecU8 bs) := Forall byte bs |}.
Next Obligation.
  intros [bs] Hbs. unfold to_noun at 1, VecU8_encode, from_noun, VecU8_decode.
  destruct (roundtrip (MkU64 <$> bs)) as (n & En & Dn).
  { cbn. apply Forall_fmap. eapply Forall_impl; [exact Hbs|]. intros b Hb. unfold byte in Hb. cbn. width. lia. }
  exists n. split; [done|]. rewrite Dn. cbn [mbind outcome_bind]. do 2 f_equal.
  rewrite <- list_fmap_compose. rewrite <- (list_fmap_id bs) at 2. apply Forall_fmap_ext_1.
  eapply Forall_impl; [exact Hbs|]. intros b Hb. cbn. by apply Z.mod_small.
Qed.

(** * Trees of entries *)

(** Whatever tree is built, its traversal visits the entries once each. *)
Lemma traverse_build {N S} (enc : N -> option noun) (dec : noun -> outcome NounDecodeError N)
    (ins : N -> S -> S) fuel entries :
  (length entries <= fuel)%nat ->
  (forall e, e ∈ entries -> exists n, enc e = Some n /\ dec n = Ok e) ->
  exists t perm, build_tree fuel enc entries = Some t /\ perm ≡ₚ entries /\
    forall s, traverse_tree dec ins t s = Ok (foldl (fun s e => ins e s) s perm).
Proof.
  revert entries. induction fuel as [|fuel IH]; intros entries Hl Hrt.
  { destruct entries; [|simpl in Hl; lia]. by exists (D 0), []. }
  destruct entries as [|e0 es]; [by exists (D 0), []|]. set (entries := e0 :: es) in *.
  set (mid := Nat.div (length entries) 2).
  assert (Hmid : (mid < length entries)%nat) by (apply Nat.div_lt; [cbn; lia|lia]).
  destruct (lookup_lt_is_Some_2 entries mid Hmid) as [e He].
  assert (Hsplit : entries = take mid entries ++ e :: drop (Datatypes.S mid) entries) by (symmetry; by apply take_drop_middle).
  destruct (IH (take mid entries)) as (tl & pl & El & Pl & Tl).
  { rewrite length_take. lia. }
  { intros x Hx. apply Hrt. rewrite Hsplit. apply elem_of_app. by left. }
  destruct (IH (drop (Datatypes.S mid) entries)) as (tr & pr & Er & Pr & Tr).
  { rewrite length_drop. lia. }
  { intros x Hx. apply Hrt. rewrite Hsplit. apply elem_of_app. right. by right. }
  destruct (Hrt e) as (n & En & Dn); [by eapply list_elem_of_lookup_2|].
  exists (T [n; tl; tr]), (e :: pl ++ pr). split; [|split].
  - unfold entries at 1. cbn [build_tree]. fold entries. fold mid. rewrite He. cbn [mbind option_bind].
    rewrite En. cbn [mbind option_bind]. rewrite El. cbn [mbind option_bind]. rewrite Er. done.
  - rewrite Hsplit at 1. rewrite Pl, Pr. by rewrite Permutation_middle.
  - intros s. cbn [T traverse_tree]. rewrite Dn. cbn [mbind outcome_bind]. rewrite Tl. cbn [mbind outcome_bind].
    rewrite Tr. cbn [foldl]. by rewrite foldl_app.
Qed.

Lemma foldl_map_add {K V} `{Countable K} (entries : list (K * V)) (m : gmap K V) :
  NoDup entries.*1 -> foldl (fun m e => map_add e m) m entries = list_to_map entries ∪ m.
Proof.
  revert m. induction entries as [|[k v] es IH]; intros m Hnd; [cbn [foldl]; by rewrite list_to_map_nil, (left_id_L ∅ (∪))|].
  cbn [fmap list_fmap fst] in Hnd. apply NoDup_cons in Hnd as [Hnin Hnd]. cbn [foldl]. rewrite IH by done.
  unfold map_add. cbn [fst snd]. rewrite list_to_map_cons, <- insert_union_l, insert_union_r; [done|].
  by apply not_elem_of_list_to_map_1.
Qed.

Lemma foldl_set_add {K} `{Countable K} (entries : list K) (s : gset K) :
  foldl (fun s x => {[ x ]} ∪ s) s entries = list_to_set entries ∪ s.
Proof. revert s. induction entries as [|k es IH]; intros s; [set_solver|]. cbn [foldl list_to_set foldr]. rewrite IH. set_solver. Qed.

Section maps.
Context {K V : Type} `{Countable K} `{Serde K, Serde V}.

Lemma pair_node err (e : K * V) :
  serde_ok e.1 -> serde_ok e.2 -> exists n, encode_pair e = Some n /\ decode_pair err n = Ok e.
Proof.
  destruct e as [k v]. cbn [fst snd]. intros Hk Hv. unfold encode_pair. cbn [fst snd].
  destruct (roundtrip k Hk) as (nk & Ek & Dk). destruct (roundtrip v Hv) as (nv & Ev & Dv).
  rewrite Ek. cbn [mbind option_bind]. rewrite Ev. eexists. split; [done|].
  cbn [decode_pair T]. rewrite Dk. cbn [mbind outcome_bind]. by rewrite Dv.
Qed.

Lemma map_tree_roundtrip err (m : gmap K V) entries :
  entries ≡ₚ map_to_list m -> (forall k v, m !! k = Some v -> serde_ok k /\ serde_ok v) ->
  exists t, build_tree (length entries) encode_pair entries = Some t /\
    traverse_tree (decode_pair err) map_add t ∅ = Ok m.
Proof.
  intros Hp Hok.
  destruct (traverse_build encode_pair (decode_pair err) map_add (length entries) entries (le_n _)) as (t & perm & Et & Pt & Tt).
  { intros [k v] He. rewrite Hp, elem_of_map_to_list in He. destruct (Hok k v He). by apply pair_node. }
  exists t. split; [done|]. rewrite Tt. f_equal. rewrite Hp in Pt.
  rewrite foldl_map_add by (rewrite Pt; apply NoDup_fst_map_to_list).
  rewrite (right_id_L ∅ (∪)). symmetry. apply list_to_map_flip. by rewrite Pt.
Qed.
End maps.

(** * Properties *)



(** Maps and sets survive whatever order their entries are iterated in: the
    balanced tree built from the entries decodes to the same map. *)
Theorem map_roundtrip {K V} `{Countable K} `{Serde K, Serde V} (m : gmap K V) (s : gset K) entries keys :
  entries ≡ₚ map_to_list m -> (forall k v, m !! k = Some v -> serde_ok k /\ serde_ok v) ->
  keys ≡ₚ elements s -> (forall k, k ∈ s -> serde_ok k) ->
  (exists n, HashMap_to_noun entries = Some n /\ HashMap_from_noun n = Ok m) /\
  (exists n, BTreeMap_to_noun entries = Some n /\ BTreeMap_from_noun n = Ok m) /\
  (exists n, HashSet_to_noun keys = Some n /\ HashSet_from_noun n = Ok s).
Proof.
  intros Hp Hok Hq Hks. split_and!.
  - destruct (map_tree_roundtrip ExpectedCell m entries Hp Hok) as (t & Et & Tt). exists t. split; [done|].
    by destruct t.
  - by apply map_tree_roundtrip.
  - destruct (traverse_build to_noun from_noun (fun x (s : gset K) => {[ x ]} ∪ s) (length keys) keys (le_n _))
      as (t & perm & Et & Pt & Tt).
    { intros k Hk. rewrite Hq, elem_of_elements in Hk. by apply roundtrip, Hks. }
    exists t. split; [done|].
    assert (Hs : foldl (fun (s : gset K) x => {[ x ]} ∪ s) ∅ perm = s).
    { rewrite foldl_set_add, (right_id_L ∅ (∪)). rewrite Hq in Pt. rewrite Pt. apply list_to_set_elements_L. }
    specialize (Tt ∅). rewrite Hs in Tt. by destruct t.
Qed.

Lemma map_roundtrip_witness :
  exists n, HashSet_to_noun [true; false] = Some n /\ HashSet_from_noun n = Ok ({[ true; false ]} : gset bool).
Proof.
  refine (proj2 (proj2 (map_roundtrip (∅ : gmap bool bool) {[ true; false ]} [] [true; false] _ _ _ _))).
  - by rewrite map_to_list_empty.
  - intros k v Hk. by rewrite lookup_empty in Hk.
  - vm_compute. apply perm_swap.
  - intros k _. done.
Defined.

(** Decoding accepts values that no encoder produces: a number of more than 32
    bits decodes as [u32], and one of more than 8 as a byte, by dropping its high
    bits; [Bytes] come back with the padding of their last word; a list that does
    not end in zero panics instead of failing. *)
Theorem serde_lossy x t :
  0 <= x <= DIRECT_MAX -> 0 < t <= DIRECT_MAX ->
  from_noun (D x) = Ok (MkU32 (x mod 2 ^ 32)) /\
  from_noun (T [D x; D 0]) = Ok (MkVecU8 [x mod 256]) /\
  from_noun (A := list u64) (T [D x; D t]) = Panic /\
  (n ← to_noun (MkBytes [1; 2; 3]); Some (from_noun n)) = Some (Ok (MkBytes [1; 2; 3; 0; 0; 0; 0; 0])).
Proof.
  intros Hx Ht. split_and!; [done|done| |vm_compute; reflexivity].
  unfold from_noun, Vec_decode. cbn [T D Vec_from_noun]. cbn. destruct t; [lia|done|lia].
Qed.

Lemma serde_lossy_witness : from_noun (D 4294967297) = Ok (MkU32 1).
Proof. exact (proj1 (serde_lossy 4294967297 1 ltac:(vm_compute; intuition congruence) ltac:(vm_compute; intuition congruence))). Defined.
