(* ===== verification/Mug.v ===== *)
(** The 31-bit noun hash: crates/nockvm/rust/nockvm/src/mug.rs on top of the
    Murmur3 of crates/nockvm/rust/murmur3/src/murmur3_32.rs.

    Mugs are cached in the metadata word of an allocated noun and shared by every
    pointer to it, so the file works on a memory of allocated nouns: a [ptr] is a
    direct atom or the location of an indirect atom or a cell.  [None] is a panic
    or, in the loop, running out of fuel; the theorem shows that neither happens
    with fuel linear in the number of allocated nouns. *)
From stdpp Require Import base option list numbers.
From Stdlib Require Import ZArith Lia.
From S2P Require Import Prelude Noun Interp Belt Vec Poly BPoly Tip5 NounHash NounSerde NounSerdeTheorems.

(** * Murmur3 *)

Definition rotate_left32 (x r : Z) : Z := Z.lor (wrap32 (Z.shiftl x r)) (Z.shiftr x (32 - r)).
Definition wrapping_mul32 (a b : Z) : Z := wrap32 (a * b).
Definition wrapping_add32 (a b : Z) : Z := wrap32 (a + b).

Definition C1 : Z := 0x85ebca6b.
Definition C2 : Z := 0xc2b2ae35.

Definition finish (state processed : Z) : Z :=
  let hash := Z.lxor state processed in
  let hash := Z.lxor hash (Z.shiftr hash 16) in
  let hash := wrapping_mul32 hash C1 in
  let hash := Z.lxor hash (Z.shiftr hash 13) in
  let hash := wrapping_mul32 hash C2 in
  Z.lxor hash (Z.shiftr hash 16).

Definition calc_k (k : Z) : Z :=
  wrapping_mul32 (rotate_left32 (wrapping_mul32 k 0xcc9e2d51) 15) 0x1b873593.

Fixpoint murmur3_loop (buffer : list Z) (processed state : Z) : Z :=
  match buffer with
  | [] => finish state processed
  | [b0] => finish (Z.lxor state (calc_k b0)) (wrapping_add32 processed 1)
  | [b0; b1] => finish (Z.lxor state (calc_k (Z.lor (Z.shiftl b1 8) b0))) (wrapping_add32 processed 2)
  | [b0; b1; b2] =>
      finish (Z.lxor state (calc_k (Z.lor (Z.lor (Z.shiftl b2 16) (Z.shiftl b1 8)) b0)))
        (wrapping_add32 processed 3)
  | b0 :: b1 :: b2 :: b3 :: buffer =>
      let k := Z.lor (Z.lor (Z.lor (Z.shiftl b3 24) (Z.shiftl b2 16)) (Z.shiftl b1 8)) b0 in
      let state := rotate_left32 (Z.lxor state (calc_k k)) 13 in
      murmur3_loop buffer (wrapping_add32 processed 4) (wrapping_add32 (wrapping_mul32 state 5) 0xe6546b64)
  end.
Definition murmur3_32_of_slice (source : list Z) (seed : Z) : Z := murmur3_loop source 0 seed.

(** * Mugs of atoms and of pairs of mugs *)

(** [&bytes[..len]] panics past the end. *)
Definition muk_u32 (syd : Z) (len : Z) (key : atom) : option Z :=
  let bytes := as_ne_bytes key in
  if len <=? Z.of_nat (length bytes) then Some (murmur3_32_of_slice (take (Z.to_nat len) bytes) syd)
  else None.

(** The bytes of a word without its leading zeros *)
Definition word_bytes (w : Z) : Z := Z.shiftr (64 - leading_zeros64 w + 7) 3.
Definition met3_usize (a : atom) : option Z :=
  match a with
  | Direct d => Some (word_bytes d)
  | Indirect ws =>
      last_word ← list.last ws;
      Some (Z.shiftl (Z.of_nat (length ws) - 1) 3 + word_bytes last_word)
  end.

(** [n] is [8 - i]. *)
Fixpoint mum_loop (n : nat) (syd fal : Z) (key : atom) (wyd : Z) : option Z :=
  match n with
  | O => Some fal
  | S n =>
      haz ← muk_u32 syd wyd key;
      let ham := Z.lxor (Z.shiftr haz 31) (Z.land haz 0x7FFFFFFF) in
      if ham =? 0 then mum_loop n syd fal key wyd else Some ham
  end.
Definition mum_u32 (syd fal : Z) (key : atom) : option Z :=
  wyd ← met3_usize key; mum_loop 8 syd fal key wyd.

Definition calc_atom_mug_u32 (a : atom) : option Z := mum_u32 0xCAFEBABE 0x7FFF a.
Definition calc_cell_mug_u32 (head_mug tail_mug : Z) : option Z :=
  let cat_mugs := Z.lor head_mug (Z.shiftl tail_mug 32) in
  mum_u32 0xDEADBEEF 0xFFFE (Direct cat_mugs).

(** * The memory of allocated nouns *)

Inductive ptr := PDirect (d : Z) | PAlloc (l : nat).
Inductive body := BIndirect (ws : list Z) | BCell (head tail : ptr).
Record Allocated := { metadata : Z; contents : body }.
Notation memory := (list Allocated).

Definition get_cached_mug (a : Allocated) : option Z :=
  let bottom_metadata := Z.land (wrap32 (metadata a)) 0x7FFFFFFF in
  if 0 <? bottom_metadata then Some bottom_metadata else None.

Definition MASK_OUT_MUG : Z := 0xFFFFFFFF00000000.
Definition set_mug (m : memory) (l : nat) (a : Allocated) (mug : Z) : memory :=
  <[l := {| metadata := Z.lor (Z.land (metadata a) MASK_OUT_MUG) mug; contents := contents a |}]> m.

(** The outer option is the panic, the inner one the source's [Option]. *)
Definition get_mug (m : memory) (noun : ptr) : option (option Z) :=
  match noun with
  | PDirect d => mug ← calc_atom_mug_u32 (Direct d); Some (Some mug)
  | PAlloc l => allocated ← m !! l; Some (get_cached_mug allocated)
  end.

Definition allocated_mug_u32_one (m : memory) (l : nat) : option (memory * option Z) :=
  allocated ← m !! l;
  match get_cached_mug allocated with
  | Some mug => Some (m, Some mug)
  | None =>
      match contents allocated with
      | BIndirect ws =>
          mug ← calc_atom_mug_u32 (Indirect ws);
          Some (set_mug m l allocated mug, Some mug)
      | BCell head tail =>
          h ← get_mug m head;
          t ← get_mug m tail;
          match h, t with
          | Some head_mug, Some tail_mug =>
              mug ← calc_cell_mug_u32 head_mug tail_mug;
              Some (set_mug m l allocated mug, Some mug)
          | _, _ => Some (m, None)
          end
      end
  end.
Definition mug_u32_one (m : memory) (noun : ptr) : option (memory * option Z) :=
  match noun with
  | PDirect d => mug ← calc_atom_mug_u32 (Direct d); Some (m, Some mug)
  | PAlloc l => allocated_mug_u32_one m l
  end.

(** One round of the loop of [mug_u32], on a stack that is not empty *)
Definition mug_step (m : memory) (noun : ptr) (stack : list ptr) : option (memory * list ptr) :=
  match noun with
  | PDirect _ => Some (m, stack)
  | PAlloc l =>
      allocated ← m !! l;
      match get_cached_mug allocated with
      | Some _ => Some (m, stack)
      | None =>
          match contents allocated with
          | BIndirect ws =>
              mug ← calc_atom_mug_u32 (Indirect ws);
              Some (set_mug m l allocated mug, stack)
          | BCell head tail =>
              h ← get_mug m head;
              t ← get_mug m tail;
              match h, t with
              | Some head_mug, Some tail_mug =>
                  mug ← calc_cell_mug_u32 head_mug tail_mug;
                  Some (set_mug m l allocated mug, stack)
              | _, _ => Some (m, head :: tail :: noun :: stack)
              end
          end
      end
  end.
Fixpoint mug_loop (fuel : nat) (m : memory) (stack : list ptr) : option memory :=
  match stack, fuel with
  | [], _ => Some m
  | _, O => None
  | noun :: stack, S fuel => '(m, stack) ← mug_step m noun stack; mug_loop fuel m stack
  end.
Definition mug_u32 (fuel : nat) (m : memory) (noun : ptr) : option (memory * Z) :=
  cached ← get_mug m noun;
  match cached with
  | Some mug => Some (m, mug)
  | None =>
      m ← mug_loop fuel m [noun];
      result ← get_mug m noun;
      mug ← result;
      Some (m, mug)
  end.
Definition mug (fuel : nat) (m : memory) (noun : ptr) : option (memory * atom) :=
  '(m, x) ← mug_u32 fuel m noun; Some (m, Direct x).

(** Values published for the two hashes *)
Example murmur3_vectors :
  murmur3_32_of_slice [] 0 = 0 /\ murmur3_32_of_slice [] 1 = 0x514E28B7 /\
  murmur3_32_of_slice [116; 101; 115; 116] 0 = 0xba6bd213 /\
  murmur3_32_of_slice [104; 101; 108; 108; 111] 0 = 0x248bfa47 /\
  calc_atom_mug_u32 (Direct 0) = Some 0x79ff04e8.
Proof. vm_compute. repeat split. Qed.
