(* ===== verification/MugTheorems.v ===== *)
(** [mug_u32] computes the recursive mug of the noun a pointer stands for, however
    the memory shares it and whatever is already cached, and keeps the caches
    correct. *)
From stdpp Require Import base option list numbers.
From Stdlib Require Import ZArith Lia.
From S2P Require Import Prelude Noun Interp Belt Vec Poly BPoly Tip5 NounHash NounSerde NounSerdeTheorems Mug.

(** * Ranges *)

Definition is_mug (x : Z) : Prop := 0 < x < 2 ^ 31.

Lemma lxor_range k a b : 0 <= k -> 0 <= a < 2 ^ k -> 0 <= b < 2 ^ k -> 0 <= Z.lxor a b < 2 ^ k.
Proof.
  intros Hk Ha Hb. assert (0 <= Z.lxor a b) by (apply Z.lxor_nonneg; lia). split; [done|].
  destruct (Z.eq_dec (Z.lxor a b) 0) as [->|Hne]; [apply Z.pow_pos_nonneg; lia|].
  apply Z.log2_lt_pow2; [lia|]. eapply Z.le_lt_trans; [apply Z.log2_lxor; lia|].
  destruct (Z.eq_dec k 0) as [->|]; [exfalso; replace a with 0 in Hne by lia; replace b with 0 in Hne by lia; done|].
  assert (Hl : forall x, 0 <= x < 2 ^ k -> Z.log2 x < k).
  { intros x Hx. destruct (Z.eq_dec x 0) as [->|]; [cbn; lia|]. apply Z.log2_lt_pow2; lia. }
  apply Z.max_lub_lt; by apply Hl.
Qed.

Lemma wrap32_range x : 0 <= wrap32 x < 2 ^ 32.
Proof. apply Z.mod_pos_bound. done. Qed.

Lemma finish_range state processed : 0 <= finish state processed < 2 ^ 32.
Proof.
  unfold finish, wrapping_mul32. cbv zeta. match goal with |- context [Z.shiftr (wrap32 ?y) 16] => generalize y end.
  intros y. pose proof (wrap32_range y) as Hr. apply (lxor_range 32); [lia|exact Hr|]. rewrite Z.shiftr_div_pow2 by done.
  split; [apply Z.div_pos; lia|]. apply Z.div_lt_upper_bound; lia.
Qed.

Lemma murmur3_loop_range bs p seed : 0 <= murmur3_loop bs p seed < 2 ^ 32.
Proof.
  revert p seed. induction bs as [bs IH] using (induction_ltof1 _ length). unfold ltof in IH. intros p seed.
  destruct bs as [|b0 [|b1 [|b2 [|b3 bs]]]]; cbn [murmur3_loop]; try apply finish_range. apply IH. cbn. lia.
Qed.
Lemma murmur3_range bs seed : 0 <= murmur3_32_of_slice bs seed < 2 ^ 32.
Proof. apply murmur3_loop_range. Qed.

Lemma word_bytes_range w : is_u64 w -> 0 <= word_bytes w <= 8.
Proof.
  intros [H0 H1]. unfold U64 in H1. unfold word_bytes, leading_zeros64. rewrite Z.shiftr_div_pow2 by done. change (2 ^ 3) with 8.
  destruct (Z.eqb_spec w 0); [done|]. assert (Z.log2 w < 64) by (apply Z.log2_lt_pow2; lia).
  pose proof (Z.log2_nonneg w). split; [apply Z.div_pos; lia|]. apply Z.lt_succ_r, Z.div_lt_upper_bound; lia.
Qed.

Lemma length_words_bytes (ws : list Z) : length (mjoin (to_le_bytes 8 <$> ws)) = (8 * length ws)%nat.
Proof.
  induction ws as [|w ws IH]; [done|].
  change (mjoin (to_le_bytes 8 <$> (w :: ws))) with (to_le_bytes 8 w ++ mjoin (to_le_bytes 8 <$> ws)).
  rewrite length_app, IH, length_to_le_bytes. cbn [length]. lia.
Qed.

(** The byte length never reaches past the words of the atom. *)
Lemma met3_usize_bound a :
  wf_atom a -> exists n, met3_usize a = Some n /\ n <= Z.of_nat (length (as_ne_bytes a)).
Proof.
  destruct a as [d|ws]; cbn [wf_atom met3_usize as_ne_bytes].
  - intros Hd. exists (word_bytes d). split; [done|]. rewrite length_to_le_bytes.
    assert (is_u64 d) as ?%word_bytes_range by (unfold is_u64, U64; rewrite DIRECT_MAX_val in Hd; lia). lia.
  - intros (Hf & Hne & _). destruct (list.last ws) as [w|] eqn:El; [|by apply last_None in El].
    eexists. split; [done|]. rewrite length_words_bytes, Z.shiftl_mul_pow2 by done. change (2 ^ 3) with 8.
    assert (is_u64 w) as ?%word_bytes_range. { rewrite list.Forall_forall in Hf. by apply Hf, last_Some_elem_of. }
    destruct ws; [done|]. cbn [length]. lia.
Qed.

Lemma mum_loop_range n syd fal key wyd :
  is_mug fal -> wyd <= Z.of_nat (length (as_ne_bytes key)) ->
  exists x, mum_loop n syd fal key wyd = Some x /\ is_mug x.
Proof.
  intros Hf Hw. induction n as [|n IH]; [eauto|]. cbn [mum_loop]. unfold muk_u32.
  rewrite (proj2 (Z.leb_le _ _)) by done. cbn. set (haz := murmur3_32_of_slice _ _).
  pose proof (murmur3_range (take (Z.to_nat wyd) (as_ne_bytes key)) syd) as Hr. fold haz in Hr.
  set (ham := Z.lxor _ _). destruct (Z.eqb_spec ham 0); [done|]. exists ham. split; [done|].
  assert (0 <= ham < 2 ^ 31); [|split; lia]. apply lxor_range; [done| |].
  - rewrite Z.shiftr_div_pow2 by done. split; [apply Z.div_pos; lia|]. apply Z.div_lt_upper_bound; lia.
  - change 0x7FFFFFFF with (Z.ones 31). rewrite Z.land_ones by done. apply Z.mod_pos_bound. done.
Qed.

Lemma mum_range syd fal a : is_mug fal -> wf_atom a -> exists x, mum_u32 syd fal a = Some x /\ is_mug x.
Proof.
  intros Hf Ha. destruct (met3_usize_bound a Ha) as (n & E & Hn). unfold mum_u32. rewrite E. by apply mum_loop_range.
Qed.

Lemma calc_atom_mug_range a : wf_atom a -> exists x, calc_atom_mug_u32 a = Some x /\ is_mug x.
Proof. apply mum_range. done. Qed.

(** Two mugs side by side are a direct atom. *)
Lemma lor_shift_add h t : 0 <= h < 2 ^ 32 -> Z.lor h (Z.shiftl t 32) = h + Z.shiftl t 32.
Proof.
  intros Hh. assert (Z.land h (Z.shiftl t 32) = 0) as H0; [|by rewrite <- Z.lxor_lor, <- Z.add_nocarry_lxor].
  apply Z.bits_inj'; intros i Hi. rewrite Z.land_spec, Z.bits_0. destruct (Z.lt_ge_cases i 32).
  - by rewrite Z.shiftl_spec_low, andb_false_r.
  - destruct (Z.eq_dec h 0) as [->|]; [by rewrite Z.bits_0|]. rewrite (Z.bits_above_log2 h); [done|lia|].
    apply Z.lt_le_trans with 32; [apply Z.log2_lt_pow2|]; lia.
Qed.

Lemma calc_cell_mug_range h t : is_mug h -> is_mug t -> exists x, calc_cell_mug_u32 h t = Some x /\ is_mug x.
Proof.
  intros [Hh1 Hh2] [Ht1 Ht2]. apply mum_range; [done|]. cbn [wf_atom].
  rewrite lor_shift_add, Z.shiftl_mul_pow2, DIRECT_MAX_val by lia. lia.
Qed.

(** * The recursive mug *)

Fixpoint mug_of (n : noun) : option Z :=
  match n with
  | NAtom a => calc_atom_mug_u32 a
  | NCell h t => hm ← mug_of h; tm ← mug_of t; calc_cell_mug_u32 hm tm
  end.

Lemma mug_of_range n : wf_noun n -> exists x, mug_of n = Some x /\ is_mug x.
Proof.
  induction n as [a|h IHh t IHt]; cbn [wf_noun mug_of]; [apply calc_atom_mug_range|].
  intros [(hm & -> & Hh)%IHh (tm & -> & Ht)%IHt]. by apply calc_cell_mug_range.
Qed.

(** * Memories *)

(** The noun a pointer stands for *)
Inductive stands (m : memory) : ptr -> noun -> Prop :=
  | stands_direct d : wf_atom (Direct d) -> stands m (PDirect d) (NAtom (Direct d))
  | stands_indirect l a ws :
      m !! l = Some a -> contents a = BIndirect ws -> wf_atom (Indirect ws) ->
      stands m (PAlloc l) (NAtom (Indirect ws))
  | stands_cell l a head tail h t :
      m !! l = Some a -> contents a = BCell head tail -> stands m head h -> stands m tail t ->
      stands m (PAlloc l) (NCell h t).

Lemma stands_wf m p n : stands m p n -> wf_noun n.
Proof. induction 1; cbn; auto. Qed.

Lemma stands_fun m p n n' : stands m p n -> stands m p n' -> n = n'.
Proof.
  intros H. revert n'.
  induction H as [|l a ws Hl Hc Hw|l a head tail h t Hl Hc Hh IHh Ht IHt]; intros n' Hn; inversion Hn; subst;
    try congruence.
  assert (a0 = a) as -> by congruence. rewrite Hc in *. simplify_eq. f_equal; auto.
Qed.

(** Only caches are written, and a cache that is set stays. *)
Definition upd1 (a a' : Allocated) : Prop :=
  contents a' = contents a /\ Z.land (metadata a') MASK_OUT_MUG = Z.land (metadata a) MASK_OUT_MUG /\
  forall x, get_cached_mug a = Some x -> get_cached_mug a' = Some x.
Definition upd : memory -> memory -> Prop := Forall2 upd1.

Global Instance upd1_preorder : PreOrder upd1.
Proof. split; [intros a; by split_and!|]. intros a b c (H1 & H2 & H3) (H4 & H5 & H6). split_and!; [congruence..|auto]. Qed.
Global Instance upd_preorder : PreOrder upd.
Proof. unfold upd. apply _. Qed.

Lemma upd_stands m m' p n : upd m m' -> stands m p n -> stands m' p n.
Proof.
  intros Hu. induction 1 as [|l a ws Hl Hc|l a head tail h t Hl Hc]; [by constructor|..];
    destruct (Forall2_lookup_l _ _ _ _ _ Hu Hl) as (a' & Hl' & Hc' & _); rewrite Hc in Hc'; by econstructor.
Qed.
Lemma upd_stands_inv m m' p n : upd m m' -> stands m' p n -> stands m p n.
Proof.
  intros Hu. induction 1 as [|l a ws Hl Hc|l a head tail h t Hl Hc]; [by constructor|..];
    destruct (Forall2_lookup_r _ _ _ _ _ Hu Hl) as (a' & Hl' & Hc' & _); rewrite Hc in Hc'; by econstructor.
Qed.

Lemma upd_get_mug m m' p x : upd m m' -> get_mug m p = Some (Some x) -> get_mug m' p = Some (Some x).
Proof.
  intros Hu. destruct p as [d|l]; [done|]. cbn. destruct (m !! l) as [a|] eqn:Hl; cbn; [|done].
  destruct (Forall2_lookup_l _ _ _ _ _ Hu Hl) as (a' & -> & _ & _ & H). cbn. intros [= E]. by rewrite (H x E).
Qed.

(** Every cache holds the mug of its noun. *)
Definition caches_ok (m : memory) : Prop :=
  forall l a x n, m !! l = Some a -> get_cached_mug a = Some x -> stands m (PAlloc l) n -> mug_of n = Some x.

Fixpoint uncached (m : memory) : nat :=
  match m with
  | [] => 0
  | a :: m => (match get_cached_mug a with None => 1 | Some _ => 0 end + uncached m)%nat
  end.

Lemma uncached_le m : (uncached m <= length m)%nat.
Proof. induction m as [|a m IH]; cbn; [lia|]. destruct (get_cached_mug a); lia. Qed.

Lemma uncached_insert m l a a' x :
  m !! l = Some a -> get_cached_mug a = None -> get_cached_mug a' = Some x ->
  uncached m = S (uncached (<[l := a']> m)).
Proof.
  revert l. induction m as [|b m IH]; intros [|l] Hl Ha Ha'; [done..| |].
  - injection Hl as ->. cbn. by rewrite Ha, Ha'.
  - specialize (IH l Hl Ha Ha'). change (<[S l := a']> (b :: m)) with (b :: <[l := a']> m). cbn [uncached].
    rewrite IH. destruct (get_cached_mug b); lia.
Qed.

(** The metadata word after [set_mug] *)
Lemma set_mug_metadata md x :
  is_mug x ->
  Z.land (wrap32 (Z.lor (Z.land md MASK_OUT_MUG) x)) 0x7FFFFFFF = x /\
  Z.land (Z.lor (Z.land md MASK_OUT_MUG) x) MASK_OUT_MUG = Z.land md MASK_OUT_MUG.
Proof.
  intros [H0 H1]. assert (Hx : Z.land x (Z.ones 31) = x) by (rewrite Z.land_ones by done; apply Z.mod_small; lia).
  split.
  - unfold wrap32, U32. rewrite <- Z.land_ones by done. change 0x7FFFFFFF with (Z.ones 31).
    rewrite <- Z.land_assoc. change (Z.land (Z.ones 32) (Z.ones 31)) with (Z.ones 31).
    rewrite Z.land_lor_distr_l, <- Z.land_assoc. change (Z.land MASK_OUT_MUG (Z.ones 31)) with 0.
    by rewrite Z.land_0_r, Z.lor_0_l.
  - rewrite Z.land_lor_distr_l, <- Z.land_assoc, Z.land_diag, <- Hx, <- Z.land_assoc.
    change (Z.land (Z.ones 31) MASK_OUT_MUG) with 0. by rewrite Z.land_0_r, Z.lor_0_r.
Qed.

Lemma set_mug_cached a x :
  is_mug x ->
  get_cached_mug {| metadata := Z.lor (Z.land (metadata a) MASK_OUT_MUG) x; contents := contents a |} = Some x.
Proof.
  intros Hx. unfold get_cached_mug. cbn [metadata]. rewrite (proj1 (set_mug_metadata _ x Hx)).
  destruct Hx. by rewrite (proj2 (Z.ltb_lt _ _)).
Qed.

Lemma set_mug_upd m l a x :
  m !! l = Some a -> get_cached_mug a = None -> is_mug x -> upd m (set_mug m l a x).
Proof.
  intros Hl Ha Hx. unfold set_mug. rewrite <- (list_insert_id m l a Hl) at 1. unfold upd.
  apply Forall2_insert; [reflexivity|]. split_and!; [done|by apply set_mug_metadata|by rewrite Ha].
Qed.

(** * The loop *)

Fixpoint nsize (n : noun) : nat :=
  match n with NAtom _ => 1 | NCell h t => S (nsize h + nsize t) end.

Lemma get_mug_ok m p n :
  stands m p n -> caches_ok m -> exists o, get_mug m p = Some o /\ forall x, o = Some x -> mug_of n = Some x.
Proof.
  intros Hs Hok. destruct p as [d|l]; inversion Hs; subst; cbn [get_mug].
  1: cbn [mug_of]; destruct (calc_atom_mug_range (Direct d)) as (x & -> & _); [done|]; by eexists.
  all: match goal with H : _ !! _ = Some _ |- _ => rewrite H end; cbn [mbind option_bind]; eexists; (split; [done|]); eauto.
Qed.

(** What running [mug_u32] on a pointer that stands for [n] does to the memory: the
    mug of [n] is cached, and nothing larger than [n] is written. *)
Record mugged (m m' : memory) (p : ptr) (n : noun) : Prop := {
  mugged_upd : upd m m';
  mugged_ok : caches_ok m';
  mugged_get : exists x, mug_of n = Some x /\ get_mug m' p = Some (Some x);
  mugged_frame : forall l n', stands m (PAlloc l) n' -> (nsize n < nsize n')%nat -> m' !! l = m !! l
}.

Lemma cached_mugged m p n x : stands m p n -> caches_ok m -> get_mug m p = Some (Some x) -> mugged m m p n.
Proof.
  intros Hs Hok Hg. split; [reflexivity|done| |done]. exists x. split; [|done].
  destruct (get_mug_ok m p n Hs Hok) as (o & Ho & Hx). rewrite Hg in Ho. injection Ho as <-. auto.
Qed.

Lemma set_mug_mugged m l a n x :
  m !! l = Some a -> get_cached_mug a = None -> stands m (PAlloc l) n -> caches_ok m -> mug_of n = Some x ->
  mugged m (set_mug m l a x) (PAlloc l) n /\ uncached m = S (uncached (set_mug m l a x)).
Proof.
  intros Hl Ha Hs Hok Hx. assert (Hm : is_mug x).
  { destruct (mug_of_range n (stands_wf _ _ _ Hs)) as (y & Hy & ?). congruence. }
  pose proof (set_mug_upd m l a x Hl Ha Hm) as Hu. pose proof (set_mug_cached a x Hm) as Hc.
  assert (Hl' : (l < length m)%nat) by by eapply lookup_lt_Some.
  split; [split|].
  - done.
  - intros l' b y n' Hb Hy Hs'. apply (upd_stands_inv _ _ _ _ Hu) in Hs'.
    unfold set_mug in Hb. destruct (decide (l' = l)) as [->|Hne].
    + rewrite list_lookup_insert_eq in Hb by done. injection Hb as <-.
      rewrite Hc in Hy. by rewrite <- (stands_fun _ _ _ _ Hs Hs'), Hx.
    + rewrite list_lookup_insert_ne in Hb by done. by apply (Hok l' b y n').
  - exists x. cbn [get_mug]. unfold set_mug. rewrite list_lookup_insert_eq by done. cbn [mbind option_bind]. by rewrite Hc.
  - intros l' n' Hs' Hlt. unfold set_mug. apply list_lookup_insert_ne. intros <-.
    rewrite (stands_fun _ _ _ _ Hs Hs') in Hlt. lia.
  - by apply (uncached_insert m l a _ x).
Qed.

(** After the head and the tail, both mugs are cached and nothing else that is
    larger has changed. *)
Lemma mugged_trans m m1 m2 p q n n' :
  mugged m m1 p n -> mugged m1 m2 q n' ->
  upd m m2 /\ caches_ok m2 /\
  (exists x, mug_of n = Some x /\ get_mug m2 p = Some (Some x)) /\
  (exists x, mug_of n' = Some x /\ get_mug m2 q = Some (Some x)) /\
  (forall l n'', stands m (PAlloc l) n'' -> (nsize n < nsize n'')%nat -> (nsize n' < nsize n'')%nat -> m2 !! l = m !! l).
Proof.
  intros [Hu1 Hc1 (x & Hx & Hg1) Hf1] [Hu2 Hc2 Hg2 Hf2]. split_and!; [by etrans|done| |done|].
  - exists x. split; [done|]. by apply (upd_get_mug m1).
  - intros l n'' Hs Hk Hk'. rewrite (Hf2 l n''), (Hf1 l n''); [done..|by apply (upd_stands m)|done].
Qed.

(** A round that pops: on an atom, on a cached cell, or on a cell whose parts are
    cached. *)
Definition parts_cached (m : memory) (p : ptr) : Prop :=
  forall l a ph pt, p = PAlloc l -> m !! l = Some a -> contents a = BCell ph pt ->
    exists x y, get_mug m ph = Some (Some x) /\ get_mug m pt = Some (Some y).

Lemma mug_step_pop m p n st :
  stands m p n -> caches_ok m -> (get_mug m p = Some None -> parts_cached m p) ->
  exists m', mugged m m' p n /\ mug_step m p st = Some (m', st) /\
    (uncached m' <= uncached m)%nat /\ (get_mug m p = Some None -> uncached m = S (uncached m')).
Proof.
  intros Hs Hok Hp. destruct (get_mug_ok m p n Hs Hok) as ([x|] & Hg & Hx).
  { exists m. split_and!; [by apply (cached_mugged m _ _ x)| |done|by rewrite Hg].
    destruct p as [d|l]; [done|]. cbn in Hg |- *. destruct (m !! l); [|done]. cbn in Hg |- *. by injection Hg as ->. }
  specialize (Hp Hg).
  inversion Hs as [d Hw|l b ws Hl Hb Hw|l b ph pt nh nt Hl Hb Hh Ht]; subst; cbn [get_mug mug_step] in *.
  { by destruct (calc_atom_mug_range _ Hw) as (x & E & _); rewrite E in Hg. }
  all: rewrite Hl in Hg |- *; cbn [mbind option_bind] in *; injection Hg as Hg; rewrite Hg, Hb.
  - destruct (calc_atom_mug_range _ Hw) as (x & E & _).
    destruct (set_mug_mugged m l b _ x Hl Hg Hs Hok E) as [Hm Hn]. rewrite E. eexists. split_and!; [done|done|lia|done].
  - destruct (Hp l b ph pt eq_refl Hl Hb) as (x & y & Ex & Ey). rewrite Ex, Ey. cbn [mbind option_bind].
    destruct (get_mug_ok m ph nh Hh Hok) as (o & Ho & Hox), (get_mug_ok m pt nt Ht Hok) as (o' & Ho' & Hoy).
    destruct (mug_of_range (NCell nh nt) (stands_wf _ _ _ Hs)) as (z & Ez & _).
    destruct (set_mug_mugged m l b _ z Hl Hg Hs Hok Ez) as [Hm Hn].
    cbn [mug_of] in Ez. rewrite (Hox x), (Hoy y) in Ez by congruence. cbn [mbind option_bind] in Ez. rewrite Ez.
    eexists. split_and!; [done|done|lia|done].
Qed.

(** A round that does not pop pushes the parts of a cell. *)
Lemma mug_step_push m l b ph pt nh nt st :
  m !! l = Some b -> contents b = BCell ph pt -> stands m ph nh -> stands m pt nt -> caches_ok m ->
  get_mug m (PAlloc l) = Some None ->
  parts_cached m (PAlloc l) \/ mug_step m (PAlloc l) st = Some (m, ph :: pt :: PAlloc l :: st).
Proof.
  intros Hl Hb Hh Ht Hok Hg. cbn [get_mug mug_step] in *. rewrite Hl in *. cbn in Hg |- *. injection Hg as Hg.
  rewrite Hg, Hb. destruct (get_mug_ok m ph nh Hh Hok) as (o & Ho & _), (get_mug_ok m pt nt Ht Hok) as (o' & Ho' & _).
  rewrite Ho, Ho'. cbn. destruct o as [x|]; [|by right]. destruct o' as [y|]; [|by right].
  left. intros l' a qh qt [= <-] Ha Hc. rewrite Hl in Ha. injection Ha as <-. rewrite Hb in Hc. injection Hc as <- <-. eauto.
Qed.

(** A pointer at the top of the stack is gone after a number of rounds that the
    caches it fills pay for. *)
Definition mugs (m : memory) (p : ptr) (n : noun) (st : list ptr) : Prop :=
  exists m' k, mugged m m' p n /\ (k + 3 * uncached m' <= 1 + 3 * uncached m)%nat /\
    forall fuel, mug_loop (k + fuel) m (p :: st) = mug_loop fuel m' st.

Lemma mug_run_pop m p n st :
  stands m p n -> caches_ok m -> (get_mug m p = Some None -> parts_cached m p) -> mugs m p n st.
Proof.
  intros Hs Hok Hp. destruct (mug_step_pop m p n st Hs Hok Hp) as (m' & Hm & Hst & Hu & _).
  exists m', 1%nat. split_and!; [exact Hm|lia|]. intros fuel. cbn [Nat.add mug_loop]. by rewrite Hst.
Qed.

Lemma mug_run n m p st : stands m p n -> caches_ok m -> mugs m p n st.
Proof.
  revert m p st. induction n as [a|nh IHh nt IHt]; intros m p st Hs Hok; pose proof (mug_run_pop m p _ st Hs Hok) as Hpop.
  { apply Hpop. intros _ l b ph pt -> Hl Hb. inversion Hs; congruence. }
  inversion Hs as [| |l b ph pt ? ? Hl Hb Hh Ht]; subst.
  destruct (get_mug m (PAlloc l)) as [[x|]|] eqn:Hg; [by apply Hpop| |by apply Hpop].
  destruct (mug_step_push m l b ph pt nh nt st Hl Hb Hh Ht Hok Hg) as [Hp|Hst]; [by apply Hpop|].
  destruct (IHh m ph (pt :: PAlloc l :: st) Hh Hok) as (m1 & k1 & Hm1 & Hk1 & Hr1).
  destruct (IHt m1 pt (PAlloc l :: st) (upd_stands _ _ _ _ (mugged_upd _ _ _ _ Hm1) Ht) (mugged_ok _ _ _ _ Hm1))
    as (m2 & k2 & Hm2 & Hk2 & Hr2).
  destruct (mugged_trans _ _ _ _ _ _ _ Hm1 Hm2) as (Hu & Hok2 & (x & Hx & Ex) & (y & Hy & Ey) & Hfr).
  assert (Hl2 : m2 !! l = Some b) by (rewrite (Hfr l _ Hs); cbn; [done|lia|lia]).
  assert (Hg2 : get_mug m2 (PAlloc l) = Some None) by (cbn in Hg |- *; rewrite Hl in Hg; by rewrite Hl2).
  destruct (mug_step_pop m2 (PAlloc l) (NCell nh nt) st) as (m3 & Hm3 & Hst3 & _ & Hu3); [by apply (upd_stands m)|done| |].
  { intros _ l' a qh qt [= <-] Ha Hc. rewrite Hl2 in Ha. injection Ha as <-. rewrite Hb in Hc. injection Hc as <- <-. eauto. }
  specialize (Hu3 Hg2). exists m3, (1 + (k1 + (k2 + 1)))%nat. split_and!.
  - destruct Hm3 as [Hu' Hok3 Hg3 Hf3]. split; [by etrans|done|done|].
    intros l' n' Hs' Hlt. cbn in Hlt. rewrite (Hf3 l' n'), (Hfr l' n'); [done|done|lia|lia|by apply (upd_stands m)|done].
  - lia.
  - intros fuel. rewrite <- !Nat.add_assoc. cbn [Nat.add mug_loop]. rewrite Hst. cbn [mbind option_bind].
    rewrite Hr1, Hr2. cbn [Nat.add mug_loop]. by rewrite Hst3.
Qed.

(** [mug_u32_one] never looks below the parts of a cell: it returns the mug when
    their mugs are cached, and [None] without any write otherwise. *)
Lemma mug_u32_one_ok m p n :
  stands m p n -> caches_ok m -> exists m' o, mug_u32_one m p = Some (m', o) /\
    (match o with Some x => mugged m m' p n /\ mug_of n = Some x | None => m' = m end).
Proof.
  intros Hs Hok. destruct (get_mug_ok m p n Hs Hok) as (o & Ho & Hx).
  inversion Hs as [d Hw|l b ws Hl Hb Hw|l b ph pt nh nt Hl Hb Hh Ht]; subst.
  - destruct (calc_atom_mug_range _ Hw) as (x & E & _). unfold mug_u32_one. rewrite E. cbn. eexists _, _. split; [done|].
    split; [|done]. apply (cached_mugged m _ _ x Hs Hok). cbn [get_mug]. by rewrite E.
  - cbn [get_mug mug_u32_one] in *. unfold allocated_mug_u32_one. rewrite Hl in *. cbn [mbind option_bind] in *.
    injection Ho as <-. destruct (get_cached_mug b) as [x|] eqn:Eb.
    { eexists _, _. split; [done|]. cbn. split; [|by apply Hx]. apply (cached_mugged m _ _ x Hs Hok). cbn. by rewrite Hl, <- Eb. }
    destruct (calc_atom_mug_range _ Hw) as (x & E & _). rewrite Hb, E. eexists _, _. split; [done|].
    by split; [apply (set_mug_mugged m l b _ x)|].
  - cbn [get_mug mug_u32_one] in *. unfold allocated_mug_u32_one. rewrite Hl in *. cbn [mbind option_bind] in *.
    injection Ho as <-. destruct (get_cached_mug b) as [x|] eqn:Eb.
    { eexists _, _. split; [done|]. cbn. split; [|by apply Hx]. apply (cached_mugged m _ _ x Hs Hok). cbn. by rewrite Hl, <- Eb. }
    rewrite Hb. destruct (get_mug_ok m ph nh Hh Hok) as (o & Ho & Hox), (get_mug_ok m pt nt Ht Hok) as (o' & Ho' & Hoy).
    rewrite Ho, Ho'. cbn [mbind option_bind]. destruct o as [x|]; [|by eexists _, _]. destruct o' as [y|]; [|by eexists _, _].
    destruct (mug_of_range (NCell nh nt) (stands_wf _ _ _ Hs)) as (z & Ez & _). pose proof Ez as Ez'.
    cbn [mug_of] in Ez. rewrite (Hox x), (Hoy y) in Ez by done. cbn [mbind option_bind] in Ez. rewrite Ez.
    eexists _, _. split; [done|]. by split; [apply (set_mug_mugged m l b _ z)|].
Qed.

(** The loop of [mum_u32] repeats one hash: its seed does not change. *)
Lemma mum_one_seed syd fal key :
  mum_u32 syd fal key =
    (wyd ← met3_usize key; haz ← muk_u32 syd wyd key;
     let ham := Z.lxor (Z.shiftr haz 31) (Z.land haz 0x7FFFFFFF) in Some (if ham =? 0 then fal else ham)).
Proof.
  unfold mum_u32. destruct (met3_usize key) as [wyd|]; [|done]. cbn [mbind option_bind].
  destruct (muk_u32 syd wyd key) as [haz|] eqn:E; cbn [mum_loop]; rewrite !E; cbn [mbind option_bind]; [|done].
  by destruct (_ =? 0).
Qed.

Lemma mug_u32_run m p n fuel :
  stands m p n -> caches_ok m -> (1 + 3 * uncached m <= fuel)%nat ->
  exists m' x, mug_u32 fuel m p = Some (m', x) /\ mug_of n = Some x /\ mugged m m' p n.
Proof.
  intros Hs Hok Hf. destruct (mug_of_range n (stands_wf _ _ _ Hs)) as (x & Hx & Hr). unfold mug_u32.
  destruct (get_mug_ok m p n Hs Hok) as (o & Ho & Hox). rewrite Ho. cbn [mbind option_bind]. destruct o as [y|].
  { exists m, x. rewrite (Hox y eq_refl) in Hx. injection Hx as ->. split_and!; [done|auto|]. by apply (cached_mugged _ _ _ x). }
  destruct (mug_run n m p [] Hs Hok) as (m' & k & Hm & Hk & Hrun). destruct (mugged_get _ _ _ _ Hm) as (z & Hz & Hg).
  replace fuel with (k + (fuel - k))%nat by lia. rewrite Hrun.
  rewrite Hx in Hz. injection Hz as <-. exists m', x.
  destruct (fuel - k)%nat; cbn [mug_loop mbind option_bind]; by rewrite Hg.
Qed.

(** * Properties *)

(** C40: [mug_u32] returns the recursive mug of the noun its argument stands for,
    however the memory shares it, in a number of rounds linear in the number of
    allocated nouns whose mug is not cached; it writes only caches, leaves the
    ones that are set, and every cache stays correct. *)
Theorem mug_u32_correct m p n fuel :
  stands m p n -> caches_ok m -> (1 + 3 * uncached m <= fuel)%nat ->
  exists m' x, mug_u32 fuel m p = Some (m', x) /\ mug_of n = Some x /\ is_mug x /\
    upd m m' /\ caches_ok m' /\ stands m' p n /\ get_mug m' p = Some (Some x).
Proof.
  intros Hs Hok Hf. destruct (mug_u32_run m p n fuel Hs Hok Hf) as (m' & x & E & Hx & [Hu Hc (y & Hy & Hg) _]).
  destruct (mug_of_range n (stands_wf _ _ _ Hs)) as (z & Hz & Hr).
  exists m', x. rewrite Hx in Hy, Hz. simplify_eq. split_and!; try done. by apply (upd_stands m).
Qed.

(** A cell that is both parts of another, and an indirect atom *)
Definition sample_memory : memory :=
  [{| metadata := 0; contents := BCell (PDirect 1) (PAlloc 2) |};
   {| metadata := 0; contents := BCell (PAlloc 0) (PAlloc 0) |};
   {| metadata := 0; contents := BIndirect [0; 1] |}].

Lemma mug_u32_correct_witness :
  exists m' x, mug_u32 10 sample_memory (PAlloc 1) = Some (m', x) /\
    mug_of (NCell (NCell (D 1) (NAtom (Indirect [0; 1]))) (NCell (D 1) (NAtom (Indirect [0; 1])))) = Some x /\ caches_ok m'.
Proof.
  edestruct (mug_u32_correct sample_memory (PAlloc 1)
    (NCell (NCell (D 1) (NAtom (Indirect [0; 1]))) (NCell (D 1) (NAtom (Indirect [0; 1]))))) as (m' & x & H & Hx & _ & _ & Hok & _).
  - assert (stands sample_memory (PAlloc 0) (NCell (D 1) (NAtom (Indirect [0; 1])))).
    { eapply stands_cell; [reflexivity..|constructor; vm_compute; intuition congruence|].
      eapply stands_indirect; [reflexivity..|]. apply wf_indirect.
      split_and!; [repeat constructor; vm_compute; congruence|done|vm_compute; intuition congruence..]. }
    eapply stands_cell; [reflexivity..|done|done].
  - intros l a y n Ha Hy. exfalso.
    destruct l as [|[|[|l]]]; cbn in Ha; [injection Ha as <-; by vm_compute in Hy..|done].
  - apply le_n.
  - exists m', x. split; [exact H|]. split; [exact Hx|exact Hok].
Defined.
