(* ===== verification/KeyFairQueue.v ===== *)
(** The queue with at most one entry per key of
    crates/nockchain-libp2p-io/src/key_fair_queue.rs, through which the peers of a
    node reach its kernel.

    A send is two atomic actions, on the shared map and on the channel of keys, and
    so is a receive; [step] interleaves the actions of any number of senders with
    those of the one receiver.  A receive that waits can be dropped without effect,
    since it takes the key and the value without waiting in between. *)
From stdpp Require Import base option list gmap fin_maps.
From S2P Require Import Prelude.

(** What polling a future gives *)
Inductive poll (A : Type) := Pending | Ready (a : A).
Arguments Pending {A}.
Arguments Ready {A} a.

Section queue.
Context {K V : Type} `{Countable K}.

(** [enqueued] is the map that both ends share, [queue_keys] the content of the
    channel; [rx_alive] and [tx_count] are the ends that are not dropped. *)
Record Queue := { enqueued : gmap K V; queue_keys : list K; rx_alive : bool; tx_count : nat }.

Definition channel : Queue := {| enqueued := ∅; queue_keys := []; rx_alive := true; tx_count := 1 |}.

(** [enqueued.insert(key, value)] returns the old value. *)
Definition insert_value (q : Queue) (key : K) (value : V) : Queue * option V :=
  ({| enqueued := <[key := value]> (enqueued q); queue_keys := queue_keys q;
      rx_alive := rx_alive q; tx_count := tx_count q |}, enqueued q !! key).
(** [key_sender.send(key)] fails with the key when the receiver is gone. *)
Definition key_send (q : Queue) (key : K) : Queue * outcome K unit :=
  if rx_alive q then
    ({| enqueued := enqueued q; queue_keys := queue_keys q ++ [key];
        rx_alive := rx_alive q; tx_count := tx_count q |}, Ok tt)
  else (q, Err key).
Definition send (q : Queue) (key : K) (value : V) : Queue * outcome K unit :=
  let '(q, old) := insert_value q key value in
  match old with
  | None => key_send q key
  | Some _ => (q, Ok tt)
  end.

(** [key_receiver.recv()]: it waits on an empty channel until the senders are gone. *)
Definition key_recv (q : Queue) : poll (option (Queue * K)) :=
  match queue_keys q with
  | key :: ks =>
      Ready (Some ({| enqueued := enqueued q; queue_keys := ks; rx_alive := rx_alive q; tx_count := tx_count q |}, key))
  | [] => if (tx_count q =? 0)%nat then Ready None else Pending
  end.
(** [enqueued.remove(&key)] with its [expect] *)
Definition remove_value (q : Queue) (key : K) : option (Queue * V) :=
  value ← enqueued q !! key;
  Some ({| enqueued := delete key (enqueued q); queue_keys := queue_keys q;
           rx_alive := rx_alive q; tx_count := tx_count q |}, value).
(** [recv]; the outer option is the panic. *)
Definition recv (q : Queue) : option (poll (option (Queue * (K * V)))) :=
  match key_recv q with
  | Pending => Some Pending
  | Ready None => Some (Ready None)
  | Ready (Some (q, key)) => '(q, value) ← remove_value q key; Some (Ready (Some (q, (key, value))))
  end.

Definition set_tx (n : nat) (q : Queue) : Queue :=
  {| enqueued := enqueued q; queue_keys := queue_keys q; rx_alive := rx_alive q; tx_count := n |}.
(** Dropping the receiver drops the keys in the channel. *)
Definition drop_receiver (q : Queue) : Queue :=
  {| enqueued := enqueued q; queue_keys := []; rx_alive := false; tx_count := tx_count q |}.

(** * Interleaving *)

(** [pushing]: the keys of sends between their two actions; [holding]: the key of a
    receive between its two actions *)
Record Config := { shared : Queue; pushing : list K; holding : option K }.
Definition initial : Config := {| shared := channel; pushing := []; holding := None |}.

Inductive event :=
  | EInsert (key : K) (value : V)
  | EPush (key : K) (r : outcome K unit)
  | ERecv (key : K)
  | EDeliver (key : K) (value : V)
  | EClone | EDropSender | EDropReceiver.

Inductive step : Config -> event -> Config -> Prop :=
  | step_insert q ps h key value q' old :
      tx_count q <> 0%nat -> insert_value q key value = (q', old) ->
      step {| shared := q; pushing := ps; holding := h |} (EInsert key value)
           {| shared := q'; pushing := match old with None => key :: ps | Some _ => ps end; holding := h |}
  | step_push q ps1 key ps2 h q' r :
      key_send q key = (q', r) ->
      step {| shared := q; pushing := ps1 ++ key :: ps2; holding := h |} (EPush key r)
           {| shared := q'; pushing := ps1 ++ ps2; holding := h |}
  | step_recv q ps q' key :
      rx_alive q = true -> key_recv q = Ready (Some (q', key)) ->
      step {| shared := q; pushing := ps; holding := None |} (ERecv key)
           {| shared := q'; pushing := ps; holding := Some key |}
  | step_remove q ps key q' value :
      remove_value q key = Some (q', value) ->
      step {| shared := q; pushing := ps; holding := Some key |} (EDeliver key value)
           {| shared := q'; pushing := ps; holding := None |}
  | step_clone q ps h :
      tx_count q <> 0%nat ->
      step {| shared := q; pushing := ps; holding := h |} EClone
           {| shared := set_tx (S (tx_count q)) q; pushing := ps; holding := h |}
  | step_drop_sender q ps h n :
      tx_count q = S n -> n <> 0%nat \/ ps = [] ->
      step {| shared := q; pushing := ps; holding := h |} EDropSender
           {| shared := set_tx n q; pushing := ps; holding := h |}
  | step_drop_receiver q ps :
      rx_alive q = true ->
      step {| shared := q; pushing := ps; holding := None |} EDropReceiver
           {| shared := drop_receiver q; pushing := ps; holding := None |}.

Inductive run : Config -> list event -> Config -> Prop :=
  | run_nil c : run c [] c
  | run_cons c e c' es c'' : step c e c' -> run c' es c'' -> run c (e :: es) c''.

(** The eight cases of a step, with the action of each computed: insert, push to a
    live and to a dropped receiver, receive, remove, and the three changes of ends *)
Ltac step_cases Hs :=
  destruct Hs as [q ps h key value q' old Htx Hi|q ps1 key ps2 h q' r Hk|q ps q' key Hl Hk
    |q ps key q' value Hk|q ps h Htx|q ps h n Htx Hlast|q ps Hl];
  [injection Hi as <- <-
  |unfold key_send in Hk; destruct (rx_alive q) eqn:El; injection Hk as <- <-
  |unfold key_recv in Hk; destruct (queue_keys q) as [|key1 ks] eqn:Ek; [by destruct (tx_count q =? 0)%nat|injection Hk as <- <-]
  |unfold remove_value in Hk; destruct (enqueued q !! key) as [value1|] eqn:Ev; [injection Hk as <- <-|done]
  |..]; cbn [shared pushing holding enqueued queue_keys rx_alive tx_count set_tx drop_receiver] in *.

(** * Invariant *)

(** Every key in the map has one token: a send about to push it, its place in the
    channel, or the receive that took it. *)
Definition tokens (c : Config) : list K :=
  option_list (holding c) ++ queue_keys (shared c) ++ pushing c.
Record inv (c : Config) : Prop := {
  inv_NoDup : NoDup (tokens c);
  inv_enqueued : forall k, k ∈ tokens c -> is_Some (enqueued (shared c) !! k);
  inv_tokens : rx_alive (shared c) = true -> forall k, is_Some (enqueued (shared c) !! k) -> k ∈ tokens c;
  inv_closed : rx_alive (shared c) = false -> queue_keys (shared c) = [] /\ holding c = None
}.

Lemma inv_initial : inv initial.
Proof.
  split; cbn; [constructor|by intros k ?%elem_of_nil| |done].
  intros _ k. rewrite lookup_empty. by intros [? ?].
Qed.

Lemma tokens_perm (h : option K) (q ps1 : list K) (k : K) (ps2 : list K) :
  option_list h ++ q ++ ps1 ++ k :: ps2 ≡ₚ k :: option_list h ++ q ++ ps1 ++ ps2.
Proof. solve_Permutation. Qed.

Lemma inv_insert q ps h key value :
  inv {| shared := q; pushing := ps; holding := h |} ->
  inv {| shared := (insert_value q key value).1;
         pushing := match enqueued q !! key with None => key :: ps | Some _ => ps end; holding := h |}.
Proof.
  intros [Hn He Ht Hc]. unfold tokens in *. cbn in *. destruct (enqueued q !! key) as [v|] eqn:Eo.
  - split; unfold tokens; cbn; [done| | |done].
    + intros k Hk. destruct (decide (k = key)) as [->|]; [rewrite lookup_insert_eq; eauto|].
      rewrite lookup_insert_ne by done. auto.
    + intros Ha k Hk. apply Ht; [done|]. destruct (decide (k = key)) as [->|]; [by rewrite Eo|].
      by rewrite lookup_insert_ne in Hk.
  - pose proof (tokens_perm h (queue_keys q) [] key ps) as Hp. cbn in Hp. split; unfold tokens; cbn; [| | |done].
    + rewrite Hp. constructor; [|done]. intros Hk. apply He in Hk. rewrite Eo in Hk. by destruct Hk.
    + intros k. rewrite Hp. intros [->|Hk]%elem_of_cons; [rewrite lookup_insert_eq; eauto|].
      destruct (decide (k = key)) as [->|]; [rewrite lookup_insert_eq; eauto|]. rewrite lookup_insert_ne by done. auto.
    + intros Ha k Hk. rewrite Hp. destruct (decide (k = key)) as [->|]; [left|right].
      apply Ht; [done|]. by rewrite lookup_insert_ne in Hk.
Qed.

Lemma inv_step c e c' : step c e c' -> inv c -> inv c'.
Proof.
  intros Hs Hinv. step_cases Hs; [by apply inv_insert|..]; destruct Hinv as [Hn He Ht Hc];
    unfold tokens in *; cbn in *; split; unfold tokens; cbn; try done.
  - assert (Hp : option_list h ++ (queue_keys q ++ [key]) ++ ps1 ++ ps2 ≡ₚ
      option_list h ++ queue_keys q ++ ps1 ++ key :: ps2) by solve_Permutation. by rewrite Hp.
  - intros k Hk. apply He. revert Hk. set_solver.
  - intros _ k Hk. apply (Ht El) in Hk. revert Hk. set_solver.
  - rewrite tokens_perm in Hn. by apply NoDup_cons in Hn as [_ ?].
  - intros k Hk. apply He. rewrite tokens_perm. by right.
  - by rewrite El.
  - by rewrite Ek in Hn.
  - intros k Hk. apply He. by rewrite Ek.
  - intros Ha k Hk. specialize (Ht Ha k Hk). by rewrite Ek in Ht.
  - congruence.
  - by apply NoDup_cons in Hn as [_ ?].
  - apply NoDup_cons in Hn as [Hk1 Hn]. intros k Hk. rewrite lookup_delete_ne by set_solver. set_solver.
  - intros Ha k Hk. destruct (decide (k = key)) as [->|]; [rewrite lookup_delete_eq in Hk; by destruct Hk|].
    rewrite lookup_delete_ne in Hk by done. specialize (Ht Ha k Hk). set_solver.
  - intros Ha. by apply Hc in Ha as [_ ?].
  - by apply NoDup_app in Hn as (_ & _ & ?).
  - set_solver.
Qed.

Lemma inv_run c es c' : run c es c' -> inv c -> inv c'.
Proof. induction 1; eauto using inv_step. Qed.

(** * Traces *)

(** What the map must contain: for each key the last value sent since its last
    delivery *)
Fixpoint unsent (m : gmap K V) (es : list event) : gmap K V :=
  match es with
  | [] => m
  | EInsert k v :: es => unsent (<[k := v]> m) es
  | EDeliver k _ :: es => unsent (delete k m) es
  | _ :: es => unsent m es
  end.
Fixpoint delivered (es : list event) : list (K * V) :=
  match es with
  | [] => []
  | EDeliver k v :: es => (k, v) :: delivered es
  | _ :: es => delivered es
  end.
Fixpoint pushed (es : list event) : list K :=
  match es with
  | [] => []
  | EPush k (Ok _) :: es => k :: pushed es
  | _ :: es => pushed es
  end.
(** The last value sent for a key *)
Fixpoint last_sent (k : K) (es : list event) : option V :=
  match es with
  | [] => None
  | EInsert k' v :: es =>
      match last_sent k es with
      | Some w => Some w
      | None => if decide (k = k') then Some v else None
      end
  | _ :: es => last_sent k es
  end.
(** Events other than new sends and dropped ends *)
Definition internal (e : event) : bool :=
  match e with EPush _ _ | ERecv _ | EDeliver _ _ => true | _ => false end.

Lemma run_unsent c es c' : run c es c' -> enqueued (shared c') = unsent (enqueued (shared c)) es.
Proof. induction 1 as [|c e c' es c'' Hs Hr IH]; [done|]. rewrite IH. by step_cases Hs. Qed.

Lemma run_app c es es' c' : run c (es ++ es') c' -> exists c1, run c es c1 /\ run c1 es' c'.
Proof.
  revert c. induction es as [|e es IH]; intros c Hr; [exists c; by split; [constructor|]|].
  inversion Hr as [|? ? c1 ? ? Hs Hr']; subst. destruct (IH _ Hr') as (c2 & H1 & H2).
  exists c2. split; [by econstructor|done].
Qed.
Lemma run_trans c es c1 es' c' : run c es c1 -> run c1 es' c' -> run c (es ++ es') c'.
Proof. induction 1; [done|]. intros. econstructor; eauto. Qed.

Lemma unsent_last es m k v :
  unsent m es !! k = Some v -> last_sent k es = Some v \/ last_sent k es = None /\ m !! k = Some v.
Proof.
  revert m. induction es as [|[k' v'|k' r|k'|k' v'| | |] es IH]; intros m; cbn [unsent last_sent]; [by right|..|auto|auto|auto]; try by auto.
  - intros [->|[-> Hl]]%IH; [by left|]. destruct (decide (k = k')) as [->|Hne].
    + rewrite lookup_insert_eq in Hl. by left.
    + rewrite lookup_insert_ne in Hl by done. by right.
  - intros [?|[? Hl]]%IH; [by left|right]. split; [done|]. by apply lookup_delete_Some in Hl as [_ ?].
Qed.
(** A delivery hands out the last value sent for its key. *)
Lemma run_last tr1 k v tr2 c :
  run initial (tr1 ++ EDeliver k v :: tr2) c -> last_sent k tr1 = Some v.
Proof.
  intros (c1 & H1 & H2)%run_app. inversion H2 as [|? ? c2 ? ? Hs _]; subst.
  apply run_unsent in H1. inversion Hs as [| | |q ps key q' value Hk| | |]; subst. cbn in H1.
  unfold remove_value in Hk. rewrite H1 in Hk. destruct (unsent ∅ tr1 !! k) as [w|] eqn:E; [|done]. injection Hk as _ ->.
  apply unsent_last in E as [?|[_ E]]; [done|]. by rewrite lookup_empty in E.
Qed.

Lemma step_alive c e c' : step c e c' -> rx_alive (shared c') = true -> rx_alive (shared c) = true.
Proof. intros Hs. step_cases Hs; congruence. Qed.
Lemma run_alive c es c' : run c es c' -> rx_alive (shared c') = true -> rx_alive (shared c) = true.
Proof. induction 1; eauto using step_alive. Qed.

(** Keys leave in the order in which they entered the channel. *)
Lemma run_fifo c es c' :
  run c es c' -> rx_alive (shared c') = true ->
  (delivered es).*1 ++ option_list (holding c') ++ queue_keys (shared c') =
  option_list (holding c) ++ queue_keys (shared c) ++ pushed es.
Proof.
  induction 1 as [|c e c' es c'' Hs Hr IH]; intros Ha; [by rewrite app_nil_r|].
  specialize (IH Ha). pose proof (run_alive _ _ _ Hr Ha) as Ha'.
  step_cases Hs; cbn [delivered pushed fmap list_fmap fst option_list app] in *; try done.
  - rewrite IH. by rewrite <- app_assoc.
  - by rewrite IH, Ek.
  - by rewrite IH.
Qed.

(** What is delivered and what is left is what was there. *)
Lemma run_delivered c es c' :
  run c es c' -> forallb internal es ->
  delivered es ++ map_to_list (enqueued (shared c')) ≡ₚ map_to_list (enqueued (shared c)).
Proof.
  induction 1 as [|c e c' es c'' Hs Hr IH]; [done|]. cbn [forallb]. intros [He Hes]%andb_True. specialize (IH Hes).
  step_cases Hs; try done. cbn [delivered app]. by rewrite IH, map_to_list_delete.
Qed.

(** The internal actions that are left *)
Definition measure (c : Config) : nat :=
  (3 * length (pushing c) + 2 * length (queue_keys (shared c)) + length (option_list (holding c)))%nat.

Lemma run_measure c es c' :
  run c es c' -> forallb internal es -> rx_alive (shared c') = true ->
  (length es + measure c' = measure c)%nat.
Proof.
  induction 1 as [|c e c' es c'' Hs Hr IH]; [done|]. cbn [forallb]. intros [He Hes]%andb_True Ha.
  specialize (IH Hes Ha). pose proof (run_alive _ _ _ Hr Ha) as Ha'. cbn [length]. rewrite Nat.add_succ_l, IH. clear IH.
  step_cases Hs; unfold measure; cbn in *; try done; try congruence.
  - rewrite !length_app. cbn. lia.
  - rewrite Ek. cbn. lia.
Qed.

(** As long as the map is not empty, an internal action is possible. *)
Lemma progress c :
  inv c -> rx_alive (shared c) = true -> enqueued (shared c) <> ∅ -> exists e c', internal e /\ step c e c'.
Proof.
  destruct c as [q ps h]. intros [Hn He Ht Hc] Ha Hne. cbn in *. destruct h as [key|].
  - destruct (He key) as [v Hv]; [unfold tokens; cbn; left|].
    eexists (EDeliver key v), _. split; [done|]. apply step_remove. unfold remove_value. by rewrite Hv.
  - destruct (queue_keys q) as [|key ks] eqn:Ek.
    + destruct ps as [|key ps].
      * exfalso. apply Hne, map_empty. intros k. destruct (enqueued q !! k) as [v|] eqn:E; [|done].
        exfalso. specialize (Ht Ha k). unfold tokens in Ht. cbn in Ht. rewrite E, Ek in Ht. cbn in Ht. set_solver.
      * eexists (EPush key _), _. split; [done|]. apply (step_push q [] key ps None). by apply surjective_pairing.
    + eexists (ERecv key), _. split; [done|]. eapply step_recv; [done|]. unfold key_recv. by rewrite Ek.
Qed.
End queue.

Arguments Queue : clear implicits.
Arguments Queue K V {_ _}.
Arguments Config : clear implicits.
Arguments Config K V {_ _}.
Arguments event : clear implicits.

(** * Properties *)

(** C13: Whatever the interleaving of senders and receiver, the [expect] of the
    receiver never fails, no key waits twice, every key of the map is on its way to
    the receiver as long as that lives, and the map holds for each key the last
    value sent since its last delivery; so nothing stays behind when all is quiet. *)
Theorem queue_safe {K V} `{Countable K} (es : list (event K V)) (c : Config K V) :
  run initial es c ->
  (forall k, holding c = Some k -> is_Some (remove_value (shared c) k)) /\
  NoDup (queue_keys (shared c)) /\
  (rx_alive (shared c) = true -> forall k, k ∈ dom (enqueued (shared c)) <-> k ∈ tokens c) /\
  enqueued (shared c) = unsent ∅ es /\
  (rx_alive (shared c) = true -> tokens c = [] -> enqueued (shared c) = ∅).
Proof.
  intros Hr. destruct (inv_run _ _ _ Hr inv_initial) as [Hn He Ht _].
  assert (Hd : rx_alive (shared c) = true -> forall k, k ∈ dom (enqueued (shared c)) <-> k ∈ tokens c).
  { intros Ha k. rewrite elem_of_dom. split; [by apply Ht|apply He]. }
  split_and!; [| |done|by apply (run_unsent initial)|].
  - intros k Hk. destruct (He k) as [v Hv]; [unfold tokens; rewrite Hk; left|]. unfold remove_value. rewrite Hv. by eexists.
  - unfold tokens in Hn. apply NoDup_app in Hn as (_ & _ & Hn). by apply NoDup_app in Hn as (? & _).
  - intros Ha E. apply dom_empty_iff_L. apply set_eq. intros k. rewrite (Hd Ha), E. set_solver.
Qed.

Lemma queue_safe_witness :
  exists es (c : Config nat nat), run initial es c /\ holding c = Some 7%nat /\
    is_Some (remove_value (shared c) 7%nat) /\ enqueued (shared c) = unsent ∅ es.
Proof.
  exists [EInsert 7 1; EPush 7 (Ok tt); ERecv 7; EInsert 7 2]%nat. eexists. 
  match goal with |- ?r /\ _ => assert (Hr : r) end.
  { eapply run_cons; [eapply (step_insert channel [] None 7 1 _ None)%nat; [done|reflexivity]|]. cbn.
    eapply run_cons; [eapply (step_push _ [] 7 [] None)%nat; reflexivity|]. cbn.
    eapply run_cons; [eapply (step_recv _ [] _ 7)%nat; reflexivity|].
    eapply run_cons; [eapply (step_insert _ [] (Some 7) 7 2 _ (Some 1))%nat; [done|reflexivity]|]. apply run_nil. }
  destruct (queue_safe _ _ Hr) as (Hk & _ & _ & Hm & _). split; [exact Hr|]. split; [reflexivity|].
  split; [apply Hk; reflexivity|exact Hm].
Defined.

(** C21: The queue is fair and loses nothing.  A key in the channel is delivered
    after exactly the keys before it, each of them once, so a peer that floods the
    queue delays the others by one entry; and every delivery of a key hands out the last
    value sent for it.  Without new sends the senders and the
    receiver stop after [measure c] actions, and when they cannot go on every entry
    has been delivered once. *)
Theorem queue_live {K V} `{Countable K} (es0 es : list (event K V)) (c c' : Config K V) :
  run initial es0 c -> run c es c' -> rx_alive (shared c') = true ->
  (forall l1 k l2, queue_keys (shared c) = l1 ++ k :: l2 ->
     NoDup (option_list (holding c) ++ l1) /\
     ((length (option_list (holding c) ++ l1) < length (delivered es))%nat ->
      (delivered es).*1 !! length (option_list (holding c) ++ l1) = Some k)) /\
  (forall tr1 k v tr2, es0 ++ es = tr1 ++ EDeliver k v :: tr2 -> last_sent k tr1 = Some v) /\
  (forallb internal es -> (length es + measure c' = measure c)%nat) /\
  (forallb internal es -> (forall e c'', internal e -> ~ step c' e c'') ->
     enqueued (shared c') = ∅ /\ delivered es ≡ₚ map_to_list (enqueued (shared c))).
Proof.
  intros Hr0 Hr Ha. pose proof (inv_run _ _ _ Hr0 inv_initial) as Hinv. split_and!.
  - intros l1 k l2 Hk. pose proof (run_fifo _ _ _ Hr Ha) as Hf. rewrite Hk in Hf. split.
    + destruct Hinv as [Hn _ _ _]. unfold tokens in Hn. rewrite Hk in Hn. rewrite app_assoc in Hn.
      apply NoDup_app in Hn as (Hn & _). rewrite app_assoc in Hn. by apply NoDup_app in Hn as (Hn & _).
    + intros Hlt. rewrite <- (length_fmap fst) in Hlt. rewrite <- (lookup_app_l _ (option_list (holding c') ++ queue_keys (shared c'))) by done.
      rewrite Hf, <- !app_assoc, app_assoc, lookup_app_r, Nat.sub_diag by done. done.
  - intros tr1 k v tr2 E. pose proof (run_trans _ _ _ _ _ Hr0 Hr) as Ht. rewrite E in Ht. by eapply run_last.
  - intros Hi. by apply run_measure.
  - intros Hi Hstop. assert (E : enqueued (shared c') = ∅).
    { destruct (decide (enqueued (shared c') = ∅)) as [|Hne]; [done|].
      destruct (progress c') as (e & c'' & Hie & Hs); [by eapply inv_run|done|done|]. by destruct (Hstop e c''). }
    split; [done|]. rewrite <- (run_delivered _ _ _ Hr Hi), E, map_to_list_empty. by rewrite app_nil_r.
Qed.

Lemma queue_live_witness :
  exists es (c c' : Config nat nat), run initial [EInsert 7 1; EInsert 8 2]%nat c /\ run c es c' /\
    delivered es ≡ₚ map_to_list (enqueued (shared c)) /\ length (delivered es) = 2%nat.
Proof.
  exists [EPush 8 (Ok tt); ERecv 8; EPush 7 (Ok tt); EDeliver 8 2; ERecv 7; EDeliver 7 1]%nat. eexists _, _.
  match goal with |- ?r /\ ?r' /\ _ => assert (Hr : r); [|assert (Hr' : r')] end.
  { eapply run_cons; [eapply (step_insert channel [] None 7 1 _ None)%nat; [done|reflexivity]|]. cbn.
    eapply run_cons; [eapply (step_insert _ [7] None 8 2 _ None)%nat; [done|reflexivity]|]. apply run_nil. }
  { eapply run_cons; [eapply (step_push _ [] 8 [7] None)%nat; reflexivity|]. cbn.
    eapply run_cons; [eapply (step_recv _ [7] _ 8)%nat; reflexivity|].
    eapply run_cons; [eapply (step_push _ [] 7 [] (Some 8))%nat; reflexivity|]. cbn.
    eapply run_cons; [eapply (step_remove _ [] 8 _ 2)%nat; reflexivity|].
    eapply run_cons; [eapply (step_recv _ [] _ 7)%nat; reflexivity|].
    eapply run_cons; [eapply (step_remove _ [] 7 _ 1)%nat; reflexivity|]. apply run_nil. }
  destruct (queue_live _ _ _ _ Hr Hr' eq_refl) as (_ & _ & _ & Hd). split; [exact Hr|]. split; [exact Hr'|].
  split; [|reflexivity]. apply Hd; [reflexivity|]. intros e c'' He Hs. inversion Hs; subst; try done.
  match goal with H : _ ++ _ :: _ = [] |- _ => by destruct ps1 end.
Defined.

(** After the receiver is gone a first send of a key reports it and leaves its value
    in the map, so every later send of that key reports success. *)
Lemma closed_send_ok {K V} `{Countable K} (q : Queue K V) k v v' :
  rx_alive q = false -> enqueued q !! k = None ->
  (send q k v).2 = Err k /\ (send (send q k v).1 k v').2 = Ok tt.
Proof.
  intros Ha Hk. unfold send, insert_value, key_send. rewrite Hk. cbn. rewrite Ha. cbn. by rewrite lookup_insert_eq.
Qed.

(** The two actions of [send] and [recv] without interference *)
Lemma send_recv_alone {K V} `{Countable K} (q : Queue K V) k v :
  rx_alive q = true -> enqueued q = ∅ -> queue_keys q = [] ->
  exists q', recv (send q k v).1 = Some (Ready (Some (q', (k, v)))) /\ enqueued q' = ∅ /\ queue_keys q' = [].
Proof.
  intros Ha He Hk. unfold send, insert_value, key_send. rewrite He, lookup_empty. cbn. rewrite Ha, Hk. cbn.
  unfold recv, key_recv, remove_value. cbn. rewrite lookup_insert_eq. cbn. eexists. split; [done|]. cbn.
  by rewrite delete_insert_id by apply lookup_empty.
Qed.
