(* ===== verification/Base58.v ===== *)
(** Digests as base-58 strings: crates/nockchain-libp2p-io/src/tip5_util.rs and
    [Hash] of crates/nockchain-types/src/tx_engine/common/mod.rs.

    A digest of five field elements is read as a number in base [PRIME] and written
    as the base-58 of its big-endian bytes.  The crate bs58 is the interface [Bs58];
    [bitcoin_bs58] is the encoding it documents, and satisfies [Bs58Laws].  A [UBig]
    is its value. *)
From stdpp Require Import base option list numbers strings.
From Stdlib Require Import ZArith Lia Ascii.
From S2P Require Import Prelude Noun Interp Belt Vec Poly BPoly Tip5 NounHash NounSerde NounSerdeTheorems.
Local Open Scope Z_scope.

(** * Digits *)

(** The digits of a number, lowest first and without leading zeros *)
Fixpoint digits_loop (fuel : nat) (b x : Z) : list Z :=
  match fuel with
  | O => []
  | S fuel => if x =? 0 then [] else x mod b :: digits_loop fuel b (x / b)
  end.
Definition digits (b x : Z) : list Z := digits_loop (S (Z.to_nat (Z.log2 x))) b x.
Fixpoint from_digits (b : Z) (ds : list Z) : Z :=
  match ds with
  | [] => 0
  | d :: ds => d + b * from_digits b ds
  end.

Definition is_digit (b d : Z) : Prop := 0 <= d < b.

Lemma from_digits_range b ds : 0 < b -> Forall (is_digit b) ds -> 0 <= from_digits b ds < b ^ Z.of_nat (length ds).
Proof.
  intros Hb. induction 1 as [|d ds Hd Hds IH]; [cbn; lia|]. cbn [from_digits length]. unfold is_digit in Hd.
  rewrite Nat2Z.inj_succ, Z.pow_succ_r by lia. nia.
Qed.

Lemma digits_loop_spec fuel b x :
  2 <= b -> 0 <= x < 2 ^ Z.of_nat fuel ->
  from_digits b (digits_loop fuel b x) = x /\ Forall (is_digit b) (digits_loop fuel b x) /\
  list.last (digits_loop fuel b x) <> Some 0.
Proof.
  intros Hb. revert x. induction fuel as [|fuel IH]; intros x Hx; [cbn in *; split_and!; [lia|constructor|done]|].
  cbn [digits_loop]. destruct (Z.eqb_spec x 0) as [->|Hne]; [by split_and!|].
  rewrite Nat2Z.inj_succ, Z.pow_succ_r in Hx by lia.
  destruct (IH (x / b)) as (Hv & Hf & Hl).
  { split; [apply Z.div_pos; lia|]. apply Z.div_lt_upper_bound; nia. }
  pose proof (Z.mod_pos_bound x b ltac:(lia)). pose proof (Z.div_mod x b ltac:(lia)).
  split_and!; [cbn [from_digits]; rewrite Hv; lia|by constructor|].
  destruct (digits_loop fuel b (x / b)) as [|d ds] eqn:E; [|done]. cbn in *. intros [= Hz]. lia.
Qed.

Lemma digits_spec b x :
  2 <= b -> 0 <= x ->
  from_digits b (digits b x) = x /\ Forall (is_digit b) (digits b x) /\ list.last (digits b x) <> Some 0.
Proof.
  intros Hb Hx. apply digits_loop_spec; [done|]. rewrite Nat2Z.inj_succ, Z2Nat.id by apply Z.log2_nonneg.
  destruct (Z.eq_dec x 0) as [->|]; [cbn; lia|]. split; [done|]. apply Z.log2_spec. lia.
Qed.

(** Digits without leading zeros are determined by their value. *)
Lemma last_cons_nonzero (d : Z) ds : list.last (d :: ds) <> Some 0 -> list.last ds <> Some 0.
Proof. by destruct ds. Qed.

Lemma from_digits_0 b ds :
  2 <= b -> Forall (is_digit b) ds -> list.last ds <> Some 0 -> from_digits b ds = 0 -> ds = [].
Proof.
  intros Hb. induction 1 as [|d ds Hd Hds IH]; [done|]. cbn [from_digits]. intros Hl E. unfold is_digit in Hd.
  pose proof (from_digits_range b ds ltac:(lia) Hds). assert (from_digits b ds = 0) by nia. assert (d = 0) as -> by nia.
  rewrite IH in Hl; [done|by eapply last_cons_nonzero|done].
Qed.

Lemma from_digits_inj b ds es :
  2 <= b -> Forall (is_digit b) ds -> Forall (is_digit b) es -> list.last ds <> Some 0 -> list.last es <> Some 0 ->
  from_digits b ds = from_digits b es -> ds = es.
Proof.
  intros Hb Hds. revert es. induction Hds as [|d ds Hd Hds IH]; intros es Hes Hl Hl' E.
  - symmetry. by apply (from_digits_0 b).
  - destruct Hes as [|e es He Hes]; [apply (from_digits_0 b); [done|by constructor|done..]|].
    cbn [from_digits] in E. unfold is_digit in *.
    destruct (Z.div_mod_unique b (from_digits b ds) (from_digits b es) d e) as [E' ->]; [lia..|].
    f_equal. apply IH; [done|by eapply last_cons_nonzero..|done].
Qed.

Lemma digits_from_digits b ds :
  2 <= b -> Forall (is_digit b) ds -> list.last ds <> Some 0 -> digits b (from_digits b ds) = ds.
Proof.
  intros Hb Hd Hl. pose proof (from_digits_range b ds ltac:(lia) Hd).
  destruct (digits_spec b (from_digits b ds)) as (Hv & Hf & Hl'); [done|lia|]. by apply (from_digits_inj b).
Qed.

(** * bs58 *)

Class Bs58 := { bs58_encode : list Z -> string; bs58_decode : string -> option (list Z) }.
Class Bs58Laws `{Bs58} := {
  bs58_roundtrip bs : Forall byte bs -> bs58_decode (bs58_encode bs) = Some bs
}.

(** [UBig::to_be_bytes] and [UBig::from_be_bytes] *)
Definition to_be_bytes (value : Z) : list Z := reverse (digits 256 value).
Definition from_be_bytes (bytes : list Z) : Z := from_digits 256 (reverse bytes).

Section base58.
Context `{Bs58}.

(** * tip5_util.rs *)

Definition P : Z := 0xffffffff00000001.

Definition accum_prime_ubig (prime acc value : Z) (i : nat) : Z := acc + value * prime ^ Z.of_nat i.
Definition base_p_to_decimal (hash : list Z) : Z :=
  foldl (fun result '(i, value) => accum_prime_ubig P result value i) 0 (imap pair hash).
Definition ubig_to_base58 (value : Z) : string := bs58_encode (to_be_bytes value).
(** [[u64; 5]::from_noun] fails unless the noun is a tuple of five words. *)
Definition tip5_hash_to_base58 (n : noun) : outcome NounDecodeError string :=
  tuple ← array_decode (A := u64) 5 n;
  let decimal_value := base_p_to_decimal ((fun '(MkU64 x) => x) <$> tuple) in
  Ok (ubig_to_base58 decimal_value).

(** [None] is the error of bs58. *)
Definition base58_to_ubig (value : string) : option Z :=
  bytes ← bs58_decode value; Some (from_be_bytes bytes).
Fixpoint base_p_digits (n : nat) (value : Z) : list Z :=
  match n with
  | O => []
  | S n => value mod P :: base_p_digits n (value / P)
  end.
Definition decimal_to_base_p (value : Z) : list Z := base_p_digits 5 value.

(** * [Hash] *)

Inductive HashDecodeError := ProvidedValueTooLarge | Base58Error.

Definition Hash_to_base58 (h : list Z) : string :=
  let result := foldl (fun result '(i, value) => result + value * PRIME ^ Z.of_nat i) 0 (imap pair h) in
  bs58_encode (to_be_bytes result).

(** [belts[i] = value % PRIME; value /= PRIME], with what is left of [value] *)
Fixpoint hash_digits (n : nat) (value : Z) : list Z * Z :=
  match n with
  | O => ([], value)
  | S n => let '(belts, rest) := hash_digits n (value / PRIME) in (value mod PRIME :: belts, rest)
  end.
Definition P_BIG : Z := PRIME.
Definition Hash_from_base58 (s : string) : outcome HashDecodeError (list Z) :=
  match bs58_decode s with
  | None => Err Base58Error
  | Some bytes =>
      let '(belts, value) := hash_digits 5 (from_be_bytes bytes) in
      if P_BIG <? value then Err ProvidedValueTooLarge else Ok belts
  end.
End base58.

(** * The documented encoding *)

Definition alphabet : string := "123456789ABCDEFGHJKLMNPQRSTUVWXYZabcdefghijkmnopqrstuvwxyz".
Definition b58_char (d : Z) : ascii := default zero (String.get (Z.to_nat d) alphabet).
Fixpoint index_of (c : ascii) (s : string) : option Z :=
  match s with
  | EmptyString => None
  | String.String c' s => if Ascii.eqb c c' then Some 0 else i ← index_of c s; Some (1 + i)
  end.
Definition string_of (cs : list ascii) : string := foldr String.String EmptyString cs.
Fixpoint chars (s : string) : list ascii :=
  match s with EmptyString => [] | String.String c s => c :: chars s end.

(** Leading zeros, and the rest *)
Fixpoint split_zeros (ds : list Z) : nat * list Z :=
  match ds with
  | 0 :: ds => let '(n, ds) := split_zeros ds in (S n, ds)
  | _ => (O, ds)
  end.
(** A change of base keeps the number of leading zeros. *)
Definition rebase (b b' : Z) (ds : list Z) : list Z :=
  let '(n, ds) := split_zeros ds in replicate n 0 ++ reverse (digits b' (from_digits b (reverse ds))).

#[global] Instance bitcoin_bs58 : Bs58 := {|
  bs58_encode bytes := string_of (b58_char <$> rebase 256 58 bytes);
  bs58_decode s := ds ← mapM (fun c => index_of c alphabet) (chars s); Some (rebase 58 256 ds)
|}.

(** The strings of the tests in the source *)
Example tip5_strings :
  tip5_hash_to_base58 (T [D 1; D 2; D 3; D 4; D 5]) = Ok "2V9arU36gvtaofWmNowewoj9u7gbNA2qsJZEQ3WPky5mQ" /\
  Hash_to_base58 [0x6ef99e5f3447ffda; 0xdf94122d1a98ec99; 0xcbf1918337a0e197; 0x6cda1112891244ce; 0x6e420b8a615508d4]
    = "6UkUko9WTwwR6VVRXwPQpUy5pswdvNtoyHspY5n9nLVnBxzAgEyMwPR".
Proof. vm_compute. split; reflexivity. Qed.

(** * Laws of the documented encoding *)

Lemma split_zeros_spec ds n r :
  split_zeros ds = (n, r) -> ds = replicate n 0 ++ r /\ head r <> Some 0.
Proof.
  revert n. induction ds as [|d ds IH]; intros n; cbn; [by intros [= <- <-]|].
  destruct d; [|by intros [= <- <-]..]. destruct (split_zeros ds) as [m r'] eqn:E. intros [= <- ->].
  destruct (IH m eq_refl) as [-> Hh]. done.
Qed.

Lemma split_zeros_app n r : head r <> Some 0 -> split_zeros (replicate n 0 ++ r) = (n, r).
Proof.
  intros Hh. induction n as [|n IH]; cbn; [|by rewrite IH]. destruct r as [|[]]; done.
Qed.

Lemma head_reverse_last (l : list Z) : head (reverse l) = list.last l.
Proof. apply head_reverse. Qed.

Lemma rebase_roundtrip b b' ds :
  2 <= b -> 2 <= b' -> Forall (is_digit b) ds ->
  Forall (is_digit b') (rebase b b' ds) /\ rebase b' b (rebase b b' ds) = ds.
Proof.
  intros Hb Hb' Hd. unfold rebase at 1 3. destruct (split_zeros ds) as [n r] eqn:E.
  apply split_zeros_spec in E as [-> Hh]. apply Forall_app in Hd as [_ Hd].
  assert (Hd' : Forall (is_digit b) (reverse r)) by (by apply Forall_reverse).
  pose proof (from_digits_range b (reverse r) ltac:(lia) Hd').
  destruct (digits_spec b' (from_digits b (reverse r))) as (Hv & Hf & Hl); [done|lia|]. split.
  - apply Forall_app. split; [apply Forall_replicate; unfold is_digit; lia|]. by apply Forall_reverse.
  - unfold rebase. rewrite split_zeros_app by (by rewrite head_reverse_last). rewrite reverse_involutive, Hv.
    rewrite digits_from_digits, reverse_involutive; [done|done|done|]. by rewrite <- head_reverse_last, reverse_involutive.
Qed.

Lemma b58_char_index d : is_digit 58 d -> index_of (b58_char d) alphabet = Some d.
Proof.
  intros Hd. assert (Hall : forallb (fun n => bool_decide (index_of (b58_char (Z.of_nat n)) alphabet = Some (Z.of_nat n))) (seq 0 58) = true)
    by (vm_compute; reflexivity).
  rewrite forallb_forall in Hall. unfold is_digit in Hd. specialize (Hall (Z.to_nat d)). rewrite Z2Nat.id in Hall by lia.
  eapply bool_decide_eq_true, Hall. apply in_seq. lia.
Qed.

Lemma chars_string_of cs : chars (string_of cs) = cs.
Proof. induction cs as [|c cs IH]; [done|]. change (string_of (c :: cs)) with (String.String c (string_of cs)). cbn. by rewrite IH. Qed.

#[global] Instance bitcoin_bs58_laws : Bs58Laws.
Proof.
  split. intros bs Hb. destruct (rebase_roundtrip 256 58 bs) as [Hd Hr]; [done|done|done|].
  cbn [bs58_encode bs58_decode bitcoin_bs58]. rewrite chars_string_of.
  assert (Em : mapM (fun c => index_of c alphabet) (b58_char <$> rebase 256 58 bs) = Some (rebase 256 58 bs)).
  { apply mapM_Some. apply Forall2_fmap_l, Forall_Forall2_diag. eapply Forall_impl; [exact Hd|]. apply b58_char_index. }
  rewrite Em. cbn. by rewrite Hr.
Qed.

(** * Digests *)

Lemma P_PRIME : P = PRIME.
Proof. reflexivity. Qed.

Lemma foldl_base b k acc (h : list Z) :
  foldl (fun result '(i, value) => result + value * b ^ Z.of_nat i) acc (imap (fun i v => ((k + i)%nat, v)) h) =
  acc + b ^ Z.of_nat k * from_digits b h.
Proof.
  revert k acc. induction h as [|v h IH]; intros k acc; [cbn; lia|]. rewrite imap_cons. cbn [foldl from_digits].
  erewrite imap_ext; [rewrite (IH (S k))|]; [|intros i x _; cbn; f_equal; lia].
  rewrite Nat.add_0_r, Nat2Z.inj_succ, Z.pow_succ_r by lia. lia.
Qed.

Lemma base_p_value h :
  base_p_to_decimal h = from_digits PRIME h /\
  foldl (fun result '(i, value) => result + value * PRIME ^ Z.of_nat i) 0 (imap pair h) = from_digits PRIME h.
Proof.
  pose proof (foldl_base PRIME 0 0 h) as E. cbn [Nat.add] in E. change (Z.of_nat 0) with 0 in E. rewrite Z.pow_0_r in E.
  split; [|etrans; [exact E|lia]]. etrans; [exact E|lia].
Qed.

Lemma hash_digits_spec h k :
  Forall based h -> 0 <= k ->
  hash_digits (length h) (from_digits PRIME h + PRIME ^ Z.of_nat (length h) * k) = (h, k) /\
  base_p_digits (length h) (from_digits PRIME h + PRIME ^ Z.of_nat (length h) * k) = h.
Proof.
  intros Hh Hk. induction Hh as [|d h Hd Hh IH]; [cbn [length hash_digits base_p_digits from_digits]; split; [f_equal; lia|done]|].
  cbn [length hash_digits base_p_digits from_digits]. rewrite P_PRIME, Nat2Z.inj_succ, Z.pow_succ_r by lia. unfold based in Hd.
  set (v := from_digits PRIME h) in *. set (q := PRIME ^ Z.of_nat (length h)) in *.
  replace (d + PRIME * v + PRIME * q * k) with (d + (v + q * k) * PRIME) by lia.
  rewrite Z.mod_add, Z.div_add, Z.mod_small, Z.div_small, Z.add_0_l by (unfold PRIME in *; lia).
  destruct IH as [-> ->]. done.
Qed.

Lemma from_to_be_bytes x : 0 <= x -> from_be_bytes (to_be_bytes x) = x /\ Forall byte (to_be_bytes x).
Proof.
  intros Hx. destruct (digits_spec 256 x) as (Hv & Hf & _); [done|done|]. unfold from_be_bytes, to_be_bytes.
  rewrite reverse_involutive. split; [done|]. by apply Forall_reverse.
Qed.

Lemma based_value h : Forall based h -> 0 <= from_digits PRIME h < PRIME ^ Z.of_nat (length h).
Proof. intros Hh. apply from_digits_range; [done|]. exact Hh. Qed.

(** * Properties *)

(** C36: Writing a digest of field elements as a string and reading it back is the
    identity on both paths, so distinct digests have distinct strings, and the two
    paths agree. *)
Theorem base58_roundtrip `{Bs58Laws} (h : list Z) :
  Forall based h -> length h = 5%nat ->
  Hash_from_base58 (Hash_to_base58 h) = Ok h /\
  (decimal_to_base_p <$> base58_to_ubig (ubig_to_base58 (base_p_to_decimal h))) = Some h /\
  Hash_to_base58 h = ubig_to_base58 (base_p_to_decimal h) /\
  (n ← array_encode (MkU64 <$> h); Some (tip5_hash_to_base58 n)) = Some (Ok (Hash_to_base58 h)).
Proof.
  intros Hb Hlen. destruct (base_p_value h) as [E1 E2]. pose proof (based_value h Hb) as Hv.
  destruct (from_to_be_bytes (from_digits PRIME h)) as [Er Hby]; [lia|].
  destruct (hash_digits_spec h 0 Hb) as [Ed Ed']; [done|]. rewrite Z.mul_0_r, Z.add_0_r, Hlen in Ed, Ed'.
  assert (Es : Hash_to_base58 h = ubig_to_base58 (base_p_to_decimal h)).
  { unfold Hash_to_base58, ubig_to_base58. cbv zeta. by rewrite E1, E2. }
  split_and!; [| |done|].
  - unfold Hash_from_base58, Hash_to_base58. cbv zeta. by rewrite E2, bs58_roundtrip, Er, Ed.
  - unfold base58_to_ubig, ubig_to_base58. rewrite E1, bs58_roundtrip by done. cbn [mbind option_bind fmap option_fmap option_map].
    rewrite Er. unfold decimal_to_base_p. by rewrite Ed'.
  - destruct (array_roundtrip (MkU64 <$> h)) as (n & En & Dn).
    { apply Forall_fmap. eapply Forall_impl; [exact Hb|]. intros x [Hx Hx']. cbn. unfold is_u64, U64. unfold PRIME in Hx'. lia. }
    rewrite En. cbn [mbind option_bind]. f_equal. unfold tip5_hash_to_base58. rewrite length_fmap, Hlen in Dn. rewrite Dn.
    cbn [mbind outcome_bind]. by rewrite <- list_fmap_compose, list_fmap_id, Es.
Qed.

Lemma base58_roundtrip_witness :
  Hash_from_base58 (Hash_to_base58 [1; 2; 3; 4; 5]) = Ok [1; 2; 3; 4; 5].
Proof.
  apply (base58_roundtrip [1; 2; 3; 4; 5]); [|reflexivity]. repeat constructor; vm_compute; congruence.
Defined.

(** [Hash::from_base58] also accepts strings that are not the string of any
    digest: it compares what is left after five divisions with [PRIME] instead of
    zero, so a number of up to [PRIME] + 1 times the range loses its high part and
    decodes as another digest; only beyond that it is an error. *)
Theorem hash_from_base58_overflow `{Bs58Laws} (h : list Z) (k : Z) :
  Forall based h -> length h = 5%nat -> 0 <= k ->
  Hash_from_base58 (ubig_to_base58 (from_digits PRIME h + PRIME ^ 5 * k)) =
    if PRIME <? k then Err ProvidedValueTooLarge else Ok h.
Proof.
  intros Hb Hlen Hk. pose proof (based_value h Hb) as Hv.
  destruct (from_to_be_bytes (from_digits PRIME h + PRIME ^ 5 * k)) as [Er Hby]; [unfold PRIME in *; nia|].
  destruct (hash_digits_spec h k Hb Hk) as [Ed _]. rewrite Hlen in Ed. change (Z.of_nat 5) with 5 in Ed.
  unfold Hash_from_base58, ubig_to_base58. rewrite bs58_roundtrip by done. by rewrite Er, Ed.
Qed.

Lemma hash_from_base58_overflow_witness :
  Hash_from_base58 (ubig_to_base58 (from_digits PRIME [1; 2; 3; 4; 5] + PRIME ^ 5 * 1)) = Ok [1; 2; 3; 4; 5].
Proof.
  etransitivity; [apply hash_from_base58_overflow; [repeat constructor; vm_compute; congruence|reflexivity|lia]|reflexivity].
Defined.
