(* ===== verification/P2pState.v ===== *)
(** What a node knows of its peers: crates/nockchain-libp2p-io/src/p2p_state.rs, with
    the places of driver.rs that update and query the caches it holds, and
    [ip_addr] of p2p_util.rs.

    The identifiers of libp2p are parameters; a multiaddress is the list of its
    protocol components.  The order of the peers in a returned vector is that of the
    set and is not modelled; metrics and log output are left out. *)
From stdpp Require Import base option list numbers strings gmap fin_maps.
From Stdlib Require Import ZArith Lia.
From S2P Require Import Prelude Noun Interp Belt Vec Poly BPoly Tip5 NounHash NounSerde Base58.
Local Open Scope Z_scope.

(** * Multimaps: maps to sets that are removed when they become empty *)

Section multimap.
Context {A B : Type} `{Countable A, Countable B}.

Definition mm_get (m : gmap A (gset B)) (a : A) : gset B := default ∅ (m !! a).
(** [m.entry(a).or_default().insert(b)] *)
Definition mm_insert (m : gmap A (gset B)) (a : A) (b : B) : gmap A (gset B) :=
  <[a := {[ b ]} ∪ mm_get m a]> m.
(** [if let Some(s) = m.get_mut(a) { s.remove(b); if s.is_empty() { m.remove(a) } }] *)
Definition mm_remove (m : gmap A (gset B)) (a : A) (b : B) : gmap A (gset B) :=
  match m !! a with
  | None => m
  | Some s => if decide (s ∖ {[ b ]} = ∅) then delete a m else <[a := s ∖ {[ b ]}]> m
  end.
End multimap.

(** * Addresses *)

Inductive Protocol := Ip4 (ip : Z) | Ip6 (ip : Z) | OtherProtocol.
Definition Multiaddr := list Protocol.
(** [V4] is [inl], [V6] is [inr]. *)
Definition IpAddr : Type := Z + Z.
Fixpoint ip_addr (addr : Multiaddr) : option IpAddr :=
  match addr with
  | [] => None
  | Ip4 ip :: _ => Some (inl ip)
  | Ip6 ip :: _ => Some (inr ip)
  | OtherProtocol :: addr => ip_addr addr
  end.

Inductive ConnectedPoint := Dialer | Listener.

Section p2p.
Context {PeerId ConnectionId NounSlab : Type} `{Countable PeerId, Countable ConnectionId} `{Bs58}.

Record IpInfo := { request_count : Z; ping_failure_count : Z; ip_connections : gset ConnectionId }.

Record P2PState := {
  block_id_to_peers : gmap string (gset PeerId);
  peer_to_block_ids : gmap PeerId (gset string);
  connections : gmap ConnectionId PeerId;
  inbound_connections : gmap ConnectionId PeerId;
  peer_connections : gmap PeerId (gmap ConnectionId Multiaddr);
  ip_info : gmap IpAddr IpInfo;
  seen_blocks : gset string;
  seen_txs : gset string;
  block_cache : gmap Z NounSlab;
  tx_cache : gmap string NounSlab;
  elders_cache : gmap string NounSlab;
  elders_negative_cache : gset string;
  seen_elders : gset string;
  first_negative : Z;
  seen_tx_clear_interval : Z;
  last_tx_cache_clear_height : Z
}.

Definition new (interval : Z) : P2PState := {|
  block_id_to_peers := ∅; peer_to_block_ids := ∅; connections := ∅; inbound_connections := ∅;
  peer_connections := ∅; ip_info := ∅; seen_blocks := ∅; seen_txs := ∅; block_cache := ∅; tx_cache := ∅;
  elders_cache := ∅; elders_negative_cache := ∅; seen_elders := ∅; first_negative := 0;
  seen_tx_clear_interval := interval; last_tx_cache_clear_height := 0
|}.

(** Updates of groups of fields *)
Definition with_tracker (b2p : gmap string (gset PeerId)) (p2b : gmap PeerId (gset string)) (st : P2PState) : P2PState := {|
  block_id_to_peers := b2p; peer_to_block_ids := p2b; connections := connections st;
  inbound_connections := inbound_connections st; peer_connections := peer_connections st; ip_info := ip_info st;
  seen_blocks := seen_blocks st; seen_txs := seen_txs st; block_cache := block_cache st; tx_cache := tx_cache st;
  elders_cache := elders_cache st; elders_negative_cache := elders_negative_cache st; seen_elders := seen_elders st;
  first_negative := first_negative st; seen_tx_clear_interval := seen_tx_clear_interval st;
  last_tx_cache_clear_height := last_tx_cache_clear_height st
|}.
Definition with_connections (cs ics : gmap ConnectionId PeerId) (pcs : gmap PeerId (gmap ConnectionId Multiaddr))
    (ips : gmap IpAddr IpInfo) (st : P2PState) : P2PState := {|
  block_id_to_peers := block_id_to_peers st; peer_to_block_ids := peer_to_block_ids st; connections := cs;
  inbound_connections := ics; peer_connections := pcs; ip_info := ips;
  seen_blocks := seen_blocks st; seen_txs := seen_txs st; block_cache := block_cache st; tx_cache := tx_cache st;
  elders_cache := elders_cache st; elders_negative_cache := elders_negative_cache st; seen_elders := seen_elders st;
  first_negative := first_negative st; seen_tx_clear_interval := seen_tx_clear_interval st;
  last_tx_cache_clear_height := last_tx_cache_clear_height st
|}.
Definition with_ip_info (ips : gmap IpAddr IpInfo) (st : P2PState) : P2PState :=
  with_connections (connections st) (inbound_connections st) (peer_connections st) ips st.

(** * Connections *)

Definition track_connection (connection_id : ConnectionId) (peer_id : PeerId) (addr : Multiaddr)
    (endpoint : ConnectedPoint) (st : P2PState) : P2PState :=
  let cs := <[connection_id := peer_id]> (connections st) in
  let ics := match endpoint with
             | Listener => <[connection_id := peer_id]> (inbound_connections st)
             | Dialer => inbound_connections st
             end in
  let pcs := match peer_connections st !! peer_id with
             | Some c => <[peer_id := <[connection_id := addr]> c]> (peer_connections st)
             | None => <[peer_id := {[ connection_id := addr ]}]> (peer_connections st)
             end in
  let ips := match ip_addr addr with
             | None => ip_info st
             | Some ip =>
                 match ip_info st !! ip with
                 | Some info =>
                     <[ip := {| request_count := request_count info; ping_failure_count := ping_failure_count info;
                                ip_connections := {[ connection_id ]} ∪ ip_connections info |}]> (ip_info st)
                 | None =>
                     <[ip := {| request_count := 0; ping_failure_count := 0; ip_connections := ∅ |}]> (ip_info st)
                 end
             end in
  with_connections cs ics pcs ips st.

(** [remove_peer] *)
Definition remove_peer (peer_id : PeerId) (st : P2PState) : P2PState :=
  match peer_to_block_ids st !! peer_id with
  | None => st
  | Some block_ids =>
      with_tracker (foldl (fun m block_id => mm_remove m block_id peer_id) (block_id_to_peers st) (elements block_ids))
        (delete peer_id (peer_to_block_ids st)) st
  end.

(** The IP entry loses the connection and goes when it has none. *)
Definition forget_ip (connection_id : ConnectionId) (addr : option Multiaddr) (ips : gmap IpAddr IpInfo) : gmap IpAddr IpInfo :=
  match addr ≫= ip_addr with
  | None => ips
  | Some ip =>
      match ips !! ip with
      | None => ips
      | Some info =>
          let left_connections := ip_connections info ∖ {[ connection_id ]} in
          if decide (left_connections = ∅) then delete ip ips
          else <[ip := {| request_count := request_count info; ping_failure_count := ping_failure_count info;
                          ip_connections := left_connections |}]> ips
      end
  end.

Definition lost_connection (connection_id : ConnectionId) (st : P2PState) : P2PState * nat :=
  let st :=
    match connections st !! connection_id with
    | None => st
    | Some peer_id =>
        let cs := delete connection_id (connections st) in
        let ics := delete connection_id (inbound_connections st) in
        match peer_connections st !! peer_id with
        | None => with_connections cs ics (peer_connections st) (ip_info st) st
        | Some c =>
            let addr := c !! connection_id in
            let c := delete connection_id c in
            let st :=
              if decide (c = ∅) then
                remove_peer peer_id (with_connections cs ics (delete peer_id (peer_connections st)) (ip_info st) st)
              else with_connections cs ics (<[peer_id := c]> (peer_connections st)) (ip_info st) st in
            with_ip_info (forget_ip connection_id addr (ip_info st)) st
        end
    end in
  (st, size (peer_connections st)).

(** The connections that are closed, given the shuffled keys *)
Definition prune_inbound_connections (shuffled : list ConnectionId) (prune_n : nat) : list ConnectionId :=
  take (Nat.min prune_n (length shuffled)) shuffled.

Definition connection_address (connection_id : ConnectionId) (st : P2PState) : option Multiaddr :=
  peer_id ← connections st !! connection_id;
  c ← peer_connections st !! peer_id;
  c !! connection_id.

Definition requested (ip : IpAddr) (threshhold : Z) (st : P2PState) : P2PState * option Z :=
  match ip_info st !! ip with
  | None => (st, None)
  | Some info =>
      let count := wrapping_add64 (request_count info) 1 in
      (with_ip_info (<[ip := {| request_count := count; ping_failure_count := ping_failure_count info;
                                ip_connections := ip_connections info |}]> (ip_info st)) st,
       if threshhold <=? count then Some count else None)
  end.

Definition reset_requests (st : P2PState) : P2PState :=
  with_ip_info ((fun info => {| request_count := 0; ping_failure_count := ping_failure_count info;
                                ip_connections := ip_connections info |}) <$> ip_info st) st.

Definition set_ping_failures (ip : IpAddr) (info : IpInfo) (n : Z) (st : P2PState) : P2PState :=
  with_ip_info (<[ip := {| request_count := request_count info; ping_failure_count := n;
                           ip_connections := ip_connections info |}]> (ip_info st)) st.
Definition ping_succeeded (connection : ConnectionId) (st : P2PState) : P2PState :=
  match connection_address connection st ≫= ip_addr with
  | None => st
  | Some ip => match ip_info st !! ip with None => st | Some info => set_ping_failures ip info 0 st end
  end.
Definition ping_failed (connection : ConnectionId) (st : P2PState) : P2PState * Z :=
  match connection_address connection st ≫= ip_addr with
  | None => (st, 0)
  | Some ip =>
      match ip_info st !! ip with
      | None => (st, 0)
      | Some info =>
          let n := wrapping_add64 (ping_failure_count info) 1 in (set_ping_failures ip info n st, n)
      end
  end.

(** * Blocks and the peers that sent them *)

Definition track_block_id_str_and_peer (block_id_str : string) (peer_id : PeerId) (st : P2PState) : P2PState :=
  with_tracker (mm_insert (block_id_to_peers st) block_id_str peer_id)
    (mm_insert (peer_to_block_ids st) peer_id block_id_str) st.

Definition remove_block_id_str (block_id : string) (st : P2PState) : P2PState :=
  match block_id_to_peers st !! block_id with
  | None => st
  | Some peers =>
      with_tracker (delete block_id (block_id_to_peers st))
        (foldl (fun m peer_id => mm_remove m peer_id block_id) (peer_to_block_ids st) (elements peers)) st
  end.

Definition track_block_id_and_peer (block_id : noun) (peer_id : PeerId) (st : P2PState) : outcome NounDecodeError P2PState :=
  block_id_str ← tip5_hash_to_base58 block_id;
  Ok (track_block_id_str_and_peer block_id_str peer_id st).
Definition add_peer_if_tracking_block_id (block_id : noun) (peer_id : PeerId) (st : P2PState) :
    outcome NounDecodeError (P2PState * bool) :=
  block_id_str ← tip5_hash_to_base58 block_id;
  if decide (is_Some (block_id_to_peers st !! block_id_str)) then
    Ok (track_block_id_str_and_peer block_id_str peer_id st, true)
  else Ok (st, false).
Definition remove_block_id (block_id : noun) (st : P2PState) : outcome NounDecodeError P2PState :=
  block_id_str ← tip5_hash_to_base58 block_id; Ok (remove_block_id_str block_id_str st).

Definition peers_of (block_id_str : string) (st : P2PState) : list PeerId :=
  from_option elements [] (block_id_to_peers st !! block_id_str).
Definition get_peers_for_block_id (block_id : noun) (st : P2PState) : outcome NounDecodeError (list PeerId) :=
  match tip5_hash_to_base58 block_id with
  | Ok block_id_str => Ok (peers_of block_id_str st)
  | _ => Panic
  end.
Definition get_block_ids_for_peer (peer_id : PeerId) (st : P2PState) : list string :=
  from_option elements [] (peer_to_block_ids st !! peer_id).
Definition is_tracking_block_id (block_id : noun) (st : P2PState) : bool :=
  match tip5_hash_to_base58 block_id with
  | Ok block_id_str => bool_decide (is_Some (block_id_to_peers st !! block_id_str))
  | _ => false
  end.
Definition is_tracking_peer (peer_id : PeerId) (st : P2PState) : bool :=
  bool_decide (is_Some (peer_to_block_ids st !! peer_id)).

Definition process_bad_block_id (block_id : noun) (st : P2PState) : outcome NounDecodeError (P2PState * list PeerId) :=
  block_id_str ← tip5_hash_to_base58 block_id;
  let peers_to_ban := peers_of block_id_str st in
  let st := foldl (fun st peer => remove_peer peer st) st peers_to_ban in
  st ← remove_block_id block_id st;
  Ok (st, peers_to_ban).

(** * Caches *)

Inductive NockchainDataRequest :=
  | BlockByHeight (height : Z)
  | EldersById (id : string) (peer_id : PeerId)
  | RawTransactionById (id : string).
Inductive CacheResponse := Cached (slab : NounSlab) | NotCached | NegativeCached.

Definition check_cache (request : NockchainDataRequest) (st : P2PState) : CacheResponse :=
  match request with
  | BlockByHeight height =>
      if first_negative st <=? height then NegativeCached
      else match block_cache st !! height with Some cached_block => Cached cached_block | None => NotCached end
  | RawTransactionById id =>
      match tx_cache st !! id with Some cached_transaction => Cached cached_transaction | None => NotCached end
  | EldersById id _ =>
      match elders_cache st !! id with
      | Some cached_elders => Cached cached_elders
      | None => if decide (id ∈ elders_negative_cache st) then NegativeCached else NotCached
      end
  end.

(** The updates and queries of driver.rs *)
Definition with_seen (blocks txs elders : gset string) (negative clear_height : Z) (st : P2PState) : P2PState := {|
  block_id_to_peers := block_id_to_peers st; peer_to_block_ids := peer_to_block_ids st; connections := connections st;
  inbound_connections := inbound_connections st; peer_connections := peer_connections st; ip_info := ip_info st;
  seen_blocks := blocks; seen_txs := txs; block_cache := block_cache st; tx_cache := tx_cache st;
  elders_cache := elders_cache st; elders_negative_cache := elders_negative_cache st; seen_elders := elders;
  first_negative := negative; seen_tx_clear_interval := seen_tx_clear_interval st;
  last_tx_cache_clear_height := clear_height
|}.

(** The effect [[%seen %block id height]]: a new height clears the transactions seen
    when the interval has passed. *)
Definition seen_block (id : string) (height : option Z) (st : P2PState) : P2PState :=
  let blocks := {[ id ]} ∪ seen_blocks st in
  match height with
  | Some block_height =>
      if first_negative st <=? block_height then
        let negative := wrapping_add64 block_height 1 in
        if wrapping_add64 (last_tx_cache_clear_height st) (seen_tx_clear_interval st) <=? block_height
        then with_seen blocks ∅ (seen_elders st) negative block_height st
        else with_seen blocks (seen_txs st) (seen_elders st) negative (last_tx_cache_clear_height st) st
      else with_seen blocks (seen_txs st) (seen_elders st) (first_negative st) (last_tx_cache_clear_height st) st
  | None => with_seen blocks (seen_txs st) (seen_elders st) (first_negative st) (last_tx_cache_clear_height st) st
  end.
Definition seen_tx (id : string) (st : P2PState) : P2PState :=
  with_seen (seen_blocks st) ({[ id ]} ∪ seen_txs st) (seen_elders st) (first_negative st)
    (last_tx_cache_clear_height st) st.

Inductive NockchainFact := HeardBlock (id : string) | HeardElders (oldest : Z) (ids : list string) | HeardTx (id : string).

(** Whether a fact that arrives by gossip goes to the kernel *)
Definition gossip_enable (fact : NockchainFact) (st : P2PState) : bool :=
  match fact with
  | HeardBlock id => negb (bool_decide (id ∈ seen_blocks st))
  | HeardTx id => negb (bool_decide (id ∈ seen_txs st))
  | HeardElders _ _ => true
  end.
(** Whether a fact that arrives as a response goes to the kernel; elders are marked
    as seen at once. *)
Definition response_enable (fact : NockchainFact) (st : P2PState) : P2PState * bool :=
  match fact with
  | HeardBlock id => (st, negb (bool_decide (id ∈ seen_blocks st)))
  | HeardTx id => (st, negb (bool_decide (id ∈ seen_blocks st)))
  | HeardElders _ elders =>
      match head elders with
      | None => (st, true)
      | Some elders_head =>
          if decide (elders_head ∈ seen_elders st) then (st, false)
          else (with_seen (seen_blocks st) (seen_txs st) ({[ elders_head ]} ∪ seen_elders st) (first_negative st)
                  (last_tx_cache_clear_height st) st, true)
      end
  end.
End p2p.
Arguments P2PState PeerId ConnectionId NounSlab {_ _ _ _}.
