(* ===== verification/P2pStateTheorems.v ===== *)
(** The tables of P2pState.v describe one relation between blocks and peers and one
    set of connections, whatever happens on the network. *)
From stdpp Require Import base option list numbers strings gmap fin_maps.
From Stdlib Require Import ZArith Lia.
From S2P Require Import Prelude Noun Interp Belt Vec Poly BPoly Tip5 NounHash NounSerde Base58 P2pState.
Local Open Scope Z_scope.

(** * Multimaps *)

Section multimap.
Context {A B : Type} `{Countable A, Countable B}.
Implicit Types (m : gmap A (gset B)).

(** No set of the map is empty. *)
Definition mm_ok m : Prop := forall a, m !! a <> Some ∅.

Lemma mm_insert_ok m a b : mm_ok m -> mm_ok (mm_insert m a b).
Proof.
  intros Hm a'. unfold mm_insert. destruct (decide (a' = a)) as [->|]; [rewrite lookup_insert_eq|by rewrite lookup_insert_ne].
  intros [= E]. set_solver.
Qed.
Lemma mm_insert_get m a b a' b' : b' ∈ mm_get (mm_insert m a b) a' <-> (a' = a /\ b' = b) \/ b' ∈ mm_get m a'.
Proof.
  unfold mm_insert, mm_get at 1. destruct (decide (a' = a)) as [->|]; [rewrite lookup_insert_eq; cbn; set_solver|].
  rewrite lookup_insert_ne by done. fold (mm_get m a'). naive_solver.
Qed.

Lemma mm_remove_ok m a b : mm_ok m -> mm_ok (mm_remove m a b).
Proof.
  intros Hm a'. unfold mm_remove. destruct (m !! a) as [s|] eqn:E; [|done]. destruct (decide _).
  - destruct (decide (a' = a)) as [->|]; [by rewrite lookup_delete_eq|by rewrite lookup_delete_ne].
  - destruct (decide (a' = a)) as [->|]; [rewrite lookup_insert_eq; congruence|by rewrite lookup_insert_ne].
Qed.
Lemma mm_remove_get m a b a' b' :
  b' ∈ mm_get (mm_remove m a b) a' <-> b' ∈ mm_get m a' /\ ~ (a' = a /\ b' = b).
Proof.
  unfold mm_remove. destruct (m !! a) as [s|] eqn:E.
  - destruct (decide (a' = a)) as [->|Hne].
    + assert (Hs : mm_get m a = s) by (unfold mm_get; by rewrite E). rewrite Hs. destruct (decide _); unfold mm_get;
        [rewrite lookup_delete_eq|rewrite lookup_insert_eq]; cbn; set_solver.
    + destruct (decide _); unfold mm_get; [rewrite lookup_delete_ne by done|rewrite lookup_insert_ne by done]; naive_solver.
  - assert (mm_get m a = ∅) by (unfold mm_get; by rewrite E). set_solver.
Qed.

Lemma mm_delete_ok m a : mm_ok m -> mm_ok (delete a m).
Proof. intros Hm a'. destruct (decide (a' = a)) as [->|]; [by rewrite lookup_delete_eq|by rewrite lookup_delete_ne]. Qed.
Lemma mm_delete_get m a a' b' : b' ∈ mm_get (delete a m) a' <-> b' ∈ mm_get m a' /\ a' <> a.
Proof.
  unfold mm_get. destruct (decide (a' = a)) as [->|]; [rewrite lookup_delete_eq; cbn; set_solver|].
  rewrite lookup_delete_ne by done. naive_solver.
Qed.

(** Removing one value under many keys *)
Lemma mm_remove_all m (l : list A) b :
  mm_ok m ->
  mm_ok (foldl (fun m a => mm_remove m a b) m l) /\
  forall a' b', b' ∈ mm_get (foldl (fun m a => mm_remove m a b) m l) a' <-> b' ∈ mm_get m a' /\ ~ (a' ∈ l /\ b' = b).
Proof.
  revert m. induction l as [|a l IH]; intros m Hm; cbn [foldl]; [split; [done|set_solver]|].
  destruct (IH (mm_remove m a b) (mm_remove_ok m a b Hm)) as [Hok Hg]. split; [done|].
  intros a' b'. rewrite Hg, mm_remove_get. set_solver.
Qed.

Lemma mm_get_lookup m a s : m !! a = Some s -> mm_get m a = s.
Proof. unfold mm_get. by intros ->. Qed.
Lemma mm_tracking m a : mm_ok m -> is_Some (m !! a) <-> exists b, b ∈ mm_get m a.
Proof.
  intros Hm. unfold mm_get. destruct (m !! a) as [s|] eqn:E; cbn.
  - split; [|eauto]. intros _. apply set_choose_L. intros ->. by apply (Hm a).
  - split; [by intros [? ?]|]. intros [b Hb]. set_solver.
Qed.
End multimap.

(** * The abstract state *)

Section theorems.
Context {PeerId ConnectionId NounSlab : Type} `{Countable PeerId, Countable ConnectionId} `{Bs58}.
Notation P2PState := (P2PState PeerId ConnectionId NounSlab).
Implicit Types (st : P2PState).

(** Which peer sent which block, and the live connections: peer, address, inbound *)
Record Abs := { sent : gset (string * PeerId); live : gmap ConnectionId (PeerId * Multiaddr * bool) }.

Record repr st (s : Abs) : Prop := {
  repr_b2p_ok : mm_ok (block_id_to_peers st);
  repr_p2b_ok : mm_ok (peer_to_block_ids st);
  repr_b2p b p : p ∈ mm_get (block_id_to_peers st) b <-> (b, p) ∈ sent s;
  repr_p2b b p : b ∈ mm_get (peer_to_block_ids st) p <-> (b, p) ∈ sent s;
  repr_conn c : connections st !! c = (fun x => x.1.1) <$> live s !! c;
  repr_inbound c : inbound_connections st !! c = x ← live s !! c; if x.2 : bool then Some x.1.1 else None;
  repr_peer_ok p : peer_connections st !! p <> Some ∅;
  repr_peer p c :
    default ∅ (peer_connections st !! p) !! c = x ← live s !! c; if decide (x.1.1 = p) then Some x.1.2 else None
}.

Lemma repr_new interval : repr (new interval) {| sent := ∅; live := ∅ |}.
Proof.
  split; cbn; intros; unfold mm_get; rewrite ?lookup_empty; cbn; try set_solver.
  all: intros a; by rewrite lookup_empty.
Qed.

(** ** Blocks *)

(** The part of the representation about blocks is all that these operations touch. *)
Lemma repr_tracker st s b2p p2b sent' :
  repr st s -> mm_ok b2p -> mm_ok p2b ->
  (forall b p, p ∈ mm_get b2p b <-> (b, p) ∈ sent') -> (forall b p, b ∈ mm_get p2b p <-> (b, p) ∈ sent') ->
  repr (with_tracker b2p p2b st) {| sent := sent'; live := live s |}.
Proof. intros []; by split. Qed.

Lemma repr_track b p st s :
  repr st s -> repr (track_block_id_str_and_peer b p st) {| sent := {[ (b, p) ]} ∪ sent s; live := live s |}.
Proof.
  intros Hr. pose proof Hr as [R1 R2 R3 R4 _ _ _ _]. apply (repr_tracker st); [done|by apply mm_insert_ok..| |].
  - intros b' p'. rewrite mm_insert_get, R3. set_solver.
  - intros b' p'. rewrite mm_insert_get, R4. set_solver.
Qed.

Lemma repr_remove_block b st s :
  repr st s -> repr (remove_block_id_str b st) {| sent := filter (fun x => x.1 <> b) (sent s); live := live s |}.
Proof.
  intros Hr. pose proof Hr as [R1 R2 R3 R4 _ _ _ _]. unfold remove_block_id_str.
  destruct (block_id_to_peers st !! b) as [peers|] eqn:E.
  - destruct (mm_remove_all (peer_to_block_ids st) (elements peers) b R2) as [Hok Hg].
    apply mm_get_lookup in E. apply (repr_tracker st); [done|by apply mm_delete_ok|done| |].
    + intros b' p'. rewrite mm_delete_get, R3, elem_of_filter. cbn. naive_solver.
    + intros b' p'. rewrite Hg, R4, elem_of_filter, elem_of_elements, <- E, R3. cbn. naive_solver.
  - destruct Hr as [_ _ _ _ R5 R6 R7 R8]. split; try done; intros b' p'; cbn; rewrite elem_of_filter; cbn;
      [rewrite R3|rewrite R4]; (split; [|naive_solver]); intros Hin; (split; [|done]); intros ->;
      apply R3 in Hin; unfold mm_get in Hin; rewrite E in Hin; set_solver.
Qed.

Lemma repr_remove_peer p st s :
  repr st s -> repr (remove_peer p st) {| sent := filter (fun x => x.2 <> p) (sent s); live := live s |}.
Proof.
  intros Hr. pose proof Hr as [R1 R2 R3 R4 _ _ _ _]. unfold remove_peer.
  destruct (peer_to_block_ids st !! p) as [blocks|] eqn:E.
  - destruct (mm_remove_all (block_id_to_peers st) (elements blocks) p R1) as [Hok Hg].
    apply mm_get_lookup in E. apply (repr_tracker st); [done|done|by apply mm_delete_ok| |].
    + intros b' p'. rewrite Hg, R3, elem_of_filter, elem_of_elements, <- E, R4. cbn. naive_solver.
    + intros b' p'. rewrite mm_delete_get, R4, elem_of_filter. cbn. naive_solver.
  - destruct Hr as [_ _ _ _ R5 R6 R7 R8]. split; try done; intros b' p'; cbn; rewrite elem_of_filter; cbn;
      [rewrite R3|rewrite R4]; (split; [|naive_solver]); intros Hin; (split; [|done]); intros ->;
      apply R4 in Hin; unfold mm_get in Hin; rewrite E in Hin; set_solver.
Qed.

Lemma repr_eq st s sent' live' :
  repr st s -> (forall x, x ∈ sent s <-> x ∈ sent') -> live s = live' -> repr st {| sent := sent'; live := live' |}.
Proof. intros [] He <-. split; try done; cbn; intros; rewrite <- He; auto. Qed.

Lemma repr_remove_peers (ps : list PeerId) st s :
  repr st s ->
  repr (foldl (fun st peer => remove_peer peer st) st ps) {| sent := filter (fun x => x.2 ∉ ps) (sent s); live := live s |}.
Proof.
  revert st s. induction ps as [|p ps IH]; intros st s Hr; cbn [foldl].
  - eapply repr_eq; [exact Hr| |done]. intros x. rewrite elem_of_filter. set_solver.
  - eapply repr_eq; [apply IH, repr_remove_peer, Hr| |done]. intros x. cbn. rewrite !elem_of_filter. set_solver.
Qed.

Lemma peers_of_spec b st s : repr st s -> NoDup (peers_of b st) /\ forall p, p ∈ peers_of b st <-> (b, p) ∈ sent s.
Proof.
  intros [R1 R2 R3 R4 _ _ _ _]. unfold peers_of. destruct (block_id_to_peers st !! b) as [ps|] eqn:E; cbn.
  - split; [apply NoDup_elements|]. intros p. rewrite elem_of_elements, <- R3. by rewrite (mm_get_lookup _ _ _ E).
  - split; [constructor|]. intros p. rewrite <- R3. unfold mm_get. rewrite E. cbn. set_solver.
Qed.

(** Every peer that sent a bad block is reported once and forgotten with all its
    blocks. *)
Lemma repr_bad n b st s :
  repr st s -> tip5_hash_to_base58 n = Ok b ->
  exists st' peers, process_bad_block_id n st = Ok (st', peers) /\ NoDup peers /\
    (forall p, p ∈ peers <-> (b, p) ∈ sent s) /\
    repr st' {| sent := filter (fun x => (b, x.2) ∉ sent s) (sent s); live := live s |}.
Proof.
  intros Hr En. destruct (peers_of_spec b st s Hr) as [Hn Hp]. unfold process_bad_block_id, remove_block_id.
  rewrite En. cbn [mbind outcome_bind]. eexists _, _. split_and!; [done|done|done|].
  eapply repr_eq; [apply repr_remove_block, repr_remove_peers, Hr| |done].
  intros [b' p']. cbn. rewrite !elem_of_filter. cbn. rewrite Hp. naive_solver.
Qed.

(** ** Connections *)

Definition is_listener (e : ConnectedPoint) : bool := match e with Listener => true | Dialer => false end.

(** The parts about connections; the entries of IP addresses are not among them. *)
Lemma repr_connections st s cs ics pcs ips live' :
  repr st s ->
  (forall c, cs !! c = (fun x => x.1.1) <$> live' !! c) ->
  (forall c, ics !! c = x ← live' !! c; if x.2 : bool then Some x.1.1 else None) ->
  (forall p, pcs !! p <> Some ∅) ->
  (forall p c, default ∅ (pcs !! p) !! c = x ← live' !! c; if decide (x.1.1 = p) then Some x.1.2 else None) ->
  repr (with_connections cs ics pcs ips st) {| sent := sent s; live := live' |}.
Proof. intros []; by split. Qed.

Lemma repr_ip_info st s ips : repr st s -> repr (with_ip_info ips st) s.
Proof. intros []; by split. Qed.

Lemma repr_track_connection c p a e st s :
  repr st s -> live s !! c = None ->
  repr (track_connection c p a e st) {| sent := sent s; live := <[c := (p, a, is_listener e)]> (live s) |}.
Proof.
  intros Hr Hc. pose proof Hr as [_ _ _ _ R5 R6 R7 R8]. unfold track_connection. cbv zeta. apply repr_connections; [done|..].
  - intros c'. destruct (decide (c' = c)) as [->|]; [by rewrite !lookup_insert_eq|]. by rewrite !lookup_insert_ne.
  - intros c'. destruct (decide (c' = c)) as [->|].
    + rewrite lookup_insert_eq. destruct e; cbn; [by rewrite R6, Hc|by rewrite lookup_insert_eq].
    + rewrite lookup_insert_ne by done. destruct e; cbn; [done|by rewrite lookup_insert_ne].
  - intros p'. destruct (decide (p' = p)) as [->|].
    + destruct (peer_connections st !! p) as [m|]; rewrite lookup_insert_eq; intros [= E]; by apply (insert_non_empty _ c a) in E.
    + destruct (peer_connections st !! p); by rewrite lookup_insert_ne.
  - intros p' c'. assert (Hp : default ∅ ((match peer_connections st !! p with
        | Some m => <[p := <[c := a]> m]> (peer_connections st)
        | None => <[p := {[ c := a ]}]> (peer_connections st) end) !! p') =
        if decide (p' = p) then <[c := a]> (default ∅ (peer_connections st !! p)) else default ∅ (peer_connections st !! p')).
    { destruct (decide (p' = p)) as [->|Hne]; destruct (peer_connections st !! p); cbn;
        rewrite ?lookup_insert_eq, ?lookup_insert_ne; done. }
    rewrite Hp. destruct (decide (c' = c)) as [->|Hcc].
    + rewrite lookup_insert_eq. cbn. destruct (decide (p' = p)) as [->|].
      * by rewrite lookup_insert_eq, decide_True.
      * rewrite decide_False by done. by rewrite R8, Hc.
    + rewrite lookup_insert_ne by done. destruct (decide (p' = p)) as [->|]; [rewrite lookup_insert_ne by done|]; apply R8.
Qed.

(** What losing a connection leaves: the peer is forgotten with its last one. *)
Definition abs_lost (c : ConnectionId) (s : Abs) : Abs :=
  match live s !! c with
  | None => s
  | Some (p, _, _) =>
      let live' := delete c (live s) in
      {| sent := if decide (map_Forall (fun _ x => x.1.1 <> p) live') then filter (fun x => x.2 <> p) (sent s) else sent s;
         live := live' |}
  end.

Section lost.
Context (st : P2PState) (s : Abs) (c : ConnectionId) (p : PeerId) (a : Multiaddr) (i : bool) (m : gmap ConnectionId Multiaddr).
Context (Hr : repr st s) (Ec : live s !! c = Some (p, a, i)) (Em : peer_connections st !! p = Some m).

Lemma lost_peer_map c' : m !! c' = x ← live s !! c'; if decide (x.1.1 = p) then Some x.1.2 else None.
Proof. pose proof (repr_peer _ _ Hr p c') as R8. by rewrite Em in R8. Qed.

Lemma lost_last : delete c m = ∅ <-> map_Forall (fun _ x => x.1.1 <> p) (delete c (live s)).
Proof.
  split.
  - intros E c' x Hx Hp. destruct (decide (c' = c)) as [->|]; [by rewrite lookup_delete_eq in Hx|].
    rewrite lookup_delete_ne in Hx by done. assert (delete c m !! c' = Some x.1.2) as E'
      by (rewrite lookup_delete_ne, lost_peer_map, Hx by done; cbn; by rewrite decide_True).
    by rewrite E, lookup_empty in E'.
  - intros Hall. apply map_empty. intros c'. destruct (decide (c' = c)) as [->|]; [by rewrite lookup_delete_eq|].
    rewrite lookup_delete_ne, lost_peer_map by done. destruct (live s !! c') as [x|] eqn:Ex; [|done]. cbn.
    apply decide_False. apply (Hall c' x). by rewrite lookup_delete_ne.
Qed.

Lemma lost_repr pcs :
  (forall p', pcs !! p' <> Some ∅) ->
  (forall p' c', default ∅ (pcs !! p') !! c' =
     if decide (p' = p) then delete c m !! c' else default ∅ (peer_connections st !! p') !! c') ->
  repr (with_connections (delete c (connections st)) (delete c (inbound_connections st)) pcs (ip_info st) st)
    {| sent := sent s; live := delete c (live s) |}.
Proof.
  pose proof Hr as [_ _ _ _ R5 R6 R7 R8]. intros Hok Hpcs. apply repr_connections; [done| | |done|].
  - intros c'. destruct (decide (c' = c)) as [->|]; [by rewrite !lookup_delete_eq|by rewrite !lookup_delete_ne].
  - intros c'. destruct (decide (c' = c)) as [->|]; [by rewrite !lookup_delete_eq|by rewrite !lookup_delete_ne].
  - intros p' c'. rewrite Hpcs. destruct (decide (c' = c)) as [->|Hcc].
    + rewrite !lookup_delete_eq. cbn. destruct (decide (p' = p)) as [->|Hpp]; [done|]. rewrite R8, Ec. cbn. by apply decide_False.
    + rewrite !lookup_delete_ne by done. destruct (decide (p' = p)) as [->|Hpp]; [apply lost_peer_map|apply R8].
Qed.
End lost.

Lemma repr_lost c st s : repr st s -> repr (lost_connection c st).1 (abs_lost c s).
Proof.
  intros Hr. unfold lost_connection, abs_lost. cbn [fst]. rewrite (repr_conn _ _ Hr).
  destruct (live s !! c) as [[[p a] i]|] eqn:Ec; cbn; [|done].
  destruct (peer_connections st !! p) as [m|] eqn:Em.
  2:{ pose proof (repr_peer _ _ Hr p c) as R8. rewrite Em, Ec in R8. cbn in R8. by rewrite decide_True in R8. }
  pose proof (lost_last st s c p m Hr Em) as Hd. apply repr_ip_info. destruct (decide (delete c m = ∅)) as [E|E].
  - rewrite decide_True by by apply Hd.
    eapply repr_eq; [apply (repr_remove_peer p _ {| sent := sent s; live := delete c (live s) |}),
      (lost_repr st s c p a i m); [done..| |]|intros x; cbn; by rewrite !elem_of_filter|done].
    + intros p'. destruct (decide (p' = p)) as [->|]; [by rewrite lookup_delete_eq|].
      rewrite lookup_delete_ne by done. apply (repr_peer_ok _ _ Hr).
    + intros p' c'. destruct (decide (p' = p)) as [->|]; [by rewrite lookup_delete_eq, E|by rewrite lookup_delete_ne].
  - rewrite decide_False by (by intros ?%Hd). apply (lost_repr st s c p a i m); [done..| |].
    + intros p'. destruct (decide (p' = p)) as [->|]; [rewrite lookup_insert_eq; congruence|].
      rewrite lookup_insert_ne by done. apply (repr_peer_ok _ _ Hr).
    + intros p' c'. destruct (decide (p' = p)) as [->|]; [by rewrite lookup_insert_eq|by rewrite lookup_insert_ne].
Qed.

(** ** Histories *)

(** The events of the network and of the kernel that reach the state; an operation
    that fails leaves it as it was. *)
Inductive op :=
  | OTrackConnection (c : ConnectionId) (p : PeerId) (a : Multiaddr) (e : ConnectedPoint)
  | OLost (c : ConnectionId)
  | ORequested (ip : IpAddr) (threshold : Z)
  | OReset
  | OPing (c : ConnectionId) (ok : bool)
  | OTrackBlock (block_id : noun) (p : PeerId)
  | OAddPeer (block_id : noun) (p : PeerId)
  | ORemoveBlock (block_id : noun)
  | ORemovePeer (p : PeerId)
  | OBadBlock (block_id : noun).

Definition exec (o : op) st : P2PState :=
  match o with
  | OTrackConnection c p a e => track_connection c p a e st
  | OLost c => (lost_connection c st).1
  | ORequested ip t => (requested ip t st).1
  | OReset => reset_requests st
  | OPing c true => ping_succeeded c st
  | OPing c false => (ping_failed c st).1
  | OTrackBlock n p => default st (ok_of (track_block_id_and_peer n p st))
  | OAddPeer n p => default st (fst <$> ok_of (add_peer_if_tracking_block_id n p st))
  | ORemoveBlock n => default st (ok_of (remove_block_id n st))
  | ORemovePeer p => remove_peer p st
  | OBadBlock n => default st (fst <$> ok_of (process_bad_block_id n st))
  end.

Definition abs_sent (f : string -> gset (string * PeerId)) (n : noun) (s : Abs) : Abs :=
  match tip5_hash_to_base58 n with Ok b => {| sent := f b; live := live s |} | _ => s end.
Definition abs_exec (o : op) (s : Abs) : Abs :=
  match o with
  | OTrackConnection c p a e => {| sent := sent s; live := <[c := (p, a, is_listener e)]> (live s) |}
  | OLost c => abs_lost c s
  | ORequested _ _ | OReset | OPing _ _ => s
  | OTrackBlock n p => abs_sent (fun b => {[ (b, p) ]} ∪ sent s) n s
  | OAddPeer n p =>
      abs_sent (fun b => if decide (set_Exists (fun x => x.1 = b) (sent s)) then {[ (b, p) ]} ∪ sent s else sent s) n s
  | ORemoveBlock n => abs_sent (fun b => filter (fun x => x.1 <> b) (sent s)) n s
  | ORemovePeer p => {| sent := filter (fun x => x.2 <> p) (sent s); live := live s |}
  | OBadBlock n => abs_sent (fun b => filter (fun x => (b, x.2) ∉ sent s) (sent s)) n s
  end.
(** libp2p gives every connection a new identifier. *)
Definition valid (o : op) (s : Abs) : Prop :=
  match o with OTrackConnection c _ _ _ => live s !! c = None | _ => True end.

Inductive history : list op -> P2PState -> Abs -> Prop :=
  | history_new interval : history [] (new interval) {| sent := ∅; live := ∅ |}
  | history_step os o st s : history os st s -> valid o s -> history (os ++ [o]) (exec o st) (abs_exec o s).

Lemma repr_self st s : repr st s -> repr st {| sent := sent s; live := live s |}.
Proof. by destruct s. Qed.

Lemma repr_exec o st s : repr st s -> valid o s -> repr (exec o st) (abs_exec o s).
Proof.
  intros Hr Hv. destruct o as [c p a e|c|ip t| |c [] |n p|n p|n|p|n]; cbn [exec abs_exec valid] in *.
  - by apply repr_track_connection.
  - by apply repr_lost.
  - unfold requested. destruct (ip_info st !! ip); [by apply repr_ip_info|done].
  - by apply repr_ip_info.
  - unfold ping_succeeded. destruct (_ ≫= ip_addr); [|done]. destruct (ip_info st !! _); [by apply repr_ip_info|done].
  - unfold ping_failed. destruct (_ ≫= ip_addr); [|done]. destruct (ip_info st !! _); [by apply repr_ip_info|done].
  - unfold track_block_id_and_peer, abs_sent. destruct (tip5_hash_to_base58 n); cbn; [by apply repr_track|done..].
  - unfold add_peer_if_tracking_block_id, abs_sent. destruct (tip5_hash_to_base58 n) as [b| |]; cbn; [|done..].
    pose proof (mm_tracking (block_id_to_peers st) b (repr_b2p_ok _ _ Hr)) as Ht.
    assert (Hx : is_Some (block_id_to_peers st !! b) <-> set_Exists (fun x => x.1 = b) (sent s)).
    { rewrite Ht. split.
      - intros [p' Hp']. exists (b, p'). split; [by apply (repr_b2p _ _ Hr)|done].
      - intros ([b' p'] & Hin & E). cbn in E. subst b'. exists p'. by apply (repr_b2p _ _ Hr). }
    destruct (decide (is_Some _)) as [Hs|Hs]; cbn.
    + rewrite decide_True by by apply Hx. by apply repr_track.
    + rewrite decide_False by (by intros ?%Hx). by apply repr_self.
  - unfold remove_block_id, abs_sent. destruct (tip5_hash_to_base58 n); cbn; [by apply repr_remove_block|done..].
  - by apply repr_remove_peer.
  - unfold abs_sent. destruct (tip5_hash_to_base58 n) as [b| |] eqn:En.
    + destruct (repr_bad n b st s Hr En) as (st' & ps & -> & _ & _ & Hr'). exact Hr'.
    + unfold process_bad_block_id. by rewrite En.
    + unfold process_bad_block_id. by rewrite En.
Qed.

Lemma repr_history os st s : history os st s -> repr st s.
Proof. induction 1; [apply repr_new|by apply repr_exec]. Qed.

Lemma tracking_peer_spec st s p : repr st s -> is_tracking_peer p st = true <-> exists b, (b, p) ∈ sent s.
Proof.
  intros Hr. unfold is_tracking_peer. rewrite bool_decide_eq_true, mm_tracking by apply (repr_p2b_ok _ _ Hr).
  split; intros [b Hb]; exists b; by apply (repr_p2b _ _ Hr).
Qed.
Lemma tracking_block_spec st s n b :
  repr st s -> tip5_hash_to_base58 n = Ok b -> is_tracking_block_id n st = true <-> exists p, (b, p) ∈ sent s.
Proof.
  intros Hr En. unfold is_tracking_block_id. rewrite En, bool_decide_eq_true, mm_tracking by apply (repr_b2p_ok _ _ Hr).
  split; intros [p Hp]; exists p; by apply (repr_b2p _ _ Hr).
Qed.

(** ** Addresses *)

Lemma remove_peer_frame p st :
  ip_info (remove_peer p st) = ip_info st /\ connections (remove_peer p st) = connections st /\
  peer_connections (remove_peer p st) = peer_connections st.
Proof. unfold remove_peer. by destruct (peer_to_block_ids st !! p). Qed.

Lemma address_track c p a e st : connection_address c (track_connection c p a e st) = Some a.
Proof.
  unfold connection_address, track_connection. cbn. rewrite lookup_insert_eq. cbn.
  destruct (peer_connections st !! p); rewrite lookup_insert_eq; cbn; [by rewrite lookup_insert_eq|by rewrite lookup_singleton_eq].
Qed.
Lemma address_track_ne c c' p a e st :
  c <> c' -> connection_address c (track_connection c' p a e st) = connection_address c st.
Proof.
  intros Hne. unfold connection_address, track_connection. cbn. rewrite lookup_insert_ne by done.
  destruct (connections st !! c) as [q|]; cbn; [|done]. destruct (decide (q = p)) as [->|].
  - destruct (peer_connections st !! p) as [m|]; rewrite lookup_insert_eq; cbn;
      [by rewrite lookup_insert_ne|by rewrite lookup_singleton_ne].
  - destruct (peer_connections st !! p) as [m|]; by rewrite lookup_insert_ne.
Qed.

Lemma address_lost_ne c c' st : c <> c' -> connection_address c (lost_connection c' st).1 = connection_address c st.
Proof.
  intros Hne. unfold connection_address, lost_connection. cbn [fst].
  destruct (connections st !! c') as [p|]; [|done]. destruct (peer_connections st !! p) as [m|] eqn:Em; cbn.
  - assert (Hd : delete c' m !! c = m !! c) by by rewrite lookup_delete_ne.
    destruct (decide (delete c' m = ∅)) as [E|E]; cbn.
    + match goal with |- context [remove_peer p ?s] => destruct (remove_peer_frame p s) as (_ & -> & ->) end. cbn.
      rewrite lookup_delete_ne by done. destruct (connections st !! c) as [q|]; cbn; [|done].
      destruct (decide (q = p)) as [->|]; [rewrite lookup_delete_eq, Em; cbn; by rewrite <- Hd, E|by rewrite lookup_delete_ne].
    + rewrite lookup_delete_ne by done. destruct (connections st !! c) as [q|]; cbn; [|done].
      destruct (decide (q = p)) as [->|]; [rewrite lookup_insert_eq, Em; cbn; by rewrite Hd|by rewrite lookup_insert_ne].
  - by rewrite lookup_delete_ne.
Qed.

Lemma lost_ip_info c st a :
  connection_address c st = Some a -> ip_info (lost_connection c st).1 = forget_ip c (Some a) (ip_info st).
Proof.
  unfold connection_address, lost_connection. cbn [fst]. destruct (connections st !! c) as [p|]; cbn; [|done].
  destruct (peer_connections st !! p) as [m|]; cbn; [|done]. intros ->. destruct (decide _); cbn; [|done].
  match goal with |- context [remove_peer p ?s] => by destruct (remove_peer_frame p s) as (-> & _) end.
Qed.

Lemma track_ip_info c p a e st ip :
  ip_addr a = Some ip ->
  ip_info (track_connection c p a e st) !! ip =
    Some match ip_info st !! ip with
         | Some info => {| request_count := request_count info; ping_failure_count := ping_failure_count info;
                           ip_connections := {[ c ]} ∪ ip_connections info |}
         | None => {| request_count := 0; ping_failure_count := 0; ip_connections := ∅ |}
         end.
Proof. intros E. unfold track_connection. cbn. rewrite E. destruct (ip_info st !! ip); by rewrite lookup_insert_eq. Qed.
End theorems.

(** * Properties *)

(** C17: After any history of connections, requests, pings and tracked, removed and bad
    blocks the two block tables are converse views of one relation without empty
    entries, and the three connection tables are views of one set of connections;
    the queries answer from them; a bad block returns exactly the peers that sent it,
    once each, and none of them is tracked afterwards. *)
Theorem p2p_refines {PeerId ConnectionId NounSlab} `{Countable PeerId, Countable ConnectionId} `{Bs58}
    (os : list op) (st : P2PState PeerId ConnectionId NounSlab) (s : Abs) :
  history os st s ->
  repr st s /\
  (forall c, connection_address c st = (fun x => x.1.2) <$> live s !! c) /\
  (forall p, is_tracking_peer p st = true <-> exists b, (b, p) ∈ sent s) /\
  (forall n b, tip5_hash_to_base58 n = Ok b ->
     (is_tracking_block_id n st = true <-> exists p, (b, p) ∈ sent s) /\
     exists st' peers, process_bad_block_id n st = Ok (st', peers) /\ NoDup peers /\
       (forall p, p ∈ peers <-> (b, p) ∈ sent s) /\
       (forall p, p ∈ peers -> is_tracking_peer p st' = false) /\ is_tracking_block_id n st' = false).
Proof.
  intros Hh. pose proof (repr_history _ _ _ Hh) as Hr. split_and!; [done| |intros p; by apply tracking_peer_spec|].
  - intros c. unfold connection_address. rewrite (repr_conn _ _ Hr). pose proof (fun p => repr_peer _ _ Hr p c) as R8.
    destruct (live s !! c) as [[[p a] i]|]; [|done]. cbn. specialize (R8 p). cbn [mbind option_bind fst snd] in R8. rewrite decide_True in R8 by done.
    destruct (peer_connections st !! p); [done|]. cbn [default] in R8. unfold default in R8. cbn in R8. by rewrite lookup_empty in R8.
  - intros n b En. split; [by apply tracking_block_spec|].
    destruct (repr_bad n b st s Hr En) as (st' & ps & E & Hn & Hp & Hr'). exists st', ps. split_and!; [done..| |].
    + intros p Hin. apply not_true_is_false. intros (b' & Hb)%(tracking_peer_spec _ _ p Hr'). cbn in Hb.
      apply elem_of_filter in Hb as [Hb _]. cbn in Hb. by apply Hb, Hp.
    + apply not_true_is_false. intros (p & Hb)%(tracking_block_spec _ _ n b Hr' En). cbn in Hb.
      apply elem_of_filter in Hb as [Hb Hb']. by apply Hb.
Qed.

Lemma p2p_refines_witness :
  exists st s, history [OTrackConnection 1 7 [] Listener; OTrackBlock (T [D 1; D 2; D 3; D 4; D 5]) 7; OLost 1]%nat
                 (st : P2PState nat nat unit) s /\ repr st s.
Proof.
  eexists _, _. match goal with |- ?h /\ _ => assert (Hh : h) end.
  { eapply (history_step [_; _]); [|exact I]. eapply (history_step [_]); [|exact I].
    eapply (history_step []); [apply (history_new 0)|reflexivity]. }
  split; [exact Hh|]. exact (proj1 (p2p_refines _ _ _ Hh)).
Defined.

(** The first connection of an IP address is not entered into its record.  So
    after a second one from the same address comes and goes the record is dropped
    while the first is still open, and no request from it counts any more, whatever
    the threshold. *)
Theorem ip_untracked {PeerId ConnectionId NounSlab} `{Countable PeerId, Countable ConnectionId}
    (st : P2PState PeerId ConnectionId NounSlab) c1 c2 p1 p2 a1 a2 e1 e2 ip threshold :
  c1 <> c2 -> ip_addr a1 = Some ip -> ip_addr a2 = Some ip -> ip_info st !! ip = None ->
  let st' := (lost_connection c2 (track_connection c2 p2 a2 e2 (track_connection c1 p1 a1 e1 st))).1 in
  connection_address c1 st' = Some a1 /\ ip_info st' !! ip = None /\ requested ip threshold st' = (st', None).
Proof.
  intros Hne E1 E2 Hi st'. assert (Hip : ip_info st' !! ip = None).
  { subst st'. rewrite (lost_ip_info c2 _ a2) by apply address_track. unfold forget_ip. cbn [mbind option_bind]. rewrite E2.
    rewrite (track_ip_info c2 _ a2 _ _ ip E2), (track_ip_info c1 _ a1 _ _ ip E1), Hi. cbn.
    rewrite decide_True by set_solver. apply lookup_delete_eq. }
  split_and!; [|done|unfold requested; by rewrite Hip].
  subst st'. rewrite address_lost_ne, address_track_ne by done. apply address_track.
Qed.

Lemma ip_untracked_witness :
  let st := (lost_connection 2%nat (track_connection 2%nat 8%nat [Ip4 1] Listener
    (track_connection 1%nat 7%nat [Ip4 1] Listener (new 0 : P2PState nat nat unit)))).1 in
  connection_address 1%nat st = Some [Ip4 1] /\ ip_info st !! inl 1 = None /\ requested (inl 1) 0 st = (st, None).
Proof.
  apply (ip_untracked (new 0) 1%nat 2%nat 7%nat 8%nat [Ip4 1] [Ip4 1] Listener Listener (inl 1) 0); [lia|reflexivity..].
Defined.

(** A transaction that the kernel has seen is dropped when it arrives by gossip, and
    processed again when it arrives as a response: that check consults the blocks. *)
Lemma response_tx_reprocessed {PeerId ConnectionId NounSlab} `{Countable PeerId, Countable ConnectionId}
    (st : P2PState PeerId ConnectionId NounSlab) id :
  id ∉ seen_blocks st ->
  gossip_enable (HeardTx id) (seen_tx id st) = false /\ (response_enable (HeardTx id) (seen_tx id st)).2 = true.
Proof.
  intros Hid. cbn. rewrite bool_decide_eq_true_2 by set_solver. by rewrite bool_decide_eq_false_2.
Qed.
