(* ===== verification/Cheetah.v ===== *)
(** The cheetah curve: crates/nockchain-math/src/crypto/cheetah.rs.

    Coordinates are elements of F_p[x]/(x^6 - 7), six words each, multiplied by a
    two-level Karatsuba scheme and inverted by the extended Euclidean algorithm.
    Points are affine with a flag for the point at infinity.  An [unwrap] that fails
    is a panic. *)
From stdpp Require Import base option list numbers strings.
From Stdlib Require Import ZArith Lia.
From S2P Require Import Prelude Noun Interp Belt Vec Poly BPoly Tip5 NounHash NounSerde Base58.
Local Open Scope Z_scope.

Record F6lt := mkF6 { g0 : Belt; g1 : Belt; g2 : Belt; g3 : Belt; g4 : Belt; g5 : Belt }.
Global Instance F6lt_eq_dec : EqDecision F6lt.
Proof. solve_decision. Defined.
Definition F6_slice (f : F6lt) : list Belt := [g0 f; g1 f; g2 f; g3 f; g4 f; g5 f].

Definition F6_ZERO : F6lt := mkF6 0 0 0 0 0 0.
Definition F6_ONE : F6lt := mkF6 1 0 0 0 0 0.

(** * The field *)

(** Arrays of three and of five words *)
Definition karat3 (a b : Belt * Belt * Belt) : Belt * Belt * Belt * Belt * Belt :=
  let '(a0, a1, a2) := a in let '(b0, b1, b2) := b in
  let m0 := bmul a0 b0 in let m1 := bmul a1 b1 in let m2 := bmul a2 b2 in
  (m0,
   bsub (bmul (badd a0 a1) (badd b0 b1)) (badd m0 m1),
   badd (bsub (bmul (badd a0 a2) (badd b0 b2)) (badd m0 m2)) m1,
   bsub (bmul (badd a1 a2) (badd b1 b2)) (badd m1 m2),
   m2).

Definition f6_mul (f g : F6lt) : F6lt :=
  let '(p0, p1, p2, p3, p4) := karat3 (g0 f, g1 f, g2 f) (g0 g, g1 g, g2 g) in
  let '(q0, q1, q2, q3, q4) := karat3 (g3 f, g4 f, g5 f) (g3 g, g4 g, g5 g) in
  let '(r0, r1, r2, r3, r4) :=
    karat3 (badd (g0 f) (g3 f), badd (g1 f) (g4 f), badd (g2 f) (g5 f))
           (badd (g0 g) (g3 g), badd (g1 g) (g4 g), badd (g2 g) (g5 g)) in
  let c0 := bsub r0 (badd p0 q0) in
  let c1 := bsub r1 (badd p1 q1) in
  let c2 := bsub r2 (badd p2 q2) in
  let c3 := bsub r3 (badd p3 q3) in
  let c4 := bsub r4 (badd p4 q4) in
  mkF6 (badd p0 (bmul 7 (badd c3 q0)))
       (badd p1 (bmul 7 (badd c4 q1)))
       (badd p2 (bmul 7 q2))
       (badd (badd p3 c0) (bmul 7 q3))
       (badd (badd p4 c1) (bmul 7 q4))
       c2.

(** [x^6 - 7] *)
Definition F6_POLY : list Belt := [bneg 7; 0; 0; 0; 0; 0; 1].
Definition F6_try_from (f : list Z) : option F6lt :=
  match f with [a; b; c; d; e; f] => Some (mkF6 a b c d e f) | _ => None end.

Definition or_crash {E A} (o : option A) : outcome E A := match o with Some a => Ok a | None => Panic end.
Definition f6_inv (f : F6lt) : outcome JetErr F6lt :=
  if decide (f = F6_ZERO) then Err (JetFail BAIL_FAIL)
  else
    or_crash ('(d, u, _) ← bpegcd (F6_slice f) F6_POLY (replicate 7 0) (replicate 7 0) (replicate 6 0);
              d0 ← vget d 0;
              F6_try_from (bpscal (binv d0) u (replicate 6 0))).
Definition f6_div (f1 f2 : F6lt) : outcome JetErr F6lt := f2_inv ← f6_inv f2; Ok (f6_mul f1 f2_inv).

Definition f6_map2 (op : Belt -> Belt -> Belt) (f g : F6lt) : F6lt :=
  mkF6 (op (g0 f) (g0 g)) (op (g1 f) (g1 g)) (op (g2 f) (g2 g)) (op (g3 f) (g3 g)) (op (g4 f) (g4 g)) (op (g5 f) (g5 g)).
Definition f6_map (op : Belt -> Belt) (f : F6lt) : F6lt :=
  mkF6 (op (g0 f)) (op (g1 f)) (op (g2 f)) (op (g3 f)) (op (g4 f)) (op (g5 f)).
Definition f6_add (f1 f2 : F6lt) : F6lt := f6_map2 badd f1 f2.
Definition f6_scal (s : Belt) (f : F6lt) : F6lt := f6_map (fun x => bmul x s) f.
Definition f6_square (f : F6lt) : F6lt := f6_mul f f.
Definition f6_neg (f : F6lt) : F6lt := f6_map bneg f.
Definition f6_sub (f1 f2 : F6lt) : F6lt := f6_add f1 (f6_neg f2).

(** * The curve *)

Record CheetahPoint := mkPoint { px : F6lt; py : F6lt; inf : bool }.
Global Instance CheetahPoint_eq_dec : EqDecision CheetahPoint.
Proof. solve_decision. Defined.

Definition A_ID : CheetahPoint := mkPoint F6_ZERO F6_ONE true.
Definition G_ORDER : Z := 0x7af2599b3b3f22d0563fbf0f990a37b5327aa72330157722d443623eaed4accf.
Definition A_GEN : CheetahPoint :=
  mkPoint (mkF6 2754611494552410273 8599518745794843693 10526511002404673680 4830863958577994148
                375185138577093320 12938930721685970739)
          (mkF6 15384029202802550068 2774812795997841935 14375303400746062753 10708493419890101954
                13187678623570541764 9990732138772505951) false.

Definition ch_double_unsafe (x y : F6lt) : outcome JetErr CheetahPoint :=
  slope ← f6_div (f6_add (f6_scal 3 (f6_square x)) F6_ONE) (f6_scal 2 y);
  let x_out := f6_sub (f6_square slope) (f6_scal 2 x) in
  let y_out := f6_sub (f6_mul slope (f6_sub x x_out)) y in
  Ok (mkPoint x_out y_out false).

Definition ch_double (p : CheetahPoint) : outcome JetErr CheetahPoint :=
  if inf p then Ok A_ID
  else if decide (py p = F6_ZERO) then Ok A_ID
  else ch_double_unsafe (px p) (py p).

Definition ch_add_unsafe (p q : CheetahPoint) : outcome JetErr CheetahPoint :=
  slope ← f6_div (f6_sub (py p) (py q)) (f6_sub (px p) (px q));
  let x_out := f6_sub (f6_square slope) (f6_add (px p) (px q)) in
  let y_out := f6_sub (f6_mul slope (f6_sub (px p) x_out)) (py p) in
  Ok (mkPoint x_out y_out false).

Definition ch_neg (p : CheetahPoint) : CheetahPoint := mkPoint (px p) (f6_neg (py p)) (inf p).

Definition ch_add (p q : CheetahPoint) : outcome JetErr CheetahPoint :=
  if inf p then Ok q
  else if inf q then Ok p
  else if decide (p = ch_neg q) then Ok A_ID
  else if decide (p = q) then ch_double p
  else ch_add_unsafe p q.

(** The loop of both scalar multiplications; a number of [k] bits takes [k] rounds. *)
Fixpoint scal_loop (fuel : nat) (n : Z) (p_copy acc : CheetahPoint) : outcome JetErr CheetahPoint :=
  match fuel with
  | O => Ok acc
  | S fuel =>
      if 0 <? n then
        acc ← (if Z.testbit n 0 then ch_add acc p_copy else Ok acc);
        p_copy ← ch_double p_copy;
        scal_loop fuel (Z.shiftr n 1) p_copy acc
      else Ok acc
  end.
Definition ch_scal (n : Z) (p : CheetahPoint) : outcome JetErr CheetahPoint := scal_loop 64 n p A_ID.
Definition ch_scal_big (n : Z) (p : CheetahPoint) : outcome JetErr CheetahPoint :=
  scal_loop (S (Z.to_nat (Z.log2 n))) n p A_ID.

Definition in_curve (p : CheetahPoint) : outcome JetErr bool :=
  if decide (p = A_ID) then Ok true
  else match ch_scal_big G_ORDER p with
       | Ok scaled => Ok (bool_decide (scaled = A_ID))
       | _ => Panic
       end.

Definition trunc_g_order (a : list Z) : option Z :=
  a0 ← vget a 0; a1 ← vget a 1; a2 ← vget a 2; a3 ← vget a 3;
  Some ((a0 + P_BIG * a1 + P_BIG * P_BIG * a2 + P_BIG * P_BIG * P_BIG * a3) mod G_ORDER).

(** * Public keys as strings *)

Inductive CheetahError := CBase58 | ZPubUsed | InvalidLength (n : Z) | ArrayConversion | NotOnCurve.

Definition belt_be_bytes (b : Belt) : list Z := reverse (to_le_bytes 8 b).
Definition BYTES : nat := 97.
(** [v.chunks_exact(8)] of a vector whose length is a multiple of eight *)
Fixpoint chunks8 (n : nat) (v : list Z) : list Belt :=
  match n with
  | O => []
  | S n => from_le_bytes (reverse (take 8 v)) :: chunks8 n (drop 8 v)
  end.

Section strings.
Context `{Bs58}.

Definition into_base58 (p : CheetahPoint) : outcome CheetahError string :=
  if inf p then Err NotOnCurve
  else
    let bytes := 1 :: mjoin (belt_be_bytes <$> (reverse (F6_slice (py p)) ++ reverse (F6_slice (px p)))) in
    Ok (bs58_encode bytes).

Definition from_base58 (b58 : string) : outcome CheetahError CheetahPoint :=
  match bs58_decode b58 with
  | None => Err CBase58
  | Some v =>
      if negb (length v =? BYTES)%nat then
        if String.prefix "zpub" b58 then Err ZPubUsed else Err (InvalidLength (Z.of_nat (length v)))
      else
        let v64 := reverse (chunks8 12 (drop 1 v)) in
        match F6_try_from (take 6 v64), F6_try_from (drop 6 v64) with
        | Some x, Some y =>
            let c_pt := mkPoint x y false in
            match in_curve c_pt with
            | Ok true => Ok c_pt
            | Ok false => Err NotOnCurve
            | _ => Panic
            end
        | _, _ => Err ArrayConversion
        end
  end.
End strings.

(** The values of the tests in the source *)
Example f6_vectors :
  f6_inv (mkF6 13724052584687643294 6944593306454870014 10082672435494154603 6450272673873704561
               2898784811200916299 15463938240345685194) =
    Ok (mkF6 129083178215983407 16804250925345184998 6447171951354165736 16181730381532049633
             9179768094922373417 8139613426717722210) /\
  f6_inv (mkF6 1 1 1 1 1 1) = Ok (mkF6 3074457344902430720 15372286724512153601 0 0 0 0) /\
  ch_scal 3 A_GEN =
    Ok (mkPoint (mkF6 12461929372724418873 16567359094004701986 18139376982535661051 3904128592858427998
                      1409597492055585669 10004445677131924957)
                (mkF6 11902197035441682466 5072010750673887563 16590571040514665822 11686652568553538253
                      9569866106958470758 6839548852764696901) false).
Proof. vm_compute. split; [reflexivity|split; reflexivity]. Qed.
