(* ===== verification/CheetahField.v ===== *)
(** The coordinates of the cheetah curve form a field:
    crates/nockchain-math/src/crypto/cheetah.rs, f6_mul and f6_inv.

    [f6_mul] is compared with the schoolbook product modulo [x^6 - 7].  That
    polynomial is irreducible because [x^2 - 7] and then [x^3 - w] with [w^2 = 7]
    are, which is shown with the norms of both steps.  [f6_inv] runs [bpegcd] on
    operands in the other order than [finv] does. *)
From stdpp Require Import base option list numbers.
From Stdlib Require Import ZArith Lia Zmod Ring.
From S2P Require Import Prelude Interp Belt Vec Poly BPoly Felt Cheetah.
Local Open Scope Z_scope.
Local Open Scope nock_scope.

(** * Powers modulo [PRIME] *)

Lemma fermat_unit r : ~ (r == 0) -> r ^ (PRIME - 1) == 1.
Proof.
  intros Hr. assert (Hf : r ^ PRIME == r) by (apply cong_iff, Z.fermat, PRIME_prime).
  assert (Hs : PRIME = Z.succ (PRIME - 1)) by lia.
  rewrite Hs, Z.pow_succ_r in Hf by (unfold PRIME; lia).
  generalize dependent (r ^ (PRIME - 1)). intros y Hf.
  destruct (mul_cancel r (y - 1)) as [E|E]; [|contradiction|].
  - transitivity (r * y - r); [apply eq_cong; ring|]. rewrite Hf. apply eq_cong; ring.
  - transitivity (y - 1 + 1); [apply eq_cong; ring|]. by rewrite E.
Qed.

(** What is an [m]-th power has a trivial [(PRIME - 1) / m]-th power. *)
Lemma power_residue r m e c :
  0 <= m -> 0 <= e -> m * e = PRIME - 1 -> ~ (c == 0) -> r ^ m == c -> 0 < m -> c ^ e == 1.
Proof.
  intros Hm He Hme Hc Hr Hp. rewrite <- Hr, <- Z.pow_mul_r, Hme by done. apply fermat_unit.
  intros E. apply Hc. rewrite <- Hr, E. by rewrite Z.pow_0_l.
Qed.

Lemma not_residue c e : based c -> is_u64 e -> bpow c e <> 1 -> ~ (c ^ e == 1).
Proof.
  intros Hc He Hne E. apply Hne. rewrite bpow_mod by done. apply cong_iff in E. by rewrite E.
Qed.

Lemma seven_not_square r : ~ (r ^ 2 == 7).
Proof.
  intros E. assert (E7 : ~ (7 == 0)) by (intros E7; apply cong_iff in E7; by vm_compute in E7).
  eapply (not_residue 7 ((PRIME - 1) / 2));
    [by belt_nums|by vm_compute|by vm_compute|].
  by apply (power_residue r 2).
Qed.
Lemma minus_seven_not_cube r : ~ (r ^ 3 == -7).
Proof.
  intros E. assert (E7 : -7 == PRIME - 7) by cong_compute. rewrite E7 in E.
  eapply (not_residue (PRIME - 7) ((PRIME - 1) / 3));
    [by belt_nums|by vm_compute|by vm_compute|].
  apply (power_residue r 3); try done.
  intros E0. apply cong_iff in E0. by vm_compute in E0.
Qed.

(** * The quadratic step: [w^2 = 7] *)

Record K2 := mk2 { k0 : Z; k1 : Z }.
Definition keq (a b : K2) : Prop := k0 a == k0 b /\ k1 a == k1 b.
Definition kadd (a b : K2) : K2 := mk2 (k0 a + k0 b) (k1 a + k1 b).
Definition kmul (a b : K2) : K2 := mk2 (k0 a * k0 b + 7 * (k1 a * k1 b)) (k0 a * k1 b + k1 a * k0 b).
Definition kopp (a : K2) : K2 := mk2 (- k0 a) (- k1 a).
Definition ksub (a b : K2) : K2 := mk2 (k0 a - k0 b) (k1 a - k1 b).
Definition kO : K2 := mk2 0 0.
Definition kI : K2 := mk2 1 0.
Definition kw : K2 := mk2 0 1.

Global Instance keq_equiv : Equivalence keq.
Proof.
  unfold keq. split; red.
  - done.
  - intros ? ? (?&?). by split.
  - intros ? ? ? (->&->). done.
Qed.
Lemma k2_ring_ext : ring_eq_ext kadd kmul kopp keq.
Proof.
  split; [intros a a' (A0 & A1) b b' (B0 & B1)..|intros a a' (A0 & A1)];
    unfold keq; simpl; rewrite A0, A1, ?B0, ?B1; done.
Qed.
Lemma k2_ring_laws : ring_theory kO kI kadd kmul ksub kopp keq.
Proof. split; intros; unfold keq; simpl; split; apply eq_cong; ring. Qed.
Global Instance kadd_proper : Proper (keq ==> keq ==> keq) kadd := Radd_ext k2_ring_ext.
Global Instance kmul_proper : Proper (keq ==> keq ==> keq) kmul := Rmul_ext k2_ring_ext.
Global Instance ksub_proper : Proper (keq ==> keq ==> keq) ksub.
Proof. intros a a' (A0 & A1) b b' (B0 & B1). split; simpl; [by rewrite A0, B0|by rewrite A1, B1]. Qed.
Add Ring k2_ring : k2_ring_laws (setoid keq_equiv k2_ring_ext).

Declare Scope k2_scope.
Infix "+" := kadd : k2_scope.
Infix "*" := kmul : k2_scope.
Infix "-" := ksub : k2_scope.
Infix "≡₂" := keq (at level 70) : k2_scope.
Local Open Scope k2_scope.

Definition knorm (a : K2) : Z := (k0 a * k0 a - 7 * (k1 a * k1 a))%Z.
Lemma knorm_mul a b : knorm (a * b) = (knorm a * knorm b)%Z.
Proof. unfold knorm; simpl; ring. Qed.
Global Instance knorm_proper : Proper (keq ==> cong) knorm.
Proof. intros a b (E0 & E1). unfold knorm. by rewrite E0, E1. Qed.

Lemma knorm_0 a : knorm a == 0 -> a ≡₂ kO.
Proof.
  unfold knorm. intros E. assert (E' : k0 a ^ 2 == 7 * k1 a ^ 2).
  { transitivity (k0 a * k0 a - 7 * (k1 a * k1 a) + 7 * k1 a ^ 2)%Z; [apply eq_cong; ring|].
    rewrite E. apply eq_cong; ring. }
  destruct (cong_0_dec (k1 a)) as [H1|H1].
  - split; [|done]. rewrite H1 in E'.
    destruct (mul_cancel (k0 a) (k0 a)); [|done|done].
    rewrite <- Z.pow_2_r, E'. apply eq_cong; ring.
  - exfalso. destruct (cong_inverse _ H1) as [i Hi]. apply (seven_not_square (k0 a * i)%Z).
    rewrite Z.pow_mul_l, E'. transitivity (7 * (k1 a * i) ^ 2)%Z; [apply eq_cong; ring|].
    rewrite Hi. apply eq_cong; ring.
Qed.

Lemma k2_inverse a : ~ (a ≡₂ kO) -> exists i, a * i ≡₂ kI.
Proof.
  intros Ha. destruct (cong_0_dec (knorm a)) as [E|E]; [by apply knorm_0 in E|].
  destruct (cong_inverse _ E) as [i Hi]. exists (mk2 (k0 a * i) (- k1 a * i)).
  split; simpl.
  - transitivity (knorm a * i)%Z; [apply eq_cong; unfold knorm; ring|done].
  - apply eq_cong; ring.
Qed.
Lemma k2_dec a : a ≡₂ kO \/ ~ (a ≡₂ kO).
Proof.
  unfold keq; simpl. destruct (cong_0_dec (k0 a)), (cong_0_dec (k1 a)); tauto.
Qed.
Lemma k2_cancel a b : a * b ≡₂ kO -> ~ (a ≡₂ kO) -> b ≡₂ kO.
Proof.
  intros E Ha. destruct (k2_inverse a Ha) as [i Hi].
  transitivity ((a * i) * b); [rewrite Hi; ring|].
  transitivity (i * (a * b)); [ring|]. rewrite E. ring.
Qed.

(** [w] is not a cube, since its norm is not. *)
Lemma w_not_cube t : ~ (t * (t * t) ≡₂ kw).
Proof.
  intros E. apply (minus_seven_not_cube (knorm t)). apply knorm_proper in E.
  rewrite !knorm_mul in E. transitivity (knorm t * (knorm t * knorm t))%Z; [apply eq_cong; ring|].
  rewrite E. apply eq_cong. reflexivity.
Qed.

(** * The cubic step: the norm of [A + B x + C x^2] with [x^3 = w] *)

Definition norm3 (A B C : K2) : K2 :=
  A * A * A + kw * (B * B * B) + kw * kw * (C * C * C) - (kI + kI + kI) * kw * (A * B * C).

Section cubic.
Context (A B C : K2).
Let Q := kw * (C * C) - A * B.
Let R := B * B - A * C.

(** The remainder of [x^3 - w] by [A + B x + C x^2] is [R x - Q] up to [C^2]. *)
Lemma cubic_division t :
  C * C * (t * (t * t) - kw) ≡₂ (C * t - B) * (A + B * t + C * (t * t)) + (R * t - Q).
Proof. unfold Q, R. ring. Qed.
Lemma cubic_resultant : A * (R * R) + B * (R * Q) + C * (Q * Q) ≡₂ C * C * norm3 A B C.
Proof. unfold Q, R, norm3. ring. Qed.

Lemma cubic_root t :
  ~ (C ≡₂ kO) -> (C * t - B) * (A + B * t + C * (t * t)) ≡₂ kO -> R * t ≡₂ Q -> t * (t * t) ≡₂ kw.
Proof.
  intros HC Hf Ht. pose proof (cubic_division t) as E. rewrite Hf, Ht in E.
  assert (E' : C * (C * (t * (t * t) - kw)) ≡₂ kO).
  { transitivity (C * C * (t * (t * t) - kw)); [ring|]. rewrite E. ring. }
  apply k2_cancel in E'; [|done]. apply k2_cancel in E'; [|done].
  transitivity (t * (t * t) - kw + kw); [ring|]. rewrite E'. ring.
Qed.

Lemma norm3_0_C : norm3 A B C ≡₂ kO -> C ≡₂ kO.
Proof.
  intros HN. destruct (k2_dec C) as [|HC]; [done|exfalso].
  pose proof cubic_resultant as Hres. rewrite HN in Hres.
  destruct (k2_dec R) as [HR|HR].
  - destruct (k2_inverse C HC) as [i Hi]. apply (w_not_cube (B * i)), cubic_root; [done|..].
    + transitivity ((C * i * B - B) * (A + B * (B * i) + C * (B * i * (B * i)))); [ring|].
      rewrite Hi. ring.
    + rewrite HR in Hres |- *. transitivity kO; [ring|]. symmetry.
      destruct (k2_dec Q) as [|HQ]; [done|]. apply (k2_cancel Q); [|done].
      apply (k2_cancel C); [|done]. transitivity (A * (kO * kO) + B * (kO * Q) + C * (Q * Q)); [ring|].
      rewrite Hres. ring.
  - destruct (k2_inverse R HR) as [i Hi]. set (t := Q * i).
    assert (Ht : R * t ≡₂ Q) by (unfold t; transitivity (R * i * Q); [ring|rewrite Hi; ring]).
    apply (w_not_cube t), cubic_root; [done| |done].
    assert (E : R * (R * (A + B * t + C * (t * t))) ≡₂ kO).
    { transitivity (A * (R * R) + B * (R * (R * t)) + C * ((R * t) * (R * t))); [ring|].
      rewrite Ht, Hres. ring. }
    apply k2_cancel in E; [|done]. apply k2_cancel in E; [|done]. rewrite E. ring.
Qed.
End cubic.

Lemma norm3_0 A B C : norm3 A B C ≡₂ kO -> A ≡₂ kO /\ B ≡₂ kO /\ C ≡₂ kO.
Proof.
  intros HN. pose proof (norm3_0_C A B C HN) as HC.
  assert (HN' : A * A * A + kw * (B * B * B) ≡₂ kO).
  { rewrite <- HN. unfold norm3. rewrite HC. ring. }
  destruct (k2_dec B) as [HB|HB].
  - split_and!; try done. rewrite HB in HN'. destruct (k2_dec A) as [|HA]; [done|].
    apply (k2_cancel A); [|done]. apply (k2_cancel A); [|done].
    transitivity (A * A * A + kw * (kO * kO * kO)); [ring|done].
  - exfalso. destruct (k2_inverse B HB) as [i Hi]. apply (w_not_cube (kO - A * i)).
    transitivity ((A * A * A + kw * (B * B * B)) * (kO - i * i * i) + kw * ((B * i) * (B * i) * (B * i))); [ring|].
    rewrite HN', Hi. ring.
Qed.
Local Close Scope k2_scope.

(** * The coordinates: [x^6 = 7] *)

Definition based6 (a : F6lt) : Prop := based_poly (F6_slice a).
Definition eq6 (a b : F6lt) : Prop :=
  g0 a == g0 b /\ g1 a == g1 b /\ g2 a == g2 b /\ g3 a == g3 b /\ g4 a == g4 b /\ g5 a == g5 b.
Definition add6 (a b : F6lt) : F6lt := f6_map2 Z.add a b.
Definition sub6 (a b : F6lt) : F6lt := f6_map2 Z.sub a b.
Definition opp6 (a : F6lt) : F6lt := f6_map Z.opp a.
(** The schoolbook product, with [x^6] replaced by 7 *)
Definition mul6 (a b : F6lt) : F6lt :=
  let '(mkF6 a0 a1 a2 a3 a4 a5) := a in let '(mkF6 b0 b1 b2 b3 b4 b5) := b in
  mkF6 (a0 * b0 + 7 * (a1 * b5 + a2 * b4 + a3 * b3 + a4 * b2 + a5 * b1))
       (a0 * b1 + a1 * b0 + 7 * (a2 * b5 + a3 * b4 + a4 * b3 + a5 * b2))
       (a0 * b2 + a1 * b1 + a2 * b0 + 7 * (a3 * b5 + a4 * b4 + a5 * b3))
       (a0 * b3 + a1 * b2 + a2 * b1 + a3 * b0 + 7 * (a4 * b5 + a5 * b4))
       (a0 * b4 + a1 * b3 + a2 * b2 + a3 * b1 + a4 * b0 + 7 * (a5 * b5))
       (a0 * b5 + a1 * b4 + a2 * b3 + a3 * b2 + a4 * b1 + a5 * b0).

Infix "≡₆" := eq6 (at level 70) : nock_scope.

Global Instance eq6_equiv : Equivalence eq6.
Proof.
  unfold eq6. split; red.
  - done.
  - intros ? ? (?&?&?&?&?&?). by split_and!.
  - intros ? ? ? (->&->&->&->&->&->). done.
Qed.
Lemma f6_ring_ext : ring_eq_ext add6 mul6 opp6 eq6.
Proof.
  split; [intros [] [] (A0 & A1 & A2 & A3 & A4 & A5) [] [] (B0 & B1 & B2 & B3 & B4 & B5)..
         |intros [] [] (A0 & A1 & A2 & A3 & A4 & A5)];
    unfold eq6, add6, opp6, f6_map2, f6_map; simpl in *; rewrite A0, A1, A2, A3, A4, A5, ?B0, ?B1, ?B2, ?B3, ?B4, ?B5; done.
Qed.
Lemma f6_ring_laws : ring_theory F6_ZERO F6_ONE add6 mul6 sub6 opp6 eq6.
Proof.
  split; repeat intros []; unfold eq6; simpl; split_and!; apply eq_cong; ring.
Qed.
Global Instance add6_proper : Proper (eq6 ==> eq6 ==> eq6) add6 := Radd_ext f6_ring_ext.
Global Instance mul6_proper : Proper (eq6 ==> eq6 ==> eq6) mul6 := Rmul_ext f6_ring_ext.
Global Instance opp6_proper : Proper (eq6 ==> eq6) opp6 := Ropp_ext f6_ring_ext.
Lemma sub6_add a b : sub6 a b ≡₆ add6 a (opp6 b).
Proof. destruct a, b. unfold eq6; simpl. split_and!; apply eq_cong; ring. Qed.
Global Instance sub6_proper : Proper (eq6 ==> eq6 ==> eq6) sub6.
Proof. intros a a' Ha b b' Hb. by rewrite !sub6_add, Ha, Hb. Qed.
Add Ring f6_ring : f6_ring_laws (setoid eq6_equiv f6_ring_ext).

(** ** The word operations are the ring operations *)

Lemma based6_all a :
  based6 a <-> based (g0 a) /\ based (g1 a) /\ based (g2 a) /\ based (g3 a) /\ based (g4 a) /\ based (g5 a).
Proof. unfold based6, F6_slice. rewrite !list.Forall_cons. intuition constructor. Qed.

Lemma eq6_eq a b : based6 a -> based6 b -> a ≡₆ b -> a = b.
Proof.
  rewrite !based6_all. destruct a, b. unfold eq6. simpl. intros (?&?&?&?&?&?) (?&?&?&?&?&?) (?&?&?&?&?&?).
  f_equal; by apply cong_based.
Qed.

Lemma karat3_ok a0 a1 a2 b0 b1 b2 :
  based a0 -> based a1 -> based a2 -> based b0 -> based b1 -> based b2 ->
  exists c0 c1 c2 c3 c4, karat3 (a0, a1, a2) (b0, b1, b2) = (c0, c1, c2, c3, c4) /\
    (based c0 /\ based c1 /\ based c2 /\ based c3 /\ based c4) /\
    c0 == a0 * b0 /\ c1 == a0 * b1 + a1 * b0 /\ c2 == a0 * b2 + a1 * b1 + a2 * b0 /\
    c3 == a1 * b2 + a2 * b1 /\ c4 == a2 * b2.
Proof.
  intros. eexists _, _, _, _, _. split; [reflexivity|]. split; [split_and!; based_expr|].
  split_and!; belt_cong; apply eq_cong; ring.
Qed.

Lemma f6_mul_ok a b : based6 a -> based6 b -> based6 (f6_mul a b) /\ f6_mul a b ≡₆ mul6 a b.
Proof.
  rewrite !based6_all. destruct a as [a0 a1 a2 a3 a4 a5], b as [b0 b1 b2 b3 b4 b5]. simpl.
  intros (?&?&?&?&?&?) (?&?&?&?&?&?). assert (based 7) by by belt_nums.
  unfold f6_mul, eq6. cbn [g0 g1 g2 g3 g4 g5 mul6].
  destruct (karat3_ok a0 a1 a2 b0 b1 b2) as (p0 & p1 & p2 & p3 & p4 & -> & (?&?&?&?&?) & P0 & P1 & P2 & P3 & P4);
    [done..|].
  destruct (karat3_ok a3 a4 a5 b3 b4 b5) as (q0 & q1 & q2 & q3 & q4 & -> & (?&?&?&?&?) & Q0 & Q1 & Q2 & Q3 & Q4);
    [done..|].
  destruct (karat3_ok (badd a0 a3) (badd a1 a4) (badd a2 a5) (badd b0 b3) (badd b1 b4) (badd b2 b5))
    as (r0 & r1 & r2 & r3 & r4 & -> & (?&?&?&?&?) & R0 & R1 & R2 & R3 & R4); [based_expr..|].
  cbn [g0 g1 g2 g3 g4 g5].
  split; [split_and!; based_expr|].
  split_and!; belt_cong; rewrite ?P0, ?P1, ?P2, ?P3, ?P4, ?Q0, ?Q1, ?Q2, ?Q3, ?Q4, ?R0, ?R1, ?R2, ?R3, ?R4;
    belt_cong; apply eq_cong; ring.
Qed.
Lemma f6_add_ok a b : based6 a -> based6 b -> based6 (f6_add a b) /\ f6_add a b ≡₆ add6 a b.
Proof.
  rewrite !based6_all. intros (?&?&?&?&?&?) (?&?&?&?&?&?). unfold f6_add, f6_map2, eq6, add6; simpl.
  split; split_and!; first [solve [based_expr]|belt_cong; done].
Qed.
Lemma f6_neg_ok a : based6 a -> based6 (f6_neg a) /\ f6_neg a ≡₆ opp6 a.
Proof.
  rewrite !based6_all. intros (?&?&?&?&?&?). unfold f6_neg, f6_map, eq6, opp6; simpl.
  split; split_and!; first [solve [based_expr]|belt_cong; done].
Qed.
Lemma f6_sub_ok a b : based6 a -> based6 b -> based6 (f6_sub a b) /\ f6_sub a b ≡₆ sub6 a b.
Proof.
  intros Ha Hb. destruct (f6_neg_ok b Hb) as [Hn En]. destruct (f6_add_ok a (f6_neg b) Ha Hn) as [Hs Es].
  split; [done|]. unfold f6_sub. by rewrite Es, En, sub6_add.
Qed.
Definition const6 (s : Z) : F6lt := mkF6 s 0 0 0 0 0.
Lemma f6_scal_ok s a : based s -> based6 a -> based6 (f6_scal s a) /\ f6_scal s a ≡₆ mul6 (const6 s) a.
Proof.
  rewrite !based6_all. intros Hs. destruct a. simpl. intros (?&?&?&?&?&?).
  unfold f6_scal, f6_map, eq6, mul6, const6; simpl.
  split; split_and!; first [solve [based_expr]|belt_cong; apply eq_cong; ring].
Qed.
Lemma based6_0 : based6 F6_ZERO.
Proof. apply based_polyb_ok. reflexivity. Qed.
Lemma based6_1 : based6 F6_ONE.
Proof. apply based_polyb_ok. reflexivity. Qed.
Lemma f6_mul_based a b : based6 a -> based6 b -> based6 (f6_mul a b).
Proof. intros. by apply f6_mul_ok. Qed.
Lemma f6_add_based a b : based6 a -> based6 b -> based6 (f6_add a b).
Proof. intros. by apply f6_add_ok. Qed.
Lemma f6_sub_based a b : based6 a -> based6 b -> based6 (f6_sub a b).
Proof. intros. by apply f6_sub_ok. Qed.
Lemma f6_neg_based a : based6 a -> based6 (f6_neg a).
Proof. intros. by apply f6_neg_ok. Qed.
Lemma f6_scal_based s a : based s -> based6 a -> based6 (f6_scal s a).
Proof. intros. by apply f6_scal_ok. Qed.
(** Basedness of an expression of the word operations *)
Ltac based6_expr :=
  repeat lazymatch goal with
    | |- based6 (f6_square ?a) => change (f6_square a) with (f6_mul a a)
    | |- based6 (f6_mul _ _) => apply f6_mul_based
    | |- based6 (f6_add _ _) => apply f6_add_based
    | |- based6 (f6_sub _ _) => apply f6_sub_based
    | |- based6 (f6_neg _) => apply f6_neg_based
    | |- based6 (f6_scal _ _) => apply f6_scal_based; [by belt_nums|]
    | |- based6 F6_ZERO => apply based6_0
    | |- based6 F6_ONE => apply based6_1
    | |- based6 _ => assumption
    end.
(** Replace the word operations by those of the ring, from the outside in. *)
Lemma f6_mul_cong a b a' b' : based6 a -> based6 b -> a ≡₆ a' -> b ≡₆ b' -> f6_mul a b ≡₆ mul6 a' b'.
Proof. intros Ha Hb <- <-. by apply f6_mul_ok. Qed.
Lemma f6_add_cong a b a' b' : based6 a -> based6 b -> a ≡₆ a' -> b ≡₆ b' -> f6_add a b ≡₆ add6 a' b'.
Proof. intros Ha Hb <- <-. by apply f6_add_ok. Qed.
Lemma f6_sub_cong a b a' b' : based6 a -> based6 b -> a ≡₆ a' -> b ≡₆ b' -> f6_sub a b ≡₆ sub6 a' b'.
Proof. intros Ha Hb <- <-. by apply f6_sub_ok. Qed.
Lemma f6_neg_cong a a' : based6 a -> a ≡₆ a' -> f6_neg a ≡₆ opp6 a'.
Proof. intros Ha <-. by apply f6_neg_ok. Qed.
Lemma f6_scal_cong s a a' : based s -> based6 a -> a ≡₆ a' -> f6_scal s a ≡₆ mul6 (const6 s) a'.
Proof. intros Hs Ha <-. by apply f6_scal_ok. Qed.
Ltac cong6_expr :=
  repeat lazymatch goal with
    | |- f6_square ?a ≡₆ _ => change (f6_square a) with (f6_mul a a)
    | |- f6_mul _ _ ≡₆ _ => eapply f6_mul_cong; [based6_expr..|cong6_expr|cong6_expr]
    | |- f6_add _ _ ≡₆ _ => eapply f6_add_cong; [based6_expr..|cong6_expr|cong6_expr]
    | |- f6_sub _ _ ≡₆ _ => eapply f6_sub_cong; [based6_expr..|cong6_expr|cong6_expr]
    | |- f6_neg _ ≡₆ _ => eapply f6_neg_cong; [based6_expr..|cong6_expr]
    | |- f6_scal _ _ ≡₆ _ => eapply f6_scal_cong; [by belt_nums|based6_expr|cong6_expr]
    | |- _ ≡₆ _ => reflexivity
    end.
(** ** Inverses exist *)

Lemma eq6_dec a : a ≡₆ F6_ZERO \/ ~ (a ≡₆ F6_ZERO).
Proof.
  unfold eq6; simpl. destruct (cong_0_dec (g0 a)), (cong_0_dec (g1 a)), (cong_0_dec (g2 a)),
    (cong_0_dec (g3 a)), (cong_0_dec (g4 a)), (cong_0_dec (g5 a)); tauto.
Qed.

(** The coordinates over the quadratic field, the adjoint of the cubic step, and the
    inverse of the norm *)
Definition of_k2 (A B C : K2) : F6lt := mkF6 (k0 A) (k0 B) (k0 C) (k1 A) (k1 B) (k1 C).
Definition adj3 (A B C : K2) : F6lt :=
  of_k2 (ksub (kmul A A) (kmul kw (kmul B C))) (ksub (kmul kw (kmul C C)) (kmul A B))
        (ksub (kmul B B) (kmul A C)).
Lemma adjoint3 A B C : mul6 (of_k2 A B C) (adj3 A B C) ≡₆ of_k2 (norm3 A B C) kO kO.
Proof.
  destruct A, B, C. unfold eq6, mul6, adj3, of_k2, norm3; simpl. split_and!; apply eq_cong; ring.
Qed.
Lemma mul6_k2 n i : mul6 (of_k2 n kO kO) (of_k2 i kO kO) ≡₆ of_k2 (kmul n i) kO kO.
Proof. destruct n, i. unfold eq6, mul6, of_k2; simpl. split_and!; apply eq_cong; ring. Qed.

Lemma inverse6 a : ~ (a ≡₆ F6_ZERO) -> exists b, mul6 a b ≡₆ F6_ONE.
Proof.
  intros Ha. destruct a as [a0 a1 a2 a3 a4 a5].
  set (A := mk2 a0 a3). set (B := mk2 a1 a4). set (C := mk2 a2 a5).
  destruct (k2_dec (norm3 A B C)) as [E|E].
  { exfalso. apply Ha. apply norm3_0 in E as ([E0 E3] & [E1 E4] & [E2 E5]). by split_and!. }
  destruct (k2_inverse _ E) as [i Hi]. exists (mul6 (adj3 A B C) (of_k2 i kO kO)).
  change (mkF6 a0 a1 a2 a3 a4 a5) with (of_k2 A B C).
  transitivity (mul6 (of_k2 (norm3 A B C) kO kO) (of_k2 i kO kO)).
  - rewrite <- adjoint3. ring.
  - rewrite mul6_k2. destruct Hi as [Hi0 Hi1]. unfold eq6, of_k2; simpl in *. by rewrite Hi0, Hi1.
Qed.
Lemma cancel6 a b : mul6 a b ≡₆ F6_ZERO -> ~ (a ≡₆ F6_ZERO) -> b ≡₆ F6_ZERO.
Proof.
  intros E Ha. destruct (inverse6 a Ha) as [i Hi].
  transitivity (mul6 (mul6 a i) b); [rewrite Hi; ring|].
  transitivity (mul6 i (mul6 a b)); [ring|]. rewrite E. ring.
Qed.

(** * [f6_inv] *)

Lemma F6_POLY_facts :
  based_poly F6_POLY /\ is_zero F6_POLY = false /\ degree F6_POLY = 6%nat /\ deg_le F6_POLY 6 /\ coef F6_POLY 6 = 1.
Proof.
  split_and!; [apply based_polyb_ok; reflexivity|reflexivity|reflexivity| |reflexivity].
  intros j Hj. rewrite coef_beyond; [done|simpl; lia].
Qed.

(** The ring product is the product of polynomials modulo [F6_POLY]. *)
Lemma mul6_poly a b :
  exists q, pmul (F6_slice a) (F6_slice b) ≃ padd (F6_slice (mul6 a b)) (pmul F6_POLY q).
Proof.
  destruct a as [a0 a1 a2 a3 a4 a5], b as [b0 b1 b2 b3 b4 b5].
  exists [a1 * b5 + a2 * b4 + a3 * b3 + a4 * b2 + a5 * b1; a2 * b5 + a3 * b4 + a4 * b3 + a5 * b2;
          a3 * b5 + a4 * b4 + a5 * b3; a4 * b5 + a5 * b4; a5 * b5].
  unfold F6_POLY, F6_slice, mul6. cbn [g0 g1 g2 g3 g4 g5].
  assert (Hm : bneg 7 == -7) by cong_compute. set (m7 := bneg 7) in *. clearbody m7.
  intros i. do 13 (destruct i as [|i]; [cbn; rewrite ?Hm; apply eq_cong; ring|]). done.
Qed.
Global Instance F6_slice_proper : Proper (eq6 ==> peq (R := Z)) F6_slice.
Proof. intros a b (?&?&?&?&?&?) j. do 6 (destruct j as [|j]; [done|]). done. Qed.
Lemma F6_slice_inj a b : F6_slice a ≃ F6_slice b -> a ≡₆ b.
Proof. intros E. split_and!; [apply (E 0%nat)|apply (E 1%nat)|apply (E 2%nat)|apply (E 3%nat)|apply (E 4%nat)|apply (E 5%nat)]. Qed.
Lemma F6_ONE_slice : F6_slice F6_ONE ≃ [1].
Proof. intros j. do 7 (destruct j as [|j]; [done|]). done. Qed.

Lemma F6_slice_degree a : (degree (F6_slice a) < 6)%nat.
Proof.
  unfold degree. destruct (rposition _ (F6_slice a)) as [i|] eqn:E; [|lia].
  apply rposition_Some in E as [(x & Hx & _) _]. by apply lookup_lt_Some in Hx.
Qed.

(** A common divisor of [F6_POLY] and a non-zero element is a constant. *)
Lemma gcd6_constant a d s t :
  ~ (a ≡₆ F6_ZERO) -> F6_slice a ≃ pmul s d -> F6_POLY ≃ pmul t d -> d ≃ [coef d 0] /\ ~ (coef d 0 == 0).
Proof.
  intros Ha Hs Ht. destruct (inverse6 a Ha) as [b Hb]. destruct (mul6_poly a b) as [q Hq].
  rewrite Hb, F6_ONE_slice, Hs, Ht in Hq.
  assert (E : [1] ≃ pmul (psub (pmul s (F6_slice b)) (pmul t q)) d).
  { transitivity (psub (padd [1] (pmul (pmul t d) q)) (pmul (pmul t d) q)); [ring|].
    rewrite <- Hq. ring. }
  destruct (degree_sum [1] 0 (deg_le_nil (R := Z) 1)) with (2 := E) as (i & j & Hij & _ & _ & Hd & Hd0).
  { intros E1. apply cong_iff in E1. by vm_compute in E1. }
  assert (j = 0)%nat as -> by lia. split; [|done].
  intros [|j]; [done|]. rewrite coef_cons_S, coef_nil. apply Hd. lia.
Qed.

Lemma f6_inv_inverse a :
  based6 a -> a <> F6_ZERO -> exists r, f6_inv a = Ok r /\ based6 r /\ mul6 a r ≡₆ F6_ONE.
Proof.
  intros Ha Hnz. assert (Hnz' : ~ (a ≡₆ F6_ZERO)) by (intros E; apply Hnz, eq6_eq; auto using based6_0).
  destruct F6_POLY_facts as (HP & HPz & HP6 & HPd & HP1). pose proof (F6_slice_degree a) as Hda.
  assert (Hz : is_zero (F6_slice a) = false).
  { destruct (is_zero (F6_slice a)) eqn:E; [|done]. exfalso. apply is_zero_spec in E; [|done].
    apply Hnz', F6_slice_inj. rewrite E. intros j. do 6 (destruct j as [|j]; [done|]). by destruct j. }
  destruct (bpegcd_smaller (F6_slice a) F6_POLY (replicate 7 0) (replicate 7 0) (replicate 6 0))
    as (d & u & v & E & Hd & Hu & Hlu & Hc & [s Hs] & [t Ht] & Htop);
    [done|done|by rewrite HP6|simpl; lia..|].
  rewrite HP6 in Htop. destruct (gcd6_constant a d s t Hnz' Hs Ht) as [Hd0 Hdn].
  assert (Hg : vget d 0 = Some (coef d 0)).
  { apply vget_coef. destruct d; [|simpl; lia]. exfalso. apply Hdn. by rewrite coef_nil. }
  unfold f6_inv. rewrite decide_False by done. rewrite E. cbn [mbind option_bind].
  rewrite Hg. cbn [mbind option_bind].
  destruct u as [|u0 [|u1 [|u2 [|u3 [|u4 [|u5 [|u6 [|]]]]]]]]; try done. clear Hlu.
  specialize (Htop 6%nat (le_n _)). change (u6 == 0) in Htop.
  unfold bpscal. cbn [zip_map F6_try_from or_crash replicate].
  set (c := binv (coef d 0)). assert (Hbc : based c) by (apply binv_based, based_coef, Hd).
  apply list.Forall_cons in Hu as [? Hu]. apply list.Forall_cons in Hu as [? Hu].
  apply list.Forall_cons in Hu as [? Hu]. apply list.Forall_cons in Hu as [? Hu].
  apply list.Forall_cons in Hu as [? Hu]. apply list.Forall_cons in Hu as [? Hu].
  eexists. split; [reflexivity|]. split; [apply based6_all; cbn [g0 g1 g2 g3 g4 g5]; split_and!; based_expr|].
  set (r := mkF6 _ _ _ _ _ _).
  assert (Er : F6_slice r ≃ pscale c [u0; u1; u2; u3; u4; u5; u6]).
  { intros j. do 6 (destruct j as [|j]; [by apply bmul_cong|]). destruct j as [|j]; [|by destruct j].
    change (0 == c * u6). by rewrite Htop, Z.mul_0_r. }
  destruct (mul6_poly a r) as [q Hq]. rewrite Er in Hq. apply F6_slice_inj. rewrite F6_ONE_slice.
  refine (bezout_inverse F6_POLY 6 c (coef d 0) v _ q _ _ HPd HP1 _ _ _ _ Hq); [lia|done|..].
  - unfold c. rewrite Z.mul_comm, <- bmul_cong by auto with nock. rewrite binv_correct; [done|auto with nock|].
    intros Ez. apply Hdn. by rewrite Ez.
  - rewrite <- Hd0, Hc. ring.
Qed.

(** * Property *)

(** An identity of the word operations follows from one of the ring. *)
Ltac f6_law :=
  apply eq6_eq; [based6_expr..|];
  etransitivity; [cong6_expr|]; symmetry; etransitivity; [cong6_expr|]; ring.

(** C20: On elements with words below [PRIME], [f6_mul] is multiplication modulo
    [x^6 - 7]; with [f6_add] it is commutative, associative and distributive, has the
    unit [F6_ONE] and no zero divisors; [f6_inv] returns the inverse of every element
    but zero, without a panic, and an error for zero. *)
Theorem f6_field a b c :
  based6 a -> based6 b -> based6 c ->
  based6 (f6_mul a b) /\
  (exists q, pmul (F6_slice a) (F6_slice b) ≃ padd (F6_slice (f6_mul a b)) (pmul F6_POLY q)) /\
  f6_mul a b = f6_mul b a /\ f6_mul a (f6_mul b c) = f6_mul (f6_mul a b) c /\
  f6_mul a (f6_add b c) = f6_add (f6_mul a b) (f6_mul a c) /\ f6_mul F6_ONE a = a /\
  f6_add a (f6_neg a) = F6_ZERO /\
  (f6_mul a b = F6_ZERO -> a = F6_ZERO \/ b = F6_ZERO) /\
  f6_inv F6_ZERO = Err (JetFail BAIL_FAIL) /\
  (a = F6_ZERO \/ exists r, f6_inv a = Ok r /\ based6 r /\ f6_mul a r = F6_ONE).
Proof.
  intros Ha Hb Hc. destruct (f6_mul_ok a b Ha Hb) as [Hab Eab].
  split_and!; [done| |f6_law|f6_law|f6_law|f6_law|f6_law| |done|].
  - destruct (mul6_poly a b) as [q Hq]. exists q. by rewrite Eab.
  - intros E0. rewrite E0 in Eab. destruct (eq6_dec a) as [Ea|Ea]; [left|right];
      apply eq6_eq; auto using based6_0. symmetry in Eab. by apply (cancel6 a).
  - destruct (decide (a = F6_ZERO)) as [|Hn]; [by left|right].
    destruct (f6_inv_inverse a Ha Hn) as (r & Er & Hr & E). exists r. split_and!; [done|done|].
    apply eq6_eq; [based6_expr..|]. etransitivity; [cong6_expr|done].
Qed.

Lemma f6_field_witness :
  based6 (mkF6 1 1 1 1 1 1) /\ exists r, f6_inv (mkF6 1 1 1 1 1 1) = Ok r /\ f6_mul (mkF6 1 1 1 1 1 1) r = F6_ONE.
Proof.
  assert (Ha : based6 (mkF6 1 1 1 1 1 1)) by (apply based_polyb_ok; reflexivity).
  split; [exact Ha|].
  destruct (f6_field _ _ _ Ha Ha Ha) as (_ & _ & _ & _ & _ & _ & _ & _ & _ & [E|(r & H1 & _ & H2)]); [discriminate E|].
  exists r. split; [exact H1|exact H2].
Defined.
