(* ===== verification/CheetahTheorems.v ===== *)
(** The cheetah curve is closed under addition and scaling, and what reading a
    public key from a string does: crates/nockchain-math/src/crypto/cheetah.rs. *)
From stdpp Require Import base option list numbers strings.
From Stdlib Require Import ZArith Lia Ring.
From S2P Require Import Prelude Noun Interp Belt Vec Poly BPoly Felt Tip5 NounHash NounSerde NounSerdeTheorems Base58 Cheetah CheetahField.
Local Open Scope Z_scope.
Local Open Scope nock_scope.

(** * Points *)

Definition cube6 (x : F6lt) : F6lt := mul6 x (mul6 x x).
(** [y^2 = x^3 + x + b] *)
Definition equation (b x y : F6lt) : Prop := mul6 y y ≡₆ add6 (add6 (cube6 x) x) b.
Definition based_point (p : CheetahPoint) : Prop := based6 (px p) /\ based6 (py p).
(** A point of the curve with constant [b]; the point at infinity is [A_ID]. *)
Definition on_curve (b : F6lt) (p : CheetahPoint) : Prop :=
  based_point p /\ if inf p then p = A_ID else equation b (px p) (py p).

(** Every affine point lies on one of these curves. *)
Lemma point_curve p : based_point p -> inf p = false ->
  exists b, on_curve b p.
Proof.
  intros Hp Hi. exists (sub6 (mul6 (py p) (py p)) (add6 (cube6 (px p)) (px p))). split; [done|].
  rewrite Hi. unfold equation. ring.
Qed.
Lemma A_ID_curve b : on_curve b A_ID.
Proof. split; [split; [apply based6_0|apply based6_1]|done]. Qed.

Definition two6 : F6lt := const6 2.
Definition three6 : F6lt := const6 3.
Lemma two6_plus : two6 ≡₆ add6 F6_ONE F6_ONE.
Proof. done. Qed.
Lemma three6_plus : three6 ≡₆ add6 F6_ONE (add6 F6_ONE F6_ONE).
Proof. done. Qed.
Lemma two6_nonzero : ~ (two6 ≡₆ F6_ZERO).
Proof. intros (E & _). apply cong_iff in E. by vm_compute in E. Qed.

(** ** The tangent and the chord meet the curve again *)

Section line.
Context (b x y s : F6lt).

(** The line of slope [s] through [(x, y)], at [u] from [x] *)
Lemma line_at u :
  sub6 (add6 (add6 (cube6 (add6 x u)) (add6 x u)) b) (mul6 (add6 (mul6 s u) y) (add6 (mul6 s u) y)) ≡₆
  add6 (sub6 (add6 (add6 (cube6 x) x) b) (mul6 y y))
    (mul6 u (add6 (sub6 (add6 (mul6 three6 (mul6 x x)) F6_ONE) (mul6 two6 (mul6 s y)))
                  (mul6 u (add6 (sub6 (mul6 three6 x) (mul6 s s)) u)))).
Proof. rewrite two6_plus, three6_plus. unfold cube6. ring. Qed.
End line.

Lemma equation_sub b x y : equation b x y <-> sub6 (add6 (add6 (cube6 x) x) b) (mul6 y y) ≡₆ F6_ZERO.
Proof.
  unfold equation. split; intros E.
  - rewrite E. ring.
  - transitivity (sub6 (add6 (add6 (cube6 x) x) b) (sub6 (add6 (add6 (cube6 x) x) b) (mul6 y y))); [ring|].
    rewrite E. ring.
Qed.

Definition gap (x s u : F6lt) : F6lt := add6 (sub6 (mul6 three6 x) (mul6 s s)) u.
Definition tangent (x y s : F6lt) : F6lt :=
  sub6 (add6 (mul6 three6 (mul6 x x)) F6_ONE) (mul6 two6 (mul6 s y)).

(** A point at [u] from [x], reflected from the line, is on the curve when the
    remaining factor vanishes, and a point of the curve on the line makes it vanish. *)
Lemma line_meets b x y s u y' :
  equation b x y -> mul6 y' y' ≡₆ mul6 (add6 (mul6 s u) y) (add6 (mul6 s u) y) ->
  equation b (add6 x u) y' <-> mul6 u (add6 (tangent x y s) (mul6 u (gap x s u))) ≡₆ F6_ZERO.
Proof.
  intros E Ey. pose proof (line_at b x y s u) as Hl. apply equation_sub in E. rewrite E in Hl.
  assert (Hz : forall t, add6 F6_ZERO t ≡₆ t) by (intros; ring).
  by rewrite equation_sub, Ey, Hl, Hz.
Qed.

Lemma equation_proper b x x' y : x ≡₆ x' -> equation b x y -> equation b x' y.
Proof. intros E. unfold equation, cube6. by rewrite E. Qed.

Lemma tangent_point b x y s x' y' :
  equation b x y -> mul6 s (mul6 two6 y) ≡₆ add6 (mul6 three6 (mul6 x x)) F6_ONE ->
  x' ≡₆ sub6 (mul6 s s) (mul6 two6 x) -> y' ≡₆ sub6 (mul6 s (sub6 x x')) y -> equation b x' y'.
Proof.
  intros E Es Ex Ey. assert (Eu : add6 x (sub6 x' x) ≡₆ x') by ring.
  apply (equation_proper b _ x' y' Eu), (line_meets b x y s); [done|rewrite Ey; ring|].
  unfold tangent, gap. rewrite <- Es, Ex, three6_plus, two6_plus. ring.
Qed.

Lemma chord_point b x1 y1 x2 y2 s x' y' :
  equation b x1 y1 -> equation b x2 y2 -> ~ (sub6 x1 x2 ≡₆ F6_ZERO) ->
  mul6 s (sub6 x1 x2) ≡₆ sub6 y1 y2 ->
  x' ≡₆ sub6 (mul6 s s) (add6 x1 x2) -> y' ≡₆ sub6 (mul6 s (sub6 x1 x')) y1 -> equation b x' y'.
Proof.
  intros E1 E2 Hne Es Ex Ey.
  assert (Eu : add6 x1 (sub6 x' x1) ≡₆ x') by ring. assert (Eu2 : x2 ≡₆ add6 x1 (sub6 x2 x1)) by ring.
  assert (Ey2 : y2 ≡₆ add6 (mul6 s (sub6 x2 x1)) y1).
  { transitivity (sub6 y1 (sub6 y1 y2)); [ring|]. rewrite <- Es. ring. }
  apply (equation_proper b _ _ _ Eu2), (line_meets b x1 y1 s) in E2; [|done|by rewrite Ey2].
  apply cancel6 in E2.
  2:{ intros E0. apply Hne. transitivity (opp6 (sub6 x2 x1)); [ring|]. rewrite E0. ring. }
  apply (equation_proper b _ x' y' Eu), (line_meets b x1 y1 s); [done|rewrite Ey; ring|].
  assert (Et : tangent x1 y1 s ≡₆ opp6 (mul6 (sub6 x2 x1) (gap x1 s (sub6 x2 x1)))).
  { transitivity (sub6 (add6 (tangent x1 y1 s) (mul6 (sub6 x2 x1) (gap x1 s (sub6 x2 x1))))
                       (mul6 (sub6 x2 x1) (gap x1 s (sub6 x2 x1)))); [ring|]. rewrite E2. ring. }
  rewrite Et. unfold gap. rewrite Ex, three6_plus. ring.
Qed.

(** * The operations on points *)

Lemma f6_div_ok a b :
  based6 a -> based6 b -> b <> F6_ZERO ->
  exists r, f6_div a b = Ok r /\ based6 r /\ mul6 r b ≡₆ a.
Proof.
  intros Ha Hb Hn. destruct (f6_inv_inverse b Hb Hn) as (i & Ei & Hi & E).
  exists (f6_mul a i). unfold f6_div. rewrite Ei. split_and!; [done|by apply f6_mul_based|].
  rewrite (proj2 (f6_mul_ok a i Ha Hi)). transitivity (mul6 a (mul6 b i)); [ring|]. rewrite E. ring.
Qed.

Lemma double_closed b p : on_curve b p -> exists q, ch_double p = Ok q /\ on_curve b q.
Proof.
  intros [[Hx Hy] Hc]. unfold ch_double. destruct (inf p); [eauto using A_ID_curve|].
  case_decide as Ey; [eauto using A_ID_curve|]. unfold ch_double_unsafe.
  destruct (f6_div_ok (f6_add (f6_scal 3 (f6_square (px p))) F6_ONE) (f6_scal 2 (py p)))
    as (s & -> & Hs & Es); [based6_expr..| |].
  { intros E. apply Ey, eq6_eq; [done|apply based6_0|]. apply (cancel6 two6); [|apply two6_nonzero].
    rewrite <- E. symmetry. cong6_expr. }
  cbn [mbind outcome_bind]. eexists. split; [reflexivity|].
  assert (Ex : f6_sub (f6_square s) (f6_scal 2 (px p)) ≡₆ sub6 (mul6 s s) (mul6 two6 (px p))) by cong6_expr.
  set (x' := f6_sub (f6_square s) (f6_scal 2 (px p))) in *.
  assert (Hx' : based6 x') by (unfold x'; based6_expr). clearbody x'.
  split; [split; simpl; based6_expr|]. simpl.
  apply (tangent_point b (px p) (py p) s); [done| |done|cong6_expr].
  transitivity (mul6 s (f6_scal 2 (py p))); [apply mul6_proper; [done|symmetry; cong6_expr]|].
  rewrite Es. cong6_expr.
Qed.

Lemma square_roots y z : mul6 y y ≡₆ mul6 z z -> y ≡₆ z \/ y ≡₆ opp6 z.
Proof.
  intros E. destruct (eq6_dec (sub6 y z)) as [Ed|Ed].
  - left. transitivity (add6 (sub6 y z) z); [ring|]. rewrite Ed. ring.
  - right. transitivity (sub6 (add6 y z) z); [ring|]. rewrite (cancel6 (sub6 y z) (add6 y z)); [ring| |done].
    transitivity (sub6 (mul6 y y) (mul6 z z)); [ring|]. rewrite E. ring.
Qed.

(** Two points that are neither equal nor opposite have different abscissas. *)
Lemma chord_exists b p q :
  on_curve b p -> on_curve b q -> inf p = false -> inf q = false -> p <> ch_neg q -> p <> q ->
  ~ (sub6 (px p) (px q) ≡₆ F6_ZERO).
Proof.
  intros [[Hxp Hyp] Hp] [[Hxq Hyq] Hq] Ip Iq Hneg Hne E. rewrite Ip in Hp. rewrite Iq in Hq.
  assert (Ex : px p ≡₆ px q) by (transitivity (add6 (sub6 (px p) (px q)) (px q)); [ring|rewrite E; ring]).
  destruct (square_roots (py p) (py q)) as [Ey|Ey].
  { unfold equation, cube6 in Hp, Hq. rewrite Hp, Hq, Ex. done. }
  - apply Hne. destruct p, q; simpl in *. f_equal; [by apply eq6_eq..|congruence].
  - apply Hneg. destruct p, q; simpl in *. unfold ch_neg; simpl.
    f_equal; [by apply eq6_eq| |congruence]. apply eq6_eq; [done|by apply f6_neg_based|].
    rewrite Ey. symmetry. cong6_expr.
Qed.

Lemma add_unsafe_value b p q :
  on_curve b p -> on_curve b q -> inf p = false -> inf q = false -> p <> ch_neg q -> p <> q ->
  exists r s, ch_add_unsafe p q = Ok r /\ on_curve b r /\ inf r = false /\
    mul6 s (sub6 (px p) (px q)) ≡₆ sub6 (py p) (py q) /\
    px r ≡₆ sub6 (mul6 s s) (add6 (px p) (px q)) /\ py r ≡₆ sub6 (mul6 s (sub6 (px p) (px r))) (py p).
Proof.
  intros Hp Hq Ip Iq Hneg Hne. pose proof (chord_exists b p q Hp Hq Ip Iq Hneg Hne) as Hx.
  destruct Hp as [[Hxp Hyp] Hp], Hq as [[Hxq Hyq] Hq]. rewrite Ip in Hp. rewrite Iq in Hq.
  unfold ch_add_unsafe.
  destruct (f6_div_ok (f6_sub (py p) (py q)) (f6_sub (px p) (px q))) as (s & -> & Hs & Es); [based6_expr..| |].
  { intros E. apply Hx. rewrite <- E. symmetry. cong6_expr. }
  assert (Es' : mul6 s (sub6 (px p) (px q)) ≡₆ sub6 (py p) (py q)).
  { transitivity (mul6 s (f6_sub (px p) (px q))); [apply mul6_proper; [done|symmetry; cong6_expr]|].
    rewrite Es. cong6_expr. }
  cbn [mbind outcome_bind]. eexists _, s. split; [reflexivity|]. simpl.
  assert (Ex : f6_sub (f6_square s) (f6_add (px p) (px q)) ≡₆ sub6 (mul6 s s) (add6 (px p) (px q))) by cong6_expr.
  set (x' := f6_sub (f6_square s) (f6_add (px p) (px q))) in *.
  assert (Hx' : based6 x') by (unfold x'; based6_expr). clearbody x'.
  assert (Ey : f6_sub (f6_mul s (f6_sub (px p) x')) (py p) ≡₆ sub6 (mul6 s (sub6 (px p) x')) (py p)) by cong6_expr.
  split_and!; try done. split; [split; simpl; based6_expr|]. simpl.
  by apply (chord_point b (px p) (py p) (px q) (py q) s).
Qed.

Lemma neg_curve b p : on_curve b p -> inf p = false -> on_curve b (ch_neg p).
Proof.
  intros [[Hx Hy] Hc] Hi. rewrite Hi in Hc. split; [split; simpl; based6_expr|].
  unfold ch_neg; simpl. rewrite Hi. unfold equation in *. rewrite <- Hc.
  transitivity (mul6 (opp6 (py p)) (opp6 (py p))); [|ring]. apply mul6_proper; cong6_expr.
Qed.
Lemma neg_neg p : based_point p -> ch_neg (ch_neg p) = p.
Proof.
  intros [Hx Hy]. destruct p as [x y i]. unfold ch_neg; simpl in *. f_equal.
  apply eq6_eq; [based6_expr..|]. etransitivity; [cong6_expr|]. ring.
Qed.

Lemma add_closed b p q : on_curve b p -> on_curve b q -> exists r, ch_add p q = Ok r /\ on_curve b r.
Proof.
  intros Hp Hq. unfold ch_add. destruct (inf p) eqn:Ip; [eauto|]. destruct (inf q) eqn:Iq; [eauto|].
  case_decide; [eauto using A_ID_curve|]. case_decide; [by apply double_closed|].
  destruct (add_unsafe_value b p q) as (r & s & -> & Hr & _); eauto.
Qed.

(** The chord does not depend on the order of its points. *)
Lemma add_unsafe_comm b p q :
  on_curve b p -> on_curve b q -> inf p = false -> inf q = false -> p <> ch_neg q -> q <> ch_neg p -> p <> q ->
  ch_add_unsafe p q = ch_add_unsafe q p.
Proof.
  intros Hp Hq Ip Iq Hn Hn' Hne. pose proof (chord_exists b p q Hp Hq Ip Iq Hn Hne) as Hx.
  destruct (add_unsafe_value b p q) as (r & s & -> & [[Hrx Hry] _] & Ir & Es & Ex & Ey); try done.
  destruct (add_unsafe_value b q p) as (r' & s' & -> & [[Hrx' Hry'] _] & Ir' & Es' & Ex' & Ey'); try done.
  assert (E : s ≡₆ s').
  { transitivity (add6 (sub6 s s') s'); [ring|].
    rewrite (cancel6 (sub6 (px p) (px q)) (sub6 s s')); [ring| |done].
    transitivity (add6 (mul6 s (sub6 (px p) (px q))) (mul6 s' (sub6 (px q) (px p)))); [ring|].
    rewrite Es, Es'. ring. }
  rewrite <- E in Es', Ex', Ey'.
  assert (Er : px r ≡₆ px r') by (rewrite Ex, Ex'; ring).
  assert (Ey2 : py r ≡₆ py r').
  { rewrite Ey, Ey', Er. transitivity (sub6 (sub6 (mul6 s (sub6 (px q) (px r'))) (py q))
      (sub6 (sub6 (py p) (py q)) (mul6 s (sub6 (px p) (px q))))); [ring|]. rewrite Es. ring. }
  destruct r as [rx ry ri], r' as [rx' ry' ri']; simpl in *. subst ri ri'. do 2 f_equal; by apply eq6_eq.
Qed.

Lemma add_comm b p q : on_curve b p -> on_curve b q -> ch_add p q = ch_add q p.
Proof.
  intros Hp Hq. unfold ch_add. destruct (inf p) eqn:Ip, (inf q) eqn:Iq; try done.
  { destruct Hp as [_ Hp], Hq as [_ Hq]. rewrite Ip in Hp. rewrite Iq in Hq. congruence. }
  destruct (decide (p = ch_neg q)) as [E|E].
  { rewrite decide_True; [done|]. rewrite E. symmetry. apply neg_neg, Hq. }
  destruct (decide (q = ch_neg p)) as [E'|E'].
  { exfalso. apply E. rewrite E'. symmetry. apply neg_neg, Hp. }
  destruct (decide (p = q)) as [->|Hne]; [by rewrite decide_True|].
  rewrite decide_False by congruence. by apply (add_unsafe_comm b).
Qed.

Lemma add_self b p : on_curve b p -> ch_add p p = ch_double p.
Proof.
  intros [[Hx Hy] Hc]. unfold ch_add. destruct (inf p) eqn:Hi.
  { unfold ch_double. by rewrite Hi, Hc. }
  rewrite (decide_True (P := p = p)) by done. case_decide as E; [|done].
  unfold ch_double. rewrite Hi, decide_True; [done|].
  apply eq6_eq; [done|apply based6_0|]. apply (cancel6 two6); [|apply two6_nonzero].
  assert (Ey : py p ≡₆ opp6 (py p)) by (transitivity (f6_neg (py p)); [by rewrite E at 1|cong6_expr]).
  rewrite two6_plus. transitivity (add6 (py p) (py p)); [ring|]. rewrite Ey at 2. ring.
Qed.

(** * Scaling *)

Lemma scal_closed b fuel n p acc :
  on_curve b p -> on_curve b acc -> exists r, scal_loop fuel n p acc = Ok r /\ on_curve b r.
Proof.
  revert n p acc. induction fuel as [|fuel IH]; intros n p acc Hp Ha; cbn [scal_loop]; [eauto|].
  destruct (0 <? n); [|eauto].
  assert (exists acc', (if Z.testbit n 0 then ch_add acc p else Ok acc) = Ok acc' /\ on_curve b acc') as (acc' & -> & Ha').
  { destruct (Z.testbit n 0); [by apply add_closed|eauto]. }
  cbn [mbind outcome_bind]. destruct (double_closed b p Hp) as (q & -> & Hq). cbn [mbind outcome_bind]. by apply IH.
Qed.

(** The loop ends by itself: rounds beyond the bits of the number change nothing. *)
Lemma scal_rounds k k' n p acc :
  n < 2 ^ Z.of_nat k -> n < 2 ^ Z.of_nat k' -> scal_loop k n p acc = scal_loop k' n p acc.
Proof.
  revert k' n p acc. induction k as [|k IH]; intros k' n p acc Hk Hk'.
  { simpl in Hk. destruct k'; simpl; [done|]. destruct (Z.ltb_spec 0 n); [lia|done]. }
  destruct k' as [|k']; cbn [scal_loop].
  { simpl in Hk'. destruct (Z.ltb_spec 0 n); [lia|done]. }
  rewrite Nat2Z.inj_succ, Z.pow_succ_r in Hk, Hk' by lia.
  destruct (Z.ltb_spec 0 n); [|done].
  destruct (if Z.testbit n 0 then ch_add acc p else Ok acc); cbn [mbind outcome_bind]; [|done..].
  destruct (ch_double p); cbn [mbind outcome_bind]; [|done..].
  assert (Z.shiftr n 1 * 2 <= n) by (rewrite Z.shiftr_div_pow2 by lia; change (2 ^ 1) with 2; pose proof (Z.mul_div_le n 2); lia).
  apply IH; lia.
Qed.
Lemma scal_big_rounds k n p : n < 2 ^ Z.of_nat k -> scal_loop k n p A_ID = ch_scal_big n p.
Proof.
  intros Hk. apply scal_rounds; [done|]. rewrite Nat2Z.inj_succ, Z2Nat.id by apply Z.log2_nonneg.
  destruct (Z.lt_ge_cases 0 n) as [Hn|Hn]; [by apply Z.log2_spec|].
  apply Z.le_lt_trans with 0; [done|]. apply Z.pow_pos_nonneg; [lia|]. pose proof (Z.log2_nonneg n). lia.
Qed.

Lemma in_curve_total b p : on_curve b p -> exists r, in_curve p = Ok r.
Proof.
  intros Hp. unfold in_curve. case_decide; [eauto|].
  destruct (scal_closed b (S (Z.to_nat (Z.log2 G_ORDER))) G_ORDER p A_ID) as (r & E & _); [done|apply A_ID_curve|].
  unfold ch_scal_big. rewrite E. eauto.
Qed.

(** * Public keys *)

Lemma chunks8_words ws :
  Forall is_u64 ws -> chunks8 (length ws) (mjoin (belt_be_bytes <$> ws)) = ws /\
  Forall byte (mjoin (belt_be_bytes <$> ws)) /\ length (mjoin (belt_be_bytes <$> ws)) = (8 * length ws)%nat.
Proof.
  induction 1 as [|w ws Hw Hws (IH & Hb & Hl)]; [done|].
  change (mjoin (belt_be_bytes <$> (w :: ws))) with (belt_be_bytes w ++ mjoin (belt_be_bytes <$> ws)).
  assert (Hlen : length (belt_be_bytes w) = 8%nat) by (unfold belt_be_bytes; by rewrite length_reverse, length_to_le_bytes).
  cbn [length chunks8]. rewrite take_app_length', drop_app_length', IH by done. split_and!.
  - unfold belt_be_bytes. by rewrite reverse_involutive, from_to_le_bytes.
  - apply Forall_app; split; [|done]. apply Forall_reverse, to_le_bytes_byte.
  - rewrite length_app, Hlen, Hl. lia.
Qed.

Definition point_words (p : CheetahPoint) : list Z := reverse (F6_slice (py p)) ++ reverse (F6_slice (px p)).
Definition key_bytes (c : Z) (p : CheetahPoint) : list Z := c :: mjoin (belt_be_bytes <$> point_words p).

(** Any leading byte is accepted. *)
Lemma from_base58_key `{Bs58Laws} c p :
  byte c -> Forall is_u64 (F6_slice (px p)) -> Forall is_u64 (F6_slice (py p)) -> inf p = false ->
  from_base58 (bs58_encode (key_bytes c p)) =
    match in_curve p with Ok true => Ok p | Ok false => Err NotOnCurve | _ => Panic end.
Proof.
  intros Hc Hx Hy Hi. destruct (chunks8_words (point_words p)) as (E & Hb & Hl).
  { apply Forall_app; split; by apply Forall_reverse. }
  change (length (point_words p)) with 12%nat in *. unfold from_base58.
  rewrite bs58_roundtrip by (by constructor).
  change (length (key_bytes c p)) with (S (length (mjoin (belt_be_bytes <$> point_words p)))). rewrite Hl.
  change (negb (S (8 * 12) =? BYTES)%nat) with false.
  change (drop 1 (key_bytes c p)) with (mjoin (belt_be_bytes <$> point_words p)). cbv iota zeta. rewrite E. unfold point_words. rewrite reverse_app, !reverse_involutive.
  destruct p as [[] [] i]; simpl in Hi; subst i. reflexivity.
Qed.

Lemma double_word_zero w : w = 0 \/ w = PRIME -> bmul w 2 = 0.
Proof. intros [->| ->]; vm_compute; reflexivity. Qed.

(** A second coordinate that is zero only modulo [PRIME] is not recognised as zero. *)
Lemma unbased_zero_panics p :
  Forall (fun w => w = 0 \/ w = PRIME) (F6_slice (py p)) -> py p <> F6_ZERO -> inf p = false -> in_curve p = Panic.
Proof.
  intros Hw Hn Hi. unfold in_curve. rewrite decide_False by (intros ->; done).
  assert (E : ch_double p = Err (JetFail BAIL_FAIL)).
  { unfold ch_double. rewrite Hi, decide_False by done. unfold ch_double_unsafe, f6_div.
    replace (f6_scal 2 (py p)) with F6_ZERO; [reflexivity|]. destruct (py p) as [y0 y1 y2 y3 y4 y5].
    unfold F6_slice in Hw. cbn [g0 g1 g2 g3 g4 g5] in Hw. rewrite !list.Forall_cons in Hw.
    destruct Hw as (H1 & H2 & H3 & H4 & H5 & H6 & _). unfold f6_scal, f6_map. cbn [g0 g1 g2 g3 g4 g5].
    by rewrite !double_word_zero. }
  unfold ch_scal_big. cbn [scal_loop]. replace (0 <? G_ORDER) with true by reflexivity.
  replace (Z.testbit G_ORDER 0) with true by reflexivity.
  change (ch_add A_ID p) with (Ok (E := JetErr) p). cbn [mbind outcome_bind]. by rewrite E.
Qed.

(** * Properties *)

(** C10: On each curve [y^2 = x^3 + x + b] the formulas for points with words below
    [PRIME] are total and closed: sum, double and multiples return a point of the
    same curve and no division fails.  The sum is commutative, has [A_ID] as unit and
    [ch_neg] as inverse, agrees with [ch_double] on equal points; and the two scalar
    multiplications agree, with no round after the last bit.  So every affine point
    passes [in_curve] without a panic. *)
Theorem cheetah_group b p q n :
  on_curve b p -> on_curve b q ->
  (exists r, ch_add p q = Ok r /\ on_curve b r) /\ ch_add p q = ch_add q p /\
  ch_add A_ID p = Ok p /\ ch_add p A_ID = Ok p /\
  (inf p = false -> on_curve b (ch_neg p) /\ ch_add p (ch_neg p) = Ok A_ID) /\
  ch_add p p = ch_double p /\
  (exists r, ch_scal_big n p = Ok r /\ on_curve b r) /\ (n < U64 -> ch_scal n p = ch_scal_big n p) /\
  exists r, in_curve p = Ok r.
Proof.
  intros Hp Hq. split_and!.
  - by apply add_closed.
  - by apply (add_comm b).
  - done.
  - unfold ch_add. destruct (inf p) eqn:Hi; [|done]. destruct Hp as [_ Hc]. rewrite Hi in Hc. by rewrite Hc.
  - intros Hi. split; [by apply neg_curve|]. unfold ch_add. simpl inf. rewrite Hi.
    rewrite decide_True; [done|]. symmetry. apply neg_neg, Hp.
  - by apply (add_self b).
  - apply scal_closed; [done|apply A_ID_curve].
  - intros Hn. apply scal_big_rounds. exact Hn.
  - by apply (in_curve_total b).
Qed.

Lemma A_GEN_based : based_point A_GEN.
Proof. split; apply based_polyb_ok; reflexivity. Qed.

Lemma cheetah_group_witness :
  exists b, on_curve b A_GEN /\ ch_add A_GEN (ch_neg A_GEN) = Ok A_ID /\ ch_scal 3 A_GEN = ch_scal_big 3 A_GEN.
Proof.
  destruct (point_curve A_GEN A_GEN_based eq_refl) as [b Hb]. exists b.
  destruct (cheetah_group b A_GEN A_GEN 3 Hb Hb) as (_ & _ & _ & _ & Hn & _ & _ & Hs & _).
  split; [exact Hb|]. split; [exact (proj2 (Hn eq_refl))|apply Hs; unfold U64; lia].
Defined.

(** C6: Reading a key back.  The string of an affine point with words below [PRIME],
    with any byte in place of the leading one, gives the point or [NotOnCurve] and
    never a panic; but nothing checks that the words are below [PRIME], and a string
    whose second coordinate is made of words 0 and [PRIME], not all 0, makes the
    [unwrap] of [in_curve] panic. *)
Theorem cheetah_from_base58 `{Bs58Laws} c p :
  byte c -> Forall is_u64 (F6_slice (px p)) -> Forall is_u64 (F6_slice (py p)) -> inf p = false ->
  into_base58 p = Ok (bs58_encode (key_bytes 1 p)) /\
  (based_point p -> exists valid, in_curve p = Ok valid /\
    from_base58 (bs58_encode (key_bytes c p)) = if valid : bool then Ok p else Err NotOnCurve) /\
  (Forall (fun w => w = 0 \/ w = PRIME) (F6_slice (py p)) -> py p <> F6_ZERO ->
    from_base58 (bs58_encode (key_bytes c p)) = Panic).
Proof.
  intros Hc Hx Hy Hi. rewrite from_base58_key by done. split_and!.
  - unfold into_base58. by rewrite Hi.
  - intros Hp. destruct (point_curve p Hp Hi) as [b Hb]. destruct (in_curve_total b p Hb) as [r Hr].
    exists r. rewrite Hr. split; [done|]. by destruct r.
  - intros Hw Hn. by rewrite unbased_zero_panics.
Qed.

Lemma cheetah_from_base58_witness :
  from_base58 (bs58_encode (key_bytes 1 (mkPoint F6_ONE (mkF6 PRIME 0 0 0 0 0) false))) = Panic.
Proof.
  apply (cheetah_from_base58 1 (mkPoint F6_ONE (mkF6 PRIME 0 0 0 0 0) false)).
  - split; reflexivity || discriminate.
  - repeat constructor; vm_compute; congruence.
  - repeat constructor; vm_compute; congruence.
  - reflexivity.
  - repeat (apply Forall_cons_2; [auto|]). apply Forall_nil_2.
  - discriminate.
Defined.
