(* ===== verification/NockStack.v ===== *)
(** The NockStack of [nockvm/src/mem.rs]: one region of words in which frames grow
    from both ends towards each other, with a lightweight stack in each frame.

    Pointers are word addresses; the code stores them in memory as byte addresses,
    here [bytes p].  The memory is the record field [mem]; it holds the words of the
    arena of the stack and of the persistent arena, so that nouns can point to either.
    An access outside the arenas, undefined behaviour in the code, is the error
    [Wild]; a panic that carries an [AllocationError] is an error too, and other
    panics are [Panic].  Offsets are [usize] and wrap. *)
From stdpp Require Import base option list numbers gmap.
From Stdlib Require Import ZArith Lia.
From S2P Require Import Prelude.

Record Arena := { base : Z; words : Z }.

Definition RESERVED : Z := 3.
Definition FRAME : Z := 0.
Definition STACK : Z := 1.
Definition ALLOC : Z := 2.

Inductive ArenaOrientation := West | East.
Inductive AllocationType := Alloc | Push | FramePush | SlotPointer | AllocPreviousFrame | FlipTopFrame.
Record Allocation := { orientation : ArenaOrientation; alloc_type : AllocationType; alloc_pc : bool }.
Inductive Direction := Increasing | Decreasing | IncreasingDeref.

Record MemoryState := {
  intended_alloc_words : option Z;
  ms_frame_offset : Z; ms_stack_offset : Z; ms_alloc_offset : Z;
  prev_stack_pointer : Z; prev_alloc_pointer : Z; ms_pc : bool }.
Inductive AllocationError :=
  | OutOfMemory (state : MemoryState) (alloc : Allocation)
  | CannotAllocateInPreCopy (state : MemoryState).
Inductive NewStackError := StackTooSmall.

Inductive fault := AllocationFault (e : AllocationError) | Wild (address : Z).

Record NockStack := {
  start : Z; size : Z;
  frame_offset : Z; stack_offset : Z; alloc_offset : Z;
  least_space : Z;
  pma : option Arena;
  stack_epoch : Z;
  pc : bool;
  mem : gmap Z Z }.

Definition set_offsets (f s a : Z) (p : bool) (st : NockStack) : NockStack :=
  {| start := start st; size := size st; frame_offset := f; stack_offset := s; alloc_offset := a;
     least_space := least_space st; pma := pma st; stack_epoch := stack_epoch st; pc := p; mem := mem st |}.
Definition set_stack_offset (s : Z) (st : NockStack) : NockStack :=
  set_offsets (frame_offset st) s (alloc_offset st) (pc st) st.
Definition set_alloc_offset (a : Z) (st : NockStack) : NockStack :=
  set_offsets (frame_offset st) (stack_offset st) a (pc st) st.
Definition set_least_space (n : Z) (st : NockStack) : NockStack :=
  {| start := start st; size := size st; frame_offset := frame_offset st; stack_offset := stack_offset st;
     alloc_offset := alloc_offset st; least_space := n; pma := pma st; stack_epoch := stack_epoch st;
     pc := pc st; mem := mem st |}.
Definition set_epoch (n : Z) (st : NockStack) : NockStack :=
  {| start := start st; size := size st; frame_offset := frame_offset st; stack_offset := stack_offset st;
     alloc_offset := alloc_offset st; least_space := least_space st; pma := pma st; stack_epoch := n;
     pc := pc st; mem := mem st |}.
Definition set_mem (m : gmap Z Z) (st : NockStack) : NockStack :=
  {| start := start st; size := size st; frame_offset := frame_offset st; stack_offset := stack_offset st;
     alloc_offset := alloc_offset st; least_space := least_space st; pma := pma st; stack_epoch := stack_epoch st;
     pc := pc st; mem := m |}.

(** * Computations on the stack *)

Definition M (A : Type) : Type := NockStack -> outcome fault (A * NockStack).
Global Instance M_ret : MRet M := fun A a st => Ok (a, st).
Global Instance M_bind : MBind M := fun A B f m st => match m st with Ok (a, st) => f a st | Err e => Err e | Panic => Panic end.
Definition get : M NockStack := fun st => Ok (st, st).
Definition modify (f : NockStack -> NockStack) : M unit := fun st => Ok (tt, f st).
Definition panic {A} : M A := fun _ => Panic.
Definition throw {A} (e : fault) : M A := fun _ => Err e.
Definition assert (b : bool) : M unit := if b then mret tt else panic.

Definition in_arena (a : Arena) (p : Z) : bool := (base a <=? p) && (p <? base a + words a).
Definition in_stack (st : NockStack) (p : Z) : bool := (start st <=? p) && (p <? start st + size st).
Definition readable (st : NockStack) (p : Z) : bool :=
  in_stack st p || match pma st with Some a => in_arena a p | None => false end.
Definition word_at (st : NockStack) (p : Z) : Z := default 0 (mem st !! p).

Definition read (p : Z) : M Z := st ← get; if readable st p then mret (word_at st p) else throw (Wild p).
Definition write (p v : Z) : M unit :=
  st ← get; if in_stack st p then modify (set_mem (<[p := v]> (mem st))) else throw (Wild p).

(** Byte address of a word address, and the offset of a byte address *)
Definition bytes (p : Z) : Z := wrap64 (8 * p).
Definition offset_of (st : NockStack) (ptr : Z) : Z := wrapping_sub64 ptr (bytes (start st)) / 8.

(** * Pointers and slots *)

Definition derive_ptr (st : NockStack) (offset : Z) : Z := start st + offset.
Definition is_west (st : NockStack) : bool := stack_offset st <? alloc_offset st.

Definition slot_offset_east (st : NockStack) (slot : Z) : Z := wrapping_add64 (frame_offset st) slot.
Definition slot_offset_west (st : NockStack) (slot : Z) : Z := wrapping_sub64 (frame_offset st) (slot + 1).
Definition slot_offset (st : NockStack) (slot : Z) : Z :=
  if is_west st then slot_offset_west st slot else slot_offset_east st slot.
Definition slot_pointer (st : NockStack) (slot : Z) : Z := derive_ptr st (slot_offset st slot).
Definition free_slot_east_offset (st : NockStack) (slot : Z) : Z := wrapping_add64 (alloc_offset st) slot.
Definition free_slot_west_offset (st : NockStack) (slot : Z) : Z := wrapping_sub64 (alloc_offset st) (slot + 1).
Definition free_slot_offset (st : NockStack) (slot : Z) : Z :=
  if is_west st then free_slot_west_offset st slot else free_slot_east_offset st slot.
Definition free_slot (st : NockStack) (slot : Z) : Z := derive_ptr st (free_slot_offset st slot).
Definition local_noun_pointer (st : NockStack) (local : Z) : Z := slot_pointer st (wrapping_add64 local RESERVED).

Definition prev_pointer_pointer (st : NockStack) (slot : Z) : Z :=
  if pc st then free_slot st slot else slot_pointer st slot.
Definition prev_frame_pointer_pointer (st : NockStack) : Z := prev_pointer_pointer st FRAME.
Definition prev_stack_pointer_pointer (st : NockStack) : Z := prev_pointer_pointer st STACK.
Definition prev_alloc_pointer_pointer (st : NockStack) : Z := prev_pointer_pointer st ALLOC.

Definition prev_alloc_offset : M Z :=
  st ← get; ptr ← read (prev_alloc_pointer_pointer st);
  mret (Z.shiftr (wrapping_sub64 ptr (bytes (start st))) 3).
Definition slots_available : M (option Z) :=
  st ← get; prev ← prev_alloc_offset;
  let '(lhs, rhs) := if is_west st then (frame_offset st, prev) else (prev, frame_offset st) in
  mret (if rhs <=? lhs then if RESERVED <=? lhs - rhs then Some (lhs - rhs - RESERVED) else None else None).

(** * Checks before an allocation *)

Definition memory_state (n : option Z) : M MemoryState :=
  st ← get;
  prev_stack ← read (prev_stack_pointer_pointer st);
  prev_alloc ← read (prev_alloc_pointer_pointer st);
  mret {| intended_alloc_words := n; ms_frame_offset := frame_offset st; ms_stack_offset := stack_offset st;
          ms_alloc_offset := alloc_offset st; prev_stack_pointer := prev_stack; prev_alloc_pointer := prev_alloc;
          ms_pc := pc st |}.
Definition out_of_memory {A} (alloc : Allocation) (n : option Z) : M A :=
  ms ← memory_state n; throw (AllocationFault (OutOfMemory ms alloc)).
Definition cannot_alloc_in_pc {A} (n : option Z) : M A :=
  ms ← memory_state n; throw (AllocationFault (CannotAllocateInPreCopy ms)).

Definition allowed_when_pc (t : AllocationType) : bool :=
  match t with AllocPreviousFrame | Push | FlipTopFrame => true | _ => false end.
Definition get_alloc_config (t : AllocationType) (st : NockStack) : Allocation :=
  {| orientation := if is_west st then West else East; alloc_type := t; alloc_pc := pc st |}.

(** [if start >= words { start - words } else { panic!(..) }] *)
Definition sub_or_panic (a b : Z) : M Z := if b <=? a then mret (a - b) else panic.

Definition oom_bounds (t : AllocationType) (o : ArenaOrientation) (n : Z) : M (Z * Z * Direction) :=
  st ← get;
  match t, o with
  | Alloc, West | FramePush, West =>
      target ← sub_or_panic (alloc_offset st) n; mret (target, stack_offset st, Decreasing)
  | Alloc, East | FramePush, East =>
      mret (wrapping_add64 (alloc_offset st) n, stack_offset st, Increasing)
  | Push, West =>
      limit ← (if pc st then prev_alloc_offset else mret (alloc_offset st));
      mret (wrapping_add64 (stack_offset st) n, limit, Increasing)
  | Push, East =>
      limit ← (if pc st then prev_alloc_offset else mret (alloc_offset st));
      target ← sub_or_panic (stack_offset st) n; mret (target, limit, Decreasing)
  | SlotPointer, West =>
      slots ← slots_available;
      match slots with
      | None => panic
      | Some _ =>
          limit ← prev_alloc_offset;
          if wrapping_add64 n 1 <? frame_offset st
          then mret (wrapping_sub64 (wrapping_sub64 (frame_offset st) n) 1, limit, Decreasing) else panic
      end
  | SlotPointer, East =>
      slots ← slots_available;
      match slots with
      | None => panic
      | Some _ => limit ← prev_alloc_offset; mret (wrapping_add64 (frame_offset st) n, limit, IncreasingDeref)
      end
  | AllocPreviousFrame, West =>
      prev ← prev_alloc_offset; mret (wrapping_add64 prev n, stack_offset st, Increasing)
  | AllocPreviousFrame, East =>
      prev ← prev_alloc_offset; target ← sub_or_panic prev n; mret (target, stack_offset st, Decreasing)
  | FlipTopFrame, West =>
      limit ← prev_alloc_offset; target ← sub_or_panic (size st) n; mret (target, limit, Decreasing)
  | FlipTopFrame, East =>
      limit ← prev_alloc_offset; mret (n, limit, Increasing)
  end.
Definition alloc_would_oom_ (alloc : Allocation) (n : Z) : M unit :=
  _ ← memory_state (Some n);
  st ← get;
  _ ← (if pc st && negb (allowed_when_pc (alloc_type alloc)) then cannot_alloc_in_pc (Some n) else mret tt);
  '(target, limit, direction) ← oom_bounds (alloc_type alloc) (orientation alloc) n;
  match direction with
  | Increasing => if limit <? target then out_of_memory alloc (Some n) else mret tt
  | Decreasing => if target <? limit then out_of_memory alloc (Some n) else mret tt
  | IncreasingDeref => if limit <=? target then out_of_memory alloc (Some n) else mret tt
  end.
Definition alloc_would_oom (t : AllocationType) (n : Z) : M unit :=
  st ← get; alloc_would_oom_ (get_alloc_config t st) n.
Definition check (o : ArenaOrientation) (t : AllocationType) (n : Z) : M unit :=
  st ← get; alloc_would_oom_ {| orientation := o; alloc_type := t; alloc_pc := pc st |} n.

(** * Creation, reset and flip *)

(** The three saved pointers of a top frame, stored by [store slot value] *)
Definition save_top (slot_address : Z -> Z) (alloc : Z) : M unit :=
  _ ← write (slot_address FRAME) 0; _ ← write (slot_address STACK) 0; write (slot_address ALLOC) (bytes alloc).

Definition from_arena_internal (arena : Arena) (m : gmap Z Z) (top_slots : Z) : outcome fault (NockStack * Z) :=
  let frame := wrapping_add64 RESERVED top_slots in
  let free := wrapping_sub64 (words arena) (wrapping_add64 top_slots RESERVED) in
  if words arena <? frame then Panic
  else
    let st := {| start := base arena; size := words arena; frame_offset := frame; stack_offset := frame;
                 alloc_offset := words arena; least_space := words arena - frame; pma := None;
                 stack_epoch := 0; pc := false; mem := m |} in
    match save_top (fun slot => base arena + wrapping_sub64 frame (slot + 1)) (base arena) st with
    | Ok (_, st) => if words arena - frame =? free then Ok (st, free) else Panic
    | Err e => Err e
    | Panic => Panic
    end.
Definition from_arena (arena : Arena) (m : gmap Z Z) (top_slots : Z) : outcome fault (NockStack * Z + NewStackError) :=
  if words arena <? wrapping_add64 top_slots RESERVED then Ok (inr StackTooSmall)
  else match from_arena_internal arena m top_slots with Ok r => Ok (inl r) | Err e => Err e | Panic => Panic end.

Definition bump_epoch : M unit := st ← get; modify (set_epoch (wrapping_add64 (stack_epoch st) 1)).

(** The branches of [flip_top_frame]: the new top frame is an east or a west frame *)
Definition flip_to_east (n new_alloc_offset : Z) : M unit :=
  _ ← check West FlipTopFrame n;
  st ← get;
  let new_frame := wrapping_sub64 (size st) n in
  _ ← save_top (fun slot => derive_ptr st new_frame + slot) (start st + size st);
  if new_frame <? new_alloc_offset then panic
  else
    _ ← modify (fun st => set_least_space (new_frame - new_alloc_offset)
                            (set_offsets new_frame new_frame new_alloc_offset false st));
    st ← get; assert (negb (is_west st)).
Definition flip_to_west (n new_alloc_offset : Z) : M unit :=
  _ ← check East FlipTopFrame n;
  st ← get;
  let new_frame := n in
  _ ← save_top (fun slot => derive_ptr st new_frame - (slot + 1)) (start st);
  if new_alloc_offset <? new_frame then panic
  else
    _ ← modify (fun st => set_least_space (new_alloc_offset - new_frame)
                            (set_offsets new_frame new_frame new_alloc_offset false st));
    st ← get; assert (is_west st).
Definition flip_top_frame (top_slots : Z) : M unit :=
  st ← get;
  prev_frame ← read (prev_frame_pointer_pointer st);
  _ ← assert (prev_frame =? 0);
  prev_stack ← read (prev_stack_pointer_pointer st);
  _ ← assert (prev_stack =? 0);
  prev_alloc_ptr ← read (prev_alloc_pointer_pointer st);
  let new_alloc_offset := offset_of st prev_alloc_ptr in
  let n := wrapping_add64 RESERVED top_slots in
  _ ← (if is_west st then flip_to_east n new_alloc_offset else flip_to_west n new_alloc_offset);
  bump_epoch.

Definition reset (top_slots : Z) : M unit :=
  st ← get;
  let frame := wrapping_add64 RESERVED top_slots in
  if size st <? frame then panic
  else
    _ ← modify (fun st => set_least_space (size st - frame) (set_offsets frame frame (size st) false st));
    _ ← save_top (fun slot => derive_ptr st (wrapping_sub64 frame (slot + 1))) (start st);
    st ← get; _ ← assert (is_west st);
    bump_epoch.

(** * Allocation *)

Definition low_water (space : Z) : M unit :=
  modify (fun st => set_least_space (Z.min space (least_space st)) st).

Definition raw_alloc_west (n : Z) : M Z :=
  _ ← alloc_would_oom Alloc n;
  st ← get;
  if pc st then panic
  else
    new_alloc ← sub_or_panic (alloc_offset st) n;
    new_space ← sub_or_panic new_alloc (stack_offset st);
    _ ← low_water new_space;
    _ ← modify (set_alloc_offset new_alloc);
    mret (derive_ptr st new_alloc).
Definition raw_alloc_east (n : Z) : M Z :=
  _ ← alloc_would_oom Alloc n;
  st ← get;
  if pc st then panic
  else if U64 <=? alloc_offset st + n then panic
  else
    let new_alloc := alloc_offset st + n in
    new_space ← sub_or_panic (stack_offset st) new_alloc;
    _ ← low_water new_space;
    if size st <? new_alloc then panic
    else
      _ ← modify (set_alloc_offset new_alloc);
      mret (derive_ptr st (alloc_offset st)).
Definition raw_alloc (n : Z) : M Z := st ← get; if is_west st then raw_alloc_west n else raw_alloc_east n.
Definition indirect_alloc (n : Z) : M Z := raw_alloc (wrapping_add64 n 2).
Definition struct_alloc (word_size count : Z) : M Z := raw_alloc (wrap64 (word_size * count)).
Definition layout_alloc (layout_size layout_align : Z) : M Z :=
  _ ← assert (layout_align <=? 64); raw_alloc (Z.shiftr (wrapping_add64 layout_size 7) 3).

(** * Copying and popping *)

Definition pre_copy : M unit :=
  st ← get;
  if pc st then mret tt
  else
    let west := is_west st in
    let n := if west then RESERVED + 1 else RESERVED in
    _ ← alloc_would_oom_ (get_alloc_config FramePush st) n;
    f ← read (slot_pointer st FRAME); _ ← write (free_slot st FRAME) f;
    s ← read (slot_pointer st STACK); _ ← write (free_slot st STACK) s;
    a ← read (slot_pointer st ALLOC); _ ← write (free_slot st ALLOC) a;
    modify (fun st => set_offsets (frame_offset st)
      (if west then wrapping_sub64 (alloc_offset st) n else wrapping_add64 (alloc_offset st) n) (alloc_offset st) true st).

Definition raw_alloc_in_previous_frame_west (n : Z) : M Z :=
  _ ← check West AllocPreviousFrame n;
  prev ← prev_alloc_offset;
  st ← get;
  if U64 <=? prev + n then panic
  else if size st <=? prev + n then panic
  else
    _ ← write (prev_alloc_pointer_pointer st) (bytes (derive_ptr st (prev + n)));
    mret (derive_ptr st prev).
Definition raw_alloc_in_previous_frame_east (n : Z) : M Z :=
  _ ← check East AllocPreviousFrame n;
  prev ← prev_alloc_offset;
  st ← get;
  new_prev ← sub_or_panic prev n;
  if size st <=? new_prev then panic
  else
    _ ← write (prev_alloc_pointer_pointer st) (bytes (derive_ptr st new_prev));
    mret (derive_ptr st new_prev).
Definition raw_alloc_in_previous_frame (n : Z) : M Z :=
  _ ← pre_copy;
  st ← get; if is_west st then raw_alloc_in_previous_frame_west n else raw_alloc_in_previous_frame_east n.
Definition struct_alloc_in_previous_frame (word_size count : Z) : M Z :=
  raw_alloc_in_previous_frame (wrap64 (word_size * count)).
Definition indirect_alloc_in_previous_frame (n : Z) : M Z := raw_alloc_in_previous_frame (wrapping_add64 n 2).

Definition frame_pop : M unit :=
  st ← get;
  f ← read (prev_frame_pointer_pointer st);
  s ← read (prev_stack_pointer_pointer st);
  a ← read (prev_alloc_pointer_pointer st);
  if (f =? 0) || (s =? 0) || (a =? 0) then panic
  else modify (set_offsets (offset_of st f) (offset_of st s) (offset_of st a) false).

Definition frame_push (num_locals : Z) : M unit :=
  st ← get;
  if pc st then panic
  else
    let n := wrapping_add64 num_locals RESERVED in
    _ ← alloc_would_oom FramePush n;
    let frame := if is_west st then wrapping_sub64 (alloc_offset st) n else wrapping_add64 (alloc_offset st) n in
    _ ← modify (set_offsets frame frame (stack_offset st) false);
    st' ← get;
    _ ← write (slot_pointer st' FRAME) (bytes (derive_ptr st (frame_offset st)));
    _ ← write (slot_pointer st' STACK) (bytes (derive_ptr st (stack_offset st)));
    write (slot_pointer st' ALLOC) (bytes (derive_ptr st (alloc_offset st))).

(** * The lightweight stack *)

Definition push_limit : M Z := st ← get; if pc st then prev_alloc_offset else mret (alloc_offset st).
Definition push_west (n : Z) : M Z :=
  _ ← check West Push n;
  limit ← push_limit;
  st ← get;
  let new_stack := wrapping_add64 (stack_offset st) n in
  if limit <? new_stack then panic
  else _ ← modify (set_stack_offset new_stack); mret (derive_ptr st (stack_offset st)).
Definition push_east (n : Z) : M Z :=
  _ ← check East Push n;
  limit ← push_limit;
  st ← get;
  new_stack ← sub_or_panic (stack_offset st) n;
  if new_stack <? limit then panic
  else _ ← modify (set_stack_offset new_stack); mret (derive_ptr st new_stack).
(** The lightweight stack grows eastward *)
Definition west_oriented (st : NockStack) : bool :=
  (is_west st && negb (pc st)) || (negb (is_west st) && pc st).
Definition push (n : Z) : M Z := st ← get; if west_oriented st then push_west n else push_east n.
Definition pop_west (n : Z) : M unit :=
  st ← get; if stack_offset st <? n then panic else modify (set_stack_offset (stack_offset st - n)).
Definition pop_east (n : Z) : M unit :=
  _ ← modify (fun st => set_stack_offset (wrapping_add64 (stack_offset st) n) st);
  st ← get; if size st <? stack_offset st then panic else mret tt.
Definition pop (n : Z) : M unit := st ← get; if west_oriented st then pop_west n else pop_east n.
Definition top_west (n : Z) : M Z :=
  st ← get; if stack_offset st <? n then panic else mret (derive_ptr st (stack_offset st - n)).
Definition top_east : M Z := st ← get; mret (derive_ptr st (stack_offset st)).
Definition top (n : Z) : M Z := st ← get; if west_oriented st then top_west n else top_east.
Definition stack_is_empty (st : NockStack) : bool :=
  if negb (pc st) then stack_offset st =? frame_offset st
  else if is_west st then stack_offset st =? wrapping_sub64 (alloc_offset st) (RESERVED + 1)
  else stack_offset st =? wrapping_add64 (alloc_offset st) RESERVED.

(** * Tests on pointers *)

Definition is_in_frame (ptr : Z) : M bool :=
  if bytes ptr =? 0 then mret false
  else
    st ← get;
    let ptr_offset := offset_of st (bytes ptr) in
    prev ← read (prev_stack_pointer_pointer st);
    let prev_stack := if prev =? 0 then if is_west st then size st else 0 else offset_of st prev in
    mret (if is_west st then (alloc_offset st <=? ptr_offset) && (ptr_offset <? prev_stack)
          else (prev_stack <=? ptr_offset) && (ptr_offset <? alloc_offset st)).

(** [assert_sane]; a round for each frame *)
Fixpoint assert_sane_loop (fuel : nat) (fp sp ap : Z) (ought_west : bool) : M unit :=
  match fuel with
  | O => panic
  | S fuel =>
      st ← get;
      _ ← assert (Bool.eqb (fp =? 0) (sp =? 0));
      _ ← assert (negb (ap =? 0));
      if fp =? 0 then mret tt
      else
        let lo := bytes (start st) in let hi := bytes (start st + size st) in
        _ ← assert ((lo <=? fp) && (fp <=? hi) && (lo <=? sp) && (sp <=? hi) && (lo <=? ap) && (ap <=? hi));
        _ ← assert (Bool.eqb (fp <? ap) ought_west);
        _ ← assert (if ought_west then (fp <=? sp) && (sp <? ap) else (sp <=? fp) && (ap <? sp));
        let at_slot slot := if ought_west then fp / 8 - (slot + 1) else fp / 8 + slot in
        sp ← read (at_slot STACK); ap ← read (at_slot ALLOC); fp ← read (at_slot FRAME);
        assert_sane_loop fuel fp sp ap (negb ought_west)
  end.
Definition assert_sane (fuel : nat) : M unit :=
  st ← get;
  let at_offset offset := bytes (derive_ptr st offset) in
  let fp := at_offset (frame_offset st) in let ap := at_offset (alloc_offset st) in
  assert_sane_loop fuel fp (at_offset (stack_offset st)) ap (fp <? ap).
