(* ===== verification/NockStackTheorems.v ===== *)
(** The frames of the NockStack: the invariant that ties the offsets to the pointers
    saved in memory, the effect of every operation on it, and the discipline of
    nested frames. *)
From stdpp Require Import base option list numbers gmap.
From Stdlib Require Import ZArith Lia.
From S2P Require Import Prelude NockStack.

(** * Running computations *)

Lemma run_bind {A B} (m : M A) (f : A -> M B) st a st' : m st = Ok (a, st') -> (m ≫= f) st = f a st'.
Proof. intros E. unfold mbind, M_bind. by rewrite E. Qed.

(** A computation that ends in a panic or in an allocation error *)
Definition stops {A} (r : outcome fault A) : Prop := r = Panic \/ exists e, r = Err (AllocationFault e).
Lemma stops_bind {A B} (m : M A) (f : A -> M B) st : stops (m st) -> stops ((m ≫= f) st).
Proof. unfold stops, mbind, M_bind. intros [->|[e ->]]; eauto. Qed.
Lemma stops_panic {A} st : stops (panic (A := A) st).
Proof. by left. Qed.

(** * Addresses *)

Definition apart (st : NockStack) (a : Arena) : Prop :=
  0 < base a /\ 0 <= words a /\ base a + words a < 2 ^ 60 /\
  (base a + words a <= start st \/ start st + size st <= base a).
Record arena_ok (st : NockStack) : Prop := {
  arena_start : 0 < start st;
  arena_size : 0 <= size st;
  arena_end : start st + size st < 2 ^ 60;
  arena_pma : match pma st with Some a => apart st a | None => True end }.

(** The word that stands for the pointer to an offset *)
Definition ptr (st : NockStack) (o : Z) : Z := 8 * (start st + o).

Section addresses.
Context (st : NockStack) (Hok : arena_ok st).

Lemma bytes_offset o : 0 <= o <= size st -> bytes (start st + o) = ptr st o.
Proof. destruct Hok. intros Ho. unfold bytes, ptr. apply wrap64_small. unfold is_u64, U64. lia. Qed.
Lemma bytes_start : bytes (start st) = 8 * start st.
Proof. destruct Hok. unfold bytes. apply wrap64_small. unfold is_u64, U64. lia. Qed.
Lemma offset_of_ptr o : 0 <= o <= size st -> offset_of st (ptr st o) = o.
Proof.
  destruct Hok. intros Ho. unfold offset_of, wrapping_sub64, ptr. rewrite bytes_start, wrap64_small by (unfold is_u64, U64; lia).
  replace (8 * (start st + o) - 8 * start st) with (o * 8) by lia. apply Z.div_mul. lia.
Qed.
Lemma shifted_offset o : 0 <= o <= size st -> Z.shiftr (wrapping_sub64 (ptr st o) (bytes (start st))) 3 = o.
Proof. intros Ho. rewrite Z.shiftr_div_pow2 by lia. by apply offset_of_ptr. Qed.
Lemma ptr_nonzero o : 0 <= o <= size st -> ptr st o <> 0.
Proof. destruct Hok. unfold ptr. lia. Qed.
Lemma ptr_inj o o' : ptr st o = ptr st o' -> o = o'.
Proof. unfold ptr. lia. Qed.
Lemma in_stack_offset o : in_stack st (start st + o) = true <-> 0 <= o < size st.
Proof. unfold in_stack. lia. Qed.
Lemma read_offset o : 0 <= o < size st -> read (start st + o) st = Ok (word_at st (start st + o), st).
Proof.
  intros Ho. unfold read, mbind, M_bind, get, readable. by rewrite (proj2 (in_stack_offset o) Ho).
Qed.
Lemma write_offset o v :
  0 <= o < size st -> write (start st + o) v st = Ok (tt, set_mem (<[start st + o := v]> (mem st)) st).
Proof. intros Ho. unfold write, mbind, M_bind, get, modify. by rewrite (proj2 (in_stack_offset o) Ho). Qed.
End addresses.

Lemma word_at_write st p q v :
  word_at (set_mem (<[p := v]> (mem st)) st) q = if decide (p = q) then v else word_at st q.
Proof.
  unfold word_at. cbn [mem set_mem]. destruct (decide (p = q)) as [->|Hne].
  - by rewrite lookup_insert_eq.
  - by rewrite lookup_insert_ne.
Qed.

(** * The invariant *)

(** Offset of a reserved slot from the end of a frame *)
Definition slot_at (west : bool) (b slot : Z) : Z := if west then b - (slot + 1) else b + slot.
Definition saved (st : NockStack) (west : bool) (b slot : Z) : Z := word_at st (start st + slot_at west b slot).

(** A frame with end [f], lightweight stack up to [s] and allocations from [a], between
    the allocations of the previous frame up to [lo] and its stack from [hi] *)
Definition placed (west : bool) (f s a lo hi : Z) : Prop :=
  if west then lo + RESERVED <= f /\ f <= s /\ s < a /\ a <= hi
  else hi <= a /\ a < s /\ s <= f /\ f + RESERVED <= lo.
(** The same while its data is copied out *)
Definition copied_out (west : bool) (s a lo hi : Z) : Prop :=
  if west then lo <= s /\ s <= a - (RESERVED + 1) /\ a <= hi
  else hi <= a /\ a + RESERVED <= s /\ s <= lo.

(** The saved pointers of the frame at [b] describe the senior frames, each given by
    its frame and stack offsets *)
Fixpoint linked (st : NockStack) (west : bool) (b lo hi : Z) (rest : list (Z * Z)) : Prop :=
  saved st west b ALLOC = ptr st lo /\
  match rest with
  | [] => saved st west b FRAME = 0 /\ saved st west b STACK = 0 /\ 0 <= lo <= size st /\ hi = if west then size st else 0
  | (f, s) :: rest =>
      saved st west b FRAME = ptr st f /\ saved st west b STACK = ptr st s /\ hi = s /\
      exists lo' hi', placed (negb west) f s lo lo' hi' /\ linked st (negb west) f lo' hi' rest
  end.

Definition frame_base (st : NockStack) : Z := if pc st then alloc_offset st else frame_offset st.
Record Inv (st : NockStack) (lo hi : Z) (rest : list (Z * Z)) : Prop := {
  inv_arena : arena_ok st;
  inv_place : if pc st then copied_out (is_west st) (stack_offset st) (alloc_offset st) lo hi
              else placed (is_west st) (frame_offset st) (stack_offset st) (alloc_offset st) lo hi;
  inv_linked : linked st (is_west st) (frame_base st) lo hi rest }.

Lemma linked_bounds st west b lo hi rest :
  linked st west b lo hi rest -> if west then 0 <= lo /\ hi <= size st else 0 <= hi /\ lo <= size st.
Proof.
  revert west b lo hi. induction rest as [|[f s] rest IH]; intros west b lo hi; cbn [linked].
  - intros (_ & _ & _ & ? & ->). destruct west; lia.
  - intros (_ & _ & _ & -> & lo' & hi' & Hp & Hl). specialize (IH _ _ _ _ Hl). unfold placed, RESERVED in Hp.
    destruct west; cbn [negb] in *; lia.
Qed.

(** The chain below a frame does not depend on the memory between [lo] and [hi] *)
Definition between (lo hi o : Z) : Prop := Z.min lo hi <= o < Z.max lo hi.
Definition same_arena (st st' : NockStack) : Prop :=
  start st' = start st /\ size st' = size st /\ pma st' = pma st.
Definition same_outside (lo hi : Z) (st st' : NockStack) : Prop :=
  forall p, ~ between lo hi (p - start st) -> word_at st' p = word_at st p.

Lemma linked_ext st st' west b b' lo hi rest :
  same_arena st st' -> same_outside lo hi st st' ->
  (forall slot, 0 <= slot < 3 -> saved st' west b' slot = saved st west b slot) ->
  linked st west b lo hi rest -> linked st' west b' lo hi rest.
Proof.
  intros (Es & Ez & Ep). revert west b b' lo hi. induction rest as [|[f s] rest IH]; intros west b b' lo hi Ho Hs; cbn [linked];
    unfold ptr; rewrite Es, ?Ez, !Hs by (unfold FRAME, STACK, ALLOC; lia); [done|].
  intros (Ha & Hf & Hk & -> & lo' & hi' & Hp & Hl). split_and!; try done. exists lo', hi'. split; [done|].
  unfold placed, RESERVED in Hp. apply IH with f; [| |done].
  - intros p Hn. apply Ho. unfold between in *. destruct west; cbn [negb] in Hp; lia.
  - intros slot Hslot. unfold saved. rewrite Es. apply Ho. unfold between, slot_at. destruct west; cbn [negb] in *; lia.
Qed.

(** ** Reading the saved pointers *)

Section reading.
Context (st : NockStack) (lo hi : Z) (rest : list (Z * Z)) (HI : Inv st lo hi rest).
Let W := is_west st.

Lemma inv_bounds : if W then 0 <= lo /\ hi <= size st else 0 <= hi /\ lo <= size st.
Proof. eapply linked_bounds, HI. Qed.
Lemma west_cmp : if W then stack_offset st < alloc_offset st else alloc_offset st <= stack_offset st.
Proof. unfold W, is_west. destruct (Z.ltb_spec (stack_offset st) (alloc_offset st)); lia. Qed.
Lemma slot_range slot : 0 <= slot < 3 -> 0 <= slot_at W (frame_base st) slot < size st.
Proof.
  pose proof inv_bounds. pose proof (inv_place _ _ _ _ HI) as Hp. fold W in Hp. unfold frame_base, slot_at.
  unfold copied_out, placed, RESERVED in Hp. destruct (pc st), W; lia.
Qed.
Lemma offsets_range : 0 <= stack_offset st <= size st /\ 0 <= alloc_offset st <= size st /\
  (pc st = false -> 0 <= frame_offset st <= size st).
Proof.
  pose proof inv_bounds. pose proof (inv_place _ _ _ _ HI) as Hp. fold W in Hp.
  unfold copied_out, placed, RESERVED in Hp. destruct (pc st), W; repeat split; intros; lia || done.
Qed.
Lemma slot_address b slot :
  0 <= slot < 3 -> 0 <= slot_at W b slot < size st ->
  (if W then wrapping_sub64 b (slot + 1) else wrapping_add64 b slot) = slot_at W b slot.
Proof.
  destruct (inv_arena _ _ _ _ HI). intros Hs Hr. unfold slot_at, wrapping_sub64, wrapping_add64 in *.
  destruct W; rewrite wrap64_small; unfold is_u64, U64; lia.
Qed.
Lemma prev_address slot :
  0 <= slot < 3 -> prev_pointer_pointer st slot = start st + slot_at W (frame_base st) slot.
Proof.
  intros Hs. pose proof (slot_range slot Hs) as Hr. pose proof (slot_address _ slot Hs Hr) as E.
  unfold prev_pointer_pointer, free_slot, slot_pointer, derive_ptr, slot_offset, free_slot_offset, frame_base in *.
  rewrite <- E. unfold slot_offset_east, slot_offset_west, free_slot_east_offset, free_slot_west_offset.
  fold W. by destruct (pc st), W.
Qed.
Lemma read_prev slot : 0 <= slot < 3 -> read (prev_pointer_pointer st slot) st = Ok (saved st W (frame_base st) slot, st).
Proof. intros Hs. rewrite prev_address by done. by apply read_offset, slot_range. Qed.

Lemma saved_alloc : saved st W (frame_base st) ALLOC = ptr st lo.
Proof. pose proof (inv_linked _ _ _ _ HI) as Hl. destruct rest; by destruct Hl. Qed.
Lemma lo_range : 0 <= lo <= size st.
Proof.
  pose proof inv_bounds. pose proof (inv_place _ _ _ _ HI) as Hp. pose proof offsets_range. fold W in Hp.
  unfold copied_out, placed, RESERVED in Hp. destruct (pc st), W; lia.
Qed.
Lemma prev_alloc_reads : prev_alloc_offset st = Ok (lo, st).
Proof.
  unfold prev_alloc_offset, prev_alloc_pointer_pointer. rewrite (run_bind get _ st st st) by done.
  rewrite (run_bind _ _ st _ _ (read_prev ALLOC ltac:(unfold ALLOC; lia))). unfold mret, M_ret.
  rewrite saved_alloc, shifted_offset; [done|apply HI|apply lo_range].
Qed.
Lemma memory_state_reads n : exists ms, memory_state n st = Ok (ms, st).
Proof.
  unfold memory_state, prev_stack_pointer_pointer, prev_alloc_pointer_pointer. rewrite (run_bind get _ st st st) by done.
  rewrite (run_bind _ _ st _ _ (read_prev STACK ltac:(unfold STACK; lia))).
  rewrite (run_bind _ _ st _ _ (read_prev ALLOC ltac:(unfold ALLOC; lia))). eexists. reflexivity.
Qed.
Lemma out_of_memory_stops {A} alloc n : stops (out_of_memory (A := A) alloc n st).
Proof.
  destruct (memory_state_reads n) as [ms E]. unfold out_of_memory. rewrite (run_bind _ _ _ _ _ E). right. by eexists.
Qed.
Lemma cannot_alloc_stops {A} n : stops (cannot_alloc_in_pc (A := A) n st).
Proof.
  destruct (memory_state_reads n) as [ms E]. unfold cannot_alloc_in_pc. rewrite (run_bind _ _ _ _ _ E). right. by eexists.
Qed.
End reading.

(** ** The checks before an allocation *)

(** What the check of each kind of allocation compares *)
Definition fits (t : AllocationType) (o : ArenaOrientation) (n : Z) (st : NockStack) (lo : Z) : Prop :=
  let limit := if pc st then lo else alloc_offset st in
  match t, o with
  | Alloc, West | FramePush, West => stack_offset st <= alloc_offset st - n
  | Alloc, East | FramePush, East => alloc_offset st + n <= stack_offset st
  | Push, West => stack_offset st + n <= limit
  | Push, East => limit <= stack_offset st - n
  | AllocPreviousFrame, West => lo + n <= stack_offset st
  | AllocPreviousFrame, East => stack_offset st <= lo - n
  | FlipTopFrame, West => lo <= size st - n
  | FlipTopFrame, East => n <= lo
  | SlotPointer, _ => False
  end.
Definition word_count (n : Z) : Prop := 0 <= n < 2 ^ 61.

Lemma sub_or_panic_spec a b st :
  (b <= a /\ sub_or_panic a b st = Ok (a - b, st)) \/ (a < b /\ sub_or_panic a b st = Panic).
Proof. unfold sub_or_panic. destruct (Z.leb_spec b a); [left|right]; done. Qed.

Ltac step_ok E := rewrite (run_bind _ _ _ _ _ E); clear E.
Ltac no_wrap := unfold wrapping_add64, wrapping_sub64; rewrite wrap64_small by (unfold is_u64, U64; lia).

Section checks.
Context (st : NockStack) (lo hi : Z) (rest : list (Z * Z)) (HI : Inv st lo hi rest).

Lemma push_limit_reads :
  (if pc st then prev_alloc_offset else mret (alloc_offset st)) st = Ok (if pc st then lo else alloc_offset st, st).
Proof. destruct (pc st) eqn:E; [|done]. by eapply prev_alloc_reads. Qed.

(** The bounds that are compared, or an underflow *)
Lemma oom_bounds_spec t o n :
  t <> SlotPointer -> word_count n ->
  (exists target limit direction, oom_bounds t o n st = Ok (target, limit, direction, st) /\
     direction <> IncreasingDeref /\
     (fits t o n st lo <-> match direction with Increasing => target <= limit | _ => limit <= target end)) \/
  (~ fits t o n st lo /\ oom_bounds t o n st = Panic).
Proof.
  intros Ht Hn. unfold word_count in Hn. pose proof (offsets_range _ _ _ _ HI) as (Hs & Ha & _). pose proof (lo_range _ _ _ _ HI) as Hl.
  destruct (inv_arena _ _ _ _ HI). pose proof (prev_alloc_reads _ _ _ _ HI) as Ep. pose proof push_limit_reads as El.
  assert (Hlim : 0 <= (if pc st then lo else alloc_offset st) <= size st) by (destruct (pc st); done).
  unfold oom_bounds. rewrite (run_bind get _ st st st) by done. unfold fits.
  destruct t; try done; destruct o; rewrite ?(run_bind _ _ _ _ _ Ep), ?(run_bind _ _ _ _ _ El);
    try (match goal with |- context [sub_or_panic ?a ?b] => destruct (sub_or_panic_spec a b st) as [[Hc E]|[Hc E]] end;
         [|right; split; [lia|unfold mbind, M_bind; by rewrite E]]; rewrite (run_bind _ _ _ _ _ E));
    left; do 3 eexists; (split; [reflexivity|]); (split; [done|]); cbn; try no_wrap; lia.
Qed.

Lemma check_spec t o p n :
  t <> SlotPointer -> word_count n -> pc st = false \/ allowed_when_pc t = true ->
  let r := alloc_would_oom_ {| orientation := o; alloc_type := t; alloc_pc := p |} n st in
  (fits t o n st lo /\ r = Ok (tt, st)) \/ (~ fits t o n st lo /\ stops r).
Proof.
  intros Ht Hn Hpc r. unfold r, alloc_would_oom_. destruct (memory_state_reads _ _ _ _ HI (Some n)) as [ms E].
  step_ok E. rewrite (run_bind get _ st st st) by done. cbn [alloc_type orientation].
  assert (Ec : pc st && negb (allowed_when_pc t) = false) by (destruct Hpc as [-> | ->]; [done|by destruct (pc st)]).
  rewrite Ec, (run_bind (mret tt) _ st tt st) by done.
  destruct (oom_bounds_spec t o n Ht Hn) as [(target & limit & d & E & Hd & Hf)|[Hf E]].
  - step_ok E. pose proof (out_of_memory_stops _ _ _ _ HI (A := unit) {| orientation := o; alloc_type := t; alloc_pc := p |} (Some n)).
    destruct d; [destruct (Z.ltb_spec limit target)|destruct (Z.ltb_spec target limit)|done];
      ((right; split; [rewrite Hf; lia|done]) || (left; split; [rewrite Hf; lia|done])).
  - right. split; [done|]. apply stops_bind. rewrite E. by left.
Qed.
Lemma check_copying t o p n :
  pc st = true -> allowed_when_pc t = false ->
  stops (alloc_would_oom_ {| orientation := o; alloc_type := t; alloc_pc := p |} n st).
Proof.
  intros Hp Ht. unfold alloc_would_oom_. destruct (memory_state_reads _ _ _ _ HI (Some n)) as [ms E].
  step_ok E. rewrite (run_bind get _ st st st) by done. cbn [alloc_type]. rewrite Hp, Ht. apply stops_bind, (cannot_alloc_stops _ _ _ _ HI).
Qed.
End checks.

(** * The operations *)

Lemma placed_west w f s a lo hi : placed w f s a lo hi -> (s <? a) = w.
Proof. unfold placed. destruct w; intros; lia. Qed.
Lemma copied_out_west w s a lo hi : copied_out w s a lo hi -> (s <? a) = w.
Proof. unfold copied_out, RESERVED. destruct w; intros; lia. Qed.

(** The state with other offsets *)
Definition moved (st : NockStack) (f s a : Z) (p : bool) (st' : NockStack) : Prop :=
  exists k, st' = set_least_space k (set_offsets f s a p st).
Lemma moved_offsets st f s a p : moved st f s a p (set_offsets f s a p st).
Proof. by exists (least_space st). Qed.
Lemma moved_arena st f s a p st' : moved st f s a p st' -> same_arena st st' /\ mem st' = mem st.
Proof. intros [k ->]. done. Qed.

Lemma arena_ok_ext st st' : same_arena st st' -> arena_ok st -> arena_ok st'.
Proof. intros (E1 & E2 & E3) []. split; unfold apart in *; rewrite ?E1, ?E2, ?E3; done. Qed.

(** Rebuilding the invariant after a change between [lo] and [hi] *)
Lemma inv_update st st' lo hi rest :
  Inv st lo hi rest -> same_arena st st' -> same_outside lo hi st st' ->
  (if pc st' then copied_out (is_west st) (stack_offset st') (alloc_offset st') lo hi
   else placed (is_west st) (frame_offset st') (stack_offset st') (alloc_offset st') lo hi) ->
  (forall slot, 0 <= slot < 3 -> saved st' (is_west st) (frame_base st') slot = saved st (is_west st) (frame_base st) slot) ->
  Inv st' lo hi rest.
Proof.
  intros [Ha Hp Hl] Hs Ho Hp' Hsl.
  assert (Hw : is_west st' = is_west st).
  { unfold is_west at 1. destruct (pc st'); [by eapply copied_out_west|by eapply placed_west]. }
  split; [by eapply arena_ok_ext|by rewrite Hw|]. rewrite Hw. by eapply linked_ext.
Qed.
Lemma same_outside_mem lo hi st st' : mem st' = mem st -> same_outside lo hi st st'.
Proof. intros E p _. unfold word_at. by rewrite E. Qed.

Lemma inv_moved st lo hi rest s a st' :
  Inv st lo hi rest -> moved st (frame_offset st) s a (pc st) st' ->
  (if pc st then a = alloc_offset st /\ copied_out (is_west st) s a lo hi else placed (is_west st) (frame_offset st) s a lo hi) ->
  Inv st' lo hi rest.
Proof.
  intros HI Hm Hp. destruct (moved_arena _ _ _ _ _ _ Hm) as [Hs Hmem]. destruct Hm as [k ->].
  apply inv_update with st; [done|done|by apply same_outside_mem| |].
  - cbn. destruct (pc st); [apply Hp|done].
  - intros slot _. unfold saved, frame_base, word_at. cbn. destruct (pc st); [|done]. by destruct Hp as [-> _].
Qed.

(** The check in the orientation of the stack *)
Definition oriented (st : NockStack) : ArenaOrientation := if is_west st then West else East.
Lemma would_oom_run t n st :
  alloc_would_oom t n st = alloc_would_oom_ {| orientation := oriented st; alloc_type := t; alloc_pc := pc st |} n st.
Proof. done. Qed.

Section operations.
Context (st : NockStack) (lo hi : Z) (rest : list (Z * Z)) (HI : Inv st lo hi rest).

(** ** Allocation *)

Definition alloc_end (n : Z) : Z := if is_west st then alloc_offset st - n else alloc_offset st + n.
Definition alloc_block (n : Z) : Z := if is_west st then alloc_offset st - n else alloc_offset st.

Lemma alloc_inv n st' :
  pc st = false -> word_count n -> fits Alloc (oriented st) n st lo -> alloc_end n <> stack_offset st ->
  moved st (frame_offset st) (stack_offset st) (alloc_end n) false st' -> Inv st' lo hi rest.
Proof.
  intros Hpc Hn Hfit Hne Hm. pose proof (inv_place _ _ _ _ HI) as Hp. rewrite Hpc in Hp.
  apply inv_moved with st (stack_offset st) (alloc_end n); [done|by rewrite Hpc|]. rewrite Hpc.
  unfold alloc_end, oriented, fits, placed, RESERVED, word_count in *. destruct (is_west st); lia.
Qed.

Lemma raw_alloc_spec n :
  pc st = false -> word_count n ->
  (exists st', raw_alloc n st = Ok (start st + alloc_block n, st') /\ fits Alloc (oriented st) n st lo /\
     moved st (frame_offset st) (stack_offset st) (alloc_end n) false st') \/
  stops (raw_alloc n st).
Proof.
  intros Hpc Hn. pose proof (offsets_range _ _ _ _ HI) as (Hs & Ha & _).
  destruct (inv_arena _ _ _ _ HI) as [? ? ? _].
  pose proof (check_spec _ _ _ _ HI Alloc (oriented st) (pc st) n ltac:(done) Hn ltac:(by left)) as Hc. cbn zeta in Hc.
  unfold raw_alloc, raw_alloc_west, raw_alloc_east, alloc_block, alloc_end. rewrite (run_bind get _ st st st) by done.
  rewrite <- would_oom_run in Hc. destruct Hc as [[Hfit E]|[Hfit E]];
    [|right; destruct (is_west st); apply stops_bind, E].
  left. unfold oriented, fits, word_count in *. destruct (is_west st); rewrite (run_bind _ _ st _ _ E), (run_bind get _ st st st), Hpc by done.
  - destruct (sub_or_panic_spec (alloc_offset st) n st) as [[_ E1]|[? _]]; [|lia]. rewrite (run_bind _ _ _ _ _ E1).
    destruct (sub_or_panic_spec (alloc_offset st - n) (stack_offset st) st) as [[_ E2]|[? _]]; [|lia]. rewrite (run_bind _ _ _ _ _ E2).
    eexists. split; [reflexivity|]. split; [done|]. eexists. cbn. by rewrite <- Hpc.
  - rewrite (proj2 (Z.leb_gt U64 (alloc_offset st + n))) by (unfold U64; lia).
    destruct (sub_or_panic_spec (stack_offset st) (alloc_offset st + n) st) as [[_ E2]|[? _]]; [|lia]. rewrite (run_bind _ _ _ _ _ E2).
    rewrite (run_bind (low_water _) _ st tt (set_least_space (Z.min (stack_offset st - (alloc_offset st + n)) (least_space st)) st)) by done.
    rewrite (proj2 (Z.ltb_ge (size st) (alloc_offset st + n))) by lia.
    eexists. split; [reflexivity|]. split; [done|]. eexists. cbn. by rewrite <- Hpc.
Qed.
Lemma raw_alloc_copying n : pc st = true -> stops (raw_alloc n st).
Proof.
  intros Hpc. pose proof (check_copying _ _ _ _ HI Alloc (oriented st) (pc st) n Hpc ltac:(done)) as Hc. rewrite <- would_oom_run in Hc.
  unfold raw_alloc, raw_alloc_west, raw_alloc_east. rewrite (run_bind get _ st st st) by done. destruct (is_west st); by apply stops_bind.
Qed.

(** ** Frames *)

(** Three words stored one after the other *)
Definition stored (st : NockStack) (west : bool) (b v0 v1 v2 : Z) : NockStack :=
  let p slot := start st + slot_at west b slot in
  set_mem (<[p ALLOC := v2]> (<[p STACK := v1]> (<[p FRAME := v0]> (mem st)))) st.
End operations.

Lemma store3 (st : NockStack) (address : Z -> Z) west b v0 v1 v2 :
  (forall slot, 0 <= slot < 3 -> address slot = start st + slot_at west b slot /\ 0 <= slot_at west b slot < size st) ->
  (_ ← write (address FRAME) v0; _ ← write (address STACK) v1; write (address ALLOC) v2) st =
  Ok (tt, stored st west b v0 v1 v2).
Proof.
  intros H. destruct (H FRAME) as [-> H0]; [unfold FRAME; lia|]. destruct (H STACK) as [-> H1]; [unfold STACK; lia|].
  destruct (H ALLOC) as [-> H2]; [unfold ALLOC; lia|].
  rewrite (run_bind _ _ _ _ _ (write_offset st _ v0 H0)).
  set (st1 := set_mem _ st). rewrite (run_bind _ _ _ _ _ (write_offset st1 _ v1 H1)).
  set (st2 := set_mem _ st1). exact (write_offset st2 _ v2 H2).
Qed.
Lemma stored_saved st west b v0 v1 v2 :
  saved (stored st west b v0 v1 v2) west b FRAME = v0 /\ saved (stored st west b v0 v1 v2) west b STACK = v1 /\
  saved (stored st west b v0 v1 v2) west b ALLOC = v2.
Proof.
  unfold saved, stored, word_at. cbn [mem set_mem start].
  assert (Hne : forall i j, i <> j -> start st + slot_at west b i <> start st + slot_at west b j)
    by (unfold slot_at; intros; destruct west; lia).
  split_and!; repeat (rewrite lookup_insert_eq || rewrite lookup_insert_ne by (by apply Hne)); done.
Qed.
Lemma stored_outside st west b v0 v1 v2 p :
  (forall slot, 0 <= slot < 3 -> p <> start st + slot_at west b slot) ->
  word_at (stored st west b v0 v1 v2) p = word_at st p.
Proof.
  intros H. unfold stored, word_at. cbn [mem set_mem].
  by rewrite !lookup_insert_ne by (symmetry; apply H; unfold FRAME, STACK, ALLOC; lia).
Qed.

Section frames.
Context (st : NockStack) (lo hi : Z) (rest : list (Z * Z)) (HI : Inv st lo hi rest).

Definition frame_end (n : Z) : Z := if is_west st then alloc_offset st - (n + RESERVED) else alloc_offset st + (n + RESERVED).
(** The state after a frame is pushed *)
Definition pushed (n : Z) : NockStack :=
  let nf := frame_end n in
  let st1 := set_offsets nf nf (stack_offset st) false st in
  stored st1 (is_west st1) nf (ptr st (frame_offset st)) (ptr st (stack_offset st)) (ptr st (alloc_offset st)).

Lemma frame_push_spec n :
  pc st = false -> word_count (n + RESERVED) -> 0 <= n ->
  (fits FramePush (oriented st) (n + RESERVED) st lo /\ frame_push n st = Ok (tt, pushed n)) \/
  (~ fits FramePush (oriented st) (n + RESERVED) st lo /\ stops (frame_push n st)).
Proof.
  intros Hpc Hn Hn0. pose proof (offsets_range _ _ _ _ HI) as (Hs & Ha & Hf). specialize (Hf Hpc).
  pose proof (inv_arena _ _ _ _ HI) as Hok. pose proof (inv_place _ _ _ _ HI) as Hp. rewrite Hpc in Hp.
  pose proof (inv_bounds _ _ _ _ HI) as Hb.
  pose proof (check_spec _ _ _ _ HI FramePush (oriented st) (pc st) (n + RESERVED) ltac:(done) Hn ltac:(by left)) as Hc. cbn zeta in Hc.
  rewrite <- would_oom_run in Hc. unfold frame_push. rewrite (run_bind get _ st st st), Hpc by done.
  assert (En : wrapping_add64 n RESERVED = n + RESERVED) by (unfold word_count, RESERVED in *; no_wrap; done). rewrite En.
  destruct Hc as [[Hfit E]|[Hfit E]]; [|right; split; [done|by apply stops_bind]]. left. split; [done|]. step_ok E.
  destruct Hok as [? ? ? Hpma]. unfold word_count, placed, RESERVED, oriented, fits in *.
  assert (Ef : (if is_west st then wrapping_sub64 (alloc_offset st) (n + 3) else wrapping_add64 (alloc_offset st) (n + 3)) = frame_end n).
  { unfold frame_end, RESERVED. destruct (is_west st); no_wrap; done. }
  assert (Hfr : 0 <= frame_end n <= size st) by (unfold frame_end, RESERVED; destruct (is_west st); lia).
  rewrite Ef. set (st1 := set_offsets (frame_end n) (frame_end n) (stack_offset st) false st).
  rewrite (run_bind (modify _) _ st tt st1), (run_bind get _ st1 st1 st1) by done. unfold derive_ptr.
  rewrite !bytes_offset by (done || split; done). unfold pushed. fold st1.
  apply (store3 st1 (slot_pointer st1) (is_west st1) (frame_end n)). intros slot Hslot.
  assert (Hr : 0 <= slot_at (is_west st1) (frame_end n) slot < size st).
  { unfold slot_at, is_west. cbn [st1 set_offsets stack_offset alloc_offset]. unfold frame_end, RESERVED in *.
    destruct (is_west st), (Z.ltb_spec (alloc_offset st - (n + 3)) (stack_offset st)), (Z.ltb_spec (alloc_offset st + (n + 3)) (stack_offset st)); lia. }
  split; [|done]. unfold slot_pointer, derive_ptr, slot_offset, slot_offset_west, slot_offset_east. cbn [frame_offset st1 set_offsets start].
  f_equal. unfold slot_at in *. destruct (is_west st1); no_wrap; done.
Qed.

Lemma pushed_inv n :
  pc st = false -> 0 <= n -> fits FramePush (oriented st) (n + RESERVED) st lo -> frame_end n <> stack_offset st ->
  is_west (pushed n) = negb (is_west st) /\ same_arena st (pushed n) /\
  same_outside (alloc_offset st) (stack_offset st) st (pushed n) /\
  Inv (pushed n) (alloc_offset st) (stack_offset st) ((frame_offset st, stack_offset st) :: rest).
Proof.
  intros Hpc Hn Hfit Hne. pose proof (inv_place _ _ _ _ HI) as Hp. rewrite Hpc in Hp.
  assert (Hw : is_west (pushed n) = negb (is_west st)).
  { unfold is_west at 1, pushed. cbn. unfold frame_end, fits, oriented, RESERVED in *. destruct (is_west st); cbn; lia. }
  set (nf := frame_end n). set (st1 := set_offsets nf nf (stack_offset st) false st).
  assert (Hw1 : is_west st1 = negb (is_west st)) by exact Hw.
  assert (Ho : same_outside (alloc_offset st) (stack_offset st) st (pushed n)).
  { intros p Hn'. unfold pushed. fold nf st1. rewrite stored_outside; [done|]. intros slot Hslot. cbn [st1 start set_offsets].
    rewrite Hw1. unfold between, slot_at, nf, frame_end, fits, oriented, RESERVED, placed in *. destruct (is_west st); cbn [negb]; lia. }
  split; [done|]. split; [done|]. split; [done|].
  destruct (stored_saved st1 (is_west st1) nf (ptr st (frame_offset st)) (ptr st (stack_offset st)) (ptr st (alloc_offset st))) as (S0 & S1 & S2).
  change (saved (pushed n) (is_west st1) nf FRAME = ptr st (frame_offset st)) in S0.
  change (saved (pushed n) (is_west st1) nf STACK = ptr st (stack_offset st)) in S1.
  change (saved (pushed n) (is_west st1) nf ALLOC = ptr st (alloc_offset st)) in S2. rewrite Hw1 in S0, S1, S2.
  split.
  - apply (arena_ok_ext st); [done|apply HI].
  - change (pc (pushed n)) with false. rewrite Hw. cbn [frame_offset stack_offset alloc_offset pushed stored set_mem set_offsets].
    unfold placed, frame_end, fits, oriented, RESERVED in *. destruct (is_west st); cbn [negb]; lia.
  - rewrite Hw. unfold frame_base. change (pc (pushed n)) with false. cbn [frame_offset pushed stored set_mem set_offsets]. fold nf.
    cbn [linked]. split; [exact S2|]. split; [exact S0|]. split; [exact S1|]. split; [done|].
    exists lo, hi. rewrite negb_involutive. split; [done|].
    apply linked_ext with st (frame_offset st); [done| | |].
    + intros p Hp'. apply Ho. unfold between, placed, RESERVED in *. destruct (is_west st); lia.
    + intros slot Hslot. unfold saved. change (start (pushed n)) with (start st). apply Ho.
      unfold between, placed, slot_at, RESERVED in *. destruct (is_west st); lia.
    + pose proof (inv_linked _ _ _ _ HI) as Hl. unfold frame_base in Hl. by rewrite Hpc in Hl.
Qed.

(** The state after the frame is popped *)
Lemma frame_pop_spec f s rest' :
  rest = (f, s) :: rest' ->
  let st' := set_offsets f s lo false st in
  frame_pop st = Ok (tt, st') /\ is_west st' = negb (is_west st) /\ exists lo' hi', Inv st' lo' hi' rest'.
Proof.
  intros ->. pose proof (inv_linked _ _ _ _ HI) as Hl. cbn [linked] in Hl. destruct Hl as (Sa & Sf & Ss & Eh & lo' & hi' & Hp & Hl).
  pose proof (inv_arena _ _ _ _ HI) as Hok. pose proof (linked_bounds _ _ _ _ _ _ Hl) as Hb. pose proof (lo_range _ _ _ _ HI) as Hlo.
  assert (Hr : 0 <= f <= size st /\ 0 <= s <= size st) by (unfold placed, RESERVED in Hp; destruct (is_west st); cbn [negb] in *; lia).
  intros st'. assert (Hw : is_west st' = negb (is_west st)) by (unfold is_west at 1; by eapply placed_west). split; [|split; [done|]].
  - unfold frame_pop. rewrite (run_bind get _ st st st) by done.
    unfold prev_frame_pointer_pointer, prev_stack_pointer_pointer, prev_alloc_pointer_pointer.
    rewrite (run_bind _ _ st _ _ (read_prev _ _ _ _ HI FRAME ltac:(unfold FRAME; lia))).
    rewrite (run_bind _ _ st _ _ (read_prev _ _ _ _ HI STACK ltac:(unfold STACK; lia))).
    rewrite (run_bind _ _ st _ _ (read_prev _ _ _ _ HI ALLOC ltac:(unfold ALLOC; lia))).
    rewrite Sa, Sf, Ss, !(proj2 (Z.eqb_neq (ptr st _) 0)) by (apply ptr_nonzero; tauto). cbn [orb].
    rewrite !offset_of_ptr by tauto. done.
  - exists lo', hi'. split; [by apply (arena_ok_ext st)| |].
    + change (pc st') with false. rewrite Hw. done.
    + rewrite Hw. by apply linked_ext with st f.
Qed.
Lemma frame_pop_top : rest = [] -> frame_pop st = Panic.
Proof.
  intros ->. pose proof (inv_linked _ _ _ _ HI) as Hl. cbn [linked] in Hl. destruct Hl as (Sa & Sf & Ss & _).
  unfold frame_pop. rewrite (run_bind get _ st st st) by done.
  unfold prev_frame_pointer_pointer, prev_stack_pointer_pointer, prev_alloc_pointer_pointer.
  rewrite (run_bind _ _ st _ _ (read_prev _ _ _ _ HI FRAME ltac:(unfold FRAME; lia))).
  rewrite (run_bind _ _ st _ _ (read_prev _ _ _ _ HI STACK ltac:(unfold STACK; lia))).
  rewrite (run_bind _ _ st _ _ (read_prev _ _ _ _ HI ALLOC ltac:(unfold ALLOC; lia))). by rewrite Sf.
Qed.
End frames.

(** ** Copying out *)

(** A copy within the stack: read a slot, write another *)
Lemma copy_word st o o' (k : M unit) :
  0 <= o < size st -> 0 <= o' < size st ->
  (v ← read (start st + o); _ ← write (start st + o') v; k) st =
  k (set_mem (<[start st + o' := word_at st (start st + o)]> (mem st)) st).
Proof.
  intros H1 H2. rewrite (run_bind _ _ _ _ _ (read_offset st o H1)). by rewrite (run_bind _ _ _ _ _ (write_offset st o' _ H2)).
Qed.

Section copying.
Context (st : NockStack) (lo hi : Z) (rest : list (Z * Z)) (HI : Inv st lo hi rest).

Definition copy_words : Z := if is_west st then RESERVED + 1 else RESERVED.
(** The state in which the saved pointers are next to the allocations *)
Definition copying_state : NockStack :=
  let st1 := stored st (is_west st) (alloc_offset st) (saved st (is_west st) (frame_offset st) FRAME)
    (saved st (is_west st) (frame_offset st) STACK) (saved st (is_west st) (frame_offset st) ALLOC) in
  set_offsets (frame_offset st)
    (if is_west st then alloc_offset st - copy_words else alloc_offset st + copy_words) (alloc_offset st) true st1.

Lemma pre_copy_spec :
  pc st = false ->
  (fits FramePush (oriented st) copy_words st lo /\ pre_copy st = Ok (tt, copying_state)) \/
  (~ fits FramePush (oriented st) copy_words st lo /\ stops (pre_copy st)).
Proof.
  intros Hpc. pose proof (offsets_range _ _ _ _ HI) as (Hs & Ha & Hf). specialize (Hf Hpc).
  pose proof (inv_place _ _ _ _ HI) as Hp. rewrite Hpc in Hp. pose proof (inv_bounds _ _ _ _ HI) as Hb.
  assert (Hn : word_count copy_words) by (unfold word_count, copy_words, RESERVED; destruct (is_west st); lia).
  pose proof (check_spec _ _ _ _ HI FramePush (oriented st) (pc st) copy_words ltac:(done) Hn ltac:(by left)) as Hc. cbn zeta in Hc.
  change {| orientation := oriented st; alloc_type := FramePush; alloc_pc := pc st |} with (get_alloc_config FramePush st) in Hc.
  unfold pre_copy. rewrite (run_bind get _ st st st), Hpc by done. fold copy_words.
  destruct Hc as [[Hfit E]|[Hfit E]]; [|right; split; [done|by apply stops_bind]]. left. split; [done|]. rewrite (run_bind _ _ st _ _ E).
  destruct (inv_arena _ _ _ _ HI) as [? ? ? Hpma].
  assert (Hf' : forall slot, 0 <= slot < 3 -> slot_pointer st slot = start st + slot_at (is_west st) (frame_offset st) slot /\
      0 <= slot_at (is_west st) (frame_offset st) slot < size st).
  { intros slot Hslot. pose proof (prev_address _ _ _ _ HI slot Hslot) as E1. pose proof (slot_range _ _ _ _ HI slot Hslot) as E2.
    unfold prev_pointer_pointer, frame_base in *. rewrite Hpc in *. done. }
  assert (Ha' : forall slot, 0 <= slot < 3 -> free_slot st slot = start st + slot_at (is_west st) (alloc_offset st) slot /\
      0 <= slot_at (is_west st) (alloc_offset st) slot < size st).
  { intros slot Hslot. assert (Hr : 0 <= slot_at (is_west st) (alloc_offset st) slot < size st)
      by (unfold slot_at, fits, oriented, copy_words, RESERVED, placed in *; destruct (is_west st); lia). split; [|done].
    unfold free_slot, derive_ptr, free_slot_offset, free_slot_west_offset, free_slot_east_offset. f_equal. by apply (slot_address _ _ _ _ HI). }
  assert (Hd : forall i j, 0 <= i < 3 -> 0 <= j < 3 -> start st + slot_at (is_west st) (alloc_offset st) i <> start st + slot_at (is_west st) (frame_offset st) j)
    by (intros i j; unfold slot_at, fits, oriented, copy_words, RESERVED, placed in *; destruct (is_west st); lia).
  destruct (Hf' FRAME) as [-> F0]; [unfold FRAME; lia|]. destruct (Hf' STACK) as [-> F1]; [unfold STACK; lia|].
  destruct (Hf' ALLOC) as [-> F2]; [unfold ALLOC; lia|]. destruct (Ha' FRAME) as [-> A0]; [unfold FRAME; lia|].
  destruct (Ha' STACK) as [-> A1]; [unfold STACK; lia|]. destruct (Ha' ALLOC) as [-> A2]; [unfold ALLOC; lia|].
  etransitivity; [by apply copy_word|]. set (st1 := set_mem _ st).
  etransitivity; [by apply (copy_word st1)|]. set (st2 := set_mem _ st1).
  etransitivity; [by apply (copy_word st2)|]. unfold modify. do 2 f_equal. unfold copying_state, stored, saved, set_mem, set_offsets. cbn.
  f_equal; [unfold copy_words, RESERVED, fits, oriented in *; destruct (is_west st); no_wrap; done|].
  f_equal; [unfold st2; rewrite word_at_write, decide_False by (apply Hd; unfold STACK, ALLOC; lia)|f_equal];
    unfold st1; rewrite word_at_write, decide_False by (apply Hd; unfold FRAME, STACK, ALLOC; lia); done.
Qed.
Lemma pre_copy_again : pc st = true -> pre_copy st = Ok (tt, st).
Proof. intros Hpc. unfold pre_copy. by rewrite (run_bind get _ st st st), Hpc by done. Qed.

Lemma copying_inv :
  pc st = false -> fits FramePush (oriented st) copy_words st lo ->
  Inv copying_state lo hi rest /\ same_outside (alloc_offset st) (stack_offset st) st copying_state.
Proof.
  intros Hpc Hfit. pose proof (inv_place _ _ _ _ HI) as Hp. rewrite Hpc in Hp.
  assert (Ho : same_outside (alloc_offset st) (stack_offset st) st copying_state).
  { intros p Hn. unfold copying_state. change (word_at (set_offsets ?f ?s ?a ?c ?x) p) with (word_at x p). apply stored_outside.
    intros slot Hslot. unfold between, slot_at, fits, oriented, copy_words, RESERVED in *. destruct (is_west st); lia. }
  split; [|done]. apply inv_update with st; [done|done| | |].
  - intros p Hn. apply Ho. unfold between, placed, RESERVED in *. destruct (is_west st); lia.
  - cbn. unfold copied_out, copy_words, placed, fits, oriented, RESERVED in *. destruct (is_west st); cbn; lia.
  - intros slot Hslot. unfold frame_base at 2. rewrite Hpc.
    destruct (stored_saved st (is_west st) (alloc_offset st) (saved st (is_west st) (frame_offset st) FRAME)
      (saved st (is_west st) (frame_offset st) STACK) (saved st (is_west st) (frame_offset st) ALLOC)) as (S0 & S1 & S2).
    assert (slot = FRAME \/ slot = STACK \/ slot = ALLOC) as [-> | [-> | ->]] by (unfold FRAME, STACK, ALLOC; lia); done.
Qed.
End copying.

(** ** Allocation in the previous frame *)

Section previous.
Context (st : NockStack) (lo hi : Z) (rest : list (Z * Z)) (HI : Inv st lo hi rest) (Hpc : pc st = true).

Definition prev_end (n : Z) : Z := if is_west st then lo + n else lo - n.
Definition prev_block (n : Z) : Z := if is_west st then lo else lo - n.
Definition prev_advanced (n : Z) : NockStack :=
  set_mem (<[start st + slot_at (is_west st) (alloc_offset st) ALLOC := ptr st (prev_end n)]> (mem st)) st.

Lemma prev_alloc_spec n :
  word_count n -> 0 < n ->
  (fits AllocPreviousFrame (oriented st) n st lo /\ raw_alloc_in_previous_frame n st = Ok (start st + prev_block n, prev_advanced n)) \/
  (~ fits AllocPreviousFrame (oriented st) n st lo /\ stops (raw_alloc_in_previous_frame n st)).
Proof.
  intros Hn Hn0. pose proof (offsets_range _ _ _ _ HI) as (Hs & Ha & _). pose proof (lo_range _ _ _ _ HI) as Hlo.
  pose proof (inv_place _ _ _ _ HI) as Hp. rewrite Hpc in Hp. pose proof (inv_bounds _ _ _ _ HI) as Hb.
  pose proof (inv_arena _ _ _ _ HI) as Hok. destruct (Hok) as [? ? ? _].
  pose proof (check_spec _ _ _ _ HI AllocPreviousFrame (oriented st) (pc st) n ltac:(done) Hn ltac:(by right)) as Hc. cbn zeta in Hc.
  pose proof (prev_alloc_reads _ _ _ _ HI) as Ep.
  pose proof (prev_address _ _ _ _ HI ALLOC ltac:(unfold ALLOC; lia)) as Eaddr.
  pose proof (slot_range _ _ _ _ HI ALLOC ltac:(unfold ALLOC; lia)) as Hslot. unfold frame_base in Eaddr, Hslot. rewrite Hpc in Eaddr, Hslot.
  unfold raw_alloc_in_previous_frame. rewrite (run_bind _ _ st tt st) by (by apply pre_copy_again). rewrite (run_bind get _ st st st) by done.
  unfold raw_alloc_in_previous_frame_west, raw_alloc_in_previous_frame_east, check, prev_block, prev_advanced, prev_end.
  unfold oriented, fits, copied_out, RESERVED, word_count in *.
  destruct (is_west st); destruct Hc as [[Hfit E]|[Hfit E]]; try (right; split; [exact Hfit|apply stops_bind; exact E]);
    left; (split; [done|]); rewrite (run_bind _ _ st tt st) by exact E; rewrite (run_bind _ _ _ _ _ Ep), (run_bind get _ st st st) by done.
  - rewrite (proj2 (Z.leb_gt U64 (lo + n))), (proj2 (Z.leb_gt (size st) (lo + n))) by (unfold U64; lia).
    unfold prev_alloc_pointer_pointer, derive_ptr. rewrite Eaddr, bytes_offset by (done || lia).
    by rewrite (run_bind _ _ _ _ _ (write_offset st _ _ Hslot)).
  - destruct (sub_or_panic_spec lo n st) as [[_ E1]|[? _]]; [|lia]. rewrite (run_bind _ _ _ _ _ E1).
    rewrite (proj2 (Z.leb_gt (size st) (lo - n))) by lia.
    unfold prev_alloc_pointer_pointer, derive_ptr. rewrite Eaddr, bytes_offset by (done || lia).
    by rewrite (run_bind _ _ _ _ _ (write_offset st _ _ Hslot)).
Qed.

Lemma prev_advanced_inv n :
  0 <= n -> fits AllocPreviousFrame (oriented st) n st lo -> Inv (prev_advanced n) (prev_end n) hi rest.
Proof.
  intros Hn Hfit. destruct HI as [Hok Hp Hl]. rewrite Hpc in Hp. unfold frame_base in Hl. rewrite Hpc in Hl.
  pose proof (linked_bounds _ _ _ _ _ _ Hl) as Hb.
  assert (Ho : forall o, o <> slot_at (is_west st) (alloc_offset st) ALLOC -> word_at (prev_advanced n) (start st + o) = word_at st (start st + o)).
  { intros o Hne. unfold prev_advanced. rewrite word_at_write, decide_False; [done|lia]. }
  assert (Hother : forall slot, slot <> ALLOC -> saved (prev_advanced n) (is_west st) (alloc_offset st) slot = saved st (is_west st) (alloc_offset st) slot).
  { intros slot Hne. apply Ho. unfold slot_at. destruct (is_west st); lia. }
  split; [by apply (arena_ok_ext st)| |].
  - change (pc (prev_advanced n)) with (pc st). rewrite Hpc. change (is_west (prev_advanced n)) with (is_west st).
    unfold copied_out, prev_end, fits, oriented, RESERVED in *. cbn. destruct (is_west st); lia.
  - unfold frame_base. change (pc (prev_advanced n)) with (pc st). rewrite Hpc. change (is_west (prev_advanced n)) with (is_west st).
    change (alloc_offset (prev_advanced n)) with (alloc_offset st).
    assert (Sa : saved (prev_advanced n) (is_west st) (alloc_offset st) ALLOC = ptr st (prev_end n)).
    { unfold saved, prev_advanced. by rewrite word_at_write, decide_True. }
    unfold copied_out, prev_end, fits, oriented, RESERVED in *.
    destruct rest as [|[f s] rest']; cbn [linked] in Hl |- *; rewrite (Hother FRAME), (Hother STACK) by (unfold FRAME, STACK, ALLOC; lia).
    + destruct Hl as (_ & ? & ? & ? & ?). split_and!; try done; cbn; destruct (is_west st); lia.
    + destruct Hl as (_ & ? & ? & ? & lo' & hi' & Hpl & Hl). split; [exact Sa|]. split_and!; try done. exists lo', hi'.
      unfold placed, RESERVED in *. split; [destruct (is_west st); cbn [negb] in *; lia|].
      apply linked_ext with st f; [done| |intros slot Hslot|done].
      * intros p Hn'. replace p with (start st + (p - start st)) by lia. apply Ho. unfold between, slot_at, ALLOC in *.
        destruct (is_west st); cbn [negb] in *; lia.
      * apply Ho. unfold slot_at, ALLOC in *. destruct (is_west st); cbn [negb] in *; lia.
Qed.
End previous.

(** ** The lightweight stack *)

Section light.
Context (st : NockStack) (lo hi : Z) (rest : list (Z * Z)) (HI : Inv st lo hi rest).

Definition light_orientation : ArenaOrientation := if west_oriented st then West else East.
Definition stack_end (n : Z) : Z := if west_oriented st then stack_offset st + n else stack_offset st - n.
Definition stack_block (n : Z) : Z := if west_oriented st then stack_offset st else stack_offset st - n.
(** [n] words below the end of the lightweight stack belong to it *)
Definition has_entry (n : Z) : Prop :=
  if pc st then if is_west st then stack_offset st + n <= alloc_offset st - (RESERVED + 1) else alloc_offset st + RESERVED <= stack_offset st - n
  else if is_west st then frame_offset st <= stack_offset st - n else stack_offset st + n <= frame_offset st.

Lemma push_spec n :
  word_count n ->
  (fits Push light_orientation n st lo /\ push n st = Ok (start st + stack_block n, set_stack_offset (stack_end n) st)) \/
  (~ fits Push light_orientation n st lo /\ stops (push n st)).
Proof.
  intros Hn. pose proof (offsets_range _ _ _ _ HI) as (Hs & Ha & _). destruct (inv_arena _ _ _ _ HI) as [? ? ? _].
  pose proof (lo_range _ _ _ _ HI) as Hlo. pose proof (push_limit_reads _ _ _ _ HI) as El.
  assert (Hpl : push_limit st = Ok (if pc st then lo else alloc_offset st, st)) by exact El.
  pose proof (check_spec _ _ _ _ HI Push light_orientation (pc st) n ltac:(done) Hn ltac:(by right)) as Hc. cbn zeta in Hc.
  unfold push. rewrite (run_bind get _ st st st) by done. unfold stack_block, stack_end, light_orientation, fits, word_count in *.
  destruct (west_oriented st); [unfold push_west|unfold push_east]; unfold check;
    (destruct Hc as [[Hfit E]|[Hfit E]]; [|right; split; [exact Hfit|apply stops_bind; exact E]]);
    left; (split; [done|]); rewrite (run_bind _ _ st tt st) by exact E; rewrite (run_bind _ _ _ _ _ Hpl), (run_bind get _ st st st) by done.
  - assert (Ew : wrapping_add64 (stack_offset st) n = stack_offset st + n) by (no_wrap; done). rewrite Ew.
    rewrite (proj2 (Z.ltb_ge _ (stack_offset st + n))) by lia. done.
  - assert (0 <= (if pc st then lo else alloc_offset st)) by (destruct (pc st); lia).
    destruct (sub_or_panic_spec (stack_offset st) n st) as [[_ E1]|[? _]]; [|lia]. rewrite (run_bind _ _ _ _ _ E1).
    rewrite (proj2 (Z.ltb_ge (stack_offset st - n) _)) by lia. done.
Qed.
Lemma push_inv n :
  0 <= n -> fits Push light_orientation n st lo -> pc st = true \/ stack_end n <> alloc_offset st ->
  Inv (set_stack_offset (stack_end n) st) lo hi rest.
Proof.
  intros Hn Hfit Hroom. pose proof (inv_place _ _ _ _ HI) as Hp.
  apply inv_moved with st (stack_end n) (alloc_offset st); [done|apply moved_offsets|].
  unfold stack_end, light_orientation, west_oriented, fits, placed, copied_out, RESERVED in *.
  destruct (pc st), (is_west st); cbn in *; try (split; [done|]); destruct Hroom; lia || done.
Qed.

Lemma pop_spec n :
  0 <= n -> has_entry n ->
  let s' := if west_oriented st then stack_offset st - n else stack_offset st + n in
  pop n st = Ok (tt, set_stack_offset s' st) /\ Inv (set_stack_offset s' st) lo hi rest.
Proof.
  intros Hn He s'. pose proof (inv_place _ _ _ _ HI) as Hp. pose proof (inv_bounds _ _ _ _ HI) as Hb.
  pose proof (offsets_range _ _ _ _ HI) as (Hs & Ha & Hf). destruct (inv_arena _ _ _ _ HI) as [? ? ? _]. split.
  - unfold pop, s'. rewrite (run_bind get _ st st st) by done. destruct (west_oriented st) eqn:Ew.
    + unfold pop_west. rewrite (run_bind get _ st st st), (proj2 (Z.ltb_ge (stack_offset st) n)); [done| |done].
      unfold has_entry, west_oriented, placed, copied_out, RESERVED in *. destruct (pc st), (is_west st); cbn in *; done || lia.
    + unfold pop_east. assert (Hle : stack_offset st + n <= size st)
        by (unfold has_entry, west_oriented, placed, copied_out, RESERVED in *; destruct (pc st), (is_west st); cbn in *; done || lia).
      assert (E : wrapping_add64 (stack_offset st) n = stack_offset st + n) by (no_wrap; done).
      rewrite (run_bind (modify _) _ st tt (set_stack_offset (stack_offset st + n) st)) by (unfold modify; by rewrite E).
      set (st1 := set_stack_offset _ st). rewrite (run_bind get _ st1 st1 st1) by done.
      cbn [size stack_offset st1 set_stack_offset set_offsets]. by rewrite (proj2 (Z.ltb_ge (size st) _)).
  - apply inv_moved with st s' (alloc_offset st); [done|apply moved_offsets|].
    unfold s', has_entry, west_oriented, placed, copied_out, RESERVED in *.
    destruct (pc st), (is_west st); cbn in *; try (split; [done|]); lia.
Qed.
(** [top] is the block of the last push *)
Lemma top_spec n :
  0 <= n -> has_entry n -> top n st = Ok (start st + (if west_oriented st then stack_offset st - n else stack_offset st), st).
Proof.
  intros Hn He. pose proof (inv_place _ _ _ _ HI) as Hp. pose proof (inv_bounds _ _ _ _ HI) as Hb.
  pose proof (offsets_range _ _ _ _ HI) as (Hs & Ha & Hf). unfold top. rewrite (run_bind get _ st st st) by done.
  destruct (west_oriented st) eqn:Ew; [|done].
  unfold top_west. rewrite (run_bind get _ st st st), (proj2 (Z.ltb_ge (stack_offset st) n)); [done| |done].
  unfold has_entry, west_oriented, placed, copied_out, RESERVED in *. destruct (pc st), (is_west st); cbn in *; done || lia.
Qed.
End light.

(** ** Top frames *)

(** A fresh top frame satisfies the invariant, whatever the memory was *)
Lemma top_inv st west b lo :
  arena_ok st -> pc st = false -> is_west st = west -> frame_offset st = b -> 0 <= lo <= size st ->
  saved st west b FRAME = 0 -> saved st west b STACK = 0 -> saved st west b ALLOC = ptr st lo ->
  placed west b (stack_offset st) (alloc_offset st) lo (if west then size st else 0) ->
  Inv st lo (if west then size st else 0) [].
Proof.
  intros Hok Hpc Hw Hf Hlo S0 S1 S2 Hp. split; [done|by rewrite Hpc, Hw, Hf|].
  unfold frame_base. rewrite Hpc, Hw, Hf. cbn [linked]. done.
Qed.

Lemma save_top_spec st (address : Z -> Z) west b alloc :
  arena_ok st -> 0 <= alloc <= size st ->
  (forall slot, 0 <= slot < 3 -> address slot = start st + slot_at west b slot /\ 0 <= slot_at west b slot < size st) ->
  save_top address (start st + alloc) st = Ok (tt, stored st west b 0 0 (ptr st alloc)).
Proof. intros Hok Ha H. unfold save_top. rewrite bytes_offset by done. by apply store3. Qed.

Lemma from_arena_spec arena m n :
  0 < base arena -> 0 <= words arena -> base arena + words arena < 2 ^ 60 -> 0 <= n -> word_count (n + RESERVED) ->
  (words arena < n + RESERVED /\ from_arena arena m n = Ok (inr StackTooSmall)) \/
  (n + RESERVED <= words arena /\ exists st, from_arena arena m n = Ok (inl (st, words arena - (n + RESERVED))) /\
     (n + RESERVED < words arena -> is_west st = true /\ Inv st 0 (words arena) [])).
Proof.
  intros Hb Hw He Hn Hc. unfold from_arena, from_arena_internal, word_count, RESERVED in *.
  assert (E1 : wrapping_add64 n 3 = n + 3) by (no_wrap; done). assert (E2 : wrapping_add64 3 n = n + 3) by (no_wrap; lia).
  rewrite E1, E2. destruct (Z.ltb_spec (words arena) (n + 3)) as [Hlt|Hge]; [by left|right]. split; [done|].
  set (st0 := {| start := base arena; size := words arena; frame_offset := n + 3; stack_offset := n + 3; alloc_offset := words arena;
    least_space := words arena - (n + 3); pma := None; stack_epoch := 0; pc := false; mem := m |}).
  assert (Hok : arena_ok st0) by (split; done).
  pose proof (save_top_spec st0 (fun slot => base arena + wrapping_sub64 (n + 3) (slot + 1)) true (n + 3) 0 Hok ltac:(done)) as Es.
  rewrite Z.add_0_r in Es. cbn [start st0] in Es. rewrite Es.
  2: { intros slot Hslot. unfold slot_at. cbn [start size st0]. split; [|lia]. f_equal. no_wrap. done. }
  assert (E3 : wrapping_sub64 (words arena) (n + 3) = words arena - (n + 3)) by (no_wrap; done). rewrite E3, Z.eqb_refl.
  eexists. split; [done|]. intros Hroom. set (st := stored st0 true (n + 3) 0 0 (ptr st0 0)).
  destruct (stored_saved st0 true (n + 3) 0 0 (ptr st0 0)) as (S0 & S1 & S2).
  assert (Hwest : is_west st = true) by (unfold is_west; cbn; lia). split; [done|].
  apply (top_inv st true (n + 3) 0); try done. unfold placed, RESERVED. cbn. lia.
Qed.

Lemma bump_epoch_inv st lo hi rest : Inv st lo hi rest -> exists st', bump_epoch st = Ok (tt, st') /\ Inv st' lo hi rest /\
  mem st' = mem st /\ is_west st' = is_west st /\ pc st' = pc st.
Proof. intros HI. eexists. split; [reflexivity|]. split; [|done]. by apply inv_update with st; [..|apply HI|]. Qed.

Lemma reset_spec st n :
  arena_ok st -> 0 <= n -> word_count (n + RESERVED) -> n + RESERVED < size st ->
  exists st', reset n st = Ok (tt, st') /\ Inv st' 0 (size st) [] /\ is_west st' = true /\ pc st' = false.
Proof.
  intros Hok Hn Hc Hroom. destruct (Hok) as [? ? ? Hpma]. unfold reset, word_count, RESERVED in *.
  assert (E2 : wrapping_add64 3 n = n + 3) by (no_wrap; lia).
  rewrite (run_bind get _ st st st), E2, (proj2 (Z.ltb_ge (size st) (n + 3))) by (done || lia).
  set (st1 := set_least_space (size st - (n + 3)) (set_offsets (n + 3) (n + 3) (size st) false st)).
  rewrite (run_bind (modify _) _ st tt st1) by done. assert (Hok1 : arena_ok st1) by (by apply (arena_ok_ext st)).
  assert (Hsl : forall slot, 0 <= slot < 3 -> derive_ptr st (wrapping_sub64 (n + 3) (slot + 1)) = start st1 + slot_at true (n + 3) slot /\
      0 <= slot_at true (n + 3) slot < size st1).
  { intros slot Hslot. unfold slot_at, derive_ptr. cbn [start size st1 set_least_space set_offsets]. split; [|lia]. f_equal. no_wrap. done. }
  pose proof (save_top_spec st1 _ true (n + 3) 0 Hok1 ltac:(cbn; lia) Hsl) as Es. rewrite Z.add_0_r in Es.
  rewrite (run_bind _ _ _ _ _ Es).
  set (st2 := stored st1 true (n + 3) 0 0 (ptr st1 0)). rewrite (run_bind get _ st2 st2 st2) by done.
  assert (Hw : is_west st2 = true) by (unfold is_west; cbn; lia). rewrite Hw, (run_bind (assert true) _ st2 tt st2) by done.
  destruct (stored_saved st1 true (n + 3) 0 0 (ptr st1 0)) as (S0 & S1 & S2).
  assert (HI : Inv st2 0 (size st) []) by (apply (top_inv st2 true (n + 3) 0); try done; unfold placed, RESERVED; cbn; lia).
  destruct (bump_epoch_inv _ _ _ _ HI) as (st3 & -> & HI3 & _ & Hw3 & Hpc3). exists st3. split_and!; try done. congruence.
Qed.

(** The flip keeps what the top frame preserved: its allocations are now those of the
    new top frame *)
Section flip.
Context (st : NockStack) (lo hi : Z) (HI : Inv st lo hi []).

Definition flip_base (west : bool) : Z := if west then 0 else size st.
Definition flipped (west : bool) (nf : Z) : NockStack :=
  set_epoch (wrapping_add64 (stack_epoch st) 1)
    (set_least_space (Z.abs (nf - lo)) (set_offsets nf nf lo false (stored st west nf 0 0 (ptr st (flip_base west))))).

Lemma flipped_inv (west : bool) (nf : Z) :
  0 <= lo <= size st -> (if west then 3 <= nf < lo else lo < nf /\ nf + 3 <= size st) ->
  is_west (flipped west nf) = west /\ same_outside nf (flip_base west) st (flipped west nf) /\
  Inv (flipped west nf) (flip_base west) (flip_base (negb west)) [].
Proof.
  intros Hlo Hnf. pose proof (inv_arena _ _ _ _ HI) as Hok. pose proof (Hok) as [? ? ? _].
  assert (Hw : is_west (flipped west nf) = west) by (unfold is_west; cbn; destruct west; lia). split; [done|]. split.
  - intros p Hp. change (word_at (stored st west nf 0 0 (ptr st (flip_base west))) p = word_at st p).
    apply stored_outside. intros slot Hslot. unfold between, slot_at, flip_base in *. destruct west; lia.
  - destruct (stored_saved st west nf 0 0 (ptr st (flip_base west))) as (S0 & S1 & S2).
    replace (flip_base (negb west)) with (if west then size (flipped west nf) else 0) by (by destruct west).
    apply (top_inv (flipped west nf) west nf); try done; [by apply (arena_ok_ext st)|unfold flip_base; cbn; destruct west; lia|].
    unfold placed, RESERVED, flip_base. cbn. destruct west; lia.
Qed.

(** The new top frame before the epoch is counted *)
Definition top_installed (west : bool) (nf : Z) : NockStack :=
  set_least_space (Z.abs (nf - lo)) (set_offsets nf nf lo false (stored st west nf 0 0 (ptr st (flip_base west)))).

Lemma flip_to_east_spec n :
  word_count n -> is_west st = true -> 3 <= n ->
  (lo <= size st - n -> flip_to_east n lo st = Ok (tt, top_installed false (size st - n))) /\
  (size st - n < lo -> stops (flip_to_east n lo st)).
Proof.
  intros Hc Ew Hn. pose proof (inv_arena _ _ _ _ HI) as Hok. pose proof (Hok) as [? ? ? _]. pose proof (lo_range _ _ _ _ HI) as Hlo.
  pose proof (check_spec _ _ _ _ HI FlipTopFrame West (pc st) n ltac:(done) Hc ltac:(by right)) as Hck. cbn zeta in Hck. unfold fits, word_count in *.
  unfold flip_to_east, check. split; intros Hr; destruct Hck as [[Hfit E]|[Hfit E]]; try lia; [|apply stops_bind; exact E].
  rewrite (run_bind _ _ st tt st) by exact E. rewrite (run_bind get _ st st st) by done.
  assert (E3 : wrapping_sub64 (size st) n = size st - n) by (no_wrap; done). rewrite E3.
  assert (Hsl : forall slot, 0 <= slot < 3 -> derive_ptr st (size st - n) + slot = start st + slot_at false (size st - n) slot /\
    0 <= slot_at false (size st - n) slot < size st) by (intros slot Hslot; unfold slot_at, derive_ptr; lia).
  rewrite (run_bind _ _ _ _ _ (save_top_spec st _ false _ (size st) Hok ltac:(lia) Hsl)), (proj2 (Z.ltb_ge (size st - n) lo)) by lia.
  rewrite (run_bind (modify _) _ _ tt (top_installed false (size st - n)));
    [|unfold modify, top_installed; by rewrite Z.abs_eq by lia].
  rewrite (run_bind get _ _ (top_installed false (size st - n)) (top_installed false (size st - n))) by done.
  replace (is_west _) with false; [done|]. symmetry. unfold is_west. cbn. lia.
Qed.
Lemma flip_to_west_spec n :
  word_count n -> is_west st = false -> 3 <= n ->
  (n < lo -> flip_to_west n lo st = Ok (tt, top_installed true n)) /\ (lo <= n -> stops (flip_to_west n lo st)).
Proof.
  intros Hc Ew Hn. pose proof (inv_arena _ _ _ _ HI) as Hok. pose proof (Hok) as [? ? ? _]. pose proof (lo_range _ _ _ _ HI) as Hlo.
  pose proof (check_spec _ _ _ _ HI FlipTopFrame East (pc st) n ltac:(done) Hc ltac:(by right)) as Hck. cbn zeta in Hck. unfold fits, word_count in *.
  assert (Hrun : n <= lo -> flip_to_west n lo st = (_ ← get; assert (negb (n =? lo))) (top_installed true n)).
  { intros Hr. destruct Hck as [[Hfit E]|[Hfit E]]; [|lia]. unfold flip_to_west, check.
    rewrite (run_bind _ _ st tt st) by exact E. rewrite (run_bind get _ st st st) by done.
    assert (Hsl : forall slot, 0 <= slot < 3 -> derive_ptr st n - (slot + 1) = start st + slot_at true n slot /\
      0 <= slot_at true n slot < size st) by (intros slot Hslot; unfold slot_at, derive_ptr; lia).
    pose proof (save_top_spec st _ true _ 0 Hok ltac:(lia) Hsl) as Es. rewrite Z.add_0_r in Es.
    rewrite (run_bind _ _ _ _ _ Es), (proj2 (Z.ltb_ge lo n)) by lia.
    rewrite (run_bind (modify _) _ _ tt (top_installed true n));
      [|unfold modify, top_installed; do 4 f_equal; lia].
    rewrite !(run_bind get _ _ (top_installed true n) (top_installed true n)) by done.
    replace (is_west _) with (negb (n =? lo)); [done|]. unfold is_west. cbn. lia. }
  split; intros Hr.
  - rewrite Hrun, (proj2 (Z.eqb_neq n lo)) by lia. done.
  - destruct (Z.eq_dec n lo) as [->|Hne]; [rewrite Hrun, Z.eqb_refl by lia; by left|].
    destruct Hck as [[Hfit E]|[Hfit E]]; [lia|]. unfold flip_to_west, check. apply stops_bind. exact E.
Qed.

Lemma flip_top_frame_spec n :
  0 <= n -> word_count (n + RESERVED) ->
  let nf := if is_west st then size st - (n + RESERVED) else n + RESERVED in
  ((if is_west st then lo <= nf else nf < lo) -> flip_top_frame n st = Ok (tt, flipped (negb (is_west st)) nf)) /\
  ((if is_west st then nf < lo else lo <= nf) -> stops (flip_top_frame n st)).
Proof.
  intros Hn Hc nf. pose proof (inv_arena _ _ _ _ HI) as Hok.
  pose proof (inv_linked _ _ _ _ HI) as Hl. cbn [linked] in Hl. destruct Hl as (Sa & Sf & Ss & Hlo & _).
  unfold flip_top_frame. rewrite (run_bind get _ st st st) by done.
  unfold prev_frame_pointer_pointer, prev_stack_pointer_pointer, prev_alloc_pointer_pointer.
  rewrite (run_bind _ _ st _ _ (read_prev _ _ _ _ HI FRAME ltac:(unfold FRAME; lia))), Sf.
  rewrite (run_bind (assert _) _ st tt st) by done.
  rewrite (run_bind _ _ st _ _ (read_prev _ _ _ _ HI STACK ltac:(unfold STACK; lia))), Ss.
  rewrite (run_bind (assert _) _ st tt st) by done.
  rewrite (run_bind _ _ st _ _ (read_prev _ _ _ _ HI ALLOC ltac:(unfold ALLOC; lia))), Sa, offset_of_ptr by done.
  assert (E2 : wrapping_add64 RESERVED n = n + RESERVED) by (unfold word_count, RESERVED in *; no_wrap; lia). rewrite E2.
  assert (H3 : 3 <= n + RESERVED) by (unfold RESERVED; lia).
  destruct (is_west st) eqn:Ew; subst nf.
  - destruct (flip_to_east_spec _ Hc Ew H3) as [H1 H2]. split; intros Hr; [|by apply stops_bind, H2].
    by rewrite (run_bind _ _ _ _ _ (H1 Hr)).
  - destruct (flip_to_west_spec _ Hc Ew H3) as [H1 H2]. split; intros Hr; [|by apply stops_bind, H2].
    by rewrite (run_bind _ _ _ _ _ (H1 Hr)).
Qed.
End flip.
