(* ===== verification/NockStackFrames.v ===== *)
(** Computations on the NockStack: nested frames, the copying phase and the writes of
    its clients, and what they leave of the frames below. *)
From stdpp Require Import base option list numbers gmap.
From Stdlib Require Import ZArith Lia.
From S2P Require Import Prelude NockStack NockStackTheorems.

(** Some space is left between the stack and the allocations *)
Definition roomy (st : NockStack) : Prop := pc st = true \/ stack_offset st <> alloc_offset st.
(** The slots that hold the saved pointers of the current frame *)
Definition reserved (st : NockStack) (o : Z) : Prop :=
  exists slot, 0 <= slot < 3 /\ o = slot_at (is_west st) (frame_base st) slot.

(** What the code of one frame does, from its push on: it allocates, uses the
    lightweight stack, writes to the memory between [lo] and [hi] that the frame was
    given, runs inner frames, and finally copies data to the previous frame. *)
Inductive body (lo hi : Z) : NockStack -> NockStack -> Prop :=
  | body_nil st : body lo hi st st
  | body_alloc n p st st1 st2 :
      body lo hi st st1 -> word_count n -> raw_alloc n st1 = Ok (p, st2) -> roomy st2 -> body lo hi st st2
  | body_push n p st st1 st2 :
      body lo hi st st1 -> word_count n -> push n st1 = Ok (p, st2) -> roomy st2 -> body lo hi st st2
  | body_pop n st st1 st2 :
      body lo hi st st1 -> 0 <= n -> has_entry st1 n -> pop n st1 = Ok (tt, st2) -> body lo hi st st2
  | body_write p v st st1 :
      body lo hi st st1 -> between lo hi (p - start st1) -> ~ reserved st1 (p - start st1) ->
      body lo hi st (set_mem (<[p := v]> (mem st1)) st1)
  | body_pre_copy st st1 st2 :
      body lo hi st st1 -> pre_copy st1 = Ok (tt, st2) -> body lo hi st st2
  | body_alloc_prev n p st st1 st2 :
      body lo hi st st1 -> word_count n -> 0 < n -> raw_alloc_in_previous_frame n st1 = Ok (p, st2) -> body lo hi st st2
  | body_frame n st st1 st2 st3 st4 :
      body lo hi st st1 -> 0 <= n -> word_count (n + RESERVED) -> frame_push n st1 = Ok (tt, st2) -> roomy st2 ->
      body (alloc_offset st1) (stack_offset st1) st2 st3 -> frame_pop st3 = Ok (tt, st4) -> body lo hi st st4.

(** * A state inside the frame that [st0] has just pushed *)

Definition advanced (west : bool) (lo0 lo : Z) : Prop := if west then lo0 <= lo else lo <= lo0.
Record within (st0 : NockStack) (lo0 hi : Z) (st : NockStack) (lo : Z) : Prop := {
  within_arena : same_arena st0 st;
  within_outside : same_outside lo0 hi st0 st;
  within_west : is_west st = is_west st0;
  within_place : if pc st then copied_out (is_west st0) (stack_offset st) (alloc_offset st) lo hi
                 else placed (is_west st0) (frame_offset st) (stack_offset st) (alloc_offset st) lo hi;
  within_saved : forall slot, 0 <= slot < 2 ->
    saved st (is_west st0) (frame_base st) slot = saved st0 (is_west st0) (frame_base st0) slot;
  within_lo : saved st (is_west st0) (frame_base st) ALLOC = ptr st0 lo;
  within_advanced : advanced (is_west st0) lo0 lo;
  within_frame : pc st = false -> lo = lo0 /\ frame_offset st = frame_offset st0 }.

Section inside.
Context (st0 : NockStack) (lo0 hi : Z) (rest : list (Z * Z)) (HI0 : Inv st0 lo0 hi rest) (Hpc0 : pc st0 = false).

Lemma within_refl : within st0 lo0 hi st0 lo0.
Proof.
  split; try done; [apply HI0|by eapply saved_alloc|unfold advanced; destruct (is_west st0); lia].
Qed.

(** The senior frames are as before *)
Lemma within_inv st lo : within st0 lo0 hi st lo -> Inv st lo hi rest.
Proof.
  intros [Ha Ho Hw Hp Hs Hl Hadv _]. destruct HI0 as [Hok Hp0 Hl0]. split; [by apply (arena_ok_ext st0)|by rewrite Hw|].
  rewrite Hw. pose proof Ha as (Es & Ez & _). pose proof (linked_bounds _ _ _ _ _ _ Hl0) as Hb0.
  assert (Ep : forall o, ptr st o = ptr st0 o) by (intros o; unfold ptr; by rewrite Es).
  rewrite Hpc0 in Hp0. unfold placed, copied_out, RESERVED, advanced in *.
  destruct rest as [|[f s] rest']; cbn [linked] in Hl0 |- *; rewrite (Hs FRAME), (Hs STACK), Hl, ?Ep by (unfold FRAME, STACK; lia).
  - destruct Hl0 as (_ & ? & ? & ? & ->). rewrite Ez. split_and!; try done; destruct (pc st), (is_west st0); lia.
  - destruct Hl0 as (_ & ? & ? & -> & lo' & hi' & Hpl & Hlk). split; [done|]. split_and!; try done.
    exists lo', hi'. unfold placed, RESERVED in *. split; [destruct (pc st), (is_west st0); cbn [negb] in *; lia|].
    apply linked_ext with st0 f; [done| |intros slot Hslot; unfold saved; rewrite Es|done].
    + intros p Hn. apply Ho. unfold between in *. destruct (is_west st0); cbn [negb] in *; lia.
    + apply Ho. unfold between, slot_at in *. destruct (is_west st0); cbn [negb] in *; lia.
Qed.

(** Steps that keep the saved pointers and the memory outside the frame *)
Lemma within_step st lo st' :
  within st0 lo0 hi st lo -> same_arena st st' -> same_outside lo0 hi st st' ->
  (if pc st' then copied_out (is_west st0) (stack_offset st') (alloc_offset st') lo hi
   else placed (is_west st0) (frame_offset st') (stack_offset st') (alloc_offset st') lo hi) ->
  (forall slot, 0 <= slot < 3 -> saved st' (is_west st0) (frame_base st') slot = saved st (is_west st0) (frame_base st) slot) ->
  (pc st' = false -> pc st = false /\ frame_offset st' = frame_offset st) ->
  within st0 lo0 hi st' lo.
Proof.
  intros [Ha Ho Hw Hp Hs Hl Hadv Hf] Ha' Ho' Hp' Hs' Hf'. destruct Ha as (E1 & E2 & E3). pose proof Ha' as (E1' & E2' & E3'). split.
  - split_and!; congruence.
  - intros p Hn. rewrite Ho' by (by rewrite E1). by apply Ho.
  - unfold is_west at 1. destruct (pc st'); [by eapply copied_out_west|by eapply placed_west].
  - done.
  - intros slot Hslot. rewrite Hs' by lia. by apply Hs.
  - rewrite Hs' by (unfold ALLOC; lia). done.
  - done.
  - intros Hpc. destruct (Hf' Hpc) as [Hpc1 ->]. by apply Hf.
Qed.
Lemma within_moved st lo s a st' :
  within st0 lo0 hi st lo -> moved st (frame_offset st) s a (pc st) st' ->
  (if pc st then a = alloc_offset st /\ copied_out (is_west st0) s a lo hi else placed (is_west st0) (frame_offset st) s a lo hi) ->
  within st0 lo0 hi st' lo.
Proof.
  intros Hwi Hm Hp. destruct (moved_arena _ _ _ _ _ _ Hm) as [Ha Hmem]. destruct Hm as [k ->].
  apply within_step with st; [done|done|by apply same_outside_mem| | |].
  - cbn. destruct (pc st); [apply Hp|done].
  - intros slot _. unfold saved, frame_base, word_at. cbn. destruct (pc st); [|done]. by destruct Hp as [-> _].
  - cbn. intros Hpc. done.
Qed.
(** The region of the frame lies inside what it was given *)
Lemma within_between st lo o : within st0 lo0 hi st lo -> between lo hi o -> between lo0 hi o.
Proof.
  intros [_ _ _ Hp _ _ Hadv _]. unfold between, advanced, placed, copied_out, RESERVED in *.
  destruct (pc st), (is_west st0); lia.
Qed.
End inside.

Section steps.
Context (st0 : NockStack) (lo0 hi : Z) (rest : list (Z * Z)) (HI0 : Inv st0 lo0 hi rest) (Hpc0 : pc st0 = false).
Context (st : NockStack) (lo : Z) (Hwi : within st0 lo0 hi st lo).

Lemma step_inv : Inv st lo hi rest.
Proof. by eapply within_inv. Qed.

Lemma ok_not_stops {A} (r : outcome fault A) x : r = Ok x -> ~ stops r.
Proof. intros -> [?|[? ?]]; done. Qed.

Lemma alloc_within n p st' : word_count n -> raw_alloc n st = Ok (p, st') -> roomy st' -> within st0 lo0 hi st' lo.
Proof.
  intros Hn E Hroom. pose proof step_inv as HI. destruct (pc st) eqn:Hpc.
  { by apply ok_not_stops in E as []; eapply raw_alloc_copying. }
  destruct (raw_alloc_spec _ _ _ _ HI n Hpc Hn) as [(st1 & E1 & Hfit & Hm)|Hs]; [|by apply ok_not_stops in E].
  rewrite E in E1. injection E1 as _ <-. pose proof (within_place _ _ _ _ _ Hwi) as Hp. rewrite Hpc in Hp.
  rewrite <- Hpc in Hm. apply (within_moved _ _ _ _ _ _ _ _ Hwi Hm). rewrite Hpc. destruct Hm as [k ->].
  unfold roomy, alloc_end, oriented, fits, placed, RESERVED, word_count in *. cbn in Hroom. rewrite Hpc in Hroom.
  rewrite (within_west _ _ _ _ _ Hwi) in *. destruct (is_west st0); destruct Hroom; lia || done.
Qed.
Lemma push_within n p st' : word_count n -> push n st = Ok (p, st') -> roomy st' -> within st0 lo0 hi st' lo.
Proof.
  intros Hn E Hroom. pose proof step_inv as HI.
  destruct (push_spec _ _ _ _ HI n Hn) as [(Hfit & E1)|[_ Hs]]; [|by apply ok_not_stops in E].
  rewrite E in E1. injection E1 as _ ->. pose proof (within_place _ _ _ _ _ Hwi) as Hp.
  apply (within_moved _ _ _ _ _ _ _ _ Hwi (moved_offsets _ _ _ _ _)).
  unfold roomy, stack_end, light_orientation, west_oriented, fits, placed, copied_out, RESERVED, word_count in *. cbn in Hroom.
  rewrite (within_west _ _ _ _ _ Hwi) in *. destruct (pc st), (is_west st0); cbn in *; try (split; [done|]); destruct Hroom; lia || done.
Qed.
Lemma pop_within n st' : 0 <= n -> has_entry st n -> pop n st = Ok (tt, st') -> within st0 lo0 hi st' lo.
Proof.
  intros Hn He E. pose proof step_inv as HI. destruct (pop_spec _ _ _ _ HI n Hn He) as [E1 _].
  rewrite E in E1. injection E1 as ->. pose proof (within_place _ _ _ _ _ Hwi) as Hp.
  apply (within_moved _ _ _ _ _ _ _ _ Hwi (moved_offsets _ _ _ _ _)).
  unfold has_entry, west_oriented, placed, copied_out, RESERVED in *.
  rewrite (within_west _ _ _ _ _ Hwi) in *. destruct (pc st), (is_west st0); cbn in *; try (split; [done|]); lia.
Qed.
Lemma write_within p v :
  between lo0 hi (p - start st) -> ~ reserved st (p - start st) -> within st0 lo0 hi (set_mem (<[p := v]> (mem st)) st) lo.
Proof.
  intros Hb Hr. pose proof (within_arena _ _ _ _ _ Hwi) as (Es & _).
  apply within_step with st; [done|done| |apply Hwi| |done].
  - intros q Hq. rewrite word_at_write, decide_False; [done|]. intros Ep. by rewrite Ep in Hb.
  - intros slot Hslot. unfold saved. change (start (set_mem ?m ?x)) with (start x). rewrite word_at_write, decide_False; [done|].
    intros Ep. apply Hr. exists slot. split; [done|]. rewrite (within_west _ _ _ _ _ Hwi). change (frame_base (set_mem ?m ?x)) with (frame_base x) in Ep. lia.
Qed.
Lemma pre_copy_within st' : pre_copy st = Ok (tt, st') -> within st0 lo0 hi st' lo.
Proof.
  intros E. pose proof step_inv as HI. destruct (pc st) eqn:Hpc.
  { rewrite pre_copy_again in E by done. by injection E as <-. }
  destruct (pre_copy_spec _ _ _ _ HI Hpc) as [(Hfit & E1)|[_ Hs]]; [|by apply ok_not_stops in E].
  rewrite E in E1. injection E1 as ->. destruct (copying_inv _ _ _ _ HI Hpc Hfit) as [_ Ho].
  pose proof (within_place _ _ _ _ _ Hwi) as Hp. rewrite Hpc in Hp. pose proof (within_west _ _ _ _ _ Hwi) as Hw.
  pose proof (within_arena _ _ _ _ _ Hwi) as (Es & _).
  apply within_step with st; [done|done| | | |done].
  - intros q Hq. apply Ho. intros Hb. apply Hq, (within_between _ _ _ _ _ _ Hwi).
    unfold between, placed, RESERVED in *. destruct (is_west st0); lia.
  - cbn. rewrite Hw. unfold copied_out, copy_words, placed, fits, oriented, RESERVED in *. rewrite Hw in *. destruct (is_west st0); cbn; lia.
  - intros slot Hslot. unfold frame_base at 2. rewrite Hpc.
    destruct (stored_saved st (is_west st) (alloc_offset st) (saved st (is_west st) (frame_offset st) FRAME)
      (saved st (is_west st) (frame_offset st) STACK) (saved st (is_west st) (frame_offset st) ALLOC)) as (S0 & S1 & S2).
    rewrite <- Hw. assert (slot = FRAME \/ slot = STACK \/ slot = ALLOC) as [-> | [-> | ->]] by (unfold FRAME, STACK, ALLOC; lia); done.
Qed.

Lemma prev_advanced_within n :
  pc st = true -> 0 <= n -> fits AllocPreviousFrame (oriented st) n st lo -> within st0 lo0 hi (prev_advanced st lo n) (prev_end st lo n).
Proof.
  intros Hpc Hn Hfit. pose proof step_inv as HI. pose proof (prev_advanced_inv _ _ _ _ HI Hpc n Hn Hfit) as [_ Hp' _].
  destruct Hwi as [Ha Ho Hw Hp Hs Hl Hadv Hf]. pose proof Ha as (Es & _). rewrite Hpc in Hp.
  change (pc (prev_advanced st lo n)) with (pc st) in Hp'. rewrite Hpc in Hp'. change (is_west (prev_advanced st lo n)) with (is_west st) in Hp'. rewrite Hw in Hp'.
  assert (Eo : forall p, p <> start st + slot_at (is_west st) (alloc_offset st) ALLOC -> word_at (prev_advanced st lo n) p = word_at st p).
  { intros p Hne. unfold prev_advanced. by rewrite word_at_write, decide_False. }
  assert (Eb : frame_base (prev_advanced st lo n) = alloc_offset st) by (unfold frame_base; cbn; by rewrite Hpc).
  assert (Eb' : frame_base st = alloc_offset st) by (unfold frame_base; by rewrite Hpc). rewrite Eb' in Hs.
  split; [done| |done| | | | |].
  - intros p Hn'. rewrite Eo; [by apply Ho|]. intros ->. apply Hn', (within_between _ _ _ _ lo _ Hwi). rewrite Es. rewrite Hw in *.
    unfold between, copied_out, slot_at, ALLOC, RESERVED in *. destruct (is_west st0); lia.
  - change (pc (prev_advanced st lo n)) with (pc st). by rewrite Hpc.
  - intros slot Hslot. rewrite Eb, <- Hs by done. apply Eo. change (start (prev_advanced st lo n)) with (start st).
    rewrite Hw. unfold slot_at, ALLOC. destruct (is_west st0); lia.
  - rewrite Eb. unfold saved, prev_advanced. rewrite word_at_write, decide_True by (by rewrite Hw). unfold ptr. by rewrite Es.
  - unfold advanced, prev_end, fits, oriented in *. rewrite Hw in *. destruct (is_west st0); lia.
  - change (pc (prev_advanced st lo n)) with (pc st). by rewrite Hpc.
Qed.
End steps.

Lemma alloc_prev_pre_copy n st st1 :
  pre_copy st = Ok (tt, st1) -> pc st1 = true -> raw_alloc_in_previous_frame n st = raw_alloc_in_previous_frame n st1.
Proof. intros E Hpc. unfold raw_alloc_in_previous_frame. by rewrite (run_bind _ _ _ _ _ E), (run_bind _ _ _ _ _ (pre_copy_again st1 Hpc)). Qed.
(** After [pre_copy] the frame is in its copying phase *)
Lemma pre_copy_copying st lo hi rest : Inv st lo hi rest -> (exists st1, pre_copy st = Ok (tt, st1) /\ pc st1 = true) \/ stops (pre_copy st).
Proof.
  intros HI. destruct (pc st) eqn:Hpc; [left; exists st; by rewrite pre_copy_again|].
  destruct (pre_copy_spec _ _ _ _ HI Hpc) as [[_ E]|[_ Hs]]; [left|by right]. exists (copying_state st). done.
Qed.
Lemma alloc_prev_within st0 lo0 hi rest st lo n p st' :
  Inv st0 lo0 hi rest -> pc st0 = false -> within st0 lo0 hi st lo ->
  word_count n -> 0 < n -> raw_alloc_in_previous_frame n st = Ok (p, st') ->
  within st0 lo0 hi st' (prev_end st lo n) /\ p = start st + prev_block st lo n /\ pc st' = true.
Proof.
  intros HI0 Hpc0 Hwi Hn Hn0 E. pose proof (within_inv _ _ _ _ HI0 Hpc0 _ _ Hwi) as HI.
  destruct (pre_copy_copying _ _ _ _ HI) as [(st1 & E1 & Hpc1)|Hs].
  2: { apply ok_not_stops in E as []. unfold raw_alloc_in_previous_frame. by apply stops_bind. }
  pose proof (pre_copy_within _ _ _ _ HI0 Hpc0 _ _ Hwi _ E1) as Hwi1. pose proof (within_inv _ _ _ _ HI0 Hpc0 _ _ Hwi1) as HI1.
  rewrite (alloc_prev_pre_copy n st st1 E1 Hpc1) in E.
  destruct (prev_alloc_spec _ _ _ _ HI1 Hpc1 n Hn Hn0) as [[Hfit E2]|[_ Hs]]; [|by apply ok_not_stops in E].
  rewrite E in E2. injection E2 as -> ->.
  assert (Ew : is_west st1 = is_west st) by (rewrite (within_west _ _ _ _ _ Hwi), (within_west _ _ _ _ _ Hwi1); done).
  assert (Es : start st1 = start st).
  { destruct (within_arena _ _ _ _ _ Hwi) as [-> _]. by destruct (within_arena _ _ _ _ _ Hwi1) as [-> _]. }
  unfold prev_end, prev_block in *. rewrite <- Ew, <- Es. split; [|done].
  eapply prev_advanced_within; [exact HI0|done|done|done|lia|done].
Qed.

(** An inner frame, pushed and popped *)
Lemma frame_within st0 lo0 hi rest st lo n st2 st3 st4 :
  Inv st0 lo0 hi rest -> pc st0 = false -> within st0 lo0 hi st lo -> 0 <= n -> word_count (n + RESERVED) ->
  frame_push n st = Ok (tt, st2) -> roomy st2 ->
  (Inv st2 (alloc_offset st) (stack_offset st) ((frame_offset st, stack_offset st) :: rest) -> pc st2 = false ->
   exists lo3, within st2 (alloc_offset st) (stack_offset st) st3 lo3) ->
  frame_pop st3 = Ok (tt, st4) ->
  within st0 lo0 hi st4 lo /\ frame_offset st4 = frame_offset st /\ stack_offset st4 = stack_offset st /\
  same_outside (alloc_offset st) (stack_offset st) st st4 /\ pc st4 = false.
Proof.
  intros HI0 Hpc0 Hwi Hn Hc E2 Hroom IH E4. pose proof (within_inv _ _ _ _ HI0 Hpc0 _ _ Hwi) as HI.
  destruct (pc st) eqn:Hpc.
  { unfold frame_push in E2. rewrite (run_bind get _ st st st), Hpc in E2 by done. done. }
  destruct (frame_push_spec _ _ _ _ HI n Hpc Hc Hn) as [[Hfit E]|[_ Hs]]; [|by apply ok_not_stops in E2].
  rewrite E in E2. injection E2 as <-.
  assert (Hne : frame_end st n <> stack_offset st) by (destruct Hroom as [?|Hne]; [done|exact Hne]).
  destruct (pushed_inv _ _ _ _ HI n Hpc Hn Hfit Hne) as (Hw2 & Ha2 & Ho2 & HI2). destruct (IH HI2 eq_refl) as [lo3 IH3]. clear IH. rename IH3 into IH.
  pose proof (within_inv _ _ _ _ HI2 eq_refl _ _ IH) as HI3.
  destruct (frame_pop_spec _ _ _ _ HI3 _ _ _ eq_refl) as (E5 & Hw4 & _). rewrite E4 in E5. injection E5 as ->.
  destruct IH as [Ha3 Ho3 Hw3 Hp3 _ _ Hadv3 _]. destruct Ha2 as (S1 & S2 & S3), Ha3 as (T1 & T2 & T3).
  assert (Ho : same_outside (alloc_offset st) (stack_offset st) st st3) by (intros p Hn'; rewrite Ho3 by (by rewrite S1); by apply Ho2).
  pose proof (within_place _ _ _ _ _ Hwi) as Hp. rewrite Hpc in Hp. pose proof (within_west _ _ _ _ _ Hwi) as Hw.
  split; [|done]. apply within_step with st; [done| | | | |].
  - split_and!; cbn; congruence.
  - intros p Hn'. apply Ho. intros Hb. apply Hn', (within_between _ _ _ _ _ _ Hwi).
    unfold between, placed, RESERVED in *. destruct (is_west st0); lia.
  - cbn. rewrite Hw2, Hw in *. unfold placed, copied_out, advanced, RESERVED in *. destruct (pc st3), (is_west st0); cbn in *; lia.
  - intros slot Hslot. unfold frame_base. rewrite Hpc. cbn [pc frame_offset set_offsets]. unfold saved. cbn [start set_offsets].
    rewrite T1, S1. apply Ho. unfold between, slot_at, placed, RESERVED in *. rewrite ?Hw in *. destruct (is_west st0); lia.
  - done.
Qed.

(** Whatever the code of a frame does, the frame stays within what it was given *)
Lemma body_within lo0 hi st0 st rest :
  body lo0 hi st0 st -> Inv st0 lo0 hi rest -> pc st0 = false -> exists lo, within st0 lo0 hi st lo.
Proof.
  intros Hb. revert rest. induction Hb; intros rest HI0 Hpc0.
  - exists lo. by eapply within_refl.
  - destruct (IHHb _ HI0 Hpc0) as [l Hl]. exists l. by eapply alloc_within.
  - destruct (IHHb _ HI0 Hpc0) as [l Hl]. exists l. by eapply push_within.
  - destruct (IHHb _ HI0 Hpc0) as [l Hl]. exists l. by eapply pop_within.
  - destruct (IHHb _ HI0 Hpc0) as [l Hl]. exists l. by eapply write_within.
  - destruct (IHHb _ HI0 Hpc0) as [l Hl]. exists l. by eapply pre_copy_within.
  - destruct (IHHb _ HI0 Hpc0) as [l Hl]. eexists. by eapply alloc_prev_within.
  - destruct (IHHb1 _ HI0 Hpc0) as [l Hl].
    exists l. eapply frame_within; [exact HI0|done|exact Hl|done..| |done]. intros HI2 Hpc2. by eapply IHHb2.
Qed.

(** * The runtime check of the frames *)

(** One round of the loop *)
Lemma sane_round st west f s a lo hi fuel :
  arena_ok st -> placed west f s a lo hi -> (if west then 0 <= lo /\ hi <= size st else 0 <= hi /\ lo <= size st) ->
  assert_sane_loop (S fuel) (ptr st f) (ptr st s) (ptr st a) west st =
  assert_sane_loop fuel (saved st west f FRAME) (saved st west f STACK) (saved st west f ALLOC) (negb west) st.
Proof.
  intros Hok Hp Hb. pose proof (Hok) as [? ? ? _]. unfold placed, RESERVED in Hp.
  assert (Hr : 0 <= f <= size st /\ 0 <= s <= size st /\ 0 <= a <= size st) by (destruct west; lia).
  cbn [assert_sane_loop]. rewrite (run_bind get _ st st st) by done.
  rewrite !(proj2 (Z.eqb_neq (ptr st _) 0)) by (apply ptr_nonzero; tauto).
  rewrite (run_bind (assert _) _ st tt st) by done. rewrite (run_bind (assert _) _ st tt st) by done.
  assert (B : (bytes (start st) <=? ptr st f) && (ptr st f <=? bytes (start st + size st)) &&
    (bytes (start st) <=? ptr st s) && (ptr st s <=? bytes (start st + size st)) &&
    (bytes (start st) <=? ptr st a) && (ptr st a <=? bytes (start st + size st)) = true)
    by (rewrite bytes_start, bytes_offset by (done || lia); unfold ptr; lia).
  rewrite B, (run_bind (assert true) _ st tt st) by done.
  assert (B1 : Bool.eqb (ptr st f <? ptr st a) west = true) by (unfold ptr; destruct west; cbn; lia).
  rewrite B1, (run_bind (assert true) _ st tt st) by done.
  assert (B2 : (if west then (ptr st f <=? ptr st s) && (ptr st s <? ptr st a) else (ptr st s <=? ptr st f) && (ptr st a <? ptr st s)) = true)
    by (unfold ptr; destruct west; lia).
  rewrite B2, (run_bind (assert true) _ st tt st) by done.
  assert (Hread : forall slot, 0 <= slot < 3 ->
    read (if west then ptr st f / 8 - (slot + 1) else ptr st f / 8 + slot) st = Ok (saved st west f slot, st)).
  { intros slot Hslot. unfold ptr. rewrite (Z.mul_comm 8), Z.div_mul by lia. unfold saved, slot_at.
    rewrite <- read_offset by (destruct west; lia). f_equal. destruct west; lia. }
  by rewrite (run_bind _ _ st _ _ (Hread STACK ltac:(unfold STACK; lia))), (run_bind _ _ st _ _ (Hread ALLOC ltac:(unfold ALLOC; lia))),
    (run_bind _ _ st _ _ (Hread FRAME ltac:(unfold FRAME; lia))).
Qed.
Lemma sane_loop st west f s a lo hi rest :
  arena_ok st -> placed west f s a lo hi -> linked st west f lo hi rest ->
  assert_sane_loop (S (S (length rest))) (ptr st f) (ptr st s) (ptr st a) west st = Ok (tt, st).
Proof.
  intros Hok. revert west f s a lo hi. induction rest as [|[f' s'] rest IH]; intros west f s a lo hi Hp Hl;
    rewrite (sane_round _ _ _ _ _ _ _ _ Hok Hp (linked_bounds _ _ _ _ _ _ Hl)); cbn [linked] in Hl.
  - destruct Hl as (-> & -> & -> & Hlo & _). cbn [length assert_sane_loop].
    rewrite (run_bind get _ st st st), (run_bind (assert _) _ st tt st) by done.
    rewrite (proj2 (Z.eqb_neq (ptr st lo) 0)) by (by apply ptr_nonzero). by rewrite (run_bind (assert _) _ st tt st).
  - destruct Hl as (-> & -> & -> & -> & lo' & hi' & Hp' & Hl'). by eapply IH.
Qed.
Lemma inv_sane st lo hi rest : Inv st lo hi rest -> pc st = false -> assert_sane (S (S (length rest))) st = Ok (tt, st).
Proof.
  intros HI Hpc. pose proof (inv_place _ _ _ _ HI) as Hp. rewrite Hpc in Hp. pose proof (inv_arena _ _ _ _ HI) as Hok.
  pose proof (offsets_range _ _ _ _ HI) as (Hs & Ha & Hf). specialize (Hf Hpc). pose proof (inv_linked _ _ _ _ HI) as Hl.
  unfold frame_base in Hl. rewrite Hpc in Hl. unfold assert_sane, derive_ptr. rewrite (run_bind get _ st st st), !bytes_offset by done.
  replace (ptr st (frame_offset st) <? ptr st (alloc_offset st)) with (is_west st).
  - by eapply sane_loop.
  - unfold ptr, placed, RESERVED in *. destruct (is_west st); lia.
Qed.

(** * Properties *)

Definition well_formed (st : NockStack) : Prop := exists lo hi rest, Inv st lo hi rest.
(** No word is left between the stack and the allocations of the current frame. *)
Definition full (st : NockStack) : Prop := pc st = false /\ stack_offset st = alloc_offset st.
(** An operation returns, and then leaves a well-formed stack, or it stops with a panic
    or an allocation error; it does not touch memory outside the arena. *)
Definition keeps {A} (r : outcome fault (A * NockStack)) : Prop :=
  (exists x st, r = Ok (x, st) /\ well_formed st) \/ stops r.
(** As [keeps], except that the operation may also return with a full frame. *)
Definition keeps_or_fills {A} (r : outcome fault (A * NockStack)) : Prop :=
  (exists x st, r = Ok (x, st) /\ (well_formed st \/ full st)) \/ stops r.

Lemma roomy_or_full st : roomy st \/ full st.
Proof.
  unfold roomy, full. destruct (pc st); [by left; left|]. destruct (decide (stack_offset st = alloc_offset st)); [by right|by left; right].
Qed.
Lemma fills_intro {A} (r : outcome fault (A * NockStack)) x st : r = Ok (x, st) -> (roomy st -> well_formed st) -> keeps_or_fills r.
Proof. intros E H. left. exists x, st. split; [done|]. destruct (roomy_or_full st); [left; auto|by right]. Qed.

Lemma alloc_keeps st lo hi rest n : Inv st lo hi rest -> word_count n -> keeps_or_fills (raw_alloc n st).
Proof.
  intros HI Hn. destruct (pc st) eqn:Hpc; [right; by eapply raw_alloc_copying|].
  destruct (raw_alloc_spec _ _ _ _ HI n Hpc Hn) as [(st1 & E1 & Hfit & Hm)|Hs]; [|by right].
  eapply fills_intro; [exact E1|]. intros Hroom. exists lo, hi, rest. eapply alloc_inv; try done.
  destruct Hm as [k ->]. unfold roomy in Hroom. cbn in Hroom. destruct Hroom; [done|congruence].
Qed.
Lemma frame_push_keeps st lo hi rest n : Inv st lo hi rest -> 0 <= n -> word_count (n + RESERVED) -> keeps_or_fills (frame_push n st).
Proof.
  intros HI Hn Hc. destruct (pc st) eqn:Hpc.
  { right. unfold frame_push. rewrite (run_bind get _ st st st), Hpc by done. apply stops_panic. }
  destruct (frame_push_spec _ _ _ _ HI n Hpc Hc Hn) as [[Hfit E]|[_ Hs]]; [|by right].
  eapply fills_intro; [exact E|]. intros [?|Hroom]; [done|]. do 3 eexists. by eapply pushed_inv.
Qed.
Lemma frame_pop_keeps st lo hi rest : Inv st lo hi rest -> keeps (frame_pop st).
Proof.
  intros HI. destruct rest as [|[f s] rest]; [right; left; by eapply frame_pop_top|left].
  destruct (frame_pop_spec _ _ _ _ HI f s rest eq_refl) as (E & _ & lo' & hi' & HI'). do 2 eexists. split; [exact E|].
  by exists lo', hi', rest.
Qed.
Lemma pre_copy_keeps st lo hi rest : Inv st lo hi rest -> keeps (pre_copy st).
Proof.
  intros HI. destruct (pc st) eqn:Hpc; [left; exists tt, st; rewrite pre_copy_again by done; split; [done|by exists lo, hi, rest]|].
  destruct (pre_copy_spec _ _ _ _ HI Hpc) as [[Hfit E]|[_ Hs]]; [left|by right].
  do 2 eexists. split; [exact E|]. exists lo, hi, rest. by eapply copying_inv.
Qed.
Lemma alloc_prev_keeps st lo hi rest n : Inv st lo hi rest -> word_count n -> 0 < n -> keeps (raw_alloc_in_previous_frame n st).
Proof.
  intros HI Hn Hn0. destruct (pre_copy_copying _ _ _ _ HI) as [(st1 & E1 & Hpc1)|Hs].
  2: { right. unfold raw_alloc_in_previous_frame. by apply stops_bind. }
  rewrite (alloc_prev_pre_copy n st st1 E1 Hpc1).
  destruct (pre_copy_keeps _ _ _ _ HI) as [(x & st2 & E2 & HI1)|Hs]; [|rewrite E1 in Hs; by apply (ok_not_stops (Ok (tt, st1)) _ eq_refl) in Hs].
  rewrite E1 in E2. injection E2 as <- <-. destruct HI1 as (lo1 & hi1 & rest1 & HI2).
  destruct (prev_alloc_spec _ _ _ _ HI2 Hpc1 n Hn Hn0) as [[Hfit E]|[_ Hs]]; [left|by right].
  do 2 eexists. split; [exact E|]. do 3 eexists. eapply prev_advanced_inv; [exact HI2|done|lia|done].
Qed.
Lemma push_keeps st lo hi rest n : Inv st lo hi rest -> word_count n -> keeps_or_fills (push n st).
Proof.
  intros HI Hn. destruct (push_spec _ _ _ _ HI n Hn) as [[Hfit E]|[_ Hs]]; [|by right].
  eapply fills_intro; [exact E|]. intros Hroom. exists lo, hi, rest. unfold word_count in Hn. apply push_inv; [done|lia|done|].
  unfold roomy in Hroom. exact Hroom.
Qed.
Lemma flip_keeps st lo hi n : Inv st lo hi [] -> 0 <= n -> word_count (n + RESERVED) -> keeps_or_fills (flip_top_frame n st).
Proof.
  intros HI Hn Hc. destruct (flip_top_frame_spec _ _ _ HI n Hn Hc) as [H1 H2]. pose proof (lo_range _ _ _ _ HI) as Hlo.
  unfold RESERVED in *. destruct (is_west st).
  - destruct (Z.le_gt_cases lo (size st - (n + 3))) as [Hr|Hr]; [|right; apply H2; lia].
    eapply fills_intro; [by apply H1|]. intros [?|Hroom]; [done|]. cbn in Hroom. do 3 eexists. eapply flipped_inv; [exact HI|done|cbn; lia].
  - destruct (Z.lt_ge_cases (n + 3) lo) as [Hr|Hr]; [|right; apply H2; lia].
    eapply fills_intro; [by apply H1|]. intros _. do 3 eexists. eapply flipped_inv; [exact HI|done|cbn; lia].
Qed.
(** An allocation of all the words of a west frame *)
Lemma fill_west st lo hi rest :
  Inv st lo hi rest -> pc st = false -> is_west st = true ->
  exists st', raw_alloc (alloc_offset st - stack_offset st) st = Ok (start st + stack_offset st, st') /\
    full st' /\ is_west st' = false /\ ~ well_formed st' /\
    exists k, st' = set_least_space k (set_offsets (frame_offset st) (stack_offset st) (stack_offset st) false st).
Proof.
  intros HI Hpc Hw. set (n := alloc_offset st - stack_offset st). pose proof (offsets_range _ _ _ _ HI) as (Hs & Ha & Hfr). specialize (Hfr Hpc).
  pose proof (inv_place _ _ _ _ HI) as Hp. rewrite Hpc, Hw in Hp. unfold placed, RESERVED in Hp. destruct (inv_arena _ _ _ _ HI) as [? ? ? _].
  assert (Hn : word_count n) by (unfold word_count, n; lia).
  destruct (raw_alloc_spec _ _ _ _ HI n Hpc Hn) as [(st' & E & Hfit & [k ->])|Hst].
  2: { exfalso. pose proof (check_spec _ _ _ _ HI Alloc West (pc st) n ltac:(done) Hn ltac:(by left)) as Hc. cbn zeta in Hc.
       unfold fits in Hc. destruct Hc as [[_ Ec]|[? _]]; [|lia].
       unfold raw_alloc, raw_alloc_west in Hst. rewrite (run_bind get _ st st st), Hw in Hst by done.
       rewrite (run_bind _ _ st tt st) in Hst; [|rewrite would_oom_run; unfold oriented; by rewrite Hw].
       rewrite (run_bind get _ st st st), Hpc in Hst by done.
       destruct (sub_or_panic_spec (alloc_offset st) n st) as [[_ E1]|[? _]]; [|lia]. rewrite (run_bind _ _ _ _ _ E1) in Hst.
       destruct (sub_or_panic_spec (alloc_offset st - n) (stack_offset st) st) as [[_ E2]|[? _]]; [|lia]. rewrite (run_bind _ _ _ _ _ E2) in Hst.
       destruct Hst as [?|[? ?]]; done. }
  unfold alloc_block, alloc_end in *. rewrite Hw in *. replace (alloc_offset st - n) with (stack_offset st) in * by lia.
  eexists. split; [exact E|]. set (st' := set_least_space _ _).
  assert (Hw' : is_west st' = false) by (unfold is_west; cbn; lia).
  split; [done|]. split; [done|]. split; [|by exists k].
  intros (lo' & hi' & rest' & HI'). pose proof (inv_place _ _ _ _ HI') as Hp'. rewrite Hw' in Hp'. cbn in Hp'. unfold placed in Hp'. lia.
Qed.




(** A west frame with an entry on its lightweight stack, a frame on top, and three
    words allocated in it *)
Definition after {A} (r : outcome fault (A * NockStack)) (st : NockStack) : NockStack := match r with Ok (_, st) => st | _ => st end.
Definition blank_stack : NockStack :=
  {| start := 512; size := 64; frame_offset := 5; stack_offset := 5; alloc_offset := 64; least_space := 0; pma := None;
     stack_epoch := 0; pc := false; mem := ∅ |}.
Definition example_stack : NockStack := Eval vm_compute in after ((_ ← reset 2; push 2) blank_stack) blank_stack.
Definition example_frame : NockStack := Eval vm_compute in after (frame_push 1 example_stack) blank_stack.
Definition example_block : NockStack := Eval vm_compute in after (raw_alloc 3 example_frame) blank_stack.
Lemma example_inv : Inv example_stack 0 64 [].
Proof. split; [split; vm_compute; congruence || done|vm_compute; repeat split; congruence|vm_compute; repeat split; congruence]. Qed.

(** An allocation may take the last word of a west frame.  Then [is_west], which
    compares the two offsets, answers that the frame is an east frame, and [frame_pop]
    takes the saved pointers from the wrong side: with a zero word there it panics. *)
Theorem full_west_frame st lo hi rest :
  Inv st lo hi rest -> pc st = false -> is_west st = true -> frame_offset st < size st ->
  word_at st (start st + frame_offset st) = 0 -> frame_offset st + 3 <= size st ->
  let n := alloc_offset st - stack_offset st in
  exists st', raw_alloc n st = Ok (start st + stack_offset st, st') /\ is_west st' = false /\ frame_pop st' = Panic.
Proof.
  intros HI Hpc Hw Hf Hz Hf3 n. pose proof (offsets_range _ _ _ _ HI) as (Hs & Ha & Hfr). specialize (Hfr Hpc). destruct (inv_arena _ _ _ _ HI) as [? ? ? _].
  destruct (fill_west _ _ _ _ HI Hpc Hw) as (st' & E & _ & Hw' & _ & k & Est). exists st'. split_and!; [done..|].
  unfold frame_pop. rewrite (run_bind get _ st' st' st') by done.
  assert (Hsl : forall slot, 0 <= slot < 3 -> read (prev_pointer_pointer st' slot) st' = Ok (word_at st (start st + (frame_offset st + slot)), st')).
  { intros slot Hslot. unfold prev_pointer_pointer, slot_pointer, slot_offset, slot_offset_east, derive_ptr. rewrite Hw'.
    rewrite Est. cbn [pc set_least_space set_offsets frame_offset start]. unfold wrapping_add64. rewrite wrap64_small by (unfold is_u64, U64; lia).
    apply (read_offset (set_least_space k (set_offsets (frame_offset st) (stack_offset st) (stack_offset st) false st))). cbn. lia. }
  unfold prev_frame_pointer_pointer, prev_stack_pointer_pointer, prev_alloc_pointer_pointer.
  rewrite (run_bind _ _ _ _ _ (Hsl FRAME ltac:(unfold FRAME; lia))), (run_bind _ _ _ _ _ (Hsl STACK ltac:(unfold STACK; lia))),
    (run_bind _ _ _ _ _ (Hsl ALLOC ltac:(unfold ALLOC; lia))). unfold FRAME. rewrite Z.add_0_r, Hz. done.
Qed.
