(* ===== verification/Preserve.v ===== *)
(** Nouns in memory, as tagged words ([TaggedPtr], [NounSpace], [IndirectAtom], [Cell]
    of [nockvm/src/noun.rs]), and the copying of a noun from the current frame of the
    NockStack to the previous one ([noun_preserve] of [mem.rs]). *)
From stdpp Require Import base option list numbers gmap.
From Stdlib Require Import ZArith Lia.
From S2P Require Import Prelude NockStack.

(** * Tags *)

Definition DIRECT_TAG : Z := 0.
Definition DIRECT_MASK : Z := Z.shiftl 1 63.
Definition INDIRECT_TAG : Z := Z.shiftl 1 63.
Definition INDIRECT_MASK : Z := Z.shiftl 3 62.
Definition CELL_TAG : Z := Z.shiftl 3 62.
Definition CELL_MASK : Z := Z.shiftl 7 61.
Definition FORWARDING_TAG : Z := Z.shiftl 7 61.
Definition FORWARDING_MASK : Z := CELL_MASK.
Definition LOCATION_BIT : Z := Z.shiftl 1 60.

Definition is_direct_atom (raw : Z) : bool := Z.land raw DIRECT_MASK =? DIRECT_TAG.
Definition is_indirect_atom (raw : Z) : bool := Z.land raw INDIRECT_MASK =? INDIRECT_TAG.
Definition is_cell (raw : Z) : bool := Z.land raw CELL_MASK =? CELL_TAG.

(** [TaggedPtr]; a pointer is a word address, so [ptr >> 3] is the pointer itself *)
Definition from_stack_ptr (ptr tag : Z) : Z := Z.lor ptr tag.
Inductive PtrLocation := PtrStack | PtrOffset.
Definition location (raw : Z) : PtrLocation := if Z.land raw LOCATION_BIT =? 0 then PtrStack else PtrOffset.
Definition payload (raw mask : Z) : Z := Z.ldiff raw (Z.lor mask LOCATION_BIT).

Record NounSpace := { space_stack : Arena; space_pma : option Arena; stack_epoch_snapshot : Z }.
Definition noun_space : M NounSpace :=
  st ← get; mret {| space_stack := {| base := start st; words := size st |}; space_pma := pma st;
                    stack_epoch_snapshot := stack_epoch st |}.

Inductive AllocLocation := LocStack | LocPmaPtr | LocPmaOffset.
(** An address of a stack pointer must lie in one of the arenas *)
Definition in_bytes (a : Arena) (addr : Z) : bool :=
  (bytes (base a) <=? addr) && (addr <? bytes (base a) + 8 * words a).
Definition classify_ptr (space : NounSpace) (addr : Z) : M AllocLocation :=
  st ← get;
  if in_bytes (space_stack space) addr then _ ← assert (stack_epoch st =? stack_epoch_snapshot space); mret LocStack
  else match space_pma space with
       | Some a => if in_bytes a addr then mret LocPmaPtr else panic
       | None => panic
       end.
Definition resolve_stack_ptr (space : NounSpace) (payload : Z) : M Z :=
  let addr := wrap64 (Z.shiftl payload 3) in
  _ ← classify_ptr space addr; mret (addr / 8).
Definition resolve_pma_ptr (space : NounSpace) (payload : Z) : M Z :=
  let offset := wrap32 payload in
  match space_pma space with
  | None => panic
  | Some a => _ ← assert (offset <? words a); mret (base a + offset)
  end.
Definition resolve_const (space : NounSpace) (raw mask : Z) : M Z :=
  match location raw with
  | PtrStack => resolve_stack_ptr space (payload raw mask)
  | PtrOffset => resolve_pma_ptr space (payload raw mask)
  end.

(** * Allocated nouns *)

(** [Allocated::to_raw_pointer]; cells and indirect atoms differ in the mask *)
Definition kind_mask (raw : Z) : Z := if is_indirect_atom raw then INDIRECT_MASK else CELL_MASK.
Definition kind_tag (raw : Z) : Z := if is_indirect_atom raw then INDIRECT_TAG else CELL_TAG.
Definition to_raw_pointer (space : NounSpace) (raw : Z) : M Z := resolve_const space raw (kind_mask raw).
(** The forwarding pointer replaces the size of an atom and the head of a cell *)
Definition forwarding_pointer (space : NounSpace) (raw : Z) : M (option Z) :=
  ptr ← to_raw_pointer space raw;
  word ← read (ptr + 1);
  if Z.land word FORWARDING_MASK =? FORWARDING_TAG then
    ptr ← resolve_const space word FORWARDING_MASK; mret (Some (from_stack_ptr ptr (kind_tag raw)))
  else mret None.
Definition set_forwarding_pointer (space : NounSpace) (raw new_me : Z) : M unit :=
  ptr ← to_raw_pointer space raw; write (ptr + 1) (from_stack_ptr new_me FORWARDING_TAG).

(** [copy_nonoverlapping] *)
Fixpoint copy_nonoverlapping (src dst : Z) (n : nat) : M unit :=
  match n with
  | O => mret tt
  | S n => w ← read src; _ ← write dst w; copy_nonoverlapping (src + 1) (dst + 1) n
  end.

(** * Making nouns *)

Definition Cell_new (head tail : Z) : M Z :=
  memory ← struct_alloc 3 1;
  _ ← write memory 0; _ ← write (memory + 1) head; _ ← write (memory + 2) tail;
  mret (from_stack_ptr memory CELL_TAG).
Definition new_raw_mut (n : Z) : M (Z * Z) :=
  buffer ← indirect_alloc n;
  _ ← write buffer 0; _ ← write (buffer + 1) n;
  mret (from_stack_ptr buffer INDIRECT_TAG, buffer + 2).

(** * Preserving *)

Section loop.
Context (space : NounSpace).

(** [*dest_ptr = value]: the destination is the caller's variable, whose value is
    [root], or a word in memory *)
Definition store (dest : option Z) (value root : Z) : M Z :=
  match dest with None => mret value | Some d => _ ← write d value; mret root end.

Fixpoint preserve_loop (fuel : nat) (work : list (Z * option Z)) (root : Z) : M Z :=
  match fuel with
  | O => panic
  | S fuel =>
      match work with
      | [] => mret root
      | (value, dest) :: work =>
          if is_direct_atom value then root ← store dest value root; preserve_loop fuel work root
          else
            forward ← forwarding_pointer space value;
            match forward with
            | Some new => root ← store dest new root; preserve_loop fuel work root
            | None =>
                ptr ← to_raw_pointer space value;
                inside ← is_in_frame ptr;
                if negb inside then root ← store dest value root; preserve_loop fuel work root
                else if is_indirect_atom value then
                  n ← read (ptr + 1);
                  alloc ← indirect_alloc_in_previous_frame n;
                  n ← read (ptr + 1);
                  _ ← copy_nonoverlapping ptr alloc (Z.to_nat (wrapping_add64 n 2));
                  _ ← set_forwarding_pointer space value alloc;
                  root ← store dest (from_stack_ptr alloc INDIRECT_TAG) root;
                  preserve_loop fuel work root
                else
                  alloc ← struct_alloc_in_previous_frame 3 1;
                  metadata ← read ptr; _ ← write alloc metadata;
                  tail ← read (ptr + 2); head ← read (ptr + 1);
                  _ ← set_forwarding_pointer space value alloc;
                  root ← store dest (from_stack_ptr alloc CELL_TAG) root;
                  preserve_loop fuel ((head, Some (alloc + 1)) :: (tail, Some (alloc + 2)) :: work) root
            end
      end
  end.
End loop.

(** [noun_preserve]; the new value of the caller's variable *)
Definition noun_preserve (fuel : nat) (noun : Z) : M Z :=
  space ← noun_space;
  if is_direct_atom noun then mret noun
  else
    forward ← forwarding_pointer space noun;
    match forward with
    | Some new => mret new
    | None =>
        ptr ← to_raw_pointer space noun;
        inside ← is_in_frame ptr;
        if negb inside then mret noun else preserve_loop space fuel [(noun, None)] noun
    end.

(** [Preserve] for atoms copies without looking for a forwarding pointer *)
Definition indirect_preserve (indirect : Z) : M Z :=
  space ← noun_space;
  ptr ← to_raw_pointer space indirect;
  n ← read (ptr + 1);
  let raw_size := wrapping_add64 n 2 in
  buf ← struct_alloc_in_previous_frame 1 raw_size;
  _ ← copy_nonoverlapping ptr buf (Z.to_nat raw_size);
  mret (from_stack_ptr buf INDIRECT_TAG).
Definition atom_preserve (atom : Z) : M Z :=
  if is_direct_atom atom then mret atom else indirect_preserve atom.

(** [with_frame] for a closure that returns a noun *)
Definition with_frame (fuel : nat) (num_locals : Z) (f : M Z) : M Z :=
  _ ← frame_push num_locals;
  ret ← f;
  ret ← noun_preserve fuel ret;
  _ ← frame_pop;
  mret ret.
