(* ===== verification/PreserveTheorems.v ===== *)
(** [noun_preserve] is a copying collector: it moves everything a noun reaches in the
    current frame to the previous one, once, and the result denotes the same noun. *)
From stdpp Require Import base option list numbers gmap.
From Stdlib Require Import ZArith Lia.
From S2P Require Import Prelude Noun NockStack NockStackTheorems NockStackFrames Preserve.

(** * Words of a tag and an address *)

Definition word (t p : Z) : Z := t * 2 ^ 60 + p.
Definition address (p : Z) : Prop := 0 <= p < 2 ^ 60.

Lemma word_testbit t p n : address p -> 0 <= n -> Z.testbit (word t p) n = if n <? 60 then Z.testbit p n else Z.testbit t (n - 60).
Proof.
  intros [Hp0 Hp] Hn. unfold word. destruct (Z.ltb_spec n 60) as [Hlt|Hge].
  - rewrite <- (Z.mod_pow2_bits_low (t * 2 ^ 60 + p) 60 n) by lia. rewrite Z.add_comm, Z_mod_plus_full, Z.mod_small by lia. done.
  - replace n with ((n - 60) + 60) at 1 by lia. rewrite <- Z.div_pow2_bits by lia.
    rewrite Z.add_comm, Z.div_add, Z.div_small by lia. done.
Qed.
Lemma word_land t m p : address p -> Z.land (word t p) (word m 0) = word (Z.land t m) 0.
Proof.
  intros Hp. apply Z.bits_inj'. intros n Hn. rewrite Z.land_spec, !word_testbit by (done || unfold address; lia).
  destruct (Z.ltb_spec n 60); [by rewrite Z.bits_0, andb_false_r|by rewrite Z.land_spec].
Qed.
Lemma word_lor t p : address p -> Z.lor p (word t 0) = word t p.
Proof.
  intros Hp. apply Z.bits_inj'. intros n Hn. rewrite Z.lor_spec, !word_testbit by (done || unfold address; lia).
  destruct (Z.ltb_spec n 60); [by rewrite Z.bits_0, orb_false_r|].
  replace (Z.testbit p n) with false; [done|]. destruct Hp as [H0 H1]. symmetry.
  rewrite <- (Z.mod_small p (2 ^ 60)) by lia. apply Z.mod_pow2_bits_high. lia.
Qed.
Lemma word_ldiff t m p : address p -> Z.ldiff (word t p) (word m 0) = word (Z.ldiff t m) p.
Proof.
  intros Hp. apply Z.bits_inj'. intros n Hn. rewrite Z.ldiff_spec, !word_testbit by (done || unfold address; lia).
  destruct (Z.ltb_spec n 60); [by rewrite Z.bits_0, andb_true_r|by rewrite Z.ldiff_spec].
Qed.
Lemma word_zero t : word t 0 = 0 <-> t = 0.
Proof. unfold word. lia. Qed.
Lemma word_inj t t' p p' : address p -> address p' -> word t p = word t' p' -> t = t' /\ p = p'.
Proof. unfold address, word. lia. Qed.
(** A word of 64 bits has such a form *)
Lemma word_split w : exists p, address p /\ w = word (w / 2 ^ 60) p.
Proof.
  exists (w mod 2 ^ 60). split; [apply Z.mod_pos_bound; lia|]. unfold word. pose proof (Z.div_mod w (2 ^ 60)). lia.
Qed.

(** The tags *)
Definition IND : Z := 8.
Definition CEL : Z := 12.
Definition FWD : Z := 14.
Lemma tag_words : INDIRECT_TAG = word IND 0 /\ CELL_TAG = word CEL 0 /\ FORWARDING_TAG = word FWD 0 /\ LOCATION_BIT = word 1 0 /\
  DIRECT_MASK = word 8 0 /\ INDIRECT_MASK = word 12 0 /\ CELL_MASK = word 14 0.
Proof. done. Qed.

Section tags.
Context (t p : Z) (Hp : address p).
Lemma direct_tag : is_direct_atom (word t p) = (Z.land t 8 =? 0).
Proof. unfold is_direct_atom. change DIRECT_MASK with (word 8 0). rewrite word_land by done. unfold DIRECT_TAG, word. lia. Qed.
Lemma indirect_tag : is_indirect_atom (word t p) = (Z.land t 12 =? IND).
Proof. unfold is_indirect_atom. change INDIRECT_MASK with (word 12 0). change INDIRECT_TAG with (word IND 0). rewrite word_land by done. unfold word. lia. Qed.
Lemma forwarding_tag : (Z.land (word t p) FORWARDING_MASK =? FORWARDING_TAG) = (Z.land t 14 =? FWD).
Proof. change FORWARDING_MASK with (word 14 0). change FORWARDING_TAG with (word FWD 0). rewrite word_land by done. unfold word. lia. Qed.
Lemma location_tag : location (word t p) = if Z.land t 1 =? 0 then PtrStack else PtrOffset.
Proof. unfold location. change LOCATION_BIT with (word 1 0). rewrite word_land by done. replace (word (Z.land t 1) 0 =? 0) with (Z.land t 1 =? 0); [done|]. unfold word. lia. Qed.
Lemma payload_tag m : Z.ldiff t (Z.lor m 1) = 0 -> payload (word t p) (word m 0) = p.
Proof.
  intros E. unfold payload. change LOCATION_BIT with (word 1 0).
  replace (Z.lor (word m 0) (word 1 0)) with (word (Z.lor m 1) 0).
  - rewrite word_ldiff, E by done. unfold word. lia.
  - apply Z.bits_inj'. intros n Hn. rewrite Z.lor_spec, !word_testbit by (done || unfold address; lia).
    destruct (Z.ltb_spec n 60); [by rewrite !Z.bits_0|by rewrite Z.lor_spec].
Qed.
Lemma stack_ptr_word tag : tag = word t 0 -> from_stack_ptr p tag = word t p.
Proof. intros ->. by apply word_lor. Qed.
End tags.

(** * Resolving pointers *)

Definition cur_space (st : NockStack) : NounSpace :=
  {| space_stack := {| base := start st; words := size st |}; space_pma := pma st; stack_epoch_snapshot := stack_epoch st |}.
Definition same_space (st st' : NockStack) : Prop := same_arena st st' /\ stack_epoch st' = stack_epoch st.
Lemma cur_space_same st st' : same_space st st' -> cur_space st' = cur_space st.
Proof. intros [(E1 & E2 & E3) E4]. unfold cur_space. congruence. Qed.
Lemma same_space_trans st1 st2 st3 : same_space st1 st2 -> same_space st2 st3 -> same_space st1 st3.
Proof. unfold same_space, same_arena. intros ((? & ? & ?) & ?) ((? & ? & ?) & ?). split_and!; congruence. Qed.
Lemma readable_same st st' p : same_space st st' -> readable st' p = readable st p.
Proof. intros [(E1 & E2 & E3) E4]. unfold readable, in_stack. by rewrite E1, E2, E3. Qed.

(** A noun word with tag [t] for the object at [p] *)
Definition points (st : NockStack) (t w p : Z) : Prop :=
  readable st p = true /\
  (w = word t p \/ exists a o, pma st = Some a /\ 0 <= o < words a /\ o < 2 ^ 32 /\ w = word (t + 1) o /\ p = base a + o).
Definition is_tag (t : Z) : Prop := t = IND \/ t = CEL.

Section resolving.
Context (st : NockStack) (Hok : arena_ok st).

Lemma readable_address p : readable st p = true -> address p /\ 0 < p.
Proof.
  destruct Hok as [? ? ? Hpma]. unfold readable, in_stack, in_arena, address. destruct (pma st) as [a|]; [unfold apart in Hpma|]; lia.
Qed.
Lemma arena_bytes a p : 0 < base a -> 0 <= words a -> base a + words a < 2 ^ 60 -> address p -> in_bytes a (8 * p) = in_arena a p.
Proof.
  intros H1 H2 H3 Hp. unfold in_bytes, in_arena, bytes, address in *. rewrite wrap64_small by (unfold is_u64, U64; lia).
  destruct (Z.leb_spec (base a) p), (Z.ltb_spec p (base a + words a)), (Z.leb_spec (8 * base a) (8 * p)), (Z.ltb_spec (8 * p) (8 * base a + 8 * words a)); lia.
Qed.
Lemma classify_spec p : readable st p = true ->
  classify_ptr (cur_space st) (8 * p) st = Ok (if in_stack st p then LocStack else LocPmaPtr, st).
Proof.
  intros Hr. destruct (readable_address p Hr) as [Ha _]. destruct Hok as [? ? ? Hpma].
  unfold classify_ptr. rewrite (run_bind get _ st st st) by done. cbn [space_stack space_pma stack_epoch_snapshot cur_space].
  rewrite arena_bytes by done. unfold readable in Hr. unfold in_arena at 1. cbn [base words]. unfold in_stack in *.
  destruct ((start st <=? p) && (p <? start st + size st)); cbn [orb] in Hr; [by rewrite Z.eqb_refl|].
  destruct (pma st) as [a|]; [|done]. destruct Hpma as (? & ? & ? & _). by rewrite arena_bytes, Hr.
Qed.
Lemma resolve_stack t m p :
  readable st p = true -> Z.land t 1 = 0 -> Z.ldiff t (Z.lor m 1) = 0 ->
  resolve_const (cur_space st) (word t p) (word m 0) st = Ok (p, st).
Proof.
  intros Hr Hl Hm. destruct (readable_address p Hr) as [Ha _]. unfold resolve_const. rewrite location_tag, Hl, payload_tag by done. cbn [Z.eqb].
  unfold resolve_stack_ptr. rewrite Z.shiftl_mul_pow2, wrap64_small by (unfold is_u64, U64, address in *; lia).
  change (2 ^ 3) with 8. rewrite Z.mul_comm.
  rewrite (run_bind _ _ _ _ _ (classify_spec p Hr)). unfold mret, M_ret. by rewrite (Z.mul_comm 8), Z.div_mul.
Qed.
Lemma resolve_offset t m a o :
  pma st = Some a -> 0 <= o < words a -> o < 2 ^ 32 -> Z.land t 1 = 1 -> Z.ldiff t (Z.lor m 1) = 0 ->
  resolve_const (cur_space st) (word t o) (word m 0) st = Ok (base a + o, st).
Proof.
  intros Ea Ho H32 Hl Hm. destruct Hok as [? ? ? Hpma]. rewrite Ea in Hpma. destruct Hpma as (? & ? & ? & _).
  assert (Ha : address o) by (unfold address; lia).
  unfold resolve_const. rewrite location_tag, Hl, payload_tag by done. cbn [Z.eqb].
  unfold resolve_pma_ptr. cbn [space_pma cur_space]. rewrite Ea.
  replace (wrap32 o) with o by (symmetry; apply Z.mod_small; unfold U32; lia).
  rewrite (run_bind (assert _) _ st tt st); [done|]. by rewrite (proj2 (Z.ltb_lt o (words a))) by lia.
Qed.
(** What the code sees of a pointer *)
Lemma pointer_resolves t w p :
  is_tag t -> points st t w p ->
  to_raw_pointer (cur_space st) w st = Ok (p, st) /\ is_direct_atom w = false /\ is_indirect_atom w = (t =? IND) /\ kind_tag w = word t 0.
Proof.
  intros Ht [Hr Hw]. unfold to_raw_pointer, kind_mask, kind_tag. pose proof (readable_address p Hr) as [Ha _].
  destruct Hw as [->|(a & o & Ea & Ho & H32 & -> & ->)].
  - rewrite direct_tag, indirect_tag by done.
    destruct Ht as [-> | ->]; cbn; (split; [|done]); [apply (resolve_stack IND 12)|apply (resolve_stack CEL 14)]; done.
  - assert (Hao : address o) by (unfold address; lia). rewrite direct_tag, indirect_tag by done.
    destruct Ht as [-> | ->]; cbn; (split; [|done]); [apply (resolve_offset 9 12)|apply (resolve_offset 13 14)]; done.
Qed.
(** A noun word is not a forwarding pointer, nor is a size *)
Lemma word_not_forwarding t p : address p -> t < 8 \/ t = 8 \/ t = 9 \/ t = 12 \/ t = 13 -> 0 <= t ->
  (Z.land (word t p) FORWARDING_MASK =? FORWARDING_TAG) = false.
Proof.
  intros Hp Ht H0. rewrite forwarding_tag by done. assert (t < 16) by lia.
  assert (Ht' : t = 0 \/ t = 1 \/ t = 2 \/ t = 3 \/ t = 4 \/ t = 5 \/ t = 6 \/ t = 7 \/ t = 8 \/ t = 9 \/ t = 12 \/ t = 13) by lia.
  repeat destruct Ht' as [-> | Ht']; try done. subst t. done.
Qed.
End resolving.

(** The allocations of the current frame *)
Definition inside (st : NockStack) (hi o : Z) : bool :=
  if is_west st then (alloc_offset st <=? o) && (o <? hi) else (hi <=? o) && (o <? alloc_offset st).
Lemma is_in_frame_spec st lo hi rest p :
  Inv st lo hi rest -> readable st p = true -> is_in_frame p st = Ok (inside st hi (p - start st), st).
Proof.
  intros HI Hr. pose proof (inv_arena _ _ _ _ HI) as Hok. destruct (readable_address st Hok p Hr) as [Ha Hp0].
  pose proof (inv_linked _ _ _ _ HI) as Hl. pose proof (offsets_range _ _ _ _ HI) as (Hs & Hal & _). pose proof (inv_bounds _ _ _ _ HI) as Hb.
  assert (Eb : bytes p = 8 * p) by (apply wrap64_small; unfold is_u64, U64, address in *; lia).
  unfold is_in_frame. rewrite Eb, (proj2 (Z.eqb_neq (8 * p) 0)), (run_bind get _ st st st) by (done || lia).
  unfold prev_stack_pointer_pointer. rewrite (run_bind _ _ st _ _ (read_prev _ _ _ _ HI STACK ltac:(unfold STACK; lia))).
  assert (Eh : (if saved st (is_west st) (frame_base st) STACK =? 0 then if is_west st then size st else 0
    else offset_of st (saved st (is_west st) (frame_base st) STACK)) = hi).
  { destruct rest as [|[f s] rest]; cbn [linked] in Hl; [by destruct Hl as (_ & _ & -> & _ & ->)|].
    destruct Hl as (_ & _ & -> & -> & lo' & hi' & Hpl & Hl). pose proof (linked_bounds _ _ _ _ _ _ Hl) as Hb'.
    assert (0 <= s <= size st) by (unfold placed, RESERVED in Hpl; destruct (is_west st); cbn [negb] in *; lia).
    rewrite (proj2 (Z.eqb_neq (ptr st s) 0)) by (by apply ptr_nonzero). by apply offset_of_ptr. }
  rewrite Eh. unfold mret, M_ret, inside. do 2 f_equal.
  destruct Hok as [? ? ? Hpma]. unfold offset_of, wrapping_sub64. rewrite bytes_start by (split; done).
  destruct (Z.le_gt_cases (start st) p) as [Hge|Hlt].
  - rewrite wrap64_small by (unfold is_u64, U64, address in *; lia).
    replace (8 * p - 8 * start st) with ((p - start st) * 8) by lia. rewrite Z.div_mul by lia. done.
  - rewrite wrap64_add_modulus by (unfold U64, address in *; lia).
    assert (Hbig : size st < (8 * p - 8 * start st + U64) / 8).
    { apply Z.lt_le_trans with (2 ^ 60); [lia|]. apply Z.div_le_lower_bound; unfold U64, address in *; lia. }
    destruct (is_west st); lia.
Qed.

(** * Nouns in memory *)

Inductive kind := KCell | KInd (n : Z).
Definition ktag (k : kind) : Z := match k with KCell => CEL | KInd _ => IND end.
Definition kwords (k : kind) : Z := match k with KCell => 3 | KInd n => n + 2 end.
Lemma ktag_is_tag k : is_tag (ktag k).
Proof. destruct k; [by right|by left]. Qed.

(** The words of an object are readable and satisfy [P] *)
Definition spans (P : Z -> Prop) (st : NockStack) (p n : Z) : Prop :=
  forall i, 0 <= i < n -> readable st (p + i) = true /\ P (p + i).

(** The word denotes a noun, and every object it reaches lies in [P] *)
Inductive rep (P : Z -> Prop) (st : NockStack) : Z -> noun -> Prop :=
  | rep_direct d : 0 <= d <= DIRECT_MAX -> rep P st d (D d)
  | rep_indirect w p ws :
      points st IND w p -> spans P st p (Z.of_nat (length ws) + 2) -> word_at st (p + 1) = Z.of_nat (length ws) ->
      (forall i x, ws !! i = Some x -> word_at st (p + 2 + Z.of_nat i) = x) -> rep P st w (NAtom (Indirect ws))
  | rep_cell w p m n :
      points st CEL w p -> spans P st p 3 -> rep P st (word_at st (p + 1)) m -> rep P st (word_at st (p + 2)) n ->
      rep P st w (NCell m n).

(** Denotation does not depend on the rest of memory *)
Lemma rep_ext (P Q : Z -> Prop) st st' w n :
  same_space st st' -> (forall p, P p -> word_at st' p = word_at st p /\ Q p) -> rep P st w n -> rep Q st' w n.
Proof.
  intros Hs H. assert (Hsp : forall p k, spans P st p k -> spans Q st' p k).
  { intros p k Hk i Hi. rewrite (readable_same st st') by done. destruct (Hk i Hi). split; [done|]. by apply H. }
  assert (Hpt : forall t v p, points st t v p -> points st' t v p).
  { intros t v p [Hr Hw]. split; [by rewrite (readable_same st st')|]. destruct Hs as [(_ & _ & ->) _]. done. }
  induction 1 as [d Hd|v p ws Hp Hk Hn Hws|v p m n Hp Hk Hm IHm Hn IHn].
  - by constructor.
  - apply rep_indirect with p; [by apply Hpt|by apply Hsp| |].
    + destruct (Hk 1); [lia|]. destruct (H (p + 1)) as [-> _]; done.
    + intros i x Hi. destruct (Hk (2 + Z.of_nat i)); [apply lookup_lt_Some in Hi; lia|].
      destruct (H (p + 2 + Z.of_nat i)) as [-> _]; [by rewrite <- Z.add_assoc|by apply Hws].
  - apply rep_cell with p; [by apply Hpt|by apply Hsp|destruct (Hk 1); [lia|]; destruct (H (p + 1)) as [-> _]; done
      |destruct (Hk 2); [lia|]; destruct (H (p + 2)) as [-> _]; done].
Qed.

Lemma direct_small d : 0 <= d <= DIRECT_MAX -> is_direct_atom d = true.
Proof.
  intros Hd. change DIRECT_MAX with (2 ^ 63 - 1) in Hd. destruct (word_split d) as (p & Hp & E). rewrite E, direct_tag by done.
  assert (0 <= d / 2 ^ 60 < 8). { split; [apply Z.div_pos; lia|apply Z.div_lt_upper_bound; lia]. }
  assert (Ht : d / 2 ^ 60 = 0 \/ d / 2 ^ 60 = 1 \/ d / 2 ^ 60 = 2 \/ d / 2 ^ 60 = 3 \/ d / 2 ^ 60 = 4 \/ d / 2 ^ 60 = 5 \/ d / 2 ^ 60 = 6 \/ d / 2 ^ 60 = 7) by lia.
  repeat destruct Ht as [-> | Ht]; try done. by rewrite Ht.
Qed.
(** The first word of an object after the metadata is not a forwarding pointer *)
Lemma rep_word_form P st w n : arena_ok st -> rep P st w n ->
  exists t p, w = word t p /\ address p /\ 0 <= t /\ (t < 8 \/ t = 8 \/ t = 9 \/ t = 12 \/ t = 13).
Proof.
  intros Hok. destruct 1 as [d Hd|v p ws [Hr Hp] _ _ _|v p m n [Hr Hp] _ _ _].
  - destruct (word_split d) as (p & Hp & E). exists (d / 2 ^ 60), p. split; [done|]. split; [done|].
    change DIRECT_MAX with (2 ^ 63 - 1) in Hd. split; [apply Z.div_pos; lia|left; apply Z.div_lt_upper_bound; lia].
  - destruct (readable_address st Hok p Hr) as [Ha _]. destruct Hp as [->|(a & o & Ea & Ho & H32 & -> & _)].
    + exists IND, p. split; [done|]. split; [done|]. unfold IND. lia.
    + exists (IND + 1), o. split; [done|]. unfold IND, address. lia.
  - destruct (readable_address st Hok p Hr) as [Ha _]. destruct Hp as [->|(a & o & Ea & Ho & H32 & -> & _)].
    + exists CEL, p. split; [done|]. split; [done|]. unfold CEL. lia.
    + exists (CEL + 1), o. split; [done|]. unfold CEL, address. lia.
Qed.

(** * Allocation in the previous frame *)

Lemma alloc_prev_state st0 lo0 hi rest st lo n p st' :
  Inv st0 lo0 hi rest -> pc st0 = false -> within st0 lo0 hi st lo -> word_count n -> 0 < n ->
  raw_alloc_in_previous_frame n st = Ok (p, st') ->
  st' = prev_advanced (if pc st then st else copying_state st) lo n.
Proof.
  intros HI0 Hpc0 Hwi Hn Hn0 E. pose proof (within_inv _ _ _ _ HI0 Hpc0 _ _ Hwi) as HI.
  destruct (pre_copy_copying _ _ _ _ HI) as [(st1 & E1 & Hpc1)|Hs].
  2: { apply ok_not_stops in E as []. unfold raw_alloc_in_previous_frame. by apply stops_bind. }
  rewrite (alloc_prev_pre_copy n st st1 E1 Hpc1) in E.
  pose proof (pre_copy_within _ _ _ _ HI0 Hpc0 _ _ Hwi _ E1) as Hwi1. pose proof (within_inv _ _ _ _ HI0 Hpc0 _ _ Hwi1) as HI1.
  destruct (prev_alloc_spec _ _ _ _ HI1 Hpc1 n Hn Hn0) as [[Hfit E2]|[_ Hs]]; [|by apply ok_not_stops in E].
  rewrite E in E2. injection E2 as _ ->. f_equal.
  destruct (pc st) eqn:Hpc; [rewrite pre_copy_again in E1 by done; by injection E1 as <-|].
  destruct (pre_copy_spec _ _ _ _ HI Hpc) as [[_ E3]|[_ Hs]]; [|by apply ok_not_stops in E1].
  rewrite E1 in E3. by injection E3 as ->.
Qed.
(** Only the saved pointers are written *)
Lemma alloc_prev_effect st0 lo0 hi rest st lo n p st' :
  Inv st0 lo0 hi rest -> pc st0 = false -> within st0 lo0 hi st lo -> word_count n -> 0 < n ->
  raw_alloc_in_previous_frame n st = Ok (p, st') ->
  within st0 lo0 hi st' (prev_end st lo n) /\ p = start st + prev_block st lo n /\ pc st' = true /\
  same_space st st' /\ alloc_offset st' = alloc_offset st /\
  stack_offset st' = (if pc st then stack_offset st else if is_west st then alloc_offset st - copy_words st else alloc_offset st + copy_words st) /\
  forall q, (forall slot, 0 <= slot < 3 -> q <> start st + slot_at (is_west st) (alloc_offset st) slot) -> word_at st' q = word_at st q.
Proof.
  intros HI0 Hpc0 Hwi Hn Hn0 E. destruct (alloc_prev_within _ _ _ _ _ _ _ _ _ HI0 Hpc0 Hwi Hn Hn0 E) as (Hwi' & Ep & Hpc').
  pose proof (alloc_prev_state _ _ _ _ _ _ _ _ _ HI0 Hpc0 Hwi Hn Hn0 E) as Est. split; [done|]. split; [done|]. split; [done|].
  assert (Hw1 : is_west (if pc st then st else copying_state st) = is_west st).
  { destruct (pc st); [done|]. unfold copying_state, is_west at 1. cbn. unfold copy_words, RESERVED, is_west. destruct (Z.ltb_spec (stack_offset st) (alloc_offset st)); lia. }
  assert (Ha1 : alloc_offset (if pc st then st else copying_state st) = alloc_offset st /\ start (if pc st then st else copying_state st) = start st)
    by (by destruct (pc st)). destruct Ha1 as [Ha1 Hs1].
  subst st'. split; [|split; [|split]].
  - by destruct (pc st).
  - by destruct (pc st).
  - by destruct (pc st).
  - intros q Hq. unfold prev_advanced. rewrite Hw1, Ha1, Hs1, word_at_write, decide_False by (intros Eq; by apply (Hq ALLOC); [unfold ALLOC; lia|]).
    destruct (pc st); [done|]. unfold copying_state. change (word_at (set_offsets ?f ?s ?a ?c ?x) q) with (word_at x q).
    by apply stored_outside.
Qed.
