(* ===== verification/Collector.v ===== *)
(** The invariant of [noun_preserve]: which objects of the frame have been copied, and
    which fields of the copies are still to be filled in. *)
From stdpp Require Import base option list numbers gmap.
From Stdlib Require Import ZArith Lia.
From S2P Require Import Prelude Noun NockStack NockStackTheorems NockStackFrames Preserve PreserveTheorems.

Section collector.
(** The state at the end of the code of the frame, and the objects the frame allocated *)
Context (st0 : NockStack) (lo0 hi : Z) (rest : list (Z * Z)) (HI0 : Inv st0 lo0 hi rest) (Hpc0 : pc st0 = false).
Context (H : gmap Z kind).

Definition senior (p : Z) : Prop := ~ between lo0 hi (p - start st0).
Record heap : Prop := {
  heap_inside p k i : H !! p = Some k -> 0 <= i < kwords k -> inside st0 hi (p + i - start st0) = true;
  heap_positive p k : H !! p = Some k -> 2 <= kwords k;
  heap_size p n : H !! p = Some (KInd n) -> word_at st0 (p + 1) = n;
  heap_apart p k p' k' i i' : H !! p = Some k -> H !! p' = Some k' -> 0 <= i < kwords k -> 0 <= i' < kwords k' -> p + i = p' + i' -> p = p' }.
Context (HH : heap).

(** A noun of the frame: its objects belong to the frame or to senior frames, and
    senior objects do not point to junior ones *)
Inductive held : Z -> noun -> Prop :=
  | held_senior w n : rep senior st0 w n -> held w n
  | held_indirect p ws :
      H !! p = Some (KInd (Z.of_nat (length ws))) -> (forall i x, ws !! i = Some x -> word_at st0 (p + 2 + Z.of_nat i) = x) ->
      held (word IND p) (NAtom (Indirect ws))
  | held_cell p m n :
      H !! p = Some KCell -> held (word_at st0 (p + 1)) m -> held (word_at st0 (p + 2)) n -> held (word CEL p) (NCell m n).

(** Where a word of the frame goes under the forwarding map *)
Definition sent (φ : gmap Z Z) (v v' : Z) : Prop :=
  (exists n, rep senior st0 v n) /\ v' = v \/
  exists p k q, H !! p = Some k /\ v = word (ktag k) p /\ φ !! p = Some q /\ v' = word (ktag k) q.
Definition field (φ : gmap Z Z) (work : list (Z * option Z)) (st : NockStack) (d v : Z) : Prop :=
  (v, Some d) ∈ work \/ sent φ v (word_at st d).
(** The words of the previous frame that hold copies *)
Definition copied (lo p : Z) : Prop := if is_west st0 then lo0 <= p - start st0 < lo else lo <= p - start st0 < lo0.

Record gc (φ : gmap Z Z) (work : list (Z * option Z)) (st : NockStack) (lo : Z) : Prop := {
  gc_within : within st0 lo0 hi st lo;
  gc_space : same_space st0 st;
  gc_alloc : alloc_offset st = alloc_offset st0;
  gc_stack : stack_offset st = if pc st then if is_west st0 then alloc_offset st0 - copy_words st0 else alloc_offset st0 + copy_words st0 else stack_offset st0;
  gc_from p k i : H !! p = Some k -> 0 <= i < kwords k ->
    word_at st (p + i) = match φ !! p with Some q => if i =? 1 then word FWD q else word_at st0 (p + i) | None => word_at st0 (p + i) end;
  gc_object p q : φ !! p = Some q -> exists k, H !! p = Some k /\ forall i, 0 <= i < kwords k -> copied lo (q + i);
  gc_metadata p q : φ !! p = Some q -> word_at st q = word_at st0 p;
  gc_indirect p q n i : φ !! p = Some q -> H !! p = Some (KInd n) -> 0 <= i < n + 2 -> word_at st (q + i) = word_at st0 (p + i);
  gc_cell p q j : φ !! p = Some q -> H !! p = Some KCell -> j = 1 \/ j = 2 -> field φ work st (q + j) (word_at st0 (p + j));
  gc_apart p k q p' k' q' i i' : φ !! p = Some q -> H !! p = Some k -> φ !! p' = Some q' -> H !! p' = Some k' ->
    0 <= i < kwords k -> 0 <= i' < kwords k' -> q + i = q' + i' -> p = p';
  gc_work v d : (v, Some d) ∈ work -> exists p q j, φ !! p = Some q /\ H !! p = Some KCell /\ (j = 1 \/ j = 2) /\ d = q + j /\ v = word_at st0 (p + j);
  gc_held v d : (v, d) ∈ work -> exists n, held v n }.

(** * Places *)

Lemma place0 : placed (is_west st0) (frame_offset st0) (stack_offset st0) (alloc_offset st0) lo0 hi.
Proof. pose proof (inv_place _ _ _ _ HI0) as Hp. by rewrite Hpc0 in Hp. Qed.
Lemma bounds0 : if is_west st0 then 0 <= lo0 /\ hi <= size st0 else 0 <= hi /\ lo0 <= size st0.
Proof. apply (inv_bounds _ _ _ _ HI0). Qed.

Lemma from_between p k i : H !! p = Some k -> 0 <= i < kwords k -> ~ senior (p + i) /\ in_stack st0 (p + i) = true.
Proof.
  intros Hk Hi. pose proof (heap_inside HH _ _ _ Hk Hi) as Hin. pose proof place0 as Hp. pose proof bounds0 as Hb.
  unfold senior, between, in_stack, inside, placed, RESERVED in *. destruct (is_west st0); lia.
Qed.
Lemma from_address p k : H !! p = Some k -> address p /\ readable st0 p = true.
Proof.
  intros Hk. pose proof (heap_positive HH _ _ Hk). destruct (from_between p k 0 Hk ltac:(lia)) as [_ Hin]. rewrite Z.add_0_r in Hin.
  assert (Hr : readable st0 p = true) by (unfold readable; by rewrite Hin). split; [|done].
  by apply (readable_address st0 (inv_arena _ _ _ _ HI0)).
Qed.
Lemma points_from p k : H !! p = Some k -> points st0 (ktag k) (word (ktag k) p) p.
Proof. intros Hk. split; [by apply (from_address p k)|by left]. Qed.
Lemma points_space st t w p : same_space st0 st -> points st0 t w p -> points st t w p.
Proof. intros Hs [Hr Hw]. split; [by rewrite (readable_same st0 st)|]. destruct Hs as [(_ & _ & ->) _]. done. Qed.

Section state.
Context (φ : gmap Z Z) (work : list (Z * option Z)) (st : NockStack) (lo : Z) (HG : gc φ work st lo).

Lemma gc_inv : Inv st lo hi rest.
Proof. eapply within_inv; [exact HI0|done|apply HG]. Qed.
Lemma gc_start : start st = start st0.
Proof. apply (gc_space _ _ _ _ HG). Qed.
Lemma gc_senior p : senior p -> word_at st p = word_at st0 p.
Proof. apply (within_outside _ _ _ _ _ (gc_within _ _ _ _ HG)). Qed.
(** The copies lie below the saved pointers *)
Lemma copied_place p : copied lo p -> between lo0 hi (p - start st0) /\ in_stack st0 p = true /\ pc st = true /\
  (forall q k i, H !! q = Some k -> 0 <= i < kwords k -> q + i <> p) /\
  (forall slot, 0 <= slot < 3 -> p <> start st0 + slot_at (is_west st0) (alloc_offset st0) slot).
Proof.
  intros Hc. pose proof (gc_within _ _ _ _ HG) as Hwi. pose proof (within_place _ _ _ _ _ Hwi) as Hp.
  pose proof (within_advanced _ _ _ _ _ Hwi) as Hadv. pose proof bounds0 as Hb. pose proof place0 as Hp0. rewrite (gc_alloc _ _ _ _ HG) in Hp.
  assert (Hpc : pc st = true).
  { destruct (pc st) eqn:Hpc; [done|]. destruct (within_frame _ _ _ _ _ Hwi Hpc) as [-> _]. unfold copied in Hc. destruct (is_west st0); lia. }
  rewrite Hpc in Hp. unfold copied, copied_out, placed, between, in_stack, slot_at, RESERVED, advanced in *. split_and!; [destruct (is_west st0); lia..|done| |].
  - intros q k i Hq Hi E. pose proof (heap_inside HH _ _ _ Hq Hi) as Hin. rewrite E in Hin. unfold inside in Hin. destruct (is_west st0); lia.
  - intros slot Hslot. destruct (is_west st0); lia.
Qed.
Lemma copied_free p : copied lo p -> ~ reserved st (p - start st).
Proof.
  intros Hc (slot & Hslot & E). destruct (copied_place p Hc) as (_ & _ & Hpc & _ & Hs). apply (Hs slot Hslot).
  unfold frame_base in E. rewrite Hpc, (gc_alloc _ _ _ _ HG), (within_west _ _ _ _ _ (gc_within _ _ _ _ HG)), gc_start in E. lia.
Qed.
Lemma copied_write p v : copied lo p ->
  write p v st = Ok (tt, set_mem (<[p := v]> (mem st)) st) /\ within st0 lo0 hi (set_mem (<[p := v]> (mem st)) st) lo.
Proof.
  intros Hc. destruct (copied_place p Hc) as (Hb & Hin & _). pose proof gc_start as Es. split.
  - replace p with (start st + (p - start st)) by lia. apply write_offset. apply in_stack_offset.
    destruct (gc_space _ _ _ _ HG) as [(E1 & E2 & E3) _]. replace (start st + (p - start st)) with p by lia. unfold in_stack. by rewrite E1, E2.
  - apply write_within; [apply HG|by rewrite Es|by apply copied_free].
Qed.
Lemma from_write p v k i : H !! p = Some k -> 0 <= i < kwords k ->
  write (p + i) v st = Ok (tt, set_mem (<[p + i := v]> (mem st)) st) /\ within st0 lo0 hi (set_mem (<[p + i := v]> (mem st)) st) lo.
Proof.
  intros Hk Hi. destruct (from_between p k i Hk Hi) as [Hb Hin]. pose proof gc_start as Es. pose proof gc_inv as HI.
  pose proof (heap_inside HH _ _ _ Hk Hi) as Hins. pose proof (inv_place _ _ _ _ HI) as Hp.
  pose proof (gc_within _ _ _ _ HG) as Hwi. split.
  - replace (p + i) with (start st + (p + i - start st)) by lia. apply write_offset. apply in_stack_offset.
    destruct (gc_space _ _ _ _ HG) as [(E1 & E2 & E3) _]. replace (start st + (p + i - start st)) with (p + i) by lia. unfold in_stack. by rewrite E1, E2.
  - apply write_within; [exact Hwi| |].
    + rewrite Es. unfold senior in Hb. destruct (decide (between lo0 hi (p + i - start st0))) as [|Hn]; [done|by apply Hb in Hn].
    + intros (slot & Hslot & E). rewrite (within_west _ _ _ _ _ Hwi), Es in E. unfold frame_base in E.
      rewrite (gc_alloc _ _ _ _ HG) in *. pose proof (within_place _ _ _ _ _ Hwi) as Hp'. rewrite (gc_alloc _ _ _ _ HG) in Hp'.
      unfold inside, slot_at, placed, copied_out, RESERVED in *. destruct (pc st), (is_west st0); lia.
Qed.
End state.

(** * Steps of the loop *)

Lemma gc_drop φ v work st lo : gc φ ((v, None) :: work) st lo -> gc φ work st lo.
Proof.
  intros [Hwi Hs Ha Hsk Hfr Ho Hm Hi Hc Hap Hwk Hh]. split; try done.
  - intros p q j Hp Hk Hj. destruct (Hc p q j Hp Hk Hj) as [Hin|Hs']; [left|by right]. by apply elem_of_cons in Hin as [[=]|].
  - intros v' d Hin. apply (Hwk v' d). by right.
  - intros v' d Hin. apply (Hh v' d). by right.
Qed.

Lemma gc_store φ v d work st lo v' :
  gc φ ((v, Some d) :: work) st lo -> sent φ v v' ->
  write d v' st = Ok (tt, set_mem (<[d := v']> (mem st)) st) /\ gc φ work (set_mem (<[d := v']> (mem st)) st) lo.
Proof.
  intros HG Hsent. pose proof HG as [Hwi Hs Ha Hsk Hfr Ho Hm Hi Hc Hap Hwk Hh].
  destruct (Hwk v d) as (p0 & q0 & j0 & Hp0 & Hk0 & Hj0 & -> & ->); [by left|].
  destruct (Ho p0 q0 Hp0) as (k0 & Hk0' & Hcop). rewrite Hk0 in Hk0'. injection Hk0' as <-.
  assert (Hd : copied lo (q0 + j0)) by (apply Hcop; cbn; lia).
  destruct (copied_write _ _ _ _ HG (q0 + j0) v' Hd) as [Ew Hwi']. split; [done|].
  assert (Hne : forall p q k i, φ !! p = Some q -> H !! p = Some k -> 0 <= i < kwords k -> q + i = q0 + j0 -> p = p0 /\ i = j0).
  { intros p q k i Hp Hk Hii E. assert (p = p0) as -> by (eapply (Hap p k q p0 KCell q0 i j0); try done; cbn; lia).
    rewrite Hp0 in Hp. injection Hp as <-. split; [done|lia]. }
  destruct (copied_place _ _ _ _ HG _ Hd) as (_ & _ & _ & Hnf & _). split; try done.
  - intros p k i Hk Hii. rewrite word_at_write, decide_False by (symmetry; by eapply Hnf). by apply Hfr with k.
  - intros p q Hp. destruct (Ho p q Hp) as (k & Hk & _). rewrite word_at_write, decide_False; [by apply Hm|].
    intros E. destruct (Hne p q k 0) as [_ ?]; [done|done|pose proof (heap_positive HH _ _ Hk); lia|lia|lia].
  - intros p q n i Hp Hk Hii. rewrite word_at_write, decide_False; [by eapply Hi|]. intros E.
    destruct (Hne p q _ i Hp Hk) as [-> _]; [done|lia|]. congruence.
  - intros p q j Hp Hk Hj. destruct (decide (q + j = q0 + j0)) as [E|E].
    + destruct (Hne p q _ j Hp Hk) as [-> ->]; [cbn; lia|done|]. right. rewrite E, word_at_write, decide_True by done. done.
    + unfold field. rewrite word_at_write, decide_False by congruence. destruct (Hc p q j Hp Hk Hj) as [Hin|?]; [left|by right].
      apply elem_of_cons in Hin as [[= _ ?]|]; [congruence|done].
  - intros v1 d1 Hin. apply (Hwk v1 d1). by right.
  - intros v1 d1 Hin. apply (Hh v1 d1). by right.
Qed.

(** Words of the previous frame that no copy uses *)
Definition unused (φ : gmap Z Z) (lo x : Z) : Prop :=
  copied lo x /\ forall p q k i, φ !! p = Some q -> H !! p = Some k -> 0 <= i < kwords k -> q + i <> x.

Lemma gc_unused_write φ work st lo x v :
  gc φ work st lo -> unused φ lo x ->
  write x v st = Ok (tt, set_mem (<[x := v]> (mem st)) st) /\ gc φ work (set_mem (<[x := v]> (mem st)) st) lo.
Proof.
  intros HG [Hx Hun]. pose proof HG as [Hwi Hs Ha Hsk Hfr Ho Hm Hi Hc Hap Hwk Hh].
  destruct (copied_write _ _ _ _ HG x v Hx) as [Ew Hwi']. split; [done|].
  destruct (copied_place _ _ _ _ HG _ Hx) as (_ & _ & _ & Hnf & _). split; try done.
  - intros p k i Hk Hii. rewrite word_at_write, decide_False by (symmetry; by eapply Hnf). by apply Hfr with k.
  - intros p q Hp. destruct (Ho p q Hp) as (k & Hk & _). rewrite word_at_write, decide_False; [by apply Hm|].
    intros E. apply (Hun p q k 0 Hp Hk); [pose proof (heap_positive HH _ _ Hk); lia|lia].
  - intros p q n i Hp Hk Hii. rewrite word_at_write, decide_False; [by eapply Hi|]. symmetry. by eapply Hun.
  - intros p q j Hp Hk Hj. unfold field. rewrite word_at_write, decide_False; [by apply Hc|]. symmetry. eapply Hun; [done..|cbn; lia].
Qed.

(** More space in the previous frame *)
Lemma gc_alloc_prev φ work st lo n x st' :
  gc φ work st lo -> word_count n -> 0 < n -> raw_alloc_in_previous_frame n st = Ok (x, st') ->
  gc φ work st' (prev_end st lo n) /\ (forall i, 0 <= i < n -> unused φ (prev_end st lo n) (x + i)) /\
  (forall p k i, H !! p = Some k -> 0 <= i < kwords k -> word_at st' (p + i) = word_at st (p + i)).
Proof.
  intros HG Hn Hn0 E. pose proof HG as [Hwi Hs Ha Hsk Hfr Ho Hm Hi Hc Hap Hwk Hh].
  destruct (alloc_prev_effect _ _ _ _ _ _ _ _ _ HI0 Hpc0 Hwi Hn Hn0 E) as (Hwi' & -> & Hpc' & Hs' & Ha' & Hsk' & Hmem).
  pose proof (gc_start _ _ _ _ HG) as Es. pose proof (within_west _ _ _ _ _ Hwi) as Hw. rewrite Ha, Hw, Es in Hmem.
  pose proof (within_advanced _ _ _ _ _ Hwi) as Hadv.
  assert (Hold : forall p, copied lo p -> word_at st' p = word_at st p).
  { intros p Hp. apply Hmem. intros slot Hslot. by apply (copied_place _ _ _ _ HG p Hp). }
  assert (Hfrom : forall p k i, H !! p = Some k -> 0 <= i < kwords k -> word_at st' (p + i) = word_at st (p + i)).
  { intros p k i Hk Hii. apply Hmem. intros slot Hslot Ep. pose proof (heap_inside HH _ _ _ Hk Hii) as Hin. rewrite Ep in Hin.
    unfold inside, slot_at in Hin. destruct (is_west st0); lia. }
  assert (Hmono : forall p, copied lo p -> copied (prev_end st lo n) p).
  { intros p Hp. unfold copied, prev_end in *. rewrite Hw. destruct (is_west st0); lia. }
  split; [|split; [|done]].
  - split; try done.
    + by eapply same_space_trans.
    + congruence.
    + rewrite Hpc', Hsk', Hsk, Hw, Ha. unfold copy_words. rewrite Hw. by destruct (pc st).
    + intros p k i Hk Hii. rewrite (Hfrom p k i) by done. by apply Hfr with k.
    + intros p q Hp. destruct (Ho p q Hp) as (k & Hk & Hcop). exists k. split; [done|]. intros i Hii. by apply Hmono, Hcop.
    + intros p q Hp. destruct (Ho p q Hp) as (k & Hk & Hcop). rewrite Hold; [by apply Hm|].
      rewrite <- (Z.add_0_r q). apply Hcop. pose proof (heap_positive HH _ _ Hk). lia.
    + intros p q m i Hp Hk Hii. destruct (Ho p q Hp) as (k & Hk' & Hcop). rewrite Hk in Hk'. injection Hk' as <-. rewrite Hold; [by eapply Hi|]. by apply Hcop.
    + intros p q j Hp Hk Hj. destruct (Ho p q Hp) as (k & Hk' & Hcop). rewrite Hk in Hk'. injection Hk' as <-.
      unfold field. rewrite Hold; [by apply Hc|]. apply Hcop. cbn. lia.
  - intros i Hii. split.
    + unfold copied, prev_block, prev_end, advanced in *. rewrite Hw, Es. destruct (is_west st0); lia.
    + intros p q k j Hp Hk Hjj Eq. destruct (Ho p q Hp) as (k' & Hk' & Hcop). rewrite Hk in Hk'. injection Hk' as <-.
      specialize (Hcop j Hjj). unfold copied, prev_block in *. rewrite Hw, Es in Eq. destruct (is_west st0); lia.
Qed.

Lemma sent_mono φ φ' v v' : φ ⊆ φ' -> sent φ v v' -> sent φ' v v'.
Proof.
  intros Hsub [?|(p & k & q & Hk & Ev & Hq & Ev')]; [by left|right]. exists p, k, q. split_and!; try done. by eapply lookup_weaken.
Qed.

(** The fields of a new copy *)
Definition pending (p q : Z) (k : kind) : list (Z * option Z) :=
  match k with
  | KCell => [(word_at st0 (p + 1), Some (q + 1)); (word_at st0 (p + 2), Some (q + 2))]
  | KInd _ => []
  end.

Lemma gc_forward φ work st lo p k q :
  gc φ work st lo -> H !! p = Some k -> φ !! p = None -> (forall i, 0 <= i < kwords k -> unused φ lo (q + i)) ->
  word_at st q = word_at st0 p -> (forall n i, k = KInd n -> 0 <= i < n + 2 -> word_at st (q + i) = word_at st0 (p + i)) ->
  (forall v d, (v, d) ∈ pending p q k -> exists n, held v n) ->
  write (p + 1) (word FWD q) st = Ok (tt, set_mem (<[p + 1 := word FWD q]> (mem st)) st) /\
  gc (<[p := q]> φ) (pending p q k ++ work) (set_mem (<[p + 1 := word FWD q]> (mem st)) st) lo.
Proof.
  intros HG Hk Hφ Hun Hmeta Hind Hheld. pose proof HG as [Hwi Hs Ha Hsk Hfr Ho Hm Hi Hc Hap Hwk Hh].
  pose proof (heap_positive HH _ _ Hk) as Hk2.
  destruct (from_write _ _ _ _ HG p (word FWD q) k 1 Hk ltac:(lia)) as [Ew Hwi']. split; [done|].
  assert (Hnc : forall y, copied lo y -> p + 1 <> y).
  { intros y Hy. destruct (copied_place _ _ _ _ HG y Hy) as (_ & _ & _ & Hnf & _). eapply Hnf; [done|lia]. }
  assert (Hcop : forall p' q', φ !! p' = Some q' -> copied lo q').
  { intros p' q' Hp'. destruct (Ho p' q' Hp') as (k' & Hk' & Hcop). rewrite <- (Z.add_0_r q'). apply Hcop. pose proof (heap_positive HH _ _ Hk'). lia. }
  assert (Hsub : φ ⊆ <[p := q]> φ) by (by apply insert_subseteq).
  assert (Hnew : forall p' k' q' i i', φ !! p' = Some q' -> H !! p' = Some k' -> 0 <= i < kwords k -> 0 <= i' < kwords k' -> q + i <> q' + i').
  { intros p' k' q' i i' Hp' Hk' Hii Hii' E. destruct (Hun i Hii) as [_ Hu]. by apply (Hu p' q' k' i'). }
  split; try done.
  - intros p' k' i Hk' Hii. rewrite word_at_write. destruct (decide (p' = p)) as [->|Hne].
    + rewrite lookup_insert_eq. destruct (Z.eqb_spec i 1) as [->|Hi1]; [by rewrite decide_True|].
      rewrite decide_False by lia. rewrite (Hfr p k' i Hk' Hii), Hφ. done.
    + rewrite lookup_insert_ne by done. rewrite decide_False; [by apply Hfr with k'|].
      intros E. apply Hne. symmetry. eapply (heap_apart HH p k p' k' 1 i); done || lia.
  - intros p' q' Hp'. destruct (decide (p' = p)) as [->|Hne].
    + rewrite lookup_insert_eq in Hp'. injection Hp' as <-. exists k. split; [done|]. intros i Hii. by apply Hun.
    + rewrite lookup_insert_ne in Hp' by done. by apply Ho.
  - intros p' q' Hp'. destruct (decide (p' = p)) as [->|Hne].
    + rewrite lookup_insert_eq in Hp'. injection Hp' as <-. rewrite word_at_write, decide_False; [done|].
      apply Hnc. rewrite <- (Z.add_0_r q). apply Hun. lia.
    + rewrite lookup_insert_ne in Hp' by done. rewrite word_at_write, decide_False; [by apply Hm|]. by eapply Hnc, Hcop.
  - intros p' q' n i Hp' Hk' Hii. destruct (decide (p' = p)) as [->|Hne].
    + rewrite lookup_insert_eq in Hp'. injection Hp' as <-. rewrite Hk in Hk'. injection Hk' as ->.
      rewrite word_at_write, decide_False; [by eapply Hind|]. apply Hnc, Hun. done.
    + rewrite lookup_insert_ne in Hp' by done. rewrite word_at_write, decide_False; [by eapply Hi|].
      apply Hnc. destruct (Ho p' q' Hp') as (k' & Hk'' & Hc'). rewrite Hk' in Hk''. injection Hk'' as <-. by apply Hc'.
  - intros p' q' j Hp' Hk' Hj. destruct (decide (p' = p)) as [->|Hne].
    + rewrite lookup_insert_eq in Hp'. injection Hp' as <-. rewrite Hk in Hk'. injection Hk' as ->. left. cbn [pending app].
      destruct Hj as [-> | ->]; [left|right; left].
    + rewrite lookup_insert_ne in Hp' by done. destruct (Hc p' q' j Hp' Hk' Hj) as [Hin|Hsent]; [left; apply elem_of_app; by right|right].
      rewrite word_at_write, decide_False; [by eapply sent_mono|]. apply Hnc. destruct (Ho p' q' Hp') as (k' & Hk'' & Hc').
      rewrite Hk' in Hk''. injection Hk'' as <-. apply Hc'. cbn. lia.
  - intros p1 k1 q1 p2 k2 q2 i1 i2 Hp1 Hk1 Hp2 Hk2' Hi1 Hi2 E.
    apply lookup_insert_Some in Hp1 as [[<- <-]|[Hne1 Hp1]], Hp2 as [[<- <-]|[Hne2 Hp2]]; [done| | |by eapply (Hap p1 k1 q1 p2 k2 q2)].
    + rewrite Hk in Hk1. injection Hk1 as <-. by destruct (Hnew p2 k2 q2 i1 i2).
    + rewrite Hk in Hk2'. injection Hk2' as <-. by destruct (Hnew p1 k1 q1 i2 i1).
  - intros v d Hin. apply elem_of_app in Hin as [Hin|Hin].
    + destruct k; [|by apply elem_of_nil in Hin]. cbn [pending] in Hin.
      apply elem_of_cons in Hin as [[= -> ->]|Hin]; [exists p, q, 1; rewrite lookup_insert_eq; split_and!; auto|].
      apply elem_of_cons in Hin as [[= -> ->]|Hin]; [exists p, q, 2; rewrite lookup_insert_eq; split_and!; auto|]. by apply elem_of_nil in Hin.
    + destruct (Hwk v d Hin) as (p' & q' & j & Hp' & Hrest). exists p', q', j. split; [by eapply lookup_weaken|done].
  - intros v d Hin. apply elem_of_app in Hin as [Hin|Hin]; [by apply Hheld with d|by apply (Hh v d)].
Qed.

(** * Copying *)

Lemma copy_unused φ work lo p k x n :
  H !! p = Some k -> φ !! p = None -> forall j st, 0 <= j -> j + Z.of_nat n <= kwords k ->
  (forall i, 0 <= i < kwords k -> unused φ lo (x + i)) -> gc φ work st lo ->
  exists st', copy_nonoverlapping (p + j) (x + j) n st = Ok (tt, st') /\ gc φ work st' lo /\
    (forall i, j <= i < j + Z.of_nat n -> word_at st' (x + i) = word_at st0 (p + i)) /\
    (forall i, 0 <= i < j -> word_at st' (x + i) = word_at st (x + i)).
Proof.
  intros Hk Hφ. induction n as [|n IH]; intros j st Hj Hn Hun HG.
  { exists st. split_and!; try done. intros i Hi. lia. }
  cbn [copy_nonoverlapping]. destruct (from_between p k j Hk) as [_ Hin]; [lia|].
  assert (Hr : read (p + j) st = Ok (word_at st (p + j), st)).
  { unfold read. rewrite (run_bind get _ st st st) by done. rewrite (readable_same st0 st) by apply HG. unfold readable. by rewrite Hin. }
  rewrite (run_bind _ _ _ _ _ Hr). destruct (gc_unused_write _ _ _ _ (x + j) (word_at st (p + j)) HG (Hun j ltac:(lia))) as [Ew HG'].
  rewrite (run_bind _ _ _ _ _ Ew). destruct (IH (j + 1) _ ltac:(lia) ltac:(lia) Hun HG') as (st' & E & HG'' & H1 & H2).
  rewrite <- !Z.add_assoc. exists st'. split_and!; try done.
  - intros i Hi. destruct (decide (i = j)) as [->|]; [|apply H1; lia]. rewrite H2 by lia. rewrite word_at_write, decide_True by done.
    rewrite (gc_from _ _ _ _ HG p k j Hk ltac:(lia)), Hφ. done.
  - intros i Hi. rewrite H2 by lia. rewrite word_at_write, decide_False; [done|lia].
Qed.

(** * What the loop sees of a word *)

Lemma gc_equiv φ work work' st lo : (forall x, x ∈ work' <-> x ∈ work) -> gc φ work st lo -> gc φ work' st lo.
Proof.
  intros E [Hwi Hs Ha Hsk Hfr Ho Hm Hi Hc Hap Hwk Hh]. split; try done.
  - intros p q j Hp Hk Hj. unfold field. rewrite E. by apply Hc.
  - intros v d Hin. apply E in Hin. by apply Hwk.
  - intros v d Hin. apply E in Hin. by apply (Hh v d).
Qed.

Lemma held_word_form v n : held v n -> exists t p, v = word t p /\ address p /\ 0 <= t /\ (t < 8 \/ t = 8 \/ t = 9 \/ t = 12 \/ t = 13).
Proof.
  destruct 1 as [w n Hrep|p ws Hk _|p m n Hk _ _]; [by apply rep_word_form in Hrep; [|apply HI0]|..];
    destruct (from_address _ _ Hk) as [Ha _]; [exists IND, p|exists CEL, p]; (split; [done|]); (split; [done|]); unfold IND, CEL; lia.
Qed.

(** A word for an object of the frame is not the word of a senior noun *)
Lemma not_senior p k n : H !! p = Some k -> ~ rep senior st0 (word (ktag k) p) n.
Proof.
  intros Hk Hrep. pose proof (from_address p k Hk) as [Ha Hr]. pose proof (heap_positive HH _ _ Hk). pose proof (inv_arena _ _ _ _ HI0) as Hok.
  assert (Hgo : forall t p', is_tag t -> points st0 t (word (ktag k) p) p' -> senior p' -> False).
  { intros t p' Ht [Hr' Hp'] Hs. pose proof (readable_address st0 Hok p' Hr') as [Ha' _].
    destruct Hp' as [E|(a & o & Ea & Ho & H32 & E & _)].
    - apply word_inj in E as [_ ->]; [|done|done]. destruct (from_between p' k 0 Hk) as [Hn _]; [lia|]. rewrite Z.add_0_r in Hn. done.
    - apply word_inj in E as [E _]; [|done|unfold address; lia]. destruct Ht as [-> | ->], k; discriminate E. }
  inversion Hrep as [d Hd E|v p' ws Hp' Hs|v p' m n' Hp' Hs]; subst.
  - rewrite DIRECT_MAX_val in Hd. unfold word, address in *. destruct k; unfold ktag, CEL, IND in Hd; lia.
  - apply (Hgo IND p'); [by left|done|]. destruct (Hs 0) as [_ Hs0]; [lia|]. by rewrite Z.add_0_r in Hs0.
  - apply (Hgo CEL p'); [by right|done|]. destruct (Hs 0) as [_ Hs0]; [lia|]. by rewrite Z.add_0_r in Hs0.
Qed.
Lemma held_cell_inv p n : H !! p = Some KCell -> held (word CEL p) n ->
  exists m m', n = NCell m m' /\ held (word_at st0 (p + 1)) m /\ held (word_at st0 (p + 2)) m'.
Proof.
  intros Hk Hh. pose proof (from_address p _ Hk) as [Ha _].
  inversion Hh as [w n' Hrep|p' ws Hk' _ Ew|p' m m' Hk' Hm Hm' Ew]; subst.
  - by apply (not_senior p KCell) in Hrep.
  - apply word_inj in Ew as [? _]; [done|by eapply from_address|done].
  - apply word_inj in Ew as [_ ->]; [|by eapply from_address|done]. eauto.
Qed.
Lemma held_ind_inv p sz n : H !! p = Some (KInd sz) -> held (word IND p) n ->
  exists ws, n = NAtom (Indirect ws) /\ sz = Z.of_nat (length ws) /\ forall i x, ws !! i = Some x -> word_at st0 (p + 2 + Z.of_nat i) = x.
Proof.
  intros Hk Hh. pose proof (from_address p _ Hk) as [Ha _].
  inversion Hh as [w n' Hrep|p' ws Hk' Hws Ew|p' m m' Hk' Hm Hm' Ew]; subst.
  - by apply (not_senior p (KInd sz)) in Hrep.
  - apply word_inj in Ew as [_ ->]; [|by eapply from_address|done]. rewrite Hk in Hk'. injection Hk' as ->. eauto.
  - apply word_inj in Ew as [? _]; [done|by eapply from_address|done].
Qed.
(** Every word that denotes a noun is senior or belongs to an object of the frame *)
Lemma held_cases v n : held v n -> rep senior st0 v n \/ exists p k, H !! p = Some k /\ v = word (ktag k) p.
Proof. destruct 1 as [w n Hrep|p ws Hk _|p m n Hk _ _]; [by left|right..]; eauto. Qed.

Section words.
Context (φ : gmap Z Z) (work : list (Z * option Z)) (st : NockStack) (lo : Z) (HG : gc φ work st lo).

Lemma gc_read p : readable st0 p = true -> read p st = Ok (word_at st p, st).
Proof. intros Hr. unfold read. rewrite (run_bind get _ st st st) by done. rewrite (readable_same st0 st) by apply HG. by rewrite Hr. Qed.
Lemma gc_resolve t w p : is_tag t -> points st0 t w p -> to_raw_pointer (cur_space st0) w st = Ok (p, st) /\
  is_direct_atom w = false /\ is_indirect_atom w = (t =? IND) /\ kind_tag w = word t 0.
Proof.
  intros Ht Hp. rewrite <- (cur_space_same st0 st) by apply HG. apply pointer_resolves; [apply (gc_inv _ _ _ _ HG)|done|].
  by apply points_space; [apply HG|].
Qed.
Lemma gc_inside p : readable st0 p = true -> is_in_frame p st = Ok (inside st0 hi (p - start st0), st).
Proof.
  intros Hr. rewrite (is_in_frame_spec st lo hi rest) by (apply (gc_inv _ _ _ _ HG) || by rewrite (readable_same st0 st) by apply HG).
  unfold inside. rewrite (within_west _ _ _ _ _ (gc_within _ _ _ _ HG)), (gc_alloc _ _ _ _ HG), (gc_start _ _ _ _ HG). done.
Qed.
Lemma forwarding_of t w p : is_tag t -> points st0 t w p -> readable st0 (p + 1) = true ->
  (Z.land (word_at st (p + 1)) FORWARDING_MASK =? FORWARDING_TAG) = false -> forwarding_pointer (cur_space st0) w st = Ok (None, st).
Proof.
  intros Ht Hp Hr Hw. destruct (gc_resolve t w p Ht Hp) as (E & _). unfold forwarding_pointer. rewrite (run_bind _ _ _ _ _ E).
  rewrite (run_bind _ _ _ _ _ (gc_read _ Hr)), Hw. done.
Qed.

(** A senior word: it stays *)
Lemma see_senior v n : rep senior st0 v n ->
  is_direct_atom v = true \/
  (is_direct_atom v = false /\ exists p, forwarding_pointer (cur_space st0) v st = Ok (None, st) /\
    to_raw_pointer (cur_space st0) v st = Ok (p, st) /\ is_in_frame p st = Ok (false, st)).
Proof.
  intros Hrep. pose proof (inv_arena _ _ _ _ HI0) as Hok.
  assert (Hgo : forall t p k w, is_tag t -> points st0 t v p -> spans senior st0 p k -> 2 <= k -> word_at st0 (p + 1) = w ->
    (Z.land w FORWARDING_MASK =? FORWARDING_TAG) = false ->
    is_direct_atom v = false /\ exists p, forwarding_pointer (cur_space st0) v st = Ok (None, st) /\
    to_raw_pointer (cur_space st0) v st = Ok (p, st) /\ is_in_frame p st = Ok (false, st)).
  { intros t p k w Ht Hp Hk Hk2 Ew Hf. destruct (gc_resolve t v p Ht Hp) as (E & Ed & _). split; [done|]. exists p.
    destruct (Hk 1) as [Hr1 Hs1]; [lia|]. destruct (Hk 0) as [Hr0 Hs0]; [lia|]. rewrite Z.add_0_r in Hr0, Hs0. split_and!.
    - apply (forwarding_of t v p); [done|done|done|]. rewrite (gc_senior _ _ _ _ HG) by done. by rewrite Ew.
    - done.
    - rewrite gc_inside by done. do 2 f_equal. pose proof place0 as Hpl. unfold senior, between, inside, placed, RESERVED in *.
      destruct (is_west st0); lia. }
  destruct Hrep as [d Hd|v p ws Hp Hk Hn Hws|v p m n Hp Hk Hm Hn]; [left; by apply direct_small|right..].
  - destruct (Hk (1 + Z.of_nat (length ws))) as [Hr _]; [lia|]. apply (readable_address st0 Hok) in Hr as [Hr _].
    destruct Hp as [Hr0 Hp]. pose proof (readable_address st0 Hok p Hr0) as [_ Hp0].
    eapply (Hgo IND p _ (Z.of_nat (length ws))); [by left|split; done|exact Hk|lia|done|].
    assert (Hal : address (Z.of_nat (length ws))) by (unfold address in *; lia).
    replace (Z.of_nat (length ws)) with (word 0 (Z.of_nat (length ws))) by (unfold word; lia). apply word_not_forwarding; [done|lia|lia].
  - destruct (rep_word_form _ _ _ _ Hok Hm) as (t & q & E & Hq & Ht0 & Ht).
    eapply (Hgo CEL p 3); [by right|done|exact Hk|lia|exact E|]. by apply word_not_forwarding.
Qed.

(** A word of the frame whose object has been copied *)
Lemma see_copied p k q : H !! p = Some k -> φ !! p = Some q ->
  is_direct_atom (word (ktag k) p) = false /\
  forwarding_pointer (cur_space st0) (word (ktag k) p) st = Ok (Some (word (ktag k) q), st).
Proof.
  intros Hk Hq. pose proof (heap_positive HH _ _ Hk) as Hk2. pose proof (points_from p k Hk) as Hp.
  destruct (gc_resolve _ _ _ (ktag_is_tag k) Hp) as (E & Ed & _ & Et). split; [done|].
  destruct (from_between p k 1 Hk) as [_ Hin]; [lia|].
  unfold forwarding_pointer. rewrite (run_bind _ _ _ _ _ E), (run_bind _ _ _ _ _ (gc_read (p + 1) ltac:(unfold readable; by rewrite Hin))).
  rewrite (gc_from _ _ _ _ HG p k 1 Hk ltac:(lia)), Hq. cbn [Z.eqb Pos.eqb].
  assert (Hcq : copied lo q).
  { destruct (gc_object _ _ _ _ HG p q Hq) as (k' & Hk' & Hc). rewrite <- (Z.add_0_r q). apply Hc. pose proof (heap_positive HH _ _ Hk'). lia. }
  destruct (copied_place _ _ _ _ HG q Hcq) as (_ & Hiq & _). assert (Hrq : readable st0 q = true) by (unfold readable; by rewrite Hiq).
  destruct (readable_address st0 (inv_arena _ _ _ _ HI0) q Hrq) as [Haq _].
  rewrite forwarding_tag by done. change (Z.land FWD 14 =? FWD) with true. cbn match.
  assert (Er : resolve_const (cur_space st0) (word FWD q) FORWARDING_MASK st = Ok (q, st)).
  { rewrite <- (cur_space_same st0 st) by apply HG. apply (resolve_stack st (inv_arena _ _ _ _ (gc_inv _ _ _ _ HG)) FWD 14); [|done|done].
    by rewrite (readable_same st0 st) by apply HG. }
  rewrite (run_bind _ _ _ _ _ Er). unfold mret, M_ret. by rewrite Et, (stack_ptr_word (ktag k) q Haq).
Qed.
(** A word of the frame whose object has not been copied *)
Lemma see_fresh p k n : H !! p = Some k -> φ !! p = None -> held (word (ktag k) p) n ->
  is_direct_atom (word (ktag k) p) = false /\ is_indirect_atom (word (ktag k) p) = (ktag k =? IND) /\
  forwarding_pointer (cur_space st0) (word (ktag k) p) st = Ok (None, st) /\
  to_raw_pointer (cur_space st0) (word (ktag k) p) st = Ok (p, st) /\ is_in_frame p st = Ok (true, st).
Proof.
  intros Hk Hφ Hh. pose proof (heap_positive HH _ _ Hk) as Hk2. pose proof (points_from p k Hk) as Hp. pose proof (from_address p k Hk) as [Ha Hr].
  destruct (gc_resolve _ _ _ (ktag_is_tag k) Hp) as (E & Ed & Ei & Et). split; [done|]. split; [done|]. split; [|split; [done|]].
  2: { rewrite gc_inside by done. pose proof (heap_inside HH p k 0 Hk ltac:(lia)) as Hin. rewrite Z.add_0_r in Hin. by rewrite Hin. }
  destruct (from_between p k 1 Hk) as [_ Hin]; [lia|]. apply (forwarding_of (ktag k) _ p); [apply ktag_is_tag|done|unfold readable; by rewrite Hin|].
  rewrite (gc_from _ _ _ _ HG p k 1 Hk ltac:(lia)), Hφ. destruct k as [|sz].
  - destruct (held_cell_inv p n Hk Hh) as (m & m' & _ & Hm & _). destruct (held_word_form _ _ Hm) as (t & x & -> & Hx & Ht0 & Ht).
    by apply word_not_forwarding.
  - rewrite (heap_size HH p sz Hk). destruct (from_between p _ (sz + 1) Hk) as [_ Hin']; [cbn in *; lia|].
    assert (Hsz : address sz).
    { destruct (inv_arena _ _ _ _ HI0) as [? ? ? _]. unfold in_stack, address in *. cbn in Hk2.
      destruct (readable_address st0 (inv_arena _ _ _ _ HI0) p Hr). lia. }
    replace sz with (word 0 sz) by (unfold word; lia). apply word_not_forwarding; [done|lia|lia].
Qed.
End words.

(** * The loop *)

(** The caller's variable [root] for the word [v0] *)
Definition rooted (φ : gmap Z Z) (work : list (Z * option Z)) (v0 root : Z) : Prop :=
  (forall w, (w, None) ∈ work -> w = v0) /\ ((v0, None) ∈ work \/ sent φ v0 root).

Lemma store_step φ v dest work st lo v' root v0 :
  gc φ ((v, dest) :: work) st lo -> sent φ v v' -> rooted φ ((v, dest) :: work) v0 root ->
  exists root' st', store dest v' root st = Ok (root', st') /\ gc φ work st' lo /\ rooted φ work v0 root'.
Proof.
  intros HG Hs [Hr1 Hr2]. destruct dest as [d|]; cbn [store].
  - destruct (gc_store _ _ _ _ _ _ _ HG Hs) as [E HG']. exists root. eexists. rewrite (run_bind _ _ _ _ _ E). split; [done|]. split; [done|]. split.
    + intros w Hw. apply Hr1. by right.
    + destruct Hr2 as [Hin|?]; [left|by right]. by apply elem_of_cons in Hin as [[=]|].
  - exists v', st. split; [done|]. split; [by eapply gc_drop|]. split.
    + intros w Hw. apply Hr1. by right.
    + right. rewrite <- (Hr1 v) by (by left). done.
Qed.
Lemma rooted_mono φ φ' work work' v0 root :
  φ ⊆ φ' -> (forall w, (w, None) ∈ work' <-> (w, None) ∈ work) -> rooted φ work v0 root -> rooted φ' work' v0 root.
Proof.
  intros Hsub E [H1 H2]. split; [intros w Hw; by apply H1, E|]. rewrite E. destruct H2; [by left|right]. by eapply sent_mono.
Qed.

Lemma size_bound p sz : H !! p = Some (KInd sz) -> 0 <= sz < 2 ^ 60.
Proof.
  intros Hk. pose proof (heap_positive HH _ _ Hk) as Hk2. cbn in Hk2. destruct (from_between p _ (sz + 1) Hk) as [_ Hin]; [cbn; lia|].
  destruct (from_between p _ 0 Hk) as [_ Hin0]; [cbn; lia|]. destruct (inv_arena _ _ _ _ HI0) as [? ? ? _]. unfold in_stack in *. lia.
Qed.

(** The words left in the gap: every copy takes some of them *)
Definition space_left (lo : Z) : Z := if is_west st0 then alloc_offset st0 - lo else lo - alloc_offset st0.
Lemma space_left_nonneg φ work st lo : gc φ work st lo -> 0 <= space_left lo.
Proof.
  intros HG. pose proof (within_place _ _ _ _ _ (gc_within _ _ _ _ HG)) as Hp. rewrite (gc_alloc _ _ _ _ HG) in Hp.
  unfold space_left, placed, copied_out, RESERVED in *. destruct (pc st), (is_west st0); lia.
Qed.
Lemma space_left_alloc φ work st lo n : gc φ work st lo -> space_left (prev_end st lo n) = space_left lo - n.
Proof.
  intros HG. unfold space_left, prev_end. rewrite (within_west _ _ _ _ _ (gc_within _ _ _ _ HG)). destruct (is_west st0); lia.
Qed.

(** The words of the objects that have not been copied *)
Definition todo (φ : gmap Z Z) : Z := map_fold (fun _ k s => kwords k + s) 0 (filter (fun pk => φ !! pk.1 = None) H).
Lemma todo_nonneg φ : 0 <= todo φ.
Proof.
  unfold todo. assert (Hk : forall p k, filter (fun pk => φ !! pk.1 = None) H !! p = Some k -> 2 <= kwords k).
  { intros p k Hk. apply map_lookup_filter_Some in Hk as [Hk _]. by apply (heap_positive HH p). }
  revert Hk. generalize (filter (fun pk => φ !! pk.1 = None) H). intros m.
  apply (map_fold_weak_ind (fun r m => (forall p k, m !! p = Some k -> 2 <= kwords k) -> 0 <= r)); [done|].
  intros p k m' r Hp IH Hk. pose proof (Hk p k ltac:(by rewrite lookup_insert_eq)).
  enough (0 <= r) by lia. apply IH. intros p' k' Hk'. apply (Hk p'). rewrite lookup_insert_ne; [done|]. intros <-. congruence.
Qed.
Lemma todo_copied φ p k q : H !! p = Some k -> φ !! p = None -> todo φ = kwords k + todo (<[p := q]> φ).
Proof.
  intros Hk Hφ. unfold todo. rewrite (map_fold_delete_L _ _ p k _).
  - f_equal. f_equal. apply map_eq. intros p'. destruct (decide (p' = p)) as [->|Hne].
    + rewrite lookup_delete_eq. symmetry. apply map_lookup_filter_None. right. intros ? _. cbn. by rewrite lookup_insert_eq.
    + rewrite lookup_delete_ne, !map_lookup_filter by done. destruct (H !! p') as [k'|]; [|done]. cbn.
      destruct (decide (φ !! p' = None)) as [E|E]; [rewrite !option_guard_True; rewrite ?lookup_insert_ne; done|rewrite !option_guard_False; rewrite ?lookup_insert_ne; done].
  - intros ? ? ? ? ? _ _ _. lia.
  - apply map_lookup_filter_Some. done.
Qed.
(** The objects of the frame fit in the gap, beside the saved pointers *)
Definition room : Prop :=
  copy_words st0 <= Z.abs (alloc_offset st0 - stack_offset st0) /\ todo ∅ + copy_words st0 <= space_left lo0.
Definition balanced (φ : gmap Z Z) (lo : Z) : Prop := space_left lo - todo φ = space_left lo0 - todo ∅.

Lemma alloc_prev_cases φ work st lo p k :
  gc φ work st lo -> balanced φ lo -> H !! p = Some k -> φ !! p = None -> word_count (kwords k) ->
  (exists x st', raw_alloc_in_previous_frame (kwords k) st = Ok (x, st')) \/ (stops (raw_alloc_in_previous_frame (kwords k) st) /\ ~ room).
Proof.
  intros HG Hbal Hk Hφ Hwc. pose proof (heap_positive HH _ _ Hk) as Hk2. pose proof (gc_within _ _ _ _ HG) as Hwi.
  pose proof (gc_stack _ _ _ _ HG) as Hsk. pose proof (gc_alloc _ _ _ _ HG) as Ha. pose proof (within_west _ _ _ _ _ Hwi) as Hw. pose proof place0 as Hp0.
  pose proof (todo_copied φ p k 0 Hk Hφ) as Ht. pose proof (todo_nonneg (<[p := 0]> φ)) as Ht0.
  assert (Hpre : (exists st1, pre_copy st = Ok (tt, st1) /\ pc st1 = true /\ within st0 lo0 hi st1 lo /\
      stack_offset st1 = if is_west st0 then alloc_offset st0 - copy_words st0 else alloc_offset st0 + copy_words st0) \/ (stops (pre_copy st) /\ ~ room)).
  { destruct (pc st) eqn:Hpc; [left; exists st; rewrite pre_copy_again by done; done|].
    destruct (pre_copy_spec _ _ _ _ (gc_inv _ _ _ _ HG) Hpc) as [[_ E]|[Hn Hs]].
    - left. exists (copying_state st). split; [done|]. split; [done|]. split; [by eapply pre_copy_within|].
      unfold copying_state, copy_words. cbn. by rewrite Hw, Ha.
    - right. split; [done|]. intros [Hr _]. apply Hn. unfold fits, oriented, copy_words, placed in *. rewrite Hw, Ha, Hsk in *. destruct (is_west st0); lia. }
  destruct Hpre as [(st1 & E1 & Hpc1 & Hwi1 & Hs1)|[Hs Hr]]; [|right; split; [|done]; by apply stops_bind].
  rewrite (alloc_prev_pre_copy _ st st1 E1 Hpc1). pose proof (within_inv _ _ _ _ HI0 Hpc0 _ _ Hwi1) as HI1.
  destruct (prev_alloc_spec _ _ _ _ HI1 Hpc1 _ Hwc ltac:(lia)) as [[_ E]|[Hn Hs]]; [left; eauto|right]. split; [done|]. intros [_ Hr]. apply Hn.
  unfold fits, oriented, balanced, space_left in *. rewrite (within_west _ _ _ _ _ Hwi1), Hs1 in *. destruct (is_west st0); lia.
Qed.

(** The loop ends, or there was not enough space *)
Definition loop_ends (φ : gmap Z Z) (v0 : Z) (r : outcome fault (Z * NockStack)) : Prop :=
  (exists φ' root st lo, r = Ok (root, st) /\ φ ⊆ φ' /\ gc φ' [] st lo /\ balanced φ' lo /\ sent φ' v0 root) \/ (stops r /\ ~ room).
Lemma loop_ends_mono φ φ' v0 r : φ ⊆ φ' -> loop_ends φ' v0 r -> loop_ends φ v0 r.
Proof. intros Hs [(φ2 & root & st & lo & E & Hs2 & Hr)|?]; [left|by right]. exists φ2, root, st, lo. split; [done|]. split; [by etransitivity|done]. Qed.

(** The address of a copy *)
Lemma copied_address φ work st lo x : gc φ work st lo -> copied lo x -> address x.
Proof.
  intros HG Hc. destruct (copied_place _ _ _ _ HG x Hc) as (_ & Hix & _).
  apply (readable_address st0 (inv_arena _ _ _ _ HI0)). unfold readable. by rewrite Hix.
Qed.
(** The end of a copy: the old object is forwarded and the new word stored *)
Lemma forward_store {A} φ dest work st lo p k x root v0 (K : Z -> M A) :
  gc φ ((word (ktag k) p, dest) :: work) st lo -> rooted φ ((word (ktag k) p, dest) :: work) v0 root -> H !! p = Some k -> φ !! p = None ->
  (forall i, 0 <= i < kwords k -> unused φ lo (x + i)) -> word_at st x = word_at st0 p ->
  (forall n i, k = KInd n -> 0 <= i < n + 2 -> word_at st (x + i) = word_at st0 (p + i)) ->
  (forall v d, (v, d) ∈ pending p x k -> exists n, held v n) ->
  exists root' st', (_ ← set_forwarding_pointer (cur_space st0) (word (ktag k) p) x; root ← store dest (word (ktag k) x) root; K root) st = K root' st' /\
    φ ⊆ <[p := x]> φ /\ gc (<[p := x]> φ) (pending p x k ++ work) st' lo /\ rooted (<[p := x]> φ) (pending p x k ++ work) v0 root'.
Proof.
  intros HG Hroot Hk Hφ Hun Hm Hind Hpend. pose proof (heap_positive HH _ _ Hk) as Hk2.
  destruct (gc_resolve _ _ _ _ HG (ktag k) _ p (ktag_is_tag k) (points_from p _ Hk)) as (Er & _).
  assert (Hax : address x) by (eapply copied_address; [exact HG|]; rewrite <- (Z.add_0_r x); apply Hun; lia).
  destruct (gc_forward _ _ _ _ p k x HG Hk Hφ Hun Hm Hind Hpend) as [E HG1].
  assert (Hsub : φ ⊆ <[p := x]> φ) by (by apply insert_subseteq).
  assert (Hsent : sent (<[p := x]> φ) (word (ktag k) p) (word (ktag k) x)).
  { right. exists p, k, x. by rewrite lookup_insert_eq. }
  assert (HG2 : gc (<[p := x]> φ) ((word (ktag k) p, dest) :: pending p x k ++ work) (set_mem (<[p + 1 := word FWD x]> (mem st)) st) lo).
  { eapply gc_equiv; [|exact HG1]. intros y. rewrite !elem_of_app, !elem_of_cons, elem_of_app. tauto. }
  assert (Hr2 : rooted (<[p := x]> φ) ((word (ktag k) p, dest) :: pending p x k ++ work) v0 root).
  { eapply rooted_mono; [exact Hsub| |exact Hroot]. intros w. rewrite !elem_of_cons, elem_of_app.
    enough ((w, None) ∉ pending p x k) by tauto. destruct k; cbn [pending]; rewrite ?elem_of_cons, elem_of_nil; [by intros [[=]|[[=]|[]]]|tauto]. }
  destruct (store_step _ _ _ _ _ _ _ _ _ HG2 Hsent Hr2) as (root' & st2 & E2 & HG3 & Hr3).
  exists root', st2. split; [|done]. unfold set_forwarding_pointer. rewrite (stack_ptr_word FWD x Hax FORWARDING_TAG eq_refl).
  rewrite (run_bind _ _ _ _ _ (eq_trans (run_bind _ _ _ _ _ Er) E)). by rewrite (run_bind _ _ _ _ _ E2).
Qed.

(** One copy of an indirect atom *)
Lemma copy_indirect φ dest work st lo p sz root v0 fuel :
  gc φ ((word IND p, dest) :: work) st lo -> rooted φ ((word IND p, dest) :: work) v0 root -> H !! p = Some (KInd sz) -> φ !! p = None -> balanced φ lo ->
  (forall φ' work' st' lo' root', φ ⊆ φ' -> gc φ' work' st' lo' -> balanced φ' lo' -> rooted φ' work' v0 root' ->
     Z.of_nat (length work') + space_left lo' < Z.of_nat (length ((word IND p, dest) :: work)) + space_left lo ->
     loop_ends φ' v0 (preserve_loop (cur_space st0) fuel work' root' st')) ->
  loop_ends φ v0 ((n ← read (p + 1); alloc ← indirect_alloc_in_previous_frame n; n ← read (p + 1);
    _ ← copy_nonoverlapping p alloc (Z.to_nat (wrapping_add64 n 2)); _ ← set_forwarding_pointer (cur_space st0) (word IND p) alloc;
    root ← store dest (from_stack_ptr alloc INDIRECT_TAG) root; preserve_loop (cur_space st0) fuel work root) st).
Proof.
  intros HG Hroot Hk Hφ Hbal IH. pose proof (size_bound p sz Hk) as Hsz.
  destruct (from_between p _ 1 Hk) as [_ Hin]; [cbn; lia|]. assert (Hr1 : readable st0 (p + 1) = true) by (unfold readable; by rewrite Hin).
  rewrite (run_bind _ _ _ _ _ (gc_read _ _ _ _ HG _ Hr1)), (gc_from _ _ _ _ HG p _ 1 Hk ltac:(cbn; lia)), Hφ, (heap_size HH p sz Hk).
  assert (Ew : wrapping_add64 sz 2 = sz + 2) by (unfold wrapping_add64; rewrite wrap64_small; unfold is_u64, U64; lia).
  unfold indirect_alloc_in_previous_frame. rewrite Ew. assert (Hwc : word_count (sz + 2)) by (unfold word_count; lia).
  destruct (alloc_prev_cases _ _ _ _ _ _ HG Hbal Hk Hφ Hwc) as [(x & st1 & E1)|[Hs Hr']]; [|right; split; [|done]; by apply stops_bind].
  destruct (gc_alloc_prev _ _ _ _ _ _ _ HG Hwc ltac:(lia) E1) as (HG1 & Hun & _). set (lo1 := prev_end st lo (sz + 2)) in *.
  rewrite (run_bind _ _ _ _ _ E1), (run_bind _ _ _ _ _ (gc_read _ _ _ _ HG1 _ Hr1)), (gc_from _ _ _ _ HG1 p _ 1 Hk ltac:(cbn; lia)), Hφ, (heap_size HH p sz Hk), Ew.
  destruct (copy_unused φ ((word IND p, dest) :: work) lo1 p (KInd sz) x (Z.to_nat (sz + 2)) Hk Hφ 0 st1) as (st2 & E2 & HG2 & Hw2 & _); [done|cbn; lia|exact Hun|exact HG1|].
  rewrite !Z.add_0_r in E2. rewrite (run_bind _ _ _ _ _ E2). rewrite Z2Nat.id in Hw2 by lia.
  assert (Hax : address x) by (eapply copied_address; [exact HG2|]; rewrite <- (Z.add_0_r x); apply Hun; lia).
  rewrite (stack_ptr_word IND x Hax INDIRECT_TAG eq_refl).
  destruct (forward_store φ dest work st2 lo1 p (KInd sz) x root v0 (preserve_loop (cur_space st0) fuel work) HG2 Hroot Hk Hφ Hun)
    as (root' & st3 & E3 & Hsub & HG3 & Hr3).
  { rewrite <- (Z.add_0_r x), <- (Z.add_0_r p). apply Hw2. lia. }
  { intros n i [= <-] Hi. apply Hw2. lia. }
  { intros v d Hv. by apply elem_of_nil in Hv. }
  cbn [ktag] in E3. rewrite E3. apply (loop_ends_mono _ _ _ _ Hsub). eapply IH; [done|exact HG3| |exact Hr3|].
  { unfold balanced in *. rewrite (todo_copied φ p _ x Hk Hφ) in Hbal. unfold lo1. rewrite (space_left_alloc _ _ _ _ _ HG). cbn [kwords] in Hbal. lia. }
  unfold lo1. rewrite (space_left_alloc _ _ _ _ _ HG). cbn [length pending app]. lia.
Qed.

(** One copy of a cell *)
Lemma copy_cell φ dest work st lo p n root v0 fuel :
  gc φ ((word CEL p, dest) :: work) st lo -> rooted φ ((word CEL p, dest) :: work) v0 root -> H !! p = Some KCell -> φ !! p = None ->
  held (word CEL p) n -> balanced φ lo ->
  (forall φ' work' st' lo' root', φ ⊆ φ' -> gc φ' work' st' lo' -> balanced φ' lo' -> rooted φ' work' v0 root' ->
     Z.of_nat (length work') + space_left lo' < Z.of_nat (length ((word CEL p, dest) :: work)) + space_left lo ->
     loop_ends φ' v0 (preserve_loop (cur_space st0) fuel work' root' st')) ->
  loop_ends φ v0 ((alloc ← struct_alloc_in_previous_frame 3 1; metadata ← read p; _ ← write alloc metadata;
    tail ← read (p + 2); head ← read (p + 1); _ ← set_forwarding_pointer (cur_space st0) (word CEL p) alloc;
    root ← store dest (from_stack_ptr alloc CELL_TAG) root;
    preserve_loop (cur_space st0) fuel ((head, Some (alloc + 1)) :: (tail, Some (alloc + 2)) :: work) root) st).
Proof.
  intros HG Hroot Hk Hφ Hheld Hbal IH. destruct (held_cell_inv p n Hk Hheld) as (m & m' & _ & Hm & Hm').
  assert (Hr : forall φ' work' st' lo' i, gc φ' work' st' lo' -> φ' !! p = None -> 0 <= i < 3 -> read (p + i) st' = Ok (word_at st0 (p + i), st')).
  { intros φ' work' st' lo' i HG' Hφ' Hi. destruct (from_between p _ i Hk) as [_ Hin]; [done|].
    rewrite (gc_read _ _ _ _ HG') by (unfold readable; by rewrite Hin). by rewrite (gc_from _ _ _ _ HG' p _ i Hk Hi), Hφ'. }
  change (struct_alloc_in_previous_frame 3 1) with (raw_alloc_in_previous_frame 3).
  assert (Hwc : word_count 3) by (unfold word_count; lia).
  destruct (alloc_prev_cases _ _ _ _ _ _ HG Hbal Hk Hφ Hwc) as [(x & st1 & E1)|[Hs Hr']]; [|right; split; [|done]; by apply stops_bind].
  destruct (gc_alloc_prev _ _ _ _ _ _ _ HG Hwc ltac:(lia) E1) as (HG1 & Hun & _). set (lo1 := prev_end st lo 3) in *.
  rewrite (run_bind _ _ _ _ _ E1). pose proof (Hr _ _ _ _ 0 HG1 Hφ ltac:(lia)) as Er. rewrite Z.add_0_r in Er. rewrite (run_bind _ _ _ _ _ Er).
  destruct (gc_unused_write _ _ _ _ (x + 0) (word_at st0 p) HG1 (Hun 0 ltac:(lia))) as [E2 HG2]. rewrite Z.add_0_r in E2, HG2.
  rewrite (run_bind _ _ _ _ _ E2), (run_bind _ _ _ _ _ (Hr _ _ _ _ 2 HG2 Hφ ltac:(lia))), (run_bind _ _ _ _ _ (Hr _ _ _ _ 1 HG2 Hφ ltac:(lia))).
  assert (Hax : address x) by (eapply copied_address; [exact HG2|]; rewrite <- (Z.add_0_r x); apply Hun; lia).
  rewrite (stack_ptr_word CEL x Hax CELL_TAG eq_refl).
  destruct (forward_store φ dest work _ lo1 p KCell x root v0 (preserve_loop (cur_space st0) fuel (pending p x KCell ++ work)) HG2 Hroot Hk Hφ Hun)
    as (root' & st3 & E3 & Hsub & HG3 & Hr3).
  { by rewrite word_at_write, decide_True. }
  { done. }
  { intros v d Hv. cbn [pending] in Hv. rewrite !elem_of_cons, elem_of_nil in Hv. destruct Hv as [[= -> _]|[[= -> _]|[]]]; eauto. }
  cbn [ktag pending app] in E3. rewrite E3. apply (loop_ends_mono _ _ _ _ Hsub). eapply IH; [done|exact HG3| |exact Hr3|].
  { unfold balanced in *. rewrite (todo_copied φ p _ x Hk Hφ) in Hbal. unfold lo1. rewrite (space_left_alloc _ _ _ _ _ HG). cbn [kwords] in Hbal. lia. }
  unfold lo1. rewrite (space_left_alloc _ _ _ _ _ HG). cbn [length pending app]. lia.
Qed.

Theorem preserve_loop_ends fuel : forall φ work st lo root v0,
  gc φ work st lo -> balanced φ lo -> rooted φ work v0 root -> Z.of_nat (length work) + space_left lo < Z.of_nat fuel ->
  loop_ends φ v0 (preserve_loop (cur_space st0) fuel work root st).
Proof.
  induction fuel as [|fuel IH]; intros φ work st lo root v0 HG Hbal Hroot Hf.
  { pose proof (space_left_nonneg _ _ _ _ HG). lia. }
  cbn [preserve_loop]. destruct work as [|[v dest] work].
  { left. exists φ, root, st, lo. split_and!; try done. destruct Hroot as [_ [Hin|?]]; [by apply elem_of_nil in Hin|done]. }
  assert (Hstore : forall v', sent φ v v' -> loop_ends φ v0 ((root ← store dest v' root; preserve_loop (cur_space st0) fuel work root) st)).
  { intros v' Hs. destruct (store_step _ _ _ _ _ _ _ _ _ HG Hs Hroot) as (root' & st' & E & HG' & Hr'). rewrite (run_bind _ _ _ _ _ E).
    eapply IH; [exact HG'|done|done|cbn [length] in Hf; lia]. }
  assert (Hrec : forall φ' work' st' lo' root', φ ⊆ φ' -> gc φ' work' st' lo' -> balanced φ' lo' -> rooted φ' work' v0 root' ->
    Z.of_nat (length work') + space_left lo' < Z.of_nat (length ((v, dest) :: work)) + space_left lo ->
    loop_ends φ' v0 (preserve_loop (cur_space st0) fuel work' root' st')).
  { intros φ' work' st' lo' root' _ HG' Hb' Hr' Hlt. apply (IH _ _ _ _ _ _ HG' Hb' Hr'). lia. }
  destruct (gc_held _ _ _ _ HG v dest) as (n & Hn); [by left|].
  destruct (held_cases v n Hn) as [Hrep|(p & k & Hk & ->)].
  { assert (Hs : sent φ v v) by (left; eauto). destruct (see_senior _ _ _ _ HG v n Hrep) as [->|(-> & p & E1 & E2 & E3)]; [by apply Hstore|].
    rewrite (run_bind _ _ _ _ _ E1), (run_bind _ _ _ _ _ E2), (run_bind _ _ _ _ _ E3). by apply Hstore. }
  destruct (φ !! p) as [q|] eqn:Hφ.
  { destruct (see_copied _ _ _ _ HG p k q Hk Hφ) as [-> E]. rewrite (run_bind _ _ _ _ _ E). apply Hstore. right. by exists p, k, q. }
  destruct (see_fresh _ _ _ _ HG p k n Hk Hφ Hn) as (-> & -> & E1 & E2 & E3).
  rewrite (run_bind _ _ _ _ _ E1), (run_bind _ _ _ _ _ E2), (run_bind _ _ _ _ _ E3). destruct k as [|sz].
  - by apply (copy_cell φ dest work st lo p n).
  - by apply (copy_indirect φ dest work st lo p sz).
Qed.

(** * The copy denotes the same noun *)

(** Outside the words that [frame_pop] gives up *)
Definition kept (lo p : Z) : Prop := ~ between lo hi (p - start st0).
Lemma gc_order φ work st lo : gc φ work st lo -> if is_west st0 then lo0 <= lo <= hi else hi <= lo <= lo0.
Proof.
  intros HG. pose proof (within_advanced _ _ _ _ _ (gc_within _ _ _ _ HG)) as Hadv. pose proof (within_place _ _ _ _ _ (gc_within _ _ _ _ HG)) as Hp.
  unfold advanced, placed, copied_out, RESERVED in *. destruct (is_west st0), (pc st); lia.
Qed.
Lemma sent_rep φ st lo v n v' : gc φ [] st lo -> held v n -> sent φ v v' -> rep (kept lo) st v' n.
Proof.
  intros HG Hh. revert v'. pose proof (gc_order _ _ _ _ HG) as Hord.
  assert (Hsen : forall v n, rep senior st0 v n -> rep (kept lo) st v n).
  { intros w m. apply rep_ext; [apply HG|]. intros p Hp. split; [by apply (gc_senior _ _ _ _ HG)|].
    unfold kept, senior, between in *. destruct (is_west st0); lia. }
  assert (Hkept : forall p, copied lo p -> readable st p = true /\ kept lo p).
  { intros p Hp. destruct (copied_place _ _ _ _ HG p Hp) as (_ & Hin & _). rewrite (readable_same st0 st) by apply HG. split; [unfold readable; by rewrite Hin|].
    unfold kept, copied, between in *. destruct (is_west st0); lia. }
  assert (Hobj : forall p k q, H !! p = Some k -> φ !! p = Some q -> points st (ktag k) (word (ktag k) q) q /\ spans (kept lo) st q (kwords k)).
  { intros p k q Hk Hq. destruct (gc_object _ _ _ _ HG p q Hq) as (k' & Hk' & Hc). rewrite Hk in Hk'. injection Hk' as <-.
    pose proof (heap_positive HH _ _ Hk). split; [split; [|by left]|intros i Hi; by apply Hkept, Hc].
    rewrite <- (Z.add_0_r q). apply Hkept, Hc. lia. }
  induction Hh as [v n Hrep|p ws Hk Hws|p m n Hk Hm IHm Hn IHn]; intros v' Hs.
  - destruct Hs as [[_ ->]|(p & k & q & Hk & -> & _)]; [by apply Hsen|by apply not_senior in Hrep].
  - destruct Hs as [[[n Hn] ->]|(p' & k & q & Hk' & Ew & Hq & ->)]; [by destruct (not_senior p _ n Hk Hn)|].
    apply word_inj in Ew as [_ <-]; [|by eapply from_address..]. rewrite Hk in Hk'. injection Hk' as <-.
    destruct (Hobj p _ q Hk Hq) as [Hp Hsp]. apply rep_indirect with q; [done|done| |].
    + rewrite (gc_indirect _ _ _ _ HG p q _ 1 Hq Hk) by lia. by apply (heap_size HH).
    + intros i x Hi. pose proof (lookup_lt_Some _ _ _ Hi). rewrite <- Z.add_assoc, (gc_indirect _ _ _ _ HG p q _ (2 + Z.of_nat i) Hq Hk) by lia.
      rewrite Z.add_assoc. by apply Hws.
  - destruct Hs as [[[n' Hn'] ->]|(p' & k & q & Hk' & Ew & Hq & ->)]; [by destruct (not_senior p _ n' Hk Hn')|].
    apply word_inj in Ew as [_ <-]; [|by eapply from_address..]. rewrite Hk in Hk'. injection Hk' as <-.
    destruct (Hobj p _ q Hk Hq) as [Hp Hsp]. apply rep_cell with q; [done|done| |].
    + apply IHm. destruct (gc_cell _ _ _ _ HG p q 1 Hq Hk) as [Hin|?]; [by left|by apply elem_of_nil in Hin|done].
    + apply IHn. destruct (gc_cell _ _ _ _ HG p q 2 Hq Hk) as [Hin|?]; [by right|by apply elem_of_nil in Hin|done].
Qed.

(** A noun of the frame has one copy *)
Lemma sent_unique φ v v1 v2 : sent φ v v1 -> sent φ v v2 -> v1 = v2.
Proof.
  intros [[[n Hn] ->]|(p & k & q & Hk & -> & Hq & ->)] [[[m Hm] ->]|(p' & k' & q' & Hk' & E & Hq' & ->)]; [done|subst v; by apply not_senior in Hn|by apply not_senior in Hm|].
  apply word_inj in E as [Et <-]; [congruence|by eapply from_address..].
Qed.
Lemma gc_start_state : gc ∅ [] st0 lo0.
Proof.
  split; try (intros; by rewrite ?lookup_empty in *); try (intros ? ? Hin; by apply elem_of_nil in Hin); try done.
  - by eapply within_refl.
  - by rewrite Hpc0.
Qed.

(** [noun_preserve] skips the loop when it would do nothing *)
Lemma noun_preserve_ends φ st lo v n fuel :
  gc φ [] st lo -> balanced φ lo -> held v n -> space_left lo + 1 < Z.of_nat fuel -> loop_ends φ v (noun_preserve fuel v st).
Proof.
  intros HG Hbal Hn Hf. unfold noun_preserve. rewrite (run_bind noun_space _ st (cur_space st0) st).
  2: { unfold noun_space. rewrite (run_bind get _ st st st) by done. rewrite <- (cur_space_same st0 st) by apply HG. done. }
  assert (Hret : forall v', sent φ v v' -> loop_ends φ v (Ok (v', st))).
  { intros v' Hs. left. by exists φ, v', st, lo. }
  destruct (held_cases v n Hn) as [Hrep|(p & k & Hk & ->)].
  { assert (Hs : sent φ v v) by (left; eauto). destruct (see_senior _ _ _ _ HG v n Hrep) as [->|(-> & p & E1 & E2 & E3)]; [by apply Hret|].
    rewrite (run_bind _ _ _ _ _ E1), (run_bind _ _ _ _ _ E2), (run_bind _ _ _ _ _ E3). by apply Hret. }
  destruct (φ !! p) as [q|] eqn:Hφ.
  { destruct (see_copied _ _ _ _ HG p k q Hk Hφ) as [-> E]. rewrite (run_bind _ _ _ _ _ E). apply Hret. right. by exists p, k, q. }
  destruct (see_fresh _ _ _ _ HG p k n Hk Hφ Hn) as (-> & _ & E1 & E2 & E3).
  rewrite (run_bind _ _ _ _ _ E1), (run_bind _ _ _ _ _ E2), (run_bind _ _ _ _ _ E3). cbn [negb].
  apply (preserve_loop_ends fuel φ _ st lo); [|done| |cbn; lia].
  - destruct HG as [Hwi Hs Ha Hsk Hfr Ho Hm Hi Hc Hap Hwk Hh]. split; try done.
    + intros p' q j Hp' Hk' Hj. destruct (Hc p' q j Hp' Hk' Hj) as [Hin|?]; [by apply elem_of_nil in Hin|by right].
    + intros w d Hin. apply elem_of_cons in Hin as [[=]|Hin]. by apply elem_of_nil in Hin.
    + intros w d Hin. apply elem_of_cons in Hin as [[= -> _]|Hin]; [eauto|by apply elem_of_nil in Hin].
  - split; [|by left; left]. intros w Hin. apply elem_of_cons in Hin as [[= ->]|Hin]; [done|by apply elem_of_nil in Hin].
Qed.

(** Several nouns, one after the other *)
Lemma preserve_all_ends fuel vs : forall φ st lo ns,
  gc φ [] st lo -> balanced φ lo -> Forall2 held vs ns -> space_left lo0 + 1 < Z.of_nat fuel ->
  (exists φ' vs' st' lo', mapM (noun_preserve fuel) vs st = Ok (vs', st') /\ φ ⊆ φ' /\ gc φ' [] st' lo' /\ balanced φ' lo' /\
     Forall2 (sent φ') vs vs') \/ (stops (mapM (noun_preserve fuel) vs st) /\ ~ room).
Proof.
  induction vs as [|v vs IH]; intros φ st lo ns HG Hbal Hns Hf; inversion Hns as [|v' n vs' ns' Hn Hns']; subst; cbn [mapM].
  { left. by exists φ, [], st, lo. }
  assert (Hlo : space_left lo <= space_left lo0).
  { pose proof (gc_order _ _ _ _ HG). unfold space_left. destruct (is_west st0); lia. }
  destruct (noun_preserve_ends φ st lo v n fuel HG Hbal Hn ltac:(lia)) as [(φ1 & v1 & st1 & lo1 & E1 & Hsub1 & HG1 & Hb1 & Hs1)|[Hs Hr]];
    [|right; split; [by apply stops_bind|done]].
  rewrite (run_bind _ _ _ _ _ E1).
  destruct (IH φ1 st1 lo1 ns' HG1 Hb1 Hns' Hf) as [(φ2 & vs2 & st2 & lo2 & E2 & Hsub2 & HG2 & Hb2 & Hs2)|[Hs Hr]];
    [|right; split; [by apply stops_bind|done]].
  rewrite (run_bind _ _ _ _ _ E2). left. exists φ2, (v1 :: vs2), st2, lo2. split; [done|]. split; [by etransitivity|]. split_and!; try done.
  constructor; [by eapply sent_mono|done].
Qed.
End collector.

(** The words outside the gap between the stack and the allocations of the frame *)
Definition live (st : NockStack) (p : Z) : Prop := ~ between (alloc_offset st) (stack_offset st) (p - start st).

(** C35: Copying out of a frame is correct.  Let every noun of a list be held by the
    current frame: its objects lie in the allocations of the frame, without overlap, or
    in memory the frame does not own.  Then preserving the nouns one after the other
    and popping the frame succeeds, unless the objects of the frame do not fit in the
    gap beside the saved pointers, and in that case the code panics or reports the
    allocation error.  The words that result denote the same nouns in the popped stack
    and reach nothing in its free space; words that were equal are equal, so sharing is
    kept; each object takes its words at most once; and nothing the frame did not own has
    changed. *)
Theorem preserve_survives st0 lo0 hi f s rest H vs ns fuel :
  Inv st0 lo0 hi ((f, s) :: rest) -> pc st0 = false -> heap st0 hi H -> Forall2 (held st0 lo0 hi H) vs ns ->
  size st0 + 1 < Z.of_nat fuel ->
  (exists vs' st1 st2, mapM (noun_preserve fuel) vs st0 = Ok (vs', st1) /\ frame_pop st1 = Ok (tt, st2) /\
     (exists lo' hi', Inv st2 lo' hi' rest) /\ frame_offset st2 = f /\ stack_offset st2 = s /\
     Forall2 (rep (live st2) st2) vs' ns /\ (forall i j v, vs !! i = Some v -> vs !! j = Some v -> vs' !! i = vs' !! j) /\
     Z.abs (alloc_offset st2 - lo0) <= todo H ∅ /\ same_outside lo0 hi st0 st2) \/
  (stops (mapM (noun_preserve fuel) vs st0) /\ ~ room st0 lo0 H).
Proof.
  intros HI Hpc HH Hns Hf. assert (Hsp : space_left st0 lo0 <= size st0).
  { pose proof (lo_range _ _ _ _ HI). pose proof (offsets_range _ _ _ _ HI). unfold space_left. destruct (is_west st0); lia. }
  destruct (preserve_all_ends st0 lo0 hi _ HI Hpc H HH fuel vs ∅ st0 lo0 ns) as [(φ & vs' & st1 & lo1 & E & _ & HG & Hbal & Hs)|?];
    [by eapply gc_start_state|done|done|lia| |by right].
  pose proof (gc_inv _ _ _ _ HI Hpc _ _ _ _ _ HG) as HI1. destruct (frame_pop_spec _ _ _ _ HI1 f s rest eq_refl) as (Ep & _ & HI2).
  left. exists vs', st1, (set_offsets f s lo1 false st1). split; [done|]. split; [exact Ep|]. split; [done|]. split_and!; try done.
  - assert (Ehi : hi = s) by (pose proof (inv_linked _ _ _ _ HI) as Hl; cbn [linked] in Hl; tauto).
    assert (Hone : forall v n v', held st0 lo0 hi H v n -> sent st0 lo0 hi H φ v v' -> rep (live (set_offsets f s lo1 false st1)) (set_offsets f s lo1 false st1) v' n).
    { intros v n v' Hv Hv'. pose proof (sent_rep _ _ _ _ HI Hpc _ HH _ _ _ _ _ _ HG Hv Hv') as Hrep. revert Hrep. apply rep_ext; [done|].
      intros p Hp. split; [done|]. unfold live, kept in *. cbn. rewrite (gc_start _ _ _ _ _ _ _ _ HG). by rewrite <- Ehi. }
    clear E HI1 Ep HI2. revert vs' Hs. induction Hns as [|v n vs ns Hv Hns IH]; intros vs' Hs; inversion Hs; subst; [done|]. constructor; [by eapply Hone|by apply IH].
  - intros i j v Hi Hj. destruct (Forall2_lookup_l _ _ _ _ _ Hs Hi) as (x & Ex & Sx). destruct (Forall2_lookup_l _ _ _ _ _ Hs Hj) as (y & Ey & Sy).
    rewrite Ex, Ey. f_equal. by eapply (sent_unique st0 lo0 hi).
  - cbn. pose proof (gc_order _ _ _ _ _ _ _ _ HG). pose proof (todo_nonneg _ _ _ HH φ). unfold balanced, space_left in Hbal. destruct (is_west st0); lia.
  - apply (within_outside _ _ _ _ _ (gc_within _ _ _ _ _ _ _ _ HG)).
Qed.

(** A frame with the cell [[1 2] = x], a two-word atom [y] and the cell [[x x]]; the
    nouns to keep are [[x x]], [x] and [y] *)
Definition held_code : M (Z * Z * Z) :=
  x ← Cell_new 1 2;
  y ← new_raw_mut 2;
  _ ← write y.2 5; _ ← write (y.2 + 1) 7;
  z ← Cell_new x x;
  mret (x, y.1, z).
Definition held_state : NockStack := Eval vm_compute in after (held_code example_frame) blank_stack.
Definition held_words : list Z := Eval vm_compute in match held_code example_frame with Ok ((x, y, z), _) => [z; x; y] | _ => [] end.
Definition held_heap : gmap Z kind := {[ 519 := KCell; 522 := KInd 2; 526 := KCell ]}.
Lemma held_heap_lookup p k : held_heap !! p = Some k -> p = 519 /\ k = KCell \/ p = 522 /\ k = KInd 2 \/ p = 526 /\ k = KCell.
Proof.
  unfold held_heap. rewrite !lookup_insert_Some, lookup_singleton_Some. intros [[<- <-]|[_ [[<- <-]|[_ [<- <-]]]]]; tauto.
Qed.
Lemma held_stack : Inv held_state 64 7 [(5, 7)] /\ pc held_state = false.
Proof.
  split; [|done]. split; [split; vm_compute; congruence || done|vm_compute; repeat split; congruence|].
  split; [done|]. split; [done|]. split; [done|]. split; [done|]. exists 0, 64. split; [vm_compute; repeat split; congruence|vm_compute; repeat split; congruence].
Qed.
Lemma held_heap_ok : heap held_state 7 held_heap.
Proof.
  split.
  - intros p k i Hk Hi. destruct (held_heap_lookup p k Hk) as [[-> ->]|[[-> ->]|[-> ->]]]; cbn in Hi; unfold inside; cbn -[Z.add Z.sub]; lia.
  - intros p k Hk. destruct (held_heap_lookup p k Hk) as [[-> ->]|[[-> ->]|[-> ->]]]; cbn; lia.
  - intros p n Hk. destruct (held_heap_lookup p _ Hk) as [[-> [=]]|[[-> [= ->]]|[-> [=]]]]. done.
  - intros p k p' k' i i' Hk Hk' Hi Hi'.
    destruct (held_heap_lookup p k Hk) as [[-> ->]|[[-> ->]|[-> ->]]], (held_heap_lookup p' k' Hk') as [[-> ->]|[[-> ->]|[-> ->]]]; cbn in Hi, Hi'; lia.
Qed.
Definition held_nouns : list noun :=
  let x := NCell (D 1) (D 2) in [NCell x x; x; NAtom (Indirect [5; 7])].
Lemma held_ok : Forall2 (held held_state 64 7 held_heap) held_words held_nouns.
Proof.
  assert (Hd : forall d, 0 <= d <= 2 -> held held_state 64 7 held_heap d (D d)).
  { intros d Hd. apply held_senior, rep_direct. rewrite DIRECT_MAX_val. lia. }
  assert (Hx : held held_state 64 7 held_heap (word CEL 519) (NCell (D 1) (D 2))).
  { apply held_cell; [done|apply (Hd 1); lia|apply (Hd 2); lia]. }
  constructor; [|constructor; [exact Hx|constructor; [|constructor]]].
  - apply (held_cell held_state 64 7 held_heap 526); [done|exact Hx|exact Hx].
  - apply (held_indirect held_state 64 7 held_heap 522 [5; 7]); [done|]. intros [|[|i]] x [= <-]; done.
Qed.
Lemma preserve_survives_witness :
  exists vs' st1 st2, mapM (noun_preserve 66) held_words held_state = Ok (vs', st1) /\ frame_pop st1 = Ok (tt, st2) /\
    Forall2 (rep (live st2) st2) vs' held_nouns /\ Z.abs (alloc_offset st2 - 64) <= 10.
Proof.
  destruct held_stack as [HI Hpc].
  destruct (preserve_survives held_state 64 7 5 7 [] held_heap held_words held_nouns 66 HI Hpc held_heap_ok held_ok)
    as [(vs' & st1 & st2 & E1 & E2 & _ & _ & _ & Hr & _ & Ha & _)|[_ Hroom]]; [reflexivity|exists vs', st1, st2; split_and!; [exact E1|exact E2|exact Hr|exact Ha]|].
  destruct Hroom. split; vm_compute; congruence.
Defined.
