(* ===== verification/Unify.v ===== *)
(** Equality of nouns in memory that merges equal objects on the way
    ([nockvm/src/unifying_equality.rs]).  The two nouns are variables of the caller, at
    addresses outside the arenas; the places compared are words of memory, so the
    routine rewrites fields of cells while it compares. *)
From stdpp Require Import base option list numbers gmap.
From Stdlib Require Import ZArith Lia.
From S2P Require Import Prelude NockStack Preserve.

Definition is_allocated (raw : Z) : bool := is_indirect_atom raw || is_cell raw.
(** [repr(..).location()] of an allocated noun *)
Definition allocated_location (raw : Z) : M AllocLocation :=
  space ← noun_space;
  match location raw with
  | PtrOffset => mret LocPmaOffset
  | PtrStack => classify_ptr space (wrap64 (Z.shiftl (payload raw (kind_mask raw)) 3))
  end.
Definition is_pma (l : AllocLocation) : bool := match l with LocStack => false | _ => true end.
Definition cached_mug (raw : Z) : M (option Z) :=
  space ← noun_space;
  ptr ← to_raw_pointer space raw; metadata ← read ptr;
  let bottom_metadata := Z.land (wrap32 metadata) 2147483647 in
  mret (if 0 <? bottom_metadata then Some bottom_metadata else None).
(** Both mugs are cached and differ *)
Definition mugs_differ (x y : Z) : M bool :=
  xm ← cached_mug x; ym ← cached_mug y;
  mret (match xm, ym with Some xm, Some ym => negb (xm =? ym) | _, _ => false end).

(** * Seniority *)

(** The end of an arena stands for a null pointer *)
Definition normalize_bounds (st : NockStack) (low high : Z) : Z * Z :=
  let low := if low =? 0 then bytes (start st) else low in
  let high := if high =? 0 then bytes (start st + size st) else high in
  if high <? low then (high, low) else (low, high).
Definition ptr_in_range (ptr : Z) (range : Z * Z) : bool := (range.1 <=? ptr) && (ptr <? range.2).
Definition current_frame_bounds : M (Z * Z) :=
  st ← get;
  let alloc_ptr := bytes (derive_ptr st (alloc_offset st)) in
  prev_stack_ptr ← read (prev_stack_pointer_pointer st);
  mret (if is_west st then normalize_bounds st alloc_ptr prev_stack_ptr else normalize_bounds st prev_stack_ptr alloc_ptr).
Definition lower_pointer_first (a b : Z) : Z * Z := if a <? b then (a, b) else (b, a).
(** A round for each frame *)
Fixpoint senior_loop (fuel : nat) (a b frame_pointer stack_pointer alloc_pointer : Z) (range : Z * Z) : M (Z * Z) :=
  match fuel with
  | O => panic
  | S fuel =>
      match ptr_in_range a range, ptr_in_range b range with
      | true, false => mret (b, a)
      | false, true => mret (a, b)
      | true, true => mret (lower_pointer_first a b)
      | false, false =>
          st ← get;
          let fp := frame_pointer / 8 in
          if stack_pointer <? alloc_pointer then
            new_stack ← read (fp - (STACK + 1)); new_alloc ← read (fp - (ALLOC + 1)); new_frame ← read (fp - (FRAME + 1));
            if new_frame =? 0 then mret (lower_pointer_first a b)
            else low ← read (new_frame / 8 + STACK);
                 senior_loop fuel a b new_frame new_stack new_alloc (normalize_bounds st low new_alloc)
          else if alloc_pointer <? stack_pointer then
            new_stack ← read (fp + STACK); new_alloc ← read (fp + ALLOC); new_frame ← read (fp + FRAME);
            if new_frame =? 0 then mret (lower_pointer_first a b)
            else high ← read (new_frame / 8 - (STACK + 1));
                 senior_loop fuel a b new_frame new_stack new_alloc (normalize_bounds st new_alloc high)
          else panic
      end
  end.
Definition senior_pointer_first (fuel : nat) (a b : Z) : M (Z * Z) :=
  st ← get;
  let alloc_pointer := bytes (derive_ptr st (alloc_offset st)) in
  prev_stack_pointer ← read (prev_stack_pointer_pointer st);
  senior_loop fuel a b (bytes (derive_ptr st (frame_offset st))) (bytes (derive_ptr st (stack_offset st))) alloc_pointer
    (if is_west st then normalize_bounds st prev_stack_pointer alloc_pointer else normalize_bounds st alloc_pointer prev_stack_pointer).
(** The three cases return before the table of frame bounds is consulted *)
Definition x_is_junior (fuel : nat) (current : Z * Z) (x y : Z) : M bool :=
  let xin := ptr_in_range x current in let yin := ptr_in_range y current in
  if xorb xin yin then mret xin
  else if xin && yin then mret (y <? x)
  else '(_, junior) ← senior_pointer_first fuel x y; mret (x =? junior).

(** * Places *)

(** The variables of the caller *)
Record vars := { var_a : Z; var_b : Z }.

Section unify.
(** Addresses of the variables; number of frames *)
Context (a b : Z) (frames : nat).

Definition load (vs : vars) (x : Z) : M Z :=
  if x =? a then mret (var_a vs) else if x =? b then mret (var_b vs) else read x.
(** A write to either arena *)
Definition poke (p v : Z) : M unit :=
  st ← get; if readable st p then modify (set_mem (<[p := v]> (mem st))) else throw (Wild p).
Definition assign (vs : vars) (x v : Z) : M vars :=
  if x =? a then mret {| var_a := v; var_b := var_b vs |}
  else if x =? b then mret {| var_a := var_a vs; var_b := v |}
  else _ ← poke x v; mret vs.

Definition push_pair (x y : Z) : M unit :=
  p ← push 2; _ ← write p (bytes x); write (p + 1) (bytes y).

(** [replace_x], and the assignment *)
Definition merge (current : Z * Z) (vs : vars) (x y wx wy xptr yptr : Z) : M vars :=
  x_loc ← allocated_location wx;
  y_loc ← allocated_location wy;
  replace_x ← (if is_pma x_loc && negb (is_pma y_loc) then mret false
               else if negb (is_pma x_loc) && is_pma y_loc then mret true
               else if is_pma x_loc && is_pma y_loc then mret (yptr <? xptr)
               else x_is_junior frames current (bytes xptr) (bytes yptr));
  if (replace_x : bool) then assign vs x wy else assign vs y wx.

(** [memcmp] *)
Fixpoint same_words (p q : Z) (n : nat) : M bool :=
  match n with
  | O => mret true
  | S n => x ← read p; y ← read q; if x =? y then same_words (p + 1) (q + 1) n else mret false
  end.

(** The words of a pair of places; the boolean is whether the loop goes on *)
Definition unify_pair (current : Z * Z) (vs : vars) (x y wx wy : Z) : M (vars * bool) :=
  if wx =? wy then _ ← pop 2; mret (vs, true)
  else if is_allocated wx && is_allocated wy then
    differ ← mugs_differ wx wy;
    if (differ : bool) then mret (vs, false)
    else
      space ← noun_space;
      xptr ← to_raw_pointer space wx; yptr ← to_raw_pointer space wy;
      match is_indirect_atom wx, is_indirect_atom wy with
      | true, true =>
          xsize ← read (xptr + 1); ysize ← read (yptr + 1);
          data_equal ← (if xsize =? ysize then same_words (xptr + 2) (yptr + 2) (Z.to_nat (wrap64 (Z.shiftl xsize 3) / 8))
                        else mret false);
          if (data_equal : bool) then vs ← merge current vs x y wx wy xptr yptr; _ ← pop 2; mret (vs, true)
          else mret (vs, false)
      | false, false =>
          xh ← read (xptr + 1); yh ← read (yptr + 1);
          xt ← read (xptr + 2); yt ← read (yptr + 2);
          if xh =? yh then
            if xt =? yt then vs ← merge current vs x y wx wy xptr yptr; _ ← pop 2; mret (vs, true)
            else _ ← push_pair (xptr + 2) (yptr + 2); mret (vs, true)
          else
            _ ← (if xt =? yt then mret tt else push_pair (xptr + 2) (yptr + 2));
            _ ← push_pair (xptr + 1) (yptr + 1); mret (vs, true)
      | _, _ => mret (vs, false)
      end
  else mret (vs, false).
(** One round: the pair on top of the lightweight stack *)
Definition unify_round (current : Z * Z) (vs : vars) : M (vars * bool) :=
  entry ← top 2;
  xb ← read entry; yb ← read (entry + 1);
  let x := xb / 8 in let y := yb / 8 in
  wx ← load vs x; wy ← load vs y;
  unify_pair current vs x y wx wy.

Fixpoint unify_loop (current : Z * Z) (fuel : nat) (vs : vars) : M vars :=
  match fuel with
  | O => panic
  | S fuel =>
      st ← get;
      if stack_is_empty st then mret vs
      else '(vs, go) ← unify_round current vs; if (go : bool) then unify_loop current fuel vs else mret vs
  end.

Definition unifying_equality (fuel : nat) (vs : vars) : M (bool * vars) :=
  if var_a vs =? var_b vs then mret (true, vs)
  else
    differ ← (if is_allocated (var_a vs) && is_allocated (var_b vs) then mugs_differ (var_a vs) (var_b vs) else mret false);
    if (differ : bool) then mret (false, vs)
    else
      _ ← frame_push 0;
      current ← current_frame_bounds;
      _ ← push_pair a b;
      vs ← unify_loop current fuel vs;
      _ ← frame_pop;
      mret (var_a vs =? var_b vs, vs).
End unify.
