(* ===== verification/FrameAreas.v ===== *)
(** Where the frames of a stack keep their saved pointers and their allocations, and
    the seniority of an address. *)
From stdpp Require Import base option list numbers gmap.
From Stdlib Require Import ZArith Lia.
From S2P Require Import Prelude NockStack NockStackTheorems NockStackFrames Preserve Unify.

(** * Saved pointers and allocations of the senior frames *)

Definition three (west : bool) (b : Z) : list Z := [slot_at west b 0; slot_at west b 1; slot_at west b 2].
(** The slots of the frames below a frame of the given orientation *)
Fixpoint chain_slots (west : bool) (rest : list (Z * Z)) : list Z :=
  match rest with [] => [] | (f, _) :: rest => three (negb west) f ++ chain_slots (negb west) rest end.
(** Where the allocations of a frame end *)
Definition edge (st : NockStack) (west : bool) (rest : list (Z * Z)) : Z :=
  match rest with [] => if west then size st else 0 | (_, s) :: _ => s end.
(** The allocations of the frames below the frame at [b], the junior ones first *)
Fixpoint areas (st : NockStack) (west : bool) (b : Z) (rest : list (Z * Z)) : list (Z * Z) :=
  match rest with
  | [] => []
  | (f, _) :: rest =>
      let lo := offset_of st (saved st west b ALLOC) in let hi := edge st (negb west) rest in
      (Z.min lo hi, Z.max lo hi) :: areas st (negb west) f rest
  end.
Definition in_area (o : Z) (r : Z * Z) : bool := (r.1 <=? o) && (o <? r.2).
(** The level of an offset: the higher, the more junior its frame; 0 outside *)
Fixpoint level (rs : list (Z * Z)) (o : Z) : nat :=
  match rs with [] => O | r :: rs => if in_area o r then S (length rs) else level rs o end.
Definition owned (rs : list (Z * Z)) (o : Z) : Prop := exists r, r ∈ rs /\ in_area o r = true.

Lemma three_slots (west : bool) b o : o ∈ three west b <-> exists slot, 0 <= slot < 3 /\ o = slot_at west b slot.
Proof.
  unfold three. rewrite !elem_of_cons, elem_of_nil. split.
  - intros [->|[->|[->|[]]]]; [exists 0|exists 1|exists 2]; (split; [lia|done]).
  - intros (slot & Hs & ->). assert (slot = 0 \/ slot = 1 \/ slot = 2) as [->|[->| ->]] by lia; tauto.
Qed.
Lemma linked_edge st west b lo hi rest : linked st west b lo hi rest -> hi = edge st west rest.
Proof. destruct rest as [|[f s] rest]; cbn [linked edge]; tauto. Qed.
Lemma linked_lo st west b lo hi rest : linked st west b lo hi rest -> saved st west b ALLOC = ptr st lo.
Proof. destruct rest as [|[f s] rest]; cbn [linked]; tauto. Qed.

Section chain.
Context (st : NockStack) (Hok : arena_ok st).

(** The first area of a chain *)
Lemma linked_area west b lo f s rest lo' hi' :
  saved st west b ALLOC = ptr st lo -> 0 <= lo <= size st ->
  placed (negb west) f s lo lo' hi' -> linked st (negb west) f lo' hi' rest ->
  areas st west b ((f, s) :: rest) = (Z.min lo hi', Z.max lo hi') :: areas st (negb west) f rest.
Proof. intros Ea Hlo Hp Hl. cbn [areas]. by rewrite Ea, (offset_of_ptr _ Hok), <- (linked_edge _ _ _ _ _ _ Hl) by done. Qed.

(** Slots and allocations of senior frames lie outside the space of a frame, and do
    not overlap *)
Lemma chain_apart west b lo hi rest :
  linked st west b lo hi rest ->
  (forall o, o ∈ chain_slots west rest -> 0 <= o < size st /\ ~ between lo hi o) /\
  (forall o, owned (areas st west b rest) o -> ~ between lo hi o /\ o ∉ chain_slots west rest).
Proof.
  revert west b lo hi. induction rest as [|[f s] rest IH]; intros west b lo hi Hl.
  { split; [by intros o ?%elem_of_nil|]. intros o (r & Hr & _). by apply elem_of_nil in Hr. }
  pose proof (linked_bounds _ _ _ _ _ _ Hl) as Hb0. destruct Hl as (Ea & _ & _ & -> & lo' & hi' & Hp & Hl).
  destruct (IH _ _ _ _ Hl) as [IH1 IH2]. pose proof (linked_bounds _ _ _ _ _ _ Hl) as Hb.
  assert (Hlo : 0 <= lo <= size st) by (unfold placed, RESERVED in Hp; destruct west; cbn [negb] in *; lia).
  rewrite (linked_area west b lo f s rest lo' hi' Ea Hlo Hp Hl). cbn [chain_slots].
  assert (Hown : forall o, in_area o (Z.min lo hi', Z.max lo hi') = true -> between lo' hi' o /\ ~ between lo s o /\ o ∉ three (negb west) f).
  { intros o Ho. unfold in_area in Ho. cbn in Ho. rewrite three_slots. unfold placed, between, RESERVED, slot_at in *.
    destruct west; cbn [negb] in *; (split; [lia|]); (split; [lia|]); intros (slot & Hslot & ->); lia. }
  assert (Hthree : forall o, o ∈ three (negb west) f -> 0 <= o < size st /\ between lo' hi' o /\ ~ between lo s o).
  { intros o (slot & Hslot & ->)%three_slots. unfold placed, between, RESERVED, slot_at in *. destruct west; cbn [negb] in *; lia. }
  assert (Hmono : forall o, ~ between lo' hi' o -> ~ between lo s o).
  { intros o. unfold placed, between, RESERVED in *. destruct west; cbn [negb] in *; lia. }
  split.
  - intros o [Ho|Ho]%elem_of_app; [by destruct (Hthree o Ho) as (? & _ & ?)|]. destruct (IH1 o Ho). auto.
  - intros o (r & Hr & Ho). apply elem_of_cons in Hr as [->|Hr].
    + destruct (Hown o Ho) as (H1 & H2 & H3). split; [done|]. intros [?|Hin]%elem_of_app; [done|]. by destruct (IH1 o Hin).
    + destruct (IH2 o) as [H1 H2]; [by exists r|]. split; [auto|]. intros [Hin|?]%elem_of_app; [|done]. by destruct (Hthree o Hin) as (_ & ? & _).
Qed.
End chain.

(** The chain depends only on the words of its slots *)
Lemma linked_slots st st' west b lo hi rest :
  same_arena st st' -> (forall o, o ∈ three west b ++ chain_slots west rest -> word_at st' (start st + o) = word_at st (start st + o)) ->
  linked st west b lo hi rest -> linked st' west b lo hi rest /\ areas st' west b rest = areas st west b rest.
Proof.
  intros (Es & Ez & Ep). revert west b lo hi. induction rest as [|[f s] rest IH]; intros west b lo hi Hw Hl.
  all: assert (Hs : forall slot, 0 <= slot < 3 -> saved st' west b slot = saved st west b slot)
    by (intros slot Hslot; unfold saved; rewrite Es; apply Hw, elem_of_app; left; apply three_slots; eauto).
  - split; [|done]. cbn [linked] in *. unfold ptr in *. rewrite Es, Ez, !Hs by (unfold FRAME, STACK, ALLOC; lia). done.
  - cbn [linked areas] in *. destruct Hl as (Ha & Hf & Hk & -> & lo' & hi' & Hp & Hl).
    destruct (IH (negb west) f lo' hi') as [IH1 IH2]; [|done|].
    { intros o Ho. apply Hw, elem_of_app. right. cbn [chain_slots]. done. }
    rewrite !Hs by (unfold FRAME, STACK, ALLOC; lia). unfold ptr, offset_of, edge in *. rewrite IH2, Es, Ez. split; [|done].
    split_and!; try done. by exists lo', hi'.
Qed.

(** * Seniority *)

Lemma level_le rs o : (level rs o <= length rs)%nat.
Proof. induction rs as [|r rs IH]; cbn; [done|]. destruct (in_area o r); lia. Qed.

Section senior.
Context (st : NockStack) (Hok : arena_ok st).

Lemma range_area p r : ptr_in_range (8 * p) (ptr st r.1, ptr st r.2) = in_area (p - start st) r.
Proof. unfold ptr_in_range, in_area, ptr. cbn. destruct (Z.leb_spec r.1 (p - start st)), (Z.ltb_spec (p - start st) r.2); lia. Qed.
Lemma normalize_spec l h : 0 <= l <= size st -> 0 <= h <= size st ->
  normalize_bounds st (ptr st l) (ptr st h) = (ptr st (Z.min l h), ptr st (Z.max l h)) /\
  normalize_bounds st 0 (ptr st h) = (ptr st (Z.min 0 h), ptr st (Z.max 0 h)) /\
  normalize_bounds st (ptr st l) 0 = (ptr st (Z.min l (size st)), ptr st (Z.max l (size st))).
Proof.
  intros Hl Hh. destruct Hok as [? ? ? _]. unfold normalize_bounds. rewrite (bytes_offset st Hok (size st)), bytes_start by (done || lia).
  rewrite !(proj2 (Z.eqb_neq (ptr st l) 0)), !(proj2 (Z.eqb_neq (ptr st h) 0)) by (by apply ptr_nonzero).
  unfold ptr. cbn [Z.eqb].
  split_and!; match goal with |- (if ?c then _ else _) = _ => destruct c eqn:E end; f_equal; lia.
Qed.
(** The bounds of the next senior frame *)
Lemma next_bounds west f lo' hi' alloc rest :
  linked st west f lo' hi' rest -> 0 <= alloc <= size st ->
  let stack := saved st west f STACK in
  (if west then normalize_bounds st (ptr st alloc) stack else normalize_bounds st stack (ptr st alloc)) =
  (ptr st (Z.min alloc (edge st west rest)), ptr st (Z.max alloc (edge st west rest))).
Proof.
  intros Hl Ha stack. unfold stack. destruct Hok as [? ? ? _].
  destruct rest as [|[f' s'] rest]; cbn [linked edge] in *.
  - destruct Hl as (_ & _ & -> & _). destruct (normalize_spec alloc alloc Ha Ha) as (_ & H1 & H2).
    destruct west; [done|]. by rewrite H1, Z.min_comm, Z.max_comm.
  - destruct Hl as (_ & _ & -> & -> & lo2 & hi2 & Hp & Hl). pose proof (linked_bounds _ _ _ _ _ _ Hl) as Hb.
    assert (Hs : 0 <= s' <= size st) by (unfold placed, RESERVED in Hp; destruct west; cbn [negb] in *; lia).
    destruct (normalize_spec alloc s' Ha Hs) as (H1 & _). destruct (normalize_spec s' alloc Hs Ha) as (H2 & _).
    destruct west; [done|]. by rewrite H2, Z.min_comm, Z.max_comm.
Qed.

Definition orders (rs : list (Z * Z)) (x y : Z) (r : Z * Z) : Prop :=
  exists s j, r = (8 * s, 8 * j) /\ (s = x /\ j = y \/ s = y /\ j = x) /\ (level rs (s - start st) <= level rs (j - start st))%nat.
Lemma lower_orders rs x y : level rs (x - start st) = level rs (y - start st) -> orders rs x y (lower_pointer_first (8 * x) (8 * y)).
Proof. intros E. unfold lower_pointer_first. destruct (8 * x <? 8 * y); [exists x, y|exists y, x]; (split; [done|]); (split; [tauto|lia]). Qed.

Lemma senior_loop_spec fuel : forall rest west b lo hi sp ap r x y,
  linked st west b lo hi rest -> (forall slot, 0 <= slot < 3 -> 0 <= slot_at west b slot < size st) ->
  (if west then sp < ap else ap < sp) -> (length rest < fuel)%nat ->
  exists out, senior_loop fuel (8 * x) (8 * y) (ptr st b) sp ap (ptr st r.1, ptr st r.2) st = Ok (out, st) /\
    orders (r :: areas st west b rest) x y out.
Proof.
  induction fuel as [|fuel IH]; intros rest west b lo hi sp ap r x y Hl Hsl Hsp Hf; [lia|].
  cbn [senior_loop]. rewrite !range_area. pose proof (level_le (areas st west b rest)) as Hle.
  destruct (in_area (x - start st) r) eqn:Ex, (in_area (y - start st) r) eqn:Ey.
  { eexists. split; [done|]. apply lower_orders. cbn. by rewrite Ex, Ey. }
  { eexists. split; [done|]. exists y, x. split; [done|]. split; [tauto|]. cbn. rewrite Ex, Ey. specialize (Hle (y - start st)). lia. }
  { eexists. split; [done|]. exists x, y. split; [done|]. split; [tauto|]. cbn. rewrite Ex, Ey. specialize (Hle (x - start st)). lia. }
  rewrite (run_bind get _ st st st) by done.
  assert (Efp : ptr st b / 8 = start st + b) by (unfold ptr; rewrite Z.mul_comm; apply Z.div_mul; lia). rewrite Efp.
  assert (Hrd : forall slot, 0 <= slot < 3 -> read (start st + slot_at west b slot) st = Ok (saved st west b slot, st)).
  { intros slot Hslot. by apply read_offset, Hsl. }
  assert (Haddr : forall (w : bool) c slot, (if w then start st + c - (slot + 1) else start st + c + slot) = start st + slot_at w c slot)
    by (intros w c slot; unfold slot_at; destruct w; lia).
  pose proof (Haddr west b) as Hw. pose proof (Haddr (negb west)) as Hw'.
  pose proof (Hrd STACK ltac:(unfold STACK; lia)) as R1. pose proof (Hrd ALLOC ltac:(unfold ALLOC; lia)) as R2. pose proof (Hrd FRAME ltac:(unfold FRAME; lia)) as R3.
  assert (Hfin : forall out, orders (areas st west b rest) x y out -> orders (r :: areas st west b rest) x y out).
  { intros out (s & j & -> & Hsj & Hlv). exists s, j. split; [done|]. split; [done|]. cbn. destruct Hsj as [[-> ->]|[-> ->]]; by rewrite Ex, Ey. }
  destruct rest as [|[f s] rest].
  - assert (Ef : saved st west b FRAME = 0) by (cbn [linked] in Hl; tauto).
    exists (lower_pointer_first (8 * x) (8 * y)). split; [|by apply Hfin, lower_orders].
    destruct west; [rewrite (proj2 (Z.ltb_lt sp ap)) by lia|rewrite (proj2 (Z.ltb_ge sp ap)), (proj2 (Z.ltb_lt ap sp)) by lia].
    all: cbv beta iota in Hw; rewrite !Hw, (run_bind _ _ _ _ _ R1), (run_bind _ _ _ _ _ R2), (run_bind _ _ _ _ _ R3), Ef; done.
  - pose proof (linked_bounds _ _ _ _ _ _ Hl) as Hb0. destruct Hl as (Ea & Ef & Es & -> & lo' & hi' & Hp & Hl).
    pose proof (linked_bounds _ _ _ _ _ _ Hl) as Hb.
    assert (Hlo : 0 <= lo <= size st /\ 0 <= f <= size st) by (unfold placed, RESERVED in Hp; destruct west; cbn [negb] in *; lia).
    assert (Hsl' : forall slot, 0 <= slot < 3 -> 0 <= slot_at (negb west) f slot < size st)
      by (intros slot Hslot; unfold placed, RESERVED, slot_at in *; destruct west; cbn [negb] in *; lia).
    assert (Eff : ptr st f / 8 = start st + f) by (unfold ptr; rewrite Z.mul_comm; apply Z.div_mul; lia).
    assert (Hrf : read (start st + slot_at (negb west) f STACK) st = Ok (saved st (negb west) f STACK, st)) by (apply read_offset, Hsl'; unfold STACK; lia).
    assert (Hnz : (ptr st f =? 0) = false) by (apply Z.eqb_neq, ptr_nonzero; [done|tauto]).
    pose proof (next_bounds (negb west) f lo' hi' lo rest Hl ltac:(tauto)) as Hnb. cbn zeta in Hnb.
    rewrite (linked_area st Hok west b lo f s rest lo' hi' Ea ltac:(tauto) Hp Hl) in Hfin |- *. rewrite (linked_edge _ _ _ _ _ _ Hl) in Hfin |- *.
    destruct (IH rest (negb west) f lo' hi' (ptr st s) (ptr st lo) (Z.min lo (edge st (negb west) rest), Z.max lo (edge st (negb west) rest)) x y Hl Hsl')
      as (out & Eo & Ho); [unfold placed, RESERVED, ptr in *; destruct west; cbn [negb] in *; lia|cbn in Hf; lia|].
    exists out. split; [|by apply Hfin].
    destruct west; cbn [negb] in *; [rewrite (proj2 (Z.ltb_lt sp ap)) by lia|rewrite (proj2 (Z.ltb_ge sp ap)), (proj2 (Z.ltb_lt ap sp)) by lia].
    all: cbv beta iota in Hw, Hw'; rewrite !Hw, (run_bind _ _ _ _ _ R1), (run_bind _ _ _ _ _ R2), (run_bind _ _ _ _ _ R3), Ef, Hnz, Eff, Hw', (run_bind _ _ _ _ _ Hrf), Ea, Es, Hnb; exact Eo.
Qed.

(** The comparison of two pointers in a frame that has allocated nothing *)
Lemma x_is_junior_spec lo hi rest x y fuel :
  Inv st lo hi rest -> pc st = false -> alloc_offset st = hi -> stack_offset st <> alloc_offset st -> (length rest < fuel)%nat -> x <> y -> rest <> [] ->
  let A := areas st (is_west st) (frame_offset st) rest in
  let current := (ptr st hi, ptr st hi) in
  exists j, current_frame_bounds st = Ok (current, st) /\ x_is_junior fuel current (8 * x) (8 * y) st = Ok (j, st) /\
    if (j : bool) then (level A (y - start st) <= level A (x - start st))%nat else (level A (x - start st) <= level A (y - start st))%nat.
Proof.
  intros HI Hpc Ha Hne Hf Hxy Hrest A current. pose proof (inv_linked _ _ _ _ HI) as Hl. unfold frame_base in Hl. rewrite Hpc in Hl.
  pose proof (offsets_range _ _ _ _ HI) as (Hs & Hao & Hfo). specialize (Hfo Hpc). pose proof (linked_edge _ _ _ _ _ _ Hl) as Eh.
  pose proof (next_bounds _ _ _ _ (alloc_offset st) _ Hl Hao) as Hnb. cbn zeta in Hnb. rewrite <- Eh, Ha, Z.min_id, Z.max_id in Hnb.
  pose proof (read_prev _ _ _ _ HI STACK ltac:(unfold STACK; lia)) as Rs. unfold frame_base in Rs. rewrite Hpc in Rs.
  unfold current_frame_bounds. rewrite (run_bind get _ st st st) by done. unfold prev_stack_pointer_pointer. rewrite (run_bind _ _ _ _ _ Rs).
  unfold derive_ptr. rewrite bytes_offset by done. rewrite Ha, Hnb. unfold current.
  assert (Hemp : forall p, in_area (p - start st) (hi, hi) = false) by (intros p; unfold in_area; cbn; lia).
  unfold x_is_junior. rewrite !(range_area _ (hi, hi)), !Hemp. cbn [xorb andb].
  assert (Hst : exists out, senior_pointer_first fuel (8 * x) (8 * y) st = Ok (out, st) /\ orders ((hi, hi) :: A) x y out).
  { unfold senior_pointer_first. rewrite (run_bind get _ st st st) by done. unfold prev_stack_pointer_pointer. rewrite (run_bind _ _ _ _ _ Rs).
    unfold derive_ptr. rewrite !bytes_offset by done. rewrite Ha in *.
    assert (Hnb' : (if is_west st then normalize_bounds st (saved st (is_west st) (frame_offset st) STACK) (ptr st hi)
       else normalize_bounds st (ptr st hi) (saved st (is_west st) (frame_offset st) STACK)) = (ptr st hi, ptr st hi)).
    { assert (Hsw : rest <> [] -> saved st (is_west st) (frame_offset st) STACK = ptr st hi).
      { destruct rest as [|[f s] rest]; [done|]. cbn [linked] in Hl. intros _. destruct Hl as (_ & _ & -> & -> & _). done. }
      rewrite (Hsw Hrest). destruct (normalize_spec hi hi Hao Hao) as (E & _). rewrite Z.min_id, Z.max_id in E. by destruct (is_west st). }
    rewrite Hnb'. apply (senior_loop_spec fuel rest (is_west st) (frame_offset st) lo hi _ _ (hi, hi) x y); [done| | |done].
    - intros slot Hslot. pose proof (slot_range _ _ _ _ HI slot Hslot) as Hr. unfold frame_base in Hr. by rewrite Hpc in Hr.
    - pose proof (west_cmp st) as Hw. rewrite Ha in Hw. unfold ptr. destruct (is_west st); lia. }
  destruct Hst as (out & E & s & j & -> & Hsj & Hlv). exists (x =? j). split; [done|]. split.
  - rewrite (run_bind _ _ _ _ _ E). cbn. unfold mret, M_ret. do 2 f_equal. destruct (Z.eqb_spec x j), (Z.eqb_spec (8 * x) (8 * j)); done || lia.
  - cbn in Hlv. rewrite !Hemp in Hlv. destruct Hsj as [[-> ->]|[-> ->]]; [by rewrite (proj2 (Z.eqb_neq x y))|by rewrite Z.eqb_refl].
Qed.
End senior.
