(* ===== verification/UnifyTheorems.v ===== *)
(** [unifying_equality] decides the equality of nouns, and the words it rewrites denote
    what they denoted before. *)
From stdpp Require Import base option list numbers gmap.
From Stdlib Require Import ZArith Lia.
From S2P Require Import Prelude Noun NockStack NockStackTheorems NockStackFrames Preserve PreserveTheorems Unify FrameAreas.

(** * Typed memory *)

Fixpoint nodes (n : noun) : nat := match n with NAtom _ => 1 | NCell m n => S (nodes m + nodes n) end.

(** The word denotes a noun, through objects of [H] *)
Inductive den (H : gmap Z kind) (st : NockStack) : Z -> noun -> Prop :=
  | den_direct d : 0 <= d <= DIRECT_MAX -> den H st d (D d)
  | den_indirect w p ws :
      points st IND w p -> H !! p = Some (KInd (Z.of_nat (length ws))) ->
      (forall i x, ws !! i = Some x -> word_at st (p + 2 + Z.of_nat i) = x) -> den H st w (NAtom (Indirect ws))
  | den_cell w p m n :
      points st CEL w p -> H !! p = Some KCell -> den H st (word_at st (p + 1)) m -> den H st (word_at st (p + 2)) n ->
      den H st w (NCell m n).

(** What the code sees as a cached mug *)
Definition mug_word (metadata : Z) : Z := Z.land (wrap32 metadata) 2147483647.

Section typed.
(** The objects, the seniority of their addresses, and what mugs are mugs of *)
Context (H : gmap Z kind) (rank : Z -> nat) (mug_of : noun -> Z).

(** A field refers to no object that is junior to its cell *)
Definition ranked (st : NockStack) (v : Z) (r : nat) : Prop := forall t q, is_tag t -> points st t v q -> (rank q <= r)%nat.
Definition disjoint_objects : Prop := forall p k p' k' i i',
  H !! p = Some k -> H !! p' = Some k' -> 0 <= i < kwords k -> 0 <= i' < kwords k' -> p + i = p' + i' -> p = p'.
Record objects (st : NockStack) : Prop := {
  obj_words p k i : H !! p = Some k -> 0 <= i < kwords k -> readable st (p + i) = true;
  obj_positive p k : H !! p = Some k -> 2 <= kwords k;
  obj_size p n : H !! p = Some (KInd n) -> word_at st (p + 1) = n;
  obj_apart : disjoint_objects;
  obj_rank p j : H !! p = Some KCell -> j = 1 \/ j = 2 -> ranked st (word_at st (p + j)) (rank p);
  obj_mug w t p n : is_tag t -> points st t w p -> den H st w n -> mug_word (word_at st p) <> 0 -> mug_word (word_at st p) = mug_of n }.

Section words.
Context (st : NockStack) (Hok : arena_ok st).

Lemma points_unique t t' w p p' : is_tag t -> is_tag t' -> points st t w p -> points st t' w p' -> t = t' /\ p = p'.
Proof.
  intros Ht Ht' Hp Hp'. destruct (pointer_resolves st Hok t w p Ht Hp) as (E & _ & Ei & _), (pointer_resolves st Hok t' w p' Ht' Hp') as (E' & _ & Ei' & _).
  split; [|congruence]. rewrite Ei in Ei'. destruct Ht as [-> | ->], Ht' as [-> | ->]; done.
Qed.
Lemma points_not_direct t w p : is_tag t -> points st t w p -> ~ (0 <= w <= DIRECT_MAX).
Proof. intros Ht Hp Hd. destruct (pointer_resolves st Hok t w p Ht Hp) as (_ & E & _). by rewrite direct_small in E. Qed.

(** A word denotes at most one noun *)
Lemma den_unique w n m : den H st w n -> den H st w m -> n = m.
Proof.
  intros Hn. revert m. induction Hn as [d Hd|w p ws Hp Hk Hws|w p n1 n2 Hp Hk Hn1 IH1 Hn2 IH2]; intros m Hm.
  - inversion Hm as [|? q ? Hq|? q ? ? Hq]; subst; [done|by apply points_not_direct in Hq; [|left]|by apply points_not_direct in Hq; [|right]].
  - inversion Hm as [? Hd|? q ws' Hq Hk' Hws'|? q ? ? Hq]; subst.
    + by apply points_not_direct in Hp; [|left].
    + destruct (points_unique _ _ _ _ _ (or_introl eq_refl) (or_introl eq_refl) Hp Hq) as [_ <-]. rewrite Hk in Hk'. injection Hk' as E.
      do 2 f_equal. apply list_eq_same_length with (length ws); [lia|lia|]. intros i x y _ Hx Hy. by rewrite <- (Hws i x Hx), <- (Hws' i y Hy).
    + by destruct (points_unique _ _ _ _ _ (or_introl eq_refl) (or_intror eq_refl) Hp Hq).
  - inversion Hm as [? Hd|? q ? Hq|? q m1 m2 Hq _ Hm1 Hm2]; subst.
    + by apply points_not_direct in Hp; [|right].
    + by destruct (points_unique _ _ _ _ _ (or_introl eq_refl) (or_intror eq_refl) Hq Hp).
    + destruct (points_unique _ _ _ _ _ (or_intror eq_refl) (or_intror eq_refl) Hp Hq) as [_ <-]. f_equal; auto.
Qed.
(** An allocated word, as the code takes it apart *)
Lemma den_cases w n : objects st -> den H st w n ->
  (is_allocated w = false /\ exists d, n = D d /\ w = d) \/
  (exists p ws, is_allocated w = true /\ is_indirect_atom w = true /\ points st IND w p /\ n = NAtom (Indirect ws) /\ H !! p = Some (KInd (Z.of_nat (length ws))) /\
     forall i x, ws !! i = Some x -> word_at st (p + 2 + Z.of_nat i) = x) \/
  (exists p n1 n2, is_allocated w = true /\ is_indirect_atom w = false /\ points st CEL w p /\ n = NCell n1 n2 /\ H !! p = Some KCell /\
     den H st (word_at st (p + 1)) n1 /\ den H st (word_at st (p + 2)) n2).
Proof.
  intros Hobj Hn. destruct Hn as [d Hd|w p ws Hp Hk Hws|w p n1 n2 Hp Hk Hn1 Hn2].
  - left. split; [|eauto]. pose proof (direct_small d Hd) as E. destruct (word_split d) as (q & Hq & Ed). revert E. rewrite Ed. unfold is_allocated.
    rewrite direct_tag, indirect_tag by done. unfold is_cell. change CELL_MASK with (word 14 0). change CELL_TAG with (word CEL 0). rewrite word_land by done.
    change DIRECT_MAX with (2 ^ 63 - 1) in Hd. assert (0 <= d / 2 ^ 60 < 8) by (split; [apply Z.div_pos; lia|apply Z.div_lt_upper_bound; lia]).
    assert (Ht : d / 2 ^ 60 = 0 \/ d / 2 ^ 60 = 1 \/ d / 2 ^ 60 = 2 \/ d / 2 ^ 60 = 3 \/ d / 2 ^ 60 = 4 \/ d / 2 ^ 60 = 5 \/ d / 2 ^ 60 = 6 \/ d / 2 ^ 60 = 7) by lia.
    repeat destruct Ht as [-> | Ht]; try done. by rewrite Ht.
  - right; left. destruct (pointer_resolves st Hok IND w p (or_introl eq_refl) Hp) as (_ & _ & Ei & _). exists p, ws. unfold is_allocated. by rewrite Ei.
  - right; right. destruct (pointer_resolves st Hok CEL w p (or_intror eq_refl) Hp) as (_ & _ & Ei & _). exists p, n1, n2. split; [|by rewrite Ei].
    unfold is_allocated. rewrite Ei. cbn [orb Z.eqb]. pose proof (readable_address st Hok p (proj1 Hp)) as [Ha _].
    destruct (proj2 Hp) as [->|(a & o & Ea & Ho & H32 & -> & _)]; unfold is_cell; change CELL_MASK with (word 14 0); change CELL_TAG with (word CEL 0);
      rewrite word_land by (done || unfold address; lia); done.
Qed.
End words.

(** ** Rewriting a field *)

Section rewriting.
Context (st st' : NockStack) (Hok : arena_ok st) (Hap : disjoint_objects) (q j v : Z) (c : noun).
Context (Hq : H !! q = Some KCell) (Hj : j = 1 \/ j = 2) (Hs : same_space st st').
Context (Hold : den H st (word_at st (q + j)) c) (Hnew : den H st v c).
Context (Hmem : forall p k i, H !! p = Some k -> 0 <= i < kwords k -> word_at st' (p + i) = if decide (p + i = q + j) then v else word_at st (p + i)).

Lemma points_same t w p : points st t w p <-> points st' t w p.
Proof. unfold points. destruct Hs as [(E1 & E2 & E3) _]. rewrite (readable_same st st') by done. by rewrite E3. Qed.
Lemma field_place p k i : H !! p = Some k -> 0 <= i < kwords k -> p + i = q + j -> p = q /\ i = j /\ k = KCell.
Proof.
  intros Hk Hi E. assert (p = q) as -> by (eapply (Hap p k q KCell i j); try done; cbn; lia).
  rewrite Hq in Hk. injection Hk as <-. split; [done|]. split; [lia|done].
Qed.
Lemma den_rewrite n : forall w, den H st w n -> den H st' w n.
Proof.
  induction n as [a|m1 IH1 m2 IH2]; intros w Hw; inversion Hw as [d Hd|? p ws Hp Hk Hws|? p ? ? Hp Hk Hm1 Hm2]; subst.
  - by constructor.
  - apply den_indirect with p; [by apply points_same|done|]. intros i x Hi. pose proof (lookup_lt_Some _ _ _ Hi) as Hlt. rewrite <- Z.add_assoc.
    rewrite (Hmem p _ (2 + Z.of_nat i) Hk) by (cbn; lia). rewrite decide_False; [rewrite Z.add_assoc; by apply Hws|].
    intros E. by destruct (field_place p _ (2 + Z.of_nat i) Hk ltac:(cbn; lia) E) as (_ & _ & ?).
  - assert (Hf : forall i m, i = 1 \/ i = 2 -> den H st (word_at st (p + i)) m -> (forall w, den H st w m -> den H st' w m) -> den H st' (word_at st' (p + i)) m).
    { intros i m Hi Hm IH. rewrite (Hmem p _ i Hk) by (cbn; lia). destruct (decide (p + i = q + j)) as [E|E]; [|by apply IH].
      apply IH. rewrite E in Hm. by rewrite (den_unique st Hok _ _ _ Hm Hold). }
    apply den_cell with p; [by apply points_same|done|..]; apply Hf; auto.
Qed.
End rewriting.

Section rewritten.
Context (st st' : NockStack) (Hok : arena_ok st) (Hobj : objects st) (q j v : Z) (c : noun).
Context (Hq : H !! q = Some KCell) (Hj : j = 1 \/ j = 2) (Hs : same_space st st').
Context (Hold : den H st (word_at st (q + j)) c) (Hnew : den H st v c).
Context (Hmem : forall p k i, H !! p = Some k -> 0 <= i < kwords k -> word_at st' (p + i) = if decide (p + i = q + j) then v else word_at st (p + i)).

Lemma den_rewrite_back w n : den H st' w n -> den H st w n.
Proof.
  pose proof (den_rewrite st st' Hok (obj_apart _ Hobj) q j v c Hq Hj Hs Hold Hnew Hmem) as Hto.
  assert (Ev : word_at st' (q + j) = v) by (rewrite (Hmem q _ j Hq) by (cbn; lia); by rewrite decide_True).
  apply (den_rewrite st' st) with q j (word_at st (q + j)) c; try done.
  - eapply arena_ok_ext; [apply Hs|done].
  - apply Hobj.
  - destruct Hs as [(E1 & E2 & E3) E4]. done.
  - rewrite Ev. by apply Hto.
  - by apply Hto.
  - intros p k i Hk Hi. destruct (decide (p + i = q + j)) as [E|E]; [by rewrite E|]. by rewrite (Hmem p k i Hk Hi), decide_False.
Qed.
Lemma objects_rewrite : ranked st v (rank q) -> objects st'.
Proof.
  intros Hr. pose proof den_rewrite_back as Hback. pose proof Hobj as [Hw Hp Hsz Hap Hrk Hmu].
  pose proof (points_same st st' Hs) as Hps. pose proof (field_place Hap q j Hq Hj) as Hfp. split.
  - intros p k i Hk Hi. rewrite (readable_same st st') by done. eauto.
  - done.
  - intros p n Hk. pose proof (Hp _ _ Hk) as H2. cbn in H2. rewrite (Hmem p _ 1 Hk) by (cbn; lia). rewrite decide_False; [by apply Hsz|].
    intros E. by destruct (Hfp p _ 1 Hk ltac:(cbn; lia) E) as (_ & _ & ?).
  - done.
  - intros p i Hk Hi t x Ht Hx. apply Hps in Hx. rewrite (Hmem p _ i Hk) in Hx by (cbn; lia).
    destruct (decide (p + i = q + j)) as [E|E]; [|by eapply (Hrk p i)]. destruct (Hfp p _ i Hk ltac:(cbn; lia) E) as (-> & _ & _). by eapply Hr.
  - intros w t p n Ht Hx Hn. apply Hps in Hx. apply Hback in Hn.
    assert (Ep : word_at st' p = word_at st p).
    { assert (exists k, H !! p = Some k) as [k Hk].
      { inversion Hn as [d Hd|? p' ws Hp' Hk'|? p' ? ? Hp' Hk']; subst; [by apply (points_not_direct st Hok t) in Hx| |].
        - destruct (points_unique st Hok _ _ _ _ _ (or_introl eq_refl) Ht Hp' Hx) as [_ <-]. eauto.
        - destruct (points_unique st Hok _ _ _ _ _ (or_intror eq_refl) Ht Hp' Hx) as [_ <-]. eauto. }
      pose proof (Hp _ _ Hk). pose proof (Hmem p k 0 Hk ltac:(lia)) as E. rewrite Z.add_0_r in E. rewrite E, decide_False; [done|].
      intros E'. destruct (Hfp p k 0 Hk ltac:(lia) ltac:(lia)) as (_ & ? & _). lia. }
    rewrite Ep. by eapply Hmu.
Qed.
End rewritten.

(** ** States with the same objects *)

(** The words of objects are the same *)
Definition same_objects (st st' : NockStack) : Prop := forall p k i, H !! p = Some k -> 0 <= i < kwords k -> word_at st' (p + i) = word_at st (p + i).
Lemma den_same st st' w n : same_space st st' -> same_objects st st' -> (forall p k, H !! p = Some k -> 2 <= kwords k) -> den H st w n -> den H st' w n.
Proof.
  intros Hs Ho Hp. induction 1 as [d Hd|w p ws Hpt Hk Hws|w p m n Hpt Hk Hm IHm Hn IHn].
  - by constructor.
  - apply den_indirect with p; [by apply (points_same st st')|done|]. intros i x Hi. pose proof (lookup_lt_Some _ _ _ Hi).
    rewrite <- Z.add_assoc, (Ho p _ (2 + Z.of_nat i) Hk), Z.add_assoc by (cbn; lia). by apply Hws.
  - apply den_cell with p; [by apply (points_same st st')|done|by rewrite (Ho p _ 1 Hk) by (cbn; lia)|by rewrite (Ho p _ 2 Hk) by (cbn; lia)].
Qed.
Lemma objects_same st st' : arena_ok st -> same_space st st' -> same_objects st st' -> objects st -> objects st'.
Proof.
  intros Hok Hs Ho [Hw Hp Hsz Hap Hrk Hmu]. pose proof (points_same st st' Hs) as Hps.
  assert (Hback : forall w n, den H st' w n -> den H st w n).
  { intros w n. apply den_same; [destruct Hs as [(? & ? & ?) ?]; done|intros p k i Hk Hi; symmetry; by eapply Ho|done]. }
  split.
  - intros p k i Hk Hi. rewrite (readable_same st st') by done. eauto.
  - done.
  - intros p n Hk. pose proof (Hp _ _ Hk) as H2. cbn in H2. rewrite (Ho p _ 1 Hk) by (cbn; lia). by apply Hsz.
  - done.
  - intros p j Hk Hj t q Ht Hq. apply Hps in Hq. rewrite (Ho p _ j Hk) in Hq by (cbn; lia). by eapply (Hrk p j).
  - intros w t p n Ht Hpt Hn. apply Hps in Hpt. apply Hback in Hn. assert (Ep : word_at st' p = word_at st p).
    { assert (exists k, H !! p = Some k) as [k Hk].
      { inversion Hn as [d Hd|? p' ws Hp' Hk'|? p' ? ? Hp' Hk']; subst; [by apply (points_not_direct st Hok t) in Hpt| |].
        - destruct (points_unique st Hok _ _ _ _ _ (or_introl eq_refl) Ht Hp' Hpt) as [_ <-]. eauto.
        - destruct (points_unique st Hok _ _ _ _ _ (or_intror eq_refl) Ht Hp' Hpt) as [_ <-]. eauto. }
      pose proof (Hp _ _ Hk). rewrite <- (Z.add_0_r p). by apply (Ho p k 0); [|lia]. }
    rewrite Ep. by eapply Hmu.
Qed.
Lemma space_run st : noun_space st = Ok (cur_space st, st).
Proof. done. Qed.
(** The cached mugs of one noun do not differ *)
Lemma mugs_spec st t t' w w' p p' n m : arena_ok st -> objects st -> is_tag t -> is_tag t' -> points st t w p -> points st t' w' p' -> den H st w n -> den H st w' m ->
  exists d, mugs_differ w w' st = Ok (d, st) /\ (d = true -> n <> m).
Proof.
  intros Hok Hob Ht Ht' Hp Hp' Hn Hm.
  assert (Hone : forall t w p n, is_tag t -> points st t w p -> den H st w n -> exists o, cached_mug w st = Ok (o, st) /\ forall x, o = Some x -> x = mug_of n).
  { intros t0 w0 p0 n0 Ht0 Hp0 Hn0. destruct (pointer_resolves st Hok t0 w0 p0 Ht0 Hp0) as (E & _). unfold cached_mug.
    rewrite (run_bind _ _ _ _ _ (space_run st)), (run_bind _ _ _ _ _ E).
    rewrite (run_bind (read p0) _ st (word_at st p0) st) by (unfold read; rewrite (run_bind get _ st st st) by done; by rewrite (proj1 Hp0)).
    eexists. split; [done|]. intros x Hx. fold (mug_word (word_at st p0)) in Hx. destruct (Z.ltb_spec 0 (mug_word (word_at st p0))) as [Hlt|]; [|done].
    injection Hx as <-. apply (obj_mug _ Hob w0 t0); [done..|lia]. }
  destruct (Hone t w p n Ht Hp Hn) as (o & E & Ho). destruct (Hone t' w' p' m Ht' Hp' Hm) as (o' & E' & Ho').
  unfold mugs_differ. rewrite (run_bind _ _ _ _ _ E), (run_bind _ _ _ _ _ E'). eexists. split; [done|].
  destruct o as [x|], o' as [x'|]; try done. intros Hd ->. rewrite (Ho x eq_refl), (Ho' x' eq_refl), Z.eqb_refl in Hd. done.
Qed.
(** The test before the frame is pushed *)
Lemma mug_test st v w n m : arena_ok st -> objects st -> den H st v n -> den H st w m ->
  exists d, (if is_allocated v && is_allocated w then mugs_differ v w else mret false) st = Ok (d, st) /\ (d = true -> n <> m).
Proof.
  intros Hok Hob Hn Hm.
  destruct (den_cases st Hok _ _ Hob Hn) as [(-> & _)|[(px & ws & Eax & _ & Hpx & _)|(px & n1 & n2 & Eax & _ & Hpx & _)]]; [by exists false|..];
    rewrite Eax; (destruct (den_cases st Hok _ _ Hob Hm) as [(-> & _)|[(py & ws' & Eay & _ & Hpy & _)|(py & m1 & m2 & Eay & _ & Hpy & _)]]; [by exists false|..]);
    rewrite Eay; cbn [andb]; eapply (mugs_spec st); try done; by (left + right).
Qed.
End typed.
