(* ===== verification/UnifyLoop.v ===== *)
(** The loop of [unifying_equality]: the work list on the lightweight stack, the words
    it rewrites, and what a round does. *)
From stdpp Require Import base option list numbers gmap.
From Stdlib Require Import ZArith Lia.
From S2P Require Import Prelude Noun NockStack NockStackTheorems NockStackFrames Preserve PreserveTheorems Unify FrameAreas UnifyTheorems.

Section unify.
(** The state after the frame is pushed *)
Context (st1 : NockStack) (lo hi : Z) (rest : list (Z * Z)) (HI1 : Inv st1 lo hi rest) (Hpc1 : pc st1 = false).
Context (Halloc : alloc_offset st1 = hi) (Hlight : stack_offset st1 = frame_offset st1) (Hrest : rest <> []).
(** The objects, and the variables of the caller *)
Context (H : gmap Z kind) (mug_of : noun -> Z) (a b : Z) (frames : nat) (Hframes : (length rest < frames)%nat).
Context (Ha : readable st1 a = false /\ address a) (Hb : readable st1 b = false /\ address b) (Hab : a <> b).

Local Notation W := (is_west st1).
Local Notation AR := (areas st1 W (frame_offset st1) rest).
Definition rank_of (p : Z) : nat := if in_stack st1 p then level AR (p - start st1) else 0%nat.
Context (Howned : forall p k i, H !! p = Some k -> 0 <= i < kwords k -> in_stack st1 (p + i) = true -> owned AR (p + i - start st1)).
Local Notation Dn := (den H).
Local Notation Obj := (objects H rank_of mug_of).
Local Notation same_objects := (same_objects H).

(** Places and their contents *)
Definition place (x : Z) : Prop := x = a \/ x = b \/ exists q j, H !! q = Some KCell /\ (j = 1 \/ j = 2) /\ x = q + j.
Definition val (st : NockStack) (vs : vars) (x : Z) : Z := if x =? a then var_a vs else if x =? b then var_b vs else word_at st x.

(** Position of an entry with [k] entries below it *)
Definition pos (k : Z) : Z := if W then frame_offset st1 + 2 * k else frame_offset st1 - 2 * (k + 1).
Fixpoint stacked (st : NockStack) (es : list (Z * Z)) : Prop :=
  match es with
  | [] => True
  | (x, y) :: es =>
      let o := pos (Z.of_nat (length es)) in
      word_at st (start st1 + o) = 8 * x /\ word_at st (start st1 + o + 1) = 8 * y /\ stacked st es
  end.
Definition gap : Z := Z.abs (alloc_offset st1 - frame_offset st1).
Definition slots : list Z := three W (frame_offset st1) ++ chain_slots W rest.

Record U (st : NockStack) (vs : vars) (es : list (Z * Z)) : Prop := {
  u_space : same_space st1 st;
  u_pc : pc st = false;
  u_frame : frame_offset st = frame_offset st1;
  u_alloc : alloc_offset st = alloc_offset st1;
  u_stack : stack_offset st = if W then frame_offset st1 + 2 * Z.of_nat (length es) else frame_offset st1 - 2 * Z.of_nat (length es);
  u_room : 2 * Z.of_nat (length es) < gap;
  u_slots o : o ∈ slots -> word_at st (start st1 + o) = word_at st1 (start st1 + o);
  u_stacked : stacked st es;
  u_places : Forall (fun e => place e.1 /\ place e.2) es;
  u_objects : Obj st;
  u_rest p : (forall q k i, H !! q = Some k -> 0 <= i < kwords k -> q + i <> p) -> ~ between lo hi (p - start st1) -> word_at st p = word_at st1 p }.

Lemma place1 : placed W (frame_offset st1) (frame_offset st1) (alloc_offset st1) lo hi.
Proof. pose proof (inv_place _ _ _ _ HI1) as Hp. by rewrite Hpc1, Hlight in Hp. Qed.
Lemma gap_west : if W then alloc_offset st1 - frame_offset st1 = gap else frame_offset st1 - alloc_offset st1 = gap.
Proof. pose proof place1 as Hp. unfold gap, placed in *. destruct W; lia. Qed.
Lemma linked1 : linked st1 W (frame_offset st1) lo hi rest.
Proof. pose proof (inv_linked _ _ _ _ HI1) as Hl. unfold frame_base in Hl. by rewrite Hpc1 in Hl. Qed.

Section state.
Context (st : NockStack) (vs : vars) (es : list (Z * Z)) (HU : U st vs es).

Lemma u_start : start st = start st1.
Proof. apply (u_space _ _ _ HU). Qed.
Lemma u_west : is_west st = W.
Proof.
  pose proof place1 as Hp. pose proof gap_west as Hg. pose proof (u_room _ _ _ HU) as Hr. unfold is_west. rewrite (u_stack _ _ _ HU), (u_alloc _ _ _ HU).
  unfold placed in Hp. destruct W; lia.
Qed.
Lemma u_inv : Inv st lo hi rest /\ areas st W (frame_offset st1) rest = AR.
Proof.
  destruct (linked_slots st1 st W (frame_offset st1) lo hi rest) as [Hl EA]; [apply (u_space _ _ _ HU)|apply (u_slots _ _ _ HU)|apply linked1|].
  split; [|done]. split.
  - eapply arena_ok_ext; [apply (u_space _ _ _ HU)|apply HI1].
  - rewrite (u_pc _ _ _ HU), u_west, (u_frame _ _ _ HU), (u_stack _ _ _ HU), (u_alloc _ _ _ HU).
    pose proof place1 as Hp. pose proof gap_west as Hg. pose proof (u_room _ _ _ HU). unfold placed in *. destruct W; lia.
  - unfold frame_base. by rewrite (u_pc _ _ _ HU), u_west, (u_frame _ _ _ HU).
Qed.
Lemma u_light : west_oriented st = W.
Proof. unfold west_oriented. rewrite u_west, (u_pc _ _ _ HU). by destruct W. Qed.
Lemma u_empty : stack_is_empty st = match es with [] => true | _ => false end.
Proof.
  unfold stack_is_empty. rewrite (u_pc _ _ _ HU), (u_stack _ _ _ HU), (u_frame _ _ _ HU). destruct es as [|e es']; cbn [negb length]; [apply Z.eqb_eq|apply Z.eqb_neq]; destruct W; lia.
Qed.

(** Words of objects are neither slots nor entries *)
Lemma object_outside p k i : H !! p = Some k -> 0 <= i < kwords k ->
  p + i - start st1 ∉ slots /\ ~ between lo hi (p + i - start st1).
Proof.
  intros Hk Hi. destruct (in_stack st1 (p + i)) eqn:E.
  - pose proof (Howned p k i Hk Hi E) as Ho. destruct (chain_apart st1 (inv_arena _ _ _ _ HI1) _ _ _ _ _ linked1) as [_ H2].
    destruct (H2 _ Ho) as [Hn Hc]. split; [|done]. intros [Hin|?]%elem_of_app; [|done]. apply Hn.
    apply three_slots in Hin as (slot & Hslot & ->). pose proof place1 as Hp. unfold placed, between, slot_at, RESERVED in *. destruct W; lia.
  - pose proof (inv_bounds _ _ _ _ HI1) as Hb1. pose proof (lo_range _ _ _ _ HI1) as Hlo. pose proof place1 as Hp. unfold in_stack in E. split.
    + intros [Hin|Hin]%elem_of_app.
      * apply three_slots in Hin as (slot & Hslot & Eo). pose proof (slot_range _ _ _ _ HI1 slot Hslot) as Hr. unfold frame_base in Hr. rewrite Hpc1 in Hr. lia.
      * destruct (chain_apart st1 (inv_arena _ _ _ _ HI1) _ _ _ _ _ linked1) as [H1 _]. destruct (H1 _ Hin) as [? _]. lia.
    + unfold between, placed, RESERVED in *. destruct W; lia.
Qed.
Lemma pos_between k : 0 <= k -> 2 * (k + 1) < gap -> between lo hi (pos k) /\ between lo hi (pos k + 1) /\ pos k ∉ slots /\ pos k + 1 ∉ slots /\ 0 <= pos k /\ pos k + 1 < size st1.
Proof.
  intros Hk Hg. pose proof gap_west as Hgw. pose proof place1 as Hp. pose proof (inv_bounds _ _ _ _ HI1) as Hb1.
  assert (Hbt : between lo hi (pos k) /\ between lo hi (pos k + 1)) by (unfold between, placed, pos, RESERVED in *; destruct W; lia).
  destruct (chain_apart st1 (inv_arena _ _ _ _ HI1) _ _ _ _ _ linked1) as [H1 _]. destruct Hbt as [B1 B2]. split; [done|]. split; [done|].
  assert (Hns : forall o, between lo hi o -> (if W then frame_offset st1 <= o else o < frame_offset st1) -> o ∉ slots).
  { intros o Ho Hside [Hin|Hin]%elem_of_app; [|by destruct (H1 o Hin)]. apply three_slots in Hin as (slot & Hslot & ->). unfold slot_at in Hside. destruct W; lia. }
  split_and!; [apply Hns; [done|]; unfold pos; destruct W; lia|apply Hns; [done|]; unfold pos; destruct W; lia|..].
  all: unfold between, placed, pos, RESERVED in *; destruct W; lia.
Qed.
Lemma place_outside x : place x -> x <> a -> x <> b -> x - start st1 ∉ slots /\ ~ between lo hi (x - start st1) /\ readable st x = true.
Proof.
  intros [?|[?|(q & j & Hq & Hj & ->)]] ? ?; [done|done|]. destruct (object_outside q _ j Hq ltac:(cbn; lia)). split_and!; [done..|].
  apply (obj_words _ _ _ st (u_objects _ _ _ HU) q _ j Hq). cbn. lia.
Qed.
Lemma field_not_var q k i : H !! q = Some k -> 0 <= i < kwords k -> q + i <> a /\ q + i <> b.
Proof.
  intros Hq Hi. pose proof (obj_words _ _ _ st (u_objects _ _ _ HU) q k i Hq Hi) as Hr. rewrite (readable_same st1 st) in Hr by apply HU.
  split; intros E; rewrite E in Hr; destruct Ha, Hb; congruence.
Qed.
Lemma val_field vs' q k i : H !! q = Some k -> 0 <= i < kwords k -> val st vs' (q + i) = word_at st (q + i).
Proof. intros Hq Hi. destruct (field_not_var q k i Hq Hi). unfold val. by rewrite !(proj2 (Z.eqb_neq _ _)). Qed.
Lemma load_val x : place x -> load a b vs x st = Ok (val st vs x, st).
Proof.
  intros Hx. unfold load, val. destruct (Z.eqb_spec x a); [done|]. destruct (Z.eqb_spec x b); [done|].
  destruct (place_outside x Hx) as (_ & _ & Hr); [done..|]. unfold read. rewrite (run_bind get _ st st st) by done. by rewrite Hr.
Qed.
Lemma place_address x : place x -> address x.
Proof.
  intros Hx. destruct Hx as [->|[->|(q & j & Hq & Hj & ->)]]; [apply Ha|apply Hb|].
  apply (readable_address st1 (inv_arena _ _ _ _ HI1)). rewrite <- (readable_same st1 st) by apply HU.
  apply (obj_words _ _ _ st (u_objects _ _ _ HU) q _ j Hq). cbn. lia.
Qed.
End state.

(** ** Changes of the state *)

Lemma stacked_ext st st' es : (forall o, between lo hi o -> word_at st' (start st1 + o) = word_at st (start st1 + o)) ->
  2 * Z.of_nat (length es) < gap -> stacked st es -> stacked st' es.
Proof.
  intros Hw. induction es as [|[x y] es IH]; [done|]. cbn [stacked length]. intros Hg (Hx & Hy & Hs).
  destruct (pos_between (Z.of_nat (length es))) as (B1 & B2 & _); [lia|lia|]. rewrite <- Z.add_assoc in *. rewrite !Hw by done. split_and!; [done..|]. apply IH; [lia|done].
Qed.
Lemma u_entry st vs x y es : U st vs ((x, y) :: es) ->
  exists e, top 2 st = Ok (e, st) /\ read e st = Ok (8 * x, st) /\ read (e + 1) st = Ok (8 * y, st) /\
  exists st', pop 2 st = Ok (tt, st') /\ U st' vs es /\ mem st' = mem st.
Proof.
  intros HU. destruct (u_inv _ _ _ HU) as [HI EA]. pose proof (u_stack _ _ _ HU) as Es. pose proof (u_room _ _ _ HU) as Hr. cbn [length] in Es, Hr.
  assert (Hent : has_entry st 2).
  { unfold has_entry. rewrite (u_pc _ _ _ HU), (u_west _ _ _ HU), Es, (u_frame _ _ _ HU). destruct W; lia. }
  destruct (pos_between (Z.of_nat (length es))) as (B1 & B2 & _ & _ & P0 & P1); [lia|lia|].
  pose proof (u_start _ _ _ HU) as Est. destruct (u_space _ _ _ HU) as [(_ & Esz & _) _]. destruct (u_stacked _ _ _ HU) as (Ex & Ey & Hst).
  exists (start st1 + pos (Z.of_nat (length es))). split_and!.
  - rewrite (top_spec _ _ _ _ HI 2) by (done || lia). rewrite (u_light _ _ _ HU), Es, Est. unfold pos. do 3 f_equal. destruct W; lia.
  - rewrite <- Est, read_offset, Est, Ex by lia. done.
  - rewrite <- Z.add_assoc, <- Est, read_offset, Est by lia. by rewrite Z.add_assoc, Ey.
  - destruct (pop_spec _ _ _ _ HI 2 ltac:(lia) Hent) as [E _]. rewrite (u_light _ _ _ HU) in E. eexists. split; [exact E|]. split; [|done].
    destruct HU as [Hsp Hpc Hf Hal Hsk Hro Hsl Hst' Hpl Hob Hrs]. split; try done.
    + cbn. rewrite Es. destruct W; lia.
    + lia.
    + apply (stacked_ext st); [done|lia|done].
    + by inversion Hpl.
    + apply (objects_same H rank_of mug_of st); [apply HI|done|by intros ? ? ? _ _|done].
Qed.

Lemma u_push st vs es x y : U st vs es -> place x -> place y -> 2 * (Z.of_nat (length es) + 1) < gap ->
  exists st', push_pair x y st = Ok (tt, st') /\ U st' vs ((x, y) :: es) /\ same_objects st st' /\ same_space st st'.
Proof.
  intros HU Hx Hy Hg. destruct (u_inv _ _ _ HU) as [HI EA]. pose proof (u_stack _ _ _ HU) as Es. pose proof gap_west as Hgw. pose proof place1 as Hp.
  destruct (pos_between (Z.of_nat (length es))) as (B1 & B2 & N1 & N2 & P0 & P1); [lia|lia|].
  assert (Hwc : word_count 2) by (unfold word_count; lia). pose proof (u_start _ _ _ HU) as Est. destruct (u_space _ _ _ HU) as [(_ & Esz & _) _].
  assert (Eb : forall z, place z -> bytes z = 8 * z).
  { intros z Hz. apply wrap64_small. pose proof (place_address _ _ _ HU z Hz). unfold is_u64, U64, address in *. lia. }
  destruct (push_spec _ _ _ _ HI 2 Hwc) as [[_ E]|[Hn _]].
  2: { exfalso. apply Hn. unfold fits, light_orientation. rewrite (u_light _ _ _ HU), (u_pc _ _ _ HU), Es, (u_alloc _ _ _ HU). unfold placed in Hp. destruct W; lia. }
  assert (Eblk : start st + stack_block st 2 = start st1 + pos (Z.of_nat (length es))).
  { unfold stack_block, pos. rewrite (u_light _ _ _ HU), Es, Est. destruct W; lia. }
  assert (Eend : stack_end st 2 = if W then frame_offset st1 + 2 * Z.of_nat (length ((x, y) :: es)) else frame_offset st1 - 2 * Z.of_nat (length ((x, y) :: es))).
  { unfold stack_end. rewrite (u_light _ _ _ HU), Es. cbn [length]. destruct W; lia. }
  set (o := pos (Z.of_nat (length es))) in *. set (st2 := set_stack_offset (stack_end st 2) st) in *.
  set (st3 := set_mem (<[start st1 + o := 8 * x]> (mem st2)) st2). set (st4 := set_mem (<[start st1 + o + 1 := 8 * y]> (mem st3)) st3).
  assert (Ew1 : write (start st1 + o) (8 * x) st2 = Ok (tt, st3)) by (pose proof (write_offset st2 o (8 * x) ltac:(cbn; lia)) as Ew; change (start st2) with (start st) in Ew; rewrite Est in Ew; exact Ew).
  assert (Ew2 : write (start st1 + o + 1) (8 * y) st3 = Ok (tt, st4)).
  { pose proof (write_offset st3 (o + 1) (8 * y) ltac:(cbn; lia)) as Ew. change (start st3) with (start st) in Ew. rewrite Est, Z.add_assoc in Ew. exact Ew. }
  exists st4. split; [unfold push_pair; rewrite (run_bind _ _ _ _ _ E), Eblk, !Eb, (run_bind _ _ _ _ _ Ew1) by done; exact Ew2|].
  assert (Hword : forall p, p <> start st1 + o -> p <> start st1 + o + 1 -> word_at st4 p = word_at st p).
  { intros p H1 H2. unfold st4. rewrite word_at_write, decide_False by done. unfold st3. by rewrite word_at_write, decide_False by done. }
  assert (Hso : same_objects st st4).
  { intros p k i Hk Hi. destruct (object_outside p k i Hk Hi) as [_ Hn]. apply Hword; intros Eq; apply Hn; rewrite Eq.
    - by replace (start st1 + o - start st1) with o by lia.
    - by replace (start st1 + o + 1 - start st1) with (o + 1) by lia. }
  split; [|split; [done|done]]. pose proof HU as [Hsp Hpc Hf Hal Hsk Hro Hsl Hst' Hpl Hob Hrs]. split; try done.
  - cbn [length]. lia.
  - intros o' Ho'. rewrite Hword; [by apply Hsl| |]; intros Eq.
    + assert (o' = o) by lia. subst o'. done.
    + assert (o' = o + 1) by lia. subst o'. done.
  - cbn [stacked]. fold o. split; [|split].
    + unfold st4. rewrite word_at_write, decide_False by lia. unfold st3. by rewrite word_at_write, decide_True.
    + unfold st4. by rewrite word_at_write, decide_True.
    + assert (Hrec : forall es', (length es' <= length es)%nat -> stacked st es' -> stacked st4 es').
      { induction es' as [|[x' y'] es' IH]; [done|]. cbn [stacked length]. intros Hle (? & ? & ?).
        assert (Hfar : pos (Z.of_nat (length es')) + 1 < o \/ o + 1 < pos (Z.of_nat (length es'))) by (unfold o, pos; destruct W; lia).
        rewrite !Hword by lia. split_and!; [done..|]. apply IH; [lia|done]. }
      by apply Hrec.
  - constructor; done.
  - apply (objects_same H rank_of mug_of st); [apply HI|done|done|done].
  - intros p Hp1 Hp2. rewrite Hword; [by apply Hrs|..]; intros Eq; apply Hp2; rewrite Eq.
    + by replace (start st1 + o - start st1) with o by lia.
    + by replace (start st1 + o + 1 - start st1) with (o + 1) by lia.
Qed.

(** ** Assignments *)

Lemma val_same st st' vs x : same_objects st st' -> place x -> val st' vs x = val st vs x.
Proof.
  intros Hs Hx. unfold val. destruct (Z.eqb_spec x a); [done|]. destruct (Z.eqb_spec x b); [done|].
  destruct Hx as [?|[?|(q & j & Hq & Hj & ->)]]; [done|done|]. apply (Hs q _ j Hq). cbn. lia.
Qed.

Lemma u_assign st vs es x v c :
  U st vs es -> place x -> Dn st (val st vs x) c -> Dn st v c ->
  (forall q j, H !! q = Some KCell -> j = 1 \/ j = 2 -> x = q + j -> ranked rank_of st v (rank_of q)) ->
  exists st' vs', assign a b vs x v st = Ok (vs', st') /\ U st' vs' es /\ (forall w n, Dn st w n -> Dn st' w n) /\
    (forall y, place y -> val st' vs' y = if decide (y = x) then v else val st vs y).
Proof.
  intros HU Hx Hold Hnew Hrk. destruct (u_inv _ _ _ HU) as [HI EA]. pose proof (inv_arena _ _ _ _ HI) as Hok. unfold assign.
  destruct (Z.eqb_spec x a) as [->|Hxa].
  { exists st. eexists. split; [done|]. destruct HU. split; [by split|]. split; [done|]. intros y _. unfold val. cbn [var_a var_b].
    destruct (decide (y = a)) as [->|]; [by rewrite Z.eqb_refl|]. by rewrite (proj2 (Z.eqb_neq y a)). }
  destruct (Z.eqb_spec x b) as [->|Hxb].
  { exists st. eexists. split; [done|]. destruct HU. split; [by split|]. split; [done|]. intros y _. unfold val. cbn [var_a var_b].
    destruct (Z.eqb_spec y a) as [->|]; [by rewrite decide_False by done|].
    destruct (decide (y = b)) as [->|]; [by rewrite Z.eqb_refl|]. by rewrite (proj2 (Z.eqb_neq y b)). }
  destruct (place_outside _ _ _ HU x Hx Hxa Hxb) as (Ns & Nb & Hr). destruct Hx as [?|[?|(q & j & Hq & Hj & ->)]]; [done|done|].
  rewrite (run_bind (poke (q + j) v) _ st tt (set_mem (<[q + j := v]> (mem st)) st)).
  2: { unfold poke. rewrite (run_bind get _ st st st) by done. by rewrite Hr. }
  set (st' := set_mem (<[q + j := v]> (mem st)) st). exists st', vs. split; [done|].
  assert (Hmem : forall p k i, H !! p = Some k -> 0 <= i < kwords k -> word_at st' (p + i) = if decide (p + i = q + j) then v else word_at st (p + i)).
  { intros p k i _ _. unfold st'. rewrite word_at_write. destruct (decide (q + j = p + i)), (decide (p + i = q + j)); congruence. }
  assert (Ev : val st vs (q + j) = word_at st (q + j)) by (apply (val_field _ _ _ HU vs q KCell); [done|cbn; lia]). rewrite Ev in Hold.
  pose proof (u_objects _ _ _ HU) as Hob. assert (Hs : same_space st st') by done. split; [|split].
  - pose proof HU as [Hsp Hpc Hf Hal Hsk Hro Hsl Hst' Hpl _ Hrs]. split; try done.
    + intros o Ho. unfold st'. rewrite word_at_write, decide_False; [by apply Hsl|]. intros E. apply Ns. by replace (q + j - start st1) with o by lia.
    + apply (stacked_ext st); [|lia|done]. intros o Ho. unfold st'. rewrite word_at_write, decide_False; [done|].
      intros E. apply Nb. by replace (q + j - start st1) with o by lia.
    + apply (objects_rewrite H rank_of mug_of st st' Hok Hob q j v c); try done. by apply (Hrk q j).
    + intros p Hp1 Hp2. unfold st'. rewrite word_at_write, decide_False; [by apply Hrs|]. apply (Hp1 q KCell j Hq). cbn. lia.
  - intros w n. by apply (den_rewrite H st st' Hok (obj_apart _ _ _ _ Hob) q j v c).
  - intros y Hy. unfold val. destruct (Z.eqb_spec y a) as [->|]; [by rewrite decide_False by done|]. destruct (Z.eqb_spec y b) as [->|]; [by rewrite decide_False by done|].
    unfold st'. rewrite word_at_write. destruct (decide (q + j = y)), (decide (y = q + j)); congruence.
Qed.

(** ** What a round sees *)

Lemma location_spec st t w p : arena_ok st -> is_tag t -> points st t w p ->
  exists l, allocated_location w st = Ok (l, st) /\ is_pma l = negb (in_stack st p).
Proof.
  intros Hok Ht Hp. destruct (pointer_resolves st Hok t w p Ht Hp) as (_ & _ & Ei & _). destruct Hp as [Hr Hw].
  unfold allocated_location. rewrite (run_bind _ _ _ _ _ (space_run st)). pose proof (readable_address st Hok p Hr) as [Hap _].
  assert (Hland : Z.land t 1 = 0 /\ Z.land (t + 1) 1 = 1) by (by destruct Ht as [-> | ->]).
  destruct Hw as [->|(ar & o & Ea & Ho & H32 & -> & ->)].
  - rewrite location_tag, (proj1 Hland) by done. cbn [Z.eqb]. exists (if in_stack st p then LocStack else LocPmaPtr). split; [|by destruct (in_stack st p)].
    assert (Epay : payload (word t p) (kind_mask (word t p)) = p).
    { unfold kind_mask. rewrite Ei. destruct Ht as [-> | ->]; [by apply (payload_tag IND p Hap 12)|by apply (payload_tag CEL p Hap 14)]. }
    rewrite Epay, Z.shiftl_mul_pow2, wrap64_small by (unfold is_u64, U64, address in *; lia). change (2 ^ 3) with 8. rewrite Z.mul_comm. by apply classify_spec.
  - rewrite location_tag, (proj2 Hland) by (unfold address; lia). cbn [Z.eqb]. exists LocPmaOffset. split; [done|]. cbn [is_pma].
    destruct Hok as [? ? ? Hpma]. rewrite Ea in Hpma. unfold apart in Hpma. unfold in_stack. symmetry. apply negb_true_iff. lia.
Qed.

(** An object in the stack has one word *)
Lemma stack_word st t w p : arena_ok st -> points st t w p -> in_stack st p = true -> w = word t p.
Proof.
  intros [? ? ? Hpma] [_ [->|(ar & o & Ea & Ho & H32 & _ & ->)]] Hs; [done|]. rewrite Ea in Hpma. unfold apart, in_stack in *. lia.
Qed.
Local Notation cur := (ptr st1 hi, ptr st1 hi).
(** Two different words for one noun are merged: a reference to the senior object stays *)
Lemma merge_spec st vs es x y t px py c :
  U st vs es -> place x -> place y -> is_tag t -> val st vs x <> val st vs y -> points st t (val st vs x) px -> points st t (val st vs y) py ->
  Dn st (val st vs x) c -> Dn st (val st vs y) c ->
  exists st' vs' z w, merge a b frames cur vs x y (val st vs x) (val st vs y) px py st = Ok (vs', st') /\ U st' vs' es /\
    (z = x /\ w = val st vs y \/ z = y /\ w = val st vs x) /\ Dn st (val st vs z) c /\ Dn st w c /\
    (forall w n, Dn st w n -> Dn st' w n) /\ (forall u, place u -> val st' vs' u = if decide (u = z) then w else val st vs u).
Proof.
  intros HU Hx Hy Ht Hvne Hpx Hpy Hcx Hcy. destruct (u_inv _ _ _ HU) as [HI EA]. pose proof (inv_arena _ _ _ _ HI) as Hok.
  destruct (location_spec st t _ px Hok Ht Hpx) as (lx & Elx & Plx). destruct (location_spec st t _ py Hok Ht Hpy) as (ly & Ely & Ply).
  assert (Estk : forall p, in_stack st p = in_stack st1 p) by (intros p; destruct (u_space _ _ _ HU) as [(E1 & E2 & _) _]; unfold in_stack; by rewrite E1, E2).
  assert (Hsel : exists r, (if is_pma lx && negb (is_pma ly) then mret false else if negb (is_pma lx) && is_pma ly then mret true
      else if is_pma lx && is_pma ly then mret (py <? px) else x_is_junior frames cur (bytes px) (bytes py)) st = Ok (r, st) /\
      if (r : bool) then (rank_of py <= rank_of px)%nat else (rank_of px <= rank_of py)%nat).
  { unfold rank_of. rewrite Plx, Ply, !Estk. destruct (in_stack st1 px) eqn:Sx, (in_stack st1 py) eqn:Sy; cbn [negb andb].
    - assert (Eb : forall p, readable st p = true -> bytes p = 8 * p).
      { intros p Hp. apply wrap64_small. destruct (readable_address st Hok p Hp). unfold is_u64, U64, address in *. lia. }
      rewrite (Eb px (proj1 Hpx)), (Eb py (proj1 Hpy)).
      assert (Hne : px <> py).
      { intros ->. apply Hvne. rewrite (stack_word st t _ py Hok Hpx), (stack_word st t _ py Hok Hpy) by (by rewrite Estk). done. }
      destruct (x_is_junior_spec st Hok lo hi rest px py frames HI (u_pc _ _ _ HU)) as (r & _ & E & Hr);
        [rewrite (u_alloc _ _ _ HU); exact Halloc| |done|done|done|].
      + rewrite (u_stack _ _ _ HU), (u_alloc _ _ _ HU). pose proof (u_room _ _ _ HU). pose proof gap_west. pose proof place1 as Hp. unfold placed in Hp. destruct W; lia.
      + rewrite (u_west _ _ _ HU), (u_frame _ _ _ HU), EA, (u_start _ _ _ HU) in Hr. exists r. split; [|done].
        unfold ptr in *. by rewrite (u_start _ _ _ HU) in E.
    - exists true. split; [done|lia].
    - exists false. split; [done|lia].
    - exists (py <? px). split; [done|]. by destruct (py <? px). }
  destruct Hsel as (r & Er & Hr). unfold merge. rewrite (run_bind _ _ _ _ _ Elx), (run_bind _ _ _ _ _ Ely), (run_bind _ _ _ _ _ Er).
  assert (Hrk : forall z w pz pw, place z -> points st t (val st vs z) pz -> points st t w pw -> (rank_of pw <= rank_of pz)%nat ->
    forall q j, H !! q = Some KCell -> j = 1 \/ j = 2 -> z = q + j -> ranked rank_of st w (rank_of q)).
  { intros z w pz pw Hz Hpz Hpw Hle q j Hq Hj -> t' q' Ht' Hq'. destruct (points_unique st Hok _ _ _ _ _ Ht' Ht Hq' Hpw) as [_ ->].
    rewrite (val_field _ _ _ HU vs q KCell) in Hpz by (done || cbn; lia).
    pose proof (obj_rank _ _ _ _ (u_objects _ _ _ HU) q j Hq Hj t pz Ht Hpz). lia. }
  destruct r.
  - destruct (u_assign st vs es x (val st vs y) c HU Hx Hcx Hcy (Hrk x (val st vs y) px py Hx Hpx Hpy Hr)) as (st' & vs' & E & HU' & Hd & Hv).
    exists st', vs', x, (val st vs y). split_and!; try done. by left.
  - destruct (u_assign st vs es y (val st vs x) c HU Hy Hcy Hcx (Hrk y (val st vs x) py px Hy Hpy Hpx Hr)) as (st' & vs' & E & HU' & Hd & Hv).
    exists st', vs', y, (val st vs x). split_and!; try done. by right.
Qed.

(** [memcmp] compares the data *)
Lemma same_words_spec st p q ws ws' : length ws = length ws' -> (forall i, (i < length ws)%nat -> readable st (p + Z.of_nat i) = true /\ readable st (q + Z.of_nat i) = true) ->
  (forall i x, ws !! i = Some x -> word_at st (p + Z.of_nat i) = x) -> (forall i x, ws' !! i = Some x -> word_at st (q + Z.of_nat i) = x) ->
  same_words p q (length ws) st = Ok (bool_decide (ws = ws'), st).
Proof.
  revert ws' p q. induction ws as [|x ws IH]; intros [|x' ws'] p q Hlen Hr Hp Hq; try done. cbn [same_words length].
  pose proof (Hr 0%nat ltac:(cbn; lia)) as [R1 R2]. rewrite !Z.add_0_r in R1, R2.
  assert (Hrd : forall z, readable st z = true -> read z st = Ok (word_at st z, st)) by (intros z Hz; unfold read; rewrite (run_bind get _ st st st) by done; by rewrite Hz).
  rewrite (run_bind _ _ _ _ _ (Hrd _ R1)), (run_bind _ _ _ _ _ (Hrd _ R2)).
  pose proof (Hp 0%nat x eq_refl) as E1. pose proof (Hq 0%nat x' eq_refl) as E2. rewrite Z.add_0_r in E1, E2. rewrite E1, E2.
  destruct (Z.eqb_spec x x') as [->|Hne].
  - rewrite (IH ws'); [do 2 f_equal; apply bool_decide_ext; split; [by intros ->|by intros [=]]|by injection Hlen| | |].
    + intros i Hi. destruct (Hr (S i) ltac:(cbn; lia)) as [? ?]. by replace (p + 1 + Z.of_nat i) with (p + Z.of_nat (S i)) by lia; replace (q + 1 + Z.of_nat i) with (q + Z.of_nat (S i)) by lia.
    + intros i z Hz. replace (p + 1 + Z.of_nat i) with (p + Z.of_nat (S i)) by lia. by apply Hp.
    + intros i z Hz. replace (q + 1 + Z.of_nat i) with (q + Z.of_nat (S i)) by lia. by apply Hq.
  - rewrite bool_decide_eq_false_2; [done|]. by intros [= ?].
Qed.

(** * Rounds *)

Lemma loop_round st vs x y es fuel : U st vs ((x, y) :: es) ->
  unify_loop a b frames cur (S fuel) vs st =
  ('(vs, go) ← unify_pair a b frames cur vs x y (val st vs x) (val st vs y); if (go : bool) then unify_loop a b frames cur fuel vs else mret vs) st.
Proof.
  intros HU. cbn [unify_loop]. rewrite (run_bind get _ st st st), (u_empty _ _ _ HU) by done.
  destruct (u_entry _ _ _ _ _ HU) as (e & E1 & E2 & E3 & _). pose proof (u_places _ _ _ HU) as Hpl. apply Forall_cons in Hpl as [[Hx Hy] _]. cbn in Hx, Hy.
  assert (E : unify_round a b frames cur vs st = unify_pair a b frames cur vs x y (val st vs x) (val st vs y) st).
  { unfold unify_round. rewrite (run_bind _ _ _ _ _ E1), (run_bind _ _ _ _ _ E2), (run_bind _ _ _ _ _ E3).
    assert (Ed : forall z, 8 * z / 8 = z) by (intros z; rewrite Z.mul_comm; apply Z.div_mul; lia). rewrite !Ed.
    by rewrite (run_bind _ _ _ _ _ (load_val _ _ _ HU x Hx)), (run_bind _ _ _ _ _ (load_val _ _ _ HU y Hy)). }
  unfold mbind, M_bind. by rewrite E.
Qed.

(** The pair is settled: its places hold one word, and only they have changed *)
Record settled (st : NockStack) (vs : vars) (x y : Z) (n : noun) (es : list (Z * Z)) (st' : NockStack) (vs' : vars) : Prop := {
  settled_u : U st' vs' es;
  settled_equal : val st' vs' x = val st' vs' y;
  settled_den w k : Dn st w k -> Dn st' w k;
  settled_value : Dn st' (val st' vs' x) n;
  settled_other u : place u -> u <> x -> u <> y -> val st' vs' u = val st vs u }.

Lemma pop_settled st vs x y n es : U st vs ((x, y) :: es) -> val st vs x = val st vs y -> Dn st (val st vs x) n ->
  exists st', pop 2 st = Ok (tt, st') /\ settled st vs x y n es st' vs.
Proof.
  intros HU E Hn. destruct (u_entry _ _ _ _ _ HU) as (e & _ & _ & _ & st' & Ep & HU' & Em). exists st'. split; [done|].
  assert (Hw : forall p, word_at st' p = word_at st p) by (intros p; unfold word_at; by rewrite Em).
  assert (Hv : forall u, val st' vs u = val st vs u) by (intros u; unfold val; by rewrite Hw).
  assert (Hd : forall w k, Dn st w k -> Dn st' w k).
  { intros w k. apply den_same; [|by intros p ? i _ _|apply (u_objects _ _ _ HU)].
    destruct (u_space _ _ _ HU) as [(? & ? & ?) ?], (u_space _ _ _ HU') as [(? & ? & ?) ?]. repeat split; congruence. }
  split; [done|by rewrite !Hv|done|rewrite Hv; auto|done].
Qed.
Lemma merge_settled st vs x y t px py n es :
  U st vs ((x, y) :: es) -> is_tag t -> val st vs x <> val st vs y -> points st t (val st vs x) px -> points st t (val st vs y) py ->
  Dn st (val st vs x) n -> Dn st (val st vs y) n ->
  exists st' vs', (vs ← merge a b frames cur vs x y (val st vs x) (val st vs y) px py; _ ← pop 2; mret (vs, true)) st = Ok ((vs', true), st') /\
    settled st vs x y n es st' vs'.
Proof.
  intros HU Ht Hne Hpx Hpy Hx Hy. pose proof (u_places _ _ _ HU) as Hpl. apply Forall_cons in Hpl as [[Px Py] _]. cbn in Px, Py.
  destruct (merge_spec st vs _ x y t px py n HU Px Py Ht Hne Hpx Hpy Hx Hy) as (st1' & vs' & z & w & E & HU' & Hzw & Hz & Hw & Hd & Hv).
  assert (Hxy : x <> y) by congruence.
  assert (Ex : val st1' vs' x = w) by (rewrite (Hv x Px); destruct Hzw as [[-> ->]|[-> ->]]; [by rewrite decide_True|by rewrite decide_False]).
  assert (Ey : val st1' vs' y = w) by (rewrite (Hv y Py); destruct Hzw as [[-> ->]|[-> ->]]; [by rewrite decide_False|by rewrite decide_True]).
  destruct (pop_settled st1' vs' x y n es HU') as (st2 & Ep & Hset); [congruence|rewrite Ex; auto|].
  exists st2, vs'. split; [by rewrite (run_bind _ _ _ _ _ E), (run_bind _ _ _ _ _ Ep)|]. destruct Hset as [S1 S2 S3 S4 S5]. split; [done|done|auto|done|].
  intros u Hu Hux Huy. rewrite S5, (Hv u Hu), decide_False by (done || destruct Hzw as [[-> _]|[-> _]]; done). done.
Qed.

(** A pair that is not a pair of cells *)
Lemma pair_atoms st vs x y n m es :
  U st vs ((x, y) :: es) -> val st vs x <> val st vs y -> Dn st (val st vs x) n -> Dn st (val st vs y) m ->
  (forall n1 n2 m1 m2, n = NCell n1 n2 -> m = NCell m1 m2 -> False) ->
  (n = m -> exists st' vs', unify_pair a b frames cur vs x y (val st vs x) (val st vs y) st = Ok ((vs', true), st') /\ settled st vs x y n es st' vs') /\
  (n <> m -> unify_pair a b frames cur vs x y (val st vs x) (val st vs y) st = Ok ((vs, false), st)).
Proof.
  intros HU Hne Hn Hm Hno. destruct (u_inv _ _ _ HU) as [HI _]. pose proof (inv_arena _ _ _ _ HI) as Hok. pose proof (u_objects _ _ _ HU) as Hob.
  unfold unify_pair. rewrite (proj2 (Z.eqb_neq _ _) Hne).
  destruct (den_cases H rank_of mug_of st Hok _ _ Hob Hn) as [(-> & d & -> & Ed)|[(px & ws & Eax & Eix & Hpx & -> & Hkx & Hwx)|(px & n1 & n2 & Eax & Eix & Hpx & -> & Hkx & _)]].
  { cbn [andb]. split; [|done]. intros <-. exfalso. apply Hne. destruct (den_cases H rank_of mug_of st Hok _ _ Hob Hm) as [(_ & d' & E & ->)|[(? & ? & _ & _ & _ & E & _)|(? & ? & ? & _ & _ & _ & E & _)]]; [|done|done].
    rewrite Ed. by injection E. }
  all: rewrite Eax.
  all: destruct (den_cases H rank_of mug_of st Hok _ _ Hob Hm) as [(-> & d & -> & _)|[(py & ws' & Eay & Eiy & Hpy & -> & Hky & Hwy)|(py & m1 & m2 & Eay & Eiy & Hpy & -> & Hky & _)]]; [by cbn [andb]|..].
  4: by destruct (Hno n1 n2 m1 m2).
  all: rewrite Eay; cbn [andb]; match type of Hpx with points _ ?t _ _ => match type of Hpy with points _ ?t' _ _ =>
    assert (Ht : is_tag t) by (by (left + right)); assert (Ht' : is_tag t') by (by (left + right));
    destruct (mugs_spec H rank_of mug_of st t t' _ _ px py _ _ Hok Hob Ht Ht' Hpx Hpy Hn Hm) as (df & Edf & Hdf);
    destruct (pointer_resolves st Hok t _ px Ht Hpx) as (Erx & _); destruct (pointer_resolves st Hok t' _ py Ht' Hpy) as (Ery & _) end end;
    rewrite (run_bind _ _ _ _ _ Edf); (destruct df; [split; [intros E; by destruct (Hdf eq_refl)|done]|]);
    rewrite (run_bind _ _ _ _ _ (space_run st)), (run_bind _ _ _ _ _ Erx), (run_bind _ _ _ _ _ Ery), Eix, Eiy; try (by split).
  assert (Hrd : forall p k, H !! p = Some k -> read (p + 1) st = Ok (word_at st (p + 1), st)).
  { intros p k Hk. unfold read. rewrite (run_bind get _ st st st) by done. pose proof (obj_positive _ _ _ st Hob p k Hk).
    by rewrite (obj_words _ _ _ st Hob p k 1 Hk) by lia. }
  rewrite (run_bind _ _ _ _ _ (Hrd _ _ Hkx)), (run_bind _ _ _ _ _ (Hrd _ _ Hky)), (obj_size _ _ _ st Hob _ _ Hkx), (obj_size _ _ _ st Hob _ _ Hky).
  assert (Esz : Z.to_nat (wrap64 (Z.shiftl (Z.of_nat (length ws)) 3) / 8) = length ws).
  { pose proof (obj_words _ _ _ st Hob px _ (Z.of_nat (length ws) + 1) Hkx ltac:(cbn; lia)) as Hr. destruct (readable_address st Hok _ Hr) as [Ha1 _].
    destruct (readable_address st Hok _ (proj1 Hpx)) as [Ha2 _]. rewrite Z.shiftl_mul_pow2 by lia. change (2 ^ 3) with 8.
    rewrite wrap64_small by (unfold is_u64, U64, address in *; lia). rewrite Z.div_mul by lia. lia. }
  rewrite Esz. destruct (Z.eqb_spec (Z.of_nat (length ws)) (Z.of_nat (length ws'))) as [El|El].
  - rewrite (run_bind _ _ st (bool_decide (ws = ws')) st).
    2: { apply same_words_spec; [lia| |done|done]. intros i Hi. split; rewrite <- Z.add_assoc; eapply (obj_words _ _ _ st Hob); [exact Hkx|cbn; lia|exact Hky|cbn; lia]. }
    split.
    + intros [= ->]. rewrite bool_decide_eq_true_2 by done. by apply (merge_settled st vs x y IND px py).
    + intros Hnw. rewrite bool_decide_eq_false_2 by congruence. done.
  - rewrite (run_bind (mret false) _ st false st) by done. split; [intros [= ->]; done|done].
Qed.

(** * The loop *)

Local Notation loop := (unify_loop a b frames cur).
Record ev (st : NockStack) (vs : vars) (st' : NockStack) (vs' : vars) : Prop := {
  ev_den w n : Dn st w n -> Dn st' w n;
  ev_val u n : place u -> Dn st (val st vs u) n -> Dn st' (val st' vs' u) n }.
Lemma ev_trans st vs st2 vs2 st3 vs3 : ev st vs st2 vs2 -> ev st2 vs2 st3 vs3 -> ev st vs st3 vs3.
Proof. intros [] []. split; auto. Qed.
(** The fields of cells that denote more than [n], and the variables *)
Definition big (st : NockStack) (n : noun) (z : Z) : Prop :=
  z = a \/ z = b \/ exists q j c, H !! q = Some KCell /\ (j = 1 \/ j = 2) /\ z = q + j /\ Dn st (word CEL q) c /\ (nodes n < nodes c)%nat.
Definition good (st : NockStack) (z : Z) : Prop :=
  z = a \/ z = b \/ exists q j c, H !! q = Some KCell /\ (j = 1 \/ j = 2) /\ z = q + j /\ Dn st (word CEL q) c.
Lemma big_place st n z : big st n z -> place z.
Proof. intros [->|[->|(q & j & c & Hq & Hj & -> & _)]]; [by left|by right; left|right; right; eauto]. Qed.
Lemma big_mono st vs st' vs' n n' z : ev st vs st' vs' -> (nodes n' <= nodes n)%nat -> big st n z -> big st' n' z.
Proof.
  intros He Hle [->|[->|(q & j & c & Hq & Hj & -> & Hc & Hlt)]]; [by left|by right; left|right; right].
  exists q, j, c. split_and!; [done..|by apply (ev_den _ _ _ _ He)|lia].
Qed.
Lemma good_mono st vs st' vs' z : ev st vs st' vs' -> good st z -> good st' z.
Proof.
  intros He [->|[->|(q & j & c & Hq & Hj & -> & Hc)]]; [by left|by right; left|right; right]. exists q, j, c. split_and!; [done..|by apply (ev_den _ _ _ _ He)].
Qed.

Section denoting.
Context (st : NockStack) (vs : vars) (es : list (Z * Z)) (HU : U st vs es).
Lemma u_ok : arena_ok st.
Proof. destruct (u_inv _ _ _ HU) as [HI _]. apply HI. Qed.
Lemma cell_points q : H !! q = Some KCell -> points st CEL (word CEL q) q.
Proof. intros Hq. split; [|by left]. rewrite <- (Z.add_0_r q). apply (obj_words _ _ _ st (u_objects _ _ _ HU) q _ 0 Hq). cbn. lia. Qed.
Lemma cell_fields q c : H !! q = Some KCell -> Dn st (word CEL q) c ->
  exists c1 c2, c = NCell c1 c2 /\ Dn st (word_at st (q + 1)) c1 /\ Dn st (word_at st (q + 2)) c2.
Proof.
  intros Hq Hc. pose proof (cell_points q Hq) as Hp.
  inversion Hc as [d Hd E|w p ws Hp' _ _ E|w p m n Hp' _ Hm Hn E].
  - exact (False_ind _ (points_not_direct st u_ok CEL _ _ (or_intror eq_refl) Hp Hd)).
  - exfalso. by destruct (points_unique st u_ok _ _ _ _ _ (or_introl eq_refl) (or_intror eq_refl) Hp' Hp).
  - destruct (points_unique st u_ok _ _ _ _ _ (or_intror eq_refl) (or_intror eq_refl) Hp' Hp) as [_ Ep]. rewrite Ep in Hm, Hn. eauto.
Qed.
Lemma good_big z n : good st z -> Dn st (val st vs z) n -> big st n z.
Proof.
  intros [->|[->|(q & j & c & Hq & Hj & -> & Hc)]] Hn; [by left|by right; left|right; right]. exists q, j, c. split_and!; [done..|].
  destruct (cell_fields q c Hq Hc) as (c1 & c2 & -> & H1 & H2). rewrite (val_field _ _ _ HU vs q KCell) in Hn by (done || cbn; lia). cbn [nodes].
  destruct Hj as [-> | ->]; [rewrite (den_unique H st u_ok _ _ _ Hn H1)|rewrite (den_unique H st u_ok _ _ _ Hn H2)]; lia.
Qed.
Lemma settled_ev x y n es' st' vs' : Dn st (val st vs x) n -> Dn st (val st vs y) n -> settled st vs x y n es' st' vs' -> ev st vs st' vs'.
Proof.
  intros Hx Hy [S1 S2 S3 S4 S5]. split; [done|]. intros u k Hu Hk. destruct (decide (u = x)) as [->|Hux].
  { by rewrite (den_unique H st u_ok _ _ _ Hk Hx). }
  destruct (decide (u = y)) as [->|Huy]; [rewrite <- S2; by rewrite (den_unique H st u_ok _ _ _ Hk Hy)|]. rewrite S5 by done. auto.
Qed.
End denoting.

(** A pair of cells: the mugs tell them apart, or their fields are compared *)
Lemma pair_cells st vs x y px py n1 n2 m1 m2 es :
  U st vs ((x, y) :: es) -> val st vs x <> val st vs y -> points st CEL (val st vs x) px -> points st CEL (val st vs y) py ->
  H !! px = Some KCell -> H !! py = Some KCell -> Dn st (val st vs x) (NCell n1 n2) -> Dn st (val st vs y) (NCell m1 m2) ->
  is_allocated (val st vs x) = true -> is_allocated (val st vs y) = true ->
  exists d : bool, (d = true -> NCell n1 n2 <> NCell m1 m2) /\ unify_pair a b frames cur vs x y (val st vs x) (val st vs y) st =
    if d then Ok ((vs, false), st) else
    (if word_at st (px + 1) =? word_at st (py + 1) then
       if word_at st (px + 2) =? word_at st (py + 2)
       then vs ← merge a b frames cur vs x y (val st vs x) (val st vs y) px py; _ ← pop 2; mret (vs, true)
       else _ ← push_pair (px + 2) (py + 2); mret (vs, true)
     else _ ← (if word_at st (px + 2) =? word_at st (py + 2) then mret tt else push_pair (px + 2) (py + 2));
          _ ← push_pair (px + 1) (py + 1); mret (vs, true)) st.
Proof.
  intros HU Hne Hpx Hpy Hkx Hky Hn Hm Eax Eay. pose proof (u_ok _ _ _ HU) as Hok. pose proof (u_objects _ _ _ HU) as Hob.
  assert (Ht : is_tag CEL) by (by right). destruct (mugs_spec H rank_of mug_of st CEL CEL _ _ px py _ _ Hok Hob Ht Ht Hpx Hpy Hn Hm) as (d & Ed & Hd). exists d. split; [done|].
  destruct (pointer_resolves st Hok CEL _ px Ht Hpx) as (Erx & _ & Eix & _), (pointer_resolves st Hok CEL _ py Ht Hpy) as (Ery & _ & Eiy & _).
  unfold unify_pair. rewrite (proj2 (Z.eqb_neq _ _) Hne), Eax, Eay. cbn [andb]. rewrite (run_bind _ _ _ _ _ Ed). destruct d; [done|].
  rewrite (run_bind _ _ _ _ _ (space_run st)), (run_bind _ _ _ _ _ Erx), (run_bind _ _ _ _ _ Ery), Eix, Eiy. cbn [Z.eqb Pos.eqb CEL IND].
  assert (Hrd : forall q i, H !! q = Some KCell -> 0 <= i < 3 -> read (q + i) st = Ok (word_at st (q + i), st)).
  { intros q i Hq Hi. unfold read. rewrite (run_bind get _ st st st) by done. by rewrite (obj_words _ _ _ st Hob q _ i Hq). }
  rewrite (run_bind _ _ _ _ _ (Hrd px 1 Hkx ltac:(lia))), (run_bind _ _ _ _ _ (Hrd py 1 Hky ltac:(lia))),
    (run_bind _ _ _ _ _ (Hrd px 2 Hkx ltac:(lia))), (run_bind _ _ _ _ _ (Hrd py 2 Hky ltac:(lia))). done.
Qed.

Record finished (st : NockStack) (vs : vars) (x y : Z) (n : noun) (es : list (Z * Z)) (st' : NockStack) (vs' : vars) : Prop := {
  fin_u : U st' vs' es;
  fin_equal : val st' vs' x = val st' vs' y;
  fin_ev : ev st vs st' vs';
  fin_other z : big st n z -> z <> x -> z <> y -> val st' vs' z = val st vs z }.
Definition processed (n m : noun) (x y : Z) (st : NockStack) (vs : vars) (es : list (Z * Z)) (fuel : nat) : Prop :=
  (n = m -> exists k st' vs', (k <= 2 * nodes n)%nat /\ loop fuel vs st = loop (fuel - k) vs' st' /\ finished st vs x y n es st' vs') /\
  (n <> m -> exists st' vs' es', loop fuel vs st = Ok (vs', st') /\ U st' vs' es' /\ ev st vs st' vs').
Definition process_noun (n : noun) : Prop := forall m x y st vs es fuel,
  U st vs ((x, y) :: es) -> good st x -> good st y -> Dn st (val st vs x) n -> Dn st (val st vs y) m ->
  2 * (Z.of_nat (length es) + Z.of_nat (nodes n)) < gap -> (2 * nodes n <= fuel)%nat -> processed n m x y st vs es fuel.
Lemma nodes_pos n : (1 <= nodes n)%nat.
Proof. destruct n; cbn; lia. Qed.
Lemma process_same n m x y st vs es fuel : U st vs ((x, y) :: es) -> Dn st (val st vs x) n -> Dn st (val st vs y) m ->
  val st vs x = val st vs y -> processed n m x y st vs es (S fuel).
Proof.
  intros HU Hn Hm E. pose proof (nodes_pos n) as Hpos. unfold processed. rewrite (loop_round _ _ _ _ _ fuel HU).
  assert (n = m) as <- by (rewrite <- E in Hm; by apply (den_unique H st (u_ok _ _ _ HU) (val st vs x))). split; [|done]. intros _.
  destruct (pop_settled st vs x y n es HU E Hn) as (st' & Ep & Hset). exists 1%nat, st', vs. split; [lia|]. split.
  - unfold unify_pair. rewrite E, Z.eqb_refl. rewrite (run_bind _ _ st (vs, true) st') by (by rewrite (run_bind _ _ _ _ _ Ep)). by replace (S fuel - 1)%nat with fuel by lia.
  - destruct (Hset) as [S1 S2 S3 S4 S5]. split; [done|done|exact (settled_ev _ _ _ HU _ _ _ _ _ _ Hn Hm Hset)|].
    intros z Hz Hzx Hzy. apply S5; [by eapply big_place|done|done].
Qed.
Lemma process_atom n : (forall n1 n2, n <> NCell n1 n2) -> process_noun n.
Proof.
  intros Hat m x y st vs es fuel HU Hgx Hgy Hn Hm _ Hf. pose proof (nodes_pos n) as Hpos. destruct fuel as [|fuel]; [lia|].
  destruct (decide (val st vs x = val st vs y)) as [E|Hne]; [by apply process_same|].
  unfold processed. rewrite (loop_round _ _ _ _ _ fuel HU).
  destruct (pair_atoms st vs x y n m es HU Hne Hn Hm ltac:(intros n1 n2 m1 m2 E _; by apply (Hat n1 n2))) as [H1 H2]. split.
  - intros <-. destruct (H1 eq_refl) as (st' & vs' & E & Hset). exists 1%nat, st', vs'. split; [lia|]. split.
    + rewrite (run_bind _ _ _ _ _ E). by replace (S fuel - 1)%nat with fuel by lia.
    + destruct (Hset) as [S1 S2 S3 S4 S5]. split; [done|done|exact (settled_ev _ _ _ HU _ _ _ _ _ _ Hn Hm Hset)|]. intros z Hz Hzx Hzy. apply S5; [by eapply big_place|done|done].
  - intros Hnm. exists st, vs, ((x, y) :: es). rewrite (run_bind _ _ _ _ _ (H2 Hnm)). split; [done|]. split; [done|]. by split.
Qed.

(** ** Cells *)

Lemma push_ev st vs es st' : U st vs es -> same_objects st st' -> same_space st st' ->
  ev st vs st' vs /\ forall u, place u -> val st' vs u = val st vs u.
Proof.
  intros HU Ho Hs. assert (Hv : forall u, place u -> val st' vs u = val st vs u) by (intros u Hu; by apply val_same).
  assert (Hd : forall w n, Dn st w n -> Dn st' w n) by (intros w n; apply den_same; [done|done|apply (u_objects _ _ _ HU)]).
  split; [|done]. split; [done|]. intros u n Hu Hn. rewrite Hv by done. auto.
Qed.

Section cells.
Context (st : NockStack) (vs : vars) (x y : Z) (es : list (Z * Z)) (px py : Z) (n1 n2 m1 m2 : noun).
Context (HU : U st vs ((x, y) :: es)) (Hgx : good st x) (Hgy : good st y) (Hne : val st vs x <> val st vs y).
Context (Hpx : points st CEL (val st vs x) px) (Hpy : points st CEL (val st vs y) py) (Hkx : H !! px = Some KCell) (Hky : H !! py = Some KCell).
Context (Hax : is_allocated (val st vs x) = true) (Hay : is_allocated (val st vs y) = true).
Context (Hn : Dn st (val st vs x) (NCell n1 n2)) (Hm : Dn st (val st vs y) (NCell m1 m2)).
Local Notation n := (NCell n1 n2).

Lemma pair_places : place x /\ place y.
Proof. pose proof (u_places _ _ _ HU) as Hpl. apply Forall_cons in Hpl as [[Px Py] _]. done. Qed.
Lemma object_cell v p k : points st CEL v p -> H !! p = Some KCell -> Dn st v k -> Dn st (word CEL p) k.
Proof.
  intros Hp Hk Hd. inversion Hd as [d Hd' E|w q ws Hq|w q c1 c2 Hq Hkq H1 H2]; subst k.
  - exfalso. exact (points_not_direct st (u_ok _ _ _ HU) CEL _ _ (or_intror eq_refl) Hp Hd').
  - by destruct (points_unique st (u_ok _ _ _ HU) _ _ _ _ _ (or_introl eq_refl) (or_intror eq_refl) Hq Hp).
  - destruct (points_unique st (u_ok _ _ _ HU) _ _ _ _ _ (or_intror eq_refl) (or_intror eq_refl) Hq Hp) as [_ Eq]. rewrite Eq in H1, H2.
    apply den_cell with p; [by apply (cell_points _ _ _ HU)|done|done|done].
Qed.
Lemma field_good p k j : H !! p = Some KCell -> Dn st (word CEL p) k -> j = 1 \/ j = 2 -> good st (p + j).
Proof. intros Hk Hd Hj. right; right. by exists p, j, k. Qed.
Lemma fields_apart j : j = 1 \/ j = 2 -> px + (3 - j) <> px + j /\ px + (3 - j) <> py + j /\ py + (3 - j) <> px + j /\ py + (3 - j) <> py + j.
Proof.
  intros Hj. pose proof (obj_apart _ _ _ _ (u_objects _ _ _ HU)) as Hap. split_and!; [lia| | |lia]; intros E.
  - assert (px = py) by (apply (Hap px _ py _ (3 - j) j Hkx Hky); cbn; lia). lia.
  - assert (py = px) by (apply (Hap py _ px _ (3 - j) j Hky Hkx); cbn; lia). lia.
Qed.

(** What stays the same while the fields of two equal cells are processed *)
Record kept (s : NockStack) (v : vars) : Prop := {
  kept_ev : ev st vs s v;
  kept_big z : big st n z -> val s v z = val st vs z }.
Lemma big_not_field j z : NCell m1 m2 = n -> j = 1 \/ j = 2 -> big st n z -> z <> px + j /\ z <> py + j.
Proof.
  intros Em Hj Hz. pose proof (object_cell _ _ _ Hpx Hkx Hn) as Dx. pose proof (object_cell _ _ _ Hpy Hky Hm) as Dy.
  pose proof (obj_apart _ _ _ _ (u_objects _ _ _ HU)) as Hap.
  destruct Hz as [->|[->|(q & i & c & Hq & Hi & -> & Hc & Hlt)]].
  - split; intros E; [destruct (field_not_var _ _ _ HU px _ j Hkx)|destruct (field_not_var _ _ _ HU py _ j Hky)]; cbn; lia || congruence.
  - split; intros E; [destruct (field_not_var _ _ _ HU px _ j Hkx)|destruct (field_not_var _ _ _ HU py _ j Hky)]; cbn; lia || congruence.
  - split; intros E.
    + assert (q = px) as -> by (apply (Hap q _ px _ i j Hq Hkx); cbn; lia). rewrite (den_unique H st (u_ok _ _ _ HU) _ _ _ Hc Dx) in Hlt. lia.
    + assert (q = py) as -> by (apply (Hap q _ py _ i j Hq Hky); cbn; lia). rewrite (den_unique H st (u_ok _ _ _ HU) _ _ _ Hc Dy), Em in Hlt. lia.
Qed.
(** One field is processed *)
Lemma kept_phase j nj E s v s' v' : NCell m1 m2 = n -> j = 1 \/ j = 2 -> (nodes nj < nodes n)%nat -> U s v ((px + j, py + j) :: E) -> kept s v ->
  finished s v (px + j) (py + j) nj E s' v' ->
  kept s' v' /\ word_at s' (px + j) = word_at s' (py + j) /\ word_at s' (px + (3 - j)) = word_at s (px + (3 - j)) /\ word_at s' (py + (3 - j)) = word_at s (py + (3 - j)).
Proof.
  intros Em Hj Hlt HUs [Hev Hbig] [F1 F2 F3 F4].
  assert (Hf : forall q i, H !! q = Some KCell -> i = 1 \/ i = 2 -> val s' v' (q + i) = word_at s' (q + i) /\ val s v (q + i) = word_at s (q + i)).
  { intros q i Hq Hi. split; [apply (val_field _ _ _ F1 v' q KCell)|apply (val_field _ _ _ HUs v q KCell)]; done || cbn; lia. }
  split; [split|].
  - by eapply ev_trans.
  - intros z Hz. rewrite F4; [by apply Hbig|apply (big_mono st vs s v n nj z Hev); [lia|done]|..]; by apply (big_not_field j z Em Hj).
  - assert (Hj' : 3 - j = 1 \/ 3 - j = 2) by lia. destruct (fields_apart j Hj) as (A1 & A2 & A3 & A4).
    rewrite <- (proj1 (Hf px j Hkx Hj)), <- (proj1 (Hf py j Hky Hj)). split; [exact F2|].
    rewrite <- (proj1 (Hf px _ Hkx Hj')), <- (proj2 (Hf px _ Hkx Hj')), <- (proj1 (Hf py _ Hky Hj')), <- (proj2 (Hf py _ Hky Hj')).
    pose proof (ev_den _ _ _ _ Hev _ _ (object_cell _ _ _ Hpx Hkx Hn)) as Dx. pose proof (ev_den _ _ _ _ Hev _ _ (object_cell _ _ _ Hpy Hky Hm)) as Dy.
    split; apply F4; try done; right; right; [exists px, (3 - j), n|exists py, (3 - j), (NCell m1 m2)]; rewrite ?Em in *; split_and!; done || lia.
Qed.
(** The cells are visited again, and merged *)
Lemma finish_cells s v fuel : NCell m1 m2 = n -> U s v ((x, y) :: es) -> kept s v ->
  word_at s (px + 1) = word_at s (py + 1) -> word_at s (px + 2) = word_at s (py + 2) ->
  exists s' v', loop (S fuel) v s = loop fuel v' s' /\ finished st vs x y n es s' v'.
Proof.
  intros Em HUs [Hev Hbig] E1 E2. destruct pair_places as [Px Py].
  assert (Ex : val s v x = val st vs x) by (apply Hbig, (good_big _ _ _ HU); done).
  assert (Ey : val s v y = val st vs y) by (apply Hbig, (good_big _ _ _ HU); [done|by rewrite <- Em]).
  assert (Hsp : same_space st s).
  { destruct (u_space _ _ _ HU) as [(? & ? & ?) ?], (u_space _ _ _ HUs) as [(? & ? & ?) ?]. repeat split; congruence. }
  assert (Hpx' : points s CEL (val s v x) px) by (rewrite Ex; by apply (points_same st s Hsp)).
  assert (Hpy' : points s CEL (val s v y) py) by (rewrite Ey; by apply (points_same st s Hsp)).
  assert (Hne' : val s v x <> val s v y) by congruence.
  pose proof (ev_val _ _ _ _ Hev x _ Px Hn) as Hn'. pose proof (ev_val _ _ _ _ Hev y _ Py Hm) as Hm'. rewrite Em in Hm'.
  rewrite (loop_round _ _ _ _ _ fuel HUs).
  destruct (pair_cells s v x y px py n1 n2 n1 n2 es HUs Hne' Hpx' Hpy' Hkx Hky Hn' Hm') as (d & Hd & E); [congruence|congruence|].
  destruct d; [by destruct (Hd eq_refl)|]. rewrite E1, E2, !Z.eqb_refl in E.
  destruct (merge_settled s v x y CEL px py n es HUs ltac:(by right) Hne' Hpx' Hpy' Hn' Hm') as (s' & v' & Eq & Hset).
  exists s', v'. split; [by rewrite (run_bind _ _ _ _ _ (eq_trans E Eq))|]. pose proof (settled_ev _ _ _ HUs _ _ _ _ _ _ Hn' Hm' Hset) as Hev'.
  destruct Hset as [S1 S2 S3 S4 S5]. split; [done|done|by eapply ev_trans|].
  intros z Hz Hzx Hzy. rewrite S5 by (done || by eapply big_place). by apply Hbig.
Qed.

(** The fields that differ are pushed *)
Definition unequal (j : Z) : list (Z * Z) := if word_at st (px + j) =? word_at st (py + j) then [] else [(px + j, py + j)].
Lemma unequal_length j : (length (unequal j) <= 1)%nat.
Proof. unfold unequal. case_match; cbn; lia. Qed.
Lemma field_place_of p j : H !! p = Some KCell -> j = 1 \/ j = 2 -> place (p + j).
Proof. intros Hk Hj. right; right. by exists p, j. Qed.
Lemma push_unequal s E j : j = 1 \/ j = 2 -> U s vs E -> 2 * (Z.of_nat (length E) + 1) < gap ->
  exists s', (if word_at st (px + j) =? word_at st (py + j) then mret tt else push_pair (px + j) (py + j)) s = Ok (tt, s') /\
    U s' vs (unequal j ++ E) /\ same_objects s s' /\ same_space s s'.
Proof.
  intros Hj HUs Hg. unfold unequal. destruct (word_at st (px + j) =? word_at st (py + j)).
  - exists s. split; [done|]. split; [done|]. split; [by intros ? ? ? _ _|done].
  - destruct (u_push s vs E (px + j) (py + j) HUs) as (s' & Ep & HU' & Ho & Hs); [by apply field_place_of|by apply field_place_of|done|]. by exists s'.
Qed.
Lemma visit : 2 * (Z.of_nat (length es) + 3) < gap -> ~ (word_at st (px + 1) = word_at st (py + 1) /\ word_at st (px + 2) = word_at st (py + 2)) ->
  exists s, (if word_at st (px + 1) =? word_at st (py + 1) then
       if word_at st (px + 2) =? word_at st (py + 2)
       then vs ← merge a b frames cur vs x y (val st vs x) (val st vs y) px py; _ ← pop 2; mret (vs, true)
       else _ ← push_pair (px + 2) (py + 2); mret (vs, true)
     else _ ← (if word_at st (px + 2) =? word_at st (py + 2) then mret tt else push_pair (px + 2) (py + 2));
          _ ← push_pair (px + 1) (py + 1); mret (vs, true)) st = Ok ((vs, true), s) /\
    U s vs (unequal 1 ++ unequal 2 ++ (x, y) :: es) /\ ev st vs s vs /\ (forall u, place u -> val s vs u = val st vs u).
Proof.
  intros Hg Hnot. destruct (push_unequal st ((x, y) :: es) 2 ltac:(by right) HU) as (s1 & E1 & U1 & O1 & S1); [cbn [length]; lia|].
  destruct (push_unequal s1 _ 1 ltac:(by left) U1) as (s2 & E2 & U2 & O2 & S2).
  { unfold unequal. destruct (word_at st (px + 2) =? word_at st (py + 2)); cbn [length app]; lia. }
  exists s2. split; [|split; [done|]].
  - destruct (Z.eqb_spec (word_at st (px + 1)) (word_at st (py + 1))) as [Eh|Eh].
    + injection E2 as <-. destruct (Z.eqb_spec (word_at st (px + 2)) (word_at st (py + 2))) as [Et|Et]; [tauto|]. by rewrite (run_bind _ _ _ _ _ E1).
    + by rewrite (run_bind _ _ _ _ _ E1), (run_bind _ _ _ _ _ E2).
  - apply (push_ev st vs _ s2 HU); [intros p k i Hk Hi; by rewrite (O2 p k i Hk Hi), (O1 p k i Hk Hi)|by eapply same_space_trans].
Qed.

(** The denotations of the fields in a later state *)
Lemma field_den p k s v E j kj : H !! p = Some KCell -> Dn st (word CEL p) k -> ev st vs s v -> U s v E -> j = 1 \/ j = 2 ->
  (match k with NCell k1 k2 => if j =? 1 then k1 else k2 | _ => k end) = kj -> Dn s (val s v (p + j)) kj /\ good s (p + j).
Proof.
  intros Hk Hd Hev HUs Hj Ekj. destruct (cell_fields _ _ _ HU p k Hk Hd) as (k1 & k2 & -> & D1 & D2).
  split; [|apply (good_mono st vs s v); [done|]; by apply (field_good p (NCell k1 k2))].
  apply (ev_val _ _ _ _ Hev); [by apply field_place_of|]. rewrite (val_field _ _ _ HU vs p KCell) by (done || cbn; lia). subst kj. by destruct Hj as [-> | ->].
Qed.

Lemma phase j nj E s v fuel : NCell m1 m2 = n -> j = 1 \/ j = 2 -> (if j =? 1 then n1 else n2) = nj -> process_noun nj ->
  U s v (unequal j ++ E) -> kept s v -> (word_at st (px + j) = word_at st (py + j) -> word_at s (px + j) = word_at s (py + j)) ->
  2 * (Z.of_nat (length E) + Z.of_nat (nodes nj)) < gap -> (2 * nodes nj <= fuel)%nat ->
  exists k s' v', (k <= 2 * nodes nj)%nat /\ loop fuel v s = loop (fuel - k) v' s' /\ U s' v' E /\ kept s' v' /\
    word_at s' (px + j) = word_at s' (py + j) /\ word_at s' (px + (3 - j)) = word_at s (px + (3 - j)) /\ word_at s' (py + (3 - j)) = word_at s (py + (3 - j)).
Proof.
  intros Em Hj Enj IH HUs Hk Hsame Hg Hf. unfold unequal in HUs. destruct (Z.eqb_spec (word_at st (px + j)) (word_at st (py + j))) as [Ej|Ej].
  { exists 0%nat, s, v. split; [lia|]. rewrite Nat.sub_0_r. auto 10. }
  pose proof (kept_ev _ _ Hk) as Hev. cbn [app] in HUs.
  destruct (field_den px _ s v _ j nj Hkx (object_cell _ _ _ Hpx Hkx Hn) Hev HUs Hj Enj) as [Dx Gx].
  destruct (field_den py _ s v _ j nj Hky (object_cell _ _ _ Hpy Hky Hm) Hev HUs Hj) as [Dy Gy]; [injection Em as E1 E2; by rewrite E1, E2|].
  destruct (IH nj (px + j) (py + j) s v E fuel HUs Gx Gy Dx Dy Hg Hf) as [Heq _]. destruct (Heq eq_refl) as (k & s' & v' & Hkle & El & Hfin).
  assert (Hlt : (nodes nj < nodes n)%nat) by (cbn [nodes]; destruct (j =? 1); subst nj; lia).
  destruct (kept_phase j nj E s v s' v' Em Hj Hlt HUs Hk Hfin) as (Hk' & E1 & E2 & E3). exists k, s', v'. split_and!; try done. apply Hfin.
Qed.

Lemma cells_equal fuel : NCell m1 m2 = n -> process_noun n1 -> process_noun n2 ->
  2 * (Z.of_nat (length es) + Z.of_nat (nodes n)) < gap -> (2 * nodes n <= S fuel)%nat ->
  exists k s v, (k <= 2 * nodes n)%nat /\ loop (S fuel) vs st = loop (S fuel - k) v s /\ finished st vs x y n es s v.
Proof.
  intros Em IH1 IH2 Hg Hf. pose proof (nodes_pos n1) as P1. pose proof (nodes_pos n2) as P2. cbn [nodes] in Hg, Hf.
  assert (Hk0 : kept st vs) by (split; [by split|done]).
  destruct (decide (word_at st (px + 1) = word_at st (py + 1) /\ word_at st (px + 2) = word_at st (py + 2))) as [[E1 E2]|Hnot].
  { destruct (finish_cells st vs fuel Em HU Hk0 E1 E2) as (s' & v' & E & Hfin). exists 1%nat, s', v'. split; [cbn [nodes]; lia|].
    replace (S fuel - 1)%nat with fuel by lia. done. }
  destruct (visit ltac:(lia) Hnot) as (s0 & Ev & U0 & Hev0 & Hv0).
  assert (Hwf : forall p i, H !! p = Some KCell -> i = 1 \/ i = 2 -> word_at s0 (p + i) = word_at st (p + i)).
  { intros p i Hp Hi. rewrite <- (val_field _ _ _ U0 vs p KCell i Hp), <- (val_field _ _ _ HU vs p KCell i Hp) by (cbn; lia). apply Hv0. by apply field_place_of. }
  assert (Hk : kept s0 vs) by (split; [done|]; intros z Hz; apply Hv0; by eapply big_place).
  destruct (pair_cells st vs x y px py n1 n2 m1 m2 es HU Hne Hpx Hpy Hkx Hky Hn Hm Hax Hay) as (d & Hd & Ep). destruct d; [by destruct (Hd eq_refl)|].
  pose proof (unequal_length 2) as Hlen.
  destruct (phase 1 n1 (unequal 2 ++ (x, y) :: es) s0 vs fuel Em ltac:(by left) eq_refl IH1 U0 Hk) as (k1 & s1 & v1 & Hk1 & L1 & U1 & K1 & H1 & Hx1 & Hy1);
    [rewrite !Hwf by auto; done|rewrite length_app; cbn [length]; lia|lia|].
  destruct (phase 2 n2 ((x, y) :: es) s1 v1 (fuel - k1) Em ltac:(by right) eq_refl IH2 U1 K1) as (k2 & s2 & v2 & Hk2 & L2 & U2 & K2 & H2 & Hx2 & Hy2);
    [change 2 with (3 - 1); rewrite Hx1, Hy1; change (3 - 1) with 2; rewrite !Hwf by auto; done|cbn [length]; lia|lia|].
  assert (Hh : word_at s2 (px + 1) = word_at s2 (py + 1)) by (change 1 with (3 - 2); rewrite Hx2, Hy2; exact H1).
  destruct (fuel - k1 - k2)%nat as [|f2] eqn:Ef; [lia|].
  destruct (finish_cells s2 v2 f2 Em U2 K2 Hh H2) as (s3 & v3 & L3 & Hfin). exists (S (k1 + k2 + 1))%nat, s3, v3. split; [cbn [nodes]; lia|]. split; [|done].
  rewrite (loop_round _ _ _ _ _ fuel HU), (run_bind _ _ _ _ _ (eq_trans Ep Ev)), L1, L2, L3. f_equal. lia.
Qed.

Lemma cells_unequal fuel : NCell m1 m2 <> n -> process_noun n1 -> process_noun n2 ->
  2 * (Z.of_nat (length es) + Z.of_nat (nodes n)) < gap -> (2 * nodes n <= S fuel)%nat ->
  exists s v E, loop (S fuel) vs st = Ok (v, s) /\ U s v E /\ ev st vs s v.
Proof.
  intros Em IH1 IH2 Hg Hf. pose proof (nodes_pos n1) as P1. pose proof (nodes_pos n2) as P2. cbn [nodes] in Hg, Hf.
  pose proof (object_cell _ _ _ Hpx Hkx Hn) as Cx. pose proof (object_cell _ _ _ Hpy Hky Hm) as Cy.
  assert (Hev_refl : ev st vs st vs) by (by split).
  assert (Hraw : forall j nj mj, j = 1 \/ j = 2 -> (if j =? 1 then n1 else n2) = nj -> (if j =? 1 then m1 else m2) = mj -> word_at st (px + j) = word_at st (py + j) -> nj = mj).
  { intros j nj mj Hj Ej Ej' Ew. destruct (field_den px _ st vs _ j nj Hkx Cx Hev_refl HU Hj Ej) as [Dx _], (field_den py _ st vs _ j mj Hky Cy Hev_refl HU Hj Ej') as [Dy _].
    rewrite (val_field _ _ _ HU vs px KCell) in Dx by (done || cbn; lia). rewrite (val_field _ _ _ HU vs py KCell), <- Ew in Dy by (done || cbn; lia).
    by apply (den_unique H st (u_ok _ _ _ HU) _ _ _ Dx). }
  rewrite (loop_round _ _ _ _ _ fuel HU).
  destruct (pair_cells st vs x y px py n1 n2 m1 m2 es HU Hne Hpx Hpy Hkx Hky Hn Hm Hax Hay) as (d & Hd & Ep).
  destruct d; [rewrite (run_bind _ _ _ _ _ Ep); by exists st, vs, ((x, y) :: es)|].
  destruct visit as (s0 & Ev & U0 & Hev0 & Hv0); [lia|intros [E1 E2]; apply Em; f_equal; symmetry; [by apply (Hraw 1); [left|..]|by apply (Hraw 2); [right|..]]|].
  rewrite (run_bind _ _ _ _ _ (eq_trans Ep Ev)).
  pose proof (unequal_length 2) as Hlen.
  assert (Htail : forall s v f, n1 = m1 -> U s v (unequal 2 ++ (x, y) :: es) -> ev st vs s v -> (2 * nodes n2 <= f)%nat -> exists s' v' E, loop f v s = Ok (v', s') /\ U s' v' E /\ ev st vs s' v').
  { intros s v f E1 Us Hevs Hfs. assert (Hn2 : n2 <> m2) by congruence. unfold unequal in Us.
    destruct (Z.eqb_spec (word_at st (px + 2)) (word_at st (py + 2))) as [Ew|Ew]; [by destruct Hn2; apply (Hraw 2); [right|..]|]. cbn [app] in Us.
    destruct (field_den px _ s v _ 2 n2 Hkx Cx Hevs Us ltac:(by right) eq_refl) as [Dx Gx], (field_den py _ s v _ 2 m2 Hky Cy Hevs Us ltac:(by right) eq_refl) as [Dy Gy].
    destruct (IH2 m2 (px + 2) (py + 2) s v _ f Us Gx Gy Dx Dy ltac:(cbn [length]; lia) Hfs) as [_ Hneq].
    destruct (Hneq Hn2) as (s' & v' & E & L & U' & Hev'). exists s', v', E. split; [done|]. split; [done|]. by eapply ev_trans. }
  unfold unequal at 1 in U0. destruct (Z.eqb_spec (word_at st (px + 1)) (word_at st (py + 1))) as [Ew|Ew]; cbn [app] in U0.
  { apply (Htail s0 vs fuel); [by apply (Hraw 1); [left|..]|done|done|lia]. }
  destruct (field_den px _ s0 vs _ 1 n1 Hkx Cx Hev0 U0 ltac:(by left) eq_refl) as [Dx Gx], (field_den py _ s0 vs _ 1 m1 Hky Cy Hev0 U0 ltac:(by left) eq_refl) as [Dy Gy].
  destruct (IH1 m1 (px + 1) (py + 1) s0 vs _ fuel U0 Gx Gy Dx Dy ltac:(rewrite length_app; cbn [length]; lia) ltac:(lia)) as [Heq Hneq].
  destruct (decide (n1 = m1)) as [E1|Hn1].
  - destruct (Heq E1) as (k & s1 & v1 & Hk & L & [F1 F2 F3 F4]). rewrite L. apply Htail; [done|done|by eapply ev_trans|lia].
  - destruct (Hneq Hn1) as (s' & v' & E & L & U' & Hev'). exists s', v', E. split; [done|]. split; [done|]. by eapply ev_trans.
Qed.
End cells.

Lemma process n : process_noun n.
Proof.
  induction n as [at_|n1 IH1 n2 IH2]; [by apply process_atom|].
  intros m x y st vs es fuel HU Hgx Hgy Hn Hm Hg Hf. destruct fuel as [|fuel]; [cbn in Hf; lia|].
  destruct (decide (val st vs x = val st vs y)) as [E|Hne]; [by apply process_same|].
  pose proof (u_objects _ _ _ HU) as Hob. pose proof (u_ok _ _ _ HU) as Hok.
  destruct (den_cases H rank_of mug_of st Hok _ _ Hob Hn) as [(_ & d & [=] & _)|[(? & ? & _ & _ & _ & [=] & _)|(px & c1 & c2 & Eax & _ & Hpx & [= <- <-] & Hkx & _)]].
  destruct (den_cases H rank_of mug_of st Hok _ _ Hob Hm) as [(Eay & d & Em & _)|[(py & ws & Eay & _ & _ & Em & _)|(py & m1 & m2 & Eay & _ & Hpy & Em & Hky & _)]].
  3: { subst m. split.
    - intros Em. destruct (cells_equal st vs x y es px py n1 n2 m1 m2 HU Hgx Hgy Hne Hpx Hpy Hkx Hky Eax Eay Hn Hm fuel ltac:(by symmetry) IH1 IH2 Hg Hf) as (k & s & v & ?).
      by exists k, s, v.
    - intros Em. apply (cells_unequal st vs x y es px py n1 n2 m1 m2 HU Hne Hpx Hpy Hkx Hky Eax Eay Hn Hm fuel); [by symmetry|done..]. }
  all: assert (Hmc : forall k1 k2, m <> NCell k1 k2) by (by subst m); split; [intros E; by destruct (Hmc n1 n2)|]; intros _; exists st, vs, ((x, y) :: es); rewrite (loop_round _ _ _ _ _ fuel HU);
    destruct (pair_atoms st vs x y (NCell n1 n2) m es HU Hne Hn Hm ltac:(intros ? ? k1 k2 _; apply Hmc)) as [_ H2]; rewrite (run_bind _ _ _ _ _ (H2 (fun E => Hmc n1 n2 (eq_sym E))));
    (split; [done|]); (split; [done|]); by split.
Qed.


(** From the push of the frame to the end of the loop *)
Lemma unify_run vs n m fuel :
  Obj st1 -> Dn st1 (var_a vs) n -> Dn st1 (var_b vs) m -> 2 * Z.of_nat (nodes n) < gap -> (2 * nodes n < fuel)%nat ->
  exists st2 vs' es, (current ← current_frame_bounds; _ ← push_pair a b; unify_loop a b frames current fuel vs) st1 = Ok (vs', st2) /\
    U st2 vs' es /\ ev st1 vs st2 vs' /\ (n = m -> var_a vs' = var_b vs').
Proof.
  intros Hob Hn Hm Hg Hf. pose proof (nodes_pos n) as Hpos. pose proof (inv_arena _ _ _ _ HI1) as Hok. pose proof place1 as Hp. pose proof gap_west as Hgw.
  assert (U0 : U st1 vs []) by (split; try done; [cbn [length]; destruct W; lia|cbn [length]; lia]).
  destruct (x_is_junior_spec st1 Hok lo hi rest 0 1 frames HI1 Hpc1 Halloc) as (_ & Ec & _); [rewrite Hlight; destruct W; lia|done|done|done|].
  rewrite (run_bind _ _ _ _ _ Ec). destruct (u_push st1 vs [] a b U0) as (s & Ep & U1 & Ho & Hs); [by left|by right; left|cbn [length]; lia|].
  rewrite (run_bind _ _ _ _ _ Ep). destruct (push_ev st1 vs [] s U0 Ho Hs) as [Hev Hv].
  assert (Ea : forall t v, val t v a = var_a v) by (intros t v; unfold val; by rewrite Z.eqb_refl).
  assert (Eb : forall t v, val t v b = var_b v) by (intros t v; unfold val; by rewrite (proj2 (Z.eqb_neq b a)), Z.eqb_refl).
  destruct (process n m a b s vs [] fuel U1) as [Heq Hneq]; [by left|by right; left|rewrite Ea; by apply (ev_den _ _ _ _ Hev)|rewrite Eb; by apply (ev_den _ _ _ _ Hev)|cbn [length]; lia|lia|].
  destruct (decide (n = m)) as [E|E].
  - destruct (Heq E) as (k & s' & v' & Hk & L & [F1 F2 F3 F4]). exists s', v', []. rewrite L. destruct (fuel - k)%nat as [|f] eqn:Ef; [lia|].
    cbn [unify_loop]. rewrite (run_bind get _ s' s' s'), (u_empty _ _ _ F1) by done. split; [done|]. split; [done|]. split; [by eapply ev_trans|]. intros _. by rewrite !Ea, Eb in F2.
  - destruct (Hneq E) as (s' & v' & es & L & U' & Hev'). exists s', v', es. split; [done|]. split; [done|]. split; [by eapply ev_trans|done].
Qed.
End unify.
