(* ===== verification/UnifyEquality.v ===== *)
(** The whole of [unifying_equality], with the frame it pushes. *)
From stdpp Require Import base option list numbers gmap.
From Stdlib Require Import ZArith Lia.
From S2P Require Import Prelude Noun NockStack NockStackTheorems NockStackFrames Preserve PreserveTheorems Unify FrameAreas UnifyTheorems UnifyLoop.

(** The allocations of all frames, the junior ones first, and the seniority of an
    address: 0 for the persistent arena, the number of frames for the current frame *)
Definition frame_areas (st : NockStack) (rest : list (Z * Z)) : list (Z * Z) :=
  let lo := alloc_offset st in let hi := edge st (is_west st) rest in
  (Z.min lo hi, Z.max lo hi) :: areas st (is_west st) (frame_offset st) rest.
Definition rank (st : NockStack) (rest : list (Z * Z)) (p : Z) : nat :=
  if in_stack st p then level (frame_areas st rest) (p - start st) else 0%nat.

Section push.
Context (st : NockStack) (lo hi : Z) (rest : list (Z * Z)) (HI : Inv st lo hi rest) (Hpc : pc st = false).
Context (Hroom : RESERVED < Z.abs (alloc_offset st - stack_offset st)).
Local Notation st1 := (pushed st 0).
Local Notation rest1 := ((frame_offset st, stack_offset st) :: rest).

Lemma push_fits : fits FramePush (oriented st) (0 + RESERVED) st lo /\ frame_end st 0 <> stack_offset st.
Proof.
  pose proof (inv_place _ _ _ _ HI) as Hp. rewrite Hpc in Hp. unfold fits, oriented, frame_end, placed, RESERVED in *. destruct (is_west st); lia.
Qed.
Lemma push_runs : frame_push 0 st = Ok (tt, st1).
Proof.
  destruct push_fits as [Hfit _]. destruct (frame_push_spec st lo hi rest HI 0 Hpc) as [[_ E]|[Hn _]]; [unfold word_count, RESERVED; lia|lia|done|done].
Qed.
Lemma pushed_state :
  is_west st1 = negb (is_west st) /\ same_outside (alloc_offset st) (stack_offset st) st st1 /\ Inv st1 (alloc_offset st) (stack_offset st) rest1 /\
  areas st1 (is_west st1) (frame_offset st1) rest1 = frame_areas st rest.
Proof.
  destruct push_fits as [Hfit Hne]. destruct (pushed_inv st lo hi rest HI 0 Hpc ltac:(lia) Hfit Hne) as (Hw & Hs & Ho & HI1).
  split; [done|]. split; [done|]. split; [done|]. pose proof (inv_linked _ _ _ _ HI1) as Hl. unfold frame_base in Hl. change (pc st1) with false in Hl. cbn iota in Hl.
  pose proof (inv_linked _ _ _ _ HI) as Hl0. unfold frame_base in Hl0. rewrite Hpc in Hl0.
  pose proof (linked_lo _ _ _ _ _ _ Hl) as Ea. pose proof (offsets_range _ _ _ _ HI) as (_ & Hao & _).
  cbn [areas]. rewrite Ea, (offset_of_ptr st1 (inv_arena _ _ _ _ HI1)) by done. rewrite Hw, negb_involutive. unfold frame_areas. f_equal.
  destruct (linked_slots st st1 (is_west st) (frame_offset st) lo hi rest) as [_ EA]; [done| |done|done].
  intros o Hin. apply Ho. replace (start st + o - start st) with o by lia. pose proof (inv_place _ _ _ _ HI) as Hp. rewrite Hpc in Hp.
  apply elem_of_app in Hin as [Hin|Hin].
  - apply three_slots in Hin as (slot & Hslot & ->). unfold between, placed, slot_at, RESERVED in *. destruct (is_west st); lia.
  - destruct (chain_apart st (inv_arena _ _ _ _ HI) _ _ _ _ _ Hl0) as [H1 _]. destruct (H1 o Hin) as [_ Hn]. unfold between, placed, RESERVED in *. destruct (is_west st); lia.
Qed.
Lemma rank_pushed : rank_of st1 rest1 = rank st rest.
Proof. destruct pushed_state as (_ & _ & _ & E). unfold rank_of, rank. by rewrite E. Qed.

(** The objects in the pushed state *)
Section objects.
Context (H : gmap Z kind) (mug_of : noun -> Z) (Hob : objects H (rank st rest) mug_of st).
Context (Hown : forall p k i, H !! p = Some k -> 0 <= i < kwords k -> in_stack st (p + i) = true -> owned (frame_areas st rest) (p + i - start st)).

Lemma pushed_owned p k i : H !! p = Some k -> 0 <= i < kwords k -> in_stack st1 (p + i) = true ->
  owned (areas st1 (is_west st1) (frame_offset st1) rest1) (p + i - start st1).
Proof. intros Hk Hi Hin. destruct pushed_state as (_ & _ & _ & ->). by apply (Hown p k i). Qed.
Lemma pushed_same : same_objects H st st1.
Proof.
  destruct pushed_state as (_ & Ho & HI1 & _). intros p k i Hk Hi. apply Ho.
  by apply (object_outside st1 _ _ rest1 HI1 eq_refl eq_refl eq_refl H (S (length rest1)) ltac:(lia) pushed_owned p k i Hk Hi).
Qed.
Lemma pushed_objects : objects H (rank_of st1 rest1) mug_of st1.
Proof. rewrite rank_pushed. apply (objects_same H (rank st rest) mug_of st); [apply HI|done|apply pushed_same|done]. Qed.
Lemma pushed_den w k : den H st w k -> den H st1 w k.
Proof. apply den_same; [done|apply pushed_same|apply Hob]. Qed.
Lemma pushed_gap : gap st1 = Z.abs (alloc_offset st - stack_offset st) - RESERVED.
Proof.
  pose proof (inv_place _ _ _ _ HI) as Hp. rewrite Hpc in Hp. unfold gap. change (alloc_offset st1) with (stack_offset st). change (frame_offset st1) with (frame_end st 0).
  unfold frame_end, placed, RESERVED in *. destruct (is_west st); lia.
Qed.
End objects.
End push.

(** A computation of three parts *)
Lemma bind_run {A B C D} (m : M A) (f : M B) (g : A -> M C) st c st' : (x ← m; _ ← f; g x) st = Ok (c, st') ->
  forall (K : C -> M D), (x ← m; _ ← f; c ← g x; K c) st = K c st'.
Proof.
  intros E K. unfold mbind, M_bind in *. destruct (m st) as [[x s0]| |]; try done. destruct (f s0) as [[y s1]| |]; try done. by rewrite E.
Qed.

(** C39: [unifying_equality] decides equality of nouns.  Let the memory hold disjoint
    objects in the allocations of the frames or in the persistent arena, such that
    cached mugs are right and no cell refers to an object of a frame junior to its own;
    let the two variables denote [n] and [m].  With room on the stack for the pairs of
    subnouns the call returns whether [n = m].  It may rewrite fields and the variables,
    but every word denotes what it denoted before, after a positive answer the variables
    hold one word, still no cell refers to a junior object, and the frame, its offsets
    and every word that is neither in an object nor in the free space are as before. *)
Theorem unifying_equality_correct st lo hi rest H mug_of a b vs n m frames fuel :
  Inv st lo hi rest -> pc st = false -> objects H (rank st rest) mug_of st ->
  (forall p k i, H !! p = Some k -> 0 <= i < kwords k -> in_stack st (p + i) = true -> owned (frame_areas st rest) (p + i - start st)) ->
  readable st a = false /\ address a -> readable st b = false /\ address b -> a <> b ->
  den H st (var_a vs) n -> den H st (var_b vs) m ->
  RESERVED + 2 * Z.of_nat (nodes n) < Z.abs (alloc_offset st - stack_offset st) -> (2 * nodes n < fuel)%nat -> (S (length rest) < frames)%nat ->
  exists vs' st', unifying_equality a b frames fuel vs st = Ok ((bool_decide (n = m), vs'), st') /\
    (exists lo' hi', Inv st' lo' hi' rest) /\
    frame_offset st' = frame_offset st /\ stack_offset st' = stack_offset st /\ alloc_offset st' = alloc_offset st /\ pc st' = false /\
    (forall w k, den H st w k -> den H st' w k) /\ den H st' (var_a vs') n /\ den H st' (var_b vs') m /\ (n = m -> var_a vs' = var_b vs') /\
    objects H (rank st rest) mug_of st' /\
    (forall p, (forall q k i, H !! q = Some k -> 0 <= i < kwords k -> q + i <> p) ->
       ~ between (alloc_offset st) (stack_offset st) (p - start st) -> word_at st' p = word_at st p).
Proof.
  intros HI Hpc Hob Hown Ha Hb Hab Hn Hm Hroom Hf Hfr. pose proof (inv_arena _ _ _ _ HI) as Hok. unfold unifying_equality.
  assert (Hsame : exists lo' hi', Inv st lo' hi' rest) by eauto.
  destruct (Z.eqb_spec (var_a vs) (var_b vs)) as [E|Hne].
  { assert (n = m) as <- by (rewrite <- E in Hm; by apply (den_unique H st Hok (var_a vs))). exists vs, st. rewrite bool_decide_eq_true_2 by done. by split_and!. }
  destruct (mug_test H _ mug_of st _ _ _ _ Hok Hob Hn Hm) as (d & Ed & Hd).
  rewrite (run_bind _ _ _ _ _ Ed). destruct d.
  { pose proof (Hd eq_refl) as Hnm. exists vs, st. rewrite bool_decide_eq_false_2 by done. by split_and!. }
  assert (Hroom3 : RESERVED < Z.abs (alloc_offset st - stack_offset st)) by lia.
  destruct (pushed_state st lo hi rest HI Hpc Hroom3) as (_ & Ho & HI1 & _). pose proof (rank_pushed st lo hi rest HI Hpc Hroom3) as Erank.
  rewrite (run_bind _ _ _ _ _ (push_runs st lo hi rest HI Hpc Hroom3)).
  pose proof (pushed_objects st lo hi rest HI Hpc Hroom3 H mug_of Hob Hown) as Hob1. pose proof (pushed_den st lo hi rest HI Hpc Hroom3 H mug_of Hob Hown) as Hd1.
  pose proof (pushed_gap st lo hi rest HI Hpc Hroom3) as Hgap. pose proof (pushed_owned st lo hi rest HI Hpc Hroom3 H Hown) as Hown1.
  set (st1 := pushed st 0) in *. set (rest1 := (frame_offset st, stack_offset st) :: rest) in *.
  assert (Hlen : (length rest1 < frames)%nat) by (cbn [rest1 length]; lia).
  destruct (unify_run st1 _ _ rest1 HI1 eq_refl eq_refl eq_refl ltac:(done) H mug_of a b frames Hlen Ha Hb Hab Hown1 vs n m fuel Hob1 (Hd1 _ _ Hn) (Hd1 _ _ Hm) ltac:(lia) Hf)
    as (st2 & vs' & es & E & HU & Hev & Heq).
  destruct (u_inv st1 _ _ rest1 HI1 eq_refl eq_refl eq_refl H mug_of a b frames Hlen Hown1 st2 vs' es HU) as [HI2 _].
  destruct (frame_pop_spec _ _ _ _ HI2 _ _ _ eq_refl) as (Ep & _ & HI3). set (st3 := set_offsets (frame_offset st) (stack_offset st) (alloc_offset st) false st2) in *.
  rewrite (bind_run _ _ _ _ _ _ E), (run_bind _ _ _ _ _ Ep).
  assert (Hsp3 : same_space st st3).
  { destruct (u_space _ _ _ _ _ _ _ _ _ _ _ HU) as [(E1 & E2 & E3) E4]. repeat split; done. }
  assert (Hd3 : forall w k, den H st2 w k -> den H st3 w k) by (intros w k; apply den_same; [done|by intros ? ? ? _ _|apply Hob]).
  assert (Hva : den H st3 (var_a vs') n).
  { apply Hd3. pose proof (ev_val _ _ _ _ _ _ _ Hev a n ltac:(by left)) as Hv. unfold val in Hv. rewrite Z.eqb_refl in Hv. auto. }
  assert (Hvb : den H st3 (var_b vs') m).
  { apply Hd3. pose proof (ev_val _ _ _ _ _ _ _ Hev b m ltac:(by right; left)) as Hv. unfold val in Hv.
    rewrite (proj2 (Z.eqb_neq b a)), Z.eqb_refl in Hv by congruence. auto. }
  assert (Hok3 : arena_ok st3) by (eapply arena_ok_ext; [apply Hsp3|done]).
  exists vs', st3. split.
  { unfold mret, M_ret. do 3 f_equal. destruct (Z.eqb_spec (var_a vs') (var_b vs')) as [Ev|Ev].
    - rewrite bool_decide_eq_true_2; [done|]. apply (den_unique H st3 Hok3 (var_a vs')); [done|]. by rewrite Ev.
    - rewrite bool_decide_eq_false_2; [done|]. auto. }
  split; [done|]. split_and!; try done.
  - intros w k Hk. apply Hd3, (ev_den _ _ _ _ _ _ _ Hev). auto.
  - rewrite <- Erank. apply (objects_same H _ mug_of st2); [apply HI2|done|by intros ? ? ? _ _|]. apply (u_objects _ _ _ _ _ _ _ _ _ _ _ HU).
  - intros p Hp1 Hp2. change (word_at st3 p) with (word_at st2 p).
    rewrite (u_rest _ _ _ _ _ _ _ _ _ _ _ HU p Hp1 Hp2). by apply Ho.
Qed.

(** Two copies of [[[1 2] y]] in a frame, with [y] an atom of two words *)
Definition two_words : M Z := y ← new_raw_mut 2; _ ← write y.2 5; _ ← write (y.2 + 1) 7; mret y.1.
Definition copies_code : M (Z * Z) :=
  x ← Cell_new 1 2; y ← two_words; p ← Cell_new x y;
  x ← Cell_new 1 2; y ← two_words; q ← Cell_new x y; mret (p, q).
Definition copies_state : NockStack := Eval vm_compute in after (copies_code example_frame) blank_stack.
Definition copies_vars : vars :=
  Eval vm_compute in match copies_code example_frame with Ok ((p, q), _) => {| var_a := p; var_b := q |} | _ => {| var_a := 0; var_b := 0 |} end.
Definition copies_list : list (Z * kind) := [(519, KCell); (522, KInd 2); (526, KCell); (529, KCell); (532, KInd 2); (536, KCell)].
Definition copies_heap : gmap Z kind := list_to_map copies_list.
Definition copies_rest : list (Z * Z) := [(5, 7)].
Definition copies_noun : noun := NCell (NCell (D 1) (D 2)) (NAtom (Indirect [5; 7])).

Lemma copies_lookup p k : copies_heap !! p = Some k -> (p, k) ∈ copies_list.
Proof. apply elem_of_list_to_map_2. Qed.
Ltac each_object Hk := apply copies_lookup in Hk; unfold copies_list in Hk; rewrite !elem_of_cons, elem_of_nil in Hk;
  repeat (destruct Hk as [Hk|Hk]; [injection Hk as -> ->|]); [..|by destruct Hk].
Lemma copies_stack : Inv copies_state 64 7 copies_rest /\ pc copies_state = false.
Proof.
  split; [|done]. split; [split; vm_compute; congruence || done|vm_compute; repeat split; congruence|].
  split; [done|]. split; [done|]. split; [done|]. split; [done|]. exists 0, 64. split; [vm_compute; repeat split; congruence|vm_compute; repeat split; congruence].
Qed.
Lemma copies_points t v q : is_tag t -> points copies_state t v q -> v = word t q /\ 512 <= q < 576.
Proof.
  intros Ht [Hr [->|(ar & o & Ea & _)]]; [|done]. split; [done|]. unfold readable, in_stack in Hr. cbn [pma copies_state start size] in Hr. lia.
Qed.
Lemma copies_direct d : 0 <= d <= 2 -> den copies_heap copies_state d (D d).
Proof. intros Hd. apply den_direct. rewrite DIRECT_MAX_val. lia. Qed.
Lemma copies_den p q r : (p, q, r) = (526, 519, 522) \/ (p, q, r) = (536, 529, 532) -> den copies_heap copies_state (word CEL p) copies_noun.
Proof.
  intros Hpqr. destruct Hpqr as [[= -> -> ->]|[= -> -> ->]].
  - apply den_cell with 526; [by split; [|left]|done| |].
    + apply (den_cell _ _ _ 519); [by split; [|left]|done|by apply (copies_direct 1)|by apply (copies_direct 2)].
    + apply (den_indirect _ _ _ 522); [by split; [|left]|done|]. intros [|[|i]] z [= <-]; done.
  - apply den_cell with 536; [by split; [|left]|done| |].
    + apply (den_cell _ _ _ 529); [by split; [|left]|done|by apply (copies_direct 1)|by apply (copies_direct 2)].
    + apply (den_indirect _ _ _ 532); [by split; [|left]|done|]. intros [|[|i]] z [= <-]; done.
Qed.
Lemma copies_rank p : 519 <= p < 539 -> rank copies_state copies_rest p = 2%nat.
Proof.
  intros Hp. unfold rank. change (frame_areas copies_state copies_rest) with [(7, 27); (64, 64)]. unfold in_stack. cbn [start size copies_state].
  rewrite (proj2 (Z.leb_le 512 p)), (proj2 (Z.ltb_lt p (512 + 64))) by lia. cbn [andb level in_area fst snd].
  unfold in_area. cbn [fst snd]. by rewrite (proj2 (Z.leb_le 7 (p - 512))), (proj2 (Z.ltb_lt (p - 512) 27)) by lia.
Qed.
Lemma copies_rank_le p : (rank copies_state copies_rest p <= 2)%nat.
Proof. unfold rank. destruct (in_stack copies_state p); [apply level_le|lia]. Qed.
Lemma copies_objects : objects copies_heap (rank copies_state copies_rest) (fun _ => 0) copies_state.
Proof.
  split.
  - intros p k i Hk Hi. unfold readable, in_stack. cbn [start size copies_state]. each_object Hk; cbn in Hi; apply orb_true_iff; left; lia.
  - intros p k Hk. each_object Hk; cbn; lia.
  - intros p n Hk. apply copies_lookup in Hk. unfold copies_list in Hk. rewrite !elem_of_cons, elem_of_nil in Hk. repeat destruct Hk as [Hk|Hk]; try discriminate Hk; try done; by injection Hk as -> ->.
  - intros p k p' k' i i' Hk Hk' Hi Hi' E. each_object Hk; each_object Hk'; cbn in Hi, Hi'; lia.
  - intros p j Hk Hj t q _ _. rewrite (copies_rank p); [apply copies_rank_le|]. apply copies_lookup in Hk. unfold copies_list in Hk. rewrite !elem_of_cons, elem_of_nil in Hk.
    repeat destruct Hk as [Hk|Hk]; try discriminate Hk; try done; injection Hk as ->; lia.
  - intros w t p n Ht Hp Hn Hmug. destruct Hmug. assert (exists k, copies_heap !! p = Some k) as [k Hk].
    { destruct (copies_stack) as [HI _]. pose proof (inv_arena _ _ _ _ HI) as Hok. inversion Hn as [d Hd|? p' ws Hp' Hk'|? p' ? ? Hp' Hk']; subst.
      - destruct (points_not_direct copies_state Hok t _ p Ht Hp Hd).
      - destruct (points_unique copies_state Hok _ _ _ _ _ (or_introl eq_refl) Ht Hp' Hp) as [_ <-]. eauto.
      - destruct (points_unique copies_state Hok _ _ _ _ _ (or_intror eq_refl) Ht Hp' Hp) as [_ <-]. eauto. }
    each_object Hk; reflexivity.
Qed.
Lemma unifying_equality_witness :
  exists vs' st', unifying_equality 5 6 4 20 copies_vars copies_state = Ok ((true, vs'), st') /\ var_a vs' = var_b vs' /\
    den copies_heap st' (var_a vs') copies_noun.
Proof.
  destruct copies_stack as [HI Hpc].
  destruct (unifying_equality_correct copies_state 64 7 copies_rest copies_heap (fun _ => 0) 5 6 copies_vars copies_noun copies_noun 4 20 HI Hpc copies_objects)
    as (vs' & st' & E & _ & _ & _ & _ & _ & _ & Hva & _ & Heq & _).
  - intros p k i Hk Hi _. exists (7, 27). split; [left|]. unfold in_area. cbn [fst snd start copies_state]. each_object Hk; cbn in Hi; lia.
  - split; [reflexivity|split; [discriminate|reflexivity]].
  - split; [reflexivity|split; [discriminate|reflexivity]].
  - discriminate.
  - exact (copies_den 526 519 522 (or_introl eq_refl)).
  - exact (copies_den 536 529 532 (or_intror eq_refl)).
  - reflexivity.
  - vm_compute. lia.
  - vm_compute. lia.
  - exists vs', st'. split; [exact E|]. split; [by apply Heq|exact Hva].
Defined.
