(* ===== verification/JetsSets.v ===== *)
(** Jets of sorting and sets: jets/sort.rs and jets/set.rs, on the memory of
    allocated nouns of Mug, since these jets compare pointers ([raw_equals]), write
    cached mugs and allocate cells.

    A computation takes the memory and returns a value and the memory, an error, or
    panics; a missing allocation or too little fuel is a panic here. *)
From stdpp Require Import base option list numbers.
From Stdlib Require Import ZArith Lia.
From S2P Require Import Prelude Noun Interp Jets Mug.
Local Open Scope Z_scope.

Global Instance ptr_eq_dec : EqDecision ptr.
Proof. solve_decision. Defined.

(** * Computations on the memory *)

Definition J (A : Type) : Type := memory -> outcome JetErr (A * memory).
Global Instance J_ret : MRet J := fun A a m => Ok (a, m).
Global Instance J_bind : MBind J := fun A B f x m =>
  match x m with Ok (a, m) => f a m | Err e => Err e | Panic => Panic end.
Definition throw {A} (e : JetErr) : J A := fun _ => Err e.
(** [unwrap_or_else(|err| panic!(..))] *)
Definition unwrap {A} (x : J A) : J A := fun m => match x m with Err _ => Panic | o => o end.
(** [match x { Ok(n) => k(n), Err(_) => e }] *)
Definition or_else {A B} (x : J A) (e : J B) (k : A -> J B) : J B := fun m =>
  match x m with Ok (a, m) => k a m | Err _ => e m | Panic => Panic end.

(** * Nouns in memory *)

Definition raw_equals (a b : ptr) : bool := bool_decide (a = b).
Definition as_either_atom_cell (p : ptr) : J (atom + ptr * ptr) :=
  match p with
  | PDirect d => mret (inl (Direct d))
  | PAlloc l => fun m =>
      match m !! l with
      | None => Panic
      | Some a => Ok (match contents a with BIndirect ws => inl (Indirect ws) | BCell h t => inr (h, t) end, m)
      end
  end.
Definition as_cell (p : ptr) : J (ptr * ptr) :=
  x ← as_either_atom_cell p;
  match x with inl _ => throw (JetFail BAIL_EXIT) | inr c => mret c end.

(** [mem_slot] on the cell [p], the index running from the highest bit of the axis down *)
Fixpoint slot_loop (axis : Z) (idx : nat) (p : ptr) : J ptr :=
  match idx with
  | O => mret p
  | S idx => '(h, t) ← as_cell p; slot_loop axis idx (if bit_at axis (Z.of_nat idx) then t else h)
  end.
Definition mem_slot (p : ptr) (axis : Z) : J ptr :=
  if axis =? 0 then throw (JetFail BAIL_EXIT)
  else slot_loop axis (Z.to_nat (63 - leading_zeros64 axis)) p.

(** [T(stack, &[a, b])]: a fresh cell without a cached mug *)
Definition new_cell (head tail : ptr) : J ptr := fun m =>
  Ok (PAlloc (length m), m ++ [{| metadata := 0; contents := BCell head tail |}]).

Definition YES : ptr := PDirect 0.
Definition NO : ptr := PDirect 1.
Definition loob (b : bool) : ptr := if b then YES else NO.

(** * sort.rs *)

Fixpoint dor (fuel : nat) (a b : ptr) : J ptr :=
  match fuel with
  | O => fun _ => Panic
  | S fuel =>
      if raw_equals a b then mret YES
      else
        x ← as_either_atom_cell a; y ← as_either_atom_cell b;
        match x, y with
        | inl atom_a, inl atom_b => mret (loob (lth_b atom_a atom_b))
        | inl _, inr _ => mret YES
        | inr _, inl _ => mret NO
        | inr _, inr _ =>
            or_else (mem_slot a 2) (mret NO) (fun a_head =>
            b_head ← unwrap (mem_slot b 2);
            a_tail ← unwrap (mem_slot a 3);
            b_tail ← unwrap (mem_slot b 3);
            if raw_equals a_head b_head then dor fuel a_tail b_tail else dor fuel a_head b_head)
        end
  end.

Definition mug_data (fuel : nat) (p : ptr) : J Z := fun m =>
  match mug_u32 fuel m p with Some (m, x) => Ok (x, m) | None => Panic end.

Definition gor (fuel : nat) (a b : ptr) : J ptr :=
  c ← mug_data fuel a; d ← mug_data fuel b;
  match c ?= d with Gt => mret NO | Lt => mret YES | Eq => dor fuel a b end.
Definition mor (fuel : nat) (a b : ptr) : J ptr :=
  c ← mug_data fuel a; d ← mug_data fuel b;
  e ← mug_data fuel (PDirect c); f ← mug_data fuel (PDirect d);
  match e ?= f with Gt => mret NO | Lt => mret YES | Eq => dor fuel a b end.

Definition sample_pair (subject : ptr) : J (ptr * ptr) :=
  sam ← mem_slot subject 6; a ← mem_slot sam 2; b ← mem_slot sam 3; mret (a, b).
Definition jet_dor (fuel : nat) (subject : ptr) : J ptr := '(a, b) ← sample_pair subject; dor fuel a b.
Definition jet_gor (fuel : nat) (subject : ptr) : J ptr := '(a, b) ← sample_pair subject; gor fuel a b.
Definition jet_mor (fuel : nat) (subject : ptr) : J ptr := '(a, b) ← sample_pair subject; mor fuel a b.

(** * set.rs *)

Definition is_yes (noun : ptr) : bool := raw_equals noun YES.
Definition decompose (node : ptr) : J (ptr * ptr * ptr) :=
  '(head, tail) ← as_cell node; '(l, r) ← as_cell tail; mret (head, l, r).
Definition make_node (value l r : ptr) : J ptr := tail ← new_cell l r; new_cell value tail.

(** The first loop of [put_iter]: [None] when the element is found *)
Fixpoint put_descend (fuel : nat) (elem current : ptr) (path : list (ptr * bool)) : J (option (list (ptr * bool))) :=
  match fuel with
  | O => fun _ => Panic
  | S fuel' =>
      if raw_equals current (PDirect 0) then mret (Some path)
      else
        '(value, l, r) ← decompose current;
        if raw_equals elem value then mret None
        else
          g ← gor fuel elem value;
          let go_left := is_yes g in
          put_descend fuel' elem (if go_left then l else r) ((current, go_left) :: path)
  end.
(** One round of the second loop, on the popped entry *)
Definition put_above (fuel : nat) (node : ptr) (went_left : bool) (new_subtree : ptr) : J ptr :=
  '(value, l, r) ← decompose node;
  '(c_val, c_left, c_right) ← decompose new_subtree;
  above ← mor fuel value c_val;
  if went_left then
    if is_yes above then make_node value new_subtree r
    else new_a ← make_node value c_right r; make_node c_val c_left new_a
  else
    if is_yes above then make_node value l new_subtree
    else new_a ← make_node value l c_left; make_node c_val new_a c_right.
Fixpoint put_ascend (fuel : nat) (path : list (ptr * bool)) (new_subtree : ptr) : J ptr :=
  match path with
  | [] => mret new_subtree
  | (node, went_left) :: path => s ← put_above fuel node went_left new_subtree; put_ascend fuel path s
  end.
Definition put_iter (fuel : nat) (root elem : ptr) : J ptr :=
  if raw_equals root (PDirect 0) then make_node elem (PDirect 0) (PDirect 0)
  else
    path ← put_descend fuel elem root [];
    match path with
    | None => mret root
    | Some path => new_subtree ← make_node elem (PDirect 0) (PDirect 0); put_ascend fuel path new_subtree
    end.

Definition ord_cmp (fuel : nat) (a b : ptr) : J comparison :=
  if raw_equals a b then mret Eq
  else g ← gor fuel b a; mret (if is_yes g then Lt else Gt).
Fixpoint has_loop (fuel : nat) (tree elem : ptr) : J bool :=
  match fuel with
  | O => fun _ => Panic
  | S fuel' =>
      if raw_equals tree (PDirect 0) then mret false
      else
        '(val, l, r) ← decompose tree;
        o ← ord_cmp fuel elem val;
        match o with
        | Eq => mret true
        | Lt => has_loop fuel' l elem
        | Gt => has_loop fuel' r elem
        end
  end.

(** The element and the set; a core without them is left to Nock. *)
Definition set_sample (subject : ptr) : J (ptr * ptr) :=
  elem ← mem_slot subject 6;
  or_else (mem_slot subject 7) (throw Punt) (fun parent =>
  or_else (mem_slot parent 6) (throw Punt) (fun set => mret (elem, set))).
Definition jet_put (fuel : nat) (subject : ptr) : J ptr :=
  '(elem, set) ← set_sample subject; put_iter fuel set elem.
Definition jet_has (fuel : nat) (subject : ptr) : J ptr :=
  '(elem, set) ← set_sample subject; present ← has_loop fuel set elem; mret (loob present).

(** * [find] of list.rs *)

Inductive probe := Missing | Found | Mismatch.
(** The inner loop, at one position of the haystack *)
Fixpoint find_inner (fuel : nat) (n h : ptr) : J probe :=
  match fuel with
  | O => fun _ => Panic
  | S fuel =>
      if raw_equals n (PDirect 0) || raw_equals h (PDirect 0) then mret Missing
      else
        '(n_head, n_tail) ← as_cell n;
        '(h_head, h_tail) ← as_cell h;
        if raw_equals n_head h_head then
          if raw_equals n_tail (PDirect 0) then mret Found else find_inner fuel n_tail h_tail
        else mret Mismatch
  end.
Fixpoint find_outer (fuel : nat) (nedl hstk : ptr) (i : Z) : J ptr :=
  match fuel with
  | O => fun _ => Panic
  | S fuel' =>
      r ← find_inner fuel nedl hstk;
      match r with
      | Missing => mret (PDirect 0)
      | Found => new_cell (PDirect 0) (PDirect i)
      | Mismatch => '(_, t) ← as_cell hstk; find_outer fuel' nedl t (i + 1)
      end
  end.
Definition find (fuel : nat) (nedl hstk : ptr) : J ptr := find_outer fuel nedl hstk 0.
Definition jet_find (fuel : nat) (subject : ptr) : J ptr := '(nedl, hstk) ← sample_pair subject; find fuel nedl hstk.
