(* ===== verification/JetsSetsTheorems.v ===== *)
(** The jets of sorting and sets against the orders on nouns and against treaps.

    [hoon_dor], [hoon_gor] and [hoon_mor] are the orders of hoon-138.hoon; [mug_gor] and
    [mug_mor] are the same with the mug of mug.rs, which differs from Hoon's on nouns
    whose first hash is zero.  The jets compute [hoon_dor], [mug_gor] and [mug_mor] as
    long as equal parts of their arguments are the same words in memory ([unified]), and
    not in general, since they compare pointers.  On such nouns [put_iter] is the
    insertion of Treap for [mug_gor] and [mug_mor]. *)
From stdpp Require Import base option list numbers.
From Stdlib Require Import ZArith Lia.
From S2P Require Import Prelude Noun Interp Jets JetsTheorems Mug MugTheorems Treap JetsSets.
Local Open Scope Z_scope.

(** * The orders *)

Fixpoint hoon_dor (a b : noun) : bool :=
  if decide (a = b) then true
  else match a, b with
       | NAtom x, NAtom y => atom_val x <? atom_val y
       | NAtom _, NCell _ _ => true
       | NCell _ _, NAtom _ => false
       | NCell h t, NCell h' t' => if decide (h = h') then hoon_dor t t' else hoon_dor h h'
       end.
(** The mug of mug.rs, and the orders by it *)
Definition noun_mug (n : noun) : Z := default 0 (mug_of n).
Definition mug_gor (a b : noun) : bool :=
  match noun_mug a ?= noun_mug b with Gt => false | Lt => true | Eq => hoon_dor a b end.
Definition mug_mor (a b : noun) : bool :=
  match noun_mug (D (noun_mug a)) ?= noun_mug (D (noun_mug b)) with Gt => false | Lt => true | Eq => hoon_dor a b end.

(** [mum], [mug], [gor] and [mor] of hoon-138.hoon: a hash that folds to zero is taken
    again with the next seed, where [mum_u32] takes it again with the same one. *)
Definition fold_hash (haz : Z) : Z := Z.lxor (Z.shiftr haz 31) (Z.land haz 0x7FFFFFFF).
Fixpoint hoon_mum_loop (n : nat) (syd fal : Z) (key : atom) (wyd : Z) : option Z :=
  match n with
  | O => Some fal
  | S n =>
      haz ← muk_u32 syd wyd key;
      if fold_hash haz =? 0 then hoon_mum_loop n (syd + 1) fal key wyd else Some (fold_hash haz)
  end.
Definition hoon_mum (syd fal : Z) (key : atom) : option Z :=
  wyd ← met3_usize key; hoon_mum_loop 8 syd fal key wyd.
Fixpoint hoon_mug_of (n : noun) : option Z :=
  match n with
  | NAtom a => hoon_mum 0xCAFEBABE 0x7FFF a
  | NCell h t =>
      hm ← hoon_mug_of h; tm ← hoon_mug_of t;
      hoon_mum 0xDEADBEEF 0xFFFE (Direct (Z.lor hm (Z.shiftl tm 32)))
  end.
Definition hoon_mug (n : noun) : Z := default 0 (hoon_mug_of n).
Definition hoon_gor (a b : noun) : bool :=
  match hoon_mug a ?= hoon_mug b with Gt => false | Lt => true | Eq => hoon_dor a b end.
Definition hoon_mor (a b : noun) : bool :=
  match hoon_mug (D (hoon_mug a)) ?= hoon_mug (D (hoon_mug b)) with Gt => false | Lt => true | Eq => hoon_dor a b end.

(** The first hash of the key does not fold to zero. *)
Definition first_hash (syd : Z) (key : atom) : option Z := wyd ← met3_usize key; haz ← muk_u32 syd wyd key; Some (fold_hash haz).
Definition hashes (syd : Z) (key : atom) : bool := match first_hash syd key with Some h => negb (h =? 0) | None => false end.
(** Nor does that of any part of the noun. *)
Fixpoint first_try (n : noun) : bool :=
  match n with
  | NAtom a => hashes 0xCAFEBABE a
  | NCell h t =>
      first_try h && first_try t &&
      match mug_of h, mug_of t with
      | Some hm, Some tm => hashes 0xDEADBEEF (Direct (Z.lor hm (Z.shiftl tm 32)))
      | _, _ => false
      end
  end.

Lemma hashes_mum syd fal key : hashes syd key = true -> hoon_mum syd fal key = mum_u32 syd fal key.
Proof.
  unfold hashes, first_hash, hoon_mum, mum_u32. destruct (met3_usize key) as [wyd|]; [|done]. cbn [mbind option_bind].
  cbn [hoon_mum_loop mum_loop]. destruct (muk_u32 syd wyd key) as [haz|]; [|done]. cbn [mbind option_bind].
  unfold fold_hash. by intros ->%negb_true_iff.
Qed.
Lemma first_try_mug_of n : first_try n = true -> hoon_mug_of n = mug_of n.
Proof.
  induction n as [a|h IHh t IHt]; cbn [first_try hoon_mug_of mug_of]; [apply hashes_mum|].
  intros [[Hh Ht]%andb_true_iff Hc]%andb_true_iff. rewrite IHh, IHt by done.
  destruct (mug_of h) as [hm|], (mug_of t) as [tm|]; try done. cbn [mbind option_bind]. by apply hashes_mum.
Qed.
Lemma first_try_mug n : first_try n = true -> hoon_mug n = noun_mug n.
Proof. intros H. unfold hoon_mug, noun_mug. by rewrite first_try_mug_of. Qed.
Lemma first_try_gor a b : first_try a = true -> first_try b = true -> mug_gor a b = hoon_gor a b.
Proof. intros Ha Hb. unfold mug_gor, hoon_gor. rewrite (first_try_mug _ Ha), (first_try_mug _ Hb). reflexivity. Qed.
Lemma first_try_mor a b :
  first_try a = true -> first_try b = true -> first_try (D (noun_mug a)) = true -> first_try (D (noun_mug b)) = true ->
  mug_mor a b = hoon_mor a b.
Proof.
  intros Ha Hb Ha' Hb'. unfold mug_mor, hoon_mor.
  rewrite (first_try_mug _ Ha), (first_try_mug _ Hb), (first_try_mug _ Ha'), (first_try_mug _ Hb'). reflexivity.
Qed.

(** The strict part of an order *)
Definition strict (le : noun -> noun -> bool) (a b : noun) : bool := negb (bool_decide (a = b)) && le a b.

Lemma strict_ne le a b : a <> b -> strict le a b = le a b.
Proof. intros H. unfold strict. by rewrite bool_decide_false. Qed.
Lemma strict_true le a b : strict le a b = true <-> a <> b /\ le a b = true.
Proof. unfold strict. destruct (bool_decide_reflect (a = b)); cbn; naive_solver. Qed.

Lemma dor_cells h t h' t' :
  strict hoon_dor (NCell h t) (NCell h' t') = if decide (h = h') then strict hoon_dor t t' else strict hoon_dor h h'.
Proof.
  unfold strict. cbn [hoon_dor]. repeat case_decide; simplify_eq; repeat case_bool_decide; simplify_eq; cbn; auto.
Qed.
Lemma dor_atoms x y : strict hoon_dor (NAtom x) (NAtom y) = negb (bool_decide (x = y)) && (atom_val x <? atom_val y).
Proof.
  unfold strict. cbn [hoon_dor]. case_decide; simplify_eq; repeat case_bool_decide; simplify_eq; cbn; auto.
Qed.

Lemma dor_irrefl a : strict hoon_dor a a = false.
Proof. unfold strict. by rewrite bool_decide_true. Qed.
Lemma dor_trans a b c :
  strict hoon_dor a b = true -> strict hoon_dor b c = true -> strict hoon_dor a c = true.
Proof.
  revert b c. induction a as [x|h IHh t IHt]; intros [y|h' t'] [z|h'' t'']; try done.
  - rewrite !dor_atoms, !andb_true_iff, !Z.ltb_lt. intros [_ H1] [_ H2].
    split; [|lia]. case_bool_decide; subst; [lia|done].
  - rewrite !dor_cells. repeat case_decide; subst; eauto; try done.
    intros H1 H2. pose proof (IHh _ _ H1 H2) as H3. by rewrite dor_irrefl in H3.
Qed.
Lemma dor_total a b : wf_noun a -> wf_noun b -> a <> b -> strict hoon_dor a b = true \/ strict hoon_dor b a = true.
Proof.
  revert b. induction a as [x|h IHh t IHt]; intros [y|h' t'] Ha Hb Hne; [..|by right|].
  - rewrite !dor_atoms, !bool_decide_false by congruence. cbn [negb andb]. rewrite !Z.ltb_lt.
    destruct (Z.lt_trichotomy (atom_val x) (atom_val y)) as [?|[E|?]]; auto.
    destruct Hne. f_equal. by apply atom_val_inj.
  - by left.
  - destruct Ha, Hb. rewrite !dor_cells. destruct (decide (h = h')) as [<-|Hh].
    + rewrite !decide_True by done. apply IHt; [done..|congruence].
    + destruct (decide (h' = h)) as [->|_]; [done|]. by apply IHh.
Qed.
Global Instance dor_order : StrictOrder wf_noun (strict hoon_dor).
Proof. split; eauto using dor_irrefl, dor_trans, dor_total. Qed.

(** An order that compares a number first *)
Definition first_by (f : noun -> Z) (le : noun -> noun -> bool) (a b : noun) : bool :=
  match f a ?= f b with Gt => false | Lt => true | Eq => le a b end.
Lemma first_by_strict f le a b : strict (first_by f le) a b = first_by f (strict le) a b.
Proof.
  unfold strict, first_by. case_bool_decide as E; cbn; [subst; by rewrite Z.compare_refl|].
  by destruct (_ ?= _).
Qed.
Lemma first_by_true f lt a b : first_by f lt a b = true <-> f a < f b \/ (f a = f b /\ lt a b = true).
Proof. unfold first_by. destruct (Z.compare_spec (f a) (f b)); intuition (try lia); congruence. Qed.
Lemma first_by_order f dom le :
  StrictOrder dom (strict le) -> StrictOrder dom (strict (first_by f le)).
Proof.
  intros Hle. split.
  - intros a Ha. rewrite first_by_strict. unfold first_by. rewrite Z.compare_refl. by apply so_irrefl.
  - intros a b c Ha Hb Hc. rewrite !first_by_strict, !first_by_true.
    intros [H1|[E1 H1]] [H2|[E2 H2]]; [left; lia..|right]. split; [lia|]. by apply (so_trans a b c).
  - intros a b Ha Hb Hne. rewrite !first_by_strict, !first_by_true.
    destruct (Z.lt_trichotomy (f a) (f b)) as [?|[E|?]]; [auto| |auto].
    destruct (so_total a b Ha Hb Hne); auto.
Qed.
Global Instance gor_order : StrictOrder wf_noun (strict mug_gor).
Proof. apply (first_by_order noun_mug), _. Qed.
Global Instance mor_order : StrictOrder wf_noun (strict mug_mor).
Proof. apply (first_by_order (fun n => noun_mug (D (noun_mug n)))), _. Qed.

(** * The memory *)

Definition valid (m : memory) (p : ptr) : Prop :=
  match p with PDirect _ => True | PAlloc l => (l < length m)%nat end.
(** No cell refers beyond the memory. *)
Definition closed (m : memory) : Prop :=
  forall l a h t, m !! l = Some a -> contents a = BCell h t -> valid m h /\ valid m t.
(** Allocations stay, up to their caches. *)
Definition keeps (m m' : memory) : Prop :=
  forall l a, m !! l = Some a -> exists a', m' !! l = Some a' /\ contents a' = contents a.

Global Instance keeps_preorder : PreOrder keeps.
Proof.
  split; [intros m l a H; eauto|]. intros m1 m2 m3 H12 H23 l a H.
  destruct (H12 l a H) as (b & Hb & E1). destruct (H23 l b Hb) as (c & Hc & E2). exists c. split; congruence.
Qed.
Lemma upd_keeps m m' : upd m m' -> keeps m m'.
Proof. intros Hu l a Hl. destruct (Forall2_lookup_l _ _ _ _ _ Hu Hl) as (a' & Hl' & Hc & _). eauto. Qed.
Lemma keeps_stands m m' p n : keeps m m' -> stands m p n -> stands m' p n.
Proof.
  intros Hk. induction 1 as [|l a ws Hl Hc|l a head tail h t Hl Hc]; [by constructor|..];
    destruct (Hk l a Hl) as (a' & Hl' & Hc'); rewrite Hc in Hc'; by econstructor.
Qed.
Lemma keeps_length m m' : keeps m m' -> (length m <= length m')%nat.
Proof.
  intros Hk. destruct (length m) as [|k] eqn:E; [lia|]. destruct (lookup_lt_is_Some_2 m k ltac:(lia)) as [a Ha].
  destruct (Hk k a Ha) as (a' & Ha' & _). apply lookup_lt_Some in Ha'. lia.
Qed.
Lemma keeps_valid m m' p : keeps m m' -> valid m p -> valid m' p.
Proof. intros Hk%keeps_length. destruct p; cbn; [done|lia]. Qed.
Lemma stands_valid m p n : stands m p n -> valid m p.
Proof. destruct 1; cbn; [done|by eapply lookup_lt_Some..]. Qed.

Record heap_ok (m : memory) : Prop := { heap_caches : caches_ok m; heap_closed : closed m }.

Lemma upd_closed m m' : upd m m' -> closed m -> closed m'.
Proof.
  intros Hu Hcl l a h t Ha Hc. destruct (Forall2_lookup_r _ _ _ _ _ Hu Ha) as (b & Hb & Hbc & _).
  rewrite Hc in Hbc. destruct (Hcl l b h t Hb (eq_sym Hbc)). split; apply (keeps_valid m); auto using upd_keeps.
Qed.

Lemma new_cell_stands_inv m a p n :
  closed m -> valid m p -> stands (m ++ [a]) p n -> stands m p n.
Proof.
  intros Hcl Hv Hs. induction Hs as [d|l b ws Hl Hc|l b head tail h t Hl Hc Hh IHh Ht IHt]; cbn in Hv; [by constructor|..];
    rewrite lookup_app_l in Hl by done; [by econstructor|].
  destruct (Hcl l b head tail Hl Hc). econstructor; eauto.
Qed.
Lemma new_cell_ok m h t :
  heap_ok m -> valid m h -> valid m t ->
  exists m', new_cell h t m = Ok (PAlloc (length m), m') /\ heap_ok m' /\ keeps m m' /\ length m' = S (length m) /\
    exists a, m' !! length m = Some a /\ contents a = BCell h t.
Proof.
  intros [Hca Hcl] Hh Ht. eexists. split; [done|].
  assert (Hk : keeps m (m ++ [{| metadata := 0; contents := BCell h t |}])).
  { intros l a Hl. exists a. split; [|done]. by apply lookup_app_l_Some. }
  split_and!; [|done|rewrite length_app; cbn; lia|eexists; by rewrite list_lookup_middle].
  split.
  - intros l a x n [Hl|[Hl Ha]]%lookup_app_Some Hx Hs.
    + apply (Hca l a x n Hl Hx). apply (new_cell_stands_inv m _ _ _ Hcl) in Hs; [done|]. by eapply lookup_lt_Some.
    + apply list_lookup_singleton_Some in Ha as [_ <-]. done.
  - intros l a h' t' [Hl|[Hl Ha]]%lookup_app_Some Hc.
    + destruct (Hcl l a h' t' Hl Hc). split; by apply (keeps_valid m).
    + apply list_lookup_singleton_Some in Ha as [_ <-]. cbn in Hc. simplify_eq. split; by apply (keeps_valid m).
Qed.

(** The nouns in play: pointers related to the nouns they stand for, with all parts,
    each noun at one address. *)
Record unified (U : ptr -> noun -> Prop) (m : memory) : Prop := {
  un_stands p n : U p n -> stands m p n;
  un_parts l a h t x y : U (PAlloc l) (NCell x y) -> m !! l = Some a -> contents a = BCell h t -> U h x /\ U t y;
  un_inj p q n : U p n -> U q n -> p = q
}.
Arguments un_stands {U m}.
Arguments un_parts {U m}.
Arguments un_inj {U m}.

Lemma keeps_unified U m m' : keeps m m' -> unified U m -> unified U m'.
Proof.
  intros Hk [H1 H2 H3]. split; [eauto using keeps_stands| |done].
  intros l a h t x y HU Hl Hc. pose proof (H1 _ _ HU) as Hs. inversion Hs; subst.
  match goal with H : m !! l = Some ?b |- _ => destruct (Hk l b H) as (a' & Ha' & Ec); eapply (H2 l b); [done..|] end. congruence.
Qed.

Lemma raw_equals_unified U m a b x y :
  unified U m -> U a x -> U b y -> raw_equals a b = bool_decide (x = y).
Proof.
  intros HU Ha Hb. unfold raw_equals. apply bool_decide_ext. split; intros ->.
  - eapply stands_fun; by apply (un_stands HU).
  - by apply (un_inj HU a b y).
Qed.

(** * The sorting jets *)

Lemma as_either_stands m p n :
  stands m p n ->
  (exists a, n = NAtom a /\ wf_atom a /\ as_either_atom_cell p m = Ok (inl a, m)) \/
  (exists l b h t x y, p = PAlloc l /\ n = NCell x y /\ m !! l = Some b /\ contents b = BCell h t /\
     as_either_atom_cell p m = Ok (inr (h, t), m)).
Proof.
  destruct 1 as [d Hd|l a ws Hl Hc Hw|l a h t x y Hl Hc Hh Ht]; [left; by eexists| |].
  - left. exists (Indirect ws). cbn. by rewrite Hl, Hc.
  - right. exists l, a, h, t, x, y. cbn. by rewrite Hl, Hc.
Qed.
Lemma as_cell_ok m l b h t : m !! l = Some b -> contents b = BCell h t -> as_cell (PAlloc l) m = Ok ((h, t), m).
Proof. intros Hl Hc. unfold as_cell, mbind, J_bind. cbn. by rewrite Hl, Hc. Qed.
Lemma slot_parts m l b h t :
  m !! l = Some b -> contents b = BCell h t ->
  mem_slot (PAlloc l) 2 m = Ok (h, m) /\ mem_slot (PAlloc l) 3 m = Ok (t, m).
Proof.
  intros Hl Hc. pose proof (as_cell_ok m l b h t Hl Hc) as E.
  split; [change (mem_slot (PAlloc l) 2) with (slot_loop 2 1 (PAlloc l))|change (mem_slot (PAlloc l) 3) with (slot_loop 3 1 (PAlloc l))];
    cbn [slot_loop]; unfold mbind, J_bind; by rewrite E.
Qed.

Lemma dor_run U m fuel a b x y :
  unified U m -> (nsize x <= fuel)%nat -> U a x -> U b y -> dor fuel a b m = Ok (loob (hoon_dor x y), m).
Proof.
  intros HU. revert a b x y. induction fuel as [|fuel IH]; intros a b x y Hf Ha Hb; [destruct x; cbn in Hf; lia|].
  cbn [dor]. rewrite (raw_equals_unified U m a b x y HU Ha Hb).
  case_bool_decide as E; [subst; destruct y; cbn [hoon_dor]; by rewrite decide_True|].
  destruct (as_either_stands m a x (un_stands HU _ _ Ha)) as [(xa & -> & Wa & Ea)|(i & ca & ah & at' & xh & xt & -> & -> & Li & Ci & Ea)];
  destruct (as_either_stands m b y (un_stands HU _ _ Hb)) as [(ya & -> & Wb & Eb)|(j & cb & bh & bt & yh & yt & -> & -> & Lj & Cj & Eb)];
    unfold mbind, J_bind; rewrite Ea, Eb; cbn [hoon_dor]; rewrite decide_False by done; [|done..|].
  - by destruct (compare_returns xa ya Wa Wb) as (_ & _ & _ & ->).
  - destruct (slot_parts _ _ _ _ _ Li Ci) as [S2 S3], (slot_parts _ _ _ _ _ Lj Cj) as [S2' S3'].
    unfold or_else, unwrap. rewrite S2, S2', S3, S3'.
    destruct (un_parts HU _ _ _ _ _ _ Ha Li Ci) as [Uah Uat], (un_parts HU _ _ _ _ _ _ Hb Lj Cj) as [Ubh Ubt].
    rewrite (raw_equals_unified U m ah bh xh yh HU Uah Ubh). cbn in Hf.
    case_bool_decide; case_decide; try done; apply IH; try done; lia.
Qed.

Lemma J_step {A B} (x : J A) (f : A -> J B) m a m' : x m = Ok (a, m') -> (x ≫= f) m = f a m'.
Proof. intros E. unfold mbind, J_bind. by rewrite E. Qed.

(** What comparisons do to the memory *)
Definition compared (m m' : memory) : Prop := upd m m' /\ heap_ok m'.

Lemma compared_trans m m1 m2 : compared m m1 -> compared m1 m2 -> compared m m2.
Proof. intros [H1 _] [H2 H3]. split; [by etrans|done]. Qed.
Lemma compared_keeps m m' : compared m m' -> keeps m m'.
Proof. intros [H _]. by apply upd_keeps. Qed.
Lemma compared_length m m' : compared m m' -> length m' = length m.
Proof. intros [H _]. symmetry. by eapply Forall2_length. Qed.

Lemma mug_data_run fuel m p n :
  stands m p n -> heap_ok m -> (1 + 3 * length m <= fuel)%nat ->
  exists m', mug_data fuel p m = Ok (noun_mug n, m') /\ compared m m'.
Proof.
  intros Hs [Hca Hcl] Hf. destruct (mug_u32_run m p n fuel Hs Hca) as (m' & x & E & Hx & Hm).
  { pose proof (uncached_le m). lia. }
  exists m'. unfold mug_data, noun_mug. rewrite E, Hx. split; [done|].
  destruct Hm as [Hu Hc _ _]. split; [done|]. split; [done|]. by eapply upd_closed.
Qed.
Lemma wf_mug n : wf_noun n -> wf_atom (Direct (noun_mug n)).
Proof.
  intros Hn. destruct (mug_of_range n Hn) as (x & Hx & Hr). unfold noun_mug. rewrite Hx.
  unfold is_mug in Hr. cbn. rewrite DIRECT_MAX_val. lia.
Qed.

Section order.
Context (U : ptr -> noun -> Prop) (m : memory) (HU : unified U m) (Hm : heap_ok m).
Context (fuel : nat) (Hf : (1 + 3 * length m <= fuel)%nat).

Lemma mugs_run a b x y :
  U a x -> U b y -> exists m1 m2, mug_data fuel a m = Ok (noun_mug x, m1) /\ mug_data fuel b m1 = Ok (noun_mug y, m2) /\ compared m m2.
Proof.
  intros Ha Hb. destruct (mug_data_run fuel m a x (un_stands HU _ _ Ha) Hm Hf) as (m1 & E1 & C1').
  destruct (mug_data_run fuel m1 b y) as (m2 & E2 & C2').
  - apply (keeps_stands m); [by apply compared_keeps|]. by apply (un_stands HU).
  - apply C1'.
  - by rewrite (compared_length _ _ C1').
  - exists m1, m2. split_and!; [done..|]. by eapply compared_trans.
Qed.
Lemma gor_run a b x y :
  U a x -> U b y -> (nsize x <= fuel)%nat ->
  exists m', gor fuel a b m = Ok (loob (mug_gor x y), m') /\ compared m m'.
Proof.
  intros Ha Hb Hs. destruct (mugs_run a b x y Ha Hb) as (m1 & m2 & E1 & E2 & C). exists m2. split; [|done].
  unfold gor. rewrite (J_step _ _ _ _ _ E1), (J_step _ _ _ _ _ E2). unfold mug_gor.
  destruct (_ ?= _); [|done..]. eapply dor_run; [|done..]. by eapply keeps_unified, HU; apply compared_keeps.
Qed.
Lemma mug_direct_run m1 d : compared m m1 -> wf_atom (Direct d) ->
  exists m2, mug_data fuel (PDirect d) m1 = Ok (noun_mug (D d), m2) /\ compared m m2.
Proof.
  intros C Hd. destruct (mug_data_run fuel m1 (PDirect d) (D d)) as (m2 & E & C2).
  - by constructor.
  - apply C.
  - by rewrite (compared_length _ _ C).
  - exists m2. split; [done|]. by eapply compared_trans.
Qed.
Lemma mor_run a b x y :
  U a x -> U b y -> (nsize x <= fuel)%nat ->
  exists m', mor fuel a b m = Ok (loob (mug_mor x y), m') /\ compared m m'.
Proof.
  intros Ha Hb Hs. destruct (mugs_run a b x y Ha Hb) as (m1 & m2 & E1 & E2 & C).
  destruct (mug_direct_run m2 (noun_mug x) C) as (m3 & E3 & C3); [by eapply wf_mug, stands_wf, (un_stands HU)|].
  destruct (mug_direct_run m3 (noun_mug y) C3) as (m4 & E4 & C4); [by eapply wf_mug, stands_wf, (un_stands HU)|].
  exists m4. split; [|done]. unfold mor.
  rewrite (J_step _ _ _ _ _ E1), (J_step _ _ _ _ _ E2), (J_step _ _ _ _ _ E3), (J_step _ _ _ _ _ E4). unfold mug_mor.
  destruct (_ ?= _); [|done..]. eapply dor_run; [|done..]. by eapply keeps_unified, HU; apply compared_keeps.
Qed.
End order.

Lemma is_yes_loob b : is_yes (loob b) = b.
Proof. by destruct b. Qed.

(** * Sets *)

Notation element := (ptr * noun)%type.
Notation set_tree := (tree element).

(** The set at [p]: its nodes are cells, its leaves the atom 0. *)
Fixpoint holds (m : memory) (p : ptr) (t : set_tree) : Prop :=
  match t with
  | Leaf => p = PDirect 0
  | Node (v, _) l r =>
      exists i j a b pl pr, p = PAlloc i /\ m !! i = Some a /\ contents a = BCell v (PAlloc j) /\
        m !! j = Some b /\ contents b = BCell pl pr /\ holds m pl l /\ holds m pr r
  end.
Definition drawn (U : ptr -> noun -> Prop) (t : set_tree) : Prop := forall v n, mem (v, n) t -> U v n.
Fixpoint tsize (t : set_tree) : nat := match t with Leaf => 0 | Node _ l r => S (tsize l + tsize r) end.

Notation set_wf := (wf snd wf_noun (strict mug_gor) (strict mug_mor)).
Notation set_put := (tput snd (strict mug_gor) (strict mug_mor)).

Lemma keeps_holds m m' p t : keeps m m' -> holds m p t -> holds m' p t.
Proof.
  intros Hk. revert p. induction t as [|[v n] l IHl r IHr]; intros p; [done|]. cbn [holds].
  intros (i & j & a & b & pl & pr & -> & Hi & Ca & Hj & Cb & Hl & Hr).
  destruct (Hk i a Hi) as (a' & Hi' & Ea), (Hk j b Hj) as (b' & Hj' & Eb).
  exists i, j, a', b', pl, pr. split_and!; try done; [congruence..|auto|auto].
Qed.
Lemma holds_valid m p t : holds m p t -> valid m p.
Proof. destruct t as [|[v n] l r]; cbn [holds]; [by intros ->|]. intros (i & ? & ? & ? & ? & ? & -> & Hi & _). by eapply lookup_lt_Some. Qed.

Lemma decompose_run m p v n l r :
  holds m p (Node (v, n) l r) ->
  raw_equals p (PDirect 0) = false /\
  exists pl pr, decompose p m = Ok ((v, pl, pr), m) /\ holds m pl l /\ holds m pr r.
Proof.
  intros (i & j & a & b & pl & pr & -> & Hi & Ca & Hj & Cb & Hl & Hr). split; [done|].
  exists pl, pr. unfold decompose. rewrite (J_step _ _ _ _ _ (as_cell_ok _ _ _ _ _ Hi Ca)).
  by rewrite (J_step _ _ _ _ _ (as_cell_ok _ _ _ _ _ Hj Cb)).
Qed.

Lemma make_node_run m v n pl pr l r :
  heap_ok m -> valid m v -> holds m pl l -> holds m pr r ->
  exists p m', make_node v pl pr m = Ok (p, m') /\ heap_ok m' /\ keeps m m' /\ length m' = (2 + length m)%nat /\
    holds m' p (Node (v, n) l r).
Proof.
  intros Hm Hv Hl Hr.
  destruct (new_cell_ok m pl pr Hm) as (m1 & E1 & Hm1 & K1 & L1 & a1 & Ha1 & C1'); [by eapply holds_valid..|].
  destruct (new_cell_ok m1 v (PAlloc (length m)) Hm1) as (m2 & E2 & Hm2 & K2 & L2 & a2 & Ha2 & C2'); [by eapply keeps_valid|cbn; lia|].
  exists (PAlloc (length m1)), m2. unfold make_node. rewrite (J_step _ _ _ _ _ E1).
  split_and!; [done..|by etrans|lia|]. destruct (K2 _ _ Ha1) as (a3 & Ha3 & E3).
  exists (length m1), (length m), a2, a3, pl, pr. split_and!; try done; [congruence|..];
    (apply (keeps_holds m); [by etrans|done]).
Qed.

(** The new subtree [c] below the node [x], rotated when it comes first *)
Definition join (x : element) (left_side : bool) (l r c : set_tree) : set_tree :=
  match c with
  | Leaf => if left_side then Node x Leaf r else Node x l Leaf
  | Node cn cl cr =>
      if left_side then if strict mug_mor x.2 cn.2 then Node x c r else Node cn cl (Node x cr r)
      else if strict mug_mor x.2 cn.2 then Node x l c else Node cn (Node x l cl) cr
  end.
Lemma set_put_join x l r e :
  e.2 <> x.2 ->
  set_put (Node x l r) e =
  join x (strict mug_gor e.2 x.2) l r (set_put (if strict mug_gor e.2 x.2 then l else r) e).
Proof. intros Hne. cbn [tput]. rewrite decide_False by done. by destruct (strict mug_gor _ _), (tput _ _ _ _ _). Qed.

Section sets.
Context (U : ptr -> noun -> Prop) (fuel : nat).

Lemma put_above_run m node s v n l r b cv cn cl cr :
  unified U m -> heap_ok m -> (1 + 3 * length m <= fuel)%nat -> (nsize n <= fuel)%nat ->
  holds m node (Node (v, n) l r) -> holds m s (Node (cv, cn) cl cr) -> U v n -> U cv cn -> n <> cn ->
  exists s' m', put_above fuel node b s m = Ok (s', m') /\ keeps m m' /\ heap_ok m' /\
    (length m' <= 4 + length m)%nat /\ holds m' s' (join (v, n) b l r (Node (cv, cn) cl cr)).
Proof.
  intros HU Hm Hf Hn Hnode Hs Uv Uc Hne.
  destruct (decompose_run _ _ _ _ _ _ Hnode) as (_ & pl & pr & Ed & Hl & Hr).
  destruct (decompose_run _ _ _ _ _ _ Hs) as (_ & ql & qr & Ed' & Hcl & Hcr).
  destruct (mor_run U m HU Hm fuel Hf v cv n cn Uv Uc Hn) as (m1 & E1 & C).
  pose proof (compared_keeps _ _ C) as K. pose proof (compared_length _ _ C) as L. pose proof (proj2 C) as Hm1.
  apply (keeps_holds m m1) in Hl, Hr, Hcl, Hcr, Hs; [|done..].
  assert (Vv : valid m1 v) by (eapply keeps_valid, stands_valid, (un_stands HU); done).
  assert (Vc : valid m1 cv) by (eapply keeps_valid, stands_valid, (un_stands HU); done).
  unfold put_above. rewrite (J_step _ _ _ _ _ Ed). rewrite (J_step _ _ _ _ _ Ed'). rewrite (J_step _ _ _ _ _ E1).
  rewrite is_yes_loob. cbn [join snd]. rewrite (strict_ne _ n cn) by done.
  destruct b, (mug_mor n cn).
  - destruct (make_node_run m1 v n s pr _ _ Hm1 Vv Hs Hr) as (p & m2 & E & H & K2 & L2 & Hp).
    exists p, m2. split_and!; [done|by etrans|done|lia|done].
  - destruct (make_node_run m1 v n qr pr _ _ Hm1 Vv Hcr Hr) as (p & m2 & E & H & K2 & L2 & Hp).
    destruct (make_node_run m2 cv cn ql p cl (Node (v, n) cr r) H) as (q & m3 & E' & H' & K3 & L3 & Hq);
      [by eapply keeps_valid|by eapply keeps_holds|done|].
    exists q, m3. rewrite (J_step _ _ _ _ _ E). split_and!; [done|by do 2 (etrans; [done|])|done|lia|done].
  - destruct (make_node_run m1 v n pl s _ _ Hm1 Vv Hl Hs) as (p & m2 & E & H & K2 & L2 & Hp).
    exists p, m2. split_and!; [done|by etrans|done|lia|done].
  - destruct (make_node_run m1 v n pl ql _ _ Hm1 Vv Hl Hcl) as (p & m2 & E & H & K2 & L2 & Hp).
    destruct (make_node_run m2 cv cn p qr (Node (v, n) l cl) cr H) as (q & m3 & E' & H' & K3 & L3 & Hq);
      [by eapply keeps_valid|done|by eapply keeps_holds|].
    exists q, m3. rewrite (J_step _ _ _ _ _ E). split_and!; [done|by do 2 (etrans; [done|])|done|lia|done].
Qed.

Context (pe : ptr) (e : noun) (Ue : U pe e).

(** What the second loop makes of the entries [path'] that the descent through [t]
    pushed, from a memory in which the new leaf has been made *)
Definition ascends (m1 : memory) (path' : list (ptr * bool)) (t : set_tree) : Prop :=
  forall m2 s, keeps m1 m2 -> heap_ok m2 -> (1 + 3 * (length m2 + 4 * length path') <= fuel)%nat ->
  holds m2 s (Node (pe, e) Leaf Leaf) ->
  exists m3 s', (forall rest, put_ascend fuel (path' ++ rest) s m2 = put_ascend fuel rest s' m3) /\
    keeps m2 m3 /\ heap_ok m3 /\ (length m3 <= length m2 + 4 * length path')%nat /\ holds m3 s' (set_put t (pe, e)).

Lemma ascends_up m1 m2 path t v n l r node b :
  unified U m1 -> keeps m1 m2 -> holds m1 node (Node (v, n) l r) -> U v n -> (nsize n <= fuel)%nat -> e <> n ->
  b = strict mug_gor e n -> t = (if b then l else r) -> drawn U t -> (forall w, ~ mem (w, n) t) ->
  ascends m2 path t -> ascends m2 (path ++ [(node, b)]) (Node (v, n) l r).
Proof.
  intros HU K Hnode Uv Hn Hne Eb Et Hd Hfresh Hup m s K2 Hm Hf Hs. rewrite length_app in Hf. cbn in Hf.
  destruct (Hup m s K2 Hm ltac:(lia) Hs) as (m3 & s' & Ea & K3 & Hm3 & L3 & Hs').
  assert (K13 : keeps m1 m3) by (by do 2 (etrans; [done|])).
  rewrite set_put_join by done. cbn [snd]. rewrite <- Eb, <- Et.
  assert (Hroot : exists cv cn cl cr, set_put t (pe, e) = Node (cv, cn) cl cr /\ U cv cn /\ n <> cn).
  { destruct (set_put t (pe, e)) as [|[cv cn] cl cr] eqn:Ep.
    { pose proof (proj1 (proj2 (tput_mem snd (strict mug_gor) (strict mug_mor) t (pe, e) (pe, e)))) as Hmem. by rewrite Ep in Hmem. }
    exists cv, cn, cl, cr. split; [done|].
    destruct (proj1 (tput_mem snd (strict mug_gor) (strict mug_mor) t (pe, e) (cv, cn))) as [[= -> ->]|Hin].
    - rewrite Ep. by left.
    - split; [done|]. congruence.
    - split; [by apply Hd|]. intros <-. by apply (Hfresh cv). }
  destruct Hroot as (cv & cn & cl & cr & Ep & Uc & Hnc). rewrite Ep in Hs' |- *.
  destruct (put_above_run m3 node s' v n l r b cv cn cl cr) as (s2 & m4 & Eu & K4 & Hm4 & L4 & Hs2); try done;
    [by eapply keeps_unified|lia|by eapply keeps_holds|].
  exists m4, s2. split_and!; [|by etrans|done|rewrite length_app; cbn; lia|done].
  intros rest. rewrite <- app_assoc, Ea. cbn [put_ascend app]. by rewrite (J_step _ _ _ _ _ Eu).
Qed.

Lemma ascends_leaf m1 : ascends m1 [] Leaf.
Proof.
  intros m2 s K Hm Hf Hs. exists m2, s. split_and!; [done..|cbn; lia|done].
Qed.
Lemma ascends_keeps m1 m2 path t : keeps m1 m2 -> ascends m1 path t -> ascends m2 path t.
Proof. intros K H m s K2. apply H. by etrans. Qed.

(** A node of a well-formed set: its side on the way to [e] *)
Lemma set_wf_side v n l r (b : bool) :
  set_wf (Node (v, n) l r) -> drawn U (Node (v, n) l r) ->
  set_wf (if b then l else r) /\ drawn U (if b then l else r) /\ U v n /\ forall w, ~ mem (w, n) (if b then l else r).
Proof.
  intros (Hd & Hl & Hr & Wl & Wr) HD. split_and!.
  - by destruct b.
  - intros w x Hx. apply HD. destruct b; [by right; left|by right; right].
  - apply HD. by left.
  - intros w Hw. destruct b; [destruct (Hl _ Hw) as [H _]|destruct (Hr _ Hw) as [H _]];
      cbn [snd] in H; by rewrite so_irrefl in H.
Qed.

Lemma put_descend_run t : forall m p path fuel',
  unified U m -> heap_ok m -> set_wf t -> drawn U t -> holds m p t ->
  (1 + 3 * length m + nsize e + tsize t <= fuel' <= fuel)%nat ->
  (forall v n, mem (v, n) t -> nsize n <= fuel)%nat ->
  exists m1, compared m m1 /\
    (mem (pe, e) t /\ put_descend fuel' pe p path m = Ok (None, m1) \/
     exists path', (length path' <= tsize t)%nat /\ ascends m1 path' t /\
       put_descend fuel' pe p path m = Ok (Some (path' ++ path), m1)).
Proof.
  induction t as [|[v n] l IHl r IHr]; intros m p path fuel' HU Hm Hwf HD Hp Hf Hs.
  { cbn in Hp. subst p. exists m. split; [split; [reflexivity|done]|]. right. exists [].
    split_and!; [done|apply ascends_leaf|]. destruct fuel'; [cbn in Hf; lia|done]. }
  destruct fuel' as [|fuel']; [cbn in Hf; lia|].
  destruct (decompose_run _ _ _ _ _ _ Hp) as (E0 & pl & pr & Ed & Hl & Hr).
  destruct (set_wf_side v n l r true Hwf HD) as (_ & _ & Uv & _).
  cbn [put_descend]. rewrite E0, (J_step _ _ _ _ _ Ed), (raw_equals_unified U m pe v e n HU Ue Uv).
  case_bool_decide as Hen.
  { exists m. split; [split; [reflexivity|done]|]. left. split; [|done]. subst n. left. by rewrite (un_inj HU pe v e). }
  cbn [tsize] in Hf.
  destruct (gor_run U m HU Hm (S fuel') ltac:(lia) pe v e n Ue Uv ltac:(lia)) as (m1 & E1 & C).
  rewrite (J_step _ _ _ _ _ E1), is_yes_loob, <- (strict_ne mug_gor e n) by done.
  set (b := strict mug_gor e n).
  destruct (set_wf_side v n l r b Hwf HD) as (Wb & Db & _ & Hfresh).
  assert (IH : exists m2, compared m1 m2 /\
    (mem (pe, e) (if b then l else r) /\ put_descend fuel' pe (if b then pl else pr) ((p, b) :: path) m1 = Ok (None, m2) \/
     exists path', (length path' <= tsize (if b then l else r))%nat /\ ascends m2 path' (if b then l else r) /\
       put_descend fuel' pe (if b then pl else pr) ((p, b) :: path) m1 = Ok (Some (path' ++ (p, b) :: path), m2))).
  { pose proof (compared_length _ _ C). pose proof (compared_keeps _ _ C).
    destruct b; [apply IHl|apply IHr]; try done; try apply C; try lia; try (by eapply keeps_unified);
      try (by eapply keeps_holds); intros w x Hx; apply (Hs w); [by right; left|by right; right]. }
  destruct IH as (m2 & C2 & HIH). exists m2. split; [by eapply compared_trans|].
  destruct HIH as [[Hmem E]|(path' & Hlen & Hup & E)].
  - left. split; [|done]. destruct b; [by right; left|by right; right].
  - right. exists (path' ++ [(p, b)]). rewrite <- app_assoc. split_and!; [|..|done].
    + rewrite length_app. cbn. destruct b; lia.
    + apply (ascends_up m m2 path' (if b then l else r)); try done.
      * by apply compared_keeps, (compared_trans m m1).
      * apply (Hs v). by left.
Qed.

Lemma tput_present t : set_wf t -> wf_noun e -> mem (pe, e) t -> set_put t (pe, e) = t.
Proof.
  intros Hwf He Hin. apply (treap_unique snd wf_noun (strict mug_gor) (strict mug_mor)); [by apply (wf_tput snd wf_noun (strict mug_gor) (strict mug_mor))|done|].
  intros x. rewrite (tput_elements snd wf_noun (strict mug_gor) (strict mug_mor)) by done. split; [by intros [->|[]]|].
  intros Hx. destruct (decide (x.2 = e)) as [Ex|Ex]; [left|by right].
  by apply (mem_key snd wf_noun (strict mug_gor) (strict mug_mor) t).
Qed.

Lemma put_iter_run t m p :
  unified U m -> heap_ok m -> set_wf t -> drawn U t -> holds m p t ->
  (7 + 3 * length m + nsize e + 12 * tsize t <= fuel)%nat -> (forall v n, mem (v, n) t -> nsize n <= fuel)%nat ->
  exists p' m', put_iter fuel p pe m = Ok (p', m') /\ keeps m m' /\ heap_ok m' /\ holds m' p' (set_put t (pe, e)).
Proof.
  intros HU Hm Hwf HD Hp Hf Hs. pose proof (un_stands HU _ _ Ue) as Hse. unfold put_iter.
  destruct t as [|[v n] l r].
  { cbn in Hp. subst p.
    destruct (make_node_run m pe e (PDirect 0) (PDirect 0) Leaf Leaf) as (p' & m' & E & H & K & _ & Hp'); try done; [by eapply stands_valid|].
    by exists p', m'. }
  rewrite (proj1 (decompose_run _ _ _ _ _ _ Hp)).
  destruct (put_descend_run _ m p [] fuel HU Hm Hwf HD Hp ltac:(lia) Hs) as (m1 & C & [[Hin E]|(path & Hlen & Hup & E)]);
    rewrite (J_step _ _ _ _ _ E); pose proof (compared_keeps _ _ C) as K; pose proof (compared_length _ _ C) as L.
  - exists p, m1. split_and!; [done..|apply C|]. rewrite tput_present; [by eapply keeps_holds|done|by eapply stands_wf|done].
  - destruct (make_node_run m1 pe e (PDirect 0) (PDirect 0) Leaf Leaf) as (s & m2 & E2 & Hm2 & K2 & L2 & Hs2); try done;
      [apply C|by eapply keeps_valid, stands_valid|].
    destruct (Hup m2 s K2 Hm2 ltac:(lia) Hs2) as (m3 & s' & E3 & K3 & Hm3 & _ & Hs3).
    exists s', m3. rewrite (J_step _ _ _ _ _ E2). rewrite app_nil_r, <- (app_nil_r path), E3.
    split_and!; [done|by do 2 (etrans; [done|])|done|done].
Qed.

(** ** Membership *)

Lemma ord_cmp_run m v n fuel' :
  unified U m -> heap_ok m -> U v n -> (1 + 3 * length m <= fuel')%nat -> (nsize n <= fuel')%nat ->
  exists m', compared m m' /\
    ord_cmp fuel' pe v m = Ok (if decide (e = n) then Eq else if strict mug_gor n e then Lt else Gt, m').
Proof.
  intros HU Hm Uv Hf Hn. unfold ord_cmp. rewrite (raw_equals_unified U m pe v e n HU Ue Uv).
  case_decide as Hen; [rewrite bool_decide_true by done; exists m; by split; [split; [reflexivity|done]|]|].
  rewrite bool_decide_false by done.
  destruct (gor_run U m HU Hm fuel' Hf v pe n e Uv Ue Hn) as (m1 & E1 & C). exists m1. split; [done|].
  rewrite (J_step _ _ _ _ _ E1), is_yes_loob, strict_ne by done. done.
Qed.

Definition small (bound : nat) (t : set_tree) : Prop := forall v n, mem (v, n) t -> (nsize n <= bound)%nat.

Lemma has_loop_absent bound t : forall m p fuel',
  unified U m -> heap_ok m -> drawn U t -> small bound t -> holds m p t -> (forall w, ~ mem (w, e) t) ->
  (1 + 3 * length m + bound + tsize t <= fuel')%nat ->
  exists m', compared m m' /\ has_loop fuel' p pe m = Ok (false, m').
Proof.
  induction t as [|[v n] l IHl r IHr]; intros m p fuel' HU Hm HD Hs Hp Habs Hf; (destruct fuel' as [|fuel']; [cbn in Hf; lia|]).
  { cbn in Hp. subst p. exists m. split; [split; [reflexivity|done]|done]. }
  destruct (decompose_run _ _ _ _ _ _ Hp) as (E0 & pl & pr & Ed & Hl & Hr). cbn [tsize] in Hf.
  assert (Hn : (nsize n <= S fuel')%nat) by (transitivity bound; [apply (Hs v); by left|lia]).
  destruct (ord_cmp_run m v n (S fuel') HU Hm) as (m1 & C & Eo); [apply HD; by left|lia|done|].
  cbn [has_loop]. rewrite E0, (J_step _ _ _ _ _ Ed), (J_step _ _ _ _ _ Eo).
  rewrite decide_False by (intros <-; apply (Habs v); by left).
  pose proof (compared_length _ _ C). pose proof (compared_keeps _ _ C) as K.
  destruct (strict mug_gor n e);
    [destruct (IHl m1 pl fuel') as (m2 & C2 & E2)|destruct (IHr m1 pr fuel') as (m2 & C2 & E2)];
    try (exists m2; split; [by eapply compared_trans|done]);
    try (by eapply keeps_unified); try (by eapply keeps_holds); try apply C; try lia;
    intros w; intros; first [apply HD|apply (Hs w)|intros Hw; apply (Habs w)]; cbn [mem]; tauto.
Qed.

(** The search descends away from the element, so only the root is found. *)
Definition at_root (x : noun) (t : set_tree) : bool :=
  match t with Leaf => false | Node y _ _ => bool_decide (x = y.2) end.

Lemma has_loop_run bound t m p :
  unified U m -> heap_ok m -> set_wf t -> drawn U t -> small bound t -> holds m p t ->
  (1 + 3 * length m + bound + tsize t <= fuel)%nat ->
  exists m', compared m m' /\ has_loop fuel p pe m = Ok (at_root e t, m').
Proof.
  intros HU Hm Hwf HD Hs Hp Hf. pose proof (stands_wf _ _ _ (un_stands HU _ _ Ue)) as We.
  destruct fuel as [|fuel'] eqn:Ef; [lia|].
  destruct t as [|[v n] l r].
  { cbn in Hp. subst p. exists m. split; [split; [reflexivity|done]|done]. }
  destruct (decompose_run _ _ _ _ _ _ Hp) as (E0 & pl & pr & Ed & Hl & Hr). cbn [tsize] in Hf.
  destruct Hwf as (Hd & Wl & Wr & _ & _). cbn [snd] in Hd, Wl, Wr.
  assert (Hn : (nsize n <= S fuel')%nat) by (transitivity bound; [apply (Hs v); by left|lia]).
  destruct (ord_cmp_run m v n (S fuel') HU Hm) as (m1 & C & Eo); [apply HD; by left|lia|done|].
  cbn [has_loop at_root snd]. rewrite E0, (J_step _ _ _ _ _ Ed), (J_step _ _ _ _ _ Eo).
  case_decide as Hen; [subst; rewrite bool_decide_true by done; by exists m1|rewrite bool_decide_false by done].
  pose proof (compared_length _ _ C). pose proof (compared_keeps _ _ C) as K.
  destruct (strict mug_gor n e) eqn:Eg;
    [destruct (has_loop_absent bound l m1 pl fuel') as (m2 & C2 & E2)|destruct (has_loop_absent bound r m1 pr fuel') as (m2 & C2 & E2)];
    try (exists m2; split; [by eapply compared_trans|done]);
    try (by eapply keeps_unified); try (by eapply keeps_holds); try apply C; try lia;
    intros w; intros; first [apply HD; cbn [mem]; tauto|apply (Hs w); cbn [mem]; tauto|intros Hw].
  - destruct (Wl _ Hw) as [Hlt _]. by apply (so_asym wf_noun (strict mug_gor) n e).
  - destruct (Wr _ Hw) as [Hlt _]. cbn [snd] in Hlt. congruence.
Qed.
End sets.

(** * The list jet that compares pointers *)

Fixpoint mlist (m : memory) (p : ptr) (l : list element) : Prop :=
  match l with
  | [] => p = PDirect 0
  | (v, _) :: l => exists i a pt, p = PAlloc i /\ m !! i = Some a /\ contents a = BCell v pt /\ mlist m pt l
  end.
Fixpoint probe_at (n h : list noun) : probe :=
  match n, h with
  | [], _ | _, [] => Missing
  | x :: n, y :: h => if decide (x = y) then match n with [] => Found | _ => probe_at n h end else Mismatch
  end.
(** The first position of the haystack, counted from [i], where the needle begins *)
Fixpoint first_match (nedl hstk : list noun) (i : Z) : option Z :=
  if decide (nedl `prefix_of` hstk) then Some i
  else match hstk with [] => None | _ :: hstk => first_match nedl hstk (i + 1) end.

Lemma probe_spec n h : n <> [] ->
  match probe_at n h with
  | Found => n `prefix_of` h
  | Mismatch => ~ n `prefix_of` h /\ h <> []
  | Missing => (length h < length n)%nat
  end.
Proof.
  revert h. induction n as [|x n IH]; intros h Hn; [done|]. destruct h as [|y h]; [cbn; lia|]. cbn [probe_at].
  destruct (decide (x = y)) as [->|Hne].
  2: { split; [|done]. intros [k E]. cbn in E. congruence. }
  destruct n as [|x' n]; [by exists h|]. specialize (IH h ltac:(done)). destruct (probe_at (x' :: n) h).
  - cbn in *. lia.
  - by apply prefix_cons.
  - destruct IH as [IH _]. split; [|done]. intros H%prefix_cons_inv_2. done.
Qed.
Lemma first_match_short n h i : (length h < length n)%nat -> first_match n h i = None.
Proof.
  revert i. induction h as [|y h IH]; intros i Hl; cbn [first_match]; rewrite decide_False; try done.
  1, 3: intros H%prefix_length; cbn in *; lia. apply IH. cbn in Hl. lia.
Qed.

Section find.
Context (U : ptr -> noun -> Prop) (m : memory) (HU : unified U m).
Definition all_drawn (l : list element) : Prop := Forall (fun x => U x.1 x.2) l.

Lemma find_inner_run fuel n h l k :
  mlist m n l -> mlist m h k -> all_drawn l -> all_drawn k -> (length l < fuel)%nat ->
  find_inner fuel n h m = Ok (probe_at (map snd l) (map snd k), m).
Proof.
  revert fuel n h k. induction l as [|[v x] l IH]; intros fuel n h k Hn Hh Dl Dk Hf; (destruct fuel as [|fuel]; [cbn in Hf; lia|]).
  { cbn in Hn. by subst n. }
  destruct k as [|[w y] k]; [cbn in Hh; subst h; cbn [find_inner]; by rewrite orb_true_r|].
  destruct Hn as (i & a & nt & -> & Hi & Ca & Hn), Hh as (j & b & ht & -> & Hj & Cb & Hh).
  unfold all_drawn in Dl, Dk. destruct (Forall_cons_1 _ _ _ Dl) as [Ux Dl'], (Forall_cons_1 _ _ _ Dk) as [Uy Dk']. clear Dl Dk. rename Dl' into Dl, Dk' into Dk. cbn [fst snd] in Ux, Uy.
  cbn [find_inner map snd probe_at]. change (raw_equals (PAlloc i) (PDirect 0)) with false. change (raw_equals (PAlloc j) (PDirect 0)) with false.
  cbn [orb]. rewrite (J_step _ _ _ _ _ (as_cell_ok _ _ _ _ _ Hi Ca)), (J_step _ _ _ _ _ (as_cell_ok _ _ _ _ _ Hj Cb)).
  rewrite (raw_equals_unified U m v w x y HU Ux Uy). case_decide as Exy; [rewrite bool_decide_true by done|by rewrite bool_decide_false].
  destruct l as [|[v' x'] l].
  - cbn in Hn. by subst nt.
  - pose proof Hn as (i' & ? & ? & -> & _). change (raw_equals (PAlloc i') (PDirect 0)) with false. cbn [map].
    apply IH; try done. cbn in *. lia.
Qed.

Lemma find_outer_run l nedl hl : forall fuel hstk i,
  heap_ok m -> mlist m nedl l -> mlist m hstk hl -> all_drawn l -> all_drawn hl -> l <> [] -> (length l + length hl < fuel)%nat ->
  exists p m', find_outer fuel nedl hstk i m = Ok (p, m') /\ keeps m m' /\
    match first_match (map snd l) (map snd hl) i with
    | None => p = PDirect 0 /\ m' = m
    | Some j => exists c a, p = PAlloc c /\ m' !! c = Some a /\ contents a = BCell (PDirect 0) (PDirect j)
    end.
Proof.
  induction hl as [|[w y] hl IH]; intros fuel hstk i Hm Hn Hh Dl Dh Hne Hf; (destruct fuel as [|fuel]; [cbn in Hf; lia|]);
    cbn [find_outer]; rewrite (J_step _ _ _ _ _ (find_inner_run (S fuel) nedl hstk l _ Hn Hh Dl Dh ltac:(cbn in *; lia)));
    assert (Hne' : map snd l <> []) by (by destruct l).
  - pose proof (probe_spec (map snd l) (map snd (@nil element)) Hne') as Hp. destruct l as [|[v x] l]; [done|]. cbn [map probe_at] in *.
    rewrite (first_match_short (x :: map snd l) []) by done. by exists (PDirect 0), m.
  - pose proof (probe_spec (map snd l) (map snd ((w, y) :: hl)) Hne') as Hp. destruct (probe_at _ _).
    + rewrite first_match_short by done. by exists (PDirect 0), m.
    + destruct (new_cell_ok m (PDirect 0) (PDirect i) Hm) as (m' & E & _ & K & _ & a & Ha & Ca); [done..|].
      exists (PAlloc (length m)), m'. split_and!; [done..|]. cbn [map snd first_match] in *. rewrite decide_True by done.
      by exists (length m), a.
    + destruct Hp as [Hp _]. destruct Hh as (j & b & ht & -> & Hj & Cb & Hh). rewrite (J_step _ _ _ _ _ (as_cell_ok _ _ _ _ _ Hj Cb)).
      unfold all_drawn in Dh. destruct (Forall_cons_1 _ _ _ Dh) as [_ Dh']. cbn [map snd first_match] in *. rewrite decide_False by done.
      apply IH; try done. cbn in Hf. lia.
Qed.
End find.

(** * Properties *)

(** C9: on arguments whose equal parts are the same words in memory, [jet_dor] answers
    with the order [dor] of Hoon, and [jet_gor] and [jet_mor] with [mug_gor] and
    [mug_mor], which compare the mugs of mug.rs first; only cached mugs are written, and
    the three are strict total orders on nouns once equality is left out.  They are
    [gor] and [mor] of Hoon on nouns none of whose hashes folds to zero at the first
    try ([first_try]); on the others mug.rs and Hoon have different mugs. *)
Theorem sort_jets U m fuel subject a b x y :
  sample_pair subject m = Ok ((a, b), m) -> unified U m -> heap_ok m -> U a x -> U b y ->
  (1 + 3 * length m + nsize x <= fuel)%nat ->
  jet_dor fuel subject m = Ok (loob (hoon_dor x y), m) /\
  (exists m', jet_gor fuel subject m = Ok (loob (mug_gor x y), m') /\ compared m m') /\
  (exists m', jet_mor fuel subject m = Ok (loob (mug_mor x y), m') /\ compared m m') /\
  StrictOrder wf_noun (strict hoon_dor) /\ StrictOrder wf_noun (strict mug_gor) /\ StrictOrder wf_noun (strict mug_mor) /\
  (first_try x = true -> first_try y = true -> mug_gor x y = hoon_gor x y) /\
  (first_try x = true -> first_try y = true -> first_try (D (noun_mug x)) = true -> first_try (D (noun_mug y)) = true ->
     mug_mor x y = hoon_mor x y).
Proof.
  intros Es HU Hm Ha Hb Hf. unfold jet_dor, jet_gor, jet_mor. rewrite !(J_step _ _ _ _ _ Es).
  split_and!; [|apply (gor_run U); (done || lia)|apply (mor_run U); (done || lia)|apply _|apply _|apply _
    |apply first_try_gor|apply first_try_mor].
  apply (dor_run U); (done || lia).
Qed.

(** The hash of the atom 0x6ddb5cd6 is zero: mug.rs gives it the fallback 0x7fff, Hoon
    hashes it again with the next seed, and the two order it differently to 17. *)
Example mug_of_zero_hash :
  let a := D 0x6ddb5cd6 in
  first_try a = false /\ noun_mug a = 0x7fff /\ hoon_mug a = 0x429ceea /\
  first_try (D 17) = true /\ mug_gor a (D 17) = true /\ hoon_gor a (D 17) = false.
Proof. vm_compute. repeat split. Qed.

(** Direct atoms are their own words. *)
Definition direct (p : ptr) (n : noun) : Prop := exists d, p = PDirect d /\ n = D d /\ wf_atom (Direct d).
Lemma direct_unified m : unified direct m.
Proof.
  split.
  - intros p n (d & -> & -> & Hd). by constructor.
  - by intros l a h t x y (d & ? & _).
  - intros p q n (d & -> & -> & _) (d' & -> & [= ->] & _). done.
Qed.

Definition cells (l : list (ptr * ptr)) : memory := (fun '(h, t) => {| metadata := 0; contents := BCell h t |}) <$> l.
Lemma cells_ok l : Forall (fun c => valid (cells l) c.1 /\ valid (cells l) c.2) l -> heap_ok (cells l).
Proof.
  intros Hl. assert (Hc : forall i a, cells l !! i = Some a -> exists h t, l !! i = Some (h, t) /\ a = {| metadata := 0; contents := BCell h t |}).
  { intros i a Ha. unfold cells in Ha. apply list_lookup_fmap_Some_1 in Ha as ([h t] & -> & Ha). eauto. }
  split.
  - intros i a x n Ha Hx _. destruct (Hc i a Ha) as (h & t & _ & ->). done.
  - intros i a h t Ha Ec. destruct (Hc i a Ha) as (h' & t' & Hi & ->). cbn in Ec. simplify_eq.
    by apply (Forall_lookup_1 _ _ _ _ Hl Hi).
Qed.

(** The core of a gate with the sample [5 7] *)
Definition sort_core : memory := cells [(PDirect 5, PDirect 7); (PAlloc 0, PDirect 0); (PDirect 0, PAlloc 1)].
Lemma direct_D d : 0 <= d <= DIRECT_MAX -> direct (PDirect d) (D d).
Proof. intros H. by exists d. Qed.

Lemma sort_jets_witness :
  jet_dor 20 (PAlloc 2) sort_core = Ok (YES, sort_core) /\
  exists m', jet_gor 20 (PAlloc 2) sort_core = Ok (loob (hoon_gor (D 5) (D 7)), m') /\ compared sort_core m'.
Proof.
  edestruct (sort_jets direct sort_core 20 (PAlloc 2) (PDirect 5) (PDirect 7) (D 5) (D 7)) as (H1 & H2 & _ & _ & _ & _ & H3 & _).
  - reflexivity.
  - apply direct_unified.
  - apply cells_ok. repeat constructor; cbn; lia.
  - apply direct_D. vm_compute. intuition congruence.
  - apply direct_D. vm_compute. intuition congruence.
  - cbn. lia.
  - split; [exact H1|]. rewrite <- H3 by (vm_compute; reflexivity). exact H2.
Defined.

(** Two pairs with equal heads at two addresses, two equal indirect atoms, and cores
    that compare them *)
Definition copies : memory :=
  cells [(PDirect 1, PDirect 2); (PDirect 1, PDirect 2); (PAlloc 0, PDirect 4); (PAlloc 1, PDirect 3)] ++
  [{| metadata := 0; contents := BIndirect [0; 1] |}; {| metadata := 0; contents := BIndirect [0; 1] |}].

(** In general the sorting jets depend on where nouns lie in memory: of two
    different pairs with equal heads at two addresses [jet_dor] answers that each
    comes before the other, and of two copies of an atom that neither does; Hoon
    orders the pairs by their tails and every noun before itself. *)
Theorem dor_jet_pointers :
  exists a b c d x y z,
    stands copies a x /\ stands copies b y /\ stands copies c z /\ stands copies d z /\ x <> y /\
    hoon_dor x y = false /\ hoon_dor z z = true /\
    dor 10 a b copies = Ok (YES, copies) /\ dor 10 b a copies = Ok (YES, copies) /\
    dor 10 c d copies = Ok (NO, copies) /\ dor 10 d c copies = Ok (NO, copies).
Proof.
  exists (PAlloc 2), (PAlloc 3), (PAlloc 4), (PAlloc 5),
    (NCell (NCell (D 1) (D 2)) (D 4)), (NCell (NCell (D 1) (D 2)) (D 3)), (NAtom (Indirect [0; 1])).
  assert (Hd : forall d, 0 <= d <= DIRECT_MAX -> stands copies (PDirect d) (D d)) by (by constructor).
  assert (Wz : wf_atom (Indirect [0; 1])).
  { apply wf_indirect. split_and!; [repeat constructor; vm_compute; congruence|done|vm_compute; intuition congruence..]. }
  rewrite DIRECT_MAX_val in Hd.
  split_and!; try done; repeat first [apply Hd; lia|eapply stands_indirect; [reflexivity..|done]|eapply stands_cell; [reflexivity..| |]].
Qed.

(** C30: on a set that is a treap for the orders [mug_gor] and [mug_mor], when equal
    nouns among the element, the elements of the set and their parts are the same words
    in memory ([unified]; the jets compare pointers), [jet_put] returns the treap with
    the element inserted, which is again well formed and has the elements of the set and
    the new one; [jet_has] answers whether the element is at the root, so it denies every
    other element of the set. *)
Theorem set_jets U m fuel bound subject parent set pe e t :
  mem_slot subject 6 m = Ok (pe, m) -> mem_slot subject 7 m = Ok (parent, m) -> mem_slot parent 6 m = Ok (set, m) ->
  unified U m -> heap_ok m -> U pe e -> set_wf t -> drawn U t -> small bound t -> holds m set t ->
  (7 + 3 * length m + nsize e + bound + 12 * tsize t <= fuel)%nat ->
  (exists p' m', jet_put fuel subject m = Ok (p', m') /\ keeps m m' /\ heap_ok m' /\
     holds m' p' (set_put t (pe, e)) /\ set_wf (set_put t (pe, e)) /\
     forall x, mem x (set_put t (pe, e)) <-> x = (pe, e) \/ mem x t) /\
  (exists m', jet_has fuel subject m = Ok (loob (at_root e t), m') /\ compared m m').
Proof.
  intros E6 E7 Es HU Hm Ue Hwf HD Hs Hp Hf. pose proof (stands_wf _ _ _ (un_stands HU _ _ Ue)) as We.
  assert (Esam : set_sample subject m = Ok ((pe, set), m)).
  { unfold set_sample. rewrite (J_step _ _ _ _ _ E6). unfold or_else. by rewrite E7, Es. }
  unfold jet_put, jet_has. rewrite !(J_step _ _ _ _ _ Esam). split.
  - destruct (put_iter_run U fuel pe e Ue t m set HU Hm Hwf HD Hp) as (p' & m' & E & K & H & Hp'); [lia| |].
    { intros v n Hv. transitivity bound; [by apply (Hs v)|lia]. }
    exists p', m'. split_and!; try done; [by apply (wf_tput snd wf_noun (strict mug_gor) (strict mug_mor))|].
    intros [v n]. rewrite (tput_elements snd wf_noun (strict mug_gor) (strict mug_mor)) by done. cbn [snd].
    split; [tauto|]. intros [?|Hv]; [by left|]. destruct (decide (n = e)) as [->|]; [left|by right].
    by rewrite (un_inj HU v pe e (HD _ _ Hv) Ue).
  - destruct (has_loop_run U fuel pe e Ue bound t m set HU Hm Hwf HD Hs Hp ltac:(lia)) as (m' & C & E).
    exists m'. by rewrite (J_step _ _ _ _ _ E).
Qed.

(** The set of 1 and 2, with 2 at its root, and a core that asks for 1 *)
Definition set_core : memory :=
  cells [(PDirect 0, PDirect 0); (PDirect 1, PAlloc 0); (PAlloc 1, PDirect 0); (PDirect 2, PAlloc 2);
         (PAlloc 3, PDirect 0); (PDirect 0, PAlloc 4); (PDirect 1, PAlloc 5); (PDirect 0, PAlloc 6)].
Definition set_of_two : set_tree := Node (PDirect 2, D 2) (Node (PDirect 1, D 1) Leaf Leaf) Leaf.

Lemma set_jets_witness :
  mem (PDirect 1, D 1) set_of_two /\
  (exists p' m', jet_put 100 (PAlloc 7) set_core = Ok (p', m') /\ holds m' p' set_of_two) /\
  (exists m', jet_has 100 (PAlloc 7) set_core = Ok (NO, m')).
Proof.
  assert (W : forall d, 0 <= d <= DIRECT_MAX -> wf_noun (D d)) by done. rewrite DIRECT_MAX_val in W.
  edestruct (set_jets direct set_core 100 1 (PAlloc 7) (PAlloc 5) (PAlloc 3) (PDirect 1) (D 1) set_of_two) as ((p' & m' & E & _ & _ & Hp' & _) & (m2 & E2 & _)).
  - reflexivity.
  - reflexivity.
  - reflexivity.
  - apply direct_unified.
  - apply cells_ok. repeat constructor; cbn; lia.
  - apply direct_D. rewrite DIRECT_MAX_val. lia.
  - split_and!; cbn [snd]; [apply W; lia| |by intros x []| |done].
    + intros x [->|[[]|[]]]. by vm_compute.
    + split_and!; [apply W; lia|by intros x []..|done|done].
  - intros v n [[= -> ->]|[[[= -> ->]|[[]|[]]]|[]]]; apply direct_D; rewrite DIRECT_MAX_val; lia.
  - intros v n [[= -> ->]|[[[= -> ->]|[[]|[]]]|[]]]; cbn; lia.
  - exists 3%nat, 2%nat. do 4 eexists. split_and!; try reflexivity. exists 1%nat, 0%nat. do 4 eexists. by split_and!.
  - cbn. lia.
  - split; [right; left; left; reflexivity|]. split; [exists p', m'; split; [exact E|]|exists m2; exact E2].
    assert (Ep : set_put set_of_two (PDirect 1, D 1) = set_of_two) by (by vm_compute). rewrite <- Ep. exact Hp'.
Defined.

(** A set with an indirect atom, and a core that puts a copy of the atom into it: without
    the condition that equal nouns are the same words, the set has the atom twice. *)
Definition copy_core : memory :=
  [{| metadata := 0; contents := BIndirect [0; 1] |}; {| metadata := 0; contents := BIndirect [0; 1] |}] ++
  cells [(PDirect 0, PDirect 0); (PAlloc 0, PAlloc 2); (PAlloc 3, PDirect 0); (PDirect 0, PAlloc 4);
         (PAlloc 1, PAlloc 5); (PDirect 0, PAlloc 6)].
Example put_duplicates :
  let x := NAtom (Indirect [0; 1]) in
  exists p m, jet_put 100 (PAlloc 7) copy_core = Ok (p, m) /\ stands m (PAlloc 0) x /\ stands m (PAlloc 1) x /\
    holds m p (Node (PAlloc 1, x) (Node (PAlloc 0, x) Leaf Leaf) Leaf).
Proof.
  do 2 eexists. split; [vm_compute; reflexivity|].
  assert (W : wf_atom (Indirect [0; 1])).
  { apply wf_indirect. split_and!; [repeat constructor; vm_compute; congruence|done|vm_compute; intuition congruence..]. }
  split; [eapply stands_indirect; [reflexivity..|done]|]. split; [eapply stands_indirect; [reflexivity..|done]|].
  exists 13%nat, 12%nat. do 4 eexists. split_and!; try reflexivity. exists 11%nat, 10%nat. do 4 eexists. by split_and!.
Qed.

(** On lists whose elements are unified [jet_find] returns the first position of the
    needle, and zero when there is none or the needle is empty. *)
Theorem find_first U m fuel subject nedl hstk l hl :
  sample_pair subject m = Ok ((nedl, hstk), m) -> unified U m -> heap_ok m ->
  mlist m nedl l -> mlist m hstk hl -> all_drawn U l -> all_drawn U hl -> (length l + length hl < fuel)%nat ->
  exists p m', jet_find fuel subject m = Ok (p, m') /\ keeps m m' /\
    match l, first_match (map snd l) (map snd hl) 0 with
    | [], _ | _, None => p = PDirect 0 /\ m' = m
    | _, Some j => exists c a, p = PAlloc c /\ m' !! c = Some a /\ contents a = BCell (PDirect 0) (PDirect j)
    end.
Proof.
  intros Es HU Hm Hn Hh Dl Dh Hf. unfold jet_find. rewrite (J_step _ _ _ _ _ Es). unfold find. destruct l as [|x l].
  - cbn in Hn. subst nedl. destruct fuel; [lia|]. by exists (PDirect 0), m.
  - by apply (find_outer_run U m HU (x :: l)).
Qed.
