(* ===== verification/ColdWarm.v ===== *)
(** The registration of jets: jets/cold.rs, jets/warm.rs and jets/hot.rs.

    The linked lists of the code are immutable and are lists here, newest entry
    first.  Its tries are any map from nouns ([NounMap]); unifying equality is
    equality of nouns.  A panic, also of a trie, is [Panic]. *)
From stdpp Require Import base option list numbers.
From Stdlib Require Import ZArith Lia.
From S2P Require Import Prelude Noun Hamt NounSerde.
Local Open Scope Z_scope.

Inductive ColdError := NoParent | BadNock.
Notation cold_result := (outcome ColdError).

(** * Core hierarchies *)

(** A battery with the axis of its parent, then the hierarchy of the parent *)
Notation Batteries := (list (noun * atom)).
Definition is_root_axis (axis : atom) : bool := match axis with Direct d => d =? 0 | Indirect _ => false end.

Fixpoint matches_loop (bs : Batteries) (core : noun) (root_found : bool) : cold_result bool :=
  match bs with
  | [] => if root_found then Ok true else Panic
  | (battery, parent_axis) :: bs =>
      if root_found then Panic
      else if is_root_axis parent_axis then
        if decide (core = battery) then matches_loop bs core true else Ok false
      else
        match slot core 2 with
        | Ok core_battery =>
            if decide (core_battery = battery) then
              match slot_atom core parent_axis with
              | Ok core_parent => matches_loop bs core_parent false
              | _ => Ok false
              end
            else Ok false
        | _ => Ok false
        end
  end.
Definition Batteries_matches (bs : Batteries) (core : noun) : cold_result bool := matches_loop bs core false.
Notation BatteriesList := (list Batteries).
Fixpoint BatteriesList_matches (l : BatteriesList) (core : noun) : cold_result (option Batteries) :=
  match l with
  | [] => Ok None
  | bs :: l => b ← Batteries_matches bs core; if (b : bool) then Ok (Some bs) else BatteriesList_matches l core
  end.
Notation NounList := (list noun).

(** [noun::Error] becomes [BadNock] *)
Definition or_bad {A} (r : result A) : cold_result A := map_err (fun _ => BadNock) r.

Section cold.
Context {M : Type -> Type} `{HM : !NounMap M}.

Definition look {E V} (m : M V) (k : noun) : outcome E (option V) :=
  match map_lookup m k with Some o => Ok o | None => Panic end.
Definition put {E V} (m : M V) (k : noun) (v : V) : outcome E (M V) :=
  match map_insert m k v with Some m => Ok m | None => Panic end.

(** * cold.rs *)

Record Cold := {
  battery_to_paths : M NounList;
  root_to_paths : M NounList;
  path_to_batteries : M BatteriesList }.

Definition Cold_new : Cold :=
  {| battery_to_paths := map_new; root_to_paths := map_new; path_to_batteries := map_new |}.
Definition Cold_find (c : Cold) (path : noun) : cold_result BatteriesList :=
  l ← look (path_to_batteries c) path; Ok (default [] l).

(** The loop of [Cold::matches] over the paths of a battery *)
Fixpoint matches_paths (c : Cold) (paths : NounList) (core : noun) : cold_result (option noun) :=
  match paths with
  | [] => Ok None
  | path :: paths =>
      l ← look (path_to_batteries c) path;
      match l with
      | Some batteries_list =>
          found ← BatteriesList_matches batteries_list core;
          match found with Some _ => Ok (Some path) | None => matches_paths c paths core end
      | None => matches_paths c paths core
      end
  end.
Definition Cold_matches (c : Cold) (core : noun) : cold_result (option noun) :=
  match slot core 2 with
  | Ok battery =>
      paths ← look (battery_to_paths c) battery;
      match paths with Some paths => matches_paths c paths core | None => Ok None end
  | _ => Ok None
  end.

(** Registering a root *)
Definition register_root (c : Cold) (core chum : noun) : cold_result (Cold * bool) :=
  let root_path := T [chum; D 0] in
  paths ← look (root_to_paths c) core;
  if existsb (fun a_path => bool_decide (root_path = a_path)) (default [] paths) then Ok (c, false)
  else
    current_batteries_list ← look (path_to_batteries c) root_path;
    current_paths_list ← look (root_to_paths c) core;
    rtp ← put (root_to_paths c) core (root_path :: default [] current_paths_list);
    ptb ← put (path_to_batteries c) root_path ([(core, Direct 0)] :: default [] current_batteries_list);
    Ok ({| battery_to_paths := battery_to_paths c; root_to_paths := rtp; path_to_batteries := ptb |}, true).

(** Whether the core is registered under the name *)
Fixpoint registered (c : Cold) (paths : NounList) (core chum : noun) : cold_result bool :=
  match paths with
  | [] => Ok false
  | path :: paths =>
      match path with
      | NCell head _ =>
          if decide (head = chum) then
            l ← look (path_to_batteries c) path;
            match l with
            | Some batteries_list =>
                found ← BatteriesList_matches batteries_list core;
                match found with Some _ => Ok true | None => registered c paths core chum end
            | None => registered c paths core chum
            end
          else registered c paths core chum
      | NAtom _ => registered c paths core chum
      end
  end.

(** The loop over the paths of the parent, which [register] has twice: the state is
    [path_to_batteries], [battery_to_paths] and whether a parent was found *)
Fixpoint register_under (paths : NounList) (parent battery : noun) (parent_axis : atom) (chum : noun)
    (ptb : M BatteriesList) (btp : M NounList) (ret : bool) : cold_result (M BatteriesList * M NounList * bool) :=
  match paths with
  | [] => Ok (ptb, btp, ret)
  | a_path :: paths =>
      battery_list ← look ptb a_path;
      found ← BatteriesList_matches (default [] battery_list) parent;
      match found with
      | Some parent_batteries =>
          let my_path := T [chum; a_path] in
          current_batteries_list ← look ptb my_path;
          current_paths_list ← look btp battery;
          ptb ← put ptb my_path (((battery, parent_axis) :: parent_batteries) :: default [] current_batteries_list);
          btp ← put btp battery (my_path :: default [] current_paths_list);
          register_under paths parent battery parent_axis chum ptb btp true
      | None => register_under paths parent battery parent_axis chum ptb btp ret
      end
  end.

(** An error leaves the cold state as it is. *)
Definition register (c : Cold) (core : noun) (parent_axis : atom) (chum : noun) : cold_result (Cold * bool) :=
  if is_root_axis parent_axis then register_root c core chum
  else
    battery ← or_bad (slot core 2);
    parent ← or_bad (slot_atom core parent_axis);
    paths ← look (battery_to_paths c) battery;
    known ← registered c (default [] paths) core chum;
    if (known : bool) then Ok (c, false)
    else
      parent_battery ← or_bad (slot parent 2);
      paths ← look (battery_to_paths c) parent_battery;
      '(ptb, btp, ret) ← register_under (default [] paths) parent battery parent_axis chum
        (path_to_batteries c) (battery_to_paths c) false;
      paths ← look (root_to_paths c) parent;
      '(ptb, btp, ret) ← register_under (default [] paths) parent battery parent_axis chum ptb btp ret;
      if (ret : bool) then Ok ({| battery_to_paths := btp; root_to_paths := root_to_paths c; path_to_batteries := ptb |}, true)
      else Err NoParent.

(** * hot.rs *)

Context {Jet : Type}.

Definition hot_item := (list Z + Z * Z)%type.
Definition HotEntry := (list hot_item * Z * Jet)%type.
Definition Hot := list (noun * atom * Jet).

Definition new_panic (value : Z) : cold_result atom := if DIRECT_MAX <? value then Panic else Ok (Direct value).
Definition hot_chum (i : hot_item) : cold_result noun :=
  match i with
  | inl tas => match from_bytes tas with Some a => Ok (NAtom a) | None => Panic end
  | inr (tas, ver) => a ← new_panic tas; b ← new_panic ver; Ok (T [NAtom a; NAtom b])
  end.
Fixpoint hot_path (htap : list hot_item) (a_path : noun) : cold_result noun :=
  match htap with
  | [] => Ok a_path
  | i :: htap => chum ← hot_chum i; hot_path htap (T [chum; a_path])
  end.
Fixpoint hot_loop (constant_hot_state : list HotEntry) (next : Hot) : cold_result Hot :=
  match constant_hot_state with
  | [] => Ok next
  | (htap, axe, jet) :: rest =>
      a_path ← hot_path htap (D 0);
      axis ← new_panic axe;
      hot_loop rest ((a_path, axis, jet) :: next)
  end.
Definition Hot_init (constant_hot_state : list HotEntry) : cold_result Hot := hot_loop constant_hot_state [].

(** * warm.rs *)

Record WarmEntry := { batteries : Batteries; jet : Jet; path : noun; test : bool }.
Notation Warm := (M (list WarmEntry)).
Inductive JetLookupResult := Run (jet : Jet) (path : noun) | Test (jet : Jet) (path : noun) | NoJet.

Definition Warm_new : Warm := map_new.
Definition Warm_insert (w : Warm) (formula : noun) (e : WarmEntry) : cold_result Warm :=
  current_warm_entry ← look w formula; put w formula (e :: default [] current_warm_entry).

Fixpoint init_batteries (w : Warm) (l : BatteriesList) (path : noun) (axis : atom) (jet : Jet) (test_path : bool) : cold_result Warm :=
  match l with
  | [] => Ok w
  | [] :: _ => Panic
  | ((battery, parent_axis) :: parents) :: l =>
      match slot_atom battery axis with
      | Ok formula =>
          w ← Warm_insert w formula {| batteries := (battery, parent_axis) :: parents; jet := jet; path := path; test := test_path |};
          init_batteries w l path axis jet test_path
      | _ => init_batteries w l path axis jet test_path
      end
  end.
Fixpoint init_loop (w : Warm) (cold : Cold) (hot : Hot) (test_jets : M unit) : cold_result Warm :=
  match hot with
  | [] => Ok w
  | (path, axis, jet) :: hot =>
      test_path ← look test_jets path;
      batteries_list ← Cold_find cold path;
      w ← init_batteries w batteries_list path axis jet (match test_path with Some _ => true | None => false end);
      init_loop w cold hot test_jets
  end.
Definition Warm_init (cold : Cold) (hot : Hot) (test_jets : M unit) : cold_result Warm := init_loop Warm_new cold hot test_jets.

Fixpoint find_entry (l : list WarmEntry) (s : noun) : cold_result JetLookupResult :=
  match l with
  | [] => Ok NoJet
  | e :: l =>
      b ← Batteries_matches (batteries e) s;
      if (b : bool) then Ok (if test e then Test (jet e) (path e) else Run (jet e) (path e)) else find_entry l s
  end.
Definition find_jet (w : Warm) (s f : noun) : cold_result JetLookupResult :=
  warm_it ← look w f;
  match warm_it with None => Ok NoJet | Some l => find_entry l s end.
End cold.
Arguments Cold M : clear implicits.
Arguments WarmEntry Jet : clear implicits.
Arguments JetLookupResult Jet : clear implicits.
Arguments HotEntry Jet : clear implicits.
Arguments Hot Jet : clear implicits.

(** * The cold state as a noun *)

Inductive FromNounError := NotAtom | NotU64 | NotCell | NounError (e : error) | Utf8Error.
Notation nounable_result := (outcome FromNounError).
(** [noun::Error] by the question mark *)
Definition or_noun_error {A} (r : result A) : nounable_result A := map_err NounError r.
Definition cell_of (n : noun) : nounable_result (noun * noun) :=
  match n with NCell h t => Ok (h, t) | NAtom _ => Err (NounError Noun.NotCell) end.
Definition atom_of (n : noun) : nounable_result atom :=
  match n with NAtom a => Ok a | NCell _ _ => Err (NounError Noun.NotAtom) end.

(** A loop over [NounListIterator] that stops at the first error *)
Fixpoint noun_list_fold {A} (step : A -> noun -> nounable_result A) (n : noun) (acc : A) : nounable_result A :=
  match n with
  | NCell h t => acc ← step acc h; noun_list_fold step t acc
  | NAtom _ => if decide (n = D 0) then Ok acc else Panic
  end.

Definition NounList_into_noun (l : NounList) : noun := foldl (fun list item => T [item; list]) (D 0) l.
Definition NounList_from_noun (n : noun) : nounable_result NounList :=
  noun_list_fold (fun result item => Ok (item :: result)) n [].
Definition Batteries_into_noun (bs : Batteries) : noun :=
  foldl (fun list '(battery, parent_axis) => T [T [battery; NAtom parent_axis]; list]) (D 0) bs.
Definition Batteries_from_noun (n : noun) : nounable_result Batteries :=
  noun_list_fold (fun batteries item =>
    '(battery, t) ← cell_of item; parent_axis ← atom_of t; Ok ((battery, parent_axis) :: batteries)) n [].
Definition BatteriesList_into_noun (l : BatteriesList) : noun :=
  foldl (fun list batteries => T [Batteries_into_noun batteries; list]) (D 0) l.
Definition BatteriesList_from_noun (n : noun) : nounable_result BatteriesList :=
  noun_list_fold (fun batteries_list item => batteries ← Batteries_from_noun item; Ok (batteries :: batteries_list)) n [].

(** The loop over the pairs of a trie, in the order of its iterator *)
Definition pairs_into_noun {V} (into_noun : V -> noun) (pairs : list (noun * V)) : noun :=
  foldl (fun list '(key, value) => T [T [key; into_noun value]; list]) (D 0) pairs.
(** The loop that reads them *)
Definition pairs_from_noun {V} (from_noun : noun -> nounable_result V) (n : noun) : nounable_result (list (noun * V)) :=
  noun_list_fold (fun items item => '(key, t) ← cell_of item; value ← from_noun t; Ok (items ++ [(key, value)])) n [].

Definition cold_vecs := (list (noun * NounList) * list (noun * NounList) * list (noun * BatteriesList))%type.
Definition Cold_into_noun (iterators : cold_vecs) : noun :=
  let '(battery_to_paths, root_to_paths, path_to_batteries) := iterators in
  T [pairs_into_noun NounList_into_noun battery_to_paths; pairs_into_noun NounList_into_noun root_to_paths;
     pairs_into_noun BatteriesList_into_noun path_to_batteries].
Definition Cold_from_noun (n : noun) : nounable_result cold_vecs :=
  battery_to_paths_noun ← or_noun_error (slot n 2);
  root_to_paths_noun ← or_noun_error (slot n 6);
  path_to_batteries_noun ← or_noun_error (slot n 7);
  battery_to_paths ← pairs_from_noun NounList_from_noun battery_to_paths_noun;
  root_to_paths ← pairs_from_noun NounList_from_noun root_to_paths_noun;
  path_to_batteries ← pairs_from_noun BatteriesList_from_noun path_to_batteries_noun;
  Ok (rev battery_to_paths, rev root_to_paths, rev path_to_batteries).

Section from_vecs.
Context {M : Type -> Type} `{HM : !NounMap M}.
Fixpoint hamt_loop {V} (items : list (noun * V)) (hamt : M V) : cold_result (M V) :=
  match items with
  | [] => Ok hamt
  | (key, value) :: items => hamt ← put hamt key value; hamt_loop items hamt
  end.
Definition hamt_from_vec {V} (items : list (noun * V)) : cold_result (M V) := hamt_loop items map_new.
Definition from_vecs (vecs : cold_vecs) : cold_result (Cold M) :=
  let '(btp, rtp, ptb) := vecs in
  battery_to_paths ← hamt_from_vec btp;
  root_to_paths ← hamt_from_vec rtp;
  path_to_batteries ← hamt_from_vec ptb;
  Ok {| battery_to_paths := battery_to_paths; root_to_paths := root_to_paths; path_to_batteries := path_to_batteries |}.
End from_vecs.
