(* ===== verification/ColdWarmTheorems.v ===== *)
(** The cold and warm state as an index of core hierarchies.

    The abstract cold state is the relation [held] between paths and hierarchies; the
    maps of the code index it by path, by battery and by root ([cold_ok]), and
    registration adds exactly hierarchies that the registered core lies in. *)
From stdpp Require Import base option list numbers sets.
From Stdlib Require Import ZArith Lia.
From S2P Require Import Prelude Noun Hamt HamtTheorems NounSerde ColdWarm.
Local Open Scope Z_scope.

(** * Hierarchies *)

(** Only the last entry is a root. *)
Fixpoint rooted (bs : Batteries) : Prop :=
  match bs with
  | [] => False
  | (_, axis) :: bs => if is_root_axis axis then bs = [] else rooted bs
  end.
(** A path has one name for each battery. *)
Fixpoint named (p : noun) (bs : Batteries) : Prop :=
  match bs with
  | [] => p = D 0
  | _ :: bs => exists chum q, p = T [chum; q] /\ named q bs
  end.
(** The core has the batteries of the hierarchy, each in its parent. *)
Fixpoint lies (core : noun) (bs : Batteries) : bool :=
  match bs with
  | [] => false
  | (battery, axis) :: bs =>
      if is_root_axis axis then bool_decide (core = battery)
      else match slot core 2, slot_atom core axis with
           | Ok b, Ok parent => bool_decide (b = battery) && lies parent bs
           | _, _ => false
           end
  end.

Lemma is_root_axis_true axis : is_root_axis axis = true -> axis = Direct 0.
Proof. destruct axis as [d|]; cbn; [|done]. by intros ->%Z.eqb_eq. Qed.

Lemma matches_rooted bs core : rooted bs -> Batteries_matches bs core = Ok (lies core bs).
Proof.
  unfold Batteries_matches. revert core. induction bs as [|[b a] bs IH]; intros core; [done|]. cbn [rooted matches_loop lies].
  destruct (is_root_axis a).
  { intros ->. case_decide; case_bool_decide; done. }
  intros Hr. destruct (slot core 2) as [cb| |]; [|done..]. case_decide as Hb.
  - rewrite bool_decide_true by done. destruct (slot_atom core a) as [p| |]; [|done..]. cbn. by apply IH.
  - rewrite bool_decide_false by done. by destruct (slot_atom core a).
Qed.
Lemma list_matches_rooted l core :
  Forall rooted l -> BatteriesList_matches l core = Ok (List.find (lies core) l).
Proof.
  induction 1 as [|bs l Hbs _ IH]; [done|]. cbn [BatteriesList_matches List.find]. rewrite matches_rooted by done.
  cbn [mbind outcome_bind]. by destruct (lies core bs).
Qed.
Lemma find_none_lies l core bs : List.find (lies core) l = None -> bs ∈ l -> lies core bs = false.
Proof. intros H Hin. apply (find_none _ _ H). by apply list_elem_of_In. Qed.
Lemma find_some_lies l core bs : List.find (lies core) l = Some bs -> bs ∈ l /\ lies core bs = true.
Proof. intros [H1 H2]%find_some. by rewrite list_elem_of_In. Qed.

(** A core in a hierarchy that is not a root *)
Lemma lies_cons core battery axis bs parent :
  is_root_axis axis = false -> slot core 2 = Ok battery -> slot_atom core axis = Ok parent ->
  lies core ((battery, axis) :: bs) = lies parent bs.
Proof. intros Ha Hb Hp. cbn [lies]. rewrite Ha, Hb, Hp. by rewrite bool_decide_true. Qed.
Lemma lies_inv core battery axis bs :
  is_root_axis axis = false -> lies core ((battery, axis) :: bs) = true -> slot core 2 = Ok battery.
Proof.
  intros Ha. cbn [lies]. rewrite Ha. destruct (slot core 2) as [b| |], (slot_atom core axis); try done.
  case_bool_decide; by subst.
Qed.

Lemma slot_direct_loop_total axis idx h t : slot_direct_loop axis idx h t <> Panic.
Proof.
  revert h t. induction idx as [|idx IH]; intros h t; cbn [slot_direct_loop]; [done|].
  destruct (idx =? 0)%nat; [done|]. by destruct (bit_at _ _); [destruct t|destruct h].
Qed.
Lemma slot_total n axis : slot n axis <> Panic.
Proof.
  destruct n as [a|h t]; cbn; [by case_match|]. unfold slot_direct.
  repeat case_match; try done. apply slot_direct_loop_total.
Qed.
Lemma slot_indirect_loop_total ws idx h t : slot_indirect_loop ws idx h t <> Panic.
Proof.
  revert h t. induction idx as [|idx IH]; intros h t; cbn [slot_indirect_loop]; [done|].
  destruct (idx =? 0)%nat; [done|]. by destruct (word_bit _ _); [destruct t|destruct h].
Qed.
Lemma slot_atom_total n a : slot_atom n a <> Panic.
Proof.
  destruct a as [d|ws]; [apply slot_total|]. destruct n as [a|h t]; cbn; [by repeat case_match|].
  unfold slot_indirect. case_match; [apply slot_indirect_loop_total|done].
Qed.

Section cold.
Context {M : Type -> Type} `{HM : !NounMap M} `{HL : !NounMapLaws M}.

(** * Maps of lists *)

Definition at_ {A} (m : M (list A)) (k : noun) : list A :=
  match map_lookup m k with Some (Some l) => l | _ => [] end.

Lemma look_at {E A} (m : M (list A)) k : map_ok m -> exists o, look (E := E) m k = Ok o /\ default [] o = at_ m k.
Proof. intros Hm. destruct (map_lookup_ok m k Hm) as [o E']. exists o. unfold look, at_. rewrite E'. by destruct o. Qed.
Lemma put_at {E A} (m : M (list A)) k l :
  map_ok m -> exists m', put (E := E) m k l = Ok m' /\ map_ok m' /\ forall k', at_ m' k' = if decide (k' = k) then l else at_ m k'.
Proof.
  intros Hm. destruct (map_insert_ok m k l Hm) as (m' & E' & Hm' & Hl). exists m'. unfold put. rewrite E'.
  split_and!; [done..|]. intros k'. unfold at_. rewrite Hl. by case_decide.
Qed.
Lemma at_new {A} k : at_ (map_new : M (list A)) k = [].
Proof. unfold at_. by rewrite map_lookup_new. Qed.

(** * The invariant *)

Definition held (c : Cold M) (p : noun) (bs : Batteries) : Prop := bs ∈ at_ (path_to_batteries c) p.

Record cold_ok (c : Cold M) : Prop := {
  co_btp : map_ok (battery_to_paths c);
  co_rtp : map_ok (root_to_paths c);
  co_ptb : map_ok (path_to_batteries c);
  co_rooted p bs : held c p bs -> rooted bs;
  co_named p bs : held c p bs -> named p bs;
  co_parent p entry bs : held c p (entry :: bs) -> bs <> [] -> exists chum q, p = T [chum; q] /\ held c q bs;
  co_battery b p : p ∈ at_ (battery_to_paths c) b <-> exists axis bs, is_root_axis axis = false /\ held c p ((b, axis) :: bs);
  co_root r p : p ∈ at_ (root_to_paths c) r <-> held c p [(r, Direct 0)]
}.

Lemma cold_new_ok : cold_ok Cold_new.
Proof.
  split; unfold held; cbn [battery_to_paths root_to_paths path_to_batteries]; try apply map_new_ok;
    setoid_rewrite at_new; set_solver.
Qed.

Lemma held_find c p core :
  cold_ok c -> BatteriesList_matches (at_ (path_to_batteries c) p) core = Ok (List.find (lies core) (at_ (path_to_batteries c) p)).
Proof. intros Hc. apply list_matches_rooted, Forall_forall. intros bs Hbs. by apply (co_rooted _ Hc p). Qed.
Lemma list_matches_none l core bs :
  List.find (lies core) l = None -> bs ∈ l -> lies core bs = true -> False.
Proof. intros H Hin Hl. pose proof (find_none_lies _ _ _ H Hin). congruence. Qed.

(** ** Adding one hierarchy *)

Definition adds (c c' : Cold M) (p : noun) (bs : Batteries) : Prop :=
  forall p' bs', held c' p' bs' <-> (p' = p /\ bs' = bs) \/ held c p' bs'.

Lemma put_adds c p bs ptb btp rtp :
  (forall k, at_ ptb k = if decide (k = p) then bs :: at_ (path_to_batteries c) p else at_ (path_to_batteries c) k) ->
  adds c {| battery_to_paths := btp; root_to_paths := rtp; path_to_batteries := ptb |} p bs.
Proof. intros H p' bs'. unfold held. cbn [path_to_batteries]. rewrite H. case_decide; set_solver. Qed.

Lemma add_under c q bs battery axis chum ptb btp :
  cold_ok c -> held c q bs -> is_root_axis axis = false -> map_ok ptb -> map_ok btp ->
  (forall k, at_ ptb k = if decide (k = T [chum; q]) then ((battery, axis) :: bs) :: at_ (path_to_batteries c) (T [chum; q])
                         else at_ (path_to_batteries c) k) ->
  (forall k, at_ btp k = if decide (k = battery) then T [chum; q] :: at_ (battery_to_paths c) battery
                         else at_ (battery_to_paths c) k) ->
  cold_ok {| battery_to_paths := btp; root_to_paths := root_to_paths c; path_to_batteries := ptb |}.
Proof.
  intros Hc Hq Ha Hptb Hbtp Ep Eb.
  pose proof (put_adds c (T [chum; q]) ((battery, axis) :: bs) ptb btp (root_to_paths c) Ep) as Hadd.
  pose proof (co_rooted _ Hc _ _ Hq) as Hr.
  split; cbn [battery_to_paths root_to_paths path_to_batteries]; try done.
  - apply (co_rtp _ Hc).
  - intros p bs' [[-> ->]|H]%Hadd; [cbn; by rewrite Ha|by apply (co_rooted _ Hc p)].
  - intros p bs' [[-> ->]|H]%Hadd; [|by apply (co_named _ Hc)].
    exists chum, q. split; [done|]. by apply (co_named _ Hc).
  - intros p e bs' [[-> [= -> ->]]|H]%Hadd Hne.
    + exists chum, q. split; [done|]. apply Hadd. by right.
    + destruct (co_parent _ Hc _ _ _ H Hne) as (ch & q' & -> & H'). exists ch, q'. split; [done|]. apply Hadd. by right.
  - intros b p. rewrite Eb. case_decide as Hb.
    + subst b. rewrite elem_of_cons, (co_battery _ Hc). split.
      * intros [->|(ax & bs' & H1 & H2)]; [exists axis, bs|exists ax, bs']; (split; [done|]); apply Hadd; first [by left|by right].
      * intros (ax & bs' & H1 & [[-> [= -> ->]]|H2]%Hadd); [by left|right; eauto].
    + rewrite (co_battery _ Hc). split; intros (ax & bs' & H1 & H2); exists ax, bs'; (split; [done|]).
      * apply Hadd. by right.
      * apply Hadd in H2 as [[-> [= -> -> ->]]|H2]; done.
  - intros r p. rewrite (co_root _ Hc). split; intros H; [apply Hadd; by right|].
    apply Hadd in H as [[-> [= -> <- ->]]|H]; [|done]. done.
Qed.

Lemma add_root c core chum ptb rtp :
  cold_ok c -> map_ok ptb -> map_ok rtp ->
  (forall k, at_ ptb k = if decide (k = T [chum; D 0]) then [(core, Direct 0)] :: at_ (path_to_batteries c) (T [chum; D 0])
                         else at_ (path_to_batteries c) k) ->
  (forall k, at_ rtp k = if decide (k = core) then T [chum; D 0] :: at_ (root_to_paths c) core
                         else at_ (root_to_paths c) k) ->
  cold_ok {| battery_to_paths := battery_to_paths c; root_to_paths := rtp; path_to_batteries := ptb |}.
Proof.
  intros Hc Hptb Hrtp Ep Er.
  pose proof (put_adds c (T [chum; D 0]) [(core, Direct 0)] ptb (battery_to_paths c) rtp Ep) as Hadd.
  split; cbn [battery_to_paths root_to_paths path_to_batteries]; try done.
  - apply (co_btp _ Hc).
  - intros p bs' [[-> ->]|H]%Hadd; [done|by apply (co_rooted _ Hc p)].
  - intros p bs' [[-> ->]|H]%Hadd; [|by apply (co_named _ Hc)]. by exists chum, (D 0).
  - intros p e bs' [[-> [= -> ->]]|H]%Hadd Hne; [done|].
    destruct (co_parent _ Hc _ _ _ H Hne) as (ch & q' & -> & H'). exists ch, q'. split; [done|]. apply Hadd. by right.
  - intros b p. rewrite (co_battery _ Hc). split; intros (ax & bs' & H1 & H2); exists ax, bs'; (split; [done|]).
    + apply Hadd. by right.
    + apply Hadd in H2 as [[-> [= -> -> ->]]|H2]; done.
  - intros r p. rewrite Er. case_decide as Hr.
    + subst r. rewrite elem_of_cons, (co_root _ Hc). split.
      * intros [->|H]; apply Hadd; first [by left|by right].
      * intros [[-> _]|H]%Hadd; first [by left|by right].
    + rewrite (co_root _ Hc). split; intros H; [apply Hadd; by right|]. apply Hadd in H as [[-> [= ->]]|H]; done.
Qed.

(** ** The loop over the paths of a parent *)

Section under.
Context (parent battery : noun) (axis : atom) (chum : noun) (Ha : is_root_axis axis = false).

(** Hierarchies are added above ones in which the parent lies. *)
Record grown (c c' : Cold M) : Prop := {
  grown_keeps p bs : held c p bs -> held c' p bs;
  grown_new p bs : held c' p bs -> held c p bs \/
    exists q bs', p = T [chum; q] /\ bs = (battery, axis) :: bs' /\ held c' q bs' /\ lies parent bs' = true
}.
Lemma grown_refl c : grown c c.
Proof. split; auto. Qed.
Lemma grown_trans c1 c2 c3 : grown c1 c2 -> grown c2 c3 -> grown c1 c3.
Proof.
  intros [K1 N1] [K2 N2]. split; [auto|]. intros p bs [H|H]%N2; [|by right].
  apply N1 in H as [H|(q & bs' & E1 & E2 & H & L)]; [by left|]. right. eauto 10.
Qed.

Lemma register_under_run paths : forall c ret,
  cold_ok c ->
  exists c' ret', register_under paths parent battery axis chum (path_to_batteries c) (battery_to_paths c) ret =
      Ok (path_to_batteries c', battery_to_paths c', ret') /\
    root_to_paths c' = root_to_paths c /\ cold_ok c' /\ grown c c' /\
    (ret' = true -> ret = true \/ exists q bs, held c' (T [chum; q]) ((battery, axis) :: bs) /\ lies parent bs = true) /\
    (ret' = false -> ret = false /\ forall q bs, q ∈ paths -> held c q bs -> lies parent bs = false).
Proof.
  induction paths as [|a_path paths IH]; intros c ret Hc; cbn [register_under].
  { exists c, ret. split_and!; [done..|apply grown_refl|by left|]. intros ->. split; [done|]. set_solver. }
  destruct (look_at (E := ColdError) (path_to_batteries c) a_path (co_ptb _ Hc)) as (o & -> & Eo). cbn [mbind outcome_bind].
  rewrite Eo, held_find by done. cbn [mbind outcome_bind].
  destruct (List.find (lies parent) (at_ (path_to_batteries c) a_path)) as [bs|] eqn:Ef.
  2: { destruct (IH c ret Hc) as (c' & ret' & E & Hr & Hc' & Hg & Ht & Hf). exists c', ret'. split_and!; try done.
    intros H%Hf. destruct H as [-> H]. split; [done|]. intros q bs [->|Hq]%elem_of_cons Hh; [by apply (find_none_lies _ _ _ Ef)|eauto]. }
  apply find_some_lies in Ef as [Hbs Hl].
  destruct (look_at (E := ColdError) (path_to_batteries c) (T [chum; a_path]) (co_ptb _ Hc)) as (o1 & -> & Eo1).
  destruct (look_at (E := ColdError) (battery_to_paths c) battery (co_btp _ Hc)) as (o2 & -> & Eo2). cbn [mbind outcome_bind].
  rewrite Eo1, Eo2.
  destruct (put_at (E := ColdError) (path_to_batteries c) (T [chum; a_path])
    (((battery, axis) :: bs) :: at_ (path_to_batteries c) (T [chum; a_path])) (co_ptb _ Hc)) as (ptb & -> & Hptb & Ep).
  destruct (put_at (E := ColdError) (battery_to_paths c) battery (T [chum; a_path] :: at_ (battery_to_paths c) battery) (co_btp _ Hc))
    as (btp & -> & Hbtp & Eb). cbn [mbind outcome_bind].
  pose proof (add_under c a_path bs battery axis chum ptb btp Hc Hbs Ha Hptb Hbtp Ep Eb) as Hc1.
  pose proof (put_adds c (T [chum; a_path]) ((battery, axis) :: bs) ptb btp (root_to_paths c) Ep) as Hadd.
  destruct (IH _ true Hc1) as (c' & ret' & E & Hr & Hc' & Hg & Ht & Hf). cbn [path_to_batteries battery_to_paths] in E.
  exists c', ret'. split_and!; try done.
  - refine (grown_trans _ _ _ _ Hg). split; [intros p bs' H; apply Hadd; by right|].
    intros p bs' [[-> ->]|H]%Hadd; [right|by left]. exists a_path, bs. split_and!; try done. apply Hadd. by right.
  - intros _. right. exists a_path, bs. split; [|done]. apply (grown_keeps _ _ Hg), Hadd. by left.
  - intros H%Hf. by destruct H.
Qed.
End under.

(** ** Registration *)

(** The core is registered under the name. *)
Definition known (c : Cold M) (core : noun) (axis : atom) (chum : noun) : Prop :=
  if is_root_axis axis then held c (T [chum; D 0]) [(core, Direct 0)]
  else exists q battery ax bs, is_root_axis ax = false /\ held c (T [chum; q]) ((battery, ax) :: bs) /\
         lies core ((battery, ax) :: bs) = true.

Lemma named_length p bs bs' : named p bs -> named p bs' -> length bs = length bs'.
Proof.
  revert p bs'. induction bs as [|x bs IH]; intros p [|x' bs']; cbn [named length]; try done.
  - intros -> (? & ? & ? & _). done.
  - intros (? & ? & -> & _) ?. done.
  - intros (ch & q & -> & H) (ch' & q' & [= -> ->] & H'). by rewrite (IH q' bs').
Qed.
(** The hierarchies of one path are all roots or none is. *)
Lemma same_kind c p battery ax bs bs' :
  cold_ok c -> is_root_axis ax = false -> held c p ((battery, ax) :: bs) -> held c p bs' ->
  exists b' ax' bs2, bs' = (b', ax') :: bs2 /\ is_root_axis ax' = false.
Proof.
  intros Hc Ha H H'. pose proof (named_length _ _ _ (co_named _ Hc _ _ H) (co_named _ Hc _ _ H')) as L.
  pose proof (co_rooted _ Hc _ _ H) as R. pose proof (co_rooted _ Hc _ _ H') as R'. cbn [rooted] in R. rewrite Ha in R.
  destruct bs as [|x bs]; [done|]. destruct bs' as [|[b' ax'] [|y bs']]; [done..|]. cbn [rooted] in R'.
  exists b', ax', (y :: bs'). split; [done|]. by destruct (is_root_axis ax').
Qed.

Lemma registered_run c paths core chum :
  cold_ok c -> exists b, registered c paths core chum = Ok b /\
    (b = true <-> exists q bs, T [chum; q] ∈ paths /\ held c (T [chum; q]) bs /\ lies core bs = true).
Proof.
  intros Hc. induction paths as [|p paths (b & E & Hb)]; cbn [registered].
  { exists false. split; [done|]. split; [done|]. intros (q & bs & H & _). by apply not_elem_of_nil in H. }
  assert (Hskip : (forall q bs, p = T [chum; q] -> held c p bs -> lies core bs = true -> False) ->
    exists b, registered c paths core chum = Ok b /\
      (b = true <-> exists q bs, T [chum; q] ∈ p :: paths /\ held c (T [chum; q]) bs /\ lies core bs = true)).
  { intros Hno. exists b. split; [done|]. rewrite Hb. split; intros (q & bs & H1 & H2 & H3); exists q, bs; (split; [|done]).
    - by right.
    - apply elem_of_cons in H1 as [H1|H1]; [|done]. destruct (Hno q bs (eq_sym H1)); [by rewrite <- H1|done]. }
  destruct p as [a|h t]; [by apply Hskip|]. case_decide as Hh; [|apply Hskip; by intros q bs [= ? ?]]. subst h.
  destruct (look_at (E := ColdError) (path_to_batteries c) (NCell chum t) (co_ptb _ Hc)) as (o & -> & Eo). cbn [mbind outcome_bind].
  destruct o as [l|]; cbn in Eo.
  2: { apply Hskip. intros q bs [= ->] H _. unfold held in H. rewrite <- Eo in H. by apply not_elem_of_nil in H. }
  rewrite Eo, held_find by done. cbn [mbind outcome_bind].
  destruct (List.find _ _) as [bs|] eqn:Ef.
  - apply find_some_lies in Ef as [H1 H2]. exists true. split; [done|]. split; [|done]. intros _. exists t, bs. split_and!; [by left|done..].
  - apply Hskip. intros q bs [= ->] H Hl. by apply (list_matches_none _ _ _ Ef H).
Qed.

Lemma registered_known c core chum axis battery :
  cold_ok c -> is_root_axis axis = false -> slot core 2 = Ok battery ->
  exists b, registered c (at_ (battery_to_paths c) battery) core chum = Ok b /\ (b = true <-> known c core axis chum).
Proof.
  intros Hc Ha Hs.
  destruct (registered_run c (at_ (battery_to_paths c) battery) core chum Hc) as (b & -> & Hb).
  exists b. split; [done|]. rewrite Hb. unfold known. rewrite Ha. split.
  - intros (q & bs & (ax & bs0 & H1 & H2)%(co_battery _ Hc) & H3 & H4).
    destruct (same_kind c _ _ _ _ bs Hc H1 H2 H3) as (b' & ax' & bs2 & -> & H5). exists q, b', ax', bs2. done.
  - intros (q & b' & ax & bs & H1 & H2 & H3). exists q, ((b', ax) :: bs). split; [|done].
    pose proof (lies_inv _ _ _ _ H1 H3) as E. rewrite Hs in E. injection E as ->. apply (co_battery _ Hc). eauto.
Qed.

Lemma existsb_path p (l : list noun) : existsb (fun a_path => bool_decide (p = a_path)) l = true <-> p ∈ l.
Proof.
  rewrite existsb_exists. setoid_rewrite bool_decide_eq_true. rewrite list_elem_of_In.
  split; [by intros (x & H & ->)|by exists p].
Qed.
Lemma register_root_run c core chum :
  cold_ok c -> exists c' b, register_root c core chum = Ok (c', b) /\ cold_ok c' /\
    (if (b : bool) then adds c c' (T [chum; D 0]) [(core, Direct 0)] /\ ~ held c (T [chum; D 0]) [(core, Direct 0)]
     else c' = c /\ held c (T [chum; D 0]) [(core, Direct 0)]).
Proof.
  intros Hc. unfold register_root.
  destruct (look_at (E := ColdError) (root_to_paths c) core (co_rtp _ Hc)) as (o & Eo & Ed). rewrite !Eo. cbn [mbind outcome_bind].
  rewrite !Ed. destruct (existsb _ _) eqn:Ee.
  { exists c, false. split_and!; try done. apply (co_root _ Hc). by apply existsb_path. }
  assert (Hne : ~ held c (T [chum; D 0]) [(core, Direct 0)]).
  { rewrite <- (co_root _ Hc). intros H%existsb_path. congruence. }
  destruct (look_at (E := ColdError) (path_to_batteries c) (T [chum; D 0]) (co_ptb _ Hc)) as (o1 & -> & Ed1). cbn [mbind outcome_bind].
  rewrite Ed1.
  destruct (put_at (E := ColdError) (root_to_paths c) core (T [chum; D 0] :: at_ (root_to_paths c) core) (co_rtp _ Hc)) as (rtp & -> & Hrtp & Er).
  destruct (put_at (E := ColdError) (path_to_batteries c) (T [chum; D 0]) ([(core, Direct 0)] :: at_ (path_to_batteries c) (T [chum; D 0])) (co_ptb _ Hc))
    as (ptb & -> & Hptb & Ep). cbn [mbind outcome_bind].
  do 2 eexists. split; [done|]. split; [by apply (add_root c core chum ptb rtp)|]. split; [by apply put_adds|done].
Qed.

(** What [register] returns, by cases *)
Definition register_spec (c : Cold M) (core : noun) (axis : atom) (chum : noun) : Prop :=
  match register c core axis chum with
  | Ok (c', false) => c' = c /\ known c core axis chum
  | Ok (c', true) =>
      cold_ok c' /\ ~ known c core axis chum /\ known c' core axis chum /\
      (forall p bs, held c p bs -> held c' p bs) /\
      (forall p bs, held c' p bs -> held c p bs \/ (exists q, p = T [chum; q]) /\ lies core bs = true) /\
      register c' core axis chum = Ok (c', false)
  | Err BadNock =>
      is_root_axis axis = false /\
      forall battery parent b, slot core 2 = Ok battery -> slot_atom core axis = Ok parent -> slot parent 2 <> Ok b
  | Err NoParent =>
      exists parent, slot_atom core axis = Ok parent /\ forall q bs, held c q bs -> lies parent bs = false
  | Panic => False
  end.

Lemma register_known c core axis chum battery parent :
  cold_ok c -> is_root_axis axis = false -> slot core 2 = Ok battery -> slot_atom core axis = Ok parent ->
  known c core axis chum -> register c core axis chum = Ok (c, false).
Proof.
  intros Hc Ha Hb Hp Hk. unfold register. rewrite Ha, Hb, Hp. cbn [or_bad map_err mbind outcome_bind].
  destruct (look_at (E := ColdError) (battery_to_paths c) battery (co_btp _ Hc)) as (o & -> & Ed). cbn [mbind outcome_bind]. rewrite Ed.
  destruct (registered_known c core chum axis battery Hc Ha Hb) as (b & -> & Hkn). cbn [mbind outcome_bind].
  by rewrite (proj2 Hkn Hk).
Qed.

Lemma register_root_spec c core axis chum : cold_ok c -> is_root_axis axis = true -> register_spec c core axis chum.
Proof.
  intros Hc Ha. unfold register_spec, known. rewrite Ha.
  assert (E : forall c, register c core axis chum = register_root c core chum) by (intros ?; unfold register; by rewrite Ha).
  rewrite E. destruct (register_root_run c core chum Hc) as (c' & b & -> & Hc' & Hb). destruct b; [|done].
  destruct Hb as [Hadd Hne]. assert (Hk : held c' (T [chum; D 0]) [(core, Direct 0)]) by (apply Hadd; by left).
  split_and!; try done.
  - intros p bs H. apply Hadd. by right.
  - intros p bs [[-> ->]|H]%Hadd; [right|by left]. split; [by exists (D 0)|]. cbn. by rewrite bool_decide_true.
  - rewrite E. destruct (register_root_run c' core chum Hc') as (c2 & b & -> & _ & Hb).
    destruct b; [by destruct Hb|]. by destruct Hb as [-> _].
Qed.

Lemma register_fresh c core axis chum battery parent pb :
  cold_ok c -> is_root_axis axis = false -> slot core 2 = Ok battery -> slot_atom core axis = Ok parent ->
  slot parent 2 = Ok pb -> ~ known c core axis chum ->
  exists c' r, register c core axis chum = (if (r : bool) then Ok (c', true) else Err NoParent) /\
    cold_ok c' /\ grown parent battery axis chum c c' /\
    (r = true -> exists q bs, held c' (T [chum; q]) ((battery, axis) :: bs) /\ lies parent bs = true) /\
    (r = false -> forall q bs, held c q bs -> lies parent bs = false).
Proof.
  intros Hc Ha Hb Hp Hpb Hk. unfold register. rewrite Ha, Hb, Hp. cbn [or_bad map_err mbind outcome_bind].
  destruct (look_at (E := ColdError) (battery_to_paths c) battery (co_btp _ Hc)) as (o & -> & Ed). cbn [mbind outcome_bind]. rewrite Ed.
  destruct (registered_known c core chum axis battery Hc Ha Hb) as (b & -> & Hkn). cbn [mbind outcome_bind].
  destruct b; [by destruct Hk; apply Hkn|]. rewrite Hpb. cbn [or_bad map_err mbind outcome_bind].
  destruct (look_at (E := ColdError) (battery_to_paths c) pb (co_btp _ Hc)) as (o1 & -> & Ed1). cbn [mbind outcome_bind]. rewrite Ed1.
  destruct (register_under_run parent battery axis chum Ha (at_ (battery_to_paths c) pb) c false Hc)
    as (c1 & r1 & -> & Hr1 & Hc1 & Hg1 & Ht1 & Hf1). cbn [mbind outcome_bind].
  destruct (look_at (E := ColdError) (root_to_paths c) parent (co_rtp _ Hc)) as (o2 & -> & Ed2). cbn [mbind outcome_bind]. rewrite Ed2.
  destruct (register_under_run parent battery axis chum Ha (at_ (root_to_paths c) parent) c1 r1 Hc1)
    as (c2 & r2 & -> & Hr2 & Hc2 & Hg2 & Ht2 & Hf2). cbn [mbind outcome_bind].
  exists c2, r2. split_and!; [|done|by eapply grown_trans|..].
  - destruct r2; [|done]. destruct c2 as [btp2 rtp2 ptb2]; cbn in *. by rewrite <- Hr1, <- Hr2.
  - intros [->|?]%Ht2; [|done]. destruct Ht1 as [?|(q & bs & H & L)]; [done..|]. exists q, bs. split; [|done]. by apply (grown_keeps _ _ _ _ _ _ Hg2).
  - intros [-> H2]%Hf2 q [|[b ax] bs] Hh; [done|]. destruct (Hf1 eq_refl) as [_ H1].
    destruct (lies parent ((b, ax) :: bs)) eqn:El; [exfalso|done]. destruct (is_root_axis ax) eqn:Eax.
    + pose proof (co_rooted _ Hc _ _ Hh) as R. pose proof El as El'. cbn in R, El'. rewrite Eax in R, El'.
      apply bool_decide_eq_true in El' as <-. subst bs. apply is_root_axis_true in Eax as ->.
      rewrite (H2 q _) in El; [done|by apply (co_root _ Hc)|by apply (grown_keeps _ _ _ _ _ _ Hg1)].
    + pose proof (lies_inv _ _ _ _ Eax El) as E'. rewrite Hpb in E'. injection E' as ->.
      rewrite (H1 q _) in El; [done| |done]. apply (co_battery _ Hc). eauto.
Qed.

Lemma register_correct c core axis chum : cold_ok c -> register_spec c core axis chum.
Proof.
  intros Hc. destruct (is_root_axis axis) eqn:Ha; [by apply register_root_spec|]. unfold register_spec.
  destruct (slot core 2) as [battery|e|] eqn:Hb; [|unfold register; rewrite Ha, Hb; cbn; split; [done|congruence]|by destruct (slot_total core 2)].
  destruct (slot_atom core axis) as [parent|e|] eqn:Hp;
    [|unfold register; rewrite Ha, Hb, Hp; cbn; split; [done|congruence]|by destruct (slot_atom_total core axis)].
  destruct (registered_known c core chum axis battery Hc Ha Hb) as ([] & Er & Hkn).
  { rewrite (register_known c core axis chum battery parent); try done; [|by apply Hkn]. split; [done|by apply Hkn]. }
  assert (Hk : ~ known c core axis chum) by (intros H%Hkn; done).
  destruct (slot parent 2) as [pb|e|] eqn:Hpb; [| |by destruct (slot_total parent 2)].
  2: { destruct (look_at (E := ColdError) (battery_to_paths c) battery (co_btp _ Hc)) as (o & Eo & Ed).
    unfold register. rewrite Ha, Hb, Hp. cbn [or_bad map_err mbind outcome_bind]. rewrite Eo. cbn [mbind outcome_bind].
    rewrite Ed, Er. cbn [mbind outcome_bind]. rewrite Hpb. cbn. split; [done|congruence]. }
  destruct (register_fresh c core axis chum battery parent pb Hc Ha Hb Hp Hpb Hk) as (c' & r & -> & Hc' & Hg & Ht & Hf).
  destruct r; [|exists parent; split; [done|by apply Hf]]. destruct (Ht eq_refl) as (q & bs & Hh & Hl).
  assert (Hk' : known c' core axis chum).
  { unfold known. rewrite Ha. exists q, battery, axis, bs. split_and!; [done..|]. by rewrite (lies_cons _ _ _ _ parent). }
  split_and!; try done.
  - apply (grown_keeps _ _ _ _ _ _ Hg).
  - intros p bs' [H|(q' & bs2 & -> & -> & H1 & H2)]%(grown_new _ _ _ _ _ _ Hg); [by left|right].
    split; [by exists q'|]. by rewrite (lies_cons _ _ _ _ parent).
  - by eapply register_known.
Qed.

(** ** Matching *)

Lemma matches_paths_run c paths core :
  cold_ok c -> exists o, matches_paths c paths core = Ok o /\
    match o with
    | Some p => p ∈ paths /\ exists bs, held c p bs /\ lies core bs = true
    | None => forall p bs, p ∈ paths -> held c p bs -> lies core bs = false
    end.
Proof.
  intros Hc. induction paths as [|p paths (o & E & Ho)]; cbn [matches_paths].
  { exists None. split; [done|]. intros p bs H. by apply not_elem_of_nil in H. }
  destruct (look_at (E := ColdError) (path_to_batteries c) p (co_ptb _ Hc)) as (l & -> & El). cbn [mbind outcome_bind].
  assert (Hskip : (forall bs, held c p bs -> lies core bs = false) -> exists o, matches_paths c paths core = Ok o /\
    match o with
    | Some p' => p' ∈ p :: paths /\ exists bs, held c p' bs /\ lies core bs = true
    | None => forall p' bs, p' ∈ p :: paths -> held c p' bs -> lies core bs = false
    end).
  { intros Hno. exists o. split; [done|]. destruct o as [p'|].
    - destruct Ho. split; [by right|done].
    - intros p' bs [->|H]%elem_of_cons; eauto. }
  destruct l as [l|]; cbn in El.
  - rewrite El, held_find by done. cbn [mbind outcome_bind]. destruct (List.find _ _) as [bs|] eqn:Ef.
    + apply find_some_lies in Ef as [H1 H2]. exists (Some p). split; [done|]. split; [by left|]. by exists bs.
    + apply Hskip. intros bs H. by apply (find_none_lies _ _ _ Ef).
  - apply Hskip. intros bs H. unfold held in H. rewrite <- El in H. by apply not_elem_of_nil in H.
Qed.
Lemma matches_correct c core :
  cold_ok c -> exists o, Cold_matches c core = Ok o /\
    match o with
    | Some p => exists battery axis bs, is_root_axis axis = false /\ held c p ((battery, axis) :: bs) /\
                  lies core ((battery, axis) :: bs) = true
    | None => forall p battery axis bs, is_root_axis axis = false -> held c p ((battery, axis) :: bs) ->
                lies core ((battery, axis) :: bs) = false
    end.
Proof.
  intros Hc. unfold Cold_matches. destruct (slot core 2) as [battery|e|] eqn:Hb.
  2, 3: exists None; (split; [done|]); intros p b ax bs Ha _; cbn [lies]; by rewrite Ha, Hb.
  destruct (look_at (E := ColdError) (battery_to_paths c) battery (co_btp _ Hc)) as (l & -> & El). cbn [mbind outcome_bind].
  assert (Hin : forall p b ax bs, is_root_axis ax = false -> held c p ((b, ax) :: bs) -> lies core ((b, ax) :: bs) = true ->
    p ∈ at_ (battery_to_paths c) battery).
  { intros p b ax bs Ha Hh Hl. pose proof (lies_inv _ _ _ _ Ha Hl) as E. rewrite Hb in E. injection E as ->. apply (co_battery _ Hc). eauto. }
  destruct l as [l|]; cbn in El.
  - rewrite El. destruct (matches_paths_run c (at_ (battery_to_paths c) battery) core Hc) as ([p|] & -> & Ho).
    + exists (Some p). split; [done|]. destruct Ho as (Hp & bs & Hh & Hl). apply (co_battery _ Hc) in Hp as (ax & bs0 & Ha & Hh0).
      destruct (same_kind c p battery ax bs0 bs Hc Ha Hh0 Hh) as (b' & ax' & bs' & -> & Ha'). by exists b', ax', bs'.
    + exists None. split; [done|]. intros p b ax bs Ha Hh. destruct (lies core _) eqn:Hl; [|done].
      rewrite (Ho p _ (Hin _ _ _ _ Ha Hh Hl) Hh) in Hl. done.
  - exists None. split; [done|]. intros p b ax bs Ha Hh. destruct (lies core _) eqn:Hl; [|done].
    pose proof (Hin _ _ _ _ Ha Hh Hl) as H. rewrite <- El in H. by apply not_elem_of_nil in H.
Qed.

(** * The warm state *)

Section warm.
Context {Jet : Type}.

Definition tested (test_jets : M unit) (path : noun) : bool :=
  match map_lookup test_jets path with Some (Some _) => true | _ => false end.
(** The entry of a hierarchy at the path of a hot jet, with the formula it is for *)
Definition entry_of (path : noun) (axis : atom) (jet : Jet) (test : bool) (bs : Batteries) : option (noun * WarmEntry Jet) :=
  match bs with
  | [] => None
  | (battery, _) :: _ => f ← ok_of (slot_atom battery axis); Some (f, {| batteries := bs; jet := jet; path := path; test := test |})
  end.
(** All entries in the order in which [Warm::init] inserts them *)
Definition entries (cold : Cold M) (hot : Hot Jet) (test_jets : M unit) : list (noun * WarmEntry Jet) :=
  flat_map (fun '(path, axis, jet) =>
    omap (entry_of path axis jet (tested test_jets path)) (at_ (path_to_batteries cold) path)) hot.
Definition for_formula (f : noun) (es : list (noun * WarmEntry Jet)) : list (WarmEntry Jet) :=
  map snd (List.filter (fun x => bool_decide (x.1 = f)) es).
Definition lookup_result (e : option (WarmEntry Jet)) : JetLookupResult Jet :=
  match e with
  | None => NoJet
  | Some e => if test e then Test (jet e) (path e) else Run (jet e) (path e)
  end.

Lemma for_formula_app f es es' : for_formula f (es ++ es') = for_formula f es ++ for_formula f es'.
Proof. unfold for_formula. by rewrite List.filter_app, map_app. Qed.

Lemma init_batteries_run l path axis jet test : forall w,
  Forall rooted l -> map_ok w ->
  exists w', init_batteries w l path axis jet test = Ok w' /\ map_ok w' /\
    forall f, at_ w' f = rev (for_formula f (omap (entry_of path axis jet test) l)) ++ at_ w f.
Proof.
  induction l as [|bs l IH]; intros w Hr Hw; cbn [init_batteries]; [by exists w|].
  apply Forall_cons in Hr as [Hbs Hr]. destruct bs as [|[battery ax] bs]; [done|]. cbn [omap list_omap entry_of].
  destruct (slot_atom battery axis) as [formula| |]; cbn [ok_of mbind option_bind]; [|by apply IH..].
  unfold Warm_insert. destruct (look_at (E := ColdError) w formula Hw) as (o & -> & Eo). cbn [mbind outcome_bind]. rewrite Eo.
  set (e := {| batteries := (battery, ax) :: bs; jet := jet; path := path; test := test |}).
  destruct (put_at (E := ColdError) w formula (e :: at_ w formula) Hw) as (w1 & -> & Hw1 & E1). cbn [mbind outcome_bind].
  destruct (IH w1 Hr Hw1) as (w2 & E2 & Hw2 & Hl). exists w2. split_and!; [done..|]. intros f. rewrite Hl, E1.
  unfold for_formula. cbn [List.filter fst map]. case_decide as Hf; case_bool_decide; try congruence.
  subst f. cbn [map rev snd]. by rewrite <- app_assoc.
Qed.

Lemma init_loop_run cold test_jets hot : forall w,
  cold_ok cold -> map_ok test_jets -> map_ok w ->
  exists w', init_loop w cold hot test_jets = Ok w' /\ map_ok w' /\
    forall f, at_ w' f = rev (for_formula f (entries cold hot test_jets)) ++ at_ w f.
Proof.
  induction hot as [|[[path axis] jet] hot IH]; intros w Hc Ht Hw; cbn [init_loop entries flat_map]; [by exists w|].
  assert (El : exists o, look (E := ColdError) test_jets path = Ok o /\ (match o with Some _ => true | None => false end) = tested test_jets path).
  { unfold look, tested. destruct (map_lookup_ok test_jets path Ht) as [o ->]. exists o. by destruct o. }
  destruct El as (o & -> & Eo). cbn [mbind outcome_bind]. unfold Cold_find.
  destruct (look_at (E := ColdError) (path_to_batteries cold) path (co_ptb _ Hc)) as (o1 & -> & Ed). cbn [mbind outcome_bind]. rewrite Ed, Eo.
  destruct (init_batteries_run (at_ (path_to_batteries cold) path) path axis jet (tested test_jets path) w) as (w1 & -> & Hw1 & E1); [|done|].
  { apply Forall_forall. intros bs H. by apply (co_rooted _ Hc path). }
  cbn [mbind outcome_bind]. destruct (IH w1 Hc Ht Hw1) as (w2 & E2 & Hw2 & Hl). exists w2. split_and!; [done..|].
  intros f. rewrite Hl, E1. fold (entries cold hot test_jets). by rewrite for_formula_app, rev_app_distr, <- app_assoc.
Qed.

Lemma find_entry_run (l : list (WarmEntry Jet)) s :
  Forall (fun e => rooted (batteries e)) l -> find_entry l s = Ok (lookup_result (List.find (fun e => lies s (batteries e)) l)).
Proof.
  induction 1 as [|e l He _ IH]; [done|]. cbn [find_entry List.find]. rewrite matches_rooted by done. cbn [mbind outcome_bind].
  by destruct (lies s (batteries e)).
Qed.

(** A hot jet at a path under which the core is registered, for the formula *)
Definition candidate (cold : Cold M) (hot : Hot Jet) (s f : noun) (j : Jet) (path : noun) : Prop :=
  exists axis battery ax bs, (path, axis, j) ∈ hot /\ held cold path ((battery, ax) :: bs) /\
    slot_atom battery axis = Ok f /\ lies s ((battery, ax) :: bs) = true.

Lemma for_formula_entries cold hot test_jets f e :
  e ∈ for_formula f (entries cold hot test_jets) <->
  exists axis battery ax bs, (path e, axis, jet e) ∈ hot /\ held cold (path e) ((battery, ax) :: bs) /\
    batteries e = (battery, ax) :: bs /\ test e = tested test_jets (path e) /\ slot_atom battery axis = Ok f.
Proof.
  unfold for_formula, entries. rewrite list_elem_of_In, in_map_iff. setoid_rewrite filter_In. setoid_rewrite in_flat_map. split.
  - intros ([g e'] & He & (([[p axis] j] & Hhot & Hin) & Hg)). cbn in He, Hg. apply bool_decide_eq_true in Hg. subst e' g.
    apply list_elem_of_In, list_elem_of_omap in Hin as ([|[battery ax] bs] & Hh & E); [done|]. cbn in E.
    destruct (slot_atom battery axis) as [f'| |] eqn:Es; cbn in E; [|done..]. injection E as -> <-.
    exists axis, battery, ax, bs. split_and!; try done. by apply list_elem_of_In.
  - intros (axis & battery & ax & bs & Hhot & Hh & Eb & Et & Es). exists (f, e). split; [done|]. split; [|by apply bool_decide_eq_true].
    exists (path e, axis, jet e). split; [by apply list_elem_of_In|]. apply list_elem_of_In, list_elem_of_omap.
    exists ((battery, ax) :: bs). split; [done|]. cbn. rewrite Es. cbn. rewrite <- Eb, <- Et. by destruct e.
Qed.

Lemma warm_run cold hot test_jets :
  cold_ok cold -> map_ok test_jets ->
  exists w, Warm_init cold hot test_jets = Ok w /\ forall s f,
    find_jet w s f = Ok (lookup_result (List.find (fun e => lies s (batteries e)) (rev (for_formula f (entries cold hot test_jets))))).
Proof.
  intros Hc Ht. unfold Warm_init. destruct (init_loop_run cold test_jets hot Warm_new Hc Ht map_new_ok) as (w & -> & Hw & Hl).
  exists w. split; [done|]. intros s f. unfold find_jet. unfold Warm_new in Hl.
  assert (Hr : Forall (fun e => rooted (batteries e)) (at_ w f)).
  { rewrite Hl, at_new, app_nil_r. apply Forall_forall. intros e He.
    apply list_elem_of_In, in_rev, list_elem_of_In, for_formula_entries in He as (axis & battery & ax & bs & _ & Hh & -> & _).
    by apply (co_rooted _ Hc (path e)). }
  destruct (look_at (E := ColdError) w f Hw) as (o & -> & Eo). cbn [mbind outcome_bind].
  assert (E : (match o with None => Ok NoJet | Some l => find_entry l s end) = find_entry (at_ w f) s).
  { rewrite <- Eo. by destruct o. }
  rewrite E, find_entry_run by done. by rewrite Hl, at_new, app_nil_r.
Qed.

(** The code of the jet that is found, when one is *)
Definition found (r : JetLookupResult Jet) : option (Jet * noun * bool) :=
  match r with Run j p => Some (j, p, false) | Test j p => Some (j, p, true) | NoJet => None end.
End warm.
End cold.

(** * The noun of the cold state *)

Lemma fold_built {A B} (enc : A -> noun) (step : B -> noun -> nounable_result B) (push : B -> A -> B) l acc :
  (forall acc x, x ∈ l -> step acc (enc x) = Ok (push acc x)) ->
  noun_list_fold step (foldl (fun list x => T [enc x; list]) (D 0) l) acc = Ok (foldl push acc (rev l)).
Proof.
  revert acc. induction l as [|x l IH] using rev_ind; intros acc Hs; [done|].
  rewrite foldl_app, rev_app_distr. cbn [foldl rev app]. cbn [T noun_list_fold]. rewrite Hs by set_solver.
  cbn [mbind outcome_bind]. apply IH. set_solver.
Qed.
Lemma foldl_cons {A} (l acc : list A) : foldl (fun acc x => x :: acc) acc l = rev l ++ acc.
Proof. revert acc. induction l as [|x l IH]; intros acc; [done|]. cbn. by rewrite IH, <- app_assoc. Qed.
Lemma foldl_snoc {A} (l acc : list A) : foldl (fun acc x => acc ++ [x]) acc l = acc ++ l.
Proof. revert acc. induction l as [|x l IH]; intros acc; cbn; [by rewrite app_nil_r|]. by rewrite IH, <- app_assoc. Qed.

Lemma NounList_roundtrip l : NounList_from_noun (NounList_into_noun l) = Ok l.
Proof.
  unfold NounList_from_noun, NounList_into_noun. rewrite (fold_built id _ (fun acc x => x :: acc)) by done.
  by rewrite foldl_cons, rev_involutive, app_nil_r.
Qed.
Lemma foldl_pairs {A B C} (f : C -> A * B -> C) (g : C -> A -> B -> C) l acc :
  (forall c a b, f c (a, b) = g c a b) -> foldl (fun c '(a, b) => g c a b) acc l = foldl f acc l.
Proof. intros H. revert acc. induction l as [|[a b] l IH]; intros acc; [done|]. cbn. by rewrite H, IH. Qed.
Lemma Batteries_roundtrip bs : Batteries_from_noun (Batteries_into_noun bs) = Ok bs.
Proof.
  unfold Batteries_from_noun, Batteries_into_noun.
  rewrite (foldl_pairs (fun list x => T [T [x.1; NAtom x.2]; list])) by done.
  rewrite (fold_built (fun x => T [x.1; NAtom x.2]) _ (fun acc x => x :: acc)) by (by intros acc []).
  by rewrite foldl_cons, rev_involutive, app_nil_r.
Qed.
Lemma BatteriesList_roundtrip l : BatteriesList_from_noun (BatteriesList_into_noun l) = Ok l.
Proof.
  unfold BatteriesList_from_noun, BatteriesList_into_noun.
  rewrite (fold_built Batteries_into_noun _ (fun acc x => x :: acc)) by (intros acc x _; by rewrite Batteries_roundtrip).
  by rewrite foldl_cons, rev_involutive, app_nil_r.
Qed.
Lemma pairs_roundtrip {V} (into : V -> noun) from l :
  (forall v, from (into v) = Ok v) -> pairs_from_noun from (pairs_into_noun into l) = Ok (rev l).
Proof.
  intros Hv. unfold pairs_from_noun, pairs_into_noun.
  rewrite (foldl_pairs (fun list x => T [T [x.1; into x.2]; list])) by done.
  rewrite (fold_built (fun x => T [x.1; into x.2]) _ (fun acc x => acc ++ [x])).
  - by rewrite foldl_snoc.
  - intros acc [k v] _. cbn [fst snd T cell_of mbind outcome_bind]. by rewrite Hv.
Qed.
Lemma cold_noun_roundtrip vecs : Cold_from_noun (Cold_into_noun vecs) = Ok vecs.
Proof.
  destruct vecs as [[btp rtp] ptb]. unfold Cold_from_noun, Cold_into_noun.
  change (slot (T [?a; ?b; ?c]) 2) with (Ok (E := error) a). change (slot (T [?a; ?b; ?c]) 6) with (Ok (E := error) b).
  change (slot (T [?a; ?b; ?c]) 7) with (Ok (E := error) c). cbn [or_noun_error map_err mbind outcome_bind].
  rewrite !(pairs_roundtrip NounList_into_noun) by apply NounList_roundtrip. cbn [mbind outcome_bind].
  rewrite (pairs_roundtrip BatteriesList_into_noun) by apply BatteriesList_roundtrip. cbn [mbind outcome_bind].
  by rewrite !rev_involutive.
Qed.

Section vecs.
Context {M : Type -> Type} `{HM : !NounMap M} `{HL : !NounMapLaws M}.

(** The pairs that the iterator of a trie yields: one for each key, in any order *)
Definition iterates {V} (m : M V) (l : list (noun * V)) : Prop :=
  NoDup (map fst l) /\ forall k v, (k, v) ∈ l <-> map_lookup m k = Some (Some v).

Lemma hamt_loop_run {V} (l : list (noun * V)) : forall h,
  map_ok h -> NoDup (map fst l) ->
  exists h', hamt_loop l h = Ok h' /\ map_ok h' /\ forall k, 
    (forall v, (k, v) ∈ l -> map_lookup h' k = Some (Some v)) /\ (k ∉ map fst l -> map_lookup h' k = map_lookup h k).
Proof.
  induction l as [|[k v] l IH]; intros h Hh Hnd; cbn [hamt_loop].
  { exists h. split_and!; [done..|]. intros k. split; [|done]. intros v H. by apply not_elem_of_nil in H. }
  cbn in Hnd. apply NoDup_cons in Hnd as [Hk Hnd]. destruct (map_insert_ok h k v Hh) as (h1 & E1 & Hh1 & Hl1).
  unfold put. rewrite E1. cbn [mbind outcome_bind]. destruct (IH h1 Hh1 Hnd) as (h2 & E2 & Hh2 & Hl2).
  exists h2. split_and!; [done..|]. intros k'. destruct (Hl2 k') as [Ha Hb]. split.
  - intros v' [[= -> ->]|H]%elem_of_cons; [|by apply Ha]. rewrite Hb, Hl1 by done. by rewrite decide_True.
  - cbn [map fst]. intros [Hne Hn]%not_elem_of_cons. rewrite Hb, Hl1 by done. by rewrite decide_False.
Qed.
Lemma hamt_from_vec_run {V} (m : M V) l :
  map_ok m -> iterates m l -> exists h, hamt_from_vec l = Ok h /\ map_ok h /\ forall k, map_lookup h k = map_lookup m k.
Proof.
  intros Hm [Hnd Hit]. destruct (hamt_loop_run l map_new map_new_ok Hnd) as (h & E & Hh & Hl). exists h. split_and!; [done..|].
  intros k. destruct (Hl k) as [Ha Hb]. destruct (map_lookup_ok m k Hm) as [o Eo]. rewrite Eo. destruct o as [v|].
  - by apply Ha, Hit.
  - rewrite Hb; [apply map_lookup_new|]. intros ([k' v] & Ek & H%list_elem_of_In)%list_elem_of_In%in_map_iff.
    cbn in Ek. subst k'. apply Hit in H. congruence.
Qed.

Lemma iterates_new {V} : iterates (map_new : M V) [].
Proof. split; [constructor|]. intros k v. rewrite map_lookup_new, elem_of_nil. done. Qed.
Lemma iterates_insert {V} (m m' : M V) l k v :
  map_ok m -> iterates m l -> k ∉ map fst l -> map_insert m k v = Some m' -> map_ok m' /\ iterates m' ((k, v) :: l).
Proof.
  intros Hm [Hnd Hit] Hk E. destruct (map_insert_ok m k v Hm) as (m2 & E2 & Hm2 & Hl). rewrite E in E2. injection E2 as <-.
  split; [done|]. split; [cbn; by apply NoDup_cons|]. intros k' v'. rewrite Hl, elem_of_cons. case_decide as Hkk.
  - subst k'. split; [|by intros [= ->]; left]. intros [[= ->]|H]; [done|]. destruct Hk.
    apply list_elem_of_In, in_map_iff. exists (k, v'). split; [done|by apply list_elem_of_In].
  - rewrite <- Hit. split; [|by right]. intros [[= -> ->]|H]; done.
Qed.

Definition cold_iterates (c : Cold M) (vecs : cold_vecs) : Prop :=
  iterates (battery_to_paths c) vecs.1.1 /\ iterates (root_to_paths c) vecs.1.2 /\ iterates (path_to_batteries c) vecs.2.

(** The two states answer every lookup alike. *)
Definition same_lookups (c c' : Cold M) : Prop :=
  forall k, map_lookup (battery_to_paths c') k = map_lookup (battery_to_paths c) k /\
    map_lookup (root_to_paths c') k = map_lookup (root_to_paths c) k /\
    map_lookup (path_to_batteries c') k = map_lookup (path_to_batteries c) k.

Lemma from_vecs_run c vecs :
  cold_ok c -> cold_iterates c vecs ->
  exists c', from_vecs vecs = Ok c' /\ cold_ok c' /\ same_lookups c c'.
Proof.
  destruct vecs as [[btp rtp] ptb]. intros Hc (H1 & H2 & H3). cbn in H1, H2, H3. unfold from_vecs.
  destruct (hamt_from_vec_run _ _ (co_btp _ Hc) H1) as (h1 & -> & Hok1 & E1).
  destruct (hamt_from_vec_run _ _ (co_rtp _ Hc) H2) as (h2 & -> & Hok2 & E2).
  destruct (hamt_from_vec_run _ _ (co_ptb _ Hc) H3) as (h3 & -> & Hok3 & E3). cbn [mbind outcome_bind].
  assert (Eat : forall A (m m' : M (list A)), (forall k, map_lookup m k = map_lookup m' k) -> forall k, at_ m k = at_ m' k).
  { intros A m m' H k. unfold at_. by rewrite H. }
  pose proof (Eat _ _ _ E1) as A1. pose proof (Eat _ _ _ E2) as A2. pose proof (Eat _ _ _ E3) as A3.
  eexists. split; [done|]. assert (Hh : forall p bs, held {| battery_to_paths := h1; root_to_paths := h2; path_to_batteries := h3 |} p bs <-> held c p bs).
  { intros p bs. unfold held. cbn. by rewrite A3. }
  split; [|by intros k; cbn; rewrite E1, E2, E3]. destruct Hc. split; cbn [battery_to_paths root_to_paths path_to_batteries]; try done.
  - intros p bs. rewrite Hh. eauto.
  - intros p bs. rewrite Hh. eauto.
  - intros p e bs. rewrite Hh. intros H Hne. destruct (co_parent0 p e bs H Hne) as (ch & q & -> & Hq). exists ch, q. by rewrite Hh.
  - intros b p. rewrite A1, co_battery0. by setoid_rewrite Hh.
  - intros r p. rewrite A2, co_root0. by rewrite Hh.
Qed.

Lemma matches_paths_same c c' paths core :
  same_lookups c c' -> matches_paths c' paths core = matches_paths c paths core.
Proof.
  intros H. induction paths as [|p paths IH]; [done|]. cbn [matches_paths]. unfold look. destruct (H p) as (_ & _ & ->).
  destruct (map_lookup _ p) as [[l|]|]; cbn [mbind outcome_bind]; [|done..].
  destruct (BatteriesList_matches l core) as [[]| |]; cbn [mbind outcome_bind]; done.
Qed.
Lemma matches_same c c' core : same_lookups c c' -> Cold_matches c' core = Cold_matches c core.
Proof.
  intros H. unfold Cold_matches. destruct (slot core 2) as [b| |]; [|done..]. unfold look. destruct (H b) as (-> & _ & _).
  destruct (map_lookup _ b) as [[l|]|]; cbn [mbind outcome_bind]; [|done..]. by apply matches_paths_same.
Qed.

(** States that registrations produce *)
Inductive cold_reach : Cold M -> Prop :=
  | reach_new : cold_reach Cold_new
  | reach_register c core axis chum c' b : cold_reach c -> register c core axis chum = Ok (c', b) -> cold_reach c'.
Lemma reach_ok c : cold_reach c -> cold_ok c.
Proof.
  induction 1 as [|c core axis chum c' b _ IH E]; [apply cold_new_ok|].
  pose proof (register_correct c core axis chum IH) as H. unfold register_spec in H. rewrite E in H.
  destruct b; [by destruct H|]. by destruct H as [-> _].
Qed.

(** * Properties *)


(** C19: the warm state built from a cold state finds, for a core and a formula, a jet
    of the hot state whose path has a hierarchy in which the core lies and whose
    battery has the formula at the axis of the jet, the last one that [init] came to,
    with the flag of the paths to be tested; when it finds none there is none; and
    neither step panics. *)
Theorem warm_jets {Jet} cold (hot : Hot Jet) test_jets :
  cold_reach cold -> map_ok test_jets ->
  exists w, Warm_init cold hot test_jets = Ok w /\ forall s f, exists r, find_jet w s f = Ok r /\
    r = lookup_result (List.find (fun e => lies s (batteries e)) (rev (for_formula f (entries cold hot test_jets)))) /\
    match found r with
    | Some (j, p, t) => candidate cold hot s f j p /\ t = tested test_jets p
    | None => forall j p, ~ candidate cold hot s f j p
    end.
Proof.
  intros Hc%reach_ok Ht. destruct (warm_run cold hot test_jets Hc Ht) as (w & Ew & Hw). exists w. split; [done|].
  intros s f. eexists. split; [apply Hw|]. split; [done|].
  destruct (List.find _ _) as [e|] eqn:Ef; cbn [lookup_result].
  - apply find_some in Ef as [Hin Hl]. apply in_rev, list_elem_of_In, for_formula_entries in Hin as (axis & b & ax & bs & H1 & H2 & Eb & Et & Es).
    rewrite Eb in Hl. destruct (test e) eqn:Ete; cbn [found]; (split; [by exists axis, b, ax, bs|congruence]).
  - intros j p (axis & b & ax & bs & H1 & H2 & H3 & H4).
    pose proof (find_none _ _ Ef {| batteries := (b, ax) :: bs; jet := j; path := p; test := tested test_jets p |}) as Hn.
    cbn [batteries] in Hn. rewrite Hn in H4; [done|]. apply -> in_rev. apply list_elem_of_In, for_formula_entries.
    exists axis, b, ax, bs. done.
Qed.

(** The noun of a cold state reads back as the vectors it was made from, whatever
    the order in which the tries are iterated, and the state rebuilt from them
    answers every lookup, and so every match, like the original. *)
Theorem cold_roundtrip c vecs :
  cold_reach c -> cold_iterates c vecs ->
  Cold_from_noun (Cold_into_noun vecs) = Ok vecs /\
  exists c', from_vecs vecs = Ok c' /\ cold_ok c' /\ same_lookups c c' /\ forall core, Cold_matches c' core = Cold_matches c core.
Proof.
  intros Hc%reach_ok Hv. split; [apply cold_noun_roundtrip|]. destruct (from_vecs_run c vecs Hc Hv) as (c' & E & Hc' & Hs).
  exists c'. split_and!; [done..|]. intros core. by apply matches_same.
Qed.
End vecs.

(** A root, and a core above it at axis 7, registered under the names 10 and 11 *)
Definition sample_root : noun := T [D 1; D 2].
Definition sample_battery : noun := T [D 0; D 6].
Definition sample_core : noun := T [sample_battery; D 5; sample_root].
Definition sample_path : noun := T [D 11; D 10; D 0].
Local Instance sample_map : NounMap Stem := hamt_map (fun _ => 0).
Local Instance sample_laws : NounMapLaws Stem := hamt_laws (fun _ => 0).
Definition sample_cold1 : Cold Stem := Eval vm_compute in
  match register Cold_new sample_root (Direct 0) (D 10) with Ok (c, _) => c | _ => Cold_new end.
Definition sample_cold : Cold Stem := Eval vm_compute in
  match register sample_cold1 sample_core (Direct 7) (D 11) with Ok (c, _) => c | _ => Cold_new end.
Lemma sample_cold_reach : cold_reach sample_cold.
Proof.
  apply (reach_register sample_cold1 sample_core (Direct 7) (D 11) _ true); [|by vm_compute].
  apply (reach_register Cold_new sample_root (Direct 0) (D 10) _ true); [apply reach_new|by vm_compute].
Qed.


(** A registered root is held under its path, and [matches] does not find it. *)
Example root_not_matched :
  held sample_cold1 (T [D 10; D 0]) [(sample_root, Direct 0)] /\ lies sample_root [(sample_root, Direct 0)] = true /\
  Cold_matches sample_cold1 sample_root = Ok None.
Proof. split_and!; [|by vm_compute..]. unfold held. vm_compute. left. Qed.

Definition sample_hot : Hot nat := [(sample_path, Direct 1, 3%nat)].
Lemma warm_jets_witness :
  exists w, Warm_init sample_cold sample_hot map_new = Ok w /\ find_jet w sample_core sample_battery = Ok (Run 3%nat sample_path).
Proof.
  destruct (warm_jets sample_cold sample_hot map_new sample_cold_reach map_new_ok) as (w & E & H).
  exists w. split; [exact E|]. destruct (H sample_core sample_battery) as (r & Hr & Er & _). rewrite Hr, Er. by vm_compute.
Defined.

Definition sample_vecs : cold_vecs :=
  ([(sample_battery, [sample_path])], [(sample_root, [T [D 10; D 0]])],
   [(sample_path, [[(sample_battery, Direct 7); (sample_root, Direct 0)]]); (T [D 10; D 0], [[(sample_root, Direct 0)]])]).
Lemma sample_iterates : cold_iterates sample_cold sample_vecs.
Proof.
  pose proof (fun V => @map_new_ok _ _ sample_laws V) as Hok. pose proof (fun V => @iterates_new _ _ sample_laws V) as Hnew.
  split_and!.
  - eapply (iterates_insert map_new); [apply Hok|apply Hnew|set_solver|by vm_compute].
  - eapply (iterates_insert map_new); [apply Hok|apply Hnew|set_solver|by vm_compute].
  - destruct (iterates_insert map_new (path_to_batteries sample_cold1) [] (T [D 10; D 0]) [[(sample_root, Direct 0)]]) as [H1 H2];
      [apply Hok|apply Hnew|set_solver|by vm_compute|].
    eapply (iterates_insert (path_to_batteries sample_cold1)); [done|done| |by vm_compute]. vm_compute. set_solver.
Qed.
Lemma cold_roundtrip_witness :
  Cold_from_noun (Cold_into_noun sample_vecs) = Ok sample_vecs /\
  exists c' : Cold Stem, from_vecs sample_vecs = Ok c' /\ Cold_matches c' sample_core = Ok (Some sample_path).
Proof.
  destruct (cold_roundtrip sample_cold sample_vecs sample_cold_reach sample_iterates) as [H1 (c' & H2 & _ & _ & H3)].
  split; [exact H1|]. exists c'. split; [exact H2|]. rewrite H3. by vm_compute.
Defined.
