(* ===== verification/JetsLists.v ===== *)
(** Jets of lists and call sites: jets/list.rs and site.rs.

    A jet that calls a gate runs in the context of the interpreter and takes its
    fuel; without a gate it is a function of the subject.  [jet_find], which
    compares pointers, is in JetsSets. *)
From stdpp Require Import base option list numbers gmap strings.
From Stdlib Require Import ZArith Lia.
From S2P Require Import Prelude Noun Interp Jets NounHash Hamt HamtTheorems ColdWarm ColdWarmTheorems.
Local Open Scope Z_scope.

(** * Jets without gates *)

Definition sample_nouns (subject : noun) : jet_result (noun * noun) :=
  sam ← jet_slot subject 6; a ← jet_slot sam 2; b ← jet_slot sam 3; Ok (a, b).

Definition jet_weld (subject : noun) : jet_result noun := '(a, b) ← sample_nouns subject; or_exit (weld a b).
Definition jet_flop (subject : noun) : jet_result noun := sam ← jet_slot subject 6; or_exit (flop sam).
Definition jet_lent (subject : noun) : jet_result noun := list ← jet_slot subject 6; x ← lent list 0; Ok (D x).

Fixpoint snag_loop (list : noun) (idx : Z) : jet_result noun :=
  if decide (list = D 0) then bail_exit
  else match list with
       | NCell h t => if idx =? 0 then Ok h else snag_loop t (idx - 1)
       | NAtom _ => bail_exit
       end.
Definition snag (tape index : noun) : jet_result noun :=
  a ← as_atom index; idx ← or_exit (as_u64 a); snag_loop tape idx.
Definition jet_snag (subject : noun) : jet_result noun := '(index, list) ← sample_nouns subject; snag list index.

Definition is_zero_atom (a : atom) : bool := match first_one (as_bitslice a) with None => true | Some _ => false end.
Fixpoint snip_loop (list : noun) : jet_result noun :=
  match list with
  | NAtom _ => bail_exit
  | NCell h t =>
      match t with
      | NAtom a => if is_zero_atom a then Ok (D 0) else bail_exit
      | NCell _ _ => rest ← snip_loop t; Ok (NCell h rest)
      end
  end.
Definition snip (tape : noun) : jet_result noun :=
  match tape with
  | NAtom a => if is_zero_atom a then Ok (D 0) else snip_loop tape
  | NCell _ _ => snip_loop tape
  end.
Definition jet_snip (subject : noun) : jet_result noun := list ← jet_slot subject 6; snip list.

(** The inner loop of [zing], in front of what follows *)
Fixpoint zing_inner (sublist : noun) (rest : jet_result noun) : jet_result noun :=
  if decide (sublist = D 0) then rest
  else match sublist with
       | NCell i t => tail ← zing_inner t rest; Ok (NCell i tail)
       | NAtom _ => bail_exit
       end.
Fixpoint zing (list : noun) : jet_result noun :=
  if decide (list = D 0) then Ok (D 0)
  else match list with
       | NCell sublist t => zing_inner sublist (zing t)
       | NAtom _ => bail_exit
       end.
Definition jet_zing (subject : noun) : jet_result noun := list ← jet_slot subject 6; zing list.

Definition reap (a : Z) (b_noun : noun) : jet_result noun := Ok (Nat.iter (Z.to_nat a) (fun tsil => T [b_noun; tsil]) (D 0)).
Definition jet_reap (subject : noun) : jet_result noun :=
  '(a_noun, b_noun) ← sample_nouns subject; a ← as_atom a_noun; a ← or_exit (as_u64 a); reap a b_noun.

(** The first loop of [scag] with the vector [res] *)
Fixpoint scag_loop (b : noun) (a pos : Z) (res : list noun) : jet_result (list noun) :=
  if decide (b = D 0) then Ok res
  else match b with
       | NCell h t => if a <=? pos then Ok res else scag_loop t a (pos + 1) (res ++ [h])
       | NAtom _ => bail_exit
       end.
Definition scag (a : atom) (b : noun) : jet_result noun :=
  a ← or_exit (as_u64 a);
  res ← scag_loop b a 0 [];
  Ok (foldr (fun n res_cell => T [n; res_cell]) (D 0) res).
Definition jet_scag (subject : noun) : jet_result noun :=
  sam ← jet_slot subject 6;
  '(h, b) ← as_cell sam; a ← as_atom h; scag a b.

(** * Call sites *)

(** What the cold and warm state tell a site *)
Class SiteState `{JS : JetState} := {
  lookup_jet : warm_t -> noun -> noun -> option (jet_t * noun * bool);
  cold_find : cold_t -> noun -> list Batteries;
}.

Section gates.
Context `{SS : SiteState}.

Record Site := { battery : noun; context : noun; site_jet : option (jet_t * bool); site_path : noun }.

(** The three low bits of the parent axis against the 64 bits of the word 7 *)
Fixpoint in_context (batteries_list : list Batteries) : bool :=
  match batteries_list with
  | [] => true
  | [] :: _ => false
  | ((_, parent_axis) :: _) :: batteries_list =>
      if decide (take 3 (as_bitslice parent_axis) = word_bits 7) then in_context batteries_list else false
  end.

Definition Site_new (c : Context) (core : noun) : jet_result Site :=
  match slot core 2, slot core 7 with
  | Ok battery, Ok context =>
      let warm_result :=
        match lookup_jet (warm c) core battery with
        | Some (jet, path, test) => if in_context (cold_find (cold c) path) then Some (jet, path, test) else None
        | None => None
        end in
      Ok {| battery := battery; context := context;
            site_jet := match warm_result with Some (jet, _, test) => Some (jet, test) | None => None end;
            site_path := match warm_result with Some (_, path, _) => path | None => D 0 end |}
  | _, _ => Panic
  end.

(** Computations in a context; [None] when the fuel runs out *)
Definition G (A : Type) : Type := Context -> option (Context * jet_result A).
Global Instance G_ret : MRet G := fun A a c => Some (c, Ok a).
Global Instance G_bind : MBind G := fun A B f x c =>
  match x c with
  | Some (c, Ok a) => f a c
  | Some (c, Err e) => Some (c, Err e)
  | Some (c, Panic) => Some (c, Panic)
  | None => None
  end.
Definition lift {A} (r : jet_result A) : G A := fun c => Some (c, r).

Definition run_interpret (fuel : nat) (subject formula : noun) : G noun := fun c =>
  match interpret fuel c subject formula with
  | Some (c, r) => Some (c, map_err JetFail r)
  | None => None
  end.
Definition site_slam (fuel : nat) (site : Site) (sample : noun) : G noun :=
  let subject := T [battery site; sample; context site] in
  match site_jet site with
  | Some (jet, test) =>
      jet_res ← lift (run_jet jet subject);
      if (test : bool) then
        test_res ← run_interpret fuel subject (battery site);
        if decide (test_res = jet_res) then mret jet_res else lift (Err (JetFail BAIL_JEST))
      else mret jet_res
  | None => run_interpret fuel subject (battery site)
  end.

(** * Jets with gates *)

Definition new_site (gate : noun) : G Site := fun c => Some (c, Site_new c gate).

Fixpoint roll_loop (fuel : nat) (site : Site) (list prod : noun) : G noun :=
  match list with
  | NCell h t => prod ← site_slam fuel site (T [h; prod]); roll_loop fuel site t prod
  | NAtom _ => if decide (list = D 0) then mret prod else lift bail_fail
  end.
Definition jet_roll (fuel : nat) (subject : noun) : G noun :=
  sample ← lift (jet_slot subject 6);
  list ← lift (jet_slot sample 2);
  gate ← lift (jet_slot sample 3);
  prod ← lift (jet_slot gate 13);
  site ← new_site gate;
  roll_loop fuel site list prod.

Fixpoint turn_loop (fuel : nat) (site : Site) (list : noun) : G noun :=
  match list with
  | NCell h t => head ← site_slam fuel site h; tail ← turn_loop fuel site t; mret (NCell head tail)
  | NAtom _ => if decide (list = D 0) then mret (D 0) else lift bail_fail
  end.
Definition jet_turn (fuel : nat) (subject : noun) : G noun :=
  sample ← lift (jet_slot subject 6);
  list ← lift (jet_slot sample 2);
  gate ← lift (jet_slot sample 3);
  site ← new_site gate;
  turn_loop fuel site list.

Fixpoint levy_loop (fuel : nat) (site : Site) (list : noun) : G noun :=
  if decide (list = D 0) then mret YES
  else match list with
       | NCell h t => b_res ← site_slam fuel site h; if decide (b_res = NO) then mret NO else levy_loop fuel site t
       | NAtom _ => lift bail_exit
       end.
Definition levy (fuel : nat) (a_noun b_noun : noun) : G noun := site ← new_site b_noun; levy_loop fuel site a_noun.
Definition jet_levy (fuel : nat) (subject : noun) : G noun :=
  '(a_noun, b_noun) ← lift (sample_nouns subject); levy fuel a_noun b_noun.
End gates.

(** * The jet machinery of the interpreter *)

(** [JetState] as the cold, warm and hot state implement it.  No lookup of these maps
    panics on the states that registrations produce; the defaults are for others. *)
Section vm.
Context {M : Type -> Type} `{HM : !NounMap M} {Jet : Type}.
Context (code : Jet -> noun -> outcome JetErr noun) (hot : Hot Jet) (test_jets : M unit).
Context (mook_ : noun -> outcome Error (noun * noun)).

Definition lookup_warm (w : M (list (WarmEntry Jet))) (core formula : noun) : option (Jet * noun * bool) :=
  match ColdWarm.find_jet w core formula with Ok r => found r | _ => None end.
Definition vm_jets : JetState := {|
  warm_t := M (list (WarmEntry Jet));
  cold_t := Cold M;
  jet_t := Jet;
  Interp.find_jet w core formula :=
    match lookup_warm w core formula with Some (jet, _, test) => Some (jet, test) | None => None end;
  run_jet := code;
  Interp.register k core parent_axis chum :=
    match ColdWarm.register k core parent_axis chum with
    | Ok (k, b) => (k, Some b)
    | _ => (k, None)
    end;
  warm_init k := match Warm_init k hot test_jets with Ok w => w | _ => Warm_new end;
  mook := mook_;
|}.
Definition vm_sites : @SiteState vm_jets := {|
  lookup_jet := lookup_warm : @warm_t vm_jets -> _;
  cold_find := (fun k path => match Cold_find k path with Ok l => l | _ => [] end) : @cold_t vm_jets -> _;
|}.
End vm.
