(* ===== verification/JetsListsTheorems.v ===== *)
(** The jets of lists: on proper lists they compute the operations of the list they
    stand for, and with a gate they return what Nock reduces its calls to. *)
From stdpp Require Import base option list numbers gmap strings.
From Stdlib Require Import ZArith Lia.
From S2P Require Import Prelude Noun Interp NockSpec InterpSound InterpComplete InterpTheorems Jets JetsTheorems NounHash Hamt HamtTheorems ColdWarm ColdWarmTheorems JetsLists.
Local Open Scope Z_scope.

(** * Lists *)

Lemma nlist_cons x l : nlist (x :: l) = NCell x (nlist l).
Proof. done. Qed.
Lemma is_zero_wf a : wf_atom a -> is_zero_atom a = true -> a = Direct 0.
Proof.
  intros Hw. unfold is_zero_atom. destruct (first_one (as_bitslice a)) eqn:E; [done|]. intros _.
  apply atom_val_inj; [done|split; [done|by vm_compute]|]. rewrite <- slice_val by done.
  apply first_bit_None in E. rewrite E. apply bits_val_replicate_false.
Qed.
(** No list ends like this noun. *)
Definition improper (n : noun) : Prop := forall l, n <> nlist l.
Lemma improper_tail h t : improper (NCell h t) -> improper t.
Proof. intros H l ->. by apply (H (h :: l)). Qed.
Lemma improper_atom a : improper (NAtom a) -> a <> Direct 0.
Proof. intros H ->. by apply (H []). Qed.
Lemma improper_zero a : wf_atom a -> improper (NAtom a) -> is_zero_atom a = false.
Proof. intros Hw H%improper_atom. destruct (is_zero_atom a) eqn:E; [|done]. by destruct H; apply is_zero_wf. Qed.

Lemma flop_improper n acc : improper n -> flop_loop n acc = Err Noun.NotCell.
Proof.
  revert acc. induction n as [a|h _ t IH]; intros acc Hi; cbn [flop_loop].
  - rewrite decide_False; [done|]. intros [= ->]. by apply (improper_atom _ Hi).
  - rewrite decide_False by done. by eapply IH, improper_tail.
Qed.
Lemma lent_improper n k : wf_noun n -> improper n -> lent n k = bail_exit.
Proof.
  revert k. induction n as [a|h _ t IH]; intros k Hw Hi; cbn [lent].
  - pose proof (improper_zero a Hw Hi) as H. unfold is_zero_atom in H. by destruct (first_one _).
  - destruct Hw. by eapply IH, improper_tail.
Qed.
Lemma snip_improper n : wf_noun n -> improper n -> snip n = bail_exit.
Proof.
  intros Hw Hi. destruct n as [a|h t]; cbn [snip]; [by rewrite (improper_zero a)|]. destruct Hw as [_ Hw]. apply improper_tail in Hi.
  revert h. induction t as [a|h' _ t IH]; intros h; cbn [snip_loop]; [by rewrite (improper_zero a)|].
  destruct Hw as [_ Hw]. specialize (IH Hw (improper_tail _ _ Hi) h'). cbn [snip_loop] in IH. by rewrite IH.
Qed.

Lemma snag_nlist l idx : 0 <= idx ->
  snag_loop (nlist l) idx = match l !! Z.to_nat idx with Some x => Ok x | None => bail_exit end.
Proof.
  revert idx. induction l as [|x l IH]; intros idx Hi; [done|]. rewrite nlist_cons. cbn [snag_loop]. rewrite decide_False by done.
  destruct (Z.eqb_spec idx 0) as [->|Hne]; [done|]. rewrite IH by lia.
  replace (Z.to_nat idx) with (S (Z.to_nat (idx - 1))) by lia. done.
Qed.
Lemma snip_nlist l : snip (nlist l) = Ok (nlist (removelast l)).
Proof.
  destruct l as [|x l]; [done|]. rewrite nlist_cons. cbn [snip]. revert x. induction l as [|y l IH]; intros x; [done|].
  rewrite nlist_cons. change (removelast (x :: y :: l)) with (x :: removelast (y :: l)). rewrite nlist_cons.
  cbn [snip_loop]. specialize (IH y). cbn [snip_loop] in IH. by rewrite IH.
Qed.
Lemma zing_inner_nlist l r : zing_inner (nlist l) (Ok (nlist r)) = Ok (nlist (l ++ r)).
Proof. induction l as [|x l IH]; [done|]. rewrite nlist_cons. cbn [zing_inner]. rewrite decide_False by done. by rewrite IH. Qed.
Lemma zing_nlist ls : zing (nlist (map nlist ls)) = Ok (nlist (concat ls)).
Proof.
  induction ls as [|l ls IH]; [done|]. cbn [map]. rewrite nlist_cons. cbn [zing]. rewrite decide_False by done.
  by rewrite IH, zing_inner_nlist.
Qed.
Lemma reap_nlist a b : reap a b = Ok (nlist (replicate (Z.to_nat a) b)).
Proof. unfold reap. f_equal. induction (Z.to_nat a) as [|n IH]; [done|]. cbn [replicate]. rewrite nlist_cons, <- IH. done. Qed.
Lemma scag_loop_nlist l a pos res : 0 <= pos ->
  scag_loop (nlist l) a pos res = Ok (res ++ take (Z.to_nat (a - pos)) l).
Proof.
  revert pos res. induction l as [|x l IH]; intros pos res Hp; [cbn; by rewrite take_nil, app_nil_r|].
  rewrite nlist_cons. cbn [scag_loop]. rewrite decide_False by done. destruct (Z.leb_spec a pos).
  - replace (Z.to_nat (a - pos)) with 0%nat by lia. by rewrite app_nil_r.
  - rewrite IH by lia. replace (Z.to_nat (a - pos)) with (S (Z.to_nat (a - (pos + 1)))) by lia. cbn. by rewrite <- app_assoc.
Qed.
Lemma foldr_nlist l : foldr (fun n res_cell => T [n; res_cell]) (D 0) l = nlist l.
Proof. induction l as [|x l IH]; [done|]. cbn [foldr]. by rewrite IH. Qed.

Lemma proper_or_not n : (exists l, n = nlist l) \/ improper n.
Proof.
  induction n as [a|h _ t IH].
  - destruct (decide (a = Direct 0)) as [->|Hne]; [left; by exists []|right]. intros [|x l] [= E]. done.
  - destruct IH as [[l ->]|Hi]; [left; by exists (h :: l)|right]. intros [|x l] [= -> E]. by apply (Hi l).
Qed.
(** The elements in front of the end of a noun, whatever the end *)
Fixpoint heads (n : noun) : list noun := match n with NAtom _ => [] | NCell h t => h :: heads t end.

Lemma weld_improper a b : improper a \/ improper b -> or_exit (weld a b) = bail_exit.
Proof.
  unfold weld. intros Hi. destruct (proper_or_not a) as [[l ->]|Ha]; [|by rewrite flop_improper].
  destruct Hi as [Hi|Hi]; [by destruct (Hi l)|]. destruct (flop_loop (nlist l) (D 0)) as [r|e|] eqn:E; [|done|].
  - cbn [mbind outcome_bind]. by rewrite flop_improper.
  - exfalso. clear -E. revert E. generalize (D 0) as acc. induction l as [|x l IH]; intros acc; [done|].
    rewrite nlist_cons. cbn [flop_loop]. rewrite decide_False by done. apply IH.
Qed.
Lemma zing_inner_bail s : zing_inner s bail_exit = bail_exit.
Proof. induction s as [a|h _ t IH]; cbn [zing_inner]; [by case_decide|]. rewrite decide_False by done. by rewrite IH. Qed.
Lemma zing_inner_improper s r : improper s -> zing_inner s r = bail_exit.
Proof.
  induction s as [a|h _ t IH]; intros Hi; cbn [zing_inner].
  - rewrite decide_False; [done|]. intros [= ->]. by apply (improper_atom _ Hi).
  - rewrite decide_False by done. by rewrite (IH (improper_tail _ _ Hi)).
Qed.
Lemma zing_improper n : improper n -> zing n = bail_exit.
Proof.
  induction n as [a|h _ t IH]; intros Hi; cbn [zing].
  - rewrite decide_False; [done|]. intros [= ->]. by apply (improper_atom _ Hi).
  - rewrite decide_False by done. rewrite (IH (improper_tail _ _ Hi)). apply zing_inner_bail.
Qed.
Lemma zing_element xs x : x ∈ xs -> improper x -> zing (nlist xs) = bail_exit.
Proof.
  induction 1 as [x xs|x y xs _ IH]; intros Hi; rewrite nlist_cons; cbn [zing]; rewrite decide_False by done.
  - by apply zing_inner_improper.
  - rewrite (IH Hi). apply zing_inner_bail.
Qed.
Lemma snag_improper n idx : 0 <= idx ->
  snag_loop n idx = match heads n !! Z.to_nat idx with Some x => Ok x | None => bail_exit end.
Proof.
  revert idx. induction n as [a|h _ t IH]; intros idx Hi; cbn [snag_loop heads]; [by case_decide|]. rewrite decide_False by done.
  destruct (Z.eqb_spec idx 0) as [->|Hne]; [done|]. rewrite IH by lia.
  replace (Z.to_nat idx) with (S (Z.to_nat (idx - 1))) by lia. done.
Qed.
Lemma scag_loop_improper n a pos res : pos <= a -> improper n ->
  scag_loop n a pos res =
  if decide (a - pos < Z.of_nat (length (heads n))) then Ok (res ++ take (Z.to_nat (a - pos)) (heads n)) else bail_exit.
Proof.
  revert pos res. induction n as [x|h _ t IH]; intros pos res Hp Hi; cbn [scag_loop heads length].
  - rewrite decide_False by (intros [= ->]; by apply (improper_atom _ Hi)). rewrite decide_False by lia. done.
  - rewrite decide_False by done. destruct (Z.leb_spec a pos).
    + rewrite decide_True by lia. replace (Z.to_nat (a - pos)) with 0%nat by lia. by rewrite app_nil_r.
    + rewrite (IH (pos + 1) _ ltac:(lia) (improper_tail _ _ Hi)).
      replace (Z.to_nat (a - pos)) with (S (Z.to_nat (a - (pos + 1)))) by lia. cbn [take]. rewrite <- app_assoc.
      repeat case_decide; try done; lia.
Qed.

(** C31: on proper lists [flop], [lent], [snip], [weld], [zing], [snag], [scag] and [reap]
    are reversal, length, the list without its last element, concatenation, the
    concatenation of a list of lists, the element at an index or a crash beyond the
    end, a prefix, and repetition.  On a noun that does not end in zero [flop], [lent],
    [snip], [weld] and [zing] crash, the last two also when either operand or an element
    is such a noun; [snag] still returns an element in front of the end, and [scag] a
    prefix that is shorter than the elements in front of the end, and they crash beyond. *)
Theorem list_jets subject sample :
  jet_slot subject 6 = Ok sample ->
  (forall l, sample = nlist l ->
     jet_flop subject = Ok (nlist (rev l)) /\ jet_lent subject = Ok (D (Z.of_nat (length l))) /\
     jet_snip subject = Ok (nlist (removelast l))) /\
  (forall a b, sample = NCell (nlist a) (nlist b) -> jet_weld subject = Ok (nlist (a ++ b))) /\
  (forall ls, sample = nlist (map nlist ls) -> jet_zing subject = Ok (nlist (concat ls))) /\
  (forall i l, sample = NCell (D i) (nlist l) -> 0 <= i ->
     jet_snag subject = match l !! Z.to_nat i with Some x => Ok x | None => bail_exit end /\
     jet_scag subject = Ok (nlist (take (Z.to_nat i) l))) /\
  (forall i b, sample = NCell (D i) b -> jet_reap subject = Ok (nlist (replicate (Z.to_nat i) b))) /\
  (wf_noun sample -> improper sample ->
     jet_flop subject = bail_exit /\ jet_lent subject = bail_exit /\ jet_snip subject = bail_exit) /\
  (forall a b, sample = NCell a b -> improper a \/ improper b -> jet_weld subject = bail_exit) /\
  (improper sample \/ (exists xs x, sample = nlist xs /\ x ∈ xs /\ improper x) -> jet_zing subject = bail_exit) /\
  (forall i n, sample = NCell (D i) n -> 0 <= i -> improper n ->
     jet_snag subject = match heads n !! Z.to_nat i with Some x => Ok x | None => bail_exit end /\
     jet_scag subject = if decide (i < Z.of_nat (length (heads n))) then Ok (nlist (take (Z.to_nat i) (heads n))) else bail_exit).
Proof.
  intros Hs.
  assert (Hp : forall a b, sample = NCell a b -> sample_nouns subject = Ok (a, b)).
  { intros a b ->. unfold sample_nouns. by rewrite Hs. }
  unfold jet_flop, jet_lent, jet_snip, jet_weld, jet_zing, jet_snag, jet_scag, jet_reap. rewrite Hs. cbn [mbind outcome_bind].
  split_and!.
  - intros l ->. by rewrite flop_nlist, lent_nlist, snip_nlist.
  - intros a b ->. rewrite (Hp _ _ eq_refl). cbn [mbind outcome_bind]. by rewrite weld_nlist.
  - intros ls ->. apply zing_nlist.
  - intros i l -> Hi. rewrite (Hp _ _ eq_refl). cbn [mbind outcome_bind]. unfold snag, scag.
    cbn [as_cell as_atom D as_u64 or_exit map_err mbind outcome_bind]. split; [by apply snag_nlist|].
    rewrite scag_loop_nlist by lia. cbn [mbind outcome_bind]. by rewrite foldr_nlist, Z.sub_0_r.
  - intros i b ->. rewrite (Hp _ _ eq_refl). apply reap_nlist.
  - intros Hw Hi. unfold flop. by rewrite flop_improper, lent_improper, snip_improper.
  - intros a b -> Hi. rewrite (Hp _ _ eq_refl). cbn [mbind outcome_bind]. by apply weld_improper.
  - intros [Hi|(xs & x & -> & Hx & Hi)]; [by apply zing_improper|by eapply zing_element].
  - intros i n -> Hi Hn. rewrite (Hp _ _ eq_refl). cbn [mbind outcome_bind]. unfold snag, scag.
    cbn [as_cell as_atom D as_u64 or_exit map_err mbind outcome_bind]. split; [by apply snag_improper|].
    rewrite (scag_loop_improper _ _ _ _ Hi Hn), Z.sub_0_r. case_decide; [|done]. cbn [mbind outcome_bind app]. by rewrite foldr_nlist.
Qed.

Lemma list_jets_witness :
  jet_snag (T [D 0; T [D 1; D 5; D 6; D 0]; D 0]) = Ok (D 6) /\ jet_scag (T [D 0; T [D 1; D 5; D 6; D 0]; D 0]) = Ok (T [D 5; D 0]).
Proof.
  destruct (list_jets (T [D 0; T [D 1; D 5; D 6; D 0]; D 0]) (T [D 1; D 5; D 6; D 0]) eq_refl) as (_ & _ & _ & H & _).
  exact (H 1 [D 5; D 6] eq_refl ltac:(lia)).
Defined.

(** * Gates *)

(** The comparison of three bits with 64 never succeeds, so a site keeps a jet only
    when no hierarchy is registered for its path. *)
Lemma in_context_registered l : l <> [] -> in_context l = false.
Proof.
  destruct l as [|[|[b a] bs] l]; [done..|]. intros _. cbn [in_context]. rewrite decide_False; [done|].
  intros E%(f_equal length). rewrite length_take in E.
  assert (length (word_bits 7) = 64%nat) by done. lia.
Qed.

Section nock.
Context `{JL : JetLaws} `{SS : !SiteState}.

Definition unjetted (c : Context) (gate b : noun) : Prop :=
  forall j p t, lookup_jet (warm c) gate b = Some (j, p, t) -> cold_find (cold c) p <> [].

(** The gate reduces the sample to the product. *)
Definition gate_call (b k x y : noun) : Prop := nock safe_policy (T [b; x; k]) b y.

Lemma Site_new_run c b smp k :
  unjetted c (T [b; smp; k]) b ->
  exists site, Site_new c (T [b; smp; k]) = Ok site /\ battery site = b /\ context site = k /\ site_jet site = None.
Proof.
  intros Hu. unfold Site_new. change (slot (T [b; smp; k]) 2) with (Ok (E := error) b).
  change (slot (T [b; smp; k]) 7) with (Ok (E := error) k). cbv iota.
  destruct (lookup_jet (warm c) (T [b; smp; k]) b) as [[[j p] t]|] eqn:E; eexists; (split; [done|]); cbn; [|done].
  by rewrite (in_context_registered _ (Hu j p t E)).
Qed.

(** A computation that reaches a value with enough fuel, in a context as good as before *)
Definition yields {A} (c : Context) (x : nat -> G A) (c' : Context) (v : A) : Prop :=
  (ctx_ok c' /\ running_status c' = running_status c /\ stack c' = stack c) /\
  exists n, forall k, (n <= k)%nat -> x k c = Some (c', Ok v).

Lemma yields_ret {A} c (v : A) : ctx_ok c -> yields c (fun _ => mret v) c v.
Proof. intros Hc. split; [done|]. by exists 0%nat. Qed.
Lemma yields_bind {A B} c c1 c2 (x : nat -> G A) (f : nat -> A -> G B) v w :
  yields c x c1 v -> yields c1 (fun k => f k v) c2 w -> yields c (fun k => x k ≫= f k) c2 w.
Proof.
  intros [(H1 & H2 & H3) (n & Hn)] [(H4 & H5 & H6) (m & Hm)]. split; [split_and!; [done|congruence..]|].
  exists (n `max` m)%nat. intros k Hk. unfold mbind, G_bind. rewrite Hn by lia. apply Hm. lia.
Qed.

Section calls.
Context (site : Site) (Hj : site_jet site = None).

Lemma slam_yields c x y :
  gate_call (battery site) (context site) x y -> ctx_ok c -> 0 <= running_status c ->
  exists c', yields c (fun k => site_slam k site x) c' y.
Proof.
  intros Hg Hc Hst. destruct (nock_interpret _ _ _ c Hg Hc Hst) as (n & c' & Hc' & Hs & Hk & Hrun). exists c'. split; [done|].
  exists n. intros k Hn. unfold site_slam. rewrite Hj. unfold run_interpret. by rewrite Hrun.
Qed.

Lemma turn_yields xs ys : Forall2 (gate_call (battery site) (context site)) xs ys -> forall c,
  ctx_ok c -> 0 <= running_status c -> exists c', yields c (fun k => turn_loop k site (nlist xs)) c' (nlist ys).
Proof.
  induction 1 as [|x y xs ys Hxy _ IH]; intros c Hc Hst; [exists c; by apply yields_ret|].
  destruct (slam_yields c x y Hxy Hc Hst) as (c1 & H1). pose proof H1 as [(Hc1 & Hs1 & _) _].
  destruct (IH c1 Hc1 ltac:(lia)) as (c2 & H2). pose proof H2 as [(Hc2 & _ & _) _]. exists c2.
  rewrite !nlist_cons. cbn [turn_loop]. eapply (yields_bind c c1 c2); [exact H1|]. eapply (yields_bind c1 c2 c2); [exact H2|].
  by apply yields_ret.
Qed.

(** The products of a fold over the list *)
Inductive rolls (b k : noun) : list noun -> noun -> noun -> Prop :=
  | rolls_nil prod : rolls b k [] prod prod
  | rolls_cons x xs prod y res : gate_call b k (T [x; prod]) y -> rolls b k xs y res -> rolls b k (x :: xs) prod res.

Lemma roll_yields xs prod res : rolls (battery site) (context site) xs prod res -> forall c,
  ctx_ok c -> 0 <= running_status c -> exists c', yields c (fun k => roll_loop k site (nlist xs) prod) c' res.
Proof.
  induction 1 as [prod|x xs prod y res Hxy _ IH]; intros c Hc Hst; [exists c; by apply yields_ret|].
  destruct (slam_yields c _ y Hxy Hc Hst) as (c1 & H1). pose proof H1 as [(Hc1 & Hs1 & _) _].
  destruct (IH c1 Hc1 ltac:(lia)) as (c2 & H2). exists c2. rewrite nlist_cons. cbn [roll_loop].
  eapply (yields_bind c c1 c2); [exact H1|exact H2].
Qed.

(** The test holds of all of the list, or of a prefix and not of the next element. *)
Inductive levies (b k : noun) : list noun -> bool -> Prop :=
  | levies_nil : levies b k [] true
  | levies_no x xs : gate_call b k x NO -> levies b k (x :: xs) false
  | levies_yes x xs y r : gate_call b k x y -> y <> NO -> levies b k xs r -> levies b k (x :: xs) r.

Lemma levy_yields xs r : levies (battery site) (context site) xs r -> forall c,
  ctx_ok c -> 0 <= running_status c -> exists c', yields c (fun k => levy_loop k site (nlist xs)) c' (loob r).
Proof.
  induction 1 as [|x xs Hno|x xs y r Hxy Hne _ IH]; intros c Hc Hst; [exists c; by apply yields_ret|..];
    rewrite nlist_cons; cbn [levy_loop]; (destruct (decide (NCell x (nlist xs) = D 0)) as [|_]; [done|]).
  - destruct (slam_yields c x _ Hno Hc Hst) as (c1 & H1). pose proof H1 as [(Hc1 & _) _]. exists c1.
    eapply (yields_bind c c1 c1); [exact H1|]. cbv beta. destruct (decide (NO = NO)) as [_|]; [by apply yields_ret|done].
  - destruct (slam_yields c x y Hxy Hc Hst) as (c1 & H1). pose proof H1 as [(Hc1 & Hs1 & _) _].
    destruct (IH c1 Hc1 ltac:(lia)) as (c2 & H2). exists c2.
    eapply (yields_bind c c1 c2); [exact H1|]. cbv beta. by destruct (decide (y = NO)).
Qed.
End calls.
End nock.

(** * Properties *)


(** A gate that increments its sample, turned over a list *)
Definition sample_sites : @SiteState sample_jets := {| lookup_jet _ _ _ := None; cold_find _ _ := [] |}.
Definition inc_gate : noun := T [T [D 4; D 0; D 6]; D 0; D 0].
Definition turn_subject : noun := T [D 0; T [T [D 5; D 6; D 0]; inc_gate]; D 0].

(** In the interpreter's own jet machinery no site ever has a jet: one is found only
    at a path with a hierarchy, and then the comparison of axes fails. *)
Theorem sites_unjetted {M : Type -> Type} `{HM : !NounMap M} `{HL : !NounMapLaws M} {Jet} code (hot : Hot Jet) test_jets mk
    (c : @Context (vm_jets code hot test_jets mk)) core :
  cold_reach (cold c : Cold M) -> map_ok test_jets -> warm c = @warm_init (vm_jets code hot test_jets mk) (cold c) ->
  match @Site_new _ (vm_sites code hot test_jets mk) c core with
  | Ok site => site_jet site = None
  | _ => True
  end.
Proof.
  intros Hc%reach_ok Ht Hw. unfold Site_new. destruct (slot core 2) as [b| |], (slot core 7) as [k| |]; try done. cbn [site_jet].
  destruct (lookup_jet (warm c) core b) as [[[j p] t]|] eqn:El; [|done].
  rewrite in_context_registered; [done|]. cbn [cold_find vm_sites].
  destruct (warm_run (cold c : Cold M) hot test_jets Hc Ht) as (w & Ew & Hf).
  cbn [lookup_jet vm_sites] in El. unfold lookup_warm in El. rewrite Hw in El. cbn [warm_init vm_jets] in El. rewrite Ew, Hf in El.
  destruct (List.find _ _) as [e|] eqn:Efd; [|done]. apply find_some in Efd as [Hin _].
  apply in_rev, list_elem_of_In, for_formula_entries in Hin as (axis & b' & ax & bs & _ & Hh & _).
  assert (Ep : p = path e) by (cbn [lookup_result found] in El; destruct (test e); by simplify_eq/=).
  destruct (look_at (E := ColdError) (path_to_batteries (cold c : Cold M)) p (co_ptb _ Hc)) as (o & Eo & Ed).
  unfold Cold_find. rewrite Eo. cbn [mbind outcome_bind]. rewrite Ed, Ep. intros E. unfold held in Hh. rewrite E in Hh.
  by apply not_elem_of_nil in Hh.
Qed.
