(* ===== verification/Slab.v ===== *)
(** Noun slabs, crates/nockapp/src/noun/slab.rs with [noun_equality] of
    nockvm/src/ext.rs: the jam and cue that checkpoints, the network and the wallet
    use, the map from nouns they need, and the copying of nouns into a slab.

    [jam] appends to a bit vector and [cue] fills the fields of fresh cells through
    destination pointers; an index past the end of the input is a panic.  Equality,
    mugs and copying are on the memory of allocated nouns of Mug, in which the slab
    allocates at the end.  Rust's allocator is not modelled; the sizes of the blocks
    that a slab asks it for are. *)
From stdpp Require Import base option list numbers gmap.
From Stdlib Require Import ZArith Lia.
From S2P Require Import Prelude Noun Interp Hamt Serialization NounSerde Mug.
Local Open Scope Z_scope.

Inductive CueError := BadBackref | BackrefTooBig | TruncatedBuffer.

Global Instance ptr_eq : EqDecision ptr.
Proof. solve_decision. Defined.

(** * Blocks of a slab *)

(** [x << n] of a [usize] takes the amount modulo 64. *)
Definition idx_to_size (idx : Z) : Z := wrap64 (Z.shiftl 1 ((2 * idx + 9) mod 64)).

(** [ilog2] panics on zero. *)
Definition min_idx_for_size (sz : Z) : option Z :=
  if sz <=? 0 then None
  else
    let log2sz := Z.log2 sz in
    let round_sz := Z.shiftl 1 log2sz in
    let log2sz := if round_sz =? sz then log2sz else log2sz + 1 in
    Some (if log2sz <=? 9 then 0 else (log2sz - 9 + 1) / 2).

(** A slab: the sizes of its blocks in words ([None] is a null pointer), the block
    that [allocation_start] points into with the words used, if there is one.  Its root
    is an argument of [copy_into]. *)
Record NounSlab := { slabs : list (option Z); allocation : option (nat * Z) }.
Definition NounSlab_new : NounSlab := {| slabs := []; allocation := None |}.

(** A block that has room, at the end of the list *)
Definition new_block (s : NounSlab) (raw_size : Z) : option (NounSlab * nat * Z) :=
  min_idx ← min_idx_for_size raw_size;
  let next_idx := Z.to_nat (Z.max (Z.of_nat (length (slabs s))) min_idx) in
  let slabs := resize (S next_idx) None (slabs s) in
  let new_size := idx_to_size (Z.of_nat next_idx) in
  (* Layout::array fails beyond isize::MAX bytes *)
  if 2 ^ 60 <=? new_size then None
  else Some ({| slabs := <[next_idx := Some new_size]> slabs; allocation := Some (next_idx, 0) |}, next_idx, 0).

(** The common body of [alloc_indirect], [alloc_cell], [alloc_struct] and
    [alloc_layout]; the result is the block and the offset in it. *)
Definition alloc_words (s : NounSlab) (raw_size : Z) : option (NounSlab * (nat * Z)) :=
  '(s, i, start) ← (match allocation s with
                    | Some (i, start) =>
                        if start + raw_size <=? default 0 (default None (slabs s !! i)) then Some (s, i, start)
                        else new_block s raw_size
                    | None => new_block s raw_size
                    end);
  Some ({| slabs := slabs s; allocation := Some (i, start + raw_size) |}, (i, start)).
Definition alloc_indirect (s : NounSlab) (words : Z) := alloc_words s (words + 2).
Definition CELL_MEM_WORD_SIZE : Z := 3.
Definition alloc_cell (s : NounSlab) := alloc_words s CELL_MEM_WORD_SIZE.

(** * Equality and mugs in memory *)

Inductive StackEntry := Nouns (a b : ptr) | MarkEqual (a b : ptr).

Definition check_ae (ae : list (ptr * ptr)) (a b : ptr) : bool :=
  bool_decide ((a, b) ∈ ae) || bool_decide ((b, a) ∈ ae).

(** [None]: a dangling pointer or no fuel. *)
Fixpoint noun_equality_loop (fuel : nat) (m : memory) (already_equal : list (ptr * ptr)) (stack : list StackEntry) : option bool :=
  match fuel, stack with
  | _, [] => Some true
  | O, _ => None
  | S fuel, MarkEqual a b :: stack => noun_equality_loop fuel m ((a, b) :: already_equal) stack
  | S fuel, Nouns a b :: stack =>
      if bool_decide (a = b) then noun_equality_loop fuel m already_equal stack
      else if check_ae already_equal a b then noun_equality_loop fuel m already_equal stack
      else
        match a, b with
        | PAlloc la, PAlloc lb =>
            a_alloc ← m !! la;
            b_alloc ← m !! lb;
            if (match get_cached_mug a_alloc, get_cached_mug b_alloc with
                | Some a_mug, Some b_mug => negb (a_mug =? b_mug)
                | _, _ => false
                end) then Some false
            else
              match contents a_alloc, contents b_alloc with
              | BIndirect ws, BIndirect vs =>
                  if bool_decide (as_ne_bytes (Indirect ws) = as_ne_bytes (Indirect vs))
                  then noun_equality_loop fuel m ((a, b) :: already_equal) stack
                  else Some false
              | BCell ah at_, BCell bh bt =>
                  noun_equality_loop fuel m already_equal (Nouns ah bh :: Nouns at_ bt :: MarkEqual a b :: stack)
              | _, _ => Some false
              end
        | _, _ => Some false
        end
  end.
Definition noun_equality (fuel : nat) (m : memory) (a b : ptr) : option bool :=
  noun_equality_loop fuel m [] [Nouns a b].

(** The body of the loop is that of [mug_u32]. *)
Definition slab_mug (fuel : nat) (m : memory) (a : ptr) : option (memory * Z) :=
  m ← mug_loop fuel m [a];
  result ← get_mug m a;
  mug ← result;
  Some (m, mug).

(** * [NounMap]: chains under the mug of the key *)

Section noun_map.
Context (mug_of_key : noun -> Z).

Definition SlabMap (V : Type) : Type := gmap Z (list (noun * V)).

Fixpoint chain_get {V} (vec : list (noun * V)) (key : noun) : option V :=
  match vec with
  | [] => None
  | entry :: vec => if decide (key = entry.1) then Some entry.2 else chain_get vec key
  end.
(** [None]: no entry of the chain has the key. *)
Fixpoint chain_set {V} (vec : list (noun * V)) (key : noun) (value : V) : option (list (noun * V)) :=
  match vec with
  | [] => None
  | entry :: vec =>
      if decide (key = entry.1) then Some ((entry.1, value) :: vec)
      else cons entry <$> chain_set vec key value
  end.

Definition SlabMap_insert {V} (m : SlabMap V) (key : noun) (value : V) : SlabMap V :=
  let key_mug := mug_of_key key in
  match m !! key_mug with
  | Some vec =>
      match chain_set vec key value with
      | Some vec => <[key_mug := vec]> m
      | None => <[key_mug := vec ++ [(key, value)]]> m
      end
  | None => <[key_mug := [(key, value)]]> m
  end.
Definition SlabMap_get {V} (m : SlabMap V) (key : noun) : option V :=
  let key_mug := mug_of_key key in
  match m !! key_mug with
  | Some vec => chain_get vec key
  | None => None
  end.
End noun_map.

(** * [NockJammer::jam] *)

(** [None] is a panic: a slice past the end. *)
Definition mat_backref (buffer : list bool) (backref : Z) : option (list bool) :=
  if backref =? 0 then Some (buffer ++ [true; true; true])
  else
    let backref_sz := Z.of_nat (met0_u64_to_usize backref) in
    let backref_sz_sz := met0_u64_to_usize backref_sz in
    let buffer := buffer ++ [true; true] in
    let buffer := buffer ++ replicate backref_sz_sz false in
    let buffer := buffer ++ [true] in
    size_bits ← slice_range (bits_of 64 backref_sz) 0 (wrap64 (Z.of_nat backref_sz_sz - 1));
    let buffer := buffer ++ size_bits in
    bits ← slice_range (bits_of 64 backref) 0 backref_sz;
    Some (buffer ++ bits).

Definition mat_atom (buffer : list bool) (a : atom) : option (list bool) :=
  if decide (a = Direct 0) then Some (buffer ++ [false; true])
  else
    let atom_sz := Z.of_nat (met0_usize a) in
    let atom_sz_sz := met0_u64_to_usize atom_sz in
    let buffer := buffer ++ [false] in
    let buffer := buffer ++ replicate atom_sz_sz false in
    let buffer := buffer ++ [true] in
    size_bits ← slice_range (bits_of 64 atom_sz) 0 (wrap64 (Z.of_nat atom_sz_sz - 1));
    let buffer := buffer ++ size_bits in
    bits ← slice_range (as_bitslice a) 0 atom_sz;
    Some (buffer ++ bits).

(** The bytes of a bit vector; the bits of the last byte that are not in use have
    any value. *)
Fixpoint bits_bytes (n : nat) (bs : list bool) : list Z :=
  match n with
  | O => []
  | S n => bits_val (take 8 bs) :: bits_bytes n (drop 8 bs)
  end.
Definition as_raw_slice (dead : list bool) (buffer : list bool) : list Z :=
  bits_bytes ((length buffer + 7) / 8) (buffer ++ dead).

Section slab_jam.
Context (mug_of_key : noun -> Z).

(** [None]: a panic or no fuel *)
Fixpoint slab_jam_loop (fuel : nat) (stack : list noun) (backref_map : SlabMap Z) (buffer : list bool) : option (list bool) :=
  match fuel, stack with
  | _, [] => Some buffer
  | O, _ => None
  | S fuel, noun :: stack =>
      match SlabMap_get mug_of_key backref_map noun with
      | Some backref =>
          buffer ← (match noun with
                    | NAtom a =>
                        if (met0_u64_to_usize backref <? met0_usize a)%nat then mat_backref buffer backref
                        else mat_atom buffer a
                    | NCell _ _ => mat_backref buffer backref
                    end);
          slab_jam_loop fuel stack backref_map buffer
      | None =>
          let backref_map := SlabMap_insert mug_of_key backref_map noun (Z.of_nat (length buffer)) in
          match noun with
          | NAtom a =>
              buffer ← mat_atom buffer a;
              slab_jam_loop fuel stack backref_map buffer
          | NCell head tail =>
              slab_jam_loop fuel (head :: tail :: stack) backref_map (buffer ++ [true; false])
          end
      end
  end.
Definition slab_jam_bits (n : noun) : option (list bool) := slab_jam_loop (noun_nodes n) [n] ∅ [].
Definition slab_jam (dead : list bool) (n : noun) : option (list Z) :=
  buffer ← slab_jam_bits n; Some (as_raw_slice dead buffer).
End slab_jam.

(** * [NockJammer::cue] *)

Notation cue_outcome := (outcome CueError).

(** [buffer[cursor..]] *)
Definition slice_from (buffer : list bool) (cursor : Z) : cue_outcome (list bool) :=
  or_panic (slice_range buffer cursor (bit_len buffer)).

(** The size in front of a number: [None] for zero, otherwise the bits it has.  Both
    readers begin so; the slice of [sz] has 64 bits, and [set] is past its end when
    [idx - 1] is 64. *)
Definition rub_size (cursor : Z) (buffer : list bool) : cue_outcome (option Z * Z) :=
  rest ← slice_from buffer cursor;
  match first_one rest with
  | None => Err TruncatedBuffer
  | Some O => Ok (None, cursor + 1)
  | Some idx =>
      let idx := Z.of_nat idx in
      let cursor := cursor + (idx + 1) in
      if bit_len buffer <? cursor + idx - 1 then Err TruncatedBuffer
      else if 64 <=? idx - 1 then Panic
      else
        sz_bits ← or_panic (slice_range buffer cursor (cursor + idx - 1));
        Ok (Some (bits_val (sz_bits ++ [true])), cursor + (idx - 1))
  end.

Definition slab_rub_backref (cursor : Z) (buffer : list bool) : cue_outcome (Z * Z) :=
  '(sz, cursor) ← rub_size cursor buffer;
  match sz with
  | None => Ok (0, cursor)
  | Some sz =>
      if 64 <? sz then Err BackrefTooBig
      else if bit_len buffer <? wrap64 (cursor + sz) then Err TruncatedBuffer
      else
        bits ← or_panic (slice_range buffer cursor (wrap64 (cursor + sz)));
        Ok (bits_val bits, wrap64 (cursor + sz))
  end.

(** [while used_words > 1 && words[used_words - 1] == 0] *)
Fixpoint used_words_loop (words : list Z) (used_words : nat) : nat :=
  match used_words with
  | S (S _ as used) => if default 0 (words !! used) =? 0 then used_words_loop words used else used_words
  | _ => used_words
  end.

Definition rub_atom (cursor : Z) (buffer : list bool) : cue_outcome (atom * Z) :=
  '(sz, cursor) ← rub_size cursor buffer;
  match sz with
  | None => Ok (Direct 0, cursor)
  | Some sz =>
      if bit_len buffer <? wrap64 (cursor + sz) then Err TruncatedBuffer
      else
        bits ← or_panic (slice_range buffer cursor (wrap64 (cursor + sz)));
        let cursor := wrap64 (cursor + sz) in
        if sz <? 64 then Ok (Direct (bits_val bits), cursor)
        else
          let indirect_words := Z.to_nat (Z.shiftr (wrap64 (sz + 63)) 6) in
          let words := bits_words indirect_words bits in
          let used_words := used_words_loop words (length words) in
          if (used_words =? 0)%nat then Ok (Direct 0, cursor)
          else if (used_words =? 1)%nat && (default 0 (words !! 0%nat) <=? DIRECT_MAX)
          then Ok (Direct (default 0 (words !! 0%nat)), cursor)
          else Ok (Indirect (take used_words words), cursor)
  end.

Record SlabCueState := {
  sc_res : val;
  sc_heap : heap;
  sc_cursor : Z;
  sc_map : gmap Z val;
  sc_stack : list CueStackEntry;
}.

(** [bitslice[cursor]] *)
Definition bit_of (buffer : list bool) (cursor : Z) : cue_outcome bool :=
  or_panic (buffer !! Z.to_nat cursor).

(** One turn of the loop, for the popped entry *)
Definition slab_cue_step (bitslice : list bool) (entry : CueStackEntry) (s : SlabCueState) : cue_outcome SlabCueState :=
  let '(Build_SlabCueState res h cursor backref_map stk) := s in
  match entry with
  | DestinationPointer dest_ptr =>
      let backref := cursor in
      b ← bit_of bitslice cursor;
      let cursor := cursor + 1 in
      if (b : bool) then
        b ← bit_of bitslice cursor;
        let cursor := cursor + 1 in
        if (b : bool) then
          '(backref, cursor) ← slab_rub_backref cursor bitslice;
          match backref_map !! backref with
          | Some noun =>
              let '(res, h) := write_dest dest_ptr noun res h in
              Ok (Build_SlabCueState res h cursor backref_map stk)
          | None => Err BadBackref
          end
        else
          let ptr := length h in
          let h := h ++ [{| cell_head := None; cell_tail := None |}] in
          let '(res, h) := write_dest dest_ptr (VCell ptr) res h in
          Ok (Build_SlabCueState res h cursor backref_map
            (DestinationPointer (DHead ptr) :: DestinationPointer (DTail ptr) :: BackRef backref dest_ptr :: stk))
      else
        '(a, cursor) ← rub_atom cursor bitslice;
        let '(res, h) := write_dest dest_ptr (VAtom a) res h in
        Ok (Build_SlabCueState res h cursor (<[backref := VAtom a]> backref_map) stk)
  | BackRef backref noun_ptr =>
      v ← or_panic (read_dest noun_ptr res h);
      Ok (Build_SlabCueState res h cursor (<[backref := v]> backref_map) stk)
  end.

(** [None]: no fuel *)
Fixpoint slab_cue_loop (fuel : nat) (bitslice : list bool) (s : SlabCueState) : option (cue_outcome (val * heap)) :=
  match fuel with
  | O => None
  | S fuel =>
      match sc_stack s with
      | [] => Some (Ok (sc_res s, sc_heap s))
      | entry :: stk =>
          match slab_cue_step bitslice entry
            (Build_SlabCueState (sc_res s) (sc_heap s) (sc_cursor s) (sc_map s) stk) with
          | Ok s => slab_cue_loop fuel bitslice s
          | Err e => Some (Err e)
          | Panic => Some Panic
          end
      end
  end.

(** [view_bits] *)
Definition view_bits (bytes : list Z) : list bool := bytes ≫= bits_of 8.

Definition slab_cue_init : SlabCueState :=
  Build_SlabCueState (VAtom (Direct 0)) [] 0 ∅ [DestinationPointer DResult].
Definition slab_cue (jammed : list Z) : option (cue_outcome (val * heap)) :=
  let bitslice := view_bits jammed in
  slab_cue_loop (cue_fuel bitslice) bitslice slab_cue_init.

(** * [copy_into] *)

(** [*dest = noun]: the root of the slab or a field of a cell *)
Inductive slot_ptr := SRoot | SHead (l : nat) | STail (l : nat).
Definition set_field (f : slot_ptr) (v : ptr) (a : Allocated) : Allocated :=
  {| metadata := metadata a;
     contents := match f, contents a with
                 | SHead _, BCell _ t => BCell v t
                 | STail _, BCell h _ => BCell h v
                 | _, c => c
                 end |}.
Definition write_slot (f : slot_ptr) (v : ptr) (root : ptr) (m : memory) : ptr * memory :=
  match f with
  | SRoot => (v, m)
  | SHead l | STail l => (root, alter (set_field f v) l m)
  end.

(** The copies are allocated at the end of the memory; [copied] maps the location of
    a noun to its copy. *)
Fixpoint copy_loop (fuel : nat) (root : ptr) (m : memory) (copied : gmap nat ptr) (copy_stack : list (ptr * slot_ptr)) : option (ptr * memory) :=
  match fuel, copy_stack with
  | _, [] => Some (root, m)
  | O, _ => None
  | S fuel, (noun, dest) :: copy_stack =>
      match noun with
      | PDirect _ =>
          let '(root, m) := write_slot dest noun root m in
          copy_loop fuel root m copied copy_stack
      | PAlloc l =>
          allocated ← m !! l;
          match copied !! l with
          | Some copied_noun =>
              let '(root, m) := write_slot dest copied_noun root m in
              copy_loop fuel root m copied copy_stack
          | None =>
              let new := length m in
              let m := m ++ [allocated] in
              let copied := <[l := PAlloc new]> copied in
              let '(root, m) := write_slot dest (PAlloc new) root m in
              match contents allocated with
              | BIndirect _ => copy_loop fuel root m copied copy_stack
              | BCell head tail =>
                  copy_loop fuel root m copied ((head, SHead new) :: (tail, STail new) :: copy_stack)
              end
          end
      end
  end.
Definition copy_into (fuel : nat) (root : ptr) (m : memory) (copy_root : ptr) : option (ptr * memory) :=
  copy_loop fuel root m ∅ [(copy_root, SRoot)].
