(* ===== verification/SlabTheorems.v ===== *)
(** Theorems on noun slabs: [NockJammer] writes the encoding of jam and reads it back,
    its [cue] ends on every input with a noun, an error or a panic, and copying,
    equality and mugs are what they are of the nouns in memory. *)
From stdpp Require Import base option list numbers gmap.
From Stdlib Require Import ZArith Lia.
From S2P Require Import Prelude Noun Interp Hamt HamtTheorems Serialization SerializationTheorems NounSerde Mug MugTheorems Slab.
Local Open Scope Z_scope.

(** * The map from nouns *)

Lemma chain_set_get {V} (vec : list (noun * V)) key value k :
  match chain_set vec key value with
  | Some vec' => chain_get vec' k = if decide (k = key) then Some value else chain_get vec k
  | None => chain_get vec key = None /\
      chain_get (vec ++ [(key, value)]) k = if decide (k = key) then Some value else chain_get vec k
  end.
Proof.
  induction vec as [|[n v] vec IH]; cbn [chain_set chain_get app fst snd]; [done|].
  destruct (decide (key = n)) as [->|Hne]; cbn [chain_get fst snd]; [by repeat case_decide|].
  destruct (chain_set vec key value) as [vec'|]; cbn [fmap option_fmap option_map chain_get fst snd].
  - rewrite IH. repeat case_decide; congruence.
  - destruct IH as [IH1 IH2]. split; [done|]. rewrite IH2. repeat case_decide; congruence.
Qed.

Lemma SlabMap_get_insert mug_of_key {V} (m : SlabMap V) key value k :
  SlabMap_get mug_of_key (SlabMap_insert mug_of_key m key value) k =
    if decide (k = key) then Some value else SlabMap_get mug_of_key m k.
Proof.
  unfold SlabMap_get, SlabMap_insert, SlabMap in *. destruct (decide (mug_of_key k = mug_of_key key)) as [E|E].
  - rewrite E. destruct (m !! mug_of_key key) as [vec|] eqn:Em.
    + pose proof (chain_set_get vec key value k) as H.
      destruct (chain_set vec key value) as [vec'|]; rewrite lookup_insert_eq; [done|by apply H].
    + rewrite lookup_insert_eq. cbn. by case_decide.
  - assert (Hk : k <> key) by congruence. rewrite (decide_False (P := k = key)) by done.
    destruct (m !! mug_of_key key) as [vec|]; [destruct (chain_set vec key value)|]; by rewrite lookup_insert_ne by congruence.
Qed.

Definition slab_map (mug_of_key : noun -> Z) : NounMap SlabMap := {|
  map_new V := ∅;
  map_lookup V m k := Some (SlabMap_get mug_of_key m k);
  map_insert V m k v := Some (SlabMap_insert mug_of_key m k v);
|}.
Definition slab_map_laws (mug_of_key : noun -> Z) : @NounMapLaws SlabMap (slab_map mug_of_key).
Proof.
  refine (@Build_NounMapLaws SlabMap (slab_map mug_of_key) (fun _ _ => True) _ _ _ _); cbn; try done.
  intros V m k v _. exists (SlabMap_insert mug_of_key m k v). split_and!; [done..|]. intros k'.
  rewrite SlabMap_get_insert. by case_decide.
Defined.

(** * [jam] *)

Lemma slice_range_take bs n : (n <= length bs)%nat -> slice_range bs 0 (Z.of_nat n) = Some (take n bs).
Proof.
  intros Hn. unfold slice_range, bit_len. rewrite (proj2 (Z.leb_le _ _)), (proj2 (Z.leb_le _ _)) by lia. cbn [andb].
  by rewrite Z.sub_0_r, Nat2Z.id, drop_0.
Qed.

Lemma size_bits z : 0 < z < U64 ->
  slice_range (bits_of 64 z) 0 (wrap64 (Z.of_nat (bitlen z) - 1)) = Some (bits_of (bitlen z - 1) z).
Proof.
  intros Hz. assert (bitlen z <> O) by (intros E; apply bitlen_0 in E; lia).
  pose proof (bitlen_u64 z ltac:(width; lia)).
  replace (Z.of_nat (bitlen z) - 1) with (Z.of_nat (bitlen z - 1)) by lia.
  rewrite wrap64_small by (width; lia). rewrite slice_range_take by (rewrite length_bits_of; lia).
  by rewrite take_bits_of by lia.
Qed.

Lemma mat_backref_spec buffer q :
  Z.of_nat q < U64 -> mat_backref buffer (Z.of_nat q) = Some (buffer ++ ref_bits q).
Proof.
  intros Hq. unfold mat_backref, ref_bits, mat_bits. destruct (Z.eqb_spec (Z.of_nat q) 0) as [_|Hne]; [done|].
  rewrite (met0_u64_val (Z.of_nat q)) by (width; lia). set (z := Z.of_nat q) in *.
  pose proof (bitlen_u64 z ltac:(width; lia)). assert (bitlen z <> O) by (intros E; apply bitlen_0 in E; lia).
  rewrite met0_u64_val by (width; lia). rewrite size_bits by (width; lia). cbn [mbind option_bind].
  rewrite slice_range_take by (rewrite length_bits_of; lia). cbn [mbind option_bind].
  rewrite take_bits_of by lia. by rewrite <- !app_assoc.
Qed.

Lemma mat_atom_spec buffer a :
  wf_atom a -> Z.of_nat (length (as_bitslice a)) < U64 -> mat_atom buffer a = Some (buffer ++ atom_bits a).
Proof.
  intros Ha Hsz. unfold mat_atom, atom_bits, mat_bits. destruct (decide (a = Direct 0)) as [->|Hne]; [done|].
  pose proof (wf_atom_val a Ha). assert (Hv : atom_val a <> 0).
  { intros E. apply Hne. apply (atom_val_inj a (Direct 0)); done. }
  rewrite (proj2 (Z.eqb_neq _ _) Hv). rewrite met0_usize_val by done. pose proof (bitlen_slice a Ha) as Hb.
  assert (bitlen (atom_val a) <> O) by (intros E; apply bitlen_0 in E; lia).
  rewrite met0_u64_val by (width; lia). rewrite size_bits by (width; lia). cbn [mbind option_bind].
  rewrite slice_range_take by lia. cbn [mbind option_bind].
  rewrite take_as_bitslice by done. by rewrite <- !app_assoc.
Qed.

Section jam.
Context (mug_of_key : noun -> Z).

Definition agree (bm : SlabMap Z) (m : positions) : Prop :=
  forall n, SlabMap_get mug_of_key bm n = Z.of_nat <$> m n.

Lemma agree_insert bm m n p : agree bm m -> agree (SlabMap_insert mug_of_key bm n (Z.of_nat p)) (pos_insert m n p).
Proof. intros H n'. rewrite SlabMap_get_insert, H. unfold pos_insert. by case_decide. Qed.

Definition jams (n : noun) : Prop := forall stack bm m out,
  wf_noun n -> sized n -> agree bm m -> before m (length out) ->
  Z.of_nat (length out + length (fst (jam_bits n (length out) m))) < U64 ->
  exists steps bm', (steps <= noun_nodes n)%nat /\
    (forall f, slab_jam_loop mug_of_key (steps + f) (n :: stack) bm out =
               slab_jam_loop mug_of_key f stack bm' (out ++ fst (jam_bits n (length out) m))) /\
    agree bm' (snd (jam_bits n (length out) m)).

Lemma jams_atom a : jams (NAtom a).
Proof.
  intros stack bm m out Hwf Hsz Hbm Hbef Hbound. cbn [jam_bits wf_noun sized] in *. pose proof (Hbm (NAtom a)) as Hlook.
  destruct (m (NAtom a)) as [q|] eqn:Hm; cbn [fmap option_fmap option_map] in Hlook.
  - pose proof (Hbef _ _ Hm) as Hq. exists 1%nat, bm. split_and!; [cbn; lia| |done]. intros f. cbn [slab_jam_loop Nat.add].
    rewrite Hlook, met0_usize_val, met0_u64_val by (done || width; lia). cbn [fst].
    destruct (Nat.leb_spec (bitlen (atom_val a)) (bitlen (Z.of_nat q))).
    + rewrite (proj2 (Nat.ltb_ge _ _)) by done. by rewrite mat_atom_spec.
    + rewrite (proj2 (Nat.ltb_lt _ _)) by done. by rewrite mat_backref_spec by (width; lia).
  - eexists 1%nat, _. split_and!; [cbn; lia| |by apply agree_insert]. intros f. cbn [slab_jam_loop Nat.add fst].
    rewrite Hlook. by rewrite mat_atom_spec.
Qed.

Lemma jams_cell h t : jams h -> jams t -> jams (NCell h t).
Proof.
  intros IHh IHt stack bm m out Hwf Hsz Hbm Hbef Hbound. cbn [jam_bits wf_noun sized] in *.
  pose proof (Hbm (NCell h t)) as Hlook. destruct (m (NCell h t)) as [q|] eqn:Hm; cbn [fmap option_fmap option_map] in Hlook.
  { pose proof (Hbef _ _ Hm) as Hq. exists 1%nat, bm. split_and!; [cbn; lia| |done]. intros f. cbn [slab_jam_loop Nat.add fst].
    rewrite Hlook. by rewrite mat_backref_spec by (width; lia). }
  destruct Hwf as [Wh Wt], Hsz as [Sh St]. pose proof (agree_insert bm m (NCell h t) (length out) Hbm) as Hbm1.
  set (m1 := pos_insert m (NCell h t) (length out)) in *.
  assert (Hlo : length (out ++ [true; false]) = (length out + 2)%nat) by (by rewrite length_app).
  specialize (IHh (t :: stack) _ m1 (out ++ [true; false]) Wh Sh Hbm1). rewrite Hlo in IHh.
  assert (Hbef1 : before m1 (length out + 2)) by (apply before_insert; [done|lia]).
  pose proof (jam_bits_before h (length out + 2) m1 Hbef1) as Hbef2.
  destruct (jam_bits h (length out + 2) m1) as [bh m2] eqn:Ejh. cbn [fst snd] in *. specialize (IHt stack).
  destruct (jam_bits t (length out + 2 + length bh) m2) as [bt m3] eqn:Ejt. cbn [fst snd length] in *.
  rewrite length_app in Hbound. destruct (IHh Hbef1 ltac:(lia)) as (k1 & bm2 & Hk1 & Hloop1 & Hbm2).
  assert (Hlo2 : length ((out ++ [true; false]) ++ bh) = (length out + 2 + length bh)%nat) by (rewrite length_app, Hlo; lia).
  specialize (IHt bm2 m2 ((out ++ [true; false]) ++ bh) Wt St Hbm2). rewrite Hlo2, Ejt in IHt. cbn [fst snd] in IHt.
  destruct (IHt Hbef2 ltac:(lia)) as (k2 & bm3 & Hk2 & Hloop2 & Hbm3).
  exists (S (k1 + k2)), bm3. split_and!; [cbn; lia| |done]. intros f. cbn [slab_jam_loop Nat.add]. rewrite Hlook.
  rewrite <- Nat.add_assoc, Hloop1, Hloop2. by rewrite <- !app_assoc.
Qed.

Lemma jams_noun n : jams n.
Proof. induction n; [apply jams_atom|by apply jams_cell]. Qed.

Lemma slab_jam_bits_spec n :
  wf_noun n -> sized n -> Z.of_nat (length (encoding n)) < U64 -> slab_jam_bits mug_of_key n = Some (encoding n).
Proof.
  intros Hwf Hsz Hlen. destruct (jams_noun n [] ∅ (fun _ => None) []) as (k & bm & Hk & Hloop & _); try done.
  unfold slab_jam_bits. replace (noun_nodes n) with (k + (noun_nodes n - k))%nat by lia. rewrite Hloop.
  by destruct (noun_nodes n - k)%nat.
Qed.
End jam.

(** * Bytes and bits *)

Lemma bits_of_pad n bs : (length bs <= n)%nat -> bits_of n (bits_val bs) = bs ++ replicate (n - length bs) false.
Proof.
  intros Hn. apply bits_val_inj; [rewrite length_bits_of, length_app, length_replicate; lia|].
  rewrite bits_val_app, bits_val_replicate_false, Z.mul_0_r, Z.add_0_r. apply bits_val_of_small.
  split; [apply bits_val_nonneg|]. eapply Z.lt_le_trans; [apply bits_val_bound|]. apply Z.pow_le_mono_r; lia.
Qed.

Lemma view_bits_bytes n bs : (8 * n <= length bs)%nat -> view_bits (bits_bytes n bs) = take (8 * n) bs.
Proof.
  revert bs. induction n as [|n IH]; intros bs Hl; [done|]. unfold view_bits in *. cbn [bits_bytes mbind list_bind].
  rewrite IH by (rewrite length_drop; lia). rewrite bits_of_pad by (rewrite length_take; lia).
  rewrite length_take, Nat.min_l, Nat.sub_diag by lia. cbn [replicate]. rewrite app_nil_r.
  replace (8 * S n)%nat with (8 + 8 * n)%nat by lia. by rewrite take_take_drop.
Qed.

Lemma bits_bytes_pad n k bs : bits_bytes n (bs ++ replicate k false) = bits_bytes n bs.
Proof.
  revert bs k. induction n as [|n IH]; intros bs k; [done|]. cbn [bits_bytes]. f_equal.
  - rewrite take_app, bits_val_app, take_replicate, bits_val_replicate_false. lia.
  - rewrite drop_app, drop_replicate. destruct (decide (8 <= length bs)%nat).
    + rewrite (proj2 (Nat.sub_0_le 8 _)) by done. rewrite Nat.sub_0_r. apply IH.
    + rewrite (drop_ge bs) by lia. apply (IH [] _).
Qed.

(** The input of [cue] is the output of [jam] and less than a byte of padding. *)
Lemma view_raw_slice dead bs :
  exists pad, view_bits (as_raw_slice dead bs) = bs ++ pad /\ (length pad < 8)%nat.
Proof.
  unfold as_raw_slice. set (n := ((length bs + 7) / 8)%nat).
  assert (Hn : (length bs <= 8 * n < length bs + 8)%nat).
  { pose proof (Nat.div_mod_eq (length bs + 7) 8). pose proof (Nat.mod_upper_bound (length bs + 7) 8 ltac:(done)).
    subst n. lia. }
  rewrite <- (bits_bytes_pad n 8), <- app_assoc. set (d := dead ++ replicate 8 false).
  assert (8 <= length d)%nat by (unfold d; rewrite length_app, length_replicate; lia).
  rewrite view_bits_bytes by (rewrite length_app; lia). exists (take (8 * n - length bs) d). split.
  - by rewrite take_app, take_ge by lia.
  - rewrite length_take. lia.
Qed.

Lemma bits_bytes_range n bs : Forall (fun b => 0 <= b < 256) (bits_bytes n bs).
Proof.
  revert bs. induction n as [|n IH]; intros bs; cbn [bits_bytes]; constructor; [|apply IH].
  split; [apply bits_val_nonneg|]. eapply Z.lt_le_trans; [apply bits_val_bound|].
  change 256 with (2 ^ 8). apply Z.pow_le_mono_r; [lia|]. rewrite length_take. lia.
Qed.

(** * Reading numbers *)

Lemma slice_from_rest buffer cursor :
  0 <= cursor <= bit_len buffer -> slice_from buffer cursor = Ok (rest_bits cursor buffer).
Proof.
  intros Hc. unfold slice_from, slice_range, rest_bits. rewrite (proj2 (Z.leb_le _ _)), Z.leb_refl by lia. cbn [andb or_panic].
  unfold bit_len in *. rewrite take_ge by (rewrite length_drop; lia).
  destruct (Z.ltb_spec cursor (Z.of_nat (length buffer))); [done|]. by rewrite drop_ge by lia.
Qed.

Lemma slice_range_Some bs a b x :
  0 <= a -> slice_range bs a b = Some x -> a <= b <= bit_len bs /\ bit_len x = b - a.
Proof.
  intros Ha. unfold slice_range, bit_len. destruct (Z.leb_spec a b); [|done]. destruct (Z.leb_spec b (Z.of_nat (length bs))); [|done].
  intros [= <-]. split; [done|]. rewrite length_take, length_drop. lia.
Qed.

(** Where the size is read without error and fits a word, both readers of sizes agree. *)
Lemma rub_size_get cursor buffer size c :
  0 <= cursor <= bit_len buffer -> bit_len buffer < 2 ^ 63 -> get_size cursor buffer = Ok (size, c) -> c <= cursor + 128 ->
  rub_size cursor buffer = Ok (if size =? 0 then None else Some size, c).
Proof.
  intros Hc Hlen. unfold get_size, rub_size. rewrite slice_from_rest by done. cbn [mbind outcome_bind].
  destruct (first_one (rest_bits cursor buffer)) as [[|k]|] eqn:Ef; [by intros [= <- <-]| |done].
  set (idx := Z.of_nat (S k)). assert (0 < idx) by (unfold idx; lia).
  replace (cursor + idx + 1) with (cursor + (idx + 1)) by lia. set (cur := cursor + (idx + 1)). unfold next_up_to_n_bits.
  assert (Hk : cursor + (idx + 1) <= bit_len buffer).
  { apply first_bit_Some in Ef as [rest Er]. apply (f_equal length) in Er. unfold rest_bits, bit_len in *.
    rewrite length_app, length_replicate in Er. cbn [length] in Er.
    destruct (Z.ltb_spec cursor (Z.of_nat (length buffer))); [rewrite length_drop in Er|cbn in Er]; unfold idx; lia. }
  rewrite wrap64_small by (width; unfold cur; lia).
  destruct (Z.leb_spec (cur + (idx - 1)) (bit_len buffer)) as [He|He].
  - destruct (slice_range buffer cur (cur + (idx - 1))) as [bits|] eqn:Es; cbn; [|done].
    assert (Hb : bit_len bits = idx - 1) by (apply slice_range_Some in Es as [_ ->]; unfold cur; lia).
    rewrite (proj2 (Z.eqb_eq _ _) Hb).
    destruct (Z.ltb_spec 64 (idx - 1)); cbn [orb negb]; [done|]. intros [= Esz <-] Hmax. unfold cur in Hmax.
    replace (bit_len buffer <? cur + idx - 1) with false by (symmetry; apply Z.ltb_ge; lia).
    rewrite (proj2 (Z.leb_gt 64 (idx - 1))) by lia. replace (cur + idx - 1) with (cur + (idx - 1)) by lia. rewrite Es. cbn.
    rewrite bits_val_app. cbn [bits_val Z.b2z]. unfold bit_len in Hb. rewrite Hb.
    pose proof (bits_val_bound bits) as Hv. rewrite Hb in Hv.
    pose proof (bits_val_nonneg bits). assert (0 < 2 ^ (idx - 1) <= 2 ^ 63) by (split; [apply Z.pow_pos_nonneg|apply Z.pow_le_mono_r]; lia).
    rewrite Z.mod_small, Z.shiftl_1_l, wrap64_small in Esz by (width; lia). rewrite (proj2 (Z.eqb_neq size 0)) by lia.
    do 3 f_equal; lia.
  - destruct (if cur <? bit_len buffer then _ else _) as [bits|] eqn:Es; cbn; [|done].
    assert (bit_len bits <> idx - 1) as Hne.
    { destruct (Z.ltb_spec cur (bit_len buffer)); [|injection Es as <-; unfold bit_len in *; cbn; unfold cur in *; lia].
      apply slice_range_Some in Es as [? ?]; unfold cur in *; lia. }
    rewrite (proj2 (Z.eqb_neq _ _) Hne). by rewrite orb_true_r.
Qed.

Lemma rub_size_mat pre z post :
  0 <= z -> bit_len (pre ++ mat_bits z ++ post) < 2 ^ 63 ->
  exists pre', rub_size (Z.of_nat (length pre)) (pre ++ mat_bits z ++ post) =
    Ok (if z =? 0 then None else Some (Z.of_nat (bitlen z)), Z.of_nat (length pre')) /\
  pre ++ mat_bits z ++ post = pre' ++ bits_of (bitlen z) z ++ post /\
  Z.of_nat (length (pre ++ mat_bits z)) = Z.of_nat (length pre') + Z.of_nat (bitlen z) /\
  Z.of_nat (length pre') + Z.of_nat (bitlen z) < 2 ^ 63 /\ bits_val (bits_of (bitlen z) z) = z.
Proof.
  intros Hz Hlen. assert (Hlen' : bit_len (pre ++ mat_bits z) < 2 ^ 63) by (unfold bit_len in *; rewrite !length_app in *; lia).
  destruct (mat_number pre z post Hz Hlen') as (pre' & Hpre & Hget & Hbuf & Hl & Hmax & Hbits).
  exists pre'. split_and!; [|done..]. pose proof (bitlen_0 z Hz) as Hz0.
  rewrite (rub_size_get (Z.of_nat (length pre)) (pre ++ mat_bits z ++ post) (Z.of_nat (bitlen z)) (Z.of_nat (length pre')));
    [|unfold bit_len; rewrite length_app; lia|done|done|].
  - do 3 f_equal. destruct (Z.eqb_spec z 0) as [->|]; [done|]. rewrite (proj2 (Z.eqb_neq _ _)); [done|lia].
  - rewrite length_app in Hl. destruct (decide (z = 0)) as [->|]; [cbn in Hl; lia|]. rewrite length_mat_bits in Hl by lia.
    pose proof (bitlen_u64 (Z.of_nat (bitlen z)) ltac:(width; lia)). lia.
Qed.

Lemma slab_rub_backref_mat pre x post :
  is_u64 x -> bit_len (pre ++ mat_bits x ++ post) < 2 ^ 63 ->
  slab_rub_backref (Z.of_nat (length pre)) (pre ++ mat_bits x ++ post) = Ok (x, Z.of_nat (length (pre ++ mat_bits x))).
Proof.
  intros Hx Hlen. destruct (rub_size_mat pre x post (proj1 Hx) Hlen) as (pre' & Hget & Hbuf & -> & Hmax & Hbits).
  unfold slab_rub_backref. rewrite Hget. cbn [mbind outcome_bind]. pose proof (bitlen_u64 x Hx).
  destruct (Z.eqb_spec x 0) as [->|Hne]; [by rewrite Z.add_0_r|].
  rewrite (proj2 (Z.ltb_ge 64 _)) by lia. rewrite wrap64_small by (width; lia). rewrite Hbuf in *.
  rewrite (proj2 (Z.ltb_ge (bit_len _) _)) by (unfold bit_len; rewrite !length_app, length_bits_of; lia).
  pose proof (slice_range_app pre' (bits_of (bitlen x) x) post) as Hs. rewrite length_bits_of in Hs. rewrite Hs. cbn. by rewrite Hbits.
Qed.

(** The inline normalization of [rub_atom] is that of indirect atoms. *)
Lemma used_words_normalize ws n : used_words_loop ws (S n) = S (normalize_index ws n).
Proof. induction n as [|n IH]; [done|]. cbn [used_words_loop normalize_index]. by destruct (default 0 (ws !! S n) =? 0). Qed.

Definition words_atom (ws : list Z) : atom :=
  let used := used_words_loop ws (length ws) in
  if (used =? 0)%nat then Direct 0
  else if (used =? 1)%nat && (default 0 (ws !! 0%nat) <=? DIRECT_MAX) then Direct (default 0 (ws !! 0%nat))
  else Indirect (take used ws).

Lemma words_atom_normalize ws : ws <> [] -> words_atom ws = normalize_as_atom ws.
Proof.
  intros Hne. unfold words_atom, normalize_as_atom, normalize. destruct ws as [|w ws]; [done|]. cbn [length].
  rewrite used_words_normalize, Nat.sub_succ, Nat.sub_0_r. set (k := normalize_index (w :: ws) (length ws)).
  assert (k <= length ws)%nat. { apply (normalize_index_spec (w :: ws) (length ws)). cbn. lia. }
  rewrite length_take, Nat.min_l by (cbn; lia). rewrite Nat.add_1_r. by cbn [Nat.eqb take].
Qed.

Lemma words_atom_val n bs :
  (0 < n)%nat -> (length bs <= 64 * n)%nat -> wf_atom (words_atom (bits_words n bs)) /\
  atom_val (words_atom (bits_words n bs)) = bits_val bs.
Proof.
  intros Hn Hl. rewrite bits_words_short by done. set (ws := bs ++ _).
  assert (Hw : length ws = (64 * n)%nat) by (unfold ws; rewrite length_app, length_replicate; lia).
  destruct (bits_words_spec n ws Hw) as (Hf & Hlw & Hval).
  assert (Hne : bits_words n ws <> []) by (intros E; rewrite E in Hlw; cbn in Hlw; lia).
  rewrite words_atom_normalize by done. destruct (normalize_as_atom_wf _ Hf Hne) as [Hwf Hva]. split; [done|].
  rewrite Hva, Hval. unfold ws. by rewrite bits_val_app, bits_val_replicate_false, Z.mul_0_r, Z.add_0_r.
Qed.

(** Every atom that [rub_atom] returns is well formed and has the bits read. *)
Lemma rub_atom_bits cursor buffer sz c bits :
  0 <= c -> rub_size cursor buffer = Ok (Some sz, c) -> 0 < sz -> c + sz <= bit_len buffer -> bit_len buffer < 2 ^ 63 ->
  slice_range buffer c (c + sz) = Some bits ->
  exists a, rub_atom cursor buffer = Ok (a, c + sz) /\ wf_atom a /\ atom_val a = bits_val bits.
Proof.
  intros Hc Hs Hsz Hb Hlen Hbits. unfold rub_atom. rewrite Hs. cbn [mbind outcome_bind].
  rewrite wrap64_small by (width; lia). rewrite (proj2 (Z.ltb_ge _ _)) by done. rewrite Hbits. cbn [or_panic mbind outcome_bind].
  apply slice_range_Some in Hbits as [_ Hl]; [|done]. unfold bit_len in Hl.
  destruct (Z.ltb_spec sz 64) as [H64|H64].
  - eexists. split_and!; [done| |done]. cbn [wf_atom]. rewrite DIRECT_MAX_val. pose proof (bits_val_bound bits) as Hv.
    pose proof (bits_val_nonneg bits). assert (2 ^ Z.of_nat (length bits) <= 2 ^ 63) by (apply Z.pow_le_mono_r; lia). lia.
  - rewrite wrap64_small, Z.shiftr_div_pow2 by (width; lia). change (2 ^ 6) with 64.
    pose proof (Z.div_mod (sz + 63) 64 ltac:(lia)). pose proof (Z.mod_pos_bound (sz + 63) 64 ltac:(lia)).
    set (n := Z.to_nat ((sz + 63) / 64)). exists (words_atom (bits_words n bits)). split; [|apply words_atom_val; lia].
    unfold words_atom. repeat case_match; done.
Qed.

Lemma slab_rub_atom_mat pre a post :
  wf_atom a -> bit_len (pre ++ mat_bits (atom_val a) ++ post) < 2 ^ 63 ->
  rub_atom (Z.of_nat (length pre)) (pre ++ mat_bits (atom_val a) ++ post) =
    Ok (a, Z.of_nat (length (pre ++ mat_bits (atom_val a)))).
Proof.
  intros Ha Hlen. pose proof (wf_atom_val a Ha) as Hv.
  destruct (rub_size_mat pre (atom_val a) post Hv Hlen) as (pre' & Hget & Hbuf & -> & Hmax & Hbits).
  destruct (Z.eqb_spec (atom_val a) 0) as [E|Hne].
  - unfold rub_atom. rewrite Hget, E. cbn [mbind outcome_bind]. change (bitlen 0) with O. rewrite Z.add_0_r. do 2 f_equal.
    by apply atom_val_inj.
  - assert (bitlen (atom_val a) <> O) by (rewrite bitlen_0 by done; done). pose proof (slice_range_app pre' (bits_of (bitlen (atom_val a)) (atom_val a)) post) as Hs.
    rewrite length_bits_of, <- Hbuf in Hs.
    edestruct rub_atom_bits as (b & -> & Hwb & Hvb); [|exact Hget|..|exact Hs|]; [lia|lia| |done|];
      [rewrite Hbuf; unfold bit_len; rewrite !length_app, length_bits_of; lia|].
    do 2 f_equal. apply atom_val_inj; [done..|]. by rewrite Hvb.
Qed.

(** * [cue] reads the encoding back *)

(** A table of back-references as the function that [cue_post] speaks about *)
Definition Table (V : Type) : Type := noun -> option V.
#[local] Instance table_map : NounMap Table := {|
  map_new V := fun _ => None;
  map_lookup V m k := Some (m k);
  map_insert V m k v := Some (fun k' => if decide (k' = k) then Some v else m k');
|}.
#[local] Instance table_laws : NounMapLaws Table.
Proof.
  refine (@Build_NounMapLaws Table table_map (fun _ _ => True) _ _ _ _); cbn; try done.
  intros V m k v _. eexists. split_and!; [done..|]. intros k'. cbn. by destruct (decide (k' = k)).
Defined.

Definition table_of (g : gmap Z val) : Table val :=
  fun n => match n with NAtom a => g !! atom_val a | NCell _ _ => None end.

Lemma table_key g q : Z.of_nat q < 2 ^ 63 -> map_lookup (table_of g) (key q) = Some (g !! Z.of_nat q).
Proof. intros Hq. cbn. by rewrite (proj2 (wf_Atom_new (Z.of_nat q) ltac:(width; lia))). Qed.

Lemma table_insert g p v q :
  Z.of_nat p < 2 ^ 63 -> Z.of_nat q < 2 ^ 63 ->
  map_lookup (table_of (<[Z.of_nat p := v]> g)) (key q) =
    if decide (q = p) then Some (Some v) else map_lookup (table_of g) (key q).
Proof.
  intros Hp Hq. rewrite !table_key by done. destruct (decide (q = p)) as [->|Hne]; [by rewrite lookup_insert_eq|].
  rewrite lookup_insert_ne by lia. done.
Qed.

#[local] Arguments post_free {M HM HL p n d m m' r h C r' h' C'}.
#[local] Arguments post_new {M HM HL p n d m m' r h C r' h' C'}.
#[local] Arguments post_old {M HM HL p n d m m' r h C r' h' C'}.
#[local] Arguments post_ext {M HM HL p n d m m' r h C r' h' C'}.

(** Only the entries at positions matter. *)
Lemma cue_post_table p n d m m' r h (C : Table val) r' h' (C' C'' : Table val) :
  Z.of_nat p < 2 ^ 63 -> (forall n' q, m' n' = Some q -> Z.of_nat q < 2 ^ 63) ->
  (forall q, Z.of_nat q < 2 ^ 63 -> map_lookup C'' (key q) = map_lookup C' (key q)) ->
  cue_post p n d m m' r h C r' h' C' -> cue_post p n d m m' r h C r' h' C''.
Proof.
  intros Hp Hm Heq [H1 H2 H3 H4 H5 H6 H7]. split; [done..| |].
  - intros q Hq. rewrite Heq by lia. auto.
  - intros n' q Hq. destruct (H7 n' q Hq) as [|(Hge & v & Hv & Hr)]; [by left|right]. split; [done|]. exists v.
    by rewrite Heq by eauto.
Qed.

Lemma bit_of_at pre b post : bit_of (pre ++ b :: post) (Z.of_nat (length pre)) = Ok b.
Proof. unfold bit_of. by rewrite Nat2Z.id, list_lookup_middle. Qed.

Lemma slab_cue_ref pre post q d stk r h g v n m :
  bit_len (pre ++ ref_bits q ++ post) < 2 ^ 63 -> Z.of_nat q < 2 ^ 63 -> free h d -> g !! Z.of_nat q = Some v -> reads h v n ->
  exists r' h',
    slab_cue_step (pre ++ ref_bits q ++ post) (DestinationPointer d) (Build_SlabCueState r h (Z.of_nat (length pre)) g stk) =
      Ok (Build_SlabCueState r' h' (Z.of_nat (length (pre ++ ref_bits q))) g stk) /\
    cue_post (length pre) n d m m r h (table_of g) r' h' (table_of g).
Proof.
  intros Hlen Hq Hfree Hlook Hv. destruct (write_free d v r h Hfree) as (Hext & Hread & Hr & Hfr).
  exists (fst (write_dest d v r h)), (snd (write_dest d v r h)). split.
  - unfold slab_cue_step, ref_bits in *. cbn [app] in *. rewrite bit_of_at. cbn [mbind outcome_bind].
    set (pre2 := pre ++ [true; true]).
    assert (E1 : pre ++ true :: true :: mat_bits (Z.of_nat q) ++ post = (pre ++ [true]) ++ true :: mat_bits (Z.of_nat q) ++ post) by (by rewrite <- app_assoc).
    assert (E2 : pre ++ true :: true :: mat_bits (Z.of_nat q) ++ post = pre2 ++ mat_bits (Z.of_nat q) ++ post) by (unfold pre2; by rewrite <- app_assoc).
    replace (Z.of_nat (length pre) + 1) with (Z.of_nat (length (pre ++ [true]))) by (rewrite length_app; cbn; lia).
    rewrite E1, bit_of_at, <- E1, E2. cbn [mbind outcome_bind].
    replace (Z.of_nat (length (pre ++ [true])) + 1) with (Z.of_nat (length pre2)) by (unfold pre2; rewrite !length_app; cbn; lia).
    rewrite slab_rub_backref_mat by (rewrite <- ?E2; done || width; lia). cbn [mbind outcome_bind]. rewrite Hlook.
    destruct (write_dest d v r h). cbn [fst snd]. unfold pre2. by rewrite <- app_assoc.
  - split; try done; [|by left]. exists v. split; [done|]. by eapply reads_mono.
Qed.

Lemma slab_cue_atom pre post a d stk r h g m :
  wf_atom a -> bit_len (pre ++ atom_bits a ++ post) < 2 ^ 63 -> free h d ->
  exists r' h',
    let g' := <[Z.of_nat (length pre) := VAtom a]> g in
    slab_cue_step (pre ++ atom_bits a ++ post) (DestinationPointer d) (Build_SlabCueState r h (Z.of_nat (length pre)) g stk) =
      Ok (Build_SlabCueState r' h' (Z.of_nat (length (pre ++ atom_bits a))) g' stk) /\
    forall m', before m (length pre) -> (m' = m \/ m' = pos_insert m (NAtom a) (length pre)) ->
      cue_post (length pre) (NAtom a) d m m' r h (table_of g) r' h' (table_of g').
Proof.
  intros Ha Hlen Hfree. destruct (write_free d (VAtom a) r h Hfree) as (Hext & Hread & Hr & Hfr).
  exists (fst (write_dest d (VAtom a) r h)), (snd (write_dest d (VAtom a) r h)). cbv zeta. split.
  - unfold slab_cue_step, atom_bits in *. cbn [app] in *. rewrite bit_of_at. cbn [mbind outcome_bind].
    assert (E1 : pre ++ false :: mat_bits (atom_val a) ++ post = (pre ++ [false]) ++ mat_bits (atom_val a) ++ post) by (by rewrite <- app_assoc).
    replace (Z.of_nat (length pre) + 1) with (Z.of_nat (length (pre ++ [false]))) by (rewrite length_app; cbn; lia).
    rewrite E1 in *. rewrite slab_rub_atom_mat by done. cbn [mbind outcome_bind]. destruct (write_dest d (VAtom a) r h). cbn [fst snd].
    by rewrite <- app_assoc.
  - intros m' Hb Hm'. unfold bit_len in Hlen. rewrite length_app in Hlen. split; try done.
    + exists (VAtom a). split; [done|constructor].
    + intros q Hq. rewrite table_insert by lia. by rewrite decide_False by lia.
    + intros n' q Hn'. destruct Hm' as [->| ->]; [by left|]. unfold pos_insert in Hn'.
      destruct (decide (n' = NAtom a)) as [->|]; [injection Hn' as <-; right|by left]. split; [done|].
      exists (VAtom a). rewrite table_insert, decide_True by (done || lia). split; [done|constructor].
Qed.

(** A cell is not in the table before its fields are read. *)
Lemma slab_cue_cell pre post d stk r h g :
  free h d ->
  exists r' h',
    slab_cue_step (pre ++ true :: false :: post) (DestinationPointer d) (Build_SlabCueState r h (Z.of_nat (length pre)) g stk) =
      Ok (Build_SlabCueState r' h' (Z.of_nat (length (pre ++ [true; false]))) g
        (DestinationPointer (DHead (length h)) :: DestinationPointer (DTail (length h)) ::
         BackRef (Z.of_nat (length pre)) d :: stk)) /\
    heap_ext h h' /\ read_dest d r' h' = Some (VCell (length h)) /\ (d <> DResult -> r' = r) /\
    (forall d', d' <> d -> free h d' -> free h' d') /\
    free h' (DHead (length h)) /\ free h' (DTail (length h)).
Proof.
  intros Hfree. set (ptr := length h). set (v := VCell ptr). set (h0 := h ++ [new_cell]).
  assert (Hnew : h0 !! ptr = Some new_cell) by (by apply list_lookup_middle).
  destruct (free_fresh h d Hfree) as [Hd1 Hd2].
  destruct (write_free d v r h0 (free_snoc _ _ Hfree)) as (Hext & Hread & Hr & Hfr).
  exists (fst (write_dest d v r h0)), (snd (write_dest d v r h0)). split_and!; try done.
  - unfold slab_cue_step. rewrite bit_of_at. cbn [mbind outcome_bind].
    replace (Z.of_nat (length pre) + 1) with (Z.of_nat (length (pre ++ [true]))) by (rewrite length_app; cbn; lia).
    replace (pre ++ true :: false :: post) with ((pre ++ [true]) ++ false :: post) by (by rewrite <- app_assoc).
    rewrite bit_of_at. cbn [mbind outcome_bind]. fold new_cell. fold ptr. fold v. fold h0.
    destruct (write_dest d v r h0). cbn [fst snd]. do 2 f_equal. rewrite !length_app. cbn [length]. lia.
  - etransitivity; [apply heap_ext_snoc|done].
  - intros d' Hne Hf. apply Hfr; [done|by apply free_snoc].
  - apply Hfr; [done|]. by exists new_cell.
  - apply Hfr; [done|]. by exists new_cell.
Qed.

Lemma slab_step_loop f buffer entry r h c g stk s :
  slab_cue_step buffer entry (Build_SlabCueState r h c g stk) = Ok s ->
  slab_cue_loop (S f) buffer (Build_SlabCueState r h c g (entry :: stk)) = slab_cue_loop f buffer s.
Proof. intros E. cbn [slab_cue_loop sc_stack sc_res sc_heap sc_cursor sc_map]. by rewrite E. Qed.

Definition slab_reads_back (n : noun) : Prop := forall d stk r h g m pre post,
  let bits := fst (jam_bits n (length pre) m) in
  wf_noun n -> bit_len (pre ++ bits ++ post) < 2 ^ 63 -> free h d ->
  before m (length pre) -> covers (noun_nodes n) h (table_of g) m ->
  exists steps r' h' g', (steps <= length bits)%nat /\
    (forall f, slab_cue_loop (steps + f) (pre ++ bits ++ post)
                 (Build_SlabCueState r h (Z.of_nat (length pre)) g (DestinationPointer d :: stk)) =
               slab_cue_loop f (pre ++ bits ++ post)
                 (Build_SlabCueState r' h' (Z.of_nat (length (pre ++ bits))) g' stk)) /\
    cue_post (length pre) n d m (snd (jam_bits n (length pre) m)) r h (table_of g) r' h' (table_of g').

Lemma slab_back_known n q d stk r h g m pre post :
  bit_len (pre ++ ref_bits q ++ post) < 2 ^ 63 -> free h d -> before m (length pre) ->
  covers (noun_nodes n) h (table_of g) m -> m n = Some q ->
  exists r' h',
    (forall f, slab_cue_loop (S f) (pre ++ ref_bits q ++ post)
       (Build_SlabCueState r h (Z.of_nat (length pre)) g (DestinationPointer d :: stk)) =
     slab_cue_loop f (pre ++ ref_bits q ++ post)
       (Build_SlabCueState r' h' (Z.of_nat (length (pre ++ ref_bits q))) g stk)) /\
    cue_post (length pre) n d m m r h (table_of g) r' h' (table_of g).
Proof.
  intros Hlen Hfree Hbef Hcov Hm. pose proof (Hbef _ _ Hm) as Hq. assert (Hq63 : Z.of_nat q < 2 ^ 63).
  { unfold bit_len in Hlen. rewrite length_app in Hlen. lia. }
  destruct (Hcov _ _ Hm ltac:(done)) as (v & Hl & Hv). rewrite table_key in Hl by done. injection Hl as Hl.
  destruct (slab_cue_ref pre post q d stk r h g v n m) as (r' & h' & E & Hpost); try done.
  exists r', h'. split; [|done]. intros f. by apply slab_step_loop.
Qed.

Lemma slab_back_atom a : slab_reads_back (NAtom a).
Proof.
  intros d stk r h g m pre post bits Hwf Hlen Hfree Hbef Hcov. subst bits.
  pose proof (jam_bits_length (NAtom a) (length pre) m) as Hpos. revert Hlen Hpos. cbn [jam_bits wf_noun] in *.
  destruct (m (NAtom a)) as [q|] eqn:Hm; cbn [fst snd];
    [destruct (bitlen (atom_val a) <=? bitlen (Z.of_nat q))%nat|]; intros Hlen Hpos.
  2: { destruct (slab_back_known (NAtom a) q d stk r h g m pre post) as (r' & h' & E & Hpost); try done.
       exists 1%nat, r', h', g. split; [lia|]. by split. }
  all: destruct (slab_cue_atom pre post a d stk r h g m Hwf Hlen Hfree) as (r' & h' & E & Hpost).
  all: eexists 1%nat, r', h', _; split; [lia|]; split; [intros f; by apply slab_step_loop|].
  all: apply Hpost; auto.
Qed.

Lemma slab_back_cell hn tn : slab_reads_back hn -> slab_reads_back tn -> slab_reads_back (NCell hn tn).
Proof.
  intros IHh IHt d stk r h g m pre post bits Hwf Hlen Hfree Hbef Hcov. subst bits.
  pose proof (jam_bits_length (NCell hn tn) (length pre) m) as Hpos.
  pose proof (jam_bits_before (NCell hn tn) (length pre) m Hbef) as Hbef3.
  revert Hlen Hpos Hbef3. cbn [jam_bits wf_noun] in *.
  destruct (m (NCell hn tn)) as [q|] eqn:Hm; cbn [fst snd].
  { intros Hlen Hpos _. destruct (slab_back_known (NCell hn tn) q d stk r h g m pre post) as (r' & h' & E & Hpost); try done.
    exists 1%nat, r', h', g. split; [lia|]. by split. }
  set (m1 := pos_insert m (NCell hn tn) (length pre)).
  assert (Hbef1 : before m1 (length pre + 2)) by (apply before_insert; [done|lia]).
  pose proof (jam_bits_before hn (length pre + 2) m1 Hbef1) as Hbef2.
  destruct (jam_bits hn (length pre + 2) m1) as [bh m2] eqn:Ejh.
  destruct (jam_bits tn (length pre + 2 + length bh) m2) as [bt m3] eqn:Ejt. cbn [fst snd length] in *.
  intros Hlen _ Hbef3.
  set (pre1 := pre ++ [true; false]). set (pre2 := pre1 ++ bh).
  assert (Hpre1 : length pre1 = (length pre + 2)%nat) by (unfold pre1; by rewrite length_app).
  assert (Hpre2 : length pre2 = (length pre + 2 + length bh)%nat) by (unfold pre2; by rewrite length_app, Hpre1).
  set (buf := pre ++ (true :: false :: bh ++ bt) ++ post) in *.
  assert (Hbuf1 : buf = pre1 ++ bh ++ bt ++ post) by (unfold buf, pre1; rewrite <- !app_assoc; cbn; by rewrite <- app_assoc).
  assert (Hbuf2 : buf = pre2 ++ bt ++ post) by (rewrite Hbuf1; unfold pre2; by rewrite <- !app_assoc).
  assert (Hmax : Z.of_nat (length pre + 2 + length bh + length bt) < 2 ^ 63).
  { rewrite Hbuf2 in Hlen. unfold bit_len in Hlen. rewrite !length_app, Hpre2 in Hlen. lia. }
  destruct (slab_cue_cell pre ((bh ++ bt) ++ post) d stk r h g Hfree) as (r1 & h1 & E1 & Hext1 & Hread1 & Hres1 & Hfree1 & Hfh & Hft).
  set (stk1 := BackRef (Z.of_nat (length pre)) d :: stk) in *.
  specialize (IHh (DHead (length h)) (DestinationPointer (DTail (length h)) :: stk1) r1 h1 g m1 pre1 (bt ++ post)).
  rewrite Hpre1, Ejh in IHh. cbn [fst snd] in IHh. rewrite <- Hbuf1 in IHh.
  assert (Hpart : forall x, (noun_nodes x < noun_nodes (NCell hn tn))%nat -> covers (noun_nodes x) h1 (table_of g) m1).
  { intros x Hx. by eapply covers_part. }
  destruct IHh as (k1 & r2 & h2 & g2 & Hk1 & Hloop1 & P2); [by apply Hwf|done..|apply Hpart; cbn; lia|].
  specialize (IHt (DTail (length h)) stk1 r2 h2 g2 m2 pre2 post). rewrite Hpre2, Ejt in IHt. cbn [fst snd] in IHt. rewrite <- Hbuf2 in IHt.
  destruct IHt as (k2 & r3 & h3 & g3 & Hk2 & Hloop2 & P3); [by apply Hwf|done|by apply (post_free P2)|done| |].
  { eapply covers_post; [apply Hpart; cbn; lia|exact Hbef1|exact P2]. }
  assert (Hm3 : forall n' q, m3 n' = Some q -> Z.of_nat q < 2 ^ 63).
  { intros n' q Hq. apply Hbef3 in Hq. rewrite length_app in Hq. lia. }
  destruct (cue_cell_post (length pre) (length pre + 2) (length pre + 2 + length bh) d hn tn m m1 m2 m3
              r h (table_of g) r1 h1 (table_of g) r2 h2 (table_of g2) r3 h3 (table_of g3) (length h)) as (C4 & E4 & P4); try done; try lia.
  { intros d'. apply free_fresh. }
  destruct (read_dest d r3 h3) as [v|] eqn:Ev; cbn [or_panic mbind outcome_bind] in E4; [|done].
  exists (S (k1 + (k2 + 1))), r3, h3, (<[Z.of_nat (length pre) := v]> g3). split; [rewrite length_app; lia|]. split.
  - intros f. cbn [Nat.add]. unfold buf. rewrite (slab_step_loop _ _ _ _ _ _ _ _ _ E1). fold buf.
    change (pre ++ true :: false :: (bh ++ bt) ++ post) with buf. fold pre1. rewrite Hpre1.
    rewrite <- !Nat.add_assoc, Hloop1. fold pre2. rewrite Hpre2, Hloop2. cbn [Nat.add].
    erewrite (slab_step_loop _ _ (BackRef (Z.of_nat (length pre)) d) r3 h3 _ g3 stk); [|cbn [slab_cue_step]; rewrite Ev; done].
    do 2 f_equal. rewrite !length_app, Hpre2. cbn [length]. rewrite length_app. lia.
  - cbv [map_put map_insert table_map or_panic] in E4. injection E4 as <-. eapply cue_post_table; [lia|done| |exact P4]. intros q Hq. rewrite table_insert by lia. cbn -[key table_of].
    destruct (decide (q = length pre)) as [->|Hne]; [by rewrite decide_True|]. rewrite decide_False; [done|].
    intros E. apply Hne. apply key_inj; [lia..|done].
Qed.

Lemma slab_cue_back n : slab_reads_back n.
Proof. induction n; [apply slab_back_atom|by apply slab_back_cell]. Qed.

(** * [cue] on any input *)

Lemma rub_size_bounds cursor buffer sz c :
  0 <= cursor -> rub_size cursor buffer = Ok (sz, c) ->
  cursor < c <= bit_len buffer /\ forall x, sz = Some x -> 0 < x < U64.
Proof.
  intros Hc. unfold rub_size, slice_from. destruct (slice_range buffer cursor _) as [rest|] eqn:Er; cbn [or_panic mbind outcome_bind]; [|done].
  apply slice_range_Some in Er as [_ Hrest]; [|done]. destruct (first_one rest) as [[|k]|] eqn:Ef; [| |done].
  - apply first_bit_Some in Ef as [rest' ->]. unfold bit_len in *. rewrite length_app in Hrest. cbn [length] in Hrest.
    intros [= <- <-]. split; [lia|done].
  - set (idx := Z.of_nat (S k)). destruct (Z.ltb_spec (bit_len buffer) (cursor + (idx + 1) + idx - 1)); [done|].
    destruct (Z.leb_spec 64 (idx - 1)); [done|].
    destruct (slice_range buffer _ _) as [bits|] eqn:Es; cbn [or_panic mbind outcome_bind]; [|done].
    apply slice_range_Some in Es as [_ Hb]; [|lia]. unfold bit_len in Hb. intros [= <- <-]. split; [unfold idx in *; lia|].
    intros x [= <-]. rewrite bits_val_app. cbn [bits_val Z.b2z]. pose proof (bits_val_nonneg bits). pose proof (bits_val_bound bits).
    assert (0 < 2 ^ Z.of_nat (length bits) <= 2 ^ 63) by (split; [apply Z.pow_pos_nonneg|apply Z.pow_le_mono_r]; lia).
    width. lia.
Qed.

Lemma wrapped_slice bs c sz bits :
  0 <= c <= bit_len bs -> bit_len bs < 2 ^ 63 -> 0 < sz < U64 -> slice_range bs c (wrap64 (c + sz)) = Some bits ->
  wrap64 (c + sz) = c + sz /\ c + sz <= bit_len bs.
Proof.
  intros Hc Hlen Hsz Hs. apply slice_range_Some in Hs as [Hs _]; [|lia].
  destruct (Z.lt_ge_cases (c + sz) U64) as [Hlt|Hge]; [rewrite wrap64_small in * by (width; lia); lia|].
  rewrite wrap64_sub_modulus in Hs by (width; lia). width. lia.
Qed.

Lemma slab_rub_backref_bounds cursor buffer x c :
  0 <= cursor -> bit_len buffer < 2 ^ 63 -> slab_rub_backref cursor buffer = Ok (x, c) -> cursor < c <= bit_len buffer.
Proof.
  intros Hc Hlen. unfold slab_rub_backref. destruct (rub_size cursor buffer) as [[sz c1]| |] eqn:Es; cbn [mbind outcome_bind]; try done.
  apply rub_size_bounds in Es as [Hc1 Hsz]; [|done]. destruct sz as [sz|]; [|by intros [= _ <-]].
  destruct (64 <? sz); [done|]. destruct (bit_len buffer <? _); [done|].
  destruct (slice_range buffer c1 _) as [bits|] eqn:Eb; cbn; [|done]. intros [= _ <-].
  apply wrapped_slice in Eb as [-> ?]; [|lia|done|auto]. specialize (Hsz sz eq_refl). lia.
Qed.

Lemma rub_atom_bounds cursor buffer a c :
  0 <= cursor -> bit_len buffer < 2 ^ 63 -> rub_atom cursor buffer = Ok (a, c) -> cursor < c <= bit_len buffer /\ wf_atom a.
Proof.
  intros Hc Hlen H. destruct (rub_size cursor buffer) as [[sz c1]| |] eqn:Es; try (unfold rub_atom in H; by rewrite Es in H).
  pose proof (rub_size_bounds _ _ _ _ Hc Es) as [Hc1 Hsz]. destruct sz as [sz|].
  - specialize (Hsz sz eq_refl). destruct (slice_range buffer c1 (wrap64 (c1 + sz))) as [bits|] eqn:Eb.
    + pose proof (wrapped_slice buffer c1 sz bits ltac:(lia) Hlen Hsz Eb) as [Ew Hle]. rewrite Ew in Eb.
      destruct (rub_atom_bits cursor buffer sz c1 bits ltac:(lia) Es ltac:(lia) Hle Hlen Eb) as (b & E & Hwf & _).
      rewrite E in H. injection H as -> <-. split; [lia|done].
    + unfold rub_atom in H. rewrite Es in H. cbn [mbind outcome_bind] in H. destruct (bit_len buffer <? _); [done|]. by rewrite Eb in H.
  - unfold rub_atom in H. rewrite Es in H. injection H as <- <-. split; [lia|done].
Qed.

Lemma bit_of_bound buffer c b : 0 <= c -> bit_of buffer c = Ok b -> c < bit_len buffer.
Proof.
  intros Hc. unfold bit_of, bit_len. destruct (buffer !! Z.to_nat c) as [x|] eqn:E; [|done]. intros _. apply lookup_lt_Some in E. lia.
Qed.

(** One turn: the cursor stays in the input and each turn pays for what it pushes. *)
Lemma slab_step_unread buffer entry r h c g stk s :
  bit_len buffer < 2 ^ 63 -> 0 <= c -> slab_cue_step buffer entry (Build_SlabCueState r h c g stk) = Ok s ->
  0 <= sc_cursor s /\
  (length (sc_stack s) + 3 * unread buffer (sc_cursor s) <= length stk + 3 * unread buffer c)%nat.
Proof.
  intros Hlen Hc. destruct entry as [d|b d]; cbn [slab_cue_step].
  - destruct (bit_of buffer c) as [b1| |] eqn:E1; cbn [mbind outcome_bind]; try done. apply bit_of_bound in E1; [|done]. destruct b1.
    + destruct (bit_of buffer (c + 1)) as [b2| |] eqn:E2; cbn [mbind outcome_bind]; try done. apply bit_of_bound in E2; [|lia]. destruct b2.
      * destruct (slab_rub_backref _ buffer) as [[x c3]| |] eqn:E3; cbn [mbind outcome_bind]; try done.
        apply slab_rub_backref_bounds in E3; [|lia|done]. destruct (g !! x); [|done].
        destruct (write_dest _ _ _ _). intros [= <-]. cbn. unfold unread. lia.
      * destruct (write_dest _ _ _ _). intros [= <-]. cbn. unfold unread. lia.
    + destruct (rub_atom _ buffer) as [[a c3]| |] eqn:E3; cbn [mbind outcome_bind]; try done.
      apply rub_atom_bounds in E3 as [? _]; [|lia|done]. destruct (write_dest _ _ _ _). intros [= <-]. cbn. unfold unread. lia.
  - destruct (read_dest d r h); cbn; [|done]. intros [= <-]. cbn. lia.
Qed.

Lemma slab_loop_total fuel buffer s :
  bit_len buffer < 2 ^ 63 -> 0 <= sc_cursor s ->
  (length (sc_stack s) + 3 * unread buffer (sc_cursor s) < fuel)%nat -> is_Some (slab_cue_loop fuel buffer s).
Proof.
  intros Hlen. revert s. induction fuel as [|fuel IH]; intros [r h c g [|entry stk]] Hc Hf; cbn in Hf, Hc; try lia; cbn [slab_cue_loop sc_stack]; [by eexists|].
  cbn [sc_res sc_heap sc_cursor sc_map]. destruct (slab_cue_step buffer entry _) as [s| |] eqn:E; [|by eexists..].
  apply slab_step_unread in E as [? ?]; [|done..]. apply IH; [done|lia].
Qed.

(** Every entry of the table is a complete noun. *)
Definition sound (h : heap) (g : gmap Z val) : Prop :=
  forall q v, g !! q = Some v -> exists n, reads h v n /\ wf_noun n.

Lemma sound_ext h h' g : heap_ext h h' -> sound h g -> sound h' g.
Proof. intros Hext H q v E. destruct (H q v E) as (n & Hr & Hw). exists n. split; [by eapply reads_mono|done]. Qed.
Lemma sound_insert h g q v n : sound h g -> reads h v n -> wf_noun n -> sound h (<[q := v]> g).
Proof.
  intros H Hr Hw q' v'. destruct (decide (q' = q)) as [->|Hne].
  - rewrite lookup_insert_eq. intros [= <-]. by exists n.
  - rewrite lookup_insert_ne by done. apply H.
Qed.

(** What is true after the noun for [d] was read *)
Record delivered (d : dest) (r : val) (h : heap) (r' : val) (h' : heap) (c' : Z) (g' : gmap Z val) : Prop := {
  dl_ext : heap_ext h h';
  dl_value : exists v n, read_dest d r' h' = Some v /\ reads h' v n /\ wf_noun n;
  dl_free d' : d' <> d -> free h d' -> free h' d';
  dl_result : d <> DResult -> r' = r;
  dl_sound : sound h' g';
  dl_cursor : 0 <= c';
}.
Arguments dl_ext {d r h r' h' c' g'}.
Arguments dl_value {d r h r' h' c' g'}.
Arguments dl_free {d r h r' h' c' g'}.
Arguments dl_result {d r h r' h' c' g'}.
Arguments dl_sound {d r h r' h' c' g'}.
Arguments dl_cursor {d r h r' h' c' g'}.

Lemma delivered_write d r h c v n g :
  free h d -> sound h g -> 0 <= c -> reads h v n -> wf_noun n ->
  delivered d r h (fst (write_dest d v r h)) (snd (write_dest d v r h)) c g /\ reads (snd (write_dest d v r h)) v n.
Proof.
  intros Hf Hs Hc Hr Hw. destruct (write_free d v r h Hf) as (Hext & Hread & Hres & Hfr).
  assert (Hr' : reads (snd (write_dest d v r h)) v n) by (by eapply reads_mono). split; [|done].
  split; try done; [eauto|by eapply sound_ext].
Qed.

(** The two fields of a new cell *)
Lemma delivered_cell d r h r1 h1 r2 h2 c2 g2 r3 h3 c3 g3 q :
  free h d -> heap_ext h h1 -> read_dest d r1 h1 = Some (VCell (length h)) -> (d <> DResult -> r1 = r) ->
  (forall d', d' <> d -> free h d' -> free h1 d') ->
  delivered (DHead (length h)) r1 h1 r2 h2 c2 g2 -> delivered (DTail (length h)) r2 h2 r3 h3 c3 g3 ->
  read_dest d r3 h3 = Some (VCell (length h)) /\
  delivered d r h r3 h3 c3 (<[q := VCell (length h)]> g3).
Proof.
  intros Hf Hext1 Hread1 Hres1 Hfree1 D2 D3. pose proof (dl_ext D2) as Hext2. pose proof (dl_ext D3) as Hext3.
  assert (Hr3 : r3 = r1) by (rewrite (dl_result D3), (dl_result D2) by done; done).
  assert (Hread3 : read_dest d r3 h3 = Some (VCell (length h))).
  { destruct (decide (d = DResult)) as [->|Hd]; [cbn in *; congruence|].
    eapply read_dest_mono; [done|etransitivity; [exact Hext2|exact Hext3]|exact Hread1]. }
  split; [done|]. destruct (dl_value D2) as (vh & hn & Hvh & Rh & Wh). destruct (dl_value D3) as (vt & tn & Hvt & Rt & Wt).
  assert (Hcell : reads h3 (VCell (length h)) (NCell hn tn)).
  { assert (Hvh3 : read_dest (DHead (length h)) r3 h3 = Some vh) by (by eapply read_dest_mono).
    cbn [read_dest] in Hvh3, Hvt. destruct (h3 !! length h) as [c|] eqn:Hp; [|done].
    eapply reads_cell; [exact Hp|exact Hvh3|exact Hvt| |exact Rt]. by eapply reads_mono. }
  split.
  - etransitivity; [exact Hext1|etransitivity; [exact Hext2|exact Hext3]].
  - exists (VCell (length h)), (NCell hn tn). split_and!; [done..|by split].
  - intros d' Hne Hfd. destruct (free_fresh h d' Hfd) as [N1 N2]. apply (dl_free D3); [done|]. apply (dl_free D2); [done|]. by apply Hfree1.
  - intros Hd. rewrite Hr3. auto.
  - eapply sound_insert; [apply (dl_sound D3)|exact Hcell|by split].
  - apply (dl_cursor D3).
Qed.

Lemma slab_cell_bits buffer c :
  0 <= c -> bit_of buffer c = Ok true -> bit_of buffer (c + 1) = Ok false ->
  exists pre post, buffer = pre ++ true :: false :: post /\ c = Z.of_nat (length pre).
Proof.
  intros Hc H1 H2. pose proof (bit_of_bound _ _ _ Hc H1) as Hb. unfold bit_of, bit_len in *. rewrite Z2Nat.inj_add in H2 by lia. change (Z.to_nat 1) with 1%nat in H2.
  destruct (buffer !! Z.to_nat c) as [b1|] eqn:E1; [|done]. destruct (buffer !! (Z.to_nat c + 1)%nat) as [b2|] eqn:E2; [|done].
  injection H1 as ->. injection H2 as ->. rewrite Nat.add_1_r in E2.
  exists (take (Z.to_nat c) buffer), (drop (S (S (Z.to_nat c))) buffer). split.
  - rewrite <- (take_drop_middle buffer _ _ E1) at 1. do 2 f_equal. by apply drop_S.
  - rewrite length_take. lia.
Qed.

Lemma slab_cue_run fuel : forall buffer d stk r h c g out,
  bit_len buffer < 2 ^ 63 -> 0 <= c -> free h d -> sound h g ->
  slab_cue_loop fuel buffer (Build_SlabCueState r h c g (DestinationPointer d :: stk)) = Some (Ok out) ->
  exists fuel' r' h' c' g', (fuel' < fuel)%nat /\ delivered d r h r' h' c' g' /\
    slab_cue_loop fuel' buffer (Build_SlabCueState r' h' c' g' stk) = Some (Ok out).
Proof.
  induction fuel as [fuel IH] using lt_wf_ind. intros buffer d stk r h c g out Hlen Hc Hf Hs Hrun.
  destruct fuel as [|fuel]; [done|]. cbn [slab_cue_loop sc_stack sc_res sc_heap sc_cursor sc_map] in Hrun.
  destruct (slab_cue_step buffer (DestinationPointer d) _) as [s| |] eqn:Estep; [|done..].
  pose proof Estep as Hnext. apply slab_step_unread in Hnext as [Hc' _]; [|done..]. pose proof Estep as Estep0. cbn [slab_cue_step] in Estep.
  destruct (bit_of buffer c) as [b1| |] eqn:E1; cbn [mbind outcome_bind] in Estep; try done. destruct b1.
  - destruct (bit_of buffer (c + 1)) as [b2| |] eqn:E2; cbn [mbind outcome_bind] in Estep; try done. destruct b2.
    + destruct (slab_rub_backref _ buffer) as [[x c3]| |]; cbn [mbind outcome_bind] in Estep; try done.
      destruct (g !! x) as [v|] eqn:Ev; [|done]. destruct (Hs x v Ev) as (n & Hr & Hw).
      destruct (delivered_write d r h c3 v n g) as [D _]; try done.
      { destruct (write_dest d v r h). injection Estep as <-. done. }
      destruct (write_dest d v r h) as [r' h']. injection Estep as <-. exists fuel, r', h', c3, g. split; [lia|]. by split.
    + clear Estep. destruct (slab_cell_bits buffer c Hc E1 E2) as (pre & post & -> & ->).
      destruct (slab_cue_cell pre post d stk r h g Hf) as (r1 & h1 & E & Hext1 & Hread1 & Hres1 & Hfree1 & Hfh & Hft).
      rewrite E in Estep0. injection Estep0 as <-.
      destruct (IH fuel ltac:(lia) _ _ _ _ _ _ _ _ Hlen Hc' Hfh (sound_ext _ _ _ Hext1 Hs) Hrun) as (f2 & r2 & h2 & c2 & g2 & Hf2 & D2 & Hrun2).
      destruct (IH f2 ltac:(lia) _ _ _ _ _ _ _ _ Hlen (dl_cursor D2) (dl_free D2 (DTail (length h)) ltac:(done) Hft) (dl_sound D2) Hrun2) as (f3 & r3 & h3 & c3 & g3 & Hf3 & D3 & Hrun3).
      destruct (delivered_cell d r h r1 h1 r2 h2 c2 g2 r3 h3 c3 g3 (Z.of_nat (length pre)) Hf Hext1 Hread1 Hres1 Hfree1 D2 D3) as [Hread3 D].
      destruct f3 as [|f4]; [done|]. erewrite slab_step_loop in Hrun3; [|cbn [slab_cue_step]; rewrite Hread3; done].
      exists f4, r3, h3, c3, (<[Z.of_nat (length pre) := VCell (length h)]> g3). split; [lia|]. by split.
  - destruct (rub_atom _ buffer) as [[a c3]| |] eqn:Ea; cbn [mbind outcome_bind] in Estep; try done.
    apply rub_atom_bounds in Ea as [? Hwa]; [|lia|done].
    destruct (delivered_write d r h c3 (VAtom a) (NAtom a) g) as [D Hr]; try done; [lia|constructor|].
    destruct (write_dest d (VAtom a) r h) as [r' h']. injection Estep as <-. cbn [fst snd] in *.
    exists fuel, r', h', c3, (<[c := VAtom a]> g). split; [lia|]. split; [|done].
    destruct D. split; try done. by eapply sound_insert.
Qed.

Lemma view_bits_length bytes : bit_len (view_bits bytes) = 8 * Z.of_nat (length bytes).
Proof.
  unfold bit_len. induction bytes as [|b bytes IH]; [done|]. change (view_bits (b :: bytes)) with (bits_of 8 b ++ view_bits bytes).
  rewrite length_app, length_bits_of, Nat2Z.inj_add, IH. cbn [length]. lia.
Qed.

(** * Properties *)

Definition jammable (n : noun) : Prop := wf_noun n /\ sized n /\ Z.of_nat (length (encoding n)) < 2 ^ 63 - 8.

Lemma slab_cue_encoding n pad :
  jammable n -> (length pad < 8)%nat ->
  exists v h, slab_cue_loop (cue_fuel (encoding n ++ pad)) (encoding n ++ pad) slab_cue_init = Some (Ok (v, h)) /\ reads h v n.
Proof.
  intros (Hwf & Hsz & Hlen) Hpad. destruct (slab_cue_back n DResult [] (VAtom (Direct 0)) [] ∅ (fun _ => None) [] pad)
    as (steps & r & h & g & Hsteps & Hloop & Hpost); [done| |done..|].
  { unfold bit_len, encoding in *. rewrite !length_app. cbn [length]. lia. }
  destruct Hpost as [_ (v & Hv & Hr) _ _ _ _ _]. cbn in Hv. injection Hv as ->. exists v, h. split; [|done]. unfold slab_cue_init.
  replace (cue_fuel (encoding n ++ pad)) with (steps + S (cue_fuel (encoding n ++ pad) - steps - 1))%nat.
  - unfold encoding in *. cbn [app length] in Hloop. rewrite Hloop. done.
  - unfold cue_fuel, encoding in *. rewrite length_app. cbn [length] in *. lia.
Qed.

(** C18: [NockJammer::jam] of a noun and [NockJammer::cue], whatever the hash of the
    map and the unused bits of the last byte: [jam] returns bytes whose bits are those
    of the atom that the jam of the virtual machine returns, up to the padding, and
    [cue] of these bytes returns a value whose heap represents exactly that noun. *)
Theorem nock_jammer (mug_of_key mug_u32 : noun -> Z) dead n :
  jammable n ->
  exists bytes a v h, slab_jam mug_of_key dead n = Some bytes /\ Forall (fun b => 0 <= b < 256) bytes /\
    jam (HM := mut_hamt_map mug_u32) n = Some a /\
    (exists bits pad k, view_bits bytes = bits ++ pad /\ (length pad < 8)%nat /\ as_bitslice a = bits ++ replicate k false) /\
    slab_cue bytes = Some (Ok (v, h)) /\ forall n', reads h v n' <-> n' = n.
Proof.
  intros Hn. pose proof Hn as (Hwf & Hsz & Hlen). destruct (view_raw_slice dead (encoding n)) as (pad & Hview & Hpad).
  pose (HM := mut_hamt_map mug_u32). pose (HL := mut_hamt_laws mug_u32).
  destruct (jam_spec (HM := HM) (HL := HL) n Hwf Hsz ltac:(width; lia)) as (a & Ej & Ha & k & Hs).
  destruct (slab_cue_encoding n pad Hn Hpad) as (v & h & Ecue & Hr).
  exists (as_raw_slice dead (encoding n)), a, v, h. split_and!; [|apply bits_bytes_range|done|by exists (encoding n), pad, k| |].
  - unfold slab_jam. by rewrite slab_jam_bits_spec by (done || width; lia).
  - unfold slab_cue. by rewrite Hview.
  - intros n'. split; [intros H'; by eapply reads_fun|by intros ->].
Qed.

Definition sample_noun : noun := T [D 1; D 2; D 100000; T [D 2; D 100000]; NAtom (Indirect [0; 5])].

Lemma nock_jammer_witness :
  exists bytes v h, slab_jam (fun _ => 7) [true] sample_noun = Some bytes /\
    slab_cue bytes = Some (Ok (v, h)) /\ reads h v sample_noun.
Proof.
  destruct (nock_jammer (fun _ => 7) (fun _ => 7) [true] sample_noun) as (bytes & a & v & h & E1 & _ & _ & _ & E2 & H).
  - split_and!; [cbn; repeat split; try done; repeat constructor; done|vm_compute; repeat split|vm_compute; reflexivity].
  - exists bytes, v, h. split_and!; [done..|]. by apply H.
Defined.

(** C24: [NockJammer::cue] on any bytes ends after at most three turns for each bit: it
    returns an error, panics, or returns a noun, and then the value in its heap is not
    cyclic and represents exactly one noun, whose atoms are normalized. *)
Theorem slab_cue_total bytes :
  8 * Z.of_nat (length bytes) < 2 ^ 63 ->
  exists o, slab_cue bytes = Some o /\
    forall v h, o = Ok (v, h) -> exists n, wf_noun n /\ forall n', reads h v n' <-> n' = n.
Proof.
  intros Hlen. pose proof (view_bits_length bytes) as Hb. unfold slab_cue.
  destruct (slab_loop_total (cue_fuel (view_bits bytes)) (view_bits bytes) slab_cue_init) as [o Ho]; [lia|done| |].
  { unfold cue_fuel, unread, slab_cue_init. cbn [sc_stack sc_cursor length]. unfold bit_len. lia. }
  exists o. split; [done|]. intros v h ->. unfold slab_cue_init in Ho.
  apply slab_cue_run in Ho as (fuel & r & h' & c & g & _ & D & Hend); [|lia|done..].
  destruct fuel; [done|]. injection Hend as -> ->. destruct (dl_value D) as (v' & n & [= <-] & Hr & Hw).
  exists n. split; [done|]. intros n'. split; [intros H'; by eapply reads_fun|by intros ->].
Qed.

Lemma slab_cue_total_witness :
  exists o, slab_cue [0x0b; 0xff; 3; 9] = Some o /\
    forall v h, o = Ok (v, h) -> exists n, wf_noun n /\ forall n', reads h v n' <-> n' = n.
Proof. apply slab_cue_total. vm_compute. reflexivity. Defined.

(** A truncated input is an error only inside a number; where a tag is missing [cue]
    indexes past the end of the input and panics, as on no bytes at all.  A cell that
    refers to itself is refused here, where the cue of the virtual machine makes a
    cyclic value. *)
Theorem slab_cue_panics :
  slab_cue [] = Some Panic /\ slab_cue [0x99] = Some Panic /\
  slab_cue [0] = Some (Err TruncatedBuffer) /\ slab_cue [0x1d] = Some (Err BadBackref).
Proof. vm_compute. repeat split. Qed.
