(* ===== verification/SlabMemoryTheorems.v ===== *)
(** Theorems on noun slabs in memory: comparing, hashing and copying nouns gives the
    answers, hashes and copies of the nouns that the pointers stand for, and blocks of
    a slab do not overlap. *)
From stdpp Require Import base option list numbers gmap.
From Stdlib Require Import ZArith Lia.
From S2P Require Import Prelude Noun Interp Hamt Serialization NounSerde NounSerdeTheorems Mug MugTheorems Slab.
Local Open Scope Z_scope.

(** * Mugs *)

Lemma slab_mug_run m p n fuel :
  stands m p n -> caches_ok m -> (1 + 3 * uncached m <= fuel)%nat ->
  exists m' x, slab_mug fuel m p = Some (m', x) /\ mug_of n = Some x /\ mugged m m' p n.
Proof.
  intros Hs Hok Hf. destruct (mug_run n m p [] Hs Hok) as (m' & k & Hm & Hk & Hloop).
  destruct (mugged_get _ _ _ _ Hm) as (x & Hx & Hg). exists m', x. split; [|done]. unfold slab_mug.
  replace fuel with (k + (fuel - k))%nat by lia. rewrite Hloop. cbn [mug_loop].
  destruct (fuel - k)%nat; cbn -[get_mug]; by rewrite Hg.
Qed.

(** * Equality *)

Definition pairs_sound (m : memory) (ae : list (ptr * ptr)) : Prop :=
  forall a b, (a, b) ∈ ae -> exists n, stands m a n /\ stands m b n.

Lemma pairs_sound_cons m ae a b n : pairs_sound m ae -> stands m a n -> stands m b n -> pairs_sound m ((a, b) :: ae).
Proof. intros H Ha Hb a' b' [[= -> ->]|Hin]%elem_of_cons; [by exists n|by apply H]. Qed.

Lemma check_ae_sound m ae a b x y :
  pairs_sound m ae -> stands m a x -> stands m b y -> check_ae ae a b = true -> x = y.
Proof.
  intros H Ha Hb. unfold check_ae. rewrite orb_true_iff, !bool_decide_eq_true.
  intros [(n & H1 & H2)%H|(n & H1 & H2)%H]; [pose proof (stands_fun _ _ _ _ Ha H1); pose proof (stands_fun _ _ _ _ Hb H2)
    |pose proof (stands_fun _ _ _ _ Ha H2); pose proof (stands_fun _ _ _ _ Hb H1)]; congruence.
Qed.

Definition compares (m : memory) (x : noun) : Prop := forall y a b ae stk,
  stands m a x -> stands m b y -> pairs_sound m ae ->
  exists k, (k <= 2 * nsize x)%nat /\
    if decide (x = y) then exists ae', pairs_sound m ae' /\
      forall f, noun_equality_loop (k + f) m ae (Nouns a b :: stk) = noun_equality_loop f m ae' stk
    else forall f, noun_equality_loop (k + f) m ae (Nouns a b :: stk) = Some false.

(** The turns in which nothing is pushed *)
Lemma compares_done m x y a b ae stk :
  stands m a x -> stands m b y -> pairs_sound m ae -> (a = b \/ check_ae ae a b = true) ->
  x = y /\ forall f, noun_equality_loop (S f) m ae (Nouns a b :: stk) = noun_equality_loop f m ae stk.
Proof.
  intros Ha Hb Hae H. split.
  - destruct H as [->|H]; [by eapply stands_fun|by eapply check_ae_sound].
  - intros f. cbn [noun_equality_loop]. case_bool_decide; [done|]. destruct H as [|E]; [done|]. by rewrite E.
Qed.

Lemma cached_mugs_differ m la lb a b x y u v :
  caches_ok m -> stands m (PAlloc la) x -> stands m (PAlloc lb) y -> m !! la = Some a -> m !! lb = Some b ->
  get_cached_mug a = Some u -> get_cached_mug b = Some v -> u <> v -> x <> y.
Proof. intros Hok Hx Hy Ha Hb Hu Hv Hne ->. apply Hne. pose proof (Hok _ _ _ _ Ha Hu Hx). pose proof (Hok _ _ _ _ Hb Hv Hy). congruence. Qed.

Lemma ne_bytes_inj ws vs :
  wf_atom (Indirect ws) -> wf_atom (Indirect vs) -> as_ne_bytes (Indirect ws) = as_ne_bytes (Indirect vs) -> ws = vs.
Proof.
  intros Hw Hv E. pose proof (as_ne_bytes_spec _ Hw) as [_ H1]. pose proof (as_ne_bytes_spec _ Hv) as [_ H2].
  assert (Indirect ws = Indirect vs) as [=]; [|done]. apply atom_val_inj; [done..|congruence].
Qed.

Definition mugs_clash (a b : Allocated) : bool :=
  match get_cached_mug a, get_cached_mug b with Some u, Some v => negb (u =? v) | _, _ => false end.

(** A turn on a new pair that ends the comparison *)
Lemma compares_ends m x y a b ae stk :
  caches_ok m -> stands m a x -> stands m b y -> a <> b -> check_ae ae a b = false ->
  (forall la lb ca cb, a = PAlloc la -> b = PAlloc lb -> m !! la = Some ca -> m !! lb = Some cb -> mugs_clash ca cb = false ->
    match contents ca, contents cb with
    | BIndirect ws, BIndirect vs => ws <> vs
    | BCell _ _, BCell _ _ => False
    | _, _ => True
    end) ->
  x <> y /\ forall f, noun_equality_loop (S f) m ae (Nouns a b :: stk) = Some false.
Proof.
  intros Hok Ha Hb Hne Hck Hstop. cbn [noun_equality_loop]. rewrite bool_decide_eq_false_2, Hck by done.
  destruct a as [da|la], b as [db|lb]; [inversion Ha; inversion Hb; subst; split; congruence..|].
  assert (exists ca, m !! la = Some ca) as [ca Hca] by (inversion Ha; eauto).
  assert (exists cb, m !! lb = Some cb) as [cb Hcb] by (inversion Hb; eauto).
  rewrite Hca, Hcb. cbn [mbind option_bind]. change (match get_cached_mug ca with Some _ => _ | None => _ end) with (mugs_clash ca cb).
  specialize (Hstop la lb ca cb eq_refl eq_refl Hca Hcb). destruct (mugs_clash ca cb) eqn:Em.
  - split; [|done]. unfold mugs_clash in Em. destruct (get_cached_mug ca) as [u|] eqn:Eu; [|done].
    destruct (get_cached_mug cb) as [v|] eqn:Ev; [|done]. apply negb_true_iff, Z.eqb_neq in Em. by eapply cached_mugs_differ.
  - specialize (Hstop eq_refl). inversion Ha; inversion Hb; simplify_eq;
      match goal with H1 : contents ca = _, H2 : contents cb = _ |- _ => rewrite H1, H2 in * end; try done.
    split; [congruence|]. intros f. rewrite bool_decide_eq_false_2; [done|]. intros E. apply Hstop. by apply ne_bytes_inj.
Qed.

(** A turn on a new pair of allocated nouns with compatible mugs *)
Lemma compares_goes_on m la lb ca cb ae stk f :
  PAlloc la <> PAlloc lb -> check_ae ae (PAlloc la) (PAlloc lb) = false -> m !! la = Some ca -> m !! lb = Some cb -> mugs_clash ca cb = false ->
  noun_equality_loop (S f) m ae (Nouns (PAlloc la) (PAlloc lb) :: stk) =
    match contents ca, contents cb with
    | BIndirect ws, BIndirect vs =>
        if bool_decide (as_ne_bytes (Indirect ws) = as_ne_bytes (Indirect vs))
        then noun_equality_loop f m ((PAlloc la, PAlloc lb) :: ae) stk else Some false
    | BCell ah at_, BCell bh bt =>
        noun_equality_loop f m ae (Nouns ah bh :: Nouns at_ bt :: MarkEqual (PAlloc la) (PAlloc lb) :: stk)
    | _, _ => Some false
    end.
Proof.
  intros Hne Hck Ha Hb Hm. cbn [noun_equality_loop]. rewrite bool_decide_eq_false_2, Hck, Ha, Hb by done. cbn [mbind option_bind].
  unfold mugs_clash in Hm. by rewrite Hm.
Qed.

Lemma equal_no_clash m la lb ca cb x :
  caches_ok m -> stands m (PAlloc la) x -> stands m (PAlloc lb) x -> m !! la = Some ca -> m !! lb = Some cb -> mugs_clash ca cb = false.
Proof.
  intros Hok Hx Hy Ha Hb. unfold mugs_clash. destruct (get_cached_mug ca) as [u|] eqn:Eu; [|done].
  destruct (get_cached_mug cb) as [v|] eqn:Ev; [|done]. apply negb_false_iff, Z.eqb_eq. destruct (decide (u = v)); [done|].
  by destruct (cached_mugs_differ m la lb ca cb x x u v).
Qed.

Lemma compares_atom m xa y a b ae stk :
  caches_ok m -> stands m a (NAtom xa) -> stands m b y -> pairs_sound m ae -> a <> b -> check_ae ae a b = false ->
  if decide (NAtom xa = y) then exists ae', pairs_sound m ae' /\
    forall f, noun_equality_loop (S f) m ae (Nouns a b :: stk) = noun_equality_loop f m ae' stk
  else forall f, noun_equality_loop (S f) m ae (Nouns a b :: stk) = Some false.
Proof.
  intros Hok Ha Hb Hae Hne Hck. destruct (decide (NAtom xa = y)) as [<-|Hxy].
  - exists ((a, b) :: ae). split; [by eapply pairs_sound_cons|]. intros f.
    inversion Ha as [|la ca ws Hla Hca Hwa|]; inversion Hb as [|lb cb vs Hlb Hcb Hwb|]; subst; try congruence. simplify_eq.
    assert (Hm : mugs_clash ca cb = false) by (by eapply (equal_no_clash m la lb)).
    rewrite (compares_goes_on m la lb ca cb) by done. rewrite Hca, Hcb. by rewrite bool_decide_eq_true_2.
  - apply (compares_ends m (NAtom xa) y); try done. intros la lb ca cb -> -> Hla Hlb _.
    inversion Ha; inversion Hb; simplify_eq; match goal with H1 : contents ca = _, H2 : contents cb = _ |- _ => rewrite H1, H2 in * end; try done; congruence.
Qed.

Lemma compares_noun m x : caches_ok m -> compares m x.
Proof.
  intros Hok. induction x as [xa|xh IHh xt IHt]; intros y a b ae stk Ha Hb Hae;
    (destruct (decide (a = b \/ check_ae ae a b = true)) as [Hd|Hd];
     [destruct (compares_done m _ y a b ae stk Ha Hb Hae Hd) as [<- Hloop]; exists 1%nat; split; [cbn; lia|];
      rewrite decide_True by done; by exists ae|]);
    assert (Hne : a <> b) by tauto; assert (Hck : check_ae ae a b = false) by (destruct (check_ae ae a b); tauto).
  { exists 1%nat. split; [cbn; lia|]. by apply compares_atom. }
  inversion Ha as [| |la ca ph pt ? ? Hla Hca Hph Hpt]; subst. assert (Hends : y <> NCell xh xt ->
    (forall lb cb, b = PAlloc lb -> m !! lb = Some cb -> mugs_clash ca cb = false -> match contents cb with BCell _ _ => False | _ => True end) ->
    exists k, (k <= 2 * nsize (NCell xh xt))%nat /\ if decide (NCell xh xt = y) then exists ae', pairs_sound m ae' /\
      forall f, noun_equality_loop (k + f) m ae (Nouns (PAlloc la) b :: stk) = noun_equality_loop f m ae' stk
    else forall f, noun_equality_loop (k + f) m ae (Nouns (PAlloc la) b :: stk) = Some false).
  { intros Hy Hstop. exists 1%nat. split; [cbn; lia|]. rewrite decide_False by congruence.
    apply (compares_ends m (NCell xh xt) y); try done. intros la' lb ca' cb [= <-] -> Hla' Hlb Hm. simplify_eq. rewrite Hca.
    specialize (Hstop lb cb eq_refl Hlb Hm). by destruct (contents cb). }
  inversion Hb as [| |lb cb qh qt yh yt Hlb Hcb Hqh Hqt]; subst.
  { by apply Hends. }
  { apply Hends; [done|]. intros lb' cb' E ? ?. simplify_eq. by match goal with H : contents _ = BIndirect _ |- _ => rewrite H end. }
  destruct (mugs_clash ca cb) eqn:Em.
  { apply Hends; [|intros ? ? [= <-] ? ?; congruence]. intros E. rewrite E in *. by rewrite (equal_no_clash m la lb ca cb (NCell xh xt)) in Em. }
  clear Hends. pose proof (fun f => compares_goes_on m la lb ca cb ae stk f Hne Hck Hla Hlb Em) as Hstep. rewrite Hca, Hcb in Hstep.
  destruct (IHh yh ph qh ae (Nouns pt qt :: MarkEqual (PAlloc la) (PAlloc lb) :: stk)) as (k1 & Hk1 & H1); try done.
  destruct (decide (xh = yh)) as [->|Hh].
  2: { exists (S k1). split; [cbn; lia|]. rewrite decide_False by congruence. intros f. cbn [Nat.add]. by rewrite Hstep. }
  destruct H1 as (ae1 & Hae1 & H1).
  destruct (IHt yt pt qt ae1 (MarkEqual (PAlloc la) (PAlloc lb) :: stk)) as (k2 & Hk2 & H2); try done.
  destruct (decide (xt = yt)) as [->|Ht].
  - destruct H2 as (ae2 & Hae2 & H2). exists (S (k1 + (k2 + 1))). split; [cbn; lia|]. rewrite decide_True by done.
    exists ((PAlloc la, PAlloc lb) :: ae2). split; [by eapply pairs_sound_cons|]. intros f. cbn [Nat.add].
    by rewrite Hstep, <- !Nat.add_assoc, H1, H2.
  - exists (S (k1 + k2)). split; [cbn; lia|]. rewrite decide_False by congruence. intros f. cbn [Nat.add].
    by rewrite Hstep, <- Nat.add_assoc, H1, H2.
Qed.

Lemma noun_equality_run m a b x y fuel :
  caches_ok m -> stands m a x -> stands m b y -> (2 * nsize x <= fuel)%nat ->
  noun_equality fuel m a b = Some (bool_decide (x = y)).
Proof.
  intros Hok Ha Hb Hf. destruct (compares_noun m x Hok y a b [] [] Ha Hb) as (k & Hk & H); [by intros ? ? ?%not_elem_of_nil|].
  unfold noun_equality. replace fuel with (k + (fuel - k))%nat by lia. destruct (decide (x = y)) as [E|E].
  - destruct H as (ae & _ & ->). rewrite bool_decide_eq_true_2 by done. by destruct (fuel - k)%nat.
  - rewrite H. by rewrite bool_decide_eq_false_2.
Qed.

(** * Copying *)

#[local] Instance slot_ptr_eq : EqDecision slot_ptr.
Proof. solve_decision. Defined.

Section copy.
Context (m0 : memory) (p0 : ptr).
Notation N := (length m0).

(** The copy of a pointer *)
Definition img (copied : gmap nat ptr) (p : ptr) : option ptr :=
  match p with PDirect d => Some (PDirect d) | PAlloc l => copied !! l end.

Definition pending (stack : list (ptr * slot_ptr)) (copied : gmap nat ptr) (p p' : ptr) (f : slot_ptr) : Prop :=
  img copied p = Some p' \/ (p, f) ∈ stack.

(** [a'] at [l'] is the copy of [a] so far. *)
Definition copy_of (stack : list (ptr * slot_ptr)) (copied : gmap nat ptr) (a : Allocated) (l' : nat) (a' : Allocated) : Prop :=
  metadata a' = metadata a /\
  match contents a with
  | BIndirect ws => contents a' = BIndirect ws
  | BCell h t => exists h' t', contents a' = BCell h' t' /\
      pending stack copied h h' (SHead l') /\ pending stack copied t t' (STail l')
  end.

(** The nouns that are found from [p0] in the source *)
Inductive reaches : ptr -> Prop :=
  | reaches_root : reaches p0
  | reaches_head l a h t : reaches (PAlloc l) -> m0 !! l = Some a -> contents a = BCell h t -> reaches h
  | reaches_tail l a h t : reaches (PAlloc l) -> m0 !! l = Some a -> contents a = BCell h t -> reaches t.

(** The slot is one of a copy, and the field of the original is [p]. *)
Definition slot_for (src : list nat) (p : ptr) (f : slot_ptr) : Prop :=
  match f with
  | SRoot => p = p0
  | SHead l' => exists i l a t, l' = (N + i)%nat /\ src !! i = Some l /\ m0 !! l = Some a /\ contents a = BCell p t
  | STail l' => exists i l a h, l' = (N + i)%nat /\ src !! i = Some l /\ m0 !! l = Some a /\ contents a = BCell h p
  end.

Record copying (root : ptr) (m : memory) (copied : gmap nat ptr) (src : list nat) (stack : list (ptr * slot_ptr)) : Prop := {
  cp_source : take N m = m0;
  cp_length : length m = (N + length src)%nat;
  cp_nodup : NoDup src;
  cp_copied l v : copied !! l = Some v <-> exists i, v = PAlloc (N + i) /\ src !! i = Some l;
  cp_copy i l : src !! i = Some l -> exists a a', m0 !! l = Some a /\ m !! (N + i)%nat = Some a' /\ copy_of stack copied a (N + i) a';
  cp_stands l : l ∈ src -> exists n, stands m0 (PAlloc l) n;
  cp_stack p f : (p, f) ∈ stack -> slot_for src p f /\ exists n, stands m0 p n;
  cp_root : img copied p0 = Some root \/ (p0, SRoot) ∈ stack;
  cp_reach l : l ∈ src -> reaches (PAlloc l);
}.

Lemma slot_reaches src p f : (forall l, l ∈ src -> reaches (PAlloc l)) -> slot_for src p f -> reaches p.
Proof.
  intros Hr. destruct f as [|l'|l']; cbn [slot_for]; [intros ->; constructor|..]; intros (i & l & a & x & _ & Hi%list_elem_of_lookup_2 & Hl & Ha);
    [by eapply reaches_head; [apply Hr| |]|by eapply reaches_tail; [apply Hr| |]].
Qed.

Lemma pending_pop p f stk copied q q' g :
  pending ((p, f) :: stk) copied q q' g -> g <> f \/ q <> p -> pending stk copied q q' g.
Proof. intros [H|[[= -> ->]|H]%elem_of_cons] Hne; [by left|by destruct Hne|by right]. Qed.

Lemma take_alter_ge {A} (f : A -> A) (i n : nat) (l : list A) : (n <= i)%nat -> take n (alter f i l) = take n l.
Proof. revert i l. induction n as [|n IH]; intros [|i] [|x l] H; cbn; try done; [lia|]. f_equal. apply IH. lia. Qed.

(** Another copy than the one of the slot, and the one of the slot *)
Lemma copy_of_other p f stk copied a l' a' :
  f <> SHead l' -> f <> STail l' -> copy_of ((p, f) :: stk) copied a l' a' -> copy_of stk copied a l' a'.
Proof.
  intros N1 N2 [Hmd Hc]. split; [done|]. destruct (contents a) as [ws|h t]; [done|]. destruct Hc as (h' & t' & E & Hh & Ht).
  exists h', t'. split_and!; [done|eapply pending_pop; [done|left; congruence]..].
Qed.

Lemma copy_of_slot p f stk copied a l' a' v h t :
  contents a = BCell h t -> (f = SHead l' /\ h = p \/ f = STail l' /\ t = p) -> img copied p = Some v ->
  copy_of ((p, f) :: stk) copied a l' a' -> copy_of stk copied a l' (set_field f v a').
Proof.
  intros Ha Hf Hv [Hmd Hc]. unfold copy_of. rewrite Ha in *. destruct Hc as (h' & t' & E & Hh & Ht). split; [done|].
  destruct Hf as [[-> ->]|[-> ->]]; cbn [set_field contents]; rewrite E.
  - exists v, t'. split_and!; [done|by left|eapply pending_pop; [done|by left]].
  - exists h', v. split_and!; [done|eapply pending_pop; [done|by left]|by left].
Qed.

Lemma slot_for_location src p f : slot_for src p f -> f <> SRoot ->
  exists i l a h t, (f = SHead (N + i) /\ h = p \/ f = STail (N + i) /\ t = p) /\
    src !! i = Some l /\ m0 !! l = Some a /\ contents a = BCell h t.
Proof.
  destruct f as [|l'|l']; cbn [slot_for]; [done|..]; intros (i & l & a & x & -> & Hi & Hl & Ha) _;
    [exists i, l, a, p, x|exists i, l, a, x, p]; split_and!; auto.
Qed.

(** The popped slot receives the copy of its pointer. *)
Lemma copying_write root m copied src stk p f v :
  copying root m copied src ((p, f) :: stk) -> img copied p = Some v ->
  copying (fst (write_slot f v root m)) (snd (write_slot f v root m)) copied src stk.
Proof.
  intros C Hv. destruct (cp_stack _ _ _ _ _ C p f ltac:(constructor)) as [Hslot _].
  assert (Hstk : forall q g, (q, g) ∈ stk -> slot_for src q g /\ exists n, stands m0 q n).
  { intros q g Hin. apply (cp_stack _ _ _ _ _ C). by constructor. }
  destruct C as [C1 C2 C3 C4 C5 C6 _ C8 C9]. destruct (decide (f = SRoot)) as [->|Hf].
  { cbn [write_slot fst snd]. split; try done; [|cbn in Hslot; subst; by left].
    intros i l Hi. destruct (C5 i l Hi) as (a & a' & Ha & Ha' & Hc). exists a, a'. split_and!; [done..|]. eapply copy_of_other; [| |exact Hc]; done. }
  destruct (slot_for_location src p f Hslot Hf) as (i0 & l0 & a0 & h0 & t0 & Hwhich & Hi0 & Hl0 & Hc0).
  assert (Hw : write_slot f v root m = (root, alter (set_field f v) (N + i0)%nat m)) by (destruct Hwhich as [[-> _]|[-> _]]; done).
  rewrite Hw. cbn [fst snd]. split; try done.
  - rewrite take_alter_ge by lia. done.
  - by rewrite length_alter.
  - intros i l Hi. destruct (C5 i l Hi) as (a & a' & Ha & Ha' & Hc). destruct (decide (i = i0)) as [->|Hne].
    + simplify_eq. exists a0, (set_field f v a'). split_and!; [done|by rewrite list_lookup_alter_eq, Ha'|]. by eapply copy_of_slot.
    + exists a, a'. split_and!; [done|rewrite list_lookup_alter_ne by lia; done|].
      eapply copy_of_other; [..|exact Hc]; destruct Hwhich as [[-> _]|[-> _]]; congruence || (intros [= ?]; lia).
  - destruct C8 as [|[[= _ E]|]%elem_of_cons]; [by left|congruence|by right].
Qed.

(** A new copy, whose fields are then on the stack *)
Lemma copying_new root m copied src stk l f a :
  copying root m copied src ((PAlloc l, f) :: stk) -> copied !! l = None -> m0 !! l = Some a ->
  copying root (m ++ [a]) (<[l := PAlloc (length m)]> copied) (src ++ [l])
    ((PAlloc l, f) :: match contents a with BIndirect _ => stk | BCell h t => (h, SHead (length m)) :: (t, STail (length m)) :: stk end).
Proof.
  intros [C1 C2 C3 C4 C5 C6 C7 C8 C9] Hnew Hl.
  assert (Hsrc : forall i x, src !! i = Some x -> (src ++ [l]) !! i = Some x) by (intros; by apply lookup_app_l_Some).
  assert (Hend : (src ++ [l]) !! length src = Some l) by (by apply list_lookup_middle).
  assert (Hnotin : l ∉ src).
  { intros [i Hi]%list_elem_of_lookup. assert (copied !! l = Some (PAlloc (N + i))) by (apply C4; eauto). congruence. }
  assert (Hmono : forall q q', img copied q = Some q' -> img (<[l := PAlloc (length m)]> copied) q = Some q').
  { intros [d|x] q' E; cbn in *; [done|]. rewrite lookup_insert_ne; [done|]. intros <-. congruence. }
  set (kids := match contents a with BIndirect _ => stk | BCell h t => (h, SHead (length m)) :: (t, STail (length m)) :: stk end).
  assert (Hkids : forall e, e ∈ (PAlloc l, f) :: stk -> e ∈ (PAlloc l, f) :: kids).
  { intros e [->|H]%elem_of_cons; [by constructor|]. apply elem_of_cons. right. unfold kids. destruct (contents a); [done|]. by do 2 (apply elem_of_cons; right). }
  assert (Hpend : forall q q' g, pending ((PAlloc l, f) :: stk) copied q q' g -> pending ((PAlloc l, f) :: kids) (<[l := PAlloc (length m)]> copied) q q' g).
  { intros q q' g [H|H]; [left; auto|right; auto]. }
  assert (Hslot : forall q g, slot_for src q g -> slot_for (src ++ [l]) q g).
  { intros q [|l'|l']; cbn; [done|..]; intros (i & x & b & y & -> & Hi & Hx & Hb); exists i, x, b, y; auto. }
  destruct (C7 (PAlloc l) f ltac:(constructor)) as [_ [n Hn]]. split.
  - rewrite take_app_le by lia. done.
  - rewrite !length_app. cbn. lia.
  - apply NoDup_app. split_and!; [done| |apply NoDup_singleton]. intros x Hx ->%list_elem_of_singleton. done.
  - intros x v. destruct (decide (x = l)) as [->|Hne].
    + rewrite lookup_insert_eq. split; [intros [= <-]; exists (length src); split; [by rewrite C2|done]|].
      intros (i & -> & Hi). destruct (decide (i < length src)%nat) as [Hlt|Hge].
      * rewrite lookup_app_l in Hi by done. destruct Hnotin. by eapply list_elem_of_lookup_2.
      * assert (i = length src); [|subst; by rewrite C2]. apply lookup_lt_Some in Hi. rewrite length_app in Hi. cbn in Hi. lia.
    + rewrite lookup_insert_ne by done. rewrite C4. split; intros (i & -> & Hi); exists i; split; auto.
      apply lookup_app_Some in Hi as [Hi|[_ Hi]]; [done|]. by apply list_lookup_singleton_Some in Hi as [_ <-].
  - intros i x [Hi|[Hge Hi]]%lookup_app_Some.
    + destruct (C5 i x Hi) as (b & b' & Hb & Hb' & Hmd & Hc). exists b, b'. split; [done|]. split; [by apply lookup_app_l_Some|]. split; [done|].
      destruct (contents b); [done|]. destruct Hc as (h' & t' & E & Hh & Ht). exists h', t'. split_and!; auto.
    + apply list_lookup_singleton_Some in Hi as [Hi <-]. assert (i = length src) as -> by lia. exists a, a.
      split; [done|]. split; [rewrite <- C2; by apply list_lookup_middle|]. split; [done|]. rewrite <- C2.
      unfold kids. destruct (contents a) as [ws|h t]; [done|]. exists h, t.
      split_and!; [done|right; do 1 constructor; constructor|right; do 2 constructor; constructor].
  - intros x [Hx| ->%list_elem_of_singleton]%elem_of_app; [auto|eauto].
  - intros q g [[= -> ->]|Hin]%elem_of_cons; [split; [apply Hslot, C7; constructor|eauto]|].
    unfold kids in Hin. destruct (contents a) as [ws|h t] eqn:Ea; [destruct (C7 q g); [by constructor|auto]|].
    inversion Hn as [|? b ws Hb Hcb|? b ph pt nh nt Hb Hcb Hph Hpt]; subst; [congruence|]. assert (b = a) as -> by congruence. rewrite Ea in Hcb. injection Hcb as <- <-.
    apply elem_of_cons in Hin as [[= -> ->]|Hin]; [split; [cbn; exists (length src), l, a, t; by rewrite C2|eauto]|].
    apply elem_of_cons in Hin as [[= -> ->]|Hin]; [split; [cbn; exists (length src), l, a, h; by rewrite C2|eauto]|].
    destruct (C7 q g); [by constructor|auto].
  - destruct C8 as [H|H]; [left; auto|right; auto].
  - intros x [Hx| ->%list_elem_of_singleton]%elem_of_app; [auto|]. destruct (C7 (PAlloc l) f ltac:(constructor)) as [Hs _]. by eapply slot_reaches.
Qed.

Lemma copying_bound root m copied src stk : copying root m copied src stk -> (length src <= N)%nat.
Proof.
  intros C. cut (length src <= length (seq 0 N))%nat; [by rewrite length_seq|]. apply submseteq_length, NoDup_submseteq; [apply (cp_nodup _ _ _ _ _ C)|].
  intros l [n Hn]%(cp_stands _ _ _ _ _ C). apply elem_of_seq. inversion Hn; subst; match goal with H : m0 !! l = Some _ |- _ => apply lookup_lt_Some in H end; lia.
Qed.

(** A noun pushes at most its two fields, once for each location. *)
Lemma copying_run fuel : forall root m copied src stk,
  copying root m copied src stk -> (length stk + 2 * (N - length src) <= fuel)%nat ->
  exists root' m' copied' src', copy_loop fuel root m copied stk = Some (root', m') /\ copying root' m' copied' src' [].
Proof.
  induction fuel as [|fuel IH]; intros root m copied src [|[p f] stk] C Hf; cbn [length] in Hf; try lia;
    [by exists root, m, copied, src..|].
  assert (Hwrite : forall v, img copied p = Some v -> exists root' m' copied' src',
    copy_loop fuel (fst (write_slot f v root m)) (snd (write_slot f v root m)) copied stk = Some (root', m') /\ copying root' m' copied' src' []).
  { intros v Hv. apply (IH _ _ _ src); [by eapply copying_write|lia]. }
  cbn [copy_loop]. destruct p as [d|l].
  - pose proof (Hwrite (PDirect d) eq_refl) as H. by destruct (write_slot f (PDirect d) root m).
  - destruct (cp_stack _ _ _ _ _ C (PAlloc l) f ltac:(constructor)) as [_ [n Hn]].
    assert (exists a, m0 !! l = Some a) as [a Ha] by (inversion Hn; eauto).
    assert (Hm : m !! l = Some a).
    { rewrite <- (cp_source _ _ _ _ _ C) in Ha. by apply lookup_take_Some in Ha as [? _]. }
    rewrite Hm. cbn [mbind option_bind]. destruct (copied !! l) as [v|] eqn:Ev.
    + pose proof (Hwrite v Ev) as H. by destruct (write_slot f v root m).
    + pose proof (copying_new root m copied src stk l f a C Ev Ha) as C'. pose proof (copying_bound _ _ _ _ _ C') as Hb.
      rewrite length_app in Hb. cbn [length] in Hb.
      assert (C2 := copying_write _ _ _ _ _ _ _ (PAlloc (length m)) C' (lookup_insert_eq _ _ _)).
      destruct (write_slot f (PAlloc (length m)) root (m ++ [a])) as [root' m']. cbn [fst snd] in C2.
      destruct (contents a) as [ws|h t]; apply (IH _ _ _ (src ++ [l])); try done; rewrite length_app; cbn [length]; lia.
Qed.

(** A noun of the slab: no pointer leaves it. *)
Inductive lives (lo : nat) (m : memory) : ptr -> noun -> Prop :=
  | lives_direct d : wf_atom (Direct d) -> lives lo m (PDirect d) (NAtom (Direct d))
  | lives_indirect l a ws : (lo <= l)%nat -> m !! l = Some a -> contents a = BIndirect ws -> wf_atom (Indirect ws) ->
      lives lo m (PAlloc l) (NAtom (Indirect ws))
  | lives_cell l a h t hn tn : (lo <= l)%nat -> m !! l = Some a -> contents a = BCell h t -> lives lo m h hn -> lives lo m t tn ->
      lives lo m (PAlloc l) (NCell hn tn).

Lemma lives_stands lo m p n : lives lo m p n -> stands m p n.
Proof. induction 1; by econstructor. Qed.

Lemma copied_lives root m copied src p n v :
  copying root m copied src [] -> stands m0 p n -> img copied p = Some v -> lives N m v n.
Proof.
  intros C Hs. revert v. induction Hs as [d Hd|l a ws Hl Hc Hw|l a ph pt nh nt Hl Hc _ IHh _ IHt]; intros v Hv; cbn in Hv.
  - injection Hv as <-. by constructor.
  - apply (cp_copied _ _ _ _ _ C) in Hv as (i & -> & Hi). destruct (cp_copy _ _ _ _ _ C i l Hi) as (b & b' & Hb & Hb' & _ & Hcb).
    simplify_eq. rewrite Hc in Hcb. econstructor; [lia|done..].
  - apply (cp_copied _ _ _ _ _ C) in Hv as (i & -> & Hi). destruct (cp_copy _ _ _ _ _ C i l Hi) as (b & b' & Hb & Hb' & _ & Hcb).
    simplify_eq. rewrite Hc in Hcb. destruct Hcb as (h' & t' & E & [Hh|[]%not_elem_of_nil] & [Ht|[]%not_elem_of_nil]).
    econstructor; [lia|done|done|auto..].
Qed.
(** At the end exactly the allocations that are found from the root have a copy. *)
Lemma copied_reached root m copied src l : copying root m copied src [] -> l ∈ src <-> reaches (PAlloc l).
Proof.
  intros C. split; [apply (cp_reach _ _ _ _ _ C)|].
  assert (Hall : forall q, reaches q -> is_Some (img copied q)).
  { induction 1 as [|k a h t _ [v Hv] Hk Hc|k a h t _ [v Hv] Hk Hc].
    - destruct (cp_root _ _ _ _ _ C) as [->|[]%not_elem_of_nil]. eauto.
    - apply (cp_copied _ _ _ _ _ C) in Hv as (i & -> & Hi). destruct (cp_copy _ _ _ _ _ C i k Hi) as (b & b' & Hb & _ & _ & Hcb).
      simplify_eq. rewrite Hc in Hcb. destruct Hcb as (h' & t' & _ & [->|[]%not_elem_of_nil] & _). eauto.
    - apply (cp_copied _ _ _ _ _ C) in Hv as (i & -> & Hi). destruct (cp_copy _ _ _ _ _ C i k Hi) as (b & b' & Hb & _ & _ & Hcb).
      simplify_eq. rewrite Hc in Hcb. destruct Hcb as (h' & t' & _ & _ & [->|[]%not_elem_of_nil]). eauto. }
  intros [v Hv]%Hall. apply (cp_copied _ _ _ _ _ C) in Hv as (i & _ & Hi). by eapply list_elem_of_lookup_2.
Qed.
End copy.


(** * Blocks *)

Lemma idx_to_size_small i : 0 <= i <= 25 -> idx_to_size i = 2 ^ (2 * i + 9).
Proof.
  intros Hi. unfold idx_to_size. rewrite Z.mod_small, Z.shiftl_1_l by lia. apply wrap64_small. width.
  split; [apply Z.pow_nonneg; lia|]. apply Z.pow_lt_mono_r; lia.
Qed.

Lemma min_idx_spec sz : 0 < sz <= 2 ^ 59 -> exists i, min_idx_for_size sz = Some i /\ 0 <= i <= 25 /\ sz <= 2 ^ (2 * i + 9).
Proof.
  intros Hsz. unfold min_idx_for_size. rewrite (proj2 (Z.leb_gt sz 0)) by lia. rewrite Z.shiftl_1_l.
  pose proof (Z.log2_spec sz ltac:(lia)) as [Hlo Hhi]. pose proof (Z.log2_nonneg sz).
  set (k := if 2 ^ Z.log2 sz =? sz then Z.log2 sz else Z.log2 sz + 1).
  assert (Hk : sz <= 2 ^ k /\ 0 <= k <= 59).
  { unfold k. destruct (Z.eqb_spec (2 ^ Z.log2 sz) sz) as [E|E].
    - split; [lia|]. split; [lia|]. apply (Z.pow_le_mono_r_iff 2); lia.
    - split; [lia|]. split; [lia|]. apply Z.le_succ_l, Z.log2_lt_pow2; [lia|].
      destruct (decide (sz = 2 ^ 59)) as [->|]; [by rewrite Z.log2_pow2 in E by lia|lia]. }
  eexists. split; [done|]. destruct (Z.leb_spec k 9).
  - split; [lia|]. eapply Z.le_trans; [apply Hk|]. apply Z.pow_le_mono_r; lia.
  - pose proof (Z.div_mod (k - 9 + 1) 2 ltac:(lia)). pose proof (Z.mod_pos_bound (k - 9 + 1) 2 ltac:(lia)).
    split; [lia|]. eapply Z.le_trans; [apply Hk|]. apply Z.pow_le_mono_r; lia.
Qed.

(** A piece of memory: its block, its offset and its words *)
Definition region : Type := nat * Z * Z.
Definition apart (r r' : region) : Prop :=
  let '(i, o, n) := r in let '(i', o', n') := r' in i = i' -> o + n <= o' \/ o' + n' <= o.

Record slab_inv (s : NounSlab) (rs : list region) : Prop := {
  si_blocks : (length (slabs s) <= 26)%nat;
  si_regions i o n : (i, o, n) ∈ rs -> exists sz, slabs s !! i = Some (Some sz) /\ 0 <= o /\ 0 < n /\ o + n <= sz;
  si_current i start : allocation s = Some (i, start) ->
    0 <= start /\ forall o n, (i, o, n) ∈ rs -> o + n <= start;
  si_apart : ForallOrdPairs apart rs;
}.

Lemma new_block_spec s n s' i start :
  (length (slabs s) <= 26)%nat -> 0 < n <= 2 ^ 59 -> new_block s n = Some (s', i, start) ->
  start = 0 /\ (length (slabs s) <= i <= 25)%nat /\ (length (slabs s') <= 26)%nat /\
  (forall j x, slabs s !! j = Some x -> slabs s' !! j = Some x) /\ exists sz, slabs s' !! i = Some (Some sz) /\ n <= sz.
Proof.
  intros Hl Hn. unfold new_block. destruct (min_idx_spec n Hn) as (k & -> & Hk & Hsz). cbn [mbind option_bind].
  set (nx := Z.to_nat (Z.max (Z.of_nat (length (slabs s))) k)). assert (Hnx : (length (slabs s) <= nx <= 26)%nat) by (unfold nx; lia).
  assert (k <= Z.of_nat nx) by (unfold nx; lia).
  destruct (decide (nx = 26%nat)) as [->|Hne]; [done|]. rewrite idx_to_size_small by lia.
  rewrite (proj2 (Z.leb_gt _ _)) by (apply Z.pow_lt_mono_r; lia). intros [= <- <- <-]. cbn [slabs].
  assert (Hlen : length (resize (S nx) None (slabs s)) = S nx) by apply length_resize.
  split_and!; [done|lia|lia|rewrite length_insert; lia| |].
  - intros j x Hj. apply lookup_lt_Some in Hj as Hj'. rewrite list_lookup_insert_ne by lia.
    rewrite lookup_resize by lia. done.
  - exists (2 ^ (2 * Z.of_nat nx + 9)). split; [apply list_lookup_insert_eq; lia|].
    eapply Z.le_trans; [exact Hsz|]. apply Z.pow_le_mono_r; lia.
Qed.

(** A slab hands out regions inside its blocks, none of which overlap, as long as it
    has at most 26 blocks and requests are below 2^59 words; with fewer blocks a request
    succeeds. *)
Theorem slab_alloc s rs n :
  slab_inv s rs -> 0 < n <= 2 ^ 59 ->
  (forall s' i o, alloc_words s n = Some (s', (i, o)) -> slab_inv s' ((i, o, n) :: rs)) /\
  ((length (slabs s) <= 25)%nat -> is_Some (alloc_words s n)).
Proof.
  intros Hinv Hn. pose proof Hinv as [I1 I2 I3 I4].
  assert (Hnew : forall s1 i start, new_block s n = Some (s1, i, start) ->
    slab_inv {| slabs := slabs s1; allocation := Some (i, start + n) |} ((i, start, n) :: rs)).
  { intros s1 i start E. destruct (new_block_spec s n s1 i start I1 Hn E) as (-> & Hi & Hl & Hold & sz & Hsz & Hroom).
    assert (Hfresh : forall o k, (i, o, k) ∈ rs -> False).
    { intros o k (sz' & Hs' & _)%I2. apply lookup_lt_Some in Hs'. lia. }
    split; cbn [slabs allocation]; [done| | |].
    - intros j o k [[= -> -> ->]|Hin]%elem_of_cons; [exists sz; split_and!; done || lia|].
      destruct (I2 j o k Hin) as (sz' & Hs' & Hrest). exists sz'. split; [by apply Hold|done].
    - intros j st [= <- <-]. split; [lia|]. intros o k [[= -> ->]|Hin]%elem_of_cons; [lia|by destruct (Hfresh o k)].
    - constructor; [|done]. apply Forall_forall. intros [[j o] k] Hin <-. by destruct (Hfresh o k). }
  unfold alloc_words. split.
  - intros s' i o. destruct (allocation s) as [[ic start]|] eqn:Ea.
    + destruct (Z.leb_spec (start + n) (default 0 (default None (slabs s !! ic)))) as [Hroom|_].
      * cbn [mbind option_bind]. intros [= <- <- <-]. destruct (I3 ic start eq_refl) as [Hst Hcur].
        split; cbn [slabs allocation]; [done| | |].
        -- intros j o k [[= -> -> ->]|Hin]%elem_of_cons; [|by apply I2].
           destruct (slabs s !! ic) as [[sz|]|]; cbn in Hroom; [|lia..]. exists sz. split_and!; done || lia.
        -- intros j st [= <- <-]. split; [lia|]. intros o k [[= -> ->]|Hin]%elem_of_cons; [lia|]. specialize (Hcur o k Hin). lia.
        -- constructor; [|done]. apply Forall_forall. intros [[j o] k] Hin <-. right. by apply Hcur.
      * destruct (new_block s n) as [[[s1 i1] st1]|] eqn:Eb; cbn [mbind option_bind]; [|done]. intros [= <- <- <-]. by apply Hnew.
    + destruct (new_block s n) as [[[s1 i1] st1]|] eqn:Eb; cbn [mbind option_bind]; [|done]. intros [= <- <- <-]. by apply Hnew.
  - intros Hl. assert (exists x, new_block s n = Some x) as [[[s1 i1] st1] Hb].
    { unfold new_block. destruct (min_idx_spec n Hn) as (k & -> & Hk & _). cbn [mbind option_bind].
      rewrite idx_to_size_small, (proj2 (Z.leb_gt _ _)) by (lia || apply Z.pow_lt_mono_r; lia). eauto. }
    rewrite Hb. destruct (allocation s) as [[ic start]|]; [destruct (_ <=? _)|]; by eexists.
Qed.

