(* ===== verification/Saver.v ===== *)
(** Checkpoints of a NockApp, crates/nockapp/src/nockapp/save.rs: the formats of a
    checkpoint, the two files that are written in turn, loading and its fallbacks, and
    the waiters for a saved event.

    bincode and blake3 are third-party crates: the codecs of primitive types are the
    parameter [Bincode], a struct is the sequence of its fields as bincode's format
    says, and [blake3] is a function of all bytes given to the hasher.  What happens to
    a file while it is written is an argument of [Saver_save].  Metrics and logging are left
    out; a slab is the noun at its root. *)
From stdpp Require Import base option list numbers gmap.
From Stdlib Require Import ZArith Lia.
From S2P Require Import Prelude Noun Interp Hamt Serialization Belt Vec Poly BPoly Tip5 NounSerde Mug Slab.
Local Open Scope Z_scope.

(** * Jammers *)

(** [Jammer]: [None] is a panic of [jam]. *)
Class Jammer := {
  jammer_jam : noun -> option (list Z);
  jammer_cue : list Z -> outcome CueError noun;
}.

(** The noun that a value of the heap represents, read to a depth *)
Fixpoint read_noun (depth : nat) (h : heap) (v : val) : option noun :=
  match v with
  | VAtom a => Some (NAtom a)
  | VCell p =>
      match depth with
      | O => None
      | S depth =>
          c ← h !! p;
          vh ← cell_head c;
          vt ← cell_tail c;
          head ← read_noun depth h vh;
          tail ← read_noun depth h vt;
          Some (NCell head tail)
      end
  end.

Definition NockJammer_cue (bytes : list Z) : outcome CueError noun :=
  match slab_cue bytes with
  | Some (Ok (v, h)) => or_panic (read_noun (length h) h v)
  | Some (Err e) => Err e
  | _ => Panic
  end.
(** The hash of the map and the unused bits of the last byte have any value. *)
Definition NockJammer (mug_of_key : noun -> Z) (dead : noun -> list bool) : Jammer := {|
  jammer_jam n := slab_jam mug_of_key (dead n) n;
  jammer_cue := NockJammer_cue;
|}.

(** * bincode *)

Record Codec (A : Type) := { enc : A -> list Z; dec : list Z -> option (A * list Z) }.
Arguments enc {A} c.
Arguments dec {A} c.

Class Bincode (Hash : Type) := {
  u64_codec : Codec Z;
  u32_codec : Codec Z;
  bool_codec : Codec bool;
  hash_codec : Codec Hash;
  vec_codec : Codec (list Z);
  jam_codec : Codec (list Z);
}.

(** * Errors and constants *)

Inductive WhichSnapshot := Snapshot0 | Snapshot1.
Definition next (w : WhichSnapshot) : WhichSnapshot :=
  match w with Snapshot0 => Snapshot1 | Snapshot1 => Snapshot0 end.

Global Instance WhichSnapshot_eq : EqDecision WhichSnapshot.
Proof. solve_decision. Defined.

(** The path is one of the two files, or [None] for bytes in memory.  Errors of other
    crates and of nockvm are left without their content. *)
Notation path := (option WhichSnapshot).
Inductive CheckpointError :=
  | IOError
  | DecodeError
  | EncodeError
  | InvalidChecksum (p : path)
  | InvalidVersion (p : path)
  | SwordNounError
  | SwordColdError
  | BothCheckpointsFailed (e0 e1 : CheckpointError)
  | SwordInterpreterError
  | CheckpointCueError (e : CueError)
  | VersionsFailed (v1 v0 : CheckpointError)
  | VersionsFailedV2 (v2 v1 v0 : CheckpointError).
Notation checked := (outcome CheckpointError).

Definition JAM_MAGIC_BYTES : Z := 0x4d414a4b4843.
Definition SNAPSHOT_VERSION_0 : Z := 0.
Definition SNAPSHOT_VERSION_1 : Z := 1.
Definition SNAPSHOT_VERSION_2 : Z := 2.
Definition LATEST_SNAPSHOT_VERSION : Z := SNAPSHOT_VERSION_2.

Definition or_err {A} (e : CheckpointError) (o : option A) : checked A :=
  match o with Some a => Ok a | None => Err e end.

Section saver.
Context {Hash : Type} `{!EqDecision Hash} (blake3 : list Z -> Hash).
Context `{!Bincode Hash} (J : Jammer).

(** * Checkpoints *)

Record SaveableCheckpoint := { sc_ker_hash : Hash; sc_event_num : Z; sc_state : noun; sc_cold : noun }.

Record JammedCheckpointV0 := {
  v0_magic_bytes : Z;
  v0_version : Z;
  v0_buff_index : bool;
  v0_ker_hash : Hash;
  v0_checksum : Hash;
  v0_event_num : Z;
  v0_jam : list Z;
}.
Record JammedCheckpointV1 := {
  v1_magic_bytes : Z;
  v1_version : Z;
  v1_ker_hash : Hash;
  v1_checksum : Hash;
  v1_event_num : Z;
  v1_jam : list Z;
}.
Record JammedCheckpointV2 := {
  v2_ker_hash : Hash;
  v2_checksum : Hash;
  v2_event_num : Z;
  v2_cold_jam : list Z;
  v2_state_jam : list Z;
}.
Record JammedCheckpointV2Envelope := { env_magic_bytes : Z; env_version : Z; env_payload : list Z }.

(** ** Checksums *)

Definition len_bytes (bs : list Z) : list Z := to_le_bytes 8 (Z.of_nat (length bs)).
Definition checksum_v1 (event_num : Z) (jam : list Z) : Hash :=
  blake3 (to_le_bytes 8 event_num ++ len_bytes jam ++ jam).
Definition checksum_v2 (event_num : Z) (cold_jam state_jam : list Z) : Hash :=
  blake3 (to_le_bytes 8 event_num ++ len_bytes cold_jam ++ cold_jam ++ len_bytes state_jam ++ state_jam).

(** ** Version 0 *)

Definition V0_new (buff_index : bool) (ker_hash : Hash) (event_num : Z) (jam : list Z) : JammedCheckpointV0 := {|
  v0_magic_bytes := JAM_MAGIC_BYTES; v0_version := SNAPSHOT_VERSION_0; v0_buff_index := buff_index;
  v0_ker_hash := ker_hash; v0_checksum := checksum_v1 event_num jam; v0_event_num := event_num; v0_jam := jam |}.
Definition V0_validate (c : JammedCheckpointV0) (p : path) : checked unit :=
  if negb (v0_version c =? SNAPSHOT_VERSION_0) then Err (InvalidVersion p)
  else if decide (v0_checksum c = checksum_v1 (v0_event_num c) (v0_jam c)) then Ok ()
  else Err (InvalidChecksum p).
Definition V0_encode (c : JammedCheckpointV0) : list Z :=
  enc u64_codec (v0_magic_bytes c) ++ enc u32_codec (v0_version c) ++ enc bool_codec (v0_buff_index c) ++
  enc hash_codec (v0_ker_hash c) ++ enc hash_codec (v0_checksum c) ++ enc u64_codec (v0_event_num c) ++ enc jam_codec (v0_jam c).
Definition V0_decode (bs : list Z) : option (JammedCheckpointV0 * list Z) :=
  '(magic, bs) ← dec u64_codec bs;
  '(version, bs) ← dec u32_codec bs;
  '(buff_index, bs) ← dec bool_codec bs;
  '(ker_hash, bs) ← dec hash_codec bs;
  '(checksum, bs) ← dec hash_codec bs;
  '(event_num, bs) ← dec u64_codec bs;
  '(jam, bs) ← dec jam_codec bs;
  Some ({| v0_magic_bytes := magic; v0_version := version; v0_buff_index := buff_index; v0_ker_hash := ker_hash;
           v0_checksum := checksum; v0_event_num := event_num; v0_jam := jam |}, bs).

(** ** Version 1 *)

Definition V1_new (ker_hash : Hash) (event_num : Z) (jam : list Z) : JammedCheckpointV1 := {|
  v1_magic_bytes := JAM_MAGIC_BYTES; v1_version := SNAPSHOT_VERSION_1;
  v1_ker_hash := ker_hash; v1_checksum := checksum_v1 event_num jam; v1_event_num := event_num; v1_jam := jam |}.
Definition V1_validate (c : JammedCheckpointV1) (p : path) : checked unit :=
  if negb (v1_version c =? SNAPSHOT_VERSION_1) then Err (InvalidVersion p)
  else if decide (v1_checksum c = checksum_v1 (v1_event_num c) (v1_jam c)) then Ok ()
  else Err (InvalidChecksum p).
Definition V1_encode (c : JammedCheckpointV1) : list Z :=
  enc u64_codec (v1_magic_bytes c) ++ enc u32_codec (v1_version c) ++ enc hash_codec (v1_ker_hash c) ++
  enc hash_codec (v1_checksum c) ++ enc u64_codec (v1_event_num c) ++ enc jam_codec (v1_jam c).
Definition V1_decode (bs : list Z) : option (JammedCheckpointV1 * list Z) :=
  '(magic, bs) ← dec u64_codec bs;
  '(version, bs) ← dec u32_codec bs;
  '(ker_hash, bs) ← dec hash_codec bs;
  '(checksum, bs) ← dec hash_codec bs;
  '(event_num, bs) ← dec u64_codec bs;
  '(jam, bs) ← dec jam_codec bs;
  Some ({| v1_magic_bytes := magic; v1_version := version; v1_ker_hash := ker_hash; v1_checksum := checksum;
           v1_event_num := event_num; v1_jam := jam |}, bs).

(** ** Version 2 *)

Definition V2_new (ker_hash : Hash) (event_num : Z) (cold_jam state_jam : list Z) : JammedCheckpointV2 := {|
  v2_ker_hash := ker_hash; v2_checksum := checksum_v2 event_num cold_jam state_jam;
  v2_event_num := event_num; v2_cold_jam := cold_jam; v2_state_jam := state_jam |}.
Definition V2_validate (c : JammedCheckpointV2) (p : path) : checked unit :=
  if decide (v2_checksum c = checksum_v2 (v2_event_num c) (v2_cold_jam c) (v2_state_jam c)) then Ok ()
  else Err (InvalidChecksum p).
Definition V2_encode_payload (c : JammedCheckpointV2) : list Z :=
  enc hash_codec (v2_ker_hash c) ++ enc hash_codec (v2_checksum c) ++ enc u64_codec (v2_event_num c) ++
  enc jam_codec (v2_cold_jam c) ++ enc jam_codec (v2_state_jam c).
Definition V2_decode_payload (bs : list Z) : option (JammedCheckpointV2 * list Z) :=
  '(ker_hash, bs) ← dec hash_codec bs;
  '(checksum, bs) ← dec hash_codec bs;
  '(event_num, bs) ← dec u64_codec bs;
  '(cold_jam, bs) ← dec jam_codec bs;
  '(state_jam, bs) ← dec jam_codec bs;
  Some ({| v2_ker_hash := ker_hash; v2_checksum := checksum; v2_event_num := event_num;
           v2_cold_jam := cold_jam; v2_state_jam := state_jam |}, bs).
Definition Envelope_encode (e : JammedCheckpointV2Envelope) : list Z :=
  enc u64_codec (env_magic_bytes e) ++ enc u32_codec (env_version e) ++ enc vec_codec (env_payload e).
Definition Envelope_decode (bs : list Z) : option (JammedCheckpointV2Envelope * list Z) :=
  '(magic, bs) ← dec u64_codec bs;
  '(version, bs) ← dec u32_codec bs;
  '(payload, bs) ← dec vec_codec bs;
  Some ({| env_magic_bytes := magic; env_version := version; env_payload := payload |}, bs).
Definition V2_encode (c : JammedCheckpointV2) : list Z :=
  let payload := V2_encode_payload c in
  Envelope_encode {| env_magic_bytes := JAM_MAGIC_BYTES; env_version := SNAPSHOT_VERSION_2; env_payload := payload |}.
Definition from_envelope (e : JammedCheckpointV2Envelope) (p : path) : checked JammedCheckpointV2 :=
  if negb (env_magic_bytes e =? JAM_MAGIC_BYTES) then Err (InvalidVersion p)
  else if negb (env_version e =? LATEST_SNAPSHOT_VERSION) then Err (InvalidVersion p)
  else
    '(checkpoint, _) ← or_err DecodeError (V2_decode_payload (env_payload e));
    Ok checkpoint.
Definition decode_from_bytes (bs : list Z) : checked JammedCheckpointV2 :=
  '(envelope, _) ← or_err DecodeError (Envelope_decode bs);
  checkpoint ← from_envelope envelope None;
  _ ← V2_validate checkpoint None;
  Ok checkpoint.

(** * Files *)

(** [None]: the file does not exist. *)
Record Disk := { file_0 : option (list Z); file_1 : option (list Z) }.
Definition read (d : Disk) (w : WhichSnapshot) : option (list Z) :=
  match w with Snapshot0 => file_0 d | Snapshot1 => file_1 d end.
Definition write (d : Disk) (w : WhichSnapshot) (bs : list Z) : Disk :=
  match w with
  | Snapshot0 => {| file_0 := Some bs; file_1 := file_1 d |}
  | Snapshot1 => {| file_0 := file_0 d; file_1 := Some bs |}
  end.

Definition V2_load_from_file (d : Disk) (w : WhichSnapshot) : checked JammedCheckpointV2 :=
  bytes ← or_err IOError (read d w);
  '(envelope, _) ← or_err DecodeError (Envelope_decode bytes);
  checkpoint ← from_envelope envelope (Some w);
  _ ← V2_validate checkpoint (Some w);
  Ok checkpoint.
Definition V1_load_from_file (d : Disk) (w : WhichSnapshot) : checked JammedCheckpointV1 :=
  bytes ← or_err IOError (read d w);
  '(checkpoint, _) ← or_err DecodeError (V1_decode bytes);
  _ ← V1_validate checkpoint (Some w);
  Ok checkpoint.
Definition V0_load_from_file (d : Disk) (w : WhichSnapshot) : checked JammedCheckpointV0 :=
  bytes ← or_err IOError (read d w);
  '(checkpoint, _) ← or_err DecodeError (V0_decode bytes);
  _ ← V0_validate checkpoint (Some w);
  Ok checkpoint.

(** [expect] *)
Definition expect {A} (o : checked A) : checked A := match o with Ok a => Ok a | _ => Panic end.

(** Slabs without a type argument use [NockJammer]. *)
Definition cue_into (bytes : list Z) : checked noun := map_err CheckpointCueError (NockJammer_cue bytes).

Section legacy.
Context (mug_of_key : noun -> Z) (dead : noun -> list bool).

(** [JammedCheckpoint::from] of version 0 *)
Definition from_V0 (v0 : JammedCheckpointV0) : checked JammedCheckpointV2 :=
  root ← expect (cue_into (v0_jam v0));
  match root with
  | NAtom _ => Panic
  | NCell head tail =>
      state_jam ← or_panic (jammer_jam (Jammer := NockJammer mug_of_key dead) head);
      cold_jam ← or_panic (jammer_jam (Jammer := NockJammer mug_of_key dead) tail);
      Ok (V2_new (v0_ker_hash v0) (v0_event_num v0) cold_jam state_jam)
  end.

Inductive LoadedCheckpoint := LoadedV2 (c : JammedCheckpointV2) | LoadedV1 (c : JammedCheckpointV1).
Definition event_num (c : LoadedCheckpoint) : Z :=
  match c with LoadedV2 c => v2_event_num c | LoadedV1 c => v1_event_num c end.

Definition load_checkpoint_file (d : Disk) (w : WhichSnapshot) : checked LoadedCheckpoint :=
  match V2_load_from_file d w with
  | Ok cp => Ok (LoadedV2 cp)
  | Panic => Panic
  | Err e_v2 =>
      match V1_load_from_file d w with
      | Ok cp => Ok (LoadedV1 cp)
      | Panic => Panic
      | Err e_v1 =>
          match V0_load_from_file d w with
          | Ok cp0 => cp ← from_V0 cp0; Ok (LoadedV2 cp)
          | Panic => Panic
          | Err e_v0 => Err (VersionsFailedV2 e_v2 e_v1 e_v0)
          end
      end
  end.

(** * From and to nouns *)

Definition to_jammed_checkpoint (s : SaveableCheckpoint) : checked JammedCheckpointV2 :=
  state_jam ← or_panic (jammer_jam (sc_state s));
  cold_jam ← or_panic (jammer_jam (sc_cold s));
  Ok (V2_new (sc_ker_hash s) (sc_event_num s) cold_jam state_jam).

Definition from_jammed_checkpoint_v1 (c : JammedCheckpointV1) : checked SaveableCheckpoint :=
  root ← cue_into (v1_jam c);
  match root with
  | NAtom _ => Panic
  | NCell head tail =>
      Ok {| sc_ker_hash := v1_ker_hash c; sc_event_num := v1_event_num c; sc_state := head; sc_cold := tail |}
  end.
Definition from_jammed_checkpoint_v2 (c : JammedCheckpointV2) : checked SaveableCheckpoint :=
  state_root ← cue_into (v2_state_jam c);
  cold_root ← cue_into (v2_cold_jam c);
  Ok {| sc_ker_hash := v2_ker_hash c; sc_event_num := v2_event_num c; sc_state := state_root; sc_cold := cold_root |}.
Definition into_saveable (c : LoadedCheckpoint) : checked SaveableCheckpoint :=
  match c with LoadedV2 c => from_jammed_checkpoint_v2 c | LoadedV1 c => from_jammed_checkpoint_v1 c end.

(** * The saver *)

(** A waiter is an event number and the sender to notify. *)
Record Saver := { save_to_next : WhichSnapshot; waiters : list (Z * nat); last_event_num : Z }.

Definition new_empty : Saver := {| save_to_next := Snapshot0; waiters := []; last_event_num := 0 |}.
Definition last_path (s : Saver) : WhichSnapshot :=
  match save_to_next s with Snapshot1 => Snapshot0 | Snapshot0 => Snapshot1 end.
Definition next_path (s : Saver) : WhichSnapshot :=
  match save_to_next s with Snapshot1 => Snapshot1 | Snapshot0 => Snapshot0 end.

(** [true]: the future is ready. *)
Definition wait_for_snapshot (s : Saver) (wait_for_event_num : Z) (tx : nat) : Saver * bool :=
  if wait_for_event_num <=? last_event_num s then (s, true)
  else ({| save_to_next := save_to_next s; waiters := waiters s ++ [(wait_for_event_num, tx)]; last_event_num := last_event_num s |}, false).
Definition save_needed (s : Saver) (event_num : Z) : bool := last_event_num s <? event_num.

Definition exists_file (d : Disk) (w : WhichSnapshot) : bool := match read d w with Some _ => true | None => false end.

Definition try_load (d : Disk) : checked (Saver * option SaveableCheckpoint) :=
  if negb (exists_file d Snapshot0) && negb (exists_file d Snapshot1) then
    Ok ({| save_to_next := Snapshot0; waiters := []; last_event_num := 0 |}, None)
  else
    let checkpoint_0 := load_checkpoint_file d Snapshot0 in
    let checkpoint_1 := load_checkpoint_file d Snapshot1 in
    '(loaded_checkpoint, save_to_next) ←
      match checkpoint_0, checkpoint_1 with
      | Panic, _ | _, Panic => Panic
      | Ok c0, Ok c1 => if event_num c1 <? event_num c0 then Ok (c0, Snapshot1) else Ok (c1, Snapshot0)
      | Ok c0, Err _ => Ok (c0, Snapshot1)
      | Err _, Ok c1 => Ok (c1, Snapshot0)
      | Err e0, Err e1 => Err (BothCheckpointsFailed e0 e1)
      end;
    let last_event_num := event_num loaded_checkpoint in
    saveable ← into_saveable loaded_checkpoint;
    Ok ({| save_to_next := save_to_next; waiters := []; last_event_num := last_event_num |}, Some saveable).

(** What [tokio::fs::write] does: all bytes are written, or it fails, with the file
    untouched or truncated and some of the bytes written. *)
Inductive WriteResult := Written | WriteFailed (left : option nat).

(** The loop over the waiters: the ones still waiting and the notified senders *)
Fixpoint drain (event_num : Z) (ws : list (Z * nat)) : list (Z * nat) * list nat :=
  match ws with
  | [] => ([], [])
  | (waiting_event_num, waiter) :: ws =>
      let '(still_waiting, sent) := drain event_num ws in
      if waiting_event_num <=? event_num then (still_waiting, waiter :: sent)
      else ((waiting_event_num, waiter) :: still_waiting, sent)
  end.

(** The file as [fs::write] leaves it *)
Definition save_to_file (d : Disk) (w : WhichSnapshot) (bytes : list Z) (r : WriteResult) : Disk :=
  match r with
  | Written => write d w bytes
  | WriteFailed None => d
  | WriteFailed (Some k) => write d w (take k bytes)
  end.

(** The result, the saver, the disk and the notified senders *)
Definition Saver_save (s : Saver) (d : Disk) (checkpoint : SaveableCheckpoint) (r : WriteResult) : checked unit * Saver * Disk * list nat :=
  let event_num := sc_event_num checkpoint in
  match to_jammed_checkpoint checkpoint with
  | Ok jammed =>
      let d := save_to_file d (next_path s) (V2_encode jammed) r in
      match r with
      | WriteFailed _ => (Err IOError, s, d, [])
      | Written =>
          let '(still_waiting, sent) := drain event_num (waiters s) in
          (Ok (), {| save_to_next := next (save_to_next s); waiters := still_waiting; last_event_num := event_num |}, d, sent)
      end
  | Err e => (Err e, s, d, [])
  | Panic => (Panic, s, d, [])
  end.
End legacy.
End saver.
