(* ===== verification/SaverTheorems.v ===== *)
(** Theorems on checkpoints: a file that was written completely loads as the checkpoint
    that was saved, one that was not does not load, and so the two files always hold
    the last completely saved checkpoint. *)
From stdpp Require Import base option list numbers gmap relations.
From Stdlib Require Import ZArith Lia.
From S2P Require Import Prelude Noun Interp Hamt HamtTheorems Serialization SerializationTheorems Belt Vec Poly BPoly Tip5 NounSerde Mug Slab SlabTheorems Saver.
Local Open Scope Z_scope.

(** * Reading a noun out of the heap *)

Fixpoint ndepth (n : noun) : nat :=
  match n with NAtom _ => O | NCell h t => S (Nat.max (ndepth h) (ndepth t)) end.

Lemma read_noun_deep h v n d : reads h v n -> (ndepth n <= d)%nat -> read_noun d h v = Some n.
Proof.
  intros H. revert d. induction H as [a|p c vh vt hn tn Hp Hh Ht _ IHh _ IHt]; intros d Hd; [by destruct d|].
  cbn [ndepth] in Hd. destruct d as [|d]; [lia|]. cbn [read_noun]. rewrite Hp. cbn [mbind option_bind]. rewrite Hh, Ht. cbn [mbind option_bind].
  rewrite IHh, IHt by lia. done.
Qed.

(** The cells on a longest path are different ones. *)
Lemma reads_path h v n :
  reads h v n -> exists ps, length ps = ndepth n /\ NoDup ps /\
    forall p, p ∈ ps -> (p < length h)%nat /\ exists n', reads h (VCell p) n' /\ (noun_nodes n' <= noun_nodes n)%nat.
Proof.
  induction 1 as [a|p c vh vt hn tn Hp Hh Ht Rh IHh Rt IHt]; [exists []; split_and!; [done|constructor|by intros p Hp%not_elem_of_nil]|].
  assert (Rc : reads h (VCell p) (NCell hn tn)) by (by eapply reads_cell).
  assert (Hdeep : exists x ps, ndepth (NCell hn tn) = S (ndepth x) /\ (noun_nodes x < noun_nodes (NCell hn tn))%nat /\ length ps = ndepth x /\ NoDup ps /\
    forall q, q ∈ ps -> (q < length h)%nat /\ exists n', reads h (VCell q) n' /\ (noun_nodes n' <= noun_nodes x)%nat).
  { cbn [ndepth noun_nodes]. destruct (Nat.max_spec (ndepth hn) (ndepth tn)) as [[_ ->]|[_ ->]];
      [destruct IHt as (ps & H)|destruct IHh as (ps & H)]; [exists tn, ps|exists hn, ps]; split; [done|split; [lia|done]|done|split; [lia|done]]. }
  destruct Hdeep as (x & ps & Hd & Hsz & Hlen & Hnd & Hps). exists (p :: ps). split_and!; [cbn [length]; lia| |].
  - constructor; [|done]. intros (_ & n' & Rn' & Hle)%Hps. rewrite (reads_fun h _ _ _ Rn' Rc) in Hle. lia.
  - intros q [->|Hq]%elem_of_cons; [split; [by apply lookup_lt_Some in Hp|by exists (NCell hn tn)]|].
    destruct (Hps q Hq) as (Hlt & n' & Rn' & Hle). split; [done|]. exists n'. split; [done|lia].
Qed.

Lemma read_noun_reads h v n : reads h v n -> read_noun (length h) h v = Some n.
Proof.
  intros H. apply read_noun_deep; [done|]. destruct (reads_path h v n H) as (ps & <- & Hnd & Hps).
  cut (length ps <= length (seq 0 (length h)))%nat; [by rewrite length_seq|].
  apply submseteq_length, NoDup_submseteq; [done|]. intros p [Hp _]%Hps. apply elem_of_seq. lia.
Qed.

(** * What the saver needs of a jammer and of bincode *)

Definition valid_bytes (bs : list Z) : Prop := Forall byte bs /\ Z.of_nat (length bs) < U64.

(** Slabs are read by [NockJammer] whatever the jammer of the saver. *)
Class JammerLaws (J : Jammer) := {
  storable : noun -> Prop;
  jam_storable n : storable n -> exists bs, jammer_jam (Jammer := J) n = Some bs /\ valid_bytes bs /\ NockJammer_cue bs = Ok n;
}.

Lemma nock_cue_jam mug_of_key dead n :
  jammable n -> exists bs, slab_jam mug_of_key dead n = Some bs /\ valid_bytes bs /\ NockJammer_cue bs = Ok n.
Proof.
  intros Hn. pose proof Hn as (Hwf & Hsz & Hlen). destruct (view_raw_slice dead (encoding n)) as (pad & Hview & Hpad).
  exists (as_raw_slice dead (encoding n)). split_and!.
  - unfold slab_jam. by rewrite slab_jam_bits_spec by (done || width; lia).
  - split; [apply bits_bytes_range|]. pose proof (view_bits_length (as_raw_slice dead (encoding n))) as Hl.
    rewrite Hview in Hl. unfold bit_len in Hl. rewrite length_app in Hl. width. lia.
  - destruct (slab_cue_encoding n pad Hn Hpad) as (v & h & Ecue & Hr). unfold NockJammer_cue, slab_cue. rewrite Hview.
    rewrite Ecue. by rewrite (read_noun_reads h v n Hr).
Qed.

#[export] Instance NockJammer_laws mug_of_key dead : JammerLaws (NockJammer mug_of_key dead).
Proof. refine {| storable := jammable |}. intros n. apply nock_cue_jam. Defined.

(** Decoding undoes encoding, and does not look beyond what it consumes. *)
Record lawful {A} (P : A -> Prop) (c : Codec A) : Prop := {
  dec_enc a r : P a -> dec c (enc c a ++ r) = Some (a, r);
  dec_more bs a r s : dec c bs = Some (a, r) -> dec c (bs ++ s) = Some (a, r ++ s);
  enc_bytes a : P a -> Forall byte (enc c a);
}.
Arguments dec_enc {A P c}.
Arguments dec_more {A P c}.
Arguments enc_bytes {A P c}.

Class BincodeLaws (Hash : Type) `{!Bincode Hash} := {
  u64_lawful : lawful is_u64 u64_codec;
  u32_lawful : lawful is_u32 u32_codec;
  bool_lawful : lawful (fun _ => True) bool_codec;
  hash_lawful : lawful (fun _ => True) (hash_codec (Hash := Hash));
  vec_lawful : lawful valid_bytes vec_codec;
  jam_lawful : lawful valid_bytes jam_codec;
}.

(** * Formats *)

(** The next field of a struct is read back. *)
Ltac field law := rewrite (dec_enc law) by done; cbn [mbind option_bind].

Section formats.
Context {Hash : Type} `{!EqDecision Hash} (blake3 : list Z -> Hash).
Context `{!Bincode Hash, !BincodeLaws Hash}.
Context (mug_of_key : noun -> Z) (dead : noun -> list bool).
Notation loads := (load_checkpoint_file blake3 mug_of_key dead).

Definition v2_ok (c : JammedCheckpointV2 (Hash := Hash)) : Prop :=
  is_u64 (v2_event_num c) /\ valid_bytes (v2_cold_jam c) /\ valid_bytes (v2_state_jam c) /\
  Z.of_nat (length (V2_encode_payload c)) < U64.

Lemma payload_roundtrip c r : v2_ok c -> V2_decode_payload (V2_encode_payload c ++ r) = Some (c, r).
Proof.
  intros (He & Hc & Hs & _). unfold V2_decode_payload, V2_encode_payload.
  rewrite <- !app_assoc. field hash_lawful.
  field hash_lawful. field u64_lawful.
  field jam_lawful. rewrite (dec_enc jam_lawful) by done. by destruct c.
Qed.

Lemma payload_valid c : v2_ok c -> valid_bytes (V2_encode_payload c).
Proof.
  intros (He & Hc & Hs & Hl). split; [|done]. unfold V2_encode_payload.
  repeat apply Forall_app_2; [apply (enc_bytes hash_lawful)|apply (enc_bytes hash_lawful)|apply (enc_bytes u64_lawful)|apply (enc_bytes jam_lawful)..]; done.
Qed.

Definition envelope (c : JammedCheckpointV2 (Hash := Hash)) : JammedCheckpointV2Envelope :=
  {| env_magic_bytes := JAM_MAGIC_BYTES; env_version := SNAPSHOT_VERSION_2; env_payload := V2_encode_payload c |}.

Lemma V2_encode_envelope c : V2_encode c = Envelope_encode (envelope c).
Proof. done. Qed.

(** The header that all formats share *)
Lemma header_roundtrip c r :
  dec u64_codec (V2_encode c ++ r) = Some (JAM_MAGIC_BYTES, enc u32_codec SNAPSHOT_VERSION_2 ++ enc vec_codec (V2_encode_payload c) ++ r) /\
  dec u32_codec (enc u32_codec SNAPSHOT_VERSION_2 ++ enc vec_codec (V2_encode_payload c) ++ r) = Some (SNAPSHOT_VERSION_2, enc vec_codec (V2_encode_payload c) ++ r).
Proof.
  rewrite V2_encode_envelope. unfold Envelope_encode, envelope. cbn [env_magic_bytes env_version env_payload]. rewrite <- !app_assoc.
  split; [by rewrite (dec_enc u64_lawful)|by rewrite (dec_enc u32_lawful)].
Qed.

Lemma envelope_roundtrip c r : v2_ok c -> Envelope_decode (V2_encode c ++ r) = Some (envelope c, r).
Proof.
  intros Hc. unfold Envelope_decode. destruct (header_roundtrip c r) as [-> Hv]. cbn [mbind option_bind]. rewrite Hv. cbn [mbind option_bind].
  by rewrite (dec_enc vec_lawful) by (by apply payload_valid).
Qed.

Lemma envelope_more bs e r s : Envelope_decode bs = Some (e, r) -> Envelope_decode (bs ++ s) = Some (e, r ++ s).
Proof.
  unfold Envelope_decode. destruct (dec u64_codec bs) as [[m b1]|] eqn:E1; cbn [mbind option_bind]; [|done].
  rewrite (dec_more u64_lawful _ _ _ s E1). cbn [mbind option_bind].
  destruct (dec u32_codec b1) as [[v b2]|] eqn:E2; cbn [mbind option_bind]; [|done].
  rewrite (dec_more u32_lawful _ _ _ s E2). cbn [mbind option_bind].
  destruct (dec vec_codec b2) as [[p b3]|] eqn:E3; cbn [mbind option_bind]; [|done].
  rewrite (dec_more vec_lawful _ _ _ s E3). cbn [mbind option_bind]. by intros [= <- <-].
Qed.

(** ** A file that was written completely *)

Lemma full_loads c d w :
  v2_ok c -> v2_checksum c = checksum_v2 blake3 (v2_event_num c) (v2_cold_jam c) (v2_state_jam c) ->
  read d w = Some (V2_encode c) -> loads d w = Ok (LoadedV2 c).
Proof.
  intros Hc Hsum Hr. unfold load_checkpoint_file, V2_load_from_file. rewrite Hr. cbn [or_err mbind outcome_bind].
  rewrite <- (app_nil_r (V2_encode c)), (envelope_roundtrip c [] Hc). cbn [or_err mbind outcome_bind].
  unfold from_envelope, envelope. cbn [env_magic_bytes env_version env_payload]. rewrite !Z.eqb_refl. cbn [negb].
  rewrite <- (app_nil_r (V2_encode_payload c)), (payload_roundtrip c [] Hc). cbn [or_err mbind outcome_bind].
  unfold V2_validate. by rewrite decide_True.
Qed.

(** ** A file of which only a part was written *)

Lemma torn_header c k m v b1 b2 :
  dec u64_codec (take k (V2_encode c)) = Some (m, b1) -> dec u32_codec b1 = Some (v, b2) -> v = SNAPSHOT_VERSION_2.
Proof.
  intros E1 E2. destruct (header_roundtrip c []) as [H1 H2]. rewrite app_nil_r in H1.
  pose proof (dec_more u64_lawful _ _ _ (drop k (V2_encode c)) E1) as E1'. rewrite take_drop, H1 in E1'. injection E1' as <- Hb.
  pose proof (dec_more u32_lawful _ _ _ (drop k (V2_encode c)) E2) as E2'. rewrite <- Hb, H2 in E2'. by injection E2'.
Qed.

Lemma torn_V1 c k d w : read d w = Some (take k (V2_encode c)) -> exists e, V1_load_from_file blake3 d w = Err e.
Proof.
  intros Hr. unfold V1_load_from_file. rewrite Hr. cbn [or_err mbind outcome_bind]. unfold V1_decode.
  destruct (dec u64_codec _) as [[m b1]|] eqn:E1; cbn [or_err mbind option_bind outcome_bind]; [|by eexists].
  destruct (dec u32_codec b1) as [[v b2]|] eqn:E2; cbn [or_err mbind option_bind outcome_bind]; [|by eexists].
  rewrite (torn_header c k m v b1 b2 E1 E2). 
  repeat (match goal with |- context [dec ?x ?y] => destruct (dec x y) as [[? ?]|] end; cbn [or_err mbind option_bind outcome_bind]; [|by eexists]).
  by eexists.
Qed.

Lemma torn_V0 c k d w : read d w = Some (take k (V2_encode c)) -> exists e, V0_load_from_file blake3 d w = Err e.
Proof.
  intros Hr. unfold V0_load_from_file. rewrite Hr. cbn [or_err mbind outcome_bind]. unfold V0_decode.
  destruct (dec u64_codec _) as [[m b1]|] eqn:E1; cbn [or_err mbind option_bind outcome_bind]; [|by eexists].
  destruct (dec u32_codec b1) as [[v b2]|] eqn:E2; cbn [or_err mbind option_bind outcome_bind]; [|by eexists].
  rewrite (torn_header c k m v b1 b2 E1 E2).
  repeat (match goal with |- context [dec ?x ?y] => destruct (dec x y) as [[? ?]|] end; cbn [or_err mbind option_bind outcome_bind]; [|by eexists]).
  by eexists.
Qed.

Lemma torn_fails c k d w :
  v2_ok c -> (k < length (V2_encode c))%nat -> read d w = Some (take k (V2_encode c)) -> exists e, loads d w = Err e.
Proof.
  intros Hc Hk Hr. unfold load_checkpoint_file. destruct (torn_V1 c k d w Hr) as [e1 ->]. destruct (torn_V0 c k d w Hr) as [e0 ->].
  unfold V2_load_from_file. rewrite Hr. cbn [or_err mbind outcome_bind].
  destruct (Envelope_decode (take k (V2_encode c))) as [[e r]|] eqn:E; cbn [or_err mbind outcome_bind]; [|by eexists]. exfalso.
  apply (envelope_more _ _ _ (drop k (V2_encode c))) in E. rewrite take_drop in E.
  pose proof (envelope_roundtrip c [] Hc) as Hfull. rewrite app_nil_r, E in Hfull. injection Hfull as _ Hnil.
  apply (f_equal length) in Hnil. rewrite length_app, length_drop in Hnil. cbn in Hnil. lia.
Qed.

Lemma missing_fails d w : read d w = None -> exists e, loads d w = Err e.
Proof.
  intros Hr. unfold load_checkpoint_file, V2_load_from_file, V1_load_from_file, V0_load_from_file. rewrite Hr. by eexists.
Qed.
End formats.

(** * Histories *)

Section history.
Context {Hash : Type} `{!EqDecision Hash} (blake3 : list Z -> Hash).
Context `{!Bincode Hash, !BincodeLaws Hash} (J : Jammer) `{!JammerLaws J}.
Context (mug_of_key : noun -> Z) (dead : noun -> list bool).
Notation loads := (load_checkpoint_file blake3 mug_of_key dead).
Notation boots := (try_load blake3 mug_of_key dead).
Notation saves := (Saver_save blake3 J).
Notation checkpoint := (SaveableCheckpoint (Hash := Hash)).

(** A checkpoint that fits its encoding *)
Definition fits (s : checkpoint) : Prop :=
  is_u64 (sc_event_num s) /\ storable (sc_state s) /\ storable (sc_cold s) /\
  forall c, to_jammed_checkpoint blake3 J s = Ok c -> Z.of_nat (length (V2_encode_payload c)) < U64.

Lemma fits_jams s : fits s -> exists c, to_jammed_checkpoint blake3 J s = Ok c /\ v2_ok c /\ v2_event_num c = sc_event_num s /\
  v2_checksum c = checksum_v2 blake3 (v2_event_num c) (v2_cold_jam c) (v2_state_jam c) /\ into_saveable (LoadedV2 c) = Ok s.
Proof.
  intros (He & Hs & Hc & Hl). unfold to_jammed_checkpoint in *.
  destruct (jam_storable (sc_state s) Hs) as (sj & Es & Vs & Cs). destruct (jam_storable (sc_cold s) Hc) as (cj & Ec & Vc & Cc).
  rewrite Es, Ec in *. cbn [or_panic mbind outcome_bind] in *. eexists. split; [done|]. specialize (Hl _ eq_refl).
  split_and!; try done. unfold into_saveable, from_jammed_checkpoint_v2, cue_into, V2_new. cbn.
  rewrite Cs. cbn. rewrite Cc. by destruct s.
Qed.

(** The state of the world: the files, the saver while the process runs, and the
    checkpoints whose bytes were all written, newest first *)
Record World := { disk : Disk; running : option Saver; log : list checkpoint }.

(** A write is cut short after fewer bytes than there are. *)
Definition cut (s : checkpoint) (left : option nat) : Prop :=
  forall k c, left = Some k -> to_jammed_checkpoint blake3 J s = Ok c -> (k < length (V2_encode c))%nat.

Inductive step : World -> World -> Prop :=
  | step_save d sv l s sv' d' sent :
      fits s -> last_event_num sv <= sc_event_num s -> saves sv d s Written = (Ok (), sv', d', sent) ->
      step {| disk := d; running := Some sv; log := l |} {| disk := d'; running := Some sv'; log := s :: l |}
  | step_save_failed d sv l s left sv' d' sent :
      fits s -> cut s left -> saves sv d s (WriteFailed left) = (Err IOError, sv', d', sent) ->
      step {| disk := d; running := Some sv; log := l |} {| disk := d'; running := Some sv'; log := l |}
  | step_crash_in_save d sv l s left sv' d' sent :
      fits s -> cut s left -> saves sv d s (WriteFailed left) = (Err IOError, sv', d', sent) ->
      step {| disk := d; running := Some sv; log := l |} {| disk := d'; running := None; log := l |}
  | step_crash_after_write d sv l s sv' d' sent :
      fits s -> last_event_num sv <= sc_event_num s -> saves sv d s Written = (Ok (), sv', d', sent) ->
      step {| disk := d; running := Some sv; log := l |} {| disk := d'; running := None; log := s :: l |}
  | step_crash d sv l : step {| disk := d; running := Some sv; log := l |} {| disk := d; running := None; log := l |}
  | step_boot d l sv o : boots d = Ok (sv, o) ->
      step {| disk := d; running := None; log := l |} {| disk := d; running := Some sv; log := l |}
  | step_wait d sv l n tx :
      step {| disk := d; running := Some sv; log := l |} {| disk := d; running := Some (fst (wait_for_snapshot sv n tx)); log := l |}.

(** No file yet, or files that load *)
Inductive started : World -> Prop :=
  | started_empty : started {| disk := {| file_0 := None; file_1 := None |}; running := Some new_empty; log := [] |}
  | started_loaded d sv s : boots d = Ok (sv, Some s) -> started {| disk := d; running := Some sv; log := [s] |}.

(** ** The invariant *)

(** [c] is a newest complete checkpoint and in file [w]. *)
Record newest (d : Disk) (l : list checkpoint) (w : WhichSnapshot) (c : LoadedCheckpoint (Hash := Hash)) : Prop := {
  nw_loads : loads d w = Ok c;
  nw_logged : exists s, into_saveable c = Ok s /\ s ∈ l;
  nw_latest s : s ∈ l -> sc_event_num s <= event_num c;
  nw_other : match loads d (next w) with
             | Err _ => True
             | Panic => False
             | Ok c' => event_num c' < event_num c \/
                 (event_num c' = event_num c /\ (w = Snapshot1 \/ exists s, into_saveable c' = Ok s /\ s ∈ l))
             end;
}.

Definition at_file (r : option Saver) (w : WhichSnapshot) (e : Z) : Prop :=
  forall sv, r = Some sv -> save_to_next sv = next w /\ last_event_num sv = e.

Definition safe (w : World) : Prop :=
  (forall sv, running w = Some sv -> Forall (fun x => last_event_num sv < fst x) (waiters sv)) /\
  match log w with
  | [] => file_1 (disk w) = None /\ (exists e, loads (disk w) Snapshot0 = Err e) /\
          forall sv, running w = Some sv -> save_to_next sv = Snapshot0
  | l => exists f c, newest (disk w) l f c /\ at_file (running w) f (event_num c)
  end.

Lemma into_saveable_event (c : LoadedCheckpoint (Hash := Hash)) s : into_saveable c = Ok s -> sc_event_num s = event_num c.
Proof.
  destruct c as [c|c]; cbn; [unfold from_jammed_checkpoint_v2|unfold from_jammed_checkpoint_v1].
  - destruct (cue_into (v2_state_jam c)); cbn; try done. destruct (cue_into (v2_cold_jam c)); cbn; try done. by intros [= <-].
  - destruct (cue_into (v1_jam c)) as [[|]| |]; cbn; try done. by intros [= <-].
Qed.

Lemma drain_spec e ws :
  fst (drain e ws) = filter (fun x => e < fst x) ws /\ snd (drain e ws) = (filter (fun x => fst x <= e) ws).*2.
Proof.
  induction ws as [|[n tx] ws [IH1 IH2]]; [done|]. cbn [drain]. destruct (drain e ws) as [still sent]. cbn [fst snd] in *.
  rewrite !filter_cons. cbn [fst]. subst still sent.
  destruct (Z.leb_spec n e); rewrite ?decide_True, ?decide_False by (cbn; lia); rewrite ?decide_False, ?decide_True by (cbn; lia); done.
Qed.

Lemma next_next w : next (next w) = w.
Proof. by destruct w. Qed.
Lemma read_write d w bs : read (write d w bs) w = Some bs.
Proof. by destruct w. Qed.
Lemma loads_other d w w' bs : w' <> w -> loads (write d w bs) w' = loads d w'.
Proof. by destruct w, w'. Qed.
Lemma next_path_next sv : next_path sv = save_to_next sv.
Proof. unfold next_path. by destruct (save_to_next sv). Qed.

(** ** Saving *)

Lemma save_written sv d s sv' d' sent :
  fits s -> saves sv d s Written = (Ok (), sv', d', sent) ->
  exists c, d' = write d (save_to_next sv) (V2_encode c) /\ v2_ok c /\ v2_event_num c = sc_event_num s /\
    v2_checksum c = checksum_v2 blake3 (v2_event_num c) (v2_cold_jam c) (v2_state_jam c) /\ into_saveable (LoadedV2 c) = Ok s /\
    sv' = {| save_to_next := next (save_to_next sv); waiters := filter (fun x => sc_event_num s < fst x) (waiters sv); last_event_num := sc_event_num s |}.
Proof.
  intros Hf H. destruct (fits_jams s Hf) as (c & Ec & Hok & He & Hsum & Hback). exists c. unfold Saver_save in H. rewrite Ec, next_path_next in H.
  pose proof (drain_spec (sc_event_num s) (waiters sv)) as [Hd _]. destruct (drain (sc_event_num s) (waiters sv)) as [still st]. cbn [fst] in Hd. subst still.
  injection H as <- <- <-. by split_and!.
Qed.

Lemma save_cut sv d s left sv' d' sent :
  fits s -> cut s left -> saves sv d s (WriteFailed left) = (Err IOError, sv', d', sent) ->
  sv' = sv /\ (d' = d \/ exists k c, d' = write d (save_to_next sv) (take k (V2_encode c)) /\ v2_ok c /\ (k < length (V2_encode c))%nat).
Proof.
  intros Hf Hcut H. destruct (fits_jams s Hf) as (c & Ec & Hok & _). unfold Saver_save in H. rewrite Ec, next_path_next in H.
  injection H as <- <- <-. split; [done|]. destruct left as [k|]; [right|by left]. exists k, c. split_and!; [done..|]. by apply Hcut.
Qed.

(** The other file is written, so the newest checkpoint stays until the new one is complete. *)
Lemma newest_written d l f c s cs :
  newest d l f c -> event_num c <= sc_event_num s ->
  v2_ok cs -> v2_event_num cs = sc_event_num s -> v2_checksum cs = checksum_v2 blake3 (v2_event_num cs) (v2_cold_jam cs) (v2_state_jam cs) ->
  into_saveable (LoadedV2 cs) = Ok s ->
  newest (write d (next f) (V2_encode cs)) (s :: l) (next f) (LoadedV2 cs).
Proof.
  intros [N1 (s1 & Hs1 & Hin) N3 _] Hle Hok He Hsum Hback. split.
  - apply full_loads; [done..|]. apply read_write.
  - exists s. split; [done|by constructor].
  - cbn [event_num]. rewrite He. intros s' [->|Hs']%elem_of_cons; [lia|]. specialize (N3 s' Hs'). lia.
  - rewrite next_next, loads_other by (by destruct f). rewrite N1. cbn [event_num]. rewrite He.
    destruct (Z.eq_dec (event_num c) (sc_event_num s)); [|left; lia]. right. split; [done|]. right. exists s1. split; [done|by constructor].
Qed.

Lemma newest_first d s cs :
  file_1 d = None ->
  v2_ok cs -> v2_event_num cs = sc_event_num s -> v2_checksum cs = checksum_v2 blake3 (v2_event_num cs) (v2_cold_jam cs) (v2_state_jam cs) ->
  into_saveable (LoadedV2 cs) = Ok s ->
  newest (write d Snapshot0 (V2_encode cs)) [s] Snapshot0 (LoadedV2 cs).
Proof.
  intros Hd Hok He Hsum Hback. split.
  - apply full_loads; [done..|]. apply (read_write d Snapshot0).
  - exists s. split; [done|by constructor].
  - intros s' ->%list_elem_of_singleton. cbn [event_num]. lia.
  - destruct (missing_fails blake3 mug_of_key dead (write d Snapshot0 (V2_encode cs)) (next Snapshot0)) as [e ->]; [exact Hd|done].
Qed.

Lemma newest_torn d l f c k cs :
  newest d l f c -> v2_ok cs -> (k < length (V2_encode cs))%nat -> newest (write d (next f) (take k (V2_encode cs))) l f c.
Proof.
  intros [N1 N2 N3 _] Hok Hk. split; [rewrite loads_other by (by destruct f); done|done|done|].
  destruct (torn_fails blake3 mug_of_key dead cs k (write d (next f) (take k (V2_encode cs))) (next f)) as [e ->]; [done|done|apply read_write|done].
Qed.

(** ** Loading *)

Lemma boot_choice d f c :
  loads d f = Ok c ->
  exists_file d Snapshot0 || exists_file d Snapshot1 = true.
Proof.
  intros H. destruct (exists_file d Snapshot0) eqn:E0; [done|]. destruct (exists_file d Snapshot1) eqn:E1; [done|]. exfalso.
  unfold exists_file in *. destruct (read d Snapshot0) eqn:R0; [done|]. destruct (read d Snapshot1) eqn:R1; [done|].
  destruct f; [destruct (missing_fails blake3 mug_of_key dead d Snapshot0 R0)|destruct (missing_fails blake3 mug_of_key dead d Snapshot1 R1)]; congruence.
Qed.

Definition saver_at (f : WhichSnapshot) (c : LoadedCheckpoint (Hash := Hash)) : Saver :=
  {| save_to_next := next f; waiters := []; last_event_num := event_num c |}.

Lemma newest_boots d l f c :
  newest d l f c -> exists f' c' s, newest d l f' c' /\ event_num c' = event_num c /\ into_saveable c' = Ok s /\ s ∈ l /\
    boots d = Ok (saver_at f' c', Some s).
Proof.
  intros N. pose proof N as [N1 (s & Hs & Hin) N3 N4]. pose proof (boot_choice d f c N1) as Hex.
  assert (Hboot : boots d = match loads d Snapshot0, loads d Snapshot1 with
    | Panic, _ | _, Panic => Panic
    | Ok c0, Ok c1 => if event_num c1 <? event_num c0 then (s ← into_saveable c0; Ok (saver_at Snapshot0 c0, Some s)) else (s ← into_saveable c1; Ok (saver_at Snapshot1 c1, Some s))
    | Ok c0, Err _ => s ← into_saveable c0; Ok (saver_at Snapshot0 c0, Some s)
    | Err _, Ok c1 => s ← into_saveable c1; Ok (saver_at Snapshot1 c1, Some s)
    | Err e0, Err e1 => Err (BothCheckpointsFailed e0 e1) end).
  { unfold try_load. replace (negb (exists_file d Snapshot0) && negb (exists_file d Snapshot1)) with false
      by (rewrite <- negb_orb, Hex; done).
    destruct (loads d Snapshot0) as [c0|e0|], (loads d Snapshot1) as [c1|e1|]; try done. by destruct (event_num c1 <? event_num c0). }
  assert (Hkeep : boots d = Ok (saver_at f c, Some s) -> exists f' c' s, newest d l f' c' /\ event_num c' = event_num c /\ into_saveable c' = Ok s /\ s ∈ l /\
    boots d = Ok (saver_at f' c', Some s)) by (intros E; exists f, c, s; by split_and!).
  destruct f; cbn [next] in N4; rewrite N1 in Hboot.
  - destruct (loads d Snapshot1) as [c1|e1|] eqn:E1; [|apply Hkeep; rewrite Hboot, Hs; done|done].
    destruct (Z.ltb_spec (event_num c1) (event_num c)); [apply Hkeep; rewrite Hboot, Hs; done|].
    destruct N4 as [|[Heq [|(s1 & Hs1 & Hin1)]]]; [lia|done|]. exists Snapshot1, c1, s1. split_and!; [|done..|by rewrite Hboot, Hs1].
    split; [done|eauto|rewrite Heq; done|]. cbn [next]. rewrite N1. right. split; [done|by left].
  - destruct (loads d Snapshot0) as [c0|e0|] eqn:E0; [|apply Hkeep; rewrite Hboot, Hs; done|done].
    destruct (Z.ltb_spec (event_num c) (event_num c0)); [exfalso; destruct N4 as [|[? _]]; lia|]. apply Hkeep. by rewrite Hboot, Hs.
Qed.

Lemma started_safe w : started w -> safe w.
Proof.
  destruct 1 as [|d sv s H].
  - split; cbn; [intros sv [= <-]; constructor|]. split_and!; [done| |by intros sv [= <-]].
    by eexists.
  - unfold try_load in H. destruct (_ && _); [done|].
    assert (Hin : forall f c, loads d f = Ok c -> into_saveable c = Ok s -> sv = saver_at f c ->
      match loads d (next f) with Err _ => True | Panic => False | Ok c' => event_num c' < event_num c \/ (event_num c' = event_num c /\ f = Snapshot1) end ->
      safe {| disk := d; running := Some sv; log := [s] |}).
    { intros f c Hl Hs -> Ho. split; cbn; [intros sv [= <-]; constructor|]. exists f, c. split; [|intros sv [= <-]; done].
      split; [done|exists s; split; [done|constructor]| |].
      - intros s' ->%list_elem_of_singleton. rewrite (into_saveable_event c s Hs). lia.
      - destruct (loads d (next f)); try done. destruct Ho as [|[? ?]]; auto. }
    destruct (loads d Snapshot0) as [c0|e0|] eqn:E0, (loads d Snapshot1) as [c1|e1|] eqn:E1; cbn [mbind outcome_bind] in H; try done.
    + destruct (Z.ltb_spec (event_num c1) (event_num c0)); cbn [mbind outcome_bind] in H; apply bind_Ok in H as (s' & Hs & [= <- ->]).
      * apply (Hin Snapshot0 c0); try done. cbn [next]. rewrite E1. by left.
      * apply (Hin Snapshot1 c1); try done. cbn [next]. rewrite E0. destruct (Z.eq_dec (event_num c0) (event_num c1)); [by right|left; lia].
    + apply bind_Ok in H as (s' & Hs & [= <- ->]). apply (Hin Snapshot0 c0); try done. cbn [next]. by rewrite E1.
    + apply bind_Ok in H as (s' & Hs & [= <- ->]). apply (Hin Snapshot1 c1); try done. cbn [next]. by rewrite E0.
Qed.

Lemma written_safe d sv l s sv' d' sent (r : option Saver) :
  safe {| disk := d; running := Some sv; log := l |} -> fits s -> last_event_num sv <= sc_event_num s ->
  saves sv d s Written = (Ok (), sv', d', sent) -> (r = None \/ r = Some sv') ->
  safe {| disk := d'; running := r; log := s :: l |}.
Proof.
  intros [Hw Hl] Hf Hle H Hr. destruct (save_written sv d s sv' d' sent Hf H) as (c & -> & Hok & He & Hsum & Hback & ->). cbn in Hw, Hl.
  split; cbn.
  - intros sv1 E. destruct Hr as [->| ->]; [done|]. injection E as <-. cbn. apply Forall_forall. intros x [Hx _]%list_elem_of_filter. done.
  - assert (Hn : exists f cc, newest (write d (save_to_next sv) (V2_encode c)) (s :: l) f cc /\ next (save_to_next sv) = next f /\ event_num cc = sc_event_num s).
    { destruct l as [|s0 l].
      - destruct Hl as (Hd & _ & Hsv). rewrite (Hsv sv eq_refl). exists Snapshot0, (LoadedV2 c). split_and!; [|done..]. by apply newest_first.
      - destruct Hl as (f & c0 & N & Hat). destruct (Hat sv eq_refl) as [-> Hev]. exists (next f), (LoadedV2 c). split_and!; [|done..].
        eapply newest_written; [done|lia|done..]. }
    destruct Hn as (f & cc & N & Hnx & Hev). exists f, cc. split; [done|]. intros sv1 E. destruct Hr as [->| ->]; [done|]. injection E as <-. by split.
Qed.

Lemma cut_safe d sv l s left sv' d' sent (r : option Saver) :
  safe {| disk := d; running := Some sv; log := l |} -> fits s -> cut s left ->
  saves sv d s (WriteFailed left) = (Err IOError, sv', d', sent) -> (r = None \/ r = Some sv') ->
  safe {| disk := d'; running := r; log := l |}.
Proof.
  intros [Hw Hl] Hf Hcut H Hr. destruct (save_cut sv d s left sv' d' sent Hf Hcut H) as [-> Hd]. cbn in Hw, Hl.
  split; cbn; [intros sv1 ->; destruct Hr as [|E]; [done|]; injection E as <-; auto|].
  destruct l as [|s0 l].
  - destruct Hl as (H1 & H0 & Hsv). specialize (Hsv sv eq_refl).
    assert (Hrun : forall sv1, r = Some sv1 -> save_to_next sv1 = Snapshot0) by (intros sv1 ->; destruct Hr as [|[= <-]]; done).
    destruct Hd as [->|(k & c & -> & Hok & Hk)]; [done|]. rewrite Hsv. split_and!; [done| |done].
    apply (torn_fails blake3 mug_of_key dead c k _ _ Hok Hk), (read_write d Snapshot0).
  - destruct Hl as (f & c0 & N & Hat). exists f, c0. split; [|intros sv1 ->; destruct Hr as [|[= <-]]; [done|auto]].
    destruct Hd as [->|(k & c & -> & Hok & Hk)]; [done|]. rewrite (proj1 (Hat sv eq_refl)). by apply newest_torn.
Qed.

Lemma empty_boots d : file_1 d = None -> (exists e, loads d Snapshot0 = Err e) ->
  if exists_file d Snapshot0 then exists e, boots d = Err e else boots d = Ok (new_empty, None).
Proof.
  intros H1 [e H0]. unfold try_load. assert (exists_file d Snapshot1 = false) as -> by (unfold exists_file; cbn; by rewrite H1).
  destruct (exists_file d Snapshot0); cbn [negb andb]; [|done].
  destruct (missing_fails blake3 mug_of_key dead d Snapshot1 H1) as [e1 E1]. rewrite H0, E1. by eexists.
Qed.

Lemma step_safe w w' : step w w' -> safe w -> safe w'.
Proof.
  destruct 1 as [d sv l s sv' d' sent Hf Hle H|d sv l s left sv' d' sent Hf Hc H|d sv l s left sv' d' sent Hf Hc H|d sv l s sv' d' sent Hf Hle H
    |d sv l|d l sv o H|d sv l n tx]; intros Hs.
  - eapply written_safe; eauto.
  - eapply cut_safe; eauto.
  - eapply cut_safe; eauto.
  - eapply written_safe; eauto.
  - destruct Hs as [_ Hl]. split; cbn in *; [done|]. destruct l; [destruct Hl as (? & ? & _); by split_and!|].
    destruct Hl as (f & c & N & _). exists f, c. by split.
  - destruct Hs as [_ Hl]. cbn in Hl. destruct l as [|s0 l].
    + destruct Hl as (H1 & H0 & _). pose proof (empty_boots d H1 H0) as Hb. destruct (exists_file d Snapshot0); [destruct Hb; congruence|].
      rewrite Hb in H. injection H as <- <-. split; cbn; [intros sv [= <-]; constructor|]. split_and!; [done..|]. by intros sv [= <-].
    + destruct Hl as (f & c & N & _). destruct (newest_boots d _ f c N) as (f' & c' & s & N' & Hev & Hs & Hin & Hb).
      rewrite Hb in H. injection H as <- <-. split; cbn; [intros sv [= <-]; constructor|]. exists f', c'. split; [done|]. by intros sv [= <-].
  - destruct Hs as [Hw Hl]. cbn in Hw, Hl. unfold wait_for_snapshot. destruct (Z.leb_spec n (last_event_num sv)) as [|Hlt]; [by split|].
    split; cbn.
    + intros sv1 [= <-]. cbn. apply Forall_app. split; [by apply Hw|]. by constructor.
    + destruct l; [destruct Hl as (? & ? & H); split_and!; [done..|]; intros sv1 [= <-]; cbn; by apply H|].
      destruct Hl as (f & c & N & Hat). exists f, c. split; [done|]. intros sv1 [= <-]. cbn. by apply Hat.
Qed.

(** C38: in any history of saves with event numbers that do not decrease, of writes that
    fail or are cut short by a crash after any number of bytes, and of restarts, once a
    checkpoint was written completely every restart succeeds: it returns a completely
    written checkpoint with the greatest event number, and the next save goes to the
    file that checkpoint is not in.  No waiter waits for an event that was saved.  Until
    the first checkpoint is complete a restart fails if its file was begun. *)
Theorem saver_crash_safe w0 w :
  started w0 -> rtc step w0 w ->
  (forall sv, running w = Some sv -> Forall (fun x => last_event_num sv < fst x) (waiters sv)) /\
  match log w with
  | [] => exists_file (disk w) Snapshot0 = true -> exists e, boots (disk w) = Err e
  | l => exists sv s c, boots (disk w) = Ok (sv, Some s) /\ s ∈ l /\ (forall s', s' ∈ l -> sc_event_num s' <= sc_event_num s) /\
      last_event_num sv = sc_event_num s /\
      loads (disk w) (last_path sv) = Ok c /\ into_saveable c = Ok s /\ next_path sv <> last_path sv
  end.
Proof.
  intros H0 Hrun. assert (Hs : safe w).
  { apply started_safe in H0. induction Hrun; [done|]. eauto using step_safe. }
  destruct Hs as [Hw Hl]. split; [done|]. destruct (log w) as [|s0 l].
  - destruct Hl as (H1 & He & _). pose proof (empty_boots (disk w) H1 He) as Hb. intros E. by rewrite E in Hb.
  - destruct Hl as (f & c & N & _). destruct (newest_boots _ _ f c N) as (f' & c' & s & N' & Hev & Hs & Hin & Hb).
    exists (saver_at f' c'), s, c'. pose proof (into_saveable_event c' s Hs) as Hse.
    split_and!; [done|done|rewrite Hse; apply (nw_latest _ _ _ _ N')|done| |done|].
    + replace (last_path (saver_at f' c')) with f' by (by destruct f'). apply (nw_loads _ _ _ _ N').
    + by destruct f'.
Qed.
End history.

(** * Other properties of saving and loading *)

(** A save whose write succeeds returns [Ok] and notifies exactly the waiters for events
    up to the one saved, in their order. *)
Theorem save_notifies {Hash : Type} `{!EqDecision Hash} (blake3 : list Z -> Hash) `{!Bincode Hash} (J : Jammer) `{!JammerLaws J} sv d s :
  fits blake3 J s -> exists sv' d',
    Saver_save blake3 J sv d s Written = (Ok (), sv', d', (filter (fun x => fst x <= sc_event_num s) (waiters sv)).*2) /\
    waiters sv' = filter (fun x => sc_event_num s < fst x) (waiters sv) /\ last_event_num sv' = sc_event_num s.
Proof.
  intros Hf. destruct (fits_jams blake3 J s Hf) as (c & Ec & _). unfold Saver_save. rewrite Ec.
  pose proof (drain_spec (sc_event_num s) (waiters sv)) as [H1 H2]. destruct (drain _ _) as [still sent]. cbn [fst snd] in *. subst.
  by do 2 eexists.
Qed.

Section legacy.
Context {Hash : Type} `{!EqDecision Hash} (blake3 : list Z -> Hash).
Context `{!Bincode Hash, !BincodeLaws Hash} (mug_of_key : noun -> Z) (dead : noun -> list bool).

(** The header of a file of another version *)
Lemma V2_rejects_version d w bs rest v :
  is_u32 v -> v <> SNAPSHOT_VERSION_2 -> bs = enc u64_codec JAM_MAGIC_BYTES ++ enc u32_codec v ++ rest -> read d w = Some bs ->
  exists e, V2_load_from_file blake3 d w = Err e.
Proof.
  intros Hv Hne -> Hr. unfold V2_load_from_file. rewrite Hr. cbn [or_err mbind outcome_bind]. unfold Envelope_decode.
  field u64_lawful. field u32_lawful.
  destruct (dec vec_codec rest) as [[p r]|]; cbn [or_err mbind option_bind outcome_bind]; [|by eexists].
  unfold from_envelope. cbn [env_magic_bytes env_version]. rewrite Z.eqb_refl. cbn [negb].
  rewrite (proj2 (Z.eqb_neq _ _)) by done. by eexists.
Qed.

Lemma V1_rejects_V0 d w buff ker e jam : 
  read d w = Some (V0_encode (V0_new blake3 buff ker e jam)) -> exists err, V1_load_from_file blake3 d w = Err err.
Proof.
  intros Hr. unfold V1_load_from_file. rewrite Hr. cbn [or_err mbind outcome_bind]. unfold V1_decode, V0_encode, V0_new.
  cbn [v0_magic_bytes v0_version]. field u64_lawful. field u32_lawful.
  repeat (match goal with |- context [dec ?x ?y] => destruct (dec x y) as [[? ?]|] end; cbn [or_err mbind option_bind outcome_bind]; [|by eexists]).
  by eexists.
Qed.

(** Files of versions 0 and 1, alone in the directory, load as the checkpoint they were
    made of, and the next save goes to the other file. *)
Theorem legacy_checkpoints_load ker e state cold buff :
  is_u64 e -> jammable (NCell state cold) -> jammable state -> jammable cold ->
  exists jam, slab_jam mug_of_key (dead (NCell state cold)) (NCell state cold) = Some jam /\
  forall bs, (bs = V1_encode (V1_new blake3 ker e jam) \/ bs = V0_encode (V0_new blake3 buff ker e jam)) ->
    try_load blake3 mug_of_key dead {| file_0 := Some bs; file_1 := None |} =
      Ok ({| save_to_next := Snapshot1; waiters := []; last_event_num := e |},
          Some {| sc_ker_hash := ker; sc_event_num := e; sc_state := state; sc_cold := cold |}).
Proof.
  intros He Hn Hs Hc. destruct (nock_cue_jam mug_of_key (dead (NCell state cold)) _ Hn) as (jam & Ejam & Hjam & Ecue). exists jam. split; [done|].
  intros bs Hbs. set (d := {| file_0 := Some bs; file_1 := None |}).
  assert (Hr : read d Snapshot0 = Some bs) by done.
  assert (Hload : exists c, load_checkpoint_file blake3 mug_of_key dead d Snapshot0 = Ok c /\ event_num c = e /\
    into_saveable c = Ok {| sc_ker_hash := ker; sc_event_num := e; sc_state := state; sc_cold := cold |}).
  { unfold load_checkpoint_file. destruct Hbs as [-> | ->].
    - destruct (V2_rejects_version d Snapshot0 _ _ SNAPSHOT_VERSION_1 ltac:(done) ltac:(done) eq_refl Hr) as [e2 ->].
      unfold V1_load_from_file. rewrite Hr. cbn [or_err mbind outcome_bind]. unfold V1_decode, V1_encode, V1_new. cbn -[enc dec V1_validate checksum_v1 NockJammer_cue].
      field u64_lawful. field u32_lawful.
      do 2 field hash_lawful. field u64_lawful.
      rewrite <- (app_nil_r (enc jam_codec jam)), (dec_enc jam_lawful) by done. cbn -[V1_validate checksum_v1 NockJammer_cue].
      unfold V1_validate. cbn -[checksum_v1 NockJammer_cue]. rewrite decide_True by done. cbn -[NockJammer_cue checksum_v1]. eexists. split_and!; [done..|].
      cbn -[NockJammer_cue]. unfold from_jammed_checkpoint_v1, cue_into. cbn [v1_jam]. by rewrite Ecue.
    - destruct (V2_rejects_version d Snapshot0 _ _ SNAPSHOT_VERSION_0 ltac:(done) ltac:(done) eq_refl Hr) as [e2 ->].
      destruct (V1_rejects_V0 d Snapshot0 buff ker e jam Hr) as [e1 ->].
      unfold V0_load_from_file. rewrite Hr. cbn [or_err mbind outcome_bind]. unfold V0_decode, V0_encode, V0_new. cbn -[enc dec V0_validate checksum_v1 NockJammer_cue].
      field u64_lawful. field u32_lawful.
      field bool_lawful.
      do 2 field hash_lawful. field u64_lawful.
      rewrite <- (app_nil_r (enc jam_codec jam)), (dec_enc jam_lawful) by done. cbn -[V0_validate checksum_v1 NockJammer_cue from_V0].
      unfold V0_validate. cbn -[checksum_v1 NockJammer_cue from_V0]. rewrite decide_True by done. cbn -[NockJammer_cue checksum_v1 from_V0].
      unfold from_V0, cue_into. cbn [v0_jam]. rewrite Ecue. cbn -[slab_jam NockJammer_cue].
      destruct (nock_cue_jam mug_of_key (dead state) state Hs) as (sj & -> & _ & Es). destruct (nock_cue_jam mug_of_key (dead cold) cold Hc) as (cj & -> & _ & Ec).
      cbn -[NockJammer_cue]. eexists. split_and!; [done..|]. cbn -[NockJammer_cue]. unfold from_jammed_checkpoint_v2, cue_into, V2_new. cbn [v2_state_jam v2_cold_jam].
      rewrite Es. cbn -[NockJammer_cue]. by rewrite Ec. }
  destruct Hload as (c & Hload & Hev & Hsave). destruct (missing_fails blake3 mug_of_key dead d Snapshot1 eq_refl) as [e1 Hmiss].
  unfold try_load. cbn [exists_file read d file_0 file_1 negb andb]. fold d. rewrite Hload, Hmiss. cbn [mbind outcome_bind]. rewrite Hsave. cbn [mbind outcome_bind].
  by rewrite Hev.
Qed.
End legacy.

(** * bincode's standard configuration *)

(** Unsigned integers below 251 are one byte; larger ones a marker and 2, 4 or 8 bytes. *)
Definition varint_enc (u : Z) : list Z :=
  if u <? 251 then [u]
  else if u <? 2 ^ 16 then 251 :: to_le_bytes 2 u
  else if u <? 2 ^ 32 then 252 :: to_le_bytes 4 u
  else 253 :: to_le_bytes 8 u.
Definition fixed_dec (n : nat) (bs : list Z) : option (Z * list Z) :=
  if (n <=? length bs)%nat then Some (from_le_bytes (take n bs), drop n bs) else None.
Definition varint_dec (bs : list Z) : option (Z * list Z) :=
  match bs with
  | [] => None
  | b :: bs =>
      if b <? 251 then Some (b, bs)
      else if b =? 251 then fixed_dec 2 bs
      else if b =? 252 then fixed_dec 4 bs
      else if b =? 253 then fixed_dec 8 bs
      else None
  end.
Definition varint : Codec Z := {| enc := varint_enc; dec := varint_dec |}.
Definition bool_bincode : Codec bool := {|
  enc := fun b : bool => [if b then 1 else 0];
  dec bs := match bs with b :: r => if b =? 0 then Some (false, r) else if b =? 1 then Some (true, r) else None | [] => None end;
|}.
Definition bytes_bincode : Codec (list Z) := {|
  enc bs := varint_enc (Z.of_nat (length bs)) ++ bs;
  dec bs := '(n, r) ← varint_dec bs; if n <=? Z.of_nat (length r) then Some (take (Z.to_nat n) r, drop (Z.to_nat n) r) else None;
|}.

Lemma fixed_enc n u r : 0 <= u < 256 ^ Z.of_nat n -> fixed_dec n (to_le_bytes n u ++ r) = Some (u, r).
Proof.
  intros Hu. unfold fixed_dec. rewrite length_app, length_to_le_bytes, (proj2 (Nat.leb_le _ _)) by lia.
  rewrite <- (length_to_le_bytes n u) at 1 3. rewrite take_app_length, drop_app_length. by rewrite from_to_le_bytes.
Qed.
Lemma fixed_more n bs u r s : fixed_dec n bs = Some (u, r) -> fixed_dec n (bs ++ s) = Some (u, r ++ s).
Proof.
  unfold fixed_dec. destruct (Nat.leb_spec n (length bs)); [|done]. intros [= <- <-].
  rewrite length_app, (proj2 (Nat.leb_le _ _)) by lia. by rewrite take_app_le, drop_app_le by lia.
Qed.

Lemma varint_lawful (P : Z -> Prop) : (forall u, P u -> is_u64 u) -> lawful P varint.
Proof.
  intros HP. split; cbn [enc dec varint].
  - intros u r Hu%HP. width. unfold varint_enc.
    destruct (Z.ltb_spec u 251); [cbn; by rewrite (proj2 (Z.ltb_lt u 251)) by done|].
    destruct (Z.ltb_spec u (2 ^ 16)); [by rewrite <- app_comm_cons; cbn [varint_dec]; apply fixed_enc; cbn; lia|].
    destruct (Z.ltb_spec u (2 ^ 32)); [by rewrite <- app_comm_cons; cbn [varint_dec]; apply fixed_enc; cbn; lia|].
    rewrite <- app_comm_cons. cbn [varint_dec]. apply fixed_enc. cbn. lia.
  - intros [|b bs] u r s; [done|]. rewrite <- app_comm_cons. cbn [varint_dec]. destruct (b <? 251); [by intros [= <- <-]|].
    destruct (b =? 251); [apply fixed_more|]. destruct (b =? 252); [apply fixed_more|]. destruct (b =? 253); [apply fixed_more|done].
  - intros u Hu%HP. width. unfold varint_enc, byte. destruct (Z.ltb_spec u 251); [constructor; [lia|constructor]|].
    destruct (u <? _); [constructor; [done|apply to_le_bytes_byte]|]. destruct (u <? _); constructor; done || apply to_le_bytes_byte.
Qed.

Lemma bytes_lawful : lawful valid_bytes bytes_bincode.
Proof.
  pose proof (varint_lawful is_u64 (fun u H => H)) as V. split; cbn [enc dec bytes_bincode].
  - intros bs r [_ Hl]. rewrite <- app_assoc. pose proof (dec_enc V (Z.of_nat (length bs)) (bs ++ r)) as H. cbn [enc dec varint] in H.
    rewrite H by (width; lia). cbn [mbind option_bind]. rewrite length_app, (proj2 (Z.leb_le _ _)) by lia.
    by rewrite Nat2Z.id, take_app_length, drop_app_length.
  - intros bs a r s. destruct (varint_dec bs) as [[n b1]|] eqn:E; cbn [mbind option_bind]; [|done].
    pose proof (dec_more V _ _ _ s E) as H. cbn [dec varint] in H. rewrite H. cbn [mbind option_bind].
    destruct (Z.leb_spec n (Z.of_nat (length b1))); [|done]. intros [= <- <-]. rewrite length_app, (proj2 (Z.leb_le _ _)) by lia.
    by rewrite take_app_le, drop_app_le by lia.
  - intros bs [Hb Hl]. apply Forall_app. split; [|done]. apply (enc_bytes V). width. lia.
Qed.

(** A hash of one bit stands for the hashes of blake3. *)
#[local] Instance bincode_standard : Bincode bool := {|
  u64_codec := varint; u32_codec := varint; bool_codec := bool_bincode;
  hash_codec := bool_bincode; vec_codec := bytes_bincode; jam_codec := bytes_bincode |}.
#[local] Instance bincode_standard_laws : BincodeLaws bool.
Proof.
  assert (B : lawful (fun _ : bool => True) bool_bincode).
  { split; cbn; [by intros [] r|intros [|b bs] a r s; [done|]; cbn; destruct (b =? 0); [by intros [= <- <-]|]; destruct (b =? 1); [by intros [= <- <-]|done]|].
    intros [] _; by constructor. }
  split; [apply varint_lawful; done|apply varint_lawful; width; lia|done|done|apply bytes_lawful..].
Defined.

(** The second save of a new directory is cut off after five bytes. *)
Definition parity (bs : list Z) : bool := Z.odd (foldr Z.add 0 bs).
Definition jammer : Jammer := NockJammer (fun _ => 0) (fun _ => []).
Definition sample_checkpoint (e state : Z) : SaveableCheckpoint := {| sc_ker_hash := true; sc_event_num := e; sc_state := D state; sc_cold := D 0 |}.
Definition saver_1 : Saver := {| save_to_next := Snapshot1; waiters := []; last_event_num := 3 |}.
Definition disk_1 : Disk := Eval vm_compute in
  snd (fst (Saver_save parity jammer new_empty {| file_0 := None; file_1 := None |} (sample_checkpoint 3 7) Written)).
Definition disk_2 : Disk := Eval vm_compute in
  snd (fst (Saver_save parity jammer saver_1 disk_1 (sample_checkpoint 5 8) (WriteFailed (Some 5%nat)))).

#[local] Instance jammer_laws : JammerLaws jammer := NockJammer_laws _ _.

Lemma sample_fits e state : e = 3 /\ state = 7 \/ e = 5 /\ state = 8 -> fits parity jammer (sample_checkpoint e state).
Proof.
  intros [[-> ->]|[-> ->]]; (split; [done|]; split; [split_and!; vm_compute; done|]; split; [split_and!; vm_compute; done|]);
    intros c Hc; vm_compute in Hc; injection Hc as <-; vm_compute; done.
Qed.

Lemma saver_crash_safe_witness :
  exists sv, try_load parity (fun _ => 0) (fun _ => []) disk_2 = Ok (sv, Some (sample_checkpoint 3 7)) /\ last_event_num sv = 3.
Proof.
  destruct (saver_crash_safe parity jammer (fun _ => 0) (fun _ => [])
    {| disk := {| file_0 := None; file_1 := None |}; running := Some new_empty; log := [] |}
    {| disk := disk_2; running := None; log := [sample_checkpoint 3 7] |}) as [_ (sv & s & c & Hb & Hin & _ & He & _)].
  - constructor.
  - eapply rtc_l; [eapply (step_save _ _ _ _ _ new_empty [] (sample_checkpoint 3 7) saver_1 disk_1 []); [apply sample_fits; auto|done|vm_compute; reflexivity]|].
    eapply rtc_once, (step_crash_in_save _ _ _ _ disk_1 saver_1 _ (sample_checkpoint 5 8) (Some 5%nat) saver_1 disk_2 []); [apply sample_fits; auto| |vm_compute; reflexivity].
    intros k c [= <-] Hc. vm_compute in Hc. injection Hc as <-. vm_compute. lia.
  - cbn [log disk] in *. apply list_elem_of_singleton in Hin as ->. exists sv. by split.
Defined.
